(* ===== verification/_CoqProject ===== *)
-Q . S2P
Prelude.v
Utf8.v
Labels.v
Lww.v
Silence.v
Instances.v
SilenceInv.v
SilenceOps.v
Alert.v
Nflog.v
Notify.v
NotifyInv.v
NotifyUtil.v
Bucket.v
Store.v
Provider.v
Inhibit.v
Unquote.v
Strconv.v
Route.v
Dispatch.v
DispatchInv.v
DispatchThm.v
RouteLabelsCache.v
Groups.v
Calendar.v
TimeInterval.v
TimeIntervalInv.v
DispatchExamples.v
PipelineExamples.v
Silencer.v
SilenceExamples.v
MatchLexer.v
MatchParser.v
Compat.v
MatchExamples.v
Api.v
ApiInv.v
ApiStatus.v
ApiExamples.v
ConfigReceivers.v
ConfigReceiversInv.v
Config.v
Reload.v
ConfigExamples.v
Cluster.v
Gossip.v
Maintenance.v
ClusterExamples.v
Template.v
TemplateExamples.v
Notifier.v
Webhook.v
PagerDuty.v
OpsGenie.v
VictorOps.v
Discord.v
Webex.v
MSTeams.v
MSTeamsV2.v
Pushover.v
Rocketchat.v
Mattermost.v
Slack.v
Jira.v
Incidentio.v
NotifierInv.v
NotifierThm.v
Validation.v
Email.v
NotifierExamples.v
MessageServices.v
EventRecorder.v
Lifecycle.v
Transport.v
Admission.v
Cli.v
