(* ===== verification/Prelude.v ===== *)
(** * A verification of Alertmanager

    The Go sources are under src/upstream/.  Alertmanager receives alerts over
    HTTP, groups them along a routing tree, and notifies receivers, unless an
    alert is silenced, inhibited or outside its time intervals.  Peers exchange
    silences and their notification logs by gossip.

    ** Parts of the program, and the files that model them

    An alert enters through the API (api/v2), is stored by the provider
    (provider/mem, store, limit), which passes it on to the inhibitor (inhibit)
    and to the dispatcher (dispatch).  The dispatcher sorts it into aggregation
    groups along the routing tree; a group flushes its alerts into the
    notification pipeline (notify), whose stages consult the inhibitor, the
    silencer (silence), the time intervals (timeinterval) and the notification
    log (nflog).  Matchers (pkg/labels, matcher/) are what silences, inhibition
    rules and routes are written in.

    - Prelude.v: results, machine integers, instants and durations, iteration
      over maps ([MapRange]), binary search, shared lemmas and tactics.
    - Utf8.v, Unquote.v, Strconv.v, Calendar.v: the parts of Go's standard
      library the sources use (unicode/utf8, strconv, strings, time).
    - Labels.v: pkg/labels/matcher.go.
    - MatchLexer.v, MatchParser.v: matcher/parse (lexer.go, token.go, parse.go)
      with their theorems.  Compat.v: the printed form of matchers,
      pkg/labels/parse.go and matcher/compat.  MatchExamples.v: concrete inputs.
    - Lww.v: last-writer-wins maps, the interface [Lww] through which silences
      and log entries share one convergence proof.
    - Silence.v: silence/silence.go and state.go, one definition per method of
      [Silences]; SilenceInv.v (invariant), SilenceOps.v (queries, operations,
      snapshots).  Silencer.v: silence/cache.go and [Silencer], with the proof
      of its cache.  SilenceExamples.v.
    - Alert.v: alert/ and marker/.
    - Nflog.v: nflog/.
    - Notify.v: the stages of notify/ and the pipeline builder; NotifyInv.v, with
      the retry loop over an infinite sequence of events ([PipelineLive]);
      NotifyUtil.v: notify/util.go; PipelineExamples.v.
    - Bucket.v: limit/bucket.go with container/heap; Store.v: store/store.go;
      Provider.v: provider/mem/mem.go; Inhibit.v: inhibit/.
    - Route.v: dispatch/route.go; Dispatch.v: dispatch/dispatch.go;
      DispatchInv.v, DispatchThm.v, DispatchExamples.v.
    - TimeInterval.v: timeinterval/; TimeIntervalInv.v, with its composition with
      the stages of notify/mute.go ([TimeStages]).
    - RouteLabelsCache.v: the lock-free cache of route labels, action by action.
      Groups.v: [Groups] of dispatch/dispatch.go.
    - Api.v: the handlers of api/v2/api.go with the conversions of compat.go;
      ApiInv.v, ApiStatus.v (composition with the silencer, the inhibitor, the
      routes and the dispatcher), ApiExamples.v.
    - ConfigReceivers.v, ConfigReceiversInv.v: what receivers inherit from the
      global block, on a heap of shared HTTP configurations (config/config.go);
      Config.v: the UnmarshalYAML methods, [Load] and [LoadFile]; Reload.v: app/reloader.go,
      config/receiver and config/coordinator.go.  ConfigExamples.v.
    - Cluster.v: cluster/cluster.go (books about peers, settling), delegate.go,
      channel.go and app/cluster.go.  Gossip.v: the exchange of the two states
      app/app.go registers.
    - Maintenance.v: the maintenance loop and the snapshot file, over a file
      system with crashes, for any store that implements [Persistent], with
      silences and log as instances.  ClusterExamples.v.
    - Template.v: the data of templates and the resolver of route labels
      (template/template.go); TemplateExamples.v.
    - Notifier.v: the effects of a notifier (requests that were sent, the error
      variable of templates, early returns) as a monad, and what the integrations
      share (notify/util.go, DeepCopyWithTemplate).  The integrations under
      notify/: Webhook.v, PagerDuty.v, OpsGenie.v, VictorOps.v, Discord.v,
      Webex.v, MSTeams.v, MSTeamsV2.v, Pushover.v, Rocketchat.v, Mattermost.v,
      Slack.v, Jira.v, Email.v, Incidentio.v, and MessageServices.v (WeChat,
      Telegram, SNS).  Validation.v: the Validate methods of their
      configurations.
    - NotifierInv.v: a program logic for that monad; NotifierThm.v: theorems
      about the integrations; NotifierExamples.v.
    - EventRecorder.v: the recorder's queue and loop, its outputs (batches of the
      webhook with retries, the Kafka queue) and their configuration
      (eventrecorder/, kafka/).
    - Transport.v: framing of messages over TLS records, the receiving loop, the
      pool of connections and the advertised address (cluster/tls_connection.go,
      connection_pool.go, tls_transport.go, advertise.go).
    - Admission.v: limits of concurrent requests (api/api.go, api/connect/).
    - Cli.v: the commands of amtool that add, update, query and import silences,
      add alerts and test routes (cli/).
    - Lifecycle.v: options, feature flags, set-up, start and teardown of the
      application as traces of what is opened and shut (app/, featurecontrol/).
    - Instances.v: concrete instances of the parameters, for the examples.

    ** How the code is translated

    A struct is a record, a method that changes its receiver a function that
    returns the new record, an error a [result] or an option.  Machine integers
    are [Z], wrapped where the code can overflow; an instant is a number of
    nanoseconds since Go's zero time, an unset timestamp [None].  A read of the
    clock is an argument, one per read.  A mutex makes a method atomic; where
    code runs concurrently without one lock (the dispatcher) each atomic action
    is a step of a relation over the shared heap.  A nil-pointer or
    out-of-range panic is [None] or an error of its own.  Maps are [gmap], and
    the order in which Go iterates over one is left open ([MapRange]).

    What is outside the repository is a parameter with the laws the code relies
    on: regular expressions ([Regexp]), the protobuf codecs, fingerprints
    ([Fingerprinter]) and xxhash, label validation and model.LabelSet
    ([LabelValidation], [PromModel], [LabelSetString]), Unicode tables
    ([UnicodePrint], [UnicodeLower]), templates ([RouteLabelRenderer],
    [NotifierLib]), JSON ([Encoder], [JiraLib]), URLs, HTTP configurations and
    their checks ([ConfigLib], [ValidationLib]), zone data ([lookup] of a
    location), the network (the [env] of a notifier), callbacks and the back-off
    timer (the [oracle] of the pipeline).

    ** What the theorems show

    - Silences: the three maps of the store agree ([SilenceInv.wf],
      [SilenceInv.indexed]); queries, expiry, replacement and garbage collection do
      what they say; gossip converges where update times differ and nothing is
      past its retention; snapshots are read back, if no message is over the
      4 MiB that protodelim reads; the silencer's incremental cache gives the
      answer of a full scan, but for silences that gossip revived.
    - Notification log and pipeline: entries converge and are found again; a
      notification is not repeated within the repeat interval without a change,
      a failed one is not logged, a retried one succeeds at most once.
    - Stores: the heap of the limit bucket is a bounded map with expiry; a
      subscriber misses no alert; a destroyed group accepts none.
    - Inhibition: under any interleaving of processing and collecting, whose
      callbacks are steps of their own, answers are justified by a cached source
      alert, and a fresh source alert takes effect at once.
    - Routing and dispatching: the routes an alert reaches, inherited options,
      unique identifiers; in every interleaving of workers, flushes and
      maintenance an alert reaches a live group and stays in one until a flush
      has notified it as resolved successfully; routing terminates.
    - Time intervals: [ContainsTime] agrees with the calendar, the text forms
      are read back, and the time stages follow the calendar.
    - Matcher parsing: the automaton accepts exactly the grammar, never panics,
      and reads back printed matchers (in the classic mode those with classic
      names).
    - Delivery: a due notification whose failures are retryable is delivered and
      logged after finitely many rounds ([due_notification_delivered]).
    - API: the alerts, groups and silences a client sees are exactly those of the
      stores that pass the filters, with their states; a new silence is shown as
      it was posted; stored alerts are well-formed.
    - Configuration: what [Load] accepts can be put into operation; receivers are
      complete; a reload panics exactly when loading the file does, and otherwise
      succeeds as a whole or leaves the running components.
    - Cluster: peers that exchanged their states agree; waits of members differ.
    - Crash safety: what a maintenance run does to the snapshot file on every
      branch; whatever the moment of a crash, the next start restores the state of
      the last complete maintenance with its indices, unless serialising or
      writing failed.
    - Templates: common labels are the shared ones; the memoising resolver gives
      what plain recursive rendering gives, in any order.  A cached render is
      never older than a completed change.
    - Notifiers: eleven integrations send nothing when a template fails; after which
      failures each integration asks for a retry; a group has at most one open
      Jira issue; Slack edits the group's own message; required TLS protects a
      mail; the token of WeChat is cached.
    - Event recorder: under any interleaving every output has exactly the events
      handled while it was in use, in order, the queue is emptied before the loop
      ends (events recorded later are lost), and a reload that
      fails keeps the old outputs ([recorder_exact], [recorder_reload_atomic]);
      batches and retries of the webhook ([batches_exact],
      [post_with_retry_exact]).
    - Transport: however TLS splits writes into records, the packets of a
      connection arrive complete and in order although each is read through a
      buffer of its own ([transport_lossless]); on any input the loop ends
      ([handle_total]); the pool gives live connections and loses none
      ([pool_exact]).
    - Admission: places taken are requests in progress, and a request is refused
      exactly when all are taken ([limiter_exact], [rpc_admission_exact],
      [snapshot_exact]).
    - amtool: a silence it adds has the typed matchers ([amtool_add_exact]); the
      tree it draws shows the routes the dispatcher takes ([routes_test_exact]);
      an import posts everything once ([import_exact]).
    - Lifecycle: wherever set-up fails, and after [Stop], everything is shut, in
      dependency order, except memberlist, which the code never shuts down, and
      what a failing creation of the peer leaves ([app_teardown_complete], [stop_order]).
    Some theorems exhibit behaviour that contradicts a comment or the evident
    intention of the code: [revived_silence_not_muted],
    [inhibition_lost_after_gc], [bucket_stale_with_live_item],
    [days_28_to_last_refused], [classic_backslash_comma_refused],
    [good_snapshot_lost], [delegate_left], [loading_panics], [resolve_completes_iff_no_null_slot],
    [slack_checks_panic], [timed_out_peer_kept],
    [multi_set_silence_breaks_listing], [active_listing_shows_expired],
    [failed_template_delivered], [validation_gaps], [opsgenie_teams_not_split],
    [sns_truncation_cuts_characters], [wechat_empty_secret_sent],
    [backoff_overflows], [failed_output_not_retried],
    [length_error_keeps_lock], [implicit_alertname_tab],
    [import_without_workers].

    ** Bounds and fuel

    Recursion that is not structural takes a fuel that is enough by
    construction: [sort_Search] halves an interval and gets its length; loops
    over bytes get the length of the input ([runes_fuel], [quote_fuel],
    [unq], [digits_fuel]), decoding of a snapshot and the loops of the lexer one
    more, since each round consumes a byte; the parser of matchers three
    transitions per byte and four more ([utf8_parser_total] shows that it
    returns); [groupAlert] without interference needs twelve actions, and at
    most 413 of its own under any interference ([groupAlert_terminates]).  The
    resolver of route labels gets one level per label, since a label that is
    being resolved is not entered again; settling ends five polls after the
    membership is stable ([settle_terminates]).  The
    receiving loop of the transport gets one round per byte and one more
    ([handle_total]).  A
    notification is retried for as many rounds as the oracle gives; [None]
    stands for a call that has not returned.

    ** Not modelled

    Metrics, tracing and logging observe the program and do not influence it.
    Left out because they are network or process handling: the web server and
    user interface, the flags of the commands and the printed forms of amtool.
    The server and client code that is generated from the API description is left
    out.  The template engine, YAML and JSON are libraries.
    Of the integrations, timeouts, waits and the clients of Telegram and AWS are
    left out, and JSON is an encoder given as an argument.  Of the configuration,
    the forms of secrets and URLs and the paths of templates are left out.  Of the cluster, joining,
    resolving host names and the handshake of TLS are left out; of the
    dispatcher, its shutdown; of the event recorder, the construction of events,
    the file output and the Kafka client. *)

From stdpp Require Import base gmap strings list sorting pretty numbers fin_maps.

Declare Scope am_scope.
Delimit Scope am_scope with am.
#[global] Open Scope Z_scope.

(** ** Fallible code

    Go's [(T, error)] results.  The error type is chosen by each component. *)
Inductive result (E A : Type) : Type :=
| Ok (a : A)
| Err (e : E).
Arguments Ok {E A} a.
Arguments Err {E A} e.

#[global] Instance result_ret {E} : MRet (result E) := λ A, Ok.
#[global] Instance result_bind {E} : MBind (result E) := λ A B f r,
  match r with Ok a => f a | Err e => Err e end.
#[global] Instance result_fmap {E} : FMap (result E) := λ A B f r,
  match r with Ok a => Ok (f a) | Err e => Err e end.

Definition is_ok {E A} (r : result E A) : bool :=
  match r with Ok _ => true | Err _ => false end.

Lemma result_bind_Ok {E A B} (r : result E A) (f : A → result E B) b :
  (r ≫= f) = Ok b ↔ ∃ a, r = Ok a ∧ f a = Ok b.
Proof. destruct r as [a|e]; cbn; naive_solver. Qed.

Lemma result_bind_Err {E A B} (r : result E A) (f : A → result E B) e :
  (r ≫= f) = Err e ↔ r = Err e ∨ ∃ a, r = Ok a ∧ f a = Err e.
Proof. destruct r as [a|e']; cbn; naive_solver. Qed.

(** ** Machine integers and time

    Go's [int64] (also [int] and [time.Duration] on the supported platforms)
    wraps around; [time.Time] is a number of nanoseconds counted from Go's zero
    [Time] (January 1, year 1), so that [IsZero] is a test against [0]. *)
Definition wrap64 (x : Z) : Z := (x + 2 ^ 63) mod 2 ^ 64 - 2 ^ 63.
Definition in_int64 (x : Z) : Prop := - 2 ^ 63 ≤ x < 2 ^ 63.

Lemma wrap64_id x : in_int64 x → wrap64 x = x.
Proof. unfold in_int64, wrap64. intros H. rewrite Z.mod_small; lia. Qed.

Lemma wrap64_range x : in_int64 (wrap64 x).
Proof.
  unfold in_int64, wrap64.
  pose proof (Z.mod_pos_bound (x + 2 ^ 63) (2 ^ 64) ltac:(lia)). lia.
Qed.

Abbreviation time := Z (only parsing).
Abbreviation duration := Z (only parsing).

Definition second : duration := 1000000000.
Definition minute : duration := 60 * second.
Definition hour : duration := 60 * minute.

(** Seconds between the zero [Time] and the Unix epoch. *)
Definition unixToInternal : Z := 62135596800.
Definition unix_epoch : time := unixToInternal * second.

Definition IsZero (t : time) : bool := t =? 0.
Definition Before (t u : time) : bool := t <? u.
Definition After (t u : time) : bool := u <? t.
Definition Unix (t : time) : Z := t / second - unixToInternal.

(** A protobuf timestamp is a nullable message; [AsTime] of a nil one is the
    Unix epoch, and [timestamppb.New] keeps the instant. *)
Abbreviation timestamp := (option Z) (only parsing).
Definition AsTime (ts : timestamp) : time := default unix_epoch ts.
Definition timestamppb_New (t : time) : timestamp := Some t.

Lemma Before_spec t u : reflect (t < u) (Before t u).
Proof. apply Z.ltb_spec0. Qed.
Lemma After_spec t u : reflect (u < t) (After t u).
Proof. apply Z.ltb_spec0. Qed.

(** ** Iteration order

    A Go [range] over a map visits every entry exactly once in an unspecified
    order.  Components that range over a map are parametrised by this class, so
    their theorems hold for every order. *)
Class MapRange := {
  range : ∀ {K V} `{Countable K}, gmap K V → list (K * V);
  range_perm : ∀ {K V} `{Countable K} (m : gmap K V), range m ≡ₚ map_to_list m;
}.

Definition sorted_range : MapRange :=
  {| range := λ K V _ _ m, map_to_list m; range_perm := λ K V _ _ m, reflexivity _ |}.

Section map_range.
Context `{MR : !MapRange} {K V : Type} `{Countable K}.
Implicit Types m : gmap K V.

Lemma elem_of_range m k v : (k, v) ∈ range m ↔ m !! k = Some v.
Proof. by rewrite range_perm, elem_of_map_to_list. Qed.

Lemma NoDup_fst_range m : NoDup (range m).*1.
Proof. rewrite range_perm. apply NoDup_fst_map_to_list. Qed.

Lemma length_range m : length (range m) = size m.
Proof. by rewrite range_perm, length_map_to_list. Qed.

Lemma range_empty : range (∅ : gmap K V) = [].
Proof.
  apply Permutation_nil_r. by rewrite range_perm, map_to_list_empty.
Qed.
End map_range.

(** ** Label sets

    [model.LabelSet] is a map from names to values; its fingerprint is computed
    by github.com/prometheus/common and is a parameter here.  A theorem that
    needs the absence of hash collisions says so in a hypothesis. *)
Abbreviation LabelSet := (gmap string string).

Class Fingerprinter := Fingerprint : LabelSet → Z.

(** Reading a missing key of a Go [map[string]string] gives the empty string. *)
Definition label_get (ls : LabelSet) (n : string) : string := default ""%string (ls !! n).

(** ** sort.Search

    The binary search of the Go standard library: the smallest index in
    [[i, j)] at which [f] holds, or [j].  The loop halves the interval, so
    [j - i] rounds of fuel are always enough ([sort_Search_spec]). *)
Fixpoint search_loop (fuel : nat) (f : nat → bool) (i j : nat) : nat :=
  match fuel with
  | O => i
  | S fuel =>
      if decide (i < j)%nat then
        let h := Nat.div2 (i + j) in
        if f h then search_loop fuel f i h else search_loop fuel f (S h) j
      else i
  end.

Definition sort_Search (n : nat) (f : nat → bool) : nat := search_loop n f 0 n.

Lemma div2_between i j : (i < j)%nat → (i ≤ Nat.div2 (i + j) < j)%nat.
Proof.
  intros Hij. rewrite Nat.div2_div.
  pose proof (Nat.div_mod_eq (i + j) 2).
  pose proof (Nat.mod_upper_bound (i + j) 2 ltac:(lia)). lia.
Qed.

Section search.
Context (f : nat → bool).
Hypothesis mono : ∀ a b, (a ≤ b)%nat → f a = true → f b = true.

Lemma search_loop_spec fuel : ∀ i j, (i ≤ j)%nat → (j - i ≤ fuel)%nat →
  let r := search_loop fuel f i j in
  (i ≤ r ≤ j)%nat ∧ (∀ k, (i ≤ k < r)%nat → f k = false) ∧
  (∀ k, (r ≤ k < j)%nat → f k = true).
Proof using mono.
  induction fuel as [|fuel IH]; intros i j Hij Hf; cbn; [repeat split; intros; lia|].
  case_decide as Hlt; [|repeat split; try lia].
  pose proof (div2_between i j Hlt) as Hh. set (h := Nat.div2 (i + j)) in *.
  destruct (f h) eqn:Hfh.
  - destruct (IH i h) as (Hr & Hlo & Hhi); [lia..|].
    repeat split; [lia|lia|done|]. intros k Hk.
    destruct (decide (k < h)%nat); [apply Hhi; lia|].
    apply (mono h k); [lia|done].
  - destruct (IH (S h) j) as (Hr & Hlo & Hhi); [lia..|].
    repeat split; [lia|lia| |done]. intros k Hk.
    destruct (decide (k ≤ h)%nat); [|apply Hlo; lia].
    destruct (f k) eqn:Hfk; [|done]. exfalso.
    rewrite (mono k h) in Hfh; done.
Qed.
End search.

(** ** Lists *)
#[global] Instance filter_bool_Permutation {A} (f : A → bool) :
  Proper ((≡ₚ) ==> (≡ₚ)) (List.filter f).
Proof.
  induction 1 as [|x l l' _ IH|x y l|l1 l2 l3 _ IH1 _ IH2]; cbn; [done| | |by etrans].
  - destruct (f x); by rewrite IH.
  - destruct (f x), (f y); by constructor || done.
Qed.

Lemma filter_filter_bool {A} (f g : A → bool) l :
  List.filter g (List.filter f l) = List.filter (λ x, f x && g x) l.
Proof. induction l as [|x l IH]; cbn; [done|]. destruct (f x); cbn; by rewrite IH. Qed.

Lemma StronglySorted_filter {A} (R : relation A) (f : A → bool) l :
  StronglySorted R l → StronglySorted R (List.filter f l).
Proof.
  induction 1 as [|x l _ IH Hx]; cbn; [constructor|]. destruct (f x); [|done].
  constructor; [done|]. rewrite Forall_forall in *.
  intros y Hy%list_elem_of_In. apply filter_In in Hy as [Hy _]. by apply Hx, list_elem_of_In.
Qed.

Lemma StronglySorted_lookup {A} (R : relation A) l i j x y :
  StronglySorted R l → l !! i = Some x → l !! j = Some y → (i < j)%nat → R x y.
Proof.
  intros Hs. revert i j. induction Hs as [|z l _ IH Hz]; intros i j Hi Hj Hij; [done|].
  destruct j as [|j]; [lia|]. destruct i as [|i]; cbn in *; simplify_eq.
  - rewrite Forall_forall in Hz. apply Hz. apply list_elem_of_lookup. eauto.
  - apply (IH i j); [done..|lia].
Qed.

(** A suffix on which [f] holds and a prefix on which it does not. *)
Lemma filter_eq_drop {A} (f : A → bool) (l : list A) (r : nat) :
  (∀ k x, l !! k = Some x → (k < r)%nat → f x = false) →
  (∀ k x, l !! k = Some x → (r ≤ k)%nat → f x = true) →
  List.filter f l = drop r l.
Proof.
  revert r. induction l as [|y l IH]; intros r Hlo Hhi; [by destruct r|].
  destruct r as [|r]; cbn.
  - rewrite (Hhi 0%nat y) by (done || lia). f_equal.
    rewrite (IH 0%nat); [done| |]; intros k x Hx Hk; [lia|].
    apply (Hhi (S k)); [done|lia].
  - rewrite (Hlo 0%nat y) by (done || lia). apply IH; intros k x Hx Hk.
    + apply (Hlo (S k)); [done|lia].
    + apply (Hhi (S k)); [done|lia].
Qed.

(** The entries of a range, filtered, still have pairwise different keys. *)
Lemma NoDup_fst_filter {V} (f : string * V → bool) (l : list (string * V)) :
  NoDup l.*1 → NoDup (List.filter f l).*1.
Proof.
  induction l as [|[k v] l IH]; cbn; [done|]. intros [Hn Hnd]%NoDup_cons.
  destruct (f (k, v)); cbn; [|by apply IH]. apply NoDup_cons. split; [|by apply IH].
  intros ([k' v'] & -> & Hin)%list_elem_of_fmap. apply Hn, list_elem_of_fmap.
  exists (k', v'). split; [done|]. apply list_elem_of_In.
  by apply list_elem_of_In, filter_In in Hin as [].
Qed.

(** Inserting the entries of a list with different keys one after the other. *)
Lemma foldl_insert_range {K} `{Countable K} {V} (key : V → K) (es : list (K * V)) :
  ∀ st0 : gmap K V,
  NoDup es.*1 → (∀ k e, (k, e) ∈ es → key e = k) →
  ∀ id, foldl (λ st e, <[key e := e]> st) st0 es.*2 !! id =
    match list_to_map (M:=gmap K V) es !! id with
    | Some e => Some e
    | None => st0 !! id
    end.
Proof.
  induction es as [|[k e] es IH]; intros st0 Hnd Hk id; cbn; [by rewrite lookup_empty|].
  cbn in Hnd. apply NoDup_cons in Hnd as [Hnin Hnd].
  rewrite IH; [|done|intros; apply Hk; by right].
  rewrite (Hk k e) by (by left).
  destruct (decide (id = k)) as [->|Hne].
  - rewrite !lookup_insert_eq. by rewrite not_elem_of_list_to_map_1.
  - by rewrite !lookup_insert_ne.
Qed.

(** Re-inserting a whole range into the empty map rebuilds the map. *)
Lemma foldl_insert_rebuild `{MR : MapRange} {K} `{Countable K} {V} (key : V → K) (m : gmap K V) :
  (∀ k e, m !! k = Some e → key e = k) →
  foldl (λ st e, <[key e := e]> st) ∅ (range m).*2 = m.
Proof.
  intros Hk. apply map_eq. intros id. rewrite foldl_insert_range.
  - rewrite (list_to_map_proper (range m) (map_to_list m)).
    + rewrite list_to_map_to_list. by destruct (m !! id).
    + apply NoDup_fst_range.
    + apply range_perm.
  - apply NoDup_fst_range.
  - intros k e Hin%elem_of_range. by apply Hk.
Qed.

(** A list splits in one way at the last occurrence of a separator. *)
Lemma app_sep_inj {A} (x : A) (r1 r2 l1 l2 : list A) :
  x ∉ r1 → x ∉ r2 → l1 ++ x :: r1 = l2 ++ x :: r2 → l1 = l2 ∧ r1 = r2.
Proof.
  intros H1 H2 E. apply app_eq_inv in E as [(k & -> & E2)|(k & -> & E2)];
    destruct k as [|y k]; cbn in E2; simplify_eq; rewrite ?app_nil_r; try done.
  - destruct H2. apply elem_of_app. right. by left.
  - destruct H1. apply elem_of_app. right. by left.
Qed.

(** ** Automation

    [am] is the hint database of the development; [go_cases] splits the
    conditionals of a translated function and simplifies. *)
Create HintDb am discriminated.

Ltac go_step :=
  match goal with
  | H : Before _ _ = true |- _ => apply Z.ltb_lt in H
  | H : Before _ _ = false |- _ => apply Z.ltb_ge in H
  | H : After _ _ = true |- _ => apply Z.ltb_lt in H
  | H : After _ _ = false |- _ => apply Z.ltb_ge in H
  | H : IsZero _ = true |- _ => apply Z.eqb_eq in H
  | H : IsZero _ = false |- _ => apply Z.eqb_neq in H
  | H : (_ <? _) = true |- _ => apply Z.ltb_lt in H
  | H : (_ <? _) = false |- _ => apply Z.ltb_ge in H
  | H : (_ <=? _) = true |- _ => apply Z.leb_le in H
  | H : (_ <=? _) = false |- _ => apply Z.leb_gt in H
  | H : (_ =? _) = true |- _ => apply Z.eqb_eq in H
  | H : (_ =? _) = false |- _ => apply Z.eqb_neq in H
  | H : (_ && _) = true |- _ => apply andb_true_iff in H as [? ?]
  | H : (_ || _) = false |- _ => apply orb_false_iff in H as [? ?]
  | H : negb _ = true |- _ => apply negb_true_iff in H
  | H : negb _ = false |- _ => apply negb_false_iff in H
  end.

(** Turns the boolean comparisons of the code into propositions. *)
Ltac to_props := repeat go_step.

Ltac go_cases := repeat case_match; simplify_eq/=; to_props.
