(* ===== verification/Utf8.v ===== *)
(** * UTF-8

    The parts of Go's [unicode/utf8] and [unicode] packages the matcher code
    uses.  A Go string is a byte string, here [string] (its characters are
    bytes); [bytes] and [of_bytes] go to and from the list of byte values on
    which the decoder works.  A rune is an integer.  The main results are that
    decoding always makes progress inside its input and that it inverts
    encoding. *)

From Stdlib Require Import Ascii String.
From stdpp Require Import base list strings numbers.
From S2P Require Import Prelude.

Definition byte_of_ascii (a : ascii) : Z := Z.of_N (N_of_ascii a).
Definition ascii_of_byte (b : Z) : ascii := ascii_of_N (Z.to_N b).

Definition bytes (s : string) : list Z := map byte_of_ascii (list_ascii_of_string s).
Definition of_bytes (bs : list Z) : string := string_of_list_ascii (map ascii_of_byte bs).

Definition is_byte (b : Z) : Prop := 0 ≤ b < 256.

Lemma byte_of_ascii_range a : is_byte (byte_of_ascii a).
Proof.
  unfold is_byte, byte_of_ascii. pose proof (N_ascii_bounded a). lia.
Qed.

Lemma ascii_of_byte_of_ascii a : ascii_of_byte (byte_of_ascii a) = a.
Proof. unfold ascii_of_byte, byte_of_ascii. by rewrite N2Z.id, ascii_N_embedding. Qed.

Lemma byte_of_ascii_of_byte b : is_byte b → byte_of_ascii (ascii_of_byte b) = b.
Proof.
  unfold is_byte, ascii_of_byte, byte_of_ascii. intros Hb.
  rewrite N_ascii_embedding by lia. lia.
Qed.

Lemma of_bytes_bytes s : of_bytes (bytes s) = s.
Proof.
  unfold of_bytes, bytes. rewrite map_map.
  rewrite (map_ext _ id), map_id by apply ascii_of_byte_of_ascii.
  apply string_of_list_ascii_of_string.
Qed.

Lemma bytes_of_bytes bs : Forall is_byte bs → bytes (of_bytes bs) = bs.
Proof.
  intros Hbs. unfold of_bytes, bytes.
  rewrite list_ascii_of_string_of_list_ascii, map_map.
  induction Hbs as [|b bs Hb _ IH]; [done|]. cbn.
  by rewrite byte_of_ascii_of_byte, IH.
Qed.

Lemma bytes_is_byte s : Forall is_byte (bytes s).
Proof.
  unfold bytes. apply Forall_fmap, Forall_true. intros a. apply byte_of_ascii_range.
Qed.

Lemma list_ascii_app s t :
  list_ascii_of_string (String.append s t) = (list_ascii_of_string s ++ list_ascii_of_string t)%list.
Proof.
  induction s as [|a s IH]; [done|].
  change (String a s +:+ t) with (String a (s +:+ t)). cbn [list_ascii_of_string app].
  by rewrite IH.
Qed.

Lemma bytes_app s t : bytes (String.append s t) = bytes s ++ bytes t.
Proof. unfold bytes. by rewrite list_ascii_app, map_app. Qed.

Lemma bytes_inj s t : bytes s = bytes t → s = t.
Proof. intros H. by rewrite <- (of_bytes_bytes s), H, of_bytes_bytes. Qed.

(** ** Decoding *)
Abbreviation rune := Z (only parsing).
Definition RuneError : rune := 65533.

Definition between (lo hi x : Z) : bool := (lo <=? x) && (x <=? hi).

(** Accepted ranges of the second byte, by first byte (the [first] and
    [acceptRanges] tables of package utf8): size, low, high. *)
Definition first_info (b : Z) : option (nat * Z * Z) :=
  if between 194 223 b then Some (2%nat, 128, 191)
  else if b =? 224 then Some (3%nat, 160, 191)
  else if between 225 236 b then Some (3%nat, 128, 191)
  else if b =? 237 then Some (3%nat, 128, 159)
  else if between 238 239 b then Some (3%nat, 128, 191)
  else if b =? 240 then Some (4%nat, 144, 191)
  else if between 241 243 b then Some (4%nat, 128, 191)
  else if b =? 244 then Some (4%nat, 128, 143)
  else None.

Definition cont (b : Z) : bool := between 128 191 b.

(** [utf8.DecodeRuneInString]: the first rune and its width in bytes; an
    invalid encoding gives [RuneError] of width 1, an empty input width 0. *)
Definition DecodeRune (bs : list Z) : rune * nat :=
  match bs with
  | [] => (RuneError, 0%nat)
  | b0 :: rest =>
      if b0 <? 128 then (b0, 1%nat) else
      match first_info b0, rest with
      | Some (2%nat, lo, hi), b1 :: _ =>
          if between lo hi b1 then ((b0 - 192) * 64 + (b1 - 128), 2%nat)
          else (RuneError, 1%nat)
      | Some (3%nat, lo, hi), b1 :: b2 :: _ =>
          if between lo hi b1 && cont b2
          then ((b0 - 224) * 4096 + (b1 - 128) * 64 + (b2 - 128), 3%nat)
          else (RuneError, 1%nat)
      | Some (4%nat, lo, hi), b1 :: b2 :: b3 :: _ =>
          if between lo hi b1 && cont b2 && cont b3
          then ((b0 - 240) * 262144 + (b1 - 128) * 4096 + (b2 - 128) * 64 + (b3 - 128), 4%nat)
          else (RuneError, 1%nat)
      | _, _ => (RuneError, 1%nat)
      end
  end.

Lemma DecodeRune_width bs :
  bs ≠ [] → (1 ≤ (DecodeRune bs).2 ≤ length bs)%nat.
Proof.
  intros Hne. unfold DecodeRune. destruct bs as [|b0 rest]; [done|].
  repeat case_match; cbn; lia.
Qed.

(** ** Encoding *)
Definition is_surrogate (r : rune) : bool := between 55296 57343 r.
Definition valid_rune (r : rune) : Prop :=
  0 ≤ r ≤ 1114111 ∧ is_surrogate r = false.

(** [utf8.AppendRune]: an invalid rune is written as [RuneError]. *)
Definition EncodeRune (r : rune) : list Z :=
  if between 0 127 r then [r]
  else if between 128 2047 r then [192 + r / 64; 128 + r mod 64]
  else if is_surrogate r || negb (between 0 1114111 r) then [239; 191; 189]
  else if r <? 65536 then [224 + r / 4096; 128 + (r / 64) mod 64; 128 + r mod 64]
  else [240 + r / 262144; 128 + (r / 4096) mod 64; 128 + (r / 64) mod 64; 128 + r mod 64].

Lemma between_spec lo hi x : reflect (lo ≤ x ≤ hi) (between lo hi x).
Proof.
  unfold between. apply iff_reflect. rewrite andb_true_iff, !Z.leb_le. done.
Qed.

Ltac between_cases :=
  repeat match goal with
  | |- context [between ?lo ?hi ?x] => destruct (between_spec lo hi x); try lia; cbn [andb orb negb]
  | |- context [?x <? ?y] => destruct (Z.ltb_spec x y); try lia
  | |- context [?x =? ?y] => destruct (Z.eqb_spec x y); try lia
  end.

Lemma mod64_range x : 0 ≤ x mod 64 < 64.
Proof. apply Z.mod_pos_bound. lia. Qed.

Lemma EncodeRune_bytes r : Forall is_byte (EncodeRune r).
Proof.
  unfold EncodeRune, is_surrogate, is_byte.
  pose proof (mod64_range r). pose proof (mod64_range (r / 64)).
  pose proof (mod64_range (r / 4096)).
  between_cases; repeat constructor; Z.to_euclidean_division_equations; lia.
Qed.

Lemma EncodeRune_nonempty r : EncodeRune r ≠ [].
Proof. unfold EncodeRune. by repeat case_match. Qed.

(** Decoding the encoding of a valid rune gives it back, whatever follows. *)
Lemma DecodeRune_EncodeRune r rest :
  valid_rune r → DecodeRune (EncodeRune r ++ rest) = (r, length (EncodeRune r)).
Proof.
  unfold valid_rune, is_surrogate. intros [Hr Hs].
  destruct (between_spec 55296 57343 r) as [|Hns]; [done|].
  unfold EncodeRune, is_surrogate.
  pose proof (Z.div_mod r 64 ltac:(lia)). pose proof (mod64_range r).
  pose proof (Z.div_mod (r / 64) 64 ltac:(lia)). pose proof (mod64_range (r / 64)).
  pose proof (Z.div_mod (r / 4096) 64 ltac:(lia)). pose proof (mod64_range (r / 4096)).
  rewrite (Z.div_div r 64 64) in * by lia. rewrite (Z.div_div r 4096 64) in * by lia.
  change (64 * 64) with 4096 in *. change (4096 * 64) with 262144 in *.
  unfold DecodeRune, first_info, cont. between_cases; cbn [app length]; between_cases;
    cbn; between_cases; f_equal; lia.
Qed.

(** ** Strings as runes *)

(** [for _, r := range s] / [[]rune(s)]: every round consumes at least one
    byte, so the length of the input is enough fuel. *)
Fixpoint runes_fuel (fuel : nat) (bs : list Z) : list rune :=
  match fuel, bs with
  | _, [] => []
  | O, _ => []
  | S fuel, _ =>
      let '(r, w) := DecodeRune bs in r :: runes_fuel fuel (drop w bs)
  end.
Definition runes (bs : list Z) : list rune := runes_fuel (length bs) bs.

(** [string(rs)] of a rune slice, as bytes. *)
Definition encode_runes (rs : list rune) : list Z := concat (map EncodeRune rs).

Lemma encode_runes_app a b : encode_runes (a ++ b) = encode_runes a ++ encode_runes b.
Proof. unfold encode_runes. by rewrite map_app, concat_app. Qed.

(** [utf8.ValidString]. *)
Fixpoint valid_fuel (fuel : nat) (bs : list Z) : bool :=
  match fuel, bs with
  | _, [] => true
  | O, _ => false
  | S fuel, _ =>
      let '(r, w) := DecodeRune bs in
      negb ((r =? RuneError) && (w =? 1)%nat) && valid_fuel fuel (drop w bs)
  end.
Definition ValidBytes (bs : list Z) : bool := valid_fuel (length bs) bs.
Definition ValidString (s : string) : bool := ValidBytes (bytes s).

(** [unicode.IsSpace]. *)
Definition IsSpace (r : rune) : bool :=
  between 9 13 r || (r =? 32) || (r =? 133) || (r =? 160) || (r =? 5760)
  || between 8192 8202 r || (r =? 8232) || (r =? 8233) || (r =? 8239)
  || (r =? 8287) || (r =? 12288).

(** [strings.ContainsRune] of an ASCII constant. *)
Definition ContainsRune (s : string) (r : rune) : bool :=
  existsb (Z.eqb r) (bytes s).

(** [strings.ContainsFunc]. *)
Definition ContainsFunc (s : string) (f : rune → bool) : bool :=
  existsb f (runes (bytes s)).

Lemma length_encode_runes_cons r rs :
  length (encode_runes (r :: rs)) = (length (EncodeRune r) + length (encode_runes rs))%nat.
Proof. unfold encode_runes. cbn. by rewrite length_app. Qed.

Lemma runes_fuel_encode rs : ∀ fuel, Forall valid_rune rs →
  (length (encode_runes rs) ≤ fuel)%nat → runes_fuel fuel (encode_runes rs) = rs.
Proof.
  induction rs as [|r rs IH]; intros fuel Hv Hf; [by destruct fuel|].
  apply Forall_cons_1 in Hv as [Hr Hrs]. rewrite length_encode_runes_cons in Hf.
  pose proof (EncodeRune_nonempty r) as Hne.
  assert (0 < length (EncodeRune r))%nat by (destruct (EncodeRune r); [done|cbn; lia]).
  destruct fuel as [|fuel]; [lia|].
  change (encode_runes (r :: rs)) with (EncodeRune r ++ encode_runes rs).
  cbn [runes_fuel]. destruct (EncodeRune r ++ encode_runes rs) eqn:E;
    [by destruct (EncodeRune r)|].
  rewrite <- E, DecodeRune_EncodeRune by done.
  rewrite drop_app_length, IH by (done || lia). done.
Qed.

Lemma runes_encode_runes rs : Forall valid_rune rs → runes (encode_runes rs) = rs.
Proof. intros. by apply runes_fuel_encode. Qed.
