(* ===== verification/Labels.v ===== *)
(** * Label matchers (pkg/labels/matcher.go)

    The data and operations of package labels: a matcher compares one label,
    a [Matchers] list is a conjunction, a [MatcherSet] a disjunction of
    conjunctions.  Go's regexp engine is the interface [Regexp]: what it accepts
    is left open, so that every theorem holds for any engine. *)

From Stdlib Require Import Ascii String.
From stdpp Require Import base gmap strings list sorting.
From S2P Require Import Prelude Utf8.

(** The use the code makes of package regexp: compiling may fail, a compiled
    expression is a value that can be matched against a string. *)
Class Regexp := {
  regex : Type;
  regex_eq_dec :: EqDecision regex;
  Compile : string → option regex;
  MatchString : regex → string → bool;
}.

(** [strconv.IsPrint] above Latin-1, a table of the Unicode standard. *)
Class UnicodePrint := IsPrintWide : rune → bool.

(** ** strconv.Quote *)
Definition dquote : Z := 34.
Definition backslash : Z := 92.

Definition IsPrint `{UnicodePrint} (r : rune) : bool :=
  if r <=? 255 then between 32 126 r || (between 161 255 r && negb (r =? 173))
  else IsPrintWide r.

Definition hexdigit (n : Z) : Z := if n <? 10 then 48 + n else 87 + n.

(** The [n] lower-case hexadecimal digits of [r], most significant first. *)
Fixpoint hexdigits (n : nat) (r : Z) : list Z :=
  match n with
  | O => []
  | S n => hexdigit (Z.land (Z.shiftr r (4 * Z.of_nat n)) 15) :: hexdigits n r
  end.

Definition appendEscapedRune `{UnicodePrint} (r : rune) : list Z :=
  if (r =? dquote) || (r =? backslash) then [backslash; r]
  else if IsPrint r then EncodeRune r
  else if r =? 7 then bytes "\a" else if r =? 8 then bytes "\b"
  else if r =? 12 then bytes "\f" else if r =? 10 then bytes "\n"
  else if r =? 13 then bytes "\r" else if r =? 9 then bytes "\t"
  else if r =? 11 then bytes "\v"
  else if (r <? 32) || (r =? 127) then bytes "\x" ++ hexdigits 2 r
  else if is_surrogate r || negb (between 0 1114111 r) then bytes "\ufffd"
  else if r <? 65536 then bytes "\u" ++ hexdigits 4 r
  else bytes "\U" ++ hexdigits 8 r.

Fixpoint quote_fuel `{UnicodePrint} (fuel : nat) (bs : list Z) : list Z :=
  match fuel, bs with
  | _, [] => []
  | O, _ => []
  | S fuel, b :: _ =>
      let '(r, w) := DecodeRune bs in
      (if (w =? 1)%nat && (r =? RuneError) then bytes "\x" ++ hexdigits 2 b
       else appendEscapedRune r) ++ quote_fuel fuel (drop w bs)
  end.

Definition Quote `{UnicodePrint} (s : string) : string :=
  of_bytes (dquote :: quote_fuel (length (bytes s)) (bytes s) ++ [dquote]).

Module Labels.
Section labels.
Context `{RE : Regexp}.

Inductive MatchType := MatchEqual | MatchNotEqual | MatchRegexp | MatchNotRegexp.

#[global] Instance MatchType_eq_dec : EqDecision MatchType.
Proof. solve_decision. Defined.

Definition MatchType_String (m : MatchType) : string :=
  match m with
  | MatchEqual => "="
  | MatchNotEqual => "!="
  | MatchRegexp => "=~"
  | MatchNotRegexp => "!~"
  end.

(** The value of the [iota] constant. *)
Definition MatchType_int (m : MatchType) : Z :=
  match m with
  | MatchEqual => 0 | MatchNotEqual => 1 | MatchRegexp => 2 | MatchNotRegexp => 3
  end.

Record Matcher := mkMatcher {
  Type_ : MatchType;
  Name : string;
  Value : string;
  re : option regex;
}.

#[global] Instance Matcher_eq_dec : EqDecision Matcher.
Proof. solve_decision. Defined.

Definition is_regexp (t : MatchType) : bool :=
  bool_decide (t = MatchRegexp) || bool_decide (t = MatchNotRegexp).

(** [NewMatcher] returns [None] for the error of a failed compilation. *)
Definition NewMatcher (t : MatchType) (n v : string) : option Matcher :=
  if is_regexp t then
    match Compile ("^(?:" +:+ v +:+ ")$") with
    | Some r => Some (mkMatcher t n v (Some r))
    | None => None
    end
  else Some (mkMatcher t n v None).

(** [None] is the nil-pointer panic of a regexp matcher built without
    [NewMatcher]. *)
Definition Matcher_Matches (m : Matcher) (s : string) : option bool :=
  match Type_ m with
  | MatchEqual => Some (bool_decide (s = Value m))
  | MatchNotEqual => Some (bool_decide (s ≠ Value m))
  | MatchRegexp => r ← re m; Some (MatchString r s)
  | MatchNotRegexp => r ← re m; Some (negb (MatchString r s))
  end.

Abbreviation Matchers := (list Matcher).
Abbreviation MatcherSet := (list (list Matcher)).

(** [Matchers.Matches]: stops at the first matcher that is not fulfilled. *)
Fixpoint Matchers_Matches (ms : Matchers) (lset : LabelSet) : option bool :=
  match ms with
  | [] => Some true
  | m :: ms =>
      b ← Matcher_Matches m (label_get lset (Name m));
      if b : bool then Matchers_Matches ms lset else Some false
  end.

(** [MatcherSet.Matches]: stops at the first conjunction that is fulfilled. *)
Fixpoint MatcherSet_Matches (ms : MatcherSet) (lset : LabelSet) : option bool :=
  match ms with
  | [] => Some false
  | matchers :: ms =>
      b ← Matchers_Matches matchers lset;
      if b : bool then Some true else MatcherSet_Matches ms lset
  end.

(** [Matchers.Less]. *)
Definition Matcher_Less (a b : Matcher) : bool :=
  if String.ltb (Name b) (Name a) then false
  else if String.ltb (Name a) (Name b) then true
  else if String.ltb (Value b) (Value a) then false
  else if String.ltb (Value a) (Value b) then true
  else MatchType_int (Type_ a) <? MatchType_int (Type_ b).

(** ** Printing *)
Definition isReserved (r : rune) : bool :=
  IsSpace r || ContainsRune ("{}!=~,\" +:+ of_bytes [dquote] +:+ "'`") r.

(** [openMetricsEscape], on bytes: a replacer of single bytes. *)
Definition escape_byte (b : Z) : list Z :=
  if b =? backslash then [backslash; backslash]
  else if b =? 10 then bytes "\n"
  else if b =? dquote then [backslash; dquote]
  else [b].

Definition openMetricsEscape (s : string) : string :=
  of_bytes (concat (map escape_byte (bytes s))).

Definition Matcher_String `{UnicodePrint} (m : Matcher) : string :=
  if ContainsFunc (Name m) isReserved then
    Quote (Name m) +:+ MatchType_String (Type_ m) +:+ Quote (Value m)
  else
    Name m +:+ MatchType_String (Type_ m)
      +:+ of_bytes [dquote] +:+ openMetricsEscape (Value m) +:+ of_bytes [dquote].

Fixpoint join_matchers `{UnicodePrint} (first : bool) (ms : Matchers) : string :=
  match ms with
  | [] => ""
  | m :: ms => (if first then "" else ",") +:+ Matcher_String m +:+ join_matchers false ms
  end.

Definition Matchers_String `{UnicodePrint} (ms : Matchers) : string :=
  "{" +:+ join_matchers true ms +:+ "}".

(** ** The JSON form of the v1 API *)
Record apiV1Matcher := mkApiV1Matcher {
  v1_Name : string;
  v1_Value : string;
  v1_IsRegex : bool;
  v1_IsEqual : bool;
}.

(** The value [MarshalJSON] hands to the JSON encoder. *)
Definition MarshalJSON (m : Matcher) : apiV1Matcher :=
  mkApiV1Matcher (Name m) (Value m)
    (bool_decide (Type_ m = MatchRegexp) || bool_decide (Type_ m = MatchNotRegexp))
    (bool_decide (Type_ m = MatchRegexp) || bool_decide (Type_ m = MatchEqual)).

(** The matcher [UnmarshalJSON] builds from the decoded value. *)
Definition UnmarshalJSON (v1m : apiV1Matcher) : option Matcher :=
  let t :=
    if v1_IsEqual v1m && negb (v1_IsRegex v1m) then MatchEqual
    else if negb (v1_IsEqual v1m) && negb (v1_IsRegex v1m) then MatchNotEqual
    else if v1_IsEqual v1m && v1_IsRegex v1m then MatchRegexp
    else MatchNotRegexp in
  NewMatcher t (v1_Name v1m) (v1_Value v1m).

(** ** Well-formed matchers: those [NewMatcher] builds *)
Definition wf_matcher (m : Matcher) : Prop :=
  NewMatcher (Type_ m) (Name m) (Value m) = Some m.

Lemma NewMatcher_wf t n v m : NewMatcher t n v = Some m → wf_matcher m.
Proof.
  unfold wf_matcher. intros H. cut (t = Type_ m ∧ n = Name m ∧ v = Value m).
  { by intros (<- & <- & <-). }
  unfold NewMatcher in H. repeat case_match; by simplify_eq.
Qed.

Lemma NewMatcher_fields t n v m :
  NewMatcher t n v = Some m → Type_ m = t ∧ Name m = n ∧ Value m = v.
Proof. unfold NewMatcher. intros. repeat case_match; by simplify_eq. Qed.

Lemma Matcher_Matches_wf m s : wf_matcher m → is_Some (Matcher_Matches m s).
Proof.
  unfold wf_matcher, NewMatcher, Matcher_Matches. destruct m as [t n v r]; cbn.
  destruct t; cbn; [eauto..| |];
    intros; repeat case_match; simplify_eq/=; eauto.
Qed.

Lemma Matchers_Matches_wf ms lset :
  Forall wf_matcher ms → is_Some (Matchers_Matches ms lset).
Proof.
  induction 1 as [|m ms Hm _ IH]; cbn; [eauto|].
  destruct (Matcher_Matches_wf m (label_get lset (Name m)) Hm) as [b Hb].
  rewrite Hb; cbn. destruct b; eauto.
Qed.

Lemma MatcherSet_Matches_wf ms lset :
  Forall (Forall wf_matcher) ms → is_Some (MatcherSet_Matches ms lset).
Proof.
  induction 1 as [|m ms Hm _ IH]; cbn; [eauto|].
  destruct (Matchers_Matches_wf m lset Hm) as [b Hb].
  rewrite Hb; cbn. destruct b; eauto.
Qed.

(** What a matcher means, independently of the evaluation order. *)
Definition sat (m : Matcher) (lset : LabelSet) : Prop :=
  Matcher_Matches m (label_get lset (Name m)) = Some true.
Definition sat_all (ms : Matchers) (lset : LabelSet) : Prop :=
  Forall (λ m, sat m lset) ms.
Definition sat_any (ms : MatcherSet) (lset : LabelSet) : Prop :=
  Exists (λ m, sat_all m lset) ms.

(** Clients call [Matches] on matchers built by [NewMatcher] only, where it
    never panics; the boolean forms below are what they use. *)
Definition matchesb (ms : Matchers) (lset : LabelSet) : bool :=
  default false (Matchers_Matches ms lset).
Definition matches_setb (ms : MatcherSet) (lset : LabelSet) : bool :=
  default false (MatcherSet_Matches ms lset).

Lemma Matchers_Matches_sat ms lset :
  Matchers_Matches ms lset = Some true ↔ sat_all ms lset.
Proof.
  unfold sat_all, sat. induction ms as [|m ms IH]; cbn; [by split|].
  rewrite Forall_cons, <- IH.
  destruct (Matcher_Matches m _) as [[]|]; cbn; naive_solver.
Qed.

Lemma matchesb_spec ms lset : matchesb ms lset = true ↔ sat_all ms lset.
Proof.
  rewrite <- Matchers_Matches_sat. unfold matchesb.
  destruct (Matchers_Matches ms lset) as [[]|]; cbn; naive_solver.
Qed.

Lemma matches_setb_spec ms lset :
  Forall (Forall wf_matcher) ms → matches_setb ms lset = true ↔ sat_any ms lset.
Proof.
  unfold sat_any, matches_setb. induction 1 as [|m ms Hm Hms IH]; cbn.
  { by rewrite Exists_nil. }
  rewrite Exists_cons, <- IH, <- Matchers_Matches_sat.
  destruct (Matchers_Matches_wf m lset Hm) as [[] ->]; cbn; naive_solver.
Qed.

(** a matcher survives the JSON form of the v1 API: decoding what
    [MarshalJSON] encodes gives the same matcher, compiled expression
    included. *)
Theorem matcher_json_roundtrip (m : Matcher) :
  wf_matcher m → UnmarshalJSON (MarshalJSON m) = Some m.
Proof.
  unfold wf_matcher, UnmarshalJSON, MarshalJSON. intros H.
  destruct m as [[] n v r]; exact H.
Qed.
End labels.

Abbreviation Matchers := (list Matcher).
Abbreviation MatcherSet := (list (list Matcher)).
End Labels.
