(* ===== verification/Lww.v ===== *)
(** * Last-writer-wins maps

    Silences and notification-log entries are replicated by gossip: each peer
    keeps, per key, the entry with the latest timestamp.  [Lww] is what an entry
    type offers (its key and its timestamp); [lww_merge] is the step both
    [state.merge] functions take once an entry is known not to be expired.  The
    result below is the convergence argument both components use: the state
    after a run of merges depends only on the set of entries that were merged,
    not on their order or multiplicity, as long as two different entries for one
    key do not carry the same timestamp. *)

From stdpp Require Import base gmap strings list.
From S2P Require Import Prelude.

(** Both states are serialised with protodelim of google.golang.org/protobuf,
    which by default refuses to read a message of more than 4 MiB, although it
    writes one.  The message without its length prefix is what counts, so a
    delimited form of that size is read. *)
Definition protodelim_MaxSize : Z := 4 * 2 ^ 20.
Definition readable_size (b : list Z) : Prop := Z.of_nat (length b) ≤ protodelim_MaxSize.

Class Lww (E : Type) := {
  lww_key : E → string;
  lww_stamp : E → time;
}.

Section lww.
Context {E : Type} `{LE : !Lww E}.
Implicit Types (m : gmap string E) (e : E) (es : list E).

Definition lww_wins (prev : option E) (e : E) : bool :=
  match prev with
  | None => true
  | Some p => Before (lww_stamp p) (lww_stamp e)
  end.

Definition lww_merge (m : gmap string E) (e : E) : gmap string E :=
  if lww_wins (m !! lww_key e) e then <[lww_key e := e]> m else m.

(** The entries that compete for key [k]. *)
Definition candidate m es (k : string) (e : E) : Prop :=
  m !! k = Some e ∨ (e ∈ es ∧ lww_key e = k).

Definition tie_free m es : Prop :=
  ∀ k e1 e2, candidate m es k e1 → candidate m es k e2 →
    lww_stamp e1 = lww_stamp e2 → e1 = e2.

Lemma lww_merge_lookup_ne m e k : k ≠ lww_key e → lww_merge m e !! k = m !! k.
Proof. intros. unfold lww_merge. case_match; [|done]. by rewrite lookup_insert_ne. Qed.

Lemma lww_merge_lookup_eq m e :
  lww_merge m e !! lww_key e =
    Some (if lww_wins (m !! lww_key e) e then e else default e (m !! lww_key e)).
Proof.
  unfold lww_merge. destruct (m !! lww_key e) as [p|] eqn:Hp; cbn.
  - destruct (Before _ _); [apply lookup_insert_eq|done].
  - apply lookup_insert_eq.
Qed.

(** A merge never replaces an entry by an older one. *)
Lemma lww_merge_stamp_mono m e k p :
  m !! k = Some p → ∃ p', lww_merge m e !! k = Some p' ∧ lww_stamp p ≤ lww_stamp p'.
Proof.
  intros Hp. destruct (decide (k = lww_key e)) as [->|Hne].
  - rewrite lww_merge_lookup_eq, Hp; cbn. eexists; split; [done|].
    destruct (Before_spec (lww_stamp p) (lww_stamp e)); cbn; lia.
  - rewrite lww_merge_lookup_ne by done. eauto with lia.
Qed.

Lemma lww_merge_idemp m e : lww_merge (lww_merge m e) e = lww_merge m e.
Proof.
  unfold lww_merge at 1. rewrite lww_merge_lookup_eq. cbn.
  destruct (m !! lww_key e) as [p|] eqn:Hp; cbn.
  - destruct (Before (lww_stamp p) (lww_stamp e)) eqn:Hb; cbn; rewrite ?Hb; [|done].
    unfold Before. by rewrite Z.ltb_irrefl.
  - unfold Before. by rewrite Z.ltb_irrefl.
Qed.

Lemma lww_merge_key_wf m e :
  (∀ k p, m !! k = Some p → lww_key p = k) →
  ∀ k p, lww_merge m e !! k = Some p → lww_key p = k.
Proof.
  intros Hm k p. unfold lww_merge. case_match; [|apply Hm].
  rewrite lookup_insert_Some. naive_solver.
Qed.

(** The step of the argument: [e] is a candidate before the merge exactly when
    it is one afterwards or has been beaten by the stored entry. *)
Lemma lww_fold_lookup es : ∀ m k,
  match foldl lww_merge m es !! k with
  | Some e => candidate m es k e ∧ ∀ e', candidate m es k e' → lww_stamp e' ≤ lww_stamp e
  | None => ∀ e', ¬ candidate m es k e'
  end.
Proof.
  induction es as [|a es IH]; intros m k; cbn.
  - unfold candidate. destruct (m !! k) as [e|]; [split; [by left|]|]; intros e';
      rewrite elem_of_nil; naive_solver.
  - specialize (IH (lww_merge m a) k).
    assert (Hsub : ∀ x, candidate (lww_merge m a) es k x → candidate m (a :: es) k x).
    { intros x [Hx|[Hx Hk]]; [|right; by rewrite elem_of_cons; eauto].
      unfold lww_merge in Hx. case_match; [|by left].
      apply lookup_insert_Some in Hx as [[<- <-]|[_ Hx]]; [right|by left].
      by rewrite elem_of_cons; eauto. }
    assert (Hdom : ∀ x, candidate m (a :: es) k x →
      ∃ y, candidate (lww_merge m a) es k y ∧ lww_stamp x ≤ lww_stamp y).
    { intros x [Hx|[[->|Hx]%elem_of_cons Hk]].
      - destruct (lww_merge_stamp_mono m a k x Hx) as (y & Hy & Hle).
        exists y. split; [by left|done].
      - subst k. eexists. split; [left; apply lww_merge_lookup_eq|].
        destruct (m !! lww_key a) as [p|]; cbn; [|lia].
        destruct (Before_spec (lww_stamp p) (lww_stamp a)); cbn; lia.
      - exists x. split; [by right|lia]. }
    destruct (foldl lww_merge (lww_merge m a) es !! k) as [e|].
    + destruct IH as [Hc Hmax]. split; [by apply Hsub|].
      intros x (y & Hy & Hle)%Hdom. specialize (Hmax y Hy). lia.
    + intros x (y & Hy & _)%Hdom. by apply (IH y).
Qed.

(** Two runs with the same candidates for a key agree on it. *)
Lemma lww_fold_agree m1 m2 es1 es2 k :
  (∀ e, candidate m1 es1 k e ↔ candidate m2 es2 k e) →
  (∀ e1 e2, candidate m1 es1 k e1 → candidate m1 es1 k e2 → lww_stamp e1 = lww_stamp e2 → e1 = e2) →
  foldl lww_merge m1 es1 !! k = foldl lww_merge m2 es2 !! k.
Proof.
  intros Hc Htf. pose proof (lww_fold_lookup es1 m1 k) as H1. pose proof (lww_fold_lookup es2 m2 k) as H2.
  destruct (foldl lww_merge m1 es1 !! k) as [e1|], (foldl lww_merge m2 es2 !! k) as [e2|].
  - destruct H1 as [Hc1 Hm1], H2 as [Hc2 Hm2].
    f_equal. apply Htf; [done|by apply Hc|].
    apply Z.le_antisymm; [apply Hm2; by apply Hc|apply Hm1; by apply Hc].
  - destruct H1 as [Hc1 _]. apply Hc in Hc1. by destruct (H2 e1).
  - destruct H2 as [Hc2 _]. apply Hc in Hc2. by destruct (H1 e2).
  - done.
Qed.

(** Convergence. *)
Lemma lww_fold_converges m es1 es2 :
  tie_free m es1 → (∀ e, e ∈ es1 ↔ e ∈ es2) →
  foldl lww_merge m es1 = foldl lww_merge m es2.
Proof.
  intros Htf Hsame. apply map_eq. intros k. apply lww_fold_agree; [|apply Htf].
  intros x. unfold candidate. by rewrite Hsame.
Qed.

Lemma lww_fold_key_wf es : ∀ m,
  (∀ k p, m !! k = Some p → lww_key p = k) →
  ∀ k p, foldl lww_merge m es !! k = Some p → lww_key p = k.
Proof.
  induction es as [|a es IH]; intros m Hm; cbn; [done|].
  apply IH. by apply lww_merge_key_wf.
Qed.
End lww.

#[export] Hint Resolve lww_merge_key_wf lww_fold_key_wf : am.
