(* ===== verification/Silence.v ===== *)
(** * Silences (silence/silence.go, silence/state.go)

    The store of silences of one Alertmanager: the state map [st], the matcher
    index [mi] with the compiled matchers of each silence, and the version index
    [vi] that lists the silences in the order in which they were first seen.
    Every operation of the store is a function from a [Silences] value to a new
    one; broadcasts and recorded events are appended to [trace] in the order in
    which the code performs them.  Each read of the clock is an argument, so an
    operation that reads it several times takes several instants. *)

From Stdlib Require Import Ascii String.
From stdpp Require Import base gmap strings list sorting.
From S2P Require Import Prelude Utf8 Labels Lww.

(** What the code calls outside the package: validation of label names and
    values (package compat in the configured mode, prometheus/common). *)
Class LabelValidation := {
  IsValidLabelName : string → bool;
  IsValidLabelValue : string → bool;
}.

(** The size from which a gossip message is oversized (cluster package). *)
Definition MaxGossipPacketSize : Z := 1400.
Definition OversizedMessage (b : list Z) : bool :=
  MaxGossipPacketSize / 2 <? Z.of_nat (length b).

Module Silence.

(** ** Data (silencepb) *)
Inductive MatcherType := EQUAL | REGEXP | NOT_EQUAL | NOT_REGEXP | UNKNOWN (n : Z).

#[global] Instance MatcherType_eq_dec : EqDecision MatcherType.
Proof. solve_decision. Defined.

Record PbMatcher := mkPbMatcher {
  pm_Type : MatcherType;
  pm_Name : string;
  pm_Pattern : string;
}.

#[global] Instance PbMatcher_eq_dec : EqDecision PbMatcher.
Proof. solve_decision. Defined.

Record PbMatcherSet := mkPbMatcherSet { ps_Matchers : list PbMatcher }.

#[global] Instance PbMatcherSet_eq_dec : EqDecision PbMatcherSet.
Proof. solve_decision. Defined.

Record PbComment := mkPbComment {
  pc_Author : string;
  pc_Comment : string;
  pc_Timestamp : timestamp;
}.

#[global] Instance PbComment_eq_dec : EqDecision PbComment.
Proof. solve_decision. Defined.

Record PbSilence := mkPbSilence {
  Id : string;
  Matchers : list PbMatcher;
  StartsAt : timestamp;
  EndsAt : timestamp;
  UpdatedAt : timestamp;
  Comments : list PbComment;
  CreatedBy : string;
  Comment : string;
  Annotations : gmap string string;
  MatcherSets : list PbMatcherSet;
  ReceiverMatcherSets : list PbMatcherSet;
}.

#[global] Instance PbSilence_eq_dec : EqDecision PbSilence.
Proof. solve_decision. Defined.

(** A silence with the instant after which it may be collected.  The message
    on the wire may lack the silence ([WireSilence]); stored ones never do. *)
Record MeshSilence := mkMeshSilence {
  Silence : PbSilence;
  ExpiresAt : timestamp;
}.

#[global] Instance MeshSilence_eq_dec : EqDecision MeshSilence.
Proof. solve_decision. Defined.

Record WireSilence := mkWireSilence {
  w_Silence : option PbSilence;
  w_ExpiresAt : timestamp;
}.

(** Field updates, as the assignments of the source. *)
Definition set_Id id s :=
  mkPbSilence id (Matchers s) (StartsAt s) (EndsAt s) (UpdatedAt s) (Comments s)
    (CreatedBy s) (Comment s) (Annotations s) (MatcherSets s) (ReceiverMatcherSets s).
Definition set_Matchers ms s :=
  mkPbSilence (Id s) ms (StartsAt s) (EndsAt s) (UpdatedAt s) (Comments s)
    (CreatedBy s) (Comment s) (Annotations s) (MatcherSets s) (ReceiverMatcherSets s).
Definition set_StartsAt t s :=
  mkPbSilence (Id s) (Matchers s) t (EndsAt s) (UpdatedAt s) (Comments s)
    (CreatedBy s) (Comment s) (Annotations s) (MatcherSets s) (ReceiverMatcherSets s).
Definition set_EndsAt t s :=
  mkPbSilence (Id s) (Matchers s) (StartsAt s) t (UpdatedAt s) (Comments s)
    (CreatedBy s) (Comment s) (Annotations s) (MatcherSets s) (ReceiverMatcherSets s).
Definition set_UpdatedAt t s :=
  mkPbSilence (Id s) (Matchers s) (StartsAt s) (EndsAt s) t (Comments s)
    (CreatedBy s) (Comment s) (Annotations s) (MatcherSets s) (ReceiverMatcherSets s).
Definition set_Comments cs by_ c s :=
  mkPbSilence (Id s) (Matchers s) (StartsAt s) (EndsAt s) (UpdatedAt s) cs
    by_ c (Annotations s) (MatcherSets s) (ReceiverMatcherSets s).
Definition set_MatcherSets ms s :=
  mkPbSilence (Id s) (Matchers s) (StartsAt s) (EndsAt s) (UpdatedAt s) (Comments s)
    (CreatedBy s) (Comment s) (Annotations s) ms (ReceiverMatcherSets s).

(** ** States of a silence *)
Inductive SilenceState := SilenceStateExpired | SilenceStateActive | SilenceStatePending.

#[global] Instance SilenceState_eq_dec : EqDecision SilenceState.
Proof. solve_decision. Defined.

(** [CurrentState] of state.go, with the clock as an argument. *)
Definition CurrentState (start end_ current : time) : SilenceState :=
  if Before current start then SilenceStatePending
  else if Before current end_ then SilenceStateActive
  else SilenceStateExpired.

(** [getState]. *)
Definition getState (sil : PbSilence) (ts : time) : SilenceState :=
  if Before ts (AsTime (StartsAt sil)) then SilenceStatePending
  else if After ts (AsTime (EndsAt sil)) then SilenceStateExpired
  else SilenceStateActive.

(** ** Errors *)
Inductive invalid_reason :=
| NoMatcherSet | EmptyMatcherSet | BadMatcher | AllMatchEmpty
| ZeroStart | ZeroEnd | EndBeforeStart.

Inductive error :=
| ErrNotFound
| ErrInvalidState
| ErrInvalidSilence (r : invalid_reason)
| ErrMarshal
| ErrDecode
| ErrSizeLimit
| ErrMaxSilences
| ErrUUID
| ErrExpirePrevious (e : error)
| ErrUnknownMatcherType
| ErrRegexp
| ErrQIDsEmpty
| ErrQSinceWithQIDs
| ErrPanic.

(** ** Matcher index *)
Section silence.
Context `{RE : Regexp, LV : LabelValidation}.

Abbreviation matcherIndex := (gmap string Labels.MatcherSet).

Definition matcherIndex_get (c : matcherIndex) (s : PbSilence) : result error Labels.MatcherSet :=
  match c !! Id s with
  | Some m => Ok m
  | None => Err ErrNotFound
  end.

(** One matcher of [matcherIndex.add]'s inner loop. *)
Definition compile_matcher (m : PbMatcher) : result error Labels.Matcher :=
  mt ← match pm_Type m with
       | EQUAL => Ok Labels.MatchEqual
       | NOT_EQUAL => Ok Labels.MatchNotEqual
       | REGEXP => Ok Labels.MatchRegexp
       | NOT_REGEXP => Ok Labels.MatchNotRegexp
       | UNKNOWN _ => Err ErrUnknownMatcherType
       end;
  match Labels.NewMatcher mt (pm_Name m) (pm_Pattern m) with
  | Some matcher => Ok matcher
  | None => Err ErrRegexp
  end.

Fixpoint compile_matchers (ms : list PbMatcher) : result error Labels.Matchers :=
  match ms with
  | [] => Ok []
  | m :: ms => c ← compile_matcher m; cs ← compile_matchers ms; Ok (c :: cs)
  end.

Fixpoint compile_sets (sets : list PbMatcherSet) : result error Labels.MatcherSet :=
  match sets with
  | [] => Ok []
  | ms :: sets => c ← compile_matchers (ps_Matchers ms); cs ← compile_sets sets; Ok (c :: cs)
  end.

(** [matcherIndex.add]: the index is only changed when everything compiles. *)
Definition matcherIndex_add (c : matcherIndex) (s : PbSilence)
    : result error (matcherIndex * Labels.MatcherSet) :=
  ms ← compile_sets (MatcherSets s); Ok (<[Id s := ms]> c, ms).

(** ** Version index *)
Record silenceVersion := mkSilenceVersion { sv_id : string; sv_version : Z }.

Abbreviation versionIndex := (list silenceVersion).

Definition versionIndex_add (s : versionIndex) (version : Z) (sil : string) : versionIndex :=
  s ++ [mkSilenceVersion sil version].

Definition version_after (s : versionIndex) (version : Z) (i : nat) : bool :=
  match s !! i with
  | Some sv => version <? sv_version sv
  | None => true
  end.

Definition findVersionGreaterThan (s : versionIndex) (version : Z) : nat * bool :=
  let startIdx := sort_Search (length s) (version_after s version) in
  (startIdx, bool_decide (startIdx < length s)%nat).

(** ** Validation *)

(** [postprocessUnmarshalledSilence]: an old-format silence has its matchers
    moved to a matcher set. *)
Definition postprocessUnmarshalledSilence (sil : PbSilence) : PbSilence :=
  let sil' :=
    match MatcherSets sil, Matchers sil with
    | [], _ :: _ => set_MatcherSets [mkPbMatcherSet (Matchers sil)] sil
    | _, _ => sil
    end in
  set_Matchers [] sil'.

(** [prepareSilenceForMarshalling]. *)
Definition prepareSilenceForMarshalling (sil : PbSilence) : PbSilence :=
  match MatcherSets sil with
  | ms :: _ => set_Matchers (ps_Matchers ms) sil
  | [] => sil
  end.

Definition validateMatcher (m : PbMatcher) : bool :=
  if negb (IsValidLabelName (pm_Name m)) then false else
  match pm_Type m with
  | EQUAL | NOT_EQUAL => IsValidLabelValue (pm_Pattern m)
  | REGEXP | NOT_REGEXP => bool_decide (is_Some (Compile (pm_Pattern m)))
  | UNKNOWN _ => false
  end.

Definition matchesEmpty (m : PbMatcher) : bool :=
  match pm_Type m with
  | EQUAL => bool_decide (pm_Pattern m = ""%string)
  | REGEXP =>
      match Compile (pm_Pattern m) with
      | Some r => MatchString r ""%string
      | None => false
      end
  | _ => false
  end.

(** The inner loop of [validateSilence]: the flag is [allMatchEmpty]. *)
Fixpoint validate_matchers (ms : list PbMatcher) (allMatchEmpty : bool) : option bool :=
  match ms with
  | [] => Some allMatchEmpty
  | m :: ms =>
      if validateMatcher m then validate_matchers ms (allMatchEmpty && matchesEmpty m)
      else None
  end.

Fixpoint validate_sets (sets : list PbMatcherSet) : option invalid_reason :=
  match sets with
  | [] => None
  | ms :: sets =>
      match ps_Matchers ms with
      | [] => Some EmptyMatcherSet
      | _ =>
          match validate_matchers (ps_Matchers ms) true with
          | None => Some BadMatcher
          | Some true => Some AllMatchEmpty
          | Some false => validate_sets sets
          end
      end
  end.

Definition nil_or_zero (ts : timestamp) : bool :=
  match ts with None => true | Some t => IsZero t end.

(** [validateSilence] also normalises its argument, which is returned. *)
Definition validateSilence (s : PbSilence) : PbSilence * option invalid_reason :=
  let s := postprocessUnmarshalledSilence s in
  (s,
   match MatcherSets s with
   | [] => Some NoMatcherSet
   | _ =>
       match validate_sets (MatcherSets s) with
       | Some r => Some r
       | None =>
           if nil_or_zero (StartsAt s) then Some ZeroStart
           else if nil_or_zero (EndsAt s) then Some ZeroEnd
           else if Before (AsTime (EndsAt s)) (AsTime (StartsAt s)) then Some EndBeforeStart
           else None
       end
   end).

(** ** Wire format

    protodelim and proto belong to google.golang.org/protobuf and are the
    interface [SilenceCodec]; reading one message gives the message and the rest
    of the input, the end of the input, or an error. *)
Inductive unmarshalled :=
| Unmarshalled (m : WireSilence) (rest : list Z)
| UnmarshalEOF
| UnmarshalErr.

Class SilenceCodec := {
  MarshalTo : MeshSilence → option (list Z);
  UnmarshalFrom : list Z → unmarshalled;
  proto_Size : MeshSilence → Z;
}.

Context `{SC : SilenceCodec, MR : MapRange}.

Definition marshalMeshSilence (e : MeshSilence) : result error (list Z) :=
  match MarshalTo (mkMeshSilence (prepareSilenceForMarshalling (Silence e)) (ExpiresAt e)) with
  | Some b => Ok b
  | None => Err ErrMarshal
  end.

Fixpoint marshal_all (es : list (string * MeshSilence)) : result error (list Z) :=
  match es with
  | [] => Ok []
  | (_, e) :: es => b ← marshalMeshSilence e; bs ← marshal_all es; Ok (b ++ bs)
  end.

(** [state.MarshalBinary]. *)
Definition state_MarshalBinary (s : gmap string MeshSilence) : result error (list Z) :=
  marshal_all (range s).

(** [decodeState]: each round reads one message; a message takes at least one
    byte, so one round more than the length of the input is enough. *)
Fixpoint decode_loop (fuel : nat) (st : gmap string MeshSilence) (r : list Z)
    : result error (gmap string MeshSilence) :=
  match fuel with
  | O => Err ErrDecode
  | S fuel =>
      match UnmarshalFrom r with
      | Unmarshalled m rest =>
          match w_Silence m with
          | None => Err ErrInvalidState
          | Some sil =>
              let sil := postprocessUnmarshalledSilence sil in
              decode_loop fuel (<[Id sil := mkMeshSilence sil (w_ExpiresAt m)]> st) rest
          end
      | UnmarshalEOF => Ok st
      | UnmarshalErr => Err ErrDecode
      end
  end.

Definition decodeState (r : list Z) : result error (gmap string MeshSilence) :=
  decode_loop (S (length r)) ∅ r.

(** ** The store *)
Inductive event := SilenceCreated (sil : PbSilence) | SilenceUpdated (sil : PbSilence).
Inductive effect := Broadcast (b : list Z) | Recorded (ev : event).

(** The two limits are functions that may be nil; [None] is nil. *)
Record Limits := mkLimits {
  MaxSilences : option Z;
  MaxSilenceSizeBytes : option Z;
}.

Record Silences := mkSilences {
  retention : duration;
  limits : Limits;
  st : gmap string MeshSilence;
  version : Z;
  mi : matcherIndex;
  vi : versionIndex;
  trace : list effect;
}.

Definition set_st x s := mkSilences (retention s) (limits s) x (version s) (mi s) (vi s) (trace s).
Definition emit x s :=
  mkSilences (retention s) (limits s) (st s) (version s) (mi s) (vi s) (trace s ++ [x]).

(** [New] without a snapshot. *)
Definition New_Silences (ret : duration) (lim : Limits) : Silences :=
  mkSilences ret lim ∅ 0 ∅ [] [].

(** The upgrade of the deprecated comment list. *)
Definition upgrade_comments (sil : PbSilence) : PbSilence :=
  match Comments sil with
  | c :: _ => set_Comments [] (pc_Author c) (pc_Comment c) sil
  | [] => sil
  end.

(** [state.merge]: the new state, whether it changed and whether an id was
    added. *)
Definition merge (s : gmap string MeshSilence) (e : MeshSilence) (now : time)
    : gmap string MeshSilence * bool * bool :=
  if Before (AsTime (ExpiresAt e)) now then (s, false, false) else
  let e := mkMeshSilence (upgrade_comments (Silence e)) (ExpiresAt e) in
  let id := Id (Silence e) in
  match s !! id with
  | None => (<[id := e]> s, true, true)
  | Some prev =>
      if Before (AsTime (UpdatedAt (Silence prev))) (AsTime (UpdatedAt (Silence e)))
      then (<[id := e]> s, true, false)
      else (s, false, false)
  end.

(** [indexSilence]: a silence whose matchers do not compile is listed in the
    version index but not in the matcher index. *)
Definition indexSilence (s : Silences) (sil : PbSilence) : Silences :=
  let version := version s + 1 in
  let vi := versionIndex_add (vi s) version (Id sil) in
  match matcherIndex_add (mi s) sil with
  | Ok (mi, _) => mkSilences (retention s) (limits s) (st s) version mi vi (trace s)
  | Err _ => mkSilences (retention s) (limits s) (st s) version (mi s) vi (trace s)
  end.

Definition getSilence (s : Silences) (id : string) : option PbSilence :=
  Silence <$> st s !! id.

Definition toMeshSilence (s : Silences) (sil : PbSilence) : MeshSilence :=
  mkMeshSilence sil (timestamppb_New (AsTime (EndsAt sil) + retention s)).

Definition checkSizeLimits (s : Silences) (msil : MeshSilence) : option error :=
  match MaxSilenceSizeBytes (limits s) with
  | Some m => if (0 <? m) && (m <? proto_Size msil) then Some ErrSizeLimit else None
  | None => None
  end.

(** [setSilence]. *)
Definition setSilence (s : Silences) (msil : MeshSilence) (now : time)
    : Silences * result error (bool * bool) :=
  match marshalMeshSilence msil with
  | Err e => (s, Err e)
  | Ok b =>
      let '(st', changed, added) := merge (st s) msil now in
      let s := set_st st' s in
      let s := if added : bool then indexSilence s (Silence msil) else s in
      let s := if changed : bool then emit (Broadcast b) s else s in
      (s, Ok (changed, added))
  end.

(** [canUpdate]. *)
Definition canUpdate (a b : PbSilence) (now : time) : bool :=
  if negb (bool_decide (MatcherSets a = MatcherSets b)) then false else
  match getState a now with
  | SilenceStateActive =>
      if negb (Unix (AsTime (StartsAt a)) =? Unix (AsTime (StartsAt b))) then false
      else if Before (AsTime (EndsAt b)) now then false
      else true
  | SilenceStatePending =>
      if Before (AsTime (StartsAt b)) now then false else true
  | SilenceStateExpired => false
  end.

(** [expire]. *)
Definition expire (s : Silences) (id : string) (now : time) : Silences * option error :=
  match getSilence s id with
  | None => (s, Some ErrNotFound)
  | Some sil =>
      let finish sil :=
        let sil := set_UpdatedAt (timestamppb_New now) sil in
        let '(s, r) := setSilence s (toMeshSilence s sil) now in
        (s, match r with Ok _ => None | Err e => Some e end) in
      match getState sil now with
      | SilenceStateExpired => (s, None)
      | SilenceStateActive => finish (set_EndsAt (timestamppb_New now) sil)
      | SilenceStatePending =>
          finish (set_EndsAt (timestamppb_New now) (set_StartsAt (timestamppb_New now) sil))
      end
  end.

(** [Expire] takes the lock and calls [expire]. *)
Definition Expire := expire.

(** The caller's silence after [setSilence]: [merge] upgrades its comments in
    place unless the silence is already expired. *)
Definition after_merge (msil : MeshSilence) (now : time) : PbSilence :=
  if Before (AsTime (ExpiresAt msil)) now then Silence msil
  else upgrade_comments (Silence msil).

(** The branch of [Set] that updates a silence in place. *)
Definition Set_update (s : Silences) (sil : PbSilence) (now : time)
    : Silences * PbSilence * option error :=
  let sil := set_UpdatedAt (timestamppb_New now) sil in
  let msil := toMeshSilence s sil in
  match checkSizeLimits s msil with
  | Some e => (s, sil, Some e)
  | None =>
      match setSilence s msil now with
      | (s, Err e) => (s, sil, Some e)
      | (s, Ok (changed, _)) =>
          let sil := after_merge msil now in
          (if changed : bool then emit (Recorded (SilenceUpdated sil)) s else s, sil, None)
      end
  end.

(** The assignments that make [sil] a new silence. *)
Definition stamp_new (sil : PbSilence) (uid : string) (now : time) : PbSilence :=
  let sil := set_Id uid sil in
  let sil := if Before (AsTime (StartsAt sil)) now
             then set_StartsAt (timestamppb_New now) sil else sil in
  set_UpdatedAt (timestamppb_New now) sil.

(** Expire the silence that is being replaced, unless it has ended. *)
Definition expire_previous (s : Silences) (prev : option PbSilence)
    (now_prev now_expire : time) : Silences * option error :=
  match prev with
  | Some p =>
      if bool_decide (getState p now_prev ≠ SilenceStateExpired)
      then expire s (Id p) now_expire else (s, None)
  | None => (s, None)
  end.

Definition too_many (s : Silences) : bool :=
  match MaxSilences (limits s) with
  | Some m => (0 <? m) && (m <? Z.of_nat (size (st s)) + 1)
  | None => false
  end.

(** The rest of [Set]: a new silence, or one that replaces [prev]. *)
Definition Set_create (s : Silences) (sil : PbSilence) (prev : option PbSilence)
    (now now_prev now_expire : time) (uid : option string)
    : Silences * PbSilence * option error :=
  if too_many s then (s, sil, Some ErrMaxSilences) else
  match uid with
  | None => (s, sil, Some ErrUUID)
  | Some uid =>
      let sil := stamp_new sil uid now in
      let msil := toMeshSilence s sil in
      match checkSizeLimits s msil with
      | Some e => (s, sil, Some e)
      | None =>
          match expire_previous s prev now_prev now_expire with
          | (s, Some e) => (s, sil, Some (ErrExpirePrevious e))
          | (s, None) =>
              match setSilence s msil now with
              | (s, Err e) => (s, sil, Some e)
              | (s, Ok (_, added)) =>
                  let sil := after_merge msil now in
                  (if added : bool then emit (Recorded (SilenceCreated sil)) s else s, sil, None)
              end
          end
      end
  end.

(** [Set]: [now], [now_prev] and [now_expire] are the successive readings of
    the clock, [uid] what the UUID generator returned.  The caller's silence is
    modified in place, so it is part of the result. *)
Definition Set_ (s : Silences) (sil : PbSilence)
    (now now_prev now_expire : time) (uid : option string)
    : Silences * PbSilence * option error :=
  let sil := if nil_or_zero (StartsAt sil)
             then set_StartsAt (timestamppb_New now) sil else sil in
  let '(sil, invalid) := validateSilence sil in
  match invalid with
  | Some r => (s, sil, Some (ErrInvalidSilence r))
  | None =>
      let prev := getSilence s (Id sil) in
      if bool_decide (Id sil ≠ ""%string) && bool_decide (prev = None)
      then (s, sil, Some ErrNotFound)
      else match prev with
           | Some p =>
               if canUpdate p sil now then Set_update s sil now
               else Set_create s sil prev now now_prev now_expire uid
           | None => Set_create s sil prev now now_prev now_expire uid
           end
  end.

(** ** Garbage collection *)
Inductive gc_error := MissingFromState (id : string) | ZeroExpiration (id : string).

Fixpoint gc_loop (now : time) (svs : versionIndex)
    (st : gmap string MeshSilence) (mi : matcherIndex) (targetVi : versionIndex)
    (n : Z) (errs : list gc_error)
    : gmap string MeshSilence * matcherIndex * versionIndex * Z * list gc_error :=
  match svs with
  | [] => (st, mi, targetVi, n, errs)
  | sv :: svs =>
      match st !! sv_id sv with
      | None => gc_loop now svs st mi targetVi n (errs ++ [MissingFromState (sv_id sv)])
      | Some sil =>
          let expire := nil_or_zero (ExpiresAt sil) in
          let errs := if expire then errs ++ [ZeroExpiration (Id (Silence sil))] else errs in
          if expire || negb (After (AsTime (ExpiresAt sil)) now)
          then gc_loop now svs (delete (Id (Silence sil)) st) (delete (Id (Silence sil)) mi)
                 targetVi (n + 1) errs
          else gc_loop now svs st mi (targetVi ++ [sv]) n errs
      end
  end.

Definition GC (s : Silences) (now : time) : Silences * Z * list gc_error :=
  let '(st', mi', vi', n, errs) := gc_loop now (vi s) (st s) (mi s) [] 0 [] in
  (mkSilences (retention s) (limits s) st' (version s) mi' vi' (trace s), n, errs).

(** ** Queries *)
Inductive silenceFilter := FMatches (set : LabelSet) | FState (states : list SilenceState).

Record query := mkQuery {
  q_ids : list string;
  q_since : option Z;
  q_filters : list silenceFilter;
}.

Inductive QueryParam :=
| QIDs (ids : list string)
| QSince (version : Z)
| QMatches (set : LabelSet)
| QState (states : list SilenceState).

(** Running one parameter function on the query under construction. *)
Definition apply_param (q : query) (p : QueryParam) : result error query :=
  match p with
  | QIDs ids =>
      match ids, q_since q with
      | [], _ => Err ErrQIDsEmpty
      | _, Some _ => Err ErrQSinceWithQIDs
      | _, None => Ok (mkQuery (q_ids q ++ ids) (q_since q) (q_filters q))
      end
  | QSince version =>
      match q_ids q with
      | _ :: _ => Err ErrQSinceWithQIDs
      | [] => Ok (mkQuery (q_ids q) (Some version) (q_filters q))
      end
  | QMatches set => Ok (mkQuery (q_ids q) (q_since q) (q_filters q ++ [FMatches set]))
  | QState states => Ok (mkQuery (q_ids q) (q_since q) (q_filters q ++ [FState states]))
  end.

Fixpoint apply_params (q : query) (ps : list QueryParam) : result error query :=
  match ps with
  | [] => Ok q
  | p :: ps => q ← apply_param q p; apply_params q ps
  end.

Definition run_filter (s : Silences) (now : time) (f : silenceFilter) (sil : PbSilence)
    : result error bool :=
  match f with
  | FMatches set =>
      m ← matcherIndex_get (mi s) sil; Ok (Labels.matches_setb m set)
  | FState states => Ok (bool_decide (getState sil now ∈ states))
  end.

(** [appendIfFiltersMatch], as the decision whether to append. *)
Fixpoint filters_match (s : Silences) (now : time) (fs : list silenceFilter) (sil : PbSilence)
    : result error bool :=
  match fs with
  | [] => Ok true
  | f :: fs =>
      b ← run_filter s now f sil;
      if b : bool then filters_match s now fs sil else Ok false
  end.

Fixpoint query_ids (s : Silences) (now : time) (fs : list silenceFilter) (ids : list string)
    : result error (list PbSilence) :=
  match ids with
  | [] => Ok []
  | id :: ids =>
      match st s !! id with
      | None => query_ids s now fs ids
      | Some sil =>
          b ← filters_match s now fs (Silence sil);
          res ← query_ids s now fs ids;
          Ok (if b : bool then Silence sil :: res else res)
      end
  end.

(** The scan of the version index dereferences [st[sv.id]] without a check;
    a missing entry would be a nil-pointer panic. *)
Fixpoint query_scan (s : Silences) (now : time) (fs : list silenceFilter) (svs : versionIndex)
    : result error (list PbSilence) :=
  match svs with
  | [] => Ok []
  | sv :: svs =>
      match st s !! sv_id sv with
      | None => Err ErrPanic
      | Some sil =>
          b ← filters_match s now fs (Silence sil);
          res ← query_scan s now fs svs;
          Ok (if b : bool then Silence sil :: res else res)
      end
  end.

(** [query]: with the result comes the version it is based on. *)
Definition query_ (s : Silences) (q : query) (now : time)
    : result error (list PbSilence) * Z :=
  (match q_ids q with
   | _ :: _ => query_ids s now (q_filters q) (q_ids q)
   | [] =>
       match q_since q with
       | Some since =>
           match findVersionGreaterThan (vi s) since with
           | (_, false) => Ok []
           | (start, true) => query_scan s now (q_filters q) (drop start (vi s))
           end
       | None => query_scan s now (q_filters q) (vi s)
       end
   end, version s).

Definition Query (s : Silences) (params : list QueryParam) (now : time)
    : result error (list PbSilence) * Z :=
  match apply_params (mkQuery [] None []) params with
  | Err e => (Err e, version s)
  | Ok q => query_ s q now
  end.

Definition QueryOne (s : Silences) (params : list QueryParam) (now : time)
    : result error PbSilence :=
  match (Query s params now).1 with
  | Err e => Err e
  | Ok [] => Err ErrNotFound
  | Ok (sil :: _) => Ok sil
  end.

(** [CountState]; [None] is the nil-pointer panic of the unchecked lookup. *)
Fixpoint count_loop (s : Silences) (states : list SilenceState) (now : time)
    (svs : versionIndex) (count : Z) : option Z :=
  match svs with
  | [] => Some count
  | sv :: svs =>
      sil ← st s !! sv_id sv;
      count_loop s states now svs
        (if bool_decide (getState (Silence sil) now ∈ states) then count + 1 else count)
  end.

Definition CountState (s : Silences) (states : list SilenceState) (now : time) : option Z :=
  count_loop s states now (vi s) 0.

(** ** Snapshots and gossip *)
Fixpoint load_index (version : Z) (es : list (string * MeshSilence))
    (mi : matcherIndex) (vi : versionIndex) : matcherIndex * versionIndex :=
  match es with
  | [] => (mi, vi)
  | (_, e) :: es =>
      let sil := upgrade_comments (Silence e) in
      match matcherIndex_add mi sil with
      | Ok (mi, _) => load_index version es mi (versionIndex_add vi (version + 1) (Id sil))
      | Err _ => load_index version es mi vi
      end
  end.

(** [loadSnapshot].  The entries are upgraded through their pointers, so all
    of the decoded map is upgraded, also the entries that do not compile. *)
Definition loadSnapshot (s : Silences) (r : list Z) : Silences * option error :=
  match decodeState r with
  | Err e => (s, Some e)
  | Ok st' =>
      let '(mi', vi') := load_index (version s) (range st') ∅ [] in
      let st' := (λ e, mkMeshSilence (upgrade_comments (Silence e)) (ExpiresAt e)) <$> st' in
      (mkSilences (retention s) (limits s) st' (version s + 1) mi' vi' (trace s), None)
  end.

(** [Snapshot] and [MarshalBinary] serialise the state map. *)
Definition Snapshot (s : Silences) : result error (list Z) := state_MarshalBinary (st s).

Fixpoint merge_loop (s : Silences) (b : list Z) (now : time)
    (es : list (string * MeshSilence)) : Silences :=
  match es with
  | [] => s
  | (_, e) :: es =>
      let '(st', merged, added) := merge (st s) e now in
      let s := set_st st' s in
      let s := if merged : bool then
                 let s := if added : bool then indexSilence s (Silence e) else s in
                 if OversizedMessage b then s else emit (Broadcast b) s
               else s in
      merge_loop s b now es
  end.

(** [Merge]. *)
Definition Merge (s : Silences) (b : list Z) (now : time) : Silences * option error :=
  match decodeState b with
  | Err e => (s, Some e)
  | Ok st' => (merge_loop s b now (range st'), None)
  end.
End silence.
End Silence.
