(* ===== verification/Instances.v ===== *)
(** * Concrete instances of the parameters

    The components are parametrised by what they call outside the repository
    (regular expressions, the protobuf codec, label validation, the iteration
    order of maps).  This file holds one concrete instance of each, simple but
    lawful, at which the theorems are instantiated: it shows that the laws that
    are assumed of a parameter can hold, and lets the definitions be run. *)

From Stdlib Require Import Ascii String.
From stdpp Require Import base gmap strings list.
From S2P Require Import Prelude Utf8 Labels Silence.

Import Silence.

(** Expressions without operators: an anchored pattern [^(?:p)$] matches the
    string [p]; a pattern with an opening bracket does not compile. *)
Definition has_bracket (s : string) : bool := existsb (Z.eqb 91) (bytes s).

#[export] Instance literal_regexp : Regexp := {|
  regex := string;
  Compile p := if has_bracket p then None else Some p;
  MatchString r s := bool_decide (r = s) || bool_decide (r = "^(?:" +:+ s +:+ ")$");
|}.

#[export] Instance any_label : LabelValidation := {|
  IsValidLabelName n := bool_decide (n ≠ ""%string);
  IsValidLabelValue _ := true;
|}.

#[export] Existing Instance sorted_range.

(** A codec whose messages are the entries of a table: one byte, the position
    in the table. *)
Definition table_codec (table : list MeshSilence) : SilenceCodec := {|
  MarshalTo m := (λ x, [Z.of_nat x.1]) <$> list_find (λ x, x = m) table;
  UnmarshalFrom bs :=
    match bs with
    | [] => UnmarshalEOF
    | b :: rest =>
        match table !! Z.to_nat b with
        | Some m => Unmarshalled (mkWireSilence (Some (Silence m)) (ExpiresAt m)) rest
        | None => UnmarshalErr
        end
    end;
  proto_Size _ := 1;
|}.

(** Example data: silence requests and stored silences. *)
Definition ex_sets (job : string) : list PbMatcherSet :=
  [mkPbMatcherSet [mkPbMatcher EQUAL "job" job]].
Definition ex_silence (job id : string) (starts ends updated : time) : PbSilence :=
  mkPbSilence id [] (Some starts) (Some ends) (Some updated) [] "ops" "maintenance" ∅ (ex_sets job) [].
Definition ex_mesh (job id : string) (starts ends updated expires : time) : MeshSilence :=
  mkMeshSilence (ex_silence job id starts ends updated) (Some expires).
(** The form that is written: the matchers are duplicated for older readers. *)
Definition ex_wire (m : MeshSilence) : MeshSilence :=
  mkMeshSilence (prepareSilenceForMarshalling (Silence m)) (ExpiresAt m).

Definition no_limits : Limits := mkLimits None None.

(** Silence [a] as created at 10 (from 20 to 100), expired while pending at 15,
    expired while active at 50; silence [b], with
    other matchers, that replaces it; a later version
    of [a]. *)
Definition ex_a : MeshSilence := ex_mesh "api" "a" 20 100 10 110.
Definition ex_a15 : MeshSilence := ex_mesh "api" "a" 15 15 15 25.
Definition ex_a50 : MeshSilence := ex_mesh "api" "a" 20 50 50 60.
Definition ex_b : MeshSilence := ex_mesh "web" "b" 50 90 50 100.
Definition ex_a70 : MeshSilence := ex_mesh "api" "a" 20 200 70 210.
Definition ex_table : list MeshSilence := ex_wire <$> [ex_a; ex_a15; ex_a50; ex_b; ex_a70].

#[export] Instance ex_codec : SilenceCodec := table_codec ex_table.

(** The store after silence [a] was created. *)
Definition ex_store : Silences :=
  (Set_ (New_Silences 10 (mkLimits (Some 2) None)) (ex_silence "api" ""%string 20 100 0) 10 10 10
     (Some "a"%string)).1.1.

Example ex_store_st : st ex_store = {["a"%string := ex_a]}.
Proof. vm_compute. reflexivity. Qed.
