(* ===== verification/SilenceInv.v ===== *)
(** * Silences: the invariant of the store

    The state map, the matcher index and the version index are updated by
    different code paths.  [wf] states how they fit together; it holds of a new
    store and every operation preserves it, so it holds in every reachable
    state.  Two consequences: the unchecked lookups [s.st[sv.id]] of queries
    never meet a missing silence, and garbage collection removes exactly the
    collectable silences. *)

From stdpp Require Import base gmap strings list sorting relations.
From S2P Require Import Prelude Utf8 Labels Lww Silence.

Import Silence.

Module SilenceInv.
Section inv.
Context `{RE : Regexp, LV : LabelValidation, SC : SilenceCodec, MR : MapRange}.
Implicit Types (s : Silences) (e m : MeshSilence) (id : string).

Definition version_le (a b : silenceVersion) : Prop := sv_version a ≤ sv_version b.

Record wf (s : Silences) : Prop := {
  wf_keys : ∀ id m, st s !! id = Some m → Id (Silence m) = id;
  wf_vi_st : ∀ sv, sv ∈ vi s → is_Some (st s !! sv_id sv);
  wf_vi_nodup : NoDup (sv_id <$> vi s);
  wf_vi_sorted : StronglySorted version_le (vi s);
  wf_vi_version : ∀ sv, sv ∈ vi s → sv_version sv ≤ version s;
  wf_mi_st : ∀ id, is_Some (mi s !! id) → is_Some (st s !! id);
}.

(** ** merge *)
Definition upgraded (e : MeshSilence) : MeshSilence :=
  mkMeshSilence (upgrade_comments (Silence e)) (ExpiresAt e).

Lemma upgrade_comments_Id sil : Id (upgrade_comments sil) = Id sil.
Proof. unfold upgrade_comments. by case_match. Qed.

Lemma upgrade_comments_MatcherSets sil : MatcherSets (upgrade_comments sil) = MatcherSets sil.
Proof. unfold upgrade_comments. by case_match. Qed.

Lemma upgrade_comments_UpdatedAt sil : UpdatedAt (upgrade_comments sil) = UpdatedAt sil.
Proof. unfold upgrade_comments. by case_match. Qed.

(** The four outcomes of [merge]. *)
Inductive merge_out (s : gmap string MeshSilence) e (now : time)
    : gmap string MeshSilence * bool * bool → Prop :=
| merge_expired :
    AsTime (ExpiresAt e) < now → merge_out s e now (s, false, false)
| merge_added :
    now ≤ AsTime (ExpiresAt e) → s !! Id (Silence e) = None →
    merge_out s e now (<[Id (Silence e) := upgraded e]> s, true, true)
| merge_updated prev :
    now ≤ AsTime (ExpiresAt e) → s !! Id (Silence e) = Some prev →
    AsTime (UpdatedAt (Silence prev)) < AsTime (UpdatedAt (Silence e)) →
    merge_out s e now (<[Id (Silence e) := upgraded e]> s, true, false)
| merge_stale prev :
    now ≤ AsTime (ExpiresAt e) → s !! Id (Silence e) = Some prev →
    AsTime (UpdatedAt (Silence e)) ≤ AsTime (UpdatedAt (Silence prev)) →
    merge_out s e now (s, false, false).

Lemma merge_outP (s : gmap string MeshSilence) e now : merge_out s e now (merge s e now).
Proof.
  unfold merge. cbn. rewrite upgrade_comments_Id, upgrade_comments_UpdatedAt.
  destruct (Before_spec (AsTime (ExpiresAt e)) now); [by constructor|].
  destruct (s !! Id (Silence e)) as [prev|] eqn:Hp.
  - destruct (Before_spec (AsTime (UpdatedAt (Silence prev))) (AsTime (UpdatedAt (Silence e)))).
    + apply merge_updated with prev; (done || lia).
    + apply merge_stale with prev; (done || lia).
  - apply merge_added; [lia|done].
Qed.

(** What [setSilence] and [Merge] do with one entry, broadcasts aside. *)
Definition absorb (s : Silences) (e : MeshSilence) (now : time) : Silences :=
  let '(st', _, added) := merge (st s) e now in
  if added : bool then indexSilence (set_st st' s) (Silence e) else set_st st' s.

Lemma indexSilence_fields s sil :
  st (indexSilence s sil) = st s ∧ version (indexSilence s sil) = version s + 1 ∧
  vi (indexSilence s sil) = vi s ++ [mkSilenceVersion (Id sil) (version s + 1)] ∧
  (mi (indexSilence s sil) = mi s ∨
   ∃ ms, compile_sets (MatcherSets sil) = Ok ms ∧ mi (indexSilence s sil) = <[Id sil := ms]> (mi s)).
Proof.
  unfold indexSilence, matcherIndex_add. destruct (compile_sets _) as [ms|] eqn:Hc; cbn;
    repeat split; eauto.
Qed.

Lemma wf_emit x s : wf s → wf (emit x s).
Proof. by intros []; constructor. Qed.

Lemma wf_set_existing s e prev :
  wf s → st s !! Id (Silence e) = Some prev →
  wf (set_st (<[Id (Silence e) := upgraded e]> (st s)) s).
Proof.
  intros [Hk Hvs Hnd Hso Hv Hms] Hp. constructor; cbn; [| |done..|].
  - intros id m [[<- <-]|[_ Hm]]%lookup_insert_Some; [apply upgrade_comments_Id|by apply Hk].
  - intros sv Hsv. apply lookup_insert_is_Some'. eauto.
  - intros id Hid. apply lookup_insert_is_Some'. eauto.
Qed.

Lemma wf_add_new s e :
  wf s → st s !! Id (Silence e) = None →
  wf (indexSilence (set_st (<[Id (Silence e) := upgraded e]> (st s)) s) (Silence e)).
Proof.
  intros [Hk Hvs Hnd Hso Hv Hms] Hp.
  destruct (indexSilence_fields (set_st (<[Id (Silence e) := upgraded e]> (st s)) s) (Silence e))
    as (Est & Ever & Evi & Emi). cbn in *.
  constructor; rewrite ?Est, ?Ever, ?Evi; cbn.
  - intros id m [[<- <-]|[_ Hm]]%lookup_insert_Some; [apply upgrade_comments_Id|by apply Hk].
  - intros sv [Hsv| ->%list_elem_of_singleton]%elem_of_app; apply lookup_insert_is_Some'; eauto.
  - rewrite fmap_app. apply NoDup_app. repeat split; [done| |apply NoDup_singleton].
    intros id (sv & -> & Hsv)%list_elem_of_fmap Hid%list_elem_of_singleton.
    destruct (Hvs sv Hsv) as [x Hx]. cbn in Hid. congruence.
  - apply StronglySorted_app_2; [|done|repeat constructor].
    intros a b Ha ->%list_elem_of_singleton. unfold version_le; cbn. specialize (Hv a Ha). lia.
  - intros sv [Hsv| ->%list_elem_of_singleton]%elem_of_app; cbn; [|lia].
    specialize (Hv sv Hsv). lia.
  - intros id Hid. apply lookup_insert_is_Some'.
    destruct Emi as [Emi|(ms & _ & Emi)]; rewrite Emi in Hid; [eauto|].
    apply lookup_insert_is_Some' in Hid as [|]; eauto.
Qed.

Lemma wf_absorb s e now : wf s → wf (absorb s e now).
Proof.
  intros Hwf. unfold absorb.
  assert (Hid : set_st (st s) s = s) by by destruct s.
  destruct (merge_outP (st s) e now); cbn; rewrite ?Hid;
    eauto using wf_add_new, wf_set_existing.
Qed.

(** ** Operations as runs of small steps

    [Set], [Expire] and [Merge] change the store by absorbing entries and by
    emitting effects, nothing else. *)
Inductive micro : relation Silences :=
| micro_emit s x : micro s (emit x s)
| micro_absorb s e now : micro s (absorb s e now).

Lemma micro_wf s s' : rtc micro s s' → wf s → wf s'.
Proof.
  induction 1 as [|s1 s2 s3 Hstep _ IH]; [done|]. intros Hwf. apply IH.
  destruct Hstep; auto using wf_emit, wf_absorb.
Qed.

Lemma micro_absorb_emit s e now (b : bool) x :
  rtc micro s (if b then emit x (absorb s e now) else absorb s e now).
Proof.
  destruct b; [eapply rtc_l; [apply micro_absorb|]|];
    eapply rtc_once; constructor.
Qed.

Lemma setSilence_micro s msil now : rtc micro s (setSilence s msil now).1.
Proof.
  unfold setSilence. destruct (marshalMeshSilence msil) as [b|]; [|done].
  pose proof (micro_absorb_emit s msil now) as H. unfold absorb in H.
  destruct (merge (st s) msil now) as [[st' changed] added]. apply H.
Qed.

Lemma expire_micro s id now : rtc micro s (expire s id now).1.
Proof.
  unfold expire. destruct (getSilence s id) as [sil|]; [|done].
  destruct (getState sil now); [done|..];
    (destruct (setSilence s _ now) as [s' r] eqn:Hs; cbn;
     match type of Hs with setSilence _ ?m _ = _ =>
       pose proof (setSilence_micro s m now) as H end; by rewrite Hs in H).
Qed.

Lemma Set_update_micro s sil now : rtc micro s (Set_update s sil now).1.1.
Proof.
  unfold Set_update. destruct (checkSizeLimits s _); [done|].
  destruct (setSilence s _ now) as [s' r] eqn:Hs.
  match type of Hs with setSilence _ ?m _ = _ =>
    pose proof (setSilence_micro s m now) as H end.
  rewrite Hs in H. destruct r as [[[] added]|]; cbn in *; [|done..].
  eapply rtc_r; [done|]. constructor.
Qed.

Lemma expire_previous_micro s prev now1 now2 :
  rtc micro s (expire_previous s prev now1 now2).1.
Proof.
  unfold expire_previous. destruct prev; [|done]. case_match; [apply expire_micro|done].
Qed.

Lemma Set_create_micro s sil prev now now1 now2 uid :
  rtc micro s (Set_create s sil prev now now1 now2 uid).1.1.
Proof.
  unfold Set_create. destruct (too_many s); [done|]. destruct uid as [uid|]; [|done].
  destruct (checkSizeLimits _ _); [done|].
  pose proof (expire_previous_micro s prev now1 now2) as H0.
  destruct (expire_previous s prev now1 now2) as [s1 [e|]]; [done|].
  destruct (setSilence s1 _ now) as [s' r] eqn:Hs.
  match type of Hs with setSilence _ ?m _ = _ =>
    pose proof (setSilence_micro s1 m now) as H1 end.
  rewrite Hs in H1. cbn in *.
  destruct r as [[changed []]|]; cbn in *; try by etrans.
  etrans; [done|]. eapply rtc_r; [done|]. constructor.
Qed.

Lemma Set_micro s sil now now1 now2 uid :
  rtc micro s (Set_ s sil now now1 now2 uid).1.1.
Proof.
  unfold Set_. destruct (validateSilence _) as [sil' [r|]]; [done|].
  repeat case_match; try done; auto using Set_update_micro, Set_create_micro.
Qed.

Lemma merge_loop_micro b now es : ∀ s, rtc micro s (merge_loop s b now es).
Proof.
  induction es as [|[k e] es IH]; intros s; cbn; [done|].
  pose proof (micro_absorb_emit s e now) as H. unfold absorb in H.
  pose proof (merge_outP (st s) e now) as Hout.
  destruct (merge (st s) e now) as [[st' merged] added].
  etrans; [|apply IH]. destruct merged.
  - destruct (OversizedMessage b); [apply (H false (Broadcast b))|apply (H true (Broadcast b))].
  - inversion Hout; subst; apply (H false (Broadcast b)).
Qed.

Lemma Merge_micro s b now : rtc micro s (Merge s b now).1.
Proof. unfold Merge. destruct (decodeState b); [apply merge_loop_micro|done]. Qed.

(** ** Garbage collection *)
Definition collectable (now : time) (m : MeshSilence) : bool :=
  nil_or_zero (ExpiresAt m) || negb (After (AsTime (ExpiresAt m)) now).

(** Listed in the version index, present and not collectable. *)
Definition survives (st : gmap string MeshSilence) (now : time) (sv : silenceVersion) : bool :=
  match st !! sv_id sv with
  | Some m => negb (collectable now m)
  | None => false
  end.

(** Removed by a collection that scans the ids [ids]. *)
Definition collected (st : gmap string MeshSilence) (now : time) (ids : list string) id : bool :=
  bool_decide (id ∈ ids) &&
  match st !! id with Some m => collectable now m | None => false end.

Lemma collected_delete (st0 : gmap string MeshSilence) now ids id0 id :
  id0 ∉ ids → collected (delete id0 st0) now ids id = collected st0 now ids id.
Proof.
  intros Hid. unfold collected.
  destruct (decide (id = id0)) as [->|]; [|by rewrite lookup_delete_ne].
  by rewrite bool_decide_eq_false_2.
Qed.

Lemma survives_delete (st0 : gmap string MeshSilence) now (svs : list silenceVersion) id0 :
  id0 ∉ sv_id <$> svs →
  List.filter (survives (delete id0 st0) now) svs = List.filter (survives st0 now) svs.
Proof.
  intros Hid. apply List.filter_ext_in. intros sv Hsv%list_elem_of_In.
  unfold survives. rewrite lookup_delete_ne; [done|].
  intros ->. apply Hid, list_elem_of_fmap. eauto.
Qed.

(** The part of a map whose keys are not marked. *)
Definition without {V} (p : string → bool) (m : gmap string V) : gmap string V :=
  filter (λ x, p x.1 = false) m.

Lemma lookup_without {V} p (m : gmap string V) id :
  without p m !! id = if p id then None else m !! id.
Proof.
  unfold without. apply option_eq. intros v. rewrite map_lookup_filter_Some. cbn.
  destruct (p id); naive_solver.
Qed.

Lemma without_ext {V} p q (m : gmap string V) :
  (∀ id, is_Some (m !! id) → p id = q id) → without p m = without q m.
Proof.
  intros H. apply map_eq. intros id. rewrite !lookup_without.
  destruct (m !! id) eqn:Hm; [by rewrite H by eauto|by destruct (p id), (q id)].
Qed.

Lemma without_delete {V} p q id0 (m : gmap string V) :
  q id0 = true → (∀ id, id ≠ id0 → p id = q id) →
  without p (delete id0 m) = without q m.
Proof.
  intros H0 H. apply map_eq. intros id. rewrite !lookup_without.
  destruct (decide (id = id0)) as [->|].
  - rewrite lookup_delete_eq, H0. by destruct (p id0).
  - rewrite lookup_delete_ne, H by done. done.
Qed.

Lemma collected_cons st0 now id0 ids id :
  collected st0 now (id0 :: ids) id =
    (bool_decide (id = id0) && collected st0 now [id0] id) || collected st0 now ids id.
Proof.
  unfold collected. destruct (decide (id = id0)) as [->|Hne].
  - rewrite !(bool_decide_eq_true_2 (id0 ∈ id0 :: _)), bool_decide_eq_true_2 by set_solver.
    cbn. by destruct (st0 !! id0) as [m|], (bool_decide (id0 ∈ ids)); cbn; rewrite ?orb_diag, ?orb_false_r.
  - rewrite (bool_decide_ext (id ∈ id0 :: ids) (id ∈ ids)) by set_solver.
    by rewrite (bool_decide_eq_false_2 (id = id0)) by done.
Qed.

(** The scan removes the collected entries from both maps, keeps the
    surviving part of the index in order and counts what it removes. *)
Lemma gc_loop_spec now svs : ∀ st0 (mi0 : gmap string Labels.MatcherSet) tvi n errs,
  NoDup (sv_id <$> svs) → (∀ id m, st0 !! id = Some m → Id (Silence m) = id) →
  let p := collected st0 now (sv_id <$> svs) in
  ∃ errs', gc_loop now svs st0 mi0 tvi n errs =
    (without p st0, without p mi0, tvi ++ List.filter (survives st0 now) svs,
     n + Z.of_nat (length (List.filter p (sv_id <$> svs))), errs').
Proof.
  induction svs as [|sv svs IH]; intros st0 mi0 tvi n errs Hnd Hk p; cbn.
  { exists errs. rewrite app_nil_r, Z.add_0_r. f_equal; f_equal; f_equal; f_equal;
      apply map_eq; intros; by rewrite lookup_without. }
  apply NoDup_cons in Hnd as [Hnin Hnd]. set (id0 := sv_id sv) in *.
  assert (Hp : ∀ id, id ≠ id0 → p id = collected st0 now (sv_id <$> svs) id).
  { intros id Hne. subst p. cbn [fmap list_fmap]. rewrite collected_cons.
    by rewrite bool_decide_eq_false_2. }
  assert (Hcnt : ∀ q, (∀ id, id ≠ id0 → p id = q id) →
    List.filter p (sv_id <$> svs) = List.filter q (sv_id <$> svs)).
  { intros q Hq. apply List.filter_ext_in. intros id Hin%list_elem_of_In.
    apply Hq. intros ->. done. }
  assert (Hp0 : p id0 = match st0 !! id0 with Some m => collectable now m | None => false end).
  { subst p. unfold collected. rewrite bool_decide_eq_true_2; [done|]. cbn. set_solver. }
  rewrite Hp0. unfold survives at 1. fold id0.
  destruct (st0 !! id0) as [m|] eqn:Hm.
  - fold (collectable now m). destruct (collectable now m) eqn:Hc; cbn.
    + rewrite (Hk id0 m Hm).
      destruct (IH (delete id0 st0) (delete id0 mi0) tvi (n + 1)
        (if nil_or_zero (ExpiresAt m) then errs ++ [ZeroExpiration id0] else errs))
        as [errs' E]; [done| |].
      { intros id m' [_ Hm']%lookup_delete_Some. by apply Hk. }
      exists errs'. rewrite E, survives_delete by done.
      assert (Hq : ∀ id, id ≠ id0 → collected (delete id0 st0) now (sv_id <$> svs) id = p id).
      { intros id Hne. by rewrite collected_delete, Hp. }
      rewrite !(without_delete _ p) by (done || rewrite Hp0; done).
      rewrite (Hcnt _ (λ id Hne, eq_sym (Hq id Hne))). cbn [length].
      by rewrite Nat2Z.inj_succ, <- Z.add_1_l, Z.add_assoc.
    + destruct (IH st0 mi0 (tvi ++ [sv]) n
        (if nil_or_zero (ExpiresAt m) then errs ++ [ZeroExpiration (Id (Silence m))] else errs))
        as [errs' E]; [done..|].
      exists errs'. rewrite E, <- app_assoc. cbn.
      assert (Hq : ∀ id, p id = collected st0 now (sv_id <$> svs) id).
      { intros id. destruct (decide (id = id0)) as [->|]; [|by apply Hp].
        rewrite Hp0. unfold collected. by rewrite bool_decide_eq_false_2. }
      rewrite (Hcnt _ (λ id _, Hq id)).
      by rewrite !(without_ext p (collected st0 now (sv_id <$> svs))) by auto.
  - destruct (IH st0 mi0 tvi n (errs ++ [MissingFromState id0])) as [errs' E]; [done..|].
    exists errs'. rewrite E.
    assert (Hq : ∀ id, p id = collected st0 now (sv_id <$> svs) id).
    { intros id. destruct (decide (id = id0)) as [->|]; [|by apply Hp].
      rewrite Hp0. unfold collected. by rewrite bool_decide_eq_false_2. }
    rewrite (Hcnt _ (λ id _, Hq id)).
    by rewrite !(without_ext p (collected st0 now (sv_id <$> svs))) by auto.
Qed.

Lemma elem_of_survivors st0 now (svs : list silenceVersion) sv :
  sv ∈ List.filter (survives st0 now) svs ↔
    sv ∈ svs ∧ ∃ m, st0 !! sv_id sv = Some m ∧ collectable now m = false.
Proof.
  rewrite !list_elem_of_In, filter_In. unfold survives.
  apply and_iff_compat_l. destruct (st0 !! sv_id sv) as [m|]; [|naive_solver].
  rewrite negb_true_iff. naive_solver.
Qed.

Lemma NoDup_survivors st0 now (svs : list silenceVersion) :
  NoDup (sv_id <$> svs) → NoDup (sv_id <$> List.filter (survives st0 now) svs).
Proof.
  induction svs as [|sv svs IH]; cbn; [done|]. intros [Hn Hnd]%NoDup_cons.
  destruct (survives st0 now sv); cbn; [|by apply IH].
  apply NoDup_cons. split; [|by apply IH].
  intros (sv' & E & [Hin _]%elem_of_survivors)%list_elem_of_fmap.
  apply Hn. rewrite E. apply list_elem_of_fmap. eauto.
Qed.

Lemma wf_GC s now : wf s → wf (GC s now).1.1.
Proof.
  intros [Hk Hvs Hnd Hso Hv Hms]. unfold GC.
  destruct (gc_loop_spec now (vi s) (st s) (mi s) [] 0 [] Hnd Hk) as [errs ->].
  cbn. constructor; cbn; try setoid_rewrite lookup_without.
  - intros id m. case_match; [done|]. apply Hk.
  - intros sv [Hsv (m & Hm & Hc)]%elem_of_survivors. unfold collected.
    rewrite Hm, Hc, andb_false_r. eauto.
  - by apply NoDup_survivors.
  - by apply StronglySorted_filter.
  - intros sv [Hsv _]%elem_of_survivors. by apply Hv.
  - intros id. case_match; [by intros []|]. apply Hms.
Qed.

(** ** Snapshots *)
Lemma postprocess_Id sil : Id (postprocessUnmarshalledSilence sil) = Id sil.
Proof. unfold postprocessUnmarshalledSilence. by repeat case_match. Qed.

Lemma decode_loop_keys fuel : ∀ st0 r st',
  (∀ id m, st0 !! id = Some m → Id (Silence m) = id) →
  decode_loop fuel st0 r = Ok st' →
  ∀ id m, st' !! id = Some m → Id (Silence m) = id.
Proof.
  induction fuel as [|fuel IH]; intros st0 r st' H0; cbn; [done|].
  destruct (UnmarshalFrom r) as [m rest| |]; [|by intros [= <-]|done].
  destruct (w_Silence m) as [sil|]; [|done]. apply IH.
  intros id' m' [[<- <-]|[_ ?]]%lookup_insert_Some; eauto.
Qed.

Definition compiles (e : MeshSilence) : bool := is_ok (compile_sets (MatcherSets (Silence e))).

Lemma load_index_vi ver es : ∀ (mi0 : gmap string Labels.MatcherSet) vi0,
  (load_index ver es mi0 vi0).2 =
    vi0 ++ ((λ x, mkSilenceVersion (Id (Silence x.2)) (ver + 1)) <$>
            List.filter (λ x, compiles x.2) es).
Proof.
  induction es as [|[k e] es IH]; intros mi0 vi0; cbn; [by rewrite app_nil_r|].
  unfold matcherIndex_add, compiles.
  rewrite upgrade_comments_MatcherSets, upgrade_comments_Id.
  destruct (compile_sets (MatcherSets (Silence e))) as [ms|]; cbn; rewrite IH; [|done].
  unfold versionIndex_add. by rewrite <- app_assoc.
Qed.

(** What the matcher index holds comes from the entries, and every entry that
    compiles is in it. *)
Lemma load_index_mi ver es : ∀ (mi0 : gmap string Labels.MatcherSet) vi0,
  (∀ id ms, (load_index ver es mi0 vi0).1 !! id = Some ms →
     mi0 !! id = Some ms ∨
     ∃ k e, (k, e) ∈ es ∧ Id (Silence e) = id ∧ compile_sets (MatcherSets (Silence e)) = Ok ms) ∧
  (∀ id, is_Some (mi0 !! id) → is_Some ((load_index ver es mi0 vi0).1 !! id)) ∧
  (∀ k e, (k, e) ∈ es → compiles e = true →
     is_Some ((load_index ver es mi0 vi0).1 !! Id (Silence e))).
Proof.
  induction es as [|[k0 e0] es IH]; intros mi0 vi0; cbn.
  { split_and!; [by left|done|]. by intros k e ?%elem_of_nil. }
  unfold matcherIndex_add. rewrite upgrade_comments_MatcherSets, upgrade_comments_Id.
  destruct (compile_sets (MatcherSets (Silence e0))) as [ms0|err] eqn:Hc; cbn.
  - destruct (IH (<[Id (Silence e0) := ms0]> mi0)
      (versionIndex_add vi0 (ver + 1) (Id (Silence e0)))) as (H1 & H2 & H3).
    split_and!.
    + intros id ms [[[<- <-]|[_ ?]]%lookup_insert_Some|(k & e & ? & ?)]%H1; [|by left|];
        right; eexists _, _; (split; [apply elem_of_cons|]); eauto.
    + intros id Hid. apply H2, lookup_insert_is_Some'. eauto.
    + intros k e [[= -> ->]|Hin]%elem_of_cons He; [|by eapply H3].
      apply H2, lookup_insert_is_Some'. eauto.
  - destruct (IH mi0 vi0) as (H1 & H2 & H3). split_and!; [|done|].
    + intros id ms [?|(k & e & ? & ?)]%H1; [by left|].
      right; eexists _, _; (split; [apply elem_of_cons|]); eauto.
    + intros k e [[= -> ->]|Hin]%elem_of_cons He; [|by eapply H3].
      unfold compiles in He. by rewrite Hc in He.
Qed.

Lemma wf_loadSnapshot s r : wf s → wf (loadSnapshot s r).1.
Proof.
  intros Hwf. unfold loadSnapshot. destruct (decodeState r) as [st'|] eqn:Hd; [|done].
  assert (Hk : ∀ id m, st' !! id = Some m → Id (Silence m) = id).
  { eapply decode_loop_keys; [|done]. by intros ???. }
  pose proof (load_index_vi (version s) (range st') ∅ []) as Hvi.
  destruct (load_index_mi (version s) (range st') ∅ []) as (Hmi & _ & _).
  destruct (load_index (version s) (range st') ∅ []) as [mi' vi']. cbn in *. subst vi'.
  assert (Hin : ∀ x, x ∈ List.filter (λ x, compiles x.2) (range st') → st' !! x.1 = Some x.2).
  { intros [k e] Hx. by apply list_elem_of_In, filter_In in Hx as [Hx%list_elem_of_In%elem_of_range _]. }
  constructor; cbn.
  - intros id m. rewrite lookup_fmap_Some. intros (m' & <- & Hm'). cbn.
    rewrite upgrade_comments_Id. by apply Hk.
  - intros sv (x & -> & Hx)%list_elem_of_fmap. cbn. rewrite lookup_fmap.
    rewrite (Hk x.1 x.2), (Hin x) by auto. by eexists.
  - rewrite <- list_fmap_compose.
    rewrite (list_fmap_ext _ fst); [by apply NoDup_fst_filter, NoDup_fst_range|].
    intros i x Hx. cbn. apply Hk, Hin, list_elem_of_lookup. eauto.
  - apply Sorted_StronglySorted; [intros ???; unfold version_le; lia|].
    generalize (List.filter (λ x, compiles x.2) (range st')). clear.
    induction l as [|x l IH]; cbn; constructor; [done|].
    destruct l; cbn; constructor. unfold version_le. cbn. lia.
  - intros sv (x & -> & Hx)%list_elem_of_fmap. cbn. lia.
  - intros id [ms Hms]. destruct (Hmi id ms Hms) as [?|(k & e & He & <- & _)]; [done|].
    apply elem_of_range in He. rewrite lookup_fmap, (Hk k e), He by done. by eexists.
Qed.

(** ** What the two indices hold *)

Definition compiled (sets : list PbMatcherSet) : option Labels.MatcherSet :=
  match compile_sets sets with Ok ms => Some ms | Err _ => None end.

Definition ids (s : Silences) : list string := sv_id <$> vi s.

(** [F] gives, for every stored id, the matchers it had when it was added, and
    [bad] are the ids a snapshot brought with matchers that do not compile.  The
    version index lists the other ids, and the matcher index holds, for every
    id, those first matchers. *)
Record indexed (F : gmap string (list PbMatcherSet)) (bad : gset string) (s : Silences) : Prop := {
  ix_dom : ∀ id, is_Some (F !! id) ↔ is_Some (st s !! id);
  ix_bad : ∀ id, id ∈ bad → is_Some (st s !! id);
  ix_vi : ∀ id, id ∈ ids s ↔ is_Some (st s !! id) ∧ id ∉ bad;
  ix_mi : ∀ id, mi s !! id = F !! id ≫= compiled;
}.

(** An operation that adds silences and replaces some: what it does to the
    indices. *)
Record extends (s s' : Silences) : Prop := {
  ex_st : ∀ id, is_Some (st s !! id) → is_Some (st s' !! id);
  ex_vi : ∀ id, id ∈ ids s' ↔ id ∈ ids s ∨ (st s !! id = None ∧ is_Some (st s' !! id));
  ex_old : ∀ id, is_Some (st s !! id) → mi s' !! id = mi s !! id;
  ex_new : ∀ id, st s !! id = None →
    mi s' !! id = match st s' !! id with Some m => compiled (MatcherSets (Silence m)) | None => mi s !! id end;
}.

Lemma stored_extends_refl s : extends s s.
Proof. split; intros id; [done| |done|by intros ->]. split; [by left|]. intros [?|[-> []]]; done. Qed.

(** Two such operations one after the other, when the second leaves alone what
    the first has added. *)
Lemma extends_trans s s1 s2 :
  extends s s1 → extends s1 s2 →
  (∀ id, st s !! id = None → is_Some (st s1 !! id) → st s2 !! id = st s1 !! id) → extends s s2.
Proof.
  intros [A1 V1 O1 N1] [A2 V2 O2 N2] Hkeep. split; intros id.
  - auto.
  - rewrite V2, V1. split.
    + intros [[?|[? ?]]|[Hn1 Hs2]]; [by left|by auto|]. right. split; [|done].
      apply eq_None_not_Some. intros [x Hx]%A1. congruence.
    + intros [?|[Hn Hs2]]; [by auto|]. destruct (st s1 !! id) eqn:E1; [|by auto].
      left; right. split; [done|]. eauto.
  - intros Hs. rewrite O2 by auto. auto.
  - intros Hn. destruct (st s1 !! id) as [m|] eqn:E1.
    + rewrite (Hkeep id Hn), E1 by (rewrite ?E1; done). rewrite O2, N1, E1 by (rewrite ?E1; done). done.
    + rewrite N2 by done. rewrite N1, E1 by done. done.
Qed.

Lemma extends_same s s1 s2 :
  extends s s1 → (∀ id, is_Some (st s1 !! id) → is_Some (st s !! id)) → extends s1 s2 → extends s s2.
Proof.
  intros H1 Hd H2. eapply extends_trans; [done..|]. intros id Hn Hs%Hd. rewrite Hn in Hs. by destruct Hs.
Qed.

Lemma extends_emit s s' x : extends s s' → extends s (emit x s').
Proof. by intros []. Qed.

Lemma extends_absorb s e now : wf s → extends s (absorb s e now).
Proof.
  intros Hw. unfold absorb. assert (Hid : set_st (st s) s = s) by by destruct s.
  destruct (merge_outP (st s) e now) as [Hx|Hx Hn|prev Hx Hp Hlt|prev Hx Hp Hle]; rewrite ?Hid;
    try apply stored_extends_refl.
  - set (s1 := set_st (<[Id (Silence e) := upgraded e]> (st s)) s).
    assert (E : st (indexSilence s1 (Silence e)) = st s1 ∧
      ids (indexSilence s1 (Silence e)) = ids s ++ [Id (Silence e)] ∧
      ∀ id, mi (indexSilence s1 (Silence e)) !! id =
        if decide (id = Id (Silence e)) then compiled (MatcherSets (Silence e)) else mi s !! id).
    { assert (Hm : mi s !! Id (Silence e) = None).
      { apply eq_None_not_Some. intros [x Hx2]%(wf_mi_st s Hw). congruence. }
      unfold indexSilence, matcherIndex_add, compiled, ids.
      destruct (compile_sets (MatcherSets (Silence e))); cbn; rewrite fmap_app; split_and!; try done;
        intros id; destruct (decide _) as [->|Hne]; by rewrite ?lookup_insert_eq, ?lookup_insert_ne. }
    destruct E as (Est & Evi & Emi). split; intros id; rewrite ?Est, ?Evi, ?Emi; cbn.
    + intros Hs. apply lookup_insert_is_Some'. by right.
    + rewrite elem_of_app, list_elem_of_singleton, lookup_insert_is_Some'.
      split; [intros [?| ->]; auto|]. intros [?|[E [<-|[x Hs]]]]; [by left|by right|congruence].
    + intros [x Hs]. rewrite decide_False; [done|congruence].
    + intros Hs. destruct (decide _) as [->|Hne].
      * rewrite lookup_insert_eq. cbn. by rewrite upgrade_comments_MatcherSets.
      * by rewrite lookup_insert_ne, Hs.
  - split; intros id; cbn.
    + intros Hs. apply lookup_insert_is_Some'. by right.
    + unfold ids. cbn. rewrite lookup_insert_is_Some'. split; [by left|].
      intros [?|[E [<-|[x Hs]]]]; [done|congruence..].
    + done.
    + intros Hs. rewrite lookup_insert_ne, Hs by congruence. done.
Qed.

Lemma absorb_st_ne s e now id : id ≠ Id (Silence e) → st (absorb s e now) !! id = st s !! id.
Proof.
  intros Hne. unfold absorb. destruct (merge_outP (st s) e now); cbn; try done.
  - rewrite (proj1 (indexSilence_fields _ _)). cbn. by rewrite lookup_insert_ne.
  - by rewrite lookup_insert_ne.
Qed.

Lemma extends_setSilence s msil now : wf s → extends s (setSilence s msil now).1.
Proof.
  intros Hw. unfold setSilence. destruct (marshalMeshSilence msil) as [b|]; [|apply stored_extends_refl].
  pose proof (extends_absorb s msil now Hw) as H. unfold absorb in H.
  destruct (merge (st s) msil now) as [[st' changed] added].
  destruct changed; [by apply extends_emit|done].
Qed.

Lemma setSilence_stored s msil now k :
  is_Some (st s !! Id (Silence msil)) → is_Some (st (setSilence s msil now).1 !! k) → is_Some (st s !! k).
Proof.
  intros Hid. unfold setSilence. destruct (marshalMeshSilence msil); [|done].
  destruct (merge_outP (st s) msil now) as [?|? Hn|? ? ?|? ? ?]; cbn; try done.
  - rewrite Hn in Hid. by destruct Hid.
  - rewrite lookup_insert_is_Some'. by intros [<-|?].
Qed.

(** Expiring a silence adds none. *)
Lemma extends_expire s id now :
  wf s → extends s (expire s id now).1 ∧
  ∀ k, is_Some (st (expire s id now).1 !! k) → is_Some (st s !! k).
Proof.
  intros Hw. unfold expire. destruct (getSilence s id) as [sil|] eqn:Hg; [|split; [apply stored_extends_refl|done]].
  pose proof Hg as (m & Hm & ->)%fmap_Some. pose proof (wf_keys s Hw id m Hm) as Hid.
  destruct (getState (Silence m) now); [split; [apply stored_extends_refl|done]|..];
    (match goal with |- context [setSilence s ?M now] =>
      pose proof (extends_setSilence s M now Hw) as He;
      pose proof (λ k, setSilence_stored s M now k) as Hd; destruct (setSilence s M now) as [s1 r] end;
    cbn in *; rewrite Hid, Hm in Hd; eauto).
Qed.

Lemma extends_Set s sil now now1 now2 uid : wf s → extends s (Set_ s sil now now1 now2 uid).1.1.
Proof.
  intros Hw. assert (Hset : ∀ s1 m, wf s1 → extends s1 (setSilence s1 m now).1)
    by (intros; by apply extends_setSilence).
  assert (Hcreate : ∀ sil' prev, extends s (Set_create s sil' prev now now1 now2 uid).1.1).
  { intros sil' prev. unfold Set_create. destruct (too_many s); [apply stored_extends_refl|].
    destruct uid as [u|]; [|apply stored_extends_refl]. destruct (checkSizeLimits _ _); [apply stored_extends_refl|].
    assert (Hp : wf (expire_previous s prev now1 now2).1 ∧ extends s (expire_previous s prev now1 now2).1 ∧
      ∀ k, is_Some (st (expire_previous s prev now1 now2).1 !! k) → is_Some (st s !! k)).
    { split; [eapply micro_wf; [apply expire_previous_micro|done]|].
      unfold expire_previous. destruct prev; [|split; [apply stored_extends_refl|done]].
      case_match; [by apply extends_expire|split; [apply stored_extends_refl|done]]. }
    destruct (expire_previous s prev now1 now2) as [s1 [er|]]; cbn in Hp; destruct Hp as (Hw1 & He & Hd); [done|].
    match goal with |- context [setSilence s1 ?M now] => pose proof (Hset s1 M Hw1) as Hs end.
    destruct (setSilence s1 _ now) as [s2 [[ch ad]|er]]; cbn in *; [destruct ad; [apply extends_emit|]|];
      by eapply extends_same. }
  assert (Hupdate : ∀ sil', extends s (Set_update s sil' now).1.1).
  { intros sil'. unfold Set_update. destruct (checkSizeLimits _ _); [apply stored_extends_refl|].
    match goal with |- context [setSilence s ?M now] => pose proof (Hset s M Hw) as Hs end.
    destruct (setSilence s _ now) as [s2 [[ch ad]|er]]; cbn in *; [destruct ch; [by apply extends_emit|done]|done]. }
  unfold Set_. destruct (validateSilence _) as [sil' [r|]]; [apply stored_extends_refl|].
  repeat case_match; (apply stored_extends_refl || apply Hcreate || apply Hupdate).
Qed.

Lemma extends_merge_loop b now es : ∀ s,
  wf s → NoDup es.*1 → (∀ k e, (k, e) ∈ es → Id (Silence e) = k) →
  extends s (merge_loop s b now es) ∧ ∀ id, id ∉ es.*1 → st (merge_loop s b now es) !! id = st s !! id.
Proof.
  induction es as [|[k e] es IH]; intros s Hw Hnd Hk; [split; [apply stored_extends_refl|done]|].
  apply NoDup_cons in Hnd as [Hnin Hnd]. assert (He : Id (Silence e) = k) by (apply Hk; by left).
  assert (Hstep : ∃ s1, merge_loop s b now ((k, e) :: es) = merge_loop s1 b now es ∧ wf s1 ∧ extends s s1 ∧
    ∀ id, id ≠ k → st s1 !! id = st s !! id).
  { cbn [merge_loop]. pose proof (extends_absorb s e now Hw) as Hx. pose proof (wf_absorb s e now Hw) as Hw1.
    pose proof (λ id, absorb_st_ne s e now id) as Hne. rewrite He in Hne. unfold absorb in Hx, Hw1, Hne.
    destruct (merge_outP (st s) e now); cbn in *; try (eexists; split; [reflexivity|]; by split_and!);
      destruct (OversizedMessage b); (eexists; split; [reflexivity|]); split_and!; try done;
      by (apply wf_emit || apply extends_emit). }
  destruct Hstep as (s1 & -> & Hw1 & Hx & Hne).
  destruct (IH s1 Hw1 Hnd) as [Hx2 Hkeep]; [intros k' e' ?; apply Hk; by right|]. split.
  - eapply extends_trans; [done..|]. intros id Hn Hs. apply Hkeep. intros Hin.
    destruct (decide (id = k)) as [->|Hd]; [done|]. rewrite Hne, Hn in Hs by done. by destruct Hs.
  - intros id. cbn. rewrite not_elem_of_cons. intros [? ?]. by rewrite Hkeep, Hne.
Qed.

Lemma extends_Merge s b now : wf s → extends s (Merge s b now).1.
Proof.
  intros Hw. unfold Merge. destruct (decodeState b) as [st'|] eqn:Hd; [|apply stored_extends_refl]. cbn.
  apply extends_merge_loop; [done|apply NoDup_fst_range|]. intros k e Hin%elem_of_range.
  eapply decode_loop_keys; [|exact Hd|done]. by intros ???.
Qed.

(** The ghost of an operation: silences that stay keep the matchers they were
    added with, new ones bring theirs. *)
Definition first_sets (F : gmap string (list PbMatcherSet)) (s' : Silences) : gmap string (list PbMatcherSet) :=
  map_imap (λ id m, Some (default (MatcherSets (Silence m)) (F !! id))) (st s').
(** The ids of a store that was just loaded whose matchers do not compile. *)
Definition uncompiled (s : Silences) : gset string :=
  dom (filter (λ x, compiled (MatcherSets (Silence x.2)) = None) (st s)).

Lemma lookup_first_sets F s id :
  first_sets F s !! id = (λ m, default (MatcherSets (Silence m)) (F !! id)) <$> st s !! id.
Proof. unfold first_sets. rewrite map_lookup_imap. by destruct (st s !! id). Qed.

Lemma indexed_extends F bad s s' : extends s s' → indexed F bad s → indexed (first_sets F s') bad s'.
Proof.
  intros [A V O N] [Hd Hb Hv Hm]. split; intros id; rewrite ?lookup_first_sets.
  - by rewrite fmap_is_Some.
  - auto.
  - rewrite V, Hv. split.
    + intros [[? ?]|[Hn ?]]; [by auto|]. split; [done|]. intros [x ?]%Hb. congruence.
    + intros [? ?]. destruct (st s !! id) eqn:E; [left; split; [by eexists|done]|by right].
  - destruct (st s !! id) as [m|] eqn:E.
    + rewrite O by (rewrite E; done). rewrite Hm. destruct (A id) as [m' ->]; [by rewrite E|].
      destruct (Hd id) as [_ [x ->]]; [by rewrite E|done].
    + assert (Hf : F !! id = None) by (apply eq_None_not_Some; intros [y ?]%Hd; congruence).
      rewrite N, Hf by done. destruct (st s' !! id); [done|]. by rewrite Hm, Hf.
Qed.

Lemma GC_lookup s now : wf s →
  (∀ id, st (GC s now).1.1 !! id = if collected (st s) now (ids s) id then None else st s !! id) ∧
  (∀ id, mi (GC s now).1.1 !! id = if collected (st s) now (ids s) id then None else mi s !! id) ∧
  vi (GC s now).1.1 = List.filter (survives (st s) now) (vi s).
Proof.
  intros Hw. unfold GC.
  destruct (gc_loop_spec now (vi s) (st s) (mi s) [] 0 [] (wf_vi_nodup s Hw) (wf_keys s Hw)) as [errs ->].
  cbn. split_and!; [by intros; apply lookup_without..|done].
Qed.

Lemma indexed_GC F bad s now : wf s → indexed F bad s → indexed (first_sets F (GC s now).1.1) bad (GC s now).1.1.
Proof.
  intros Hw [Hd Hb Hv Hm]. destruct (GC_lookup s now Hw) as (Est & Emi & Evi).
  assert (Hcol : ∀ id, collected (st s) now (ids s) id = true → id ∉ bad).
  { unfold collected. intros id [Hin%bool_decide_eq_true _]%andb_true_iff. by apply Hv. }
  split; intros id; rewrite ?lookup_first_sets, ?Est, ?Emi.
  - by rewrite fmap_is_Some.
  - intros Hin. destruct (collected _ _ _ id) eqn:E; [by apply Hcol in E|auto].
  - unfold ids. rewrite Evi, list_elem_of_fmap. setoid_rewrite elem_of_survivors. split.
    + intros (sv & -> & Hsv & m & Hst & Hc). assert (Hin : sv_id sv ∈ ids s) by (apply list_elem_of_fmap; eauto).
      unfold collected. rewrite Hst, Hc, andb_false_r. split; [done|by apply Hv].
    + intros [Hs Hn]. destruct (collected _ _ _ id) eqn:E; [by destruct Hs|].
      assert (Hin : id ∈ ids s) by (by apply Hv). unfold collected in E. rewrite bool_decide_eq_true_2 in E by done.
      apply list_elem_of_fmap in Hin as (sv & -> & Hsv). destruct Hs as [m Hst]. rewrite Hst in E.
      exists sv. split_and!; [done..|]. by exists m.
  - destruct (collected _ _ _ id); [done|]. rewrite Hm. destruct (st s !! id) as [m|] eqn:E; cbn.
    + by destruct (proj2 (Hd id)) as [x ->]; [rewrite E|].
    + destruct (F !! id) eqn:Ef; [|done]. destruct (proj1 (Hd id)) as [x ?]; [by rewrite Ef|congruence].
Qed.

Lemma compiled_compiles e : compiles e = true ↔ is_Some (compiled (MatcherSets (Silence e))).
Proof. unfold compiles, compiled. destruct (compile_sets _); cbn; split; (done || by intros [] || by eexists). Qed.

Lemma indexed_load s r s' :
  loadSnapshot s r = (s', None) →
  indexed ((λ m, MatcherSets (Silence m)) <$> st s') (uncompiled s') s'.
Proof.
  unfold loadSnapshot. destruct (decodeState r) as [st'|] eqn:Hd; [|done].
  assert (Hk : ∀ id m, st' !! id = Some m → Id (Silence m) = id).
  { eapply decode_loop_keys; [|done]. by intros ???. }
  pose proof (load_index_vi (version s) (range st') ∅ []) as Hvi.
  destruct (load_index_mi (version s) (range st') ∅ []) as (Hmi & _ & Hmi2).
  destruct (load_index (version s) (range st') ∅ []) as [mi' vi']. intros [= <-]. cbn in *. subst vi'.
  assert (Hsets : ∀ id, (λ m, MatcherSets (Silence m)) <$> (upgraded <$> st') !! id =
    (λ m, MatcherSets (Silence m)) <$> st' !! id).
  { intros id. rewrite lookup_fmap. destruct (st' !! id); [|done]. cbn. by rewrite upgrade_comments_MatcherSets. }
  split; intros id; cbn; change (λ e, mkMeshSilence (upgrade_comments (Silence e)) (ExpiresAt e)) with upgraded.
  - by rewrite lookup_fmap, fmap_is_Some.
  - unfold uncompiled. cbn. intros [m [Hm _]%map_lookup_filter_Some]%elem_of_dom. by eexists.
  - unfold ids, uncompiled. cbn. rewrite <- list_fmap_compose, not_elem_of_dom, map_lookup_filter_None.
    rewrite list_elem_of_fmap. split.
    + intros ([k e] & -> & Hx). apply list_elem_of_In, filter_In in Hx as [Hx%list_elem_of_In%elem_of_range Hc].
      cbn in *. rewrite (Hk k e Hx). rewrite lookup_fmap, Hx. split; [by eexists|]. right. cbn.
      intros x [= <-]. cbn. rewrite upgrade_comments_MatcherSets. intros Hn.
      apply compiled_compiles in Hc. rewrite Hn in Hc. by destruct Hc.
    + rewrite lookup_fmap. intros [[x (e & He & _)%fmap_Some] Hn]. exists (id, e).
      split; [cbn; by rewrite (Hk id e He)|].
      apply list_elem_of_In, filter_In. split; [by apply list_elem_of_In, elem_of_range|]. cbn.
      destruct Hn as [Hn|Hn]; [by rewrite He in Hn|]. apply compiled_compiles.
      specialize (Hn (upgraded e) ltac:(by rewrite He)). cbn in Hn. rewrite upgrade_comments_MatcherSets in Hn.
      by apply not_eq_None_Some.
  - rewrite lookup_fmap, Hsets. destruct (st' !! id) as [e|] eqn:He; cbn.
    + destruct (mi' !! id) as [ms|] eqn:Hms.
      * destruct (Hmi id ms Hms) as [?|(k & e' & Hin%elem_of_range & <- & Hc)]; [done|].
        rewrite (Hk k e') in He by done. rewrite He in Hin. injection Hin as <-. unfold compiled. by rewrite Hc.
      * symmetry. apply eq_None_not_Some. intros Hc%compiled_compiles.
        destruct (Hmi2 id e) as [x Hx]; [by apply elem_of_range|done|]. rewrite (Hk id e He) in Hx. congruence.
    + apply eq_None_not_Some. intros [ms Hms].
      destruct (Hmi id ms Hms) as [?|(k & e' & Hin%elem_of_range & <- & Hc)]; [done|].
      rewrite (Hk k e') in He by done. congruence.
Qed.

(** ** Reachable states *)
Inductive step : relation Silences :=
| step_Set s sil now now1 now2 uid : step s (Set_ s sil now now1 now2 uid).1.1
| step_Expire s id now : step s (Expire s id now).1
| step_GC s now : step s (GC s now).1.1
| step_Merge s b now : step s (Merge s b now).1
| step_load s r : step s (loadSnapshot s r).1.

Lemma wf_New ret lim : wf (New_Silences ret lim).
Proof.
  constructor; cbn; [done|by intros sv ?%elem_of_nil|apply NoDup_nil_2|apply SSorted_nil|
    by intros sv ?%elem_of_nil|by intros id []].
Qed.

Lemma step_wf s s' : step s s' → wf s → wf s'.
Proof.
  intros Hstep Hwf. destruct Hstep; eauto using wf_GC, wf_loadSnapshot, micro_wf,
    Set_micro, expire_micro, Merge_micro.
Qed.

Lemma reachable_wf ret lim s : rtc step (New_Silences ret lim) s → wf s.
Proof.
  intros Hr. assert (Hw : wf (New_Silences ret lim)) by apply wf_New.
  revert Hw. induction Hr; eauto using step_wf.
Qed.

(** How a store came to be, with the ghosts [F] and [bad] of [indexed]. *)
Inductive history (ret : duration) (lim : Limits) :
    gmap string (list PbMatcherSet) → gset string → Silences → Prop :=
| h_New : history ret lim ∅ ∅ (New_Silences ret lim)
| h_Set F bad s sil now now1 now2 uid :
    history ret lim F bad s →
    let s' := (Set_ s sil now now1 now2 uid).1.1 in history ret lim (first_sets F s') bad s'
| h_Expire F bad s id now :
    history ret lim F bad s → let s' := (Expire s id now).1 in history ret lim (first_sets F s') bad s'
| h_GC F bad s now :
    history ret lim F bad s → let s' := (GC s now).1.1 in history ret lim (first_sets F s') bad s'
| h_Merge F bad s b now :
    history ret lim F bad s → let s' := (Merge s b now).1 in history ret lim (first_sets F s') bad s'
| h_load F bad s r s' :
    history ret lim F bad s → loadSnapshot s r = (s', None) →
    history ret lim ((λ m, MatcherSets (Silence m)) <$> st s') (uncompiled s') s'.

Lemma loadSnapshot_failed s r (e : error) : (loadSnapshot s r).2 = Some e → (loadSnapshot s r).1 = s.
Proof. unfold loadSnapshot. destruct (decodeState r); [|done]. by destruct (load_index _ _ _ _). Qed.

Lemma reachable_history ret lim s :
  rtc step (New_Silences ret lim) s → ∃ F bad, history ret lim F bad s.
Proof.
  intros Hr. assert (H : ∃ F bad, history ret lim F bad (New_Silences ret lim)) by (eexists _, _; constructor).
  revert H. induction Hr as [|s1 s2 s3 Hstep _ IH]; [done|]. intros (F & bad & H). apply IH.
  destruct Hstep as [s sil now now1 now2 uid|s id now|s now|s b now|s r].
  1-4: eexists _, _; by econstructor.
  pose proof (loadSnapshot_failed s r) as Hf. destruct (loadSnapshot s r) as [s' [e|]] eqn:E; cbn in *.
  - rewrite (Hf e) by done. eauto.
  - eexists _, _. by eapply h_load.
Qed.

Lemma history_indexed ret lim F bad s : history ret lim F bad s → wf s ∧ indexed F bad s.
Proof.
  induction 1 as [|F bad s sil now now1 now2 uid _ [Hw Hi] s'|F bad s id now _ [Hw Hi] s'
    |F bad s now _ [Hw Hi] s'|F bad s b now _ [Hw Hi] s'|F bad s r s' _ [Hw Hi] Hl].
  - split; [apply wf_New|]. split; intros id; cbn; rewrite ?elem_of_nil, ?lookup_empty; try done.
    by split; [|intros [[] _]].
  - split; [by apply (step_wf s); [constructor|]|]. by eapply indexed_extends, Hi; apply extends_Set.
  - split; [by apply (step_wf s); [constructor|]|]. eapply indexed_extends, Hi. by apply extends_expire.
  - split; [by apply wf_GC|]. by apply indexed_GC.
  - split; [by apply (step_wf s); [constructor|]|]. by eapply indexed_extends, Hi; apply extends_Merge.
  - split; [|by eapply indexed_load]. pose proof (wf_loadSnapshot s r Hw) as H. by rewrite Hl in H.
Qed.

(** C17: in every state the store can reach by any sequence of Set, Expire, GC,
    Merge and snapshot loads, the three maps agree.  A state entry is filed under
    its own id; the version index lists stored ids without repetition, sorted by
    version and never ahead of the store's version, and it lists all of them but
    those ([bad]) that the last snapshot load brought with matchers that do not
    compile; and the matcher index holds for a stored id exactly the compiled
    form of the matchers it was added with ([F]), if they compile, and nothing
    else. *)
Theorem silences_reachable_wf ret lim s :
  rtc step (New_Silences ret lim) s →
  wf s ∧ ∃ F bad, history ret lim F bad s ∧ indexed F bad s.
Proof.
  intros (F & bad & H)%reachable_history. destruct (history_indexed _ _ _ _ _ H) as [Hw Hi]. eauto.
Qed.
End inv.
End SilenceInv.
