(* ===== verification/SilenceOps.v ===== *)
(** * Silences: queries and garbage collection

    What the indexed query path returns, compared with the definition that
    looks at every silence; why the unchecked lookups are safe; and what one
    garbage collection removes. *)

From stdpp Require Import base gmap strings list sorting relations.
From S2P Require Import Prelude Utf8 Labels Lww Silence SilenceInv.

Import Silence SilenceInv.

Module SilenceQuery.
Section query.
Context `{RE : Regexp, LV : LabelValidation, SC : SilenceCodec, MR : MapRange}.
Implicit Types (s : Silences) (e m : MeshSilence) (id : string).

(** ** The version index *)
Lemma version_after_mono (vi0 : list silenceVersion) v a b :
  StronglySorted version_le vi0 → (a ≤ b)%nat →
  version_after vi0 v a = true → version_after vi0 v b = true.
Proof.
  intros Hs Hab. unfold version_after.
  destruct (vi0 !! b) as [y|] eqn:Hb; [|done].
  destruct (vi0 !! a) as [x|] eqn:Ha.
  - destruct (decide (a = b)) as [->|Hne]; [congruence|].
    assert (Hxy : version_le x y) by (eapply StronglySorted_lookup; eauto; lia).
    unfold version_le in Hxy. rewrite !Z.ltb_lt. lia.
  - apply lookup_lt_Some in Hb. apply lookup_ge_None in Ha. lia.
Qed.

(** The binary search finds the entries with a greater version. *)
Lemma findVersionGreaterThan_spec (vi0 : list silenceVersion) v :
  StronglySorted version_le vi0 →
  let '(start, found) := findVersionGreaterThan vi0 v in
  drop start vi0 = List.filter (λ sv, v <? sv_version sv) vi0 ∧
  (found = false → List.filter (λ sv, v <? sv_version sv) vi0 = []).
Proof.
  intros Hs. unfold findVersionGreaterThan, sort_Search.
  destruct (search_loop_spec (version_after vi0 v)
    (λ a b, version_after_mono vi0 v a b Hs) (length vi0) 0 (length vi0))
    as (Hr & Hlo & Hhi); [lia..|].
  set (r := search_loop _ _ _ _) in *.
  assert (E : List.filter (λ sv, v <? sv_version sv) vi0 = drop r vi0).
  { apply filter_eq_drop; intros k x Hx Hk.
    - specialize (Hlo k ltac:(lia)). unfold version_after in Hlo. by rewrite Hx in Hlo.
    - pose proof (lookup_lt_Some _ _ _ Hx).
      specialize (Hhi k ltac:(lia)). unfold version_after in Hhi. by rewrite Hx in Hhi. }
  split; [done|]. rewrite E, bool_decide_eq_false. intros Hge. apply drop_ge. lia.
Qed.

Lemma query_since_scan s since fs now :
  wf s →
  query_ s (mkQuery [] (Some since) fs) now =
    (query_scan s now fs (List.filter (λ sv, since <? sv_version sv) (vi s)), version s).
Proof.
  intros Hwf. unfold query_. cbn [q_ids q_since q_filters].
  pose proof (findVersionGreaterThan_spec (vi s) since (wf_vi_sorted s Hwf)) as H.
  destruct (findVersionGreaterThan (vi s) since) as [start []]; destruct H as [H Hn].
  - by rewrite H.
  - by rewrite Hn.
Qed.

(** in every reachable state a query with QSince scans exactly the
    silences whose version is greater than the given one, in index order: the
    binary search over the version index loses no silence and adds none. *)
Theorem query_since_exact ret lim s since fs now :
  rtc step (New_Silences ret lim) s →
  query_ s (mkQuery [] (Some since) fs) now =
    (query_scan s now fs (List.filter (λ sv, since <? sv_version sv) (vi s)), version s).
Proof. intros Hwf%reachable_wf. by apply query_since_scan. Qed.

(** ** Absence of nil dereferences *)
Lemma filters_match_no_panic s now fs sil : filters_match s now fs sil ≠ Err ErrPanic.
Proof.
  induction fs as [|f fs IH]; cbn; [done|].
  destruct f as [set|states]; cbn.
  - unfold matcherIndex_get. destruct (mi s !! Id sil); cbn; [|done]. by case_match.
  - by case_match.
Qed.

Lemma query_scan_no_panic s now fs svs :
  (∀ sv, sv ∈ svs → is_Some (st s !! sv_id sv)) → query_scan s now fs svs ≠ Err ErrPanic.
Proof.
  induction svs as [|sv svs IH]; cbn; [done|]. intros H.
  destruct (H sv) as [m Hm]; [by left|]. rewrite Hm.
  intros [Hp|(b & _ & [Hp|(res & _ & ?)]%result_bind_Err)]%result_bind_Err; [|revert Hp|done].
  - by apply filters_match_no_panic in Hp.
  - apply IH. intros sv' Hsv'. apply H. by right.
Qed.

Lemma query_ids_no_panic s now fs ids : query_ids s now fs ids ≠ Err ErrPanic.
Proof.
  induction ids as [|id ids IH]; cbn; [done|].
  destruct (st s !! id) as [m|]; [|done].
  intros [Hp|(b & _ & [Hp|(res & _ & ?)]%result_bind_Err)]%result_bind_Err; [|done|done].
  by apply filters_match_no_panic in Hp.
Qed.

Lemma query_no_panic s q now : wf s → (query_ s q now).1 ≠ Err ErrPanic.
Proof.
  intros Hwf. pose proof (wf_vi_st s Hwf) as Hst. unfold query_. cbn [fst].
  destruct (q_ids q) as [|id ids]; [|apply query_ids_no_panic].
  destruct (q_since q) as [v|]; [|by apply query_scan_no_panic].
  destruct (findVersionGreaterThan (vi s) v) as [n []]; [|done].
  apply query_scan_no_panic. intros sv Hsv. apply Hst.
  apply (subseteq_drop n (vi s)), Hsv.
Qed.

Lemma apply_params_no_panic ps : ∀ q, apply_params q ps ≠ Err ErrPanic.
Proof.
  induction ps as [|p ps IH]; intros q; cbn; [done|].
  intros [Hp|(q' & _ & Hp)]%result_bind_Err; [|by apply IH in Hp].
  destruct p; cbn in Hp; repeat case_match; done.
Qed.

Lemma count_loop_total s states now svs : ∀ n,
  (∀ sv, sv ∈ svs → is_Some (st s !! sv_id sv)) → is_Some (count_loop s states now svs n).
Proof.
  induction svs as [|sv svs IH]; intros n H; cbn; [eauto|].
  destruct (H sv) as [m ->]; [by left|]. cbn. apply IH.
  intros sv' Hsv'. apply H. by right.
Qed.

(** no query and no state count ever dereferences a missing silence: in
    every reachable state Query does not panic, whatever its parameters, and
    CountState returns. *)
Theorem query_never_panics ret lim s params states now :
  rtc step (New_Silences ret lim) s →
  (Query s params now).1 ≠ Err ErrPanic ∧ is_Some (CountState s states now).
Proof.
  intros Hwf%reachable_wf. split.
  - unfold Query. destruct (apply_params _ params) as [q|e] eqn:E.
    + by apply query_no_panic.
    + cbn. intros [= ->]. by apply apply_params_no_panic in E.
  - apply count_loop_total. apply (wf_vi_st s Hwf).
Qed.

(** ** Garbage collection *)
Lemma survives_collected s now sv :
  wf s → sv ∈ vi s →
  survives (st s) now sv = negb (collected (st s) now (sv_id <$> vi s) (sv_id sv)).
Proof.
  intros Hwf Hsv. unfold survives, collected.
  destruct (wf_vi_st s Hwf sv Hsv) as [m ->].
  rewrite bool_decide_eq_true_2; [done|]. apply list_elem_of_fmap. eauto.
Qed.

Lemma length_filter_fmap {A B} (f : A → B) (p : B → bool) l :
  length (List.filter p (f <$> l)) = length (List.filter (p ∘ f) l).
Proof. induction l as [|x l IH]; cbn; [done|]. destruct (p (f x)); cbn; by rewrite IH. Qed.

(** one garbage collection at instant [now] removes from the state and
    from the matcher index exactly the indexed silences whose expiry instant is
    missing, zero or not after [now]; every other entry is untouched, the
    version index keeps the remaining silences in their order, and the returned
    count is the number of removed index entries. *)
Theorem gc_removes_exactly_expired s now :
  wf s →
  let '(s', n, _) := GC s now in
  (∀ id, st s' !! id =
     if collected (st s) now (sv_id <$> vi s) id then None else st s !! id) ∧
  (∀ id, mi s' !! id =
     if collected (st s) now (sv_id <$> vi s) id then None else mi s !! id) ∧
  vi s' = List.filter (survives (st s) now) (vi s) ∧
  n = Z.of_nat (length (vi s)) - Z.of_nat (length (vi s')) ∧
  version s' = version s.
Proof.
  intros Hwf. unfold GC.
  destruct (gc_loop_spec now (vi s) (st s) (mi s) [] 0 [] (wf_vi_nodup s Hwf) (wf_keys s Hwf))
    as [errs ->].
  cbn. split_and!; [by apply lookup_without..|done| |done].
  rewrite length_filter_fmap, (List.filter_ext_in (survives (st s) now)
    (λ sv, negb ((collected (st s) now (sv_id <$> vi s) ∘ sv_id) sv))).
  - pose proof (List.filter_length (collected (st s) now (sv_id <$> vi s) ∘ sv_id) (vi s)). lia.
  - intros sv Hsv%list_elem_of_In. by apply survives_collected.
Qed.
End query.
End SilenceQuery.

(** * Silences: the operations

    Convergence of gossiped state, what an update may change about the past,
    what [Set] and [Expire] leave behind, the limit on the number of silences,
    and the snapshot round trip. *)
Import Silence SilenceInv.

Module SilenceOps.

#[global] Instance silence_lww : Lww MeshSilence := {
  lww_key e := Id (Silence e);
  lww_stamp e := AsTime (UpdatedAt (Silence e));
}.

(** What the code relies on from protodelim: a written message that is not too
    large is read back, whatever follows it, it takes at least one byte, and the
    end of the input is reported as such. *)
Class SilenceCodecLaws `{SC : SilenceCodec} : Prop := {
  unmarshal_marshal : ∀ m b rest,
    MarshalTo m = Some b → readable_size b →
    UnmarshalFrom (b ++ rest) = Unmarshalled (mkWireSilence (Some (Silence m)) (ExpiresAt m)) rest;
  marshal_nonempty : ∀ m b, MarshalTo m = Some b → b ≠ [];
  unmarshal_nil : UnmarshalFrom [] = UnmarshalEOF;
}.

Section ops.
Context `{RE : Regexp, LV : LabelValidation, SC : SilenceCodec, MR : MapRange}.
Implicit Types (s : Silences) (e m : MeshSilence) (id : string).

(** ** Convergence *)
Definition live (now : time) (e : MeshSilence) : bool := negb (Before (AsTime (ExpiresAt e)) now).

Lemma merge_is_lww (st0 : gmap string MeshSilence) e now :
  (merge st0 e now).1.1 = if live now e then lww_merge st0 (upgraded e) else st0.
Proof.
  unfold live, lww_merge, lww_wins. cbn. rewrite upgrade_comments_Id, upgrade_comments_UpdatedAt.
  destruct (merge_outP st0 e now) as [Hx|Hx Hn|prev Hx Hp Hlt|prev Hx Hp Hle]; cbn.
  - destruct (Before_spec (AsTime (ExpiresAt e)) now); [done|lia].
  - destruct (Before_spec (AsTime (ExpiresAt e)) now); [lia|]. by rewrite Hn.
  - destruct (Before_spec (AsTime (ExpiresAt e)) now); [lia|]. rewrite Hp.
    destruct (Before_spec (AsTime (UpdatedAt (Silence prev))) (AsTime (UpdatedAt (Silence e))));
      [done|lia].
  - destruct (Before_spec (AsTime (ExpiresAt e)) now); [lia|]. rewrite Hp.
    destruct (Before_spec (AsTime (UpdatedAt (Silence prev))) (AsTime (UpdatedAt (Silence e))));
      [lia|done].
Qed.

(** The entries a message brings into a store at [now]. *)
Definition entries (now : time) (b : list Z) : list MeshSilence :=
  match decodeState b with
  | Ok st' => upgraded <$> List.filter (live now) ((range st').*2)
  | Err _ => []
  end.

Lemma merge_loop_st b now es : ∀ s,
  st (merge_loop s b now es) =
    foldl lww_merge (st s) (upgraded <$> List.filter (live now) (es.*2)).
Proof.
  induction es as [|[k e] es IH]; intros s; cbn; [done|].
  pose proof (merge_is_lww (st s) e now) as Hm.
  destruct (merge (st s) e now) as [[st' merged] added]. cbn in Hm. rewrite IH.
  match goal with |- context [foldl _ (st ?S) _] => assert (Hst : st S = st') end.
  { destruct merged, added; try destruct (OversizedMessage b); cbn; try done;
      apply (indexSilence_fields (set_st st' s)). }
  rewrite Hst, Hm. by destruct (live now e).
Qed.

Lemma Merge_st s b now : st (Merge s b now).1 = foldl lww_merge (st s) (entries now b).
Proof.
  unfold Merge, entries. destruct (decodeState b); [|done]. apply merge_loop_st.
Qed.

(** A peer that receives messages one after the other, each at its own time. *)
Definition merge_run (s : Silences) (rs : list (time * list Z)) : Silences :=
  foldl (λ s r, (Merge s r.2 r.1).1) s rs.

Lemma merge_run_st rs : ∀ s,
  st (merge_run s rs) = foldl lww_merge (st s) (rs ≫= λ r, entries r.1 r.2).
Proof.
  induction rs as [|r rs IH]; intros s; [done|].
  change (merge_run s (r :: rs)) with (merge_run (Merge s r.2 r.1).1 rs).
  rewrite IH, Merge_st. cbn. by rewrite foldl_app.
Qed.

(** The versions of a silence in a list of messages, as they are stored. *)
Definition sent (bs : list (list Z)) (id : string) (e : MeshSilence) : Prop :=
  ∃ b st' e0, b ∈ bs ∧ decodeState b = Ok st' ∧ st' !! id = Some e0 ∧ e = upgraded e0.
(** The versions a peer that starts from [s] gets to know. *)
Definition known (s : Silences) (bs : list (list Z)) (id : string) (e : MeshSilence) : Prop :=
  st s !! id = Some e ∨ sent bs id e.
(** No version of the silence is past its retention when it is merged. *)
Definition in_time (rs : list (time * list Z)) (id : string) : Prop :=
  ∀ t b st' e, (t, b) ∈ rs → decodeState b = Ok st' → st' !! id = Some e → t ≤ AsTime (ExpiresAt e).

Lemma elem_of_entries now b e :
  e ∈ entries now b ↔ ∃ st' e0, decodeState b = Ok st' ∧ st' !! lww_key e = Some e0 ∧
    now ≤ AsTime (ExpiresAt e0) ∧ e = upgraded e0.
Proof.
  unfold entries. destruct (decodeState b) as [st'|] eqn:Hd; [|rewrite elem_of_nil; naive_solver].
  assert (Hk : ∀ id m, st' !! id = Some m → Id (Silence m) = id).
  { eapply decode_loop_keys; [|exact Hd]. by intros ???. }
  assert (Hl : ∀ e0, live now e0 = true ↔ now ≤ AsTime (ExpiresAt e0)).
  { intros e0. unfold live. destruct (Before_spec (AsTime (ExpiresAt e0)) now); cbn; split; (done || lia). }
  rewrite list_elem_of_fmap. setoid_rewrite list_elem_of_In. setoid_rewrite filter_In. split.
  - intros (e0 & -> & [Hin Hlv%Hl]). apply list_elem_of_In, list_elem_of_fmap in Hin as ([k x] & -> & Hx%elem_of_range).
    exists st', x. split_and!; [done| |done|done]. cbn. rewrite upgrade_comments_Id. by rewrite (Hk k x Hx).
  - intros (st1 & e0 & [= <-] & He & Hlv & ->). exists e0. split; [done|]. split; [|by apply Hl].
    apply list_elem_of_In, list_elem_of_fmap. eexists (_, e0). split; [done|]. by apply elem_of_range.
Qed.

Lemma known_candidate s rs id e :
  in_time rs id → candidate (st s) (rs ≫= λ r, entries r.1 r.2) id e ↔ known s rs.*2 id e.
Proof.
  intros Ht. unfold candidate, known, sent. apply or_iff_compat_l. rewrite list_elem_of_bind. split.
  - intros [([t b] & (st' & e0 & Hd & He & _ & ->)%elem_of_entries & Hin) Hk]. rewrite Hk in He.
    exists b, st', e0. split_and!; [|done..]. apply list_elem_of_fmap. by exists (t, b).
  - intros (b & st' & e0 & ([t b'] & -> & Hin)%list_elem_of_fmap & Hd & He & ->). cbn [snd] in Hd.
    assert (Hid : Id (Silence e0) = id).
    { eapply decode_loop_keys; [|exact Hd|exact He]. by intros ???. }
    split; [|cbn; by rewrite upgrade_comments_Id]. exists (t, b'). split; [|done]. apply elem_of_entries.
    exists st', e0. cbn. rewrite upgrade_comments_Id, Hid. split_and!; [done..| |done]. by eapply Ht.
Qed.

(** C5: gossip converges on every silence: two peers that start with the same
    version of a silence, or none, and merge the same messages, in any order,
    with any repetitions and each at its own times, end with the same version of
    it, and that is one of those they were sent or started with and none of these
    is newer, provided that no version of it in the messages was past its
    retention when it was merged and that two different ones carry different
    update times. *)
Theorem silences_gossip_converges s1 s2 rs1 rs2 id :
  st s1 !! id = st s2 !! id → (∀ b, b ∈ rs1.*2 ↔ b ∈ rs2.*2) →
  in_time rs1 id → in_time rs2 id →
  (∀ e1 e2, known s1 rs1.*2 id e1 → known s1 rs1.*2 id e2 → lww_stamp e1 = lww_stamp e2 → e1 = e2) →
  st (merge_run s1 rs1) !! id = st (merge_run s2 rs2) !! id ∧
  match st (merge_run s1 rs1) !! id with
  | Some e => known s1 rs1.*2 id e ∧ ∀ e', known s1 rs1.*2 id e' → lww_stamp e' ≤ lww_stamp e
  | None => ∀ e, ¬ known s1 rs1.*2 id e
  end.
Proof.
  intros Hst Hsame Ht1 Ht2 Htf. rewrite !merge_run_st.
  assert (Hc1 := λ e, known_candidate s1 rs1 id e Ht1). assert (Hc2 := λ e, known_candidate s2 rs2 id e Ht2).
  split.
  - apply lww_fold_agree; [|intros e1 e2; rewrite !Hc1; apply Htf]. intros e. rewrite Hc1, Hc2.
    unfold known, sent. rewrite Hst. by setoid_rewrite Hsame.
  - pose proof (lww_fold_lookup (rs1 ≫= λ r, entries r.1 r.2) (st s1) id) as H.
    destruct (foldl lww_merge _ _ !! id) as [e|]; setoid_rewrite Hc1 in H; done.
Qed.

(** ** The past *)

(** when canUpdate lets a silence be changed in place, the change does not
    rewrite history: the matchers are the same, and at every earlier instant the
    silence was in the same state (pending, active or expired) under the old and
    under the new dates, except possibly within the second in which it starts,
    since start times are compared in whole seconds. *)
Theorem canUpdate_keeps_history a b now ts :
  canUpdate a b now = true → ts < now → Unix ts ≠ Unix (AsTime (StartsAt a)) →
  MatcherSets a = MatcherSets b ∧ getState a ts = getState b ts.
Proof.
  unfold canUpdate, getState, Unix, Before, After. intros H Hts Hsec.
  destruct (bool_decide_reflect (MatcherSets a = MatcherSets b)) as [Hm|]; [|done].
  split; [done|]. cbn in H.
  set (sa := AsTime (StartsAt a)) in *. set (ea := AsTime (EndsAt a)) in *.
  set (sb := AsTime (StartsAt b)) in *. set (eb := AsTime (EndsAt b)) in *.
  unfold second in *.
  destruct (Z.ltb_spec now sa), (Z.ltb_spec ea now); cbn in H; go_cases; try done;
    Z.to_euclidean_division_equations; lia.
Qed.

(** ** Set and Expire *)
Lemma setSilence_cases s msil now s' r :
  setSilence s msil now = (s', r) →
  match r with
  | Ok (changed, added) =>
      merge (st s) msil now = ((merge (st s) msil now).1.1, changed, added) ∧
      st s' = (merge (st s) msil now).1.1 ∧
      limits s' = limits s ∧ retention s' = retention s ∧
      (if added then version s' = version s + 1 ∧
         vi s' = vi s ++ [mkSilenceVersion (Id (Silence msil)) (version s + 1)]
       else version s' = version s ∧ vi s' = vi s)
  | Err _ => s' = s
  end.
Proof.
  unfold setSilence. destruct (marshalMeshSilence msil) as [b|]; [|by intros [= <- <-]].
  destruct (merge (st s) msil now) as [[st' changed] added]. intros [= <- <-]. cbn.
  destruct (indexSilence_fields (set_st st' s) (Silence msil)) as (E1 & E2 & E3 & _).
  destruct added, changed; cbn; rewrite ?E1, ?E2, ?E3; split_and!; try done;
    unfold indexSilence; by case_match; [case_match|].
Qed.

Lemma setSilence_limits s msil now : limits (setSilence s msil now).1 = limits s.
Proof.
  destruct (setSilence s msil now) as [s' r] eqn:E. apply setSilence_cases in E.
  destruct r as [[changed added]|]; [|by subst]. cbn. naive_solver.
Qed.

Lemma merge_lookup_ne (st0 : gmap string MeshSilence) e now id :
  id ≠ Id (Silence e) → (merge st0 e now).1.1 !! id = st0 !! id.
Proof.
  intros Hne. destruct (merge_outP st0 e now); cbn; [done| |by rewrite lookup_insert_ne|done].
  by rewrite lookup_insert_ne.
Qed.

Lemma merge_lookup_newer (st0 : gmap string MeshSilence) e now :
  now ≤ AsTime (ExpiresAt e) →
  (∀ prev, st0 !! Id (Silence e) = Some prev →
     AsTime (UpdatedAt (Silence prev)) < AsTime (UpdatedAt (Silence e))) →
  (merge st0 e now).1.1 = <[Id (Silence e) := upgraded e]> st0.
Proof.
  intros Hx Hnew. destruct (merge_outP st0 e now) as [?|?|?|prev ? Hp ?]; cbn; [lia|done|done|].
  apply Hnew in Hp. lia.
Qed.

(** A silence that ends at [now] or earlier is over at every later instant. *)
Lemma ended_is_expired sil now ts :
  AsTime (StartsAt sil) ≤ ts → AsTime (EndsAt sil) ≤ now → now < ts →
  getState sil ts = SilenceStateExpired.
Proof. unfold getState, Before, After. intros. go_cases; (done || lia). Qed.

Lemma upgrade_comments_getState sil ts : getState (upgrade_comments sil) ts = getState sil ts.
Proof. unfold upgrade_comments, getState. by destruct (Comments sil). Qed.

(** Ending silence [sil] now: what both branches of [expire] write. *)
Lemma expire_write s sil now s' r :
  0 ≤ retention s → EndsAt sil = Some now → AsTime (StartsAt sil) ≤ now →
  UpdatedAt sil = Some now →
  (∀ prev, st s !! Id sil = Some prev → AsTime (UpdatedAt (Silence prev)) < now) →
  setSilence s (toMeshSilence s sil) now = (s', Ok r) →
  (∃ m, st s' !! Id sil = Some m ∧ MatcherSets (Silence m) = MatcherSets sil ∧
     ∀ ts, now < ts → getState (Silence m) ts = SilenceStateExpired) ∧
  ∀ id, id ≠ Id sil → st s' !! id = st s !! id.
Proof.
  intros Hret He Hs Hu Hprev Hset. apply setSilence_cases in Hset.
  destruct r as [changed added]. destruct Hset as (_ & -> & _). split.
  - rewrite merge_lookup_newer; cbn; [|rewrite He; cbn; lia|by rewrite Hu].
    rewrite lookup_insert_eq. eexists; split; [done|]. cbn.
    rewrite upgrade_comments_MatcherSets. split; [done|]. intros ts Hts.
    rewrite upgrade_comments_getState. apply (ended_is_expired _ now); rewrite ?He; cbn; lia.
  - intros id Hne. by apply merge_lookup_ne.
Qed.

Lemma expire_spec s id now s' m :
  wf s → 0 ≤ retention s → st s !! id = Some m → AsTime (UpdatedAt (Silence m)) < now →
  expire s id now = (s', None) →
  (∃ m', st s' !! id = Some m' ∧ MatcherSets (Silence m') = MatcherSets (Silence m) ∧
     ∀ ts, now < ts → getState (Silence m') ts = SilenceStateExpired) ∧
  ∀ id', id' ≠ id → st s' !! id' = st s !! id'.
Proof.
  intros Hwf Hret Hm Hup. unfold expire, getSilence. rewrite Hm. cbn.
  pose proof (wf_keys s Hwf id m Hm) as Hid.
  destruct (getState (Silence m) now) eqn:Hst.
  - intros [= <-]. split; [|done]. exists m. split_and!; [done..|]. intros ts Hts.
    unfold getState, Before, After in *. go_cases; (done || lia).
  - destruct (setSilence _ _ _) as [s1 [r|]] eqn:Hset; intros [= <-].
    apply expire_write in Hset; cbn in *; rewrite ?Hid in *; try done.
    + unfold getState, Before, After in Hst. go_cases; (done || lia).
    + intros prev Hp. congruence.
  - destruct (setSilence _ _ _) as [s1 [r|]] eqn:Hset; intros [= <-].
    apply expire_write in Hset; cbn in *; rewrite ?Hid in *; try done.
    intros prev Hp. congruence.
Qed.

(** expiring a silence succeeds only with the intended effect: from then on
    the silence is stored with the same matchers and is in the expired state at
    every later instant, and no other silence changes (clock ahead of the last
    update, retention not negative). *)
Theorem expire_takes_effect s id now s' m :
  wf s → 0 ≤ retention s → st s !! id = Some m → AsTime (UpdatedAt (Silence m)) < now →
  Expire s id now = (s', None) →
  (∃ m', st s' !! id = Some m' ∧ MatcherSets (Silence m') = MatcherSets (Silence m) ∧
     ∀ ts, now < ts → getState (Silence m') ts = SilenceStateExpired) ∧
  ∀ id', id' ≠ id → st s' !! id' = st s !! id'.
Proof. apply expire_spec. Qed.

(** ** Replacing a silence *)
Lemma postprocess_fields sil :
  StartsAt (postprocessUnmarshalledSilence sil) = StartsAt sil ∧
  EndsAt (postprocessUnmarshalledSilence sil) = EndsAt sil.
Proof. unfold postprocessUnmarshalledSilence. by repeat case_match. Qed.

(** The silence [Set] works on once its input is accepted. *)
Definition accepted (sil : PbSilence) (now : time) : PbSilence :=
  postprocessUnmarshalledSilence
    (if nil_or_zero (StartsAt sil) then set_StartsAt (timestamppb_New now) sil else sil).

Lemma accepted_fields sil now :
  Id (accepted sil now) = Id sil ∧ EndsAt (accepted sil now) = EndsAt sil.
Proof.
  unfold accepted. rewrite postprocess_Id. destruct (postprocess_fields
    (if nil_or_zero (StartsAt sil) then set_StartsAt (timestamppb_New now) sil else sil)) as [_ ->].
  by case_match.
Qed.

Lemma stamp_new_fields sil uid now :
  Id (stamp_new sil uid now) = uid ∧ now ≤ AsTime (StartsAt (stamp_new sil uid now)) ∧
  EndsAt (stamp_new sil uid now) = EndsAt sil ∧ UpdatedAt (stamp_new sil uid now) = Some now ∧
  MatcherSets (stamp_new sil uid now) = MatcherSets sil.
Proof.
  unfold stamp_new. cbn [set_Id StartsAt].
  destruct (Before_spec (AsTime (StartsAt sil)) now); cbn -[AsTime]; split_and!; try done;
    cbn in *; lia.
Qed.

Lemma after_merge_fields msil now :
  Id (after_merge msil now) = Id (Silence msil) ∧
  StartsAt (after_merge msil now) = StartsAt (Silence msil) ∧
  EndsAt (after_merge msil now) = EndsAt (Silence msil) ∧
  UpdatedAt (after_merge msil now) = UpdatedAt (Silence msil).
Proof.
  unfold after_merge, upgrade_comments.
  destruct (Before _ _); [done|]. by destruct (Comments (Silence msil)).
Qed.

(** A successful [Set] is an in-place update or the creation of a silence. *)
Lemma Set_success s sil now now1 now2 uid s' sil' :
  Set_ s sil now now1 now2 uid = (s', sil', None) →
  let prev := getSilence s (Id sil) in
  (Id sil ≠ ""%string → is_Some prev) ∧
  ((∃ p, prev = Some p ∧ canUpdate p (accepted sil now) now = true ∧
     Set_update s (accepted sil now) now = (s', sil', None)) ∨
   Set_create s (accepted sil now) prev now now1 now2 uid = (s', sil', None)).
Proof.
  unfold Set_. destruct (accepted_fields sil now) as [Hid _].
  destruct (validateSilence _) as [sil1 invalid] eqn:Hv.
  assert (sil1 = accepted sil now) as -> by by injection Hv.
  destruct invalid; [done|]. rewrite Hid. intros Hset.
  destruct (bool_decide (Id sil ≠ ""%string) && _) eqn:Hnf; [done|].
  destruct (getSilence s (Id sil)) as [p|]; split; try done; eauto.
  - destruct (canUpdate p (accepted sil now) now) eqn:Hc; [left|right]; eauto.
  - rewrite (bool_decide_eq_true_2 (None = None)), andb_true_r in Hnf by done.
    by apply bool_decide_eq_false in Hnf.
Qed.

Lemma Set_update_Id s sil now s' sil' :
  Set_update s sil now = (s', sil', None) → Id sil' = Id sil.
Proof.
  unfold Set_update. destruct (checkSizeLimits _ _); [done|].
  destruct (setSilence _ _ _) as [s1 [[]|]]; [|done]. intros [= _ <-].
  by destruct (after_merge_fields (toMeshSilence s (set_UpdatedAt (timestamppb_New now) sil)) now)
    as (-> & _).
Qed.

Lemma Set_create_success s sil prev now now1 now2 uid s' sil' :
  Set_create s sil prev now now1 now2 (Some uid) = (s', sil', None) →
  let msil := toMeshSilence s (stamp_new sil uid now) in
  ∃ s1 r s2, too_many s = false ∧ expire_previous s prev now1 now2 = (s1, None) ∧
    setSilence s1 msil now = (s2, Ok r) ∧ sil' = after_merge msil now ∧
    s' = if (r.2 : bool) then emit (Recorded (SilenceCreated sil')) s2 else s2.
Proof.
  unfold Set_create. destruct (too_many s) eqn:Ht; [done|].
  destruct (checkSizeLimits _ _); [done|].
  destruct (expire_previous s prev now1 now2) as [s1 [e|]] eqn:Hep; [done|].
  destruct (setSilence s1 _ now) as [s2 [[changed added]|]] eqn:Hss; [|done].
  intros [= <- <-]. eexists s1, (changed, added), s2. split_and!; done.
Qed.

Lemma expire_previous_spec s id m now1 now2 s' :
  wf s → 0 ≤ retention s → st s !! id = Some m → AsTime (UpdatedAt (Silence m)) < now2 →
  now1 ≤ now2 → expire_previous s (Some (Silence m)) now1 now2 = (s', None) →
  (∃ m', st s' !! id = Some m' ∧ MatcherSets (Silence m') = MatcherSets (Silence m) ∧
     ∀ ts, now2 < ts → getState (Silence m') ts = SilenceStateExpired) ∧
  ∀ id', id' ≠ id → st s' !! id' = st s !! id'.
Proof.
  intros Hwf Hret Hm Hup Hnow. cbn. rewrite (wf_keys s Hwf id m Hm).
  case_match eqn:Hs; [by apply expire_spec|]. intros [= <-].
  split; [|done]. exists m. split_and!; [done..|]. intros ts Hts.
  apply bool_decide_eq_false, dec_stable in Hs.
  unfold getState, Before, After in *. go_cases; (done || lia).
Qed.

(** a change that cannot be made in place leaves a trace of the past: when
    Set answers with a new id, the previous silence is still stored with its
    matchers and is expired at every later instant, the new silence does not
    start before now, and all other silences are untouched. *)
Theorem set_replacement_keeps_previous s sil m now now1 now2 uid s' sil' :
  wf s → 0 ≤ retention s → st s !! Id sil = Some m →
  AsTime (UpdatedAt (Silence m)) < now2 → now1 ≤ now2 → uid ≠ Id sil →
  Set_ s sil now now1 now2 (Some uid) = (s', sil', None) → Id sil' = uid →
  (∃ m', st s' !! Id sil = Some m' ∧ MatcherSets (Silence m') = MatcherSets (Silence m) ∧
     ∀ ts, now2 < ts → getState (Silence m') ts = SilenceStateExpired) ∧
  now ≤ AsTime (StartsAt sil') ∧
  ∀ id, id ≠ Id sil → id ≠ uid → st s' !! id = st s !! id.
Proof.
  intros Hwf Hret Hm Hup Hnow Hne Hset Hid. apply Set_success in Hset as [_ Hset].
  unfold getSilence in Hset. rewrite Hm in Hset. cbn in Hset.
  destruct Hset as [(p & [= <-] & _ & Hu)|Hc].
  { apply Set_update_Id in Hu. destruct (accepted_fields sil now). congruence. }
  apply Set_create_success in Hc as (s1 & r & s2 & _ & Hep & Hss & Hsil' & Hs').
  assert (Hst : st s' = st s2) by (subst s'; by case_match).
  eapply expire_previous_spec in Hep as [(m' & Hm' & Hms & Hex) Hoth]; [|done..].
  apply setSilence_cases in Hss. destruct r as [changed added].
  destruct Hss as (_ & Hst2 & _). rewrite Hst, Hst2.
  destruct (stamp_new_fields (accepted sil now) uid now) as (Huid & Hstart & _).
  split_and!.
  - exists m'. rewrite merge_lookup_ne; [done|].
    cbn [Silence toMeshSilence]. by rewrite Huid.
  - rewrite Hsil'. by destruct (after_merge_fields
      (toMeshSilence s (stamp_new (accepted sil now) uid now)) now) as (_ & -> & _).
  - intros id H1 H2. rewrite merge_lookup_ne; [by apply Hoth|].
    cbn [Silence toMeshSilence]. by rewrite Huid.
Qed.

(** a new silence is stored as it is returned: after a successful Set with
    no previous silence the state is the old one plus the returned silence under
    the generated id, with its expiry instant; it starts no earlier than now and
    is the newest entry of the version index (expiry not already passed, id not
    in use). *)
Theorem set_stores_new_silence s sil now now1 now2 uid s' sil' :
  getSilence s (Id sil) = None → st s !! uid = None →
  now ≤ AsTime (EndsAt sil) + retention s →
  Set_ s sil now now1 now2 (Some uid) = (s', sil', None) →
  Id sil' = uid ∧ now ≤ AsTime (StartsAt sil') ∧ EndsAt sil' = EndsAt sil ∧
  UpdatedAt sil' = Some now ∧
  st s' = <[uid := mkMeshSilence sil' (Some (AsTime (EndsAt sil) + retention s))]> (st s) ∧
  version s' = version s + 1 ∧
  vi s' = vi s ++ [mkSilenceVersion uid (version s + 1)].
Proof.
  intros Hprev Huid Hexp Hset. apply Set_success in Hset as [_ Hset]. rewrite Hprev in Hset.
  destruct Hset as [(p & ? & _)|Hc]; [done|].
  apply Set_create_success in Hc as (s1 & r & s2 & _ & Hep & Hss & Hsil' & Hs').
  injection Hep as <-. apply setSilence_cases in Hss. destruct r as [changed added].
  destruct (stamp_new_fields (accepted sil now) uid now) as (Hid & Hstart & Hend & Hup & _).
  destruct (accepted_fields sil now) as [_ Hend']. rewrite Hend' in Hend.
  set (sil1 := stamp_new (accepted sil now) uid now) in *. clearbody sil1.
  destruct (after_merge_fields (toMeshSilence s sil1) now) as (F1 & F2 & F3 & F4).
  rewrite <- Hsil' in F1, F2, F3, F4. cbn [Silence toMeshSilence] in *.
  destruct Hss as (Hm & Hst & _ & _ & Hidx).
  assert (Hup' : upgraded (toMeshSilence s sil1) =
    mkMeshSilence sil' (Some (AsTime (EndsAt sil) + retention s))).
  { unfold upgraded, toMeshSilence in *. cbn. rewrite Hsil', Hend. f_equal.
    unfold after_merge. cbn [ExpiresAt Silence].
    destruct (Before_spec (AsTime (timestamppb_New (AsTime (EndsAt sil) + retention s))) now);
      [cbn in *; lia|done]. }
  destruct (merge_outP (st s) (toMeshSilence s sil1) now) as [Hx|Hx Hn|? Hx Hp|? Hx Hp]; cbn in *;
    try (rewrite ?Hid, ?Hend in *; congruence || lia).
  rewrite Hid, Hup' in *. injection Hm as <- <-. subst s'. cbn in *.
  destruct Hidx as [-> ->]. rewrite F1, F2, F3, F4. split_and!; congruence || done.
Qed.

(** ** The limit on the number of silences *)
Lemma merge_size (st0 : gmap string MeshSilence) e now :
  (size (merge st0 e now).1.1 ≤ size st0 + 1)%nat ∧
  (is_Some (st0 !! Id (Silence e)) → size (merge st0 e now).1.1 = size st0).
Proof.
  destruct (merge_outP st0 e now) as [|? Hn|? ? Hp|]; cbn; try (split; [lia|done]).
  - rewrite map_size_insert_None by done. rewrite Hn. split; [lia|by intros []].
  - rewrite map_size_insert_Some by eauto. split; [lia|done].
Qed.

Lemma setSilence_size s msil now :
  (size (st (setSilence s msil now).1) ≤ size (st s) + 1)%nat ∧
  (is_Some (st s !! Id (Silence msil)) → size (st (setSilence s msil now).1) = size (st s)).
Proof.
  destruct (setSilence s msil now) as [s' r] eqn:E. apply setSilence_cases in E.
  destruct r as [[changed added]|]; [|subst; cbn; split; [lia|done]].
  destruct E as (_ & E & _). cbn. rewrite E. apply merge_size.
Qed.

Lemma expire_size s id now : wf s → size (st (expire s id now).1) = size (st s).
Proof.
  intros Hwf. unfold expire, getSilence. destruct (st s !! id) as [m|] eqn:Hm; [|done]. cbn.
  pose proof (wf_keys s Hwf id m Hm) as Hid.
  assert (H : ∀ sil', Id sil' = id → size (st (setSilence s (toMeshSilence s sil') now).1) = size (st s)).
  { intros sil' Hsil'. apply setSilence_size. cbn. rewrite Hsil', Hm. eauto. }
  destruct (getState (Silence m) now); [done|..];
    (destruct (setSilence s _ now) as [s' r] eqn:E; cbn;
     change s' with (s', r).1; rewrite <- E; by apply H).
Qed.

Lemma Set_update_size s sil now :
  is_Some (st s !! Id sil) → size (st (Set_update s sil now).1.1) = size (st s).
Proof.
  intros Hp. unfold Set_update. destruct (checkSizeLimits _ _); [done|].
  destruct (setSilence s _ now) as [s' r] eqn:E. apply (f_equal fst) in E. cbn in E.
  assert (H : size (st s') = size (st s)) by (subst s'; by apply setSilence_size).
  by destruct r as [[[] ?]|].
Qed.

Lemma Set_create_size s sil prev now now1 now2 uid :
  wf s →
  st (Set_create s sil prev now now1 now2 uid).1.1 = st s ∨
  too_many s = false ∧
  (size (st (Set_create s sil prev now now1 now2 uid).1.1) ≤ size (st s) + 1)%nat.
Proof.
  intros Hwf. unfold Set_create. destruct (too_many s); [by left|].
  destruct uid as [uid|]; [|by left]. destruct (checkSizeLimits _ _); [by left|]. right.
  split; [done|].
  assert (H1 : size (st (expire_previous s prev now1 now2).1) = size (st s)).
  { unfold expire_previous. destruct prev; [|done]. case_match; [by apply expire_size|done]. }
  destruct (expire_previous s prev now1 now2) as [s1 [e|]]; cbn in *; [lia|].
  destruct (setSilence s1 _ now) as [s2 r] eqn:E. apply (f_equal fst) in E. cbn in E.
  assert (H2 : (size (st s2) ≤ size (st s1) + 1)%nat) by (subst s2; apply setSilence_size).
  destruct r as [[? []]|]; cbn in *; lia.
Qed.

(** Set never takes the store over its configured maximum: with a positive
    limit, a store that respects it before a call of Set respects it after the
    call, whatever the outcome. *)
Theorem set_respects_limit s sil now now1 now2 uid lim :
  wf s → MaxSilences (limits s) = Some lim → 0 < lim → Z.of_nat (size (st s)) ≤ lim →
  Z.of_nat (size (st (Set_ s sil now now1 now2 uid).1.1)) ≤ lim.
Proof.
  intros Hwf Hlim Hpos Hle. unfold Set_.
  destruct (validateSilence _) as [sil1 [r|]] eqn:Hv; [done|].
  destruct (bool_decide (Id sil1 ≠ ""%string) && _); [done|].
  assert (Hcreate : ∀ prev, Z.of_nat
    (size (st (Set_create s sil1 prev now now1 now2 uid).1.1)) ≤ lim).
  { intros prev. destruct (Set_create_size s sil1 prev now now1 now2 uid Hwf) as [->|[Ht Hs]]; [done|].
    unfold too_many in Ht. rewrite Hlim in Ht. go_cases; [lia|].
    destruct (Z.ltb_spec 0 lim); [|lia]. cbn in Ht. to_props. lia. }
  unfold getSilence. destruct (st s !! Id sil1) as [m|] eqn:Hm; cbn; [|apply Hcreate].
  destruct (canUpdate _ _ _); [|apply Hcreate]. rewrite Set_update_size; [done|]. eauto.
Qed.
End ops.
End SilenceOps.

(** * Snapshots of silences

    Whatever the store has been through, the silences it holds are in the
    current format, so that what [MarshalBinary] writes is read back as it is. *)
Module SilenceSnapshot.
Import Silence SilenceInv SilenceOps.

Section snapshot.
Context `{RE : Regexp, LV : LabelValidation, SC : SilenceCodec, MR : MapRange}.
Implicit Types (s : Silences) (e m : MeshSilence) (id : string).

(** ** The format of stored silences *)

(** Matchers are kept in the matcher sets only, the comment in its field. *)
Definition normal (m : MeshSilence) : Prop :=
  Matchers (Silence m) = [] ∧ Comments (Silence m) = [].
Definition all_normal (st0 : gmap string MeshSilence) : Prop := map_Forall (λ _, normal) st0.

Lemma upgrade_comments_Matchers sil : Matchers (upgrade_comments sil) = Matchers sil.
Proof. unfold upgrade_comments. by case_match. Qed.

Lemma upgraded_normal m : Matchers (Silence m) = [] → normal (upgraded m).
Proof.
  intros H. split; cbn; [by rewrite upgrade_comments_Matchers|].
  unfold upgrade_comments. by destruct (Comments (Silence m)) eqn:Hc.
Qed.

Lemma normal_upgraded m : normal m → upgraded m = m.
Proof. destruct m as [sil x]. unfold upgraded, upgrade_comments. intros [_ H]. cbn in *. by rewrite H. Qed.

Lemma merge_normal st0 e now :
  Matchers (Silence e) = [] → all_normal st0 → all_normal (merge st0 e now).1.1.
Proof.
  intros He Hst. rewrite merge_is_lww. case_match; [|done]. unfold lww_merge.
  case_match; [|done]. apply map_Forall_insert_2; [by apply upgraded_normal|done].
Qed.

Lemma setSilence_normal s msil now :
  Matchers (Silence msil) = [] → all_normal (st s) → all_normal (st (setSilence s msil now).1).
Proof.
  intros Hm Hs. unfold setSilence. destruct (marshalMeshSilence msil) as [b|]; [|done].
  pose proof (merge_normal (st s) msil now Hm Hs) as H.
  destruct (merge (st s) msil now) as [[st' changed] added]. cbn in *.
  destruct added, changed; cbn; try done; by rewrite (proj1 (indexSilence_fields _ _)).
Qed.

Lemma getSilence_normal s id sil :
  all_normal (st s) → getSilence s id = Some sil → Matchers sil = [].
Proof.
  unfold getSilence. intros Hs H. destruct (st s !! id) as [m|] eqn:Hm; [|done].
  cbn in H. simplify_eq. by apply (Hs id m).
Qed.

Lemma expire_normal s id now : all_normal (st s) → all_normal (st (expire s id now).1).
Proof.
  intros Hs. unfold expire. destruct (getSilence s id) as [sil|] eqn:Hg; [|done].
  pose proof (getSilence_normal s id sil Hs Hg) as Hm.
  destruct (getState sil now); [done|..];
    match goal with |- context [setSilence s ?m now] =>
      pose proof (setSilence_normal s m now Hm Hs) as H; by destruct (setSilence s m now) end.
Qed.

Lemma validateSilence_Matchers sil : Matchers (validateSilence sil).1 = [].
Proof. unfold validateSilence, postprocessUnmarshalledSilence. by repeat case_match. Qed.

Lemma Set_update_normal s sil now :
  Matchers sil = [] → all_normal (st s) → all_normal (st (Set_update s sil now).1.1).
Proof.
  intros Hm Hs. unfold Set_update. destruct (checkSizeLimits s _); [done|].
  pose proof (setSilence_normal s (toMeshSilence s (set_UpdatedAt (timestamppb_New now) sil)) now Hm Hs) as H.
  destruct (setSilence _ _ _) as [s' [[changed added]|]]; [|done]. by destruct changed.
Qed.

Lemma expire_previous_normal s prev now1 now2 :
  all_normal (st s) → all_normal (st (expire_previous s prev now1 now2).1).
Proof. unfold expire_previous. destruct prev; [|done]. case_match; [apply expire_normal|done]. Qed.

Lemma Set_create_normal s sil prev now now1 now2 uid :
  Matchers sil = [] → all_normal (st s) →
  all_normal (st (Set_create s sil prev now now1 now2 uid).1.1).
Proof.
  intros Hm Hs. unfold Set_create. destruct (too_many s); [done|]. destruct uid as [uid|]; [|done].
  destruct (checkSizeLimits _ _); [done|].
  pose proof (expire_previous_normal s prev now1 now2 Hs) as Hp.
  destruct (expire_previous s prev now1 now2) as [s1 [|]]; [done|]. cbn in Hp.
  assert (Hm' : Matchers (stamp_new sil uid now) = []) by (unfold stamp_new; by case_match).
  pose proof (setSilence_normal s1 (toMeshSilence s (stamp_new sil uid now)) now Hm' Hp) as H.
  destruct (setSilence _ _ _) as [s' [[changed added]|]]; [|done]. by destruct added.
Qed.

Lemma Set_normal s sil now now1 now2 uid :
  all_normal (st s) → all_normal (st (Set_ s sil now now1 now2 uid).1.1).
Proof.
  intros Hs. unfold Set_. set (sil0 := if nil_or_zero (StartsAt sil) then _ else sil).
  pose proof (validateSilence_Matchers sil0) as Hm. destruct (validateSilence sil0) as [sil' [|]]; [done|].
  cbn in Hm. repeat case_match; auto using Set_update_normal, Set_create_normal.
Qed.

Lemma decode_loop_Matchers fuel : ∀ st0 r st',
  map_Forall (λ _ m, Matchers (Silence m) = []) st0 → decode_loop fuel st0 r = Ok st' →
  map_Forall (λ _ m, Matchers (Silence m) = []) st'.
Proof.
  induction fuel as [|fuel IH]; intros st0 r st' H0; cbn; [done|].
  destruct (UnmarshalFrom r) as [m rest| |]; [|by intros [= <-]|done].
  destruct (w_Silence m) as [sil|]; [|done]. apply IH, map_Forall_insert_2; [|done].
  unfold postprocessUnmarshalledSilence. cbn. by repeat case_match.
Qed.

Lemma Merge_normal s b now : all_normal (st s) → all_normal (st (Merge s b now).1).
Proof.
  intros Hs. rewrite Merge_st. unfold entries. destruct (decodeState b) as [st'|] eqn:Hd; [|done].
  assert (Hm : ∀ e, e ∈ (range st').*2 → Matchers (Silence e) = []).
  { intros e ([k e'] & -> & Hin%elem_of_range)%list_elem_of_fmap.
    eapply decode_loop_Matchers in Hd; [by eapply Hd|]. apply map_Forall_empty. }
  clear Hd. revert Hs Hm. generalize (st s) as st0. induction (range st').*2 as [|e es IH];
    intros st0 Hs Hm; [done|]. cbn. assert (Hes : ∀ e, e ∈ es → Matchers (Silence e) = []).
  { intros e' He'. apply Hm. by right. }
  destruct (live now e); [|by apply IH]. cbn. apply IH; [|done].
  unfold lww_merge. case_match; [|done]. apply map_Forall_insert_2; [|done].
  apply upgraded_normal, Hm. by left.
Qed.

Lemma loadSnapshot_normal s r : all_normal (st s) → all_normal (st (loadSnapshot s r).1).
Proof.
  intros Hs. unfold loadSnapshot. destruct (decodeState r) as [st'|] eqn:Hd; [|done].
  destruct (load_index _ _ _ _) as [mi' vi']. cbn. intros id m (m' & <- & Hm')%lookup_fmap_Some.
  apply (upgraded_normal m'). eapply decode_loop_Matchers in Hd; [by eapply Hd|]. apply map_Forall_empty.
Qed.

Lemma reachable_normal ret lim s : rtc step (New_Silences ret lim) s → all_normal (st s).
Proof.
  intros Hr. assert (H : wf (New_Silences ret lim) ∧ all_normal (st (New_Silences ret lim))).
  { split; [apply wf_New|apply map_Forall_empty]. }
  apply proj2 with (A := wf s). revert H.
  induction Hr as [|s1 s2 s3 Hstep _ IH]; [done|]. intros [Hw Hn]. apply IH.
  split; [by eapply step_wf|]. destruct Hstep; auto using Set_normal, expire_normal, Merge_normal, loadSnapshot_normal.
  destruct Hw as [Hk _ Hnd _ _ _]. unfold GC.
  destruct (gc_loop_spec now (vi s) (st s) (mi s) [] 0 [] Hnd Hk) as [errs ->]. cbn.
  intros id m. rewrite lookup_without. case_match; [done|]. apply Hn.
Qed.

(** ** Reading a snapshot back *)
Lemma post_prepare sil :
  Matchers sil = [] → postprocessUnmarshalledSilence (prepareSilenceForMarshalling sil) = sil.
Proof.
  destruct sil as [? ms ? ? ? ? ? ? ? sets ?]. cbn. intros ->.
  unfold prepareSilenceForMarshalling, postprocessUnmarshalledSilence; cbn.
  by destruct sets as [|s0 sets].
Qed.

(** No silence of the store is too large to be read back. *)
Definition readable (e : MeshSilence) : Prop := ∀ b, marshalMeshSilence e = Ok b → readable_size b.
Definition all_readable (s : Silences) : Prop := map_Forall (λ _, readable) (st s).

(** Reading what was written for a list of entries replays their insertion. *)
Lemma decode_marshal_all `{!SilenceCodecLaws} es : ∀ fuel st0 b,
  Forall (λ x, normal x.2 ∧ readable x.2) es → marshal_all es = Ok b → (length b < fuel)%nat →
  decode_loop fuel st0 b = Ok (foldl (λ st e, <[Id (Silence e) := e]> st) st0 es.*2).
Proof.
  induction es as [|[k e] es IH]; intros fuel st0 b Hn; cbn.
  - intros [= <-] Hf. destruct fuel as [|fuel]; [cbn in *; lia|]. cbn.
    by rewrite unmarshal_nil.
  - apply Forall_cons_1 in Hn as [[[Hne _] Hsz] Hn].
    intros (b1 & Hb1 & (b2 & Hb2 & [= <-])%result_bind_Ok)%result_bind_Ok Hf.
    apply Hsz in Hb1 as Hsize. unfold marshalMeshSilence in Hb1. case_match eqn:Hm; simplify_eq.
    destruct fuel as [|fuel]; [lia|]. cbn [decode_loop foldl fmap list_fmap].
    rewrite (unmarshal_marshal _ _ _ Hm Hsize). cbn [w_Silence w_ExpiresAt snd Silence ExpiresAt].
    rewrite post_prepare by done. destruct e as [sil exp]. cbn [Silence ExpiresAt] in *.
    apply IH; [done..|]. apply marshal_nonempty in Hm.
    rewrite length_app in Hf. destruct b1; [done|]. cbn in Hf. lia.
Qed.

Lemma decode_snapshot `{!SilenceCodecLaws} ret lim s b :
  rtc step (New_Silences ret lim) s → all_readable s → Snapshot s = Ok b → decodeState b = Ok (st s).
Proof.
  intros Hr Hsz Hb. pose proof (reachable_wf _ _ _ Hr) as Hwf. pose proof (reachable_normal _ _ _ Hr) as Hn.
  unfold decodeState. rewrite (decode_marshal_all (range (st s))); [|..|lia].
  - f_equal. apply (foldl_insert_rebuild (λ m, Id (Silence m))), Hwf.
  - apply Forall_forall. intros [k e] Hin%elem_of_range. split; [by eapply Hn|by eapply Hsz].
  - done.
Qed.

(** a snapshot restores the store: loading what Snapshot wrote in any reachable
    state none of whose silences is larger than protodelim reads, into any store,
    gives exactly the silences of that state, although the format duplicates the
    first matcher set for older readers and whatever order the map was iterated
    in; and the indices are those of its silences: every silence whose matchers
    compile is in the matcher index with its own matchers and in the version
    index, and no other is in either. *)
Theorem silences_snapshot_roundtrip `{!SilenceCodecLaws} ret lim s s0 b :
  rtc step (New_Silences ret lim) s → all_readable s → Snapshot s = Ok b →
  ∃ s', loadSnapshot s0 b = (s', None) ∧ st s' = st s ∧
    indexed ((λ m, MatcherSets (Silence m)) <$> st s') (uncompiled s') s'.
Proof.
  intros Hr Hsz Hb. pose proof (reachable_normal _ _ _ Hr) as Hn.
  destruct (loadSnapshot s0 b) as [s' err] eqn:Hl. pose proof Hl as Hl'.
  unfold loadSnapshot in Hl. rewrite (decode_snapshot _ _ _ _ Hr Hsz Hb) in Hl.
  destruct (load_index _ _ _ _) as [mi' vi']. injection Hl as <- <-. eexists. split; [done|].
  split; [|by eapply indexed_load]. apply map_eq. intros id. cbn. rewrite lookup_fmap.
  destruct (st s !! id) as [m|] eqn:Hm; [|done]. cbn. f_equal. exact (normal_upgraded m (Hn id m Hm)).
Qed.
End snapshot.
End SilenceSnapshot.
