(* ===== verification/Alert.v ===== *)
(** * Alerts and their markers (alert/, marker/)

    The internal alert with its merge and validation, the ordering of alert
    slices, and the two markers in which one aggregation group records why its
    alerts are suppressed and why the group is muted. *)

From Stdlib Require Import Ascii String.
From stdpp Require Import base gmap strings list.
From S2P Require Import Prelude Utf8 Labels Silence.

(** What the code uses of prometheus/common's [model.Alert] and
    [model.LabelSet]: an alert is resolved at an instant when it has an end
    time that is not in the future; label sets have some order. *)
Class PromModel := {
  ResolvedAt : time → time → bool;
  ResolvedAt_spec : ∀ endsAt now, ResolvedAt endsAt now = true ↔ endsAt ≠ 0 ∧ endsAt ≤ now;
  LabelSet_Before : LabelSet → LabelSet → bool;
}.

Module Alert.

Record Alert := mkAlert {
  Labels : LabelSet;
  Annotations : LabelSet;
  StartsAt : time;
  EndsAt : time;
  GeneratorURL : string;
  UpdatedAt : time;
  Timeout : bool;
}.

#[global] Instance Alert_eq_dec : EqDecision Alert.
Proof. solve_decision. Defined.

Definition set_StartsAt t a :=
  mkAlert (Labels a) (Annotations a) t (EndsAt a) (GeneratorURL a) (UpdatedAt a) (Timeout a).
Definition set_EndsAt t a :=
  mkAlert (Labels a) (Annotations a) (StartsAt a) t (GeneratorURL a) (UpdatedAt a) (Timeout a).
Definition set_UpdatedAt t a :=
  mkAlert (Labels a) (Annotations a) (StartsAt a) (EndsAt a) (GeneratorURL a) t (Timeout a).
Definition set_Timeout b a :=
  mkAlert (Labels a) (Annotations a) (StartsAt a) (EndsAt a) (GeneratorURL a) (UpdatedAt a) b.

Inductive AlertState := AlertStateUnprocessed | AlertStateActive | AlertStateSuppressed.

#[global] Instance AlertState_eq_dec : EqDecision AlertState.
Proof. solve_decision. Defined.

Definition priority (st : AlertState) : Z :=
  match st with
  | AlertStateSuppressed => 2
  | AlertStateActive => 1
  | AlertStateUnprocessed => 0
  end.

Definition AlertState_Compare (s other : AlertState) : Z :=
  let a := priority s in
  let b := priority other in
  if a <? b then -1 else if b <? a then 1 else 0.

Inductive validate_error :=
| StartMissing | EndBeforeStart | NoLabels | BadLabels | BadAnnotations.

Record AlertStatus := mkAlertStatus {
  State : AlertState;
  SilencedBy : list string;
  InhibitedBy : list string;
}.

Section alert.
Context `{PM : PromModel, LV : LabelValidation, MR : MapRange}.

Definition Resolved (a : Alert) (now : time) : bool := ResolvedAt (EndsAt a) now.

(** The body of [Merge] once [o] is the younger alert; [now_o] and [now_a]
    are the instants at which the two alerts are tested. *)
Definition merge_younger (a o : Alert) (now_o now_a : time) : Alert :=
  let res := if Before (StartsAt a) (StartsAt o) then set_StartsAt (StartsAt a) o else o in
  if Resolved o now_o then
    if Resolved a now_a && After (EndsAt a) (EndsAt o) then set_EndsAt (EndsAt a) res else res
  else
    if After (EndsAt a) (EndsAt o) && negb (Timeout a) then set_EndsAt (EndsAt a) res else res.

(** [Merge] swaps the alerts at most once. *)
Definition Merge (a o : Alert) (now_o now_a : time) : Alert :=
  if Before (UpdatedAt o) (UpdatedAt a) then merge_younger o a now_o now_a
  else merge_younger a o now_o now_a.

Definition validateLs (ls : LabelSet) : bool :=
  forallb (λ x, IsValidLabelName x.1 && IsValidLabelValue x.2) (range ls).

Definition Validate (a : Alert) : option validate_error :=
  if IsZero (StartsAt a) then Some StartMissing
  else if negb (IsZero (EndsAt a)) && Before (EndsAt a) (StartsAt a) then Some EndBeforeStart
  else if bool_decide (Labels a = ∅) then Some NoLabels
  else if negb (validateLs (Labels a)) then Some BadLabels
  else if negb (validateLs (Annotations a)) then Some BadAnnotations
  else None.

(** [AlertSlice.Less]: the override keys decide first. *)
Fixpoint less_override (keys : list string) (x y : Alert) : bool :=
  match keys with
  | [] => LabelSet_Before (Labels x) (Labels y)
  | k :: keys =>
      match Labels x !! k, Labels y !! k with
      | None, None => less_override keys x y
      | None, Some _ => false
      | Some _, None => true
      | Some u, Some v => if bool_decide (u = v) then less_override keys x y else String.ltb u v
      end
  end.

Definition AlertSlice_Less (x y : Alert) : bool :=
  less_override ["job"; "instance"]%string x y.

(** [Alerts]: end times that are not reached are not exposed; each alert is
    tested at its own instant. *)
Definition Alerts (alerts : list (Alert * time)) : list Alert :=
  (λ x, if Resolved x.1 x.2 then x.1 else set_EndsAt 0 x.1) <$> alerts.

Lemma Resolved_true a now : Resolved a now = true ↔ EndsAt a ≠ 0 ∧ EndsAt a ≤ now.
Proof. apply ResolvedAt_spec. Qed.

Lemma Resolved_mono a now now' : now ≤ now' → Resolved a now = true → Resolved a now' = true.
Proof. rewrite !Resolved_true. lia. Qed.

Lemma merge_younger_fields a o t1 t2 :
  let r := merge_younger a o t1 t2 in
  Labels r = Labels o ∧ Annotations r = Annotations o ∧ GeneratorURL r = GeneratorURL o ∧
  UpdatedAt r = UpdatedAt o ∧ Timeout r = Timeout o ∧
  StartsAt r = Z.min (StartsAt a) (StartsAt o).
Proof.
  unfold merge_younger.
  destruct (Before_spec (StartsAt a) (StartsAt o)); repeat case_match; cbn; split_and!; done || lia.
Qed.

Lemma merge_younger_EndsAt a o t :
  EndsAt (merge_younger a o t t) =
    if Resolved o t then (if Resolved a t then Z.max (EndsAt a) (EndsAt o) else EndsAt o)
    else (if Timeout a then EndsAt o else Z.max (EndsAt a) (EndsAt o)).
Proof.
  unfold merge_younger. destruct (Before_spec (StartsAt a) (StartsAt o)),
    (After_spec (EndsAt a) (EndsAt o)), (Resolved o t), (Resolved a t), (Timeout a); cbn; lia.
Qed.

(** merging two versions of an alert at one instant is a commutative join
    (for different update times): the younger one gives labels, annotations and
    its update time, the start is the earliest of the two, and the alert is
    resolved afterwards exactly when the younger one is resolved and the older
    one does not extend it: a firing younger version is never resolved by an
    older one, except by an explicit end time that is later than its own. *)
Theorem alert_merge_join a o t :
  UpdatedAt a < UpdatedAt o →
  let r := Merge a o t t in
  r = Merge o a t t ∧
  Labels r = Labels o ∧ Annotations r = Annotations o ∧ UpdatedAt r = UpdatedAt o ∧
  StartsAt r = Z.min (StartsAt a) (StartsAt o) ∧
  (Resolved o t = true → Resolved r t = true) ∧
  (Resolved o t = false → EndsAt o ≠ 0 → Resolved r t = false).
Proof.
  intros Hlt. cbn zeta. unfold Merge, Before.
  rewrite (proj2 (Z.ltb_lt _ _) Hlt), (proj2 (Z.ltb_ge _ _)) by lia.
  destruct (merge_younger_fields a o t t) as (H1 & H2 & H3 & H4 & H5 & H6).
  split_and!; [done..| |].
  - intros Ho. unfold Resolved. rewrite merge_younger_EndsAt, Ho.
    apply Resolved_true in Ho as Ho'. destruct (Resolved a t) eqn:Ha; [|done].
    apply Resolved_true in Ha. apply ResolvedAt_spec. lia.
  - intros Ho Hz. unfold Resolved. rewrite merge_younger_EndsAt, Ho.
    assert (Hgt : t < EndsAt o).
    { destruct (decide (EndsAt o ≤ t)); [|lia]. rewrite (proj2 (Resolved_true o t)) in Ho; done. }
    apply not_true_iff_false. rewrite ResolvedAt_spec. case_match; lia.
Qed.
End alert.
End Alert.

(** ** marker/ *)
Module Marker.
Import Alert.

Record alertStatus := mkStatus {
  s_InhibitedBy : list string;
  s_SilencedBy : list string;
}.

Abbreviation alertMarker := (gmap Z alertStatus).
Definition NewAlertMarker : alertMarker := ∅.

Definition state (s : alertStatus) : AlertState :=
  match s_InhibitedBy s, s_SilencedBy s with
  | [], [] => AlertStateActive
  | _, _ => AlertStateSuppressed
  end.

Definition find_status (m : alertMarker) (fp : Z) : alertStatus := default (mkStatus [] []) (m !! fp).

Definition SetSilenced (m : alertMarker) (fp : Z) (silencedBy : list string) : alertMarker :=
  <[fp := mkStatus (s_InhibitedBy (find_status m fp)) silencedBy]> m.

Definition SetInhibited (m : alertMarker) (fp : Z) (inhibitedBy : list string) : alertMarker :=
  <[fp := mkStatus inhibitedBy (s_SilencedBy (find_status m fp))]> m.

Definition Status (m : alertMarker) (fp : Z) : AlertStatus :=
  match m !! fp with
  | None => mkAlertStatus AlertStateUnprocessed [] []
  | Some s => mkAlertStatus (state s) (s_SilencedBy s) (s_InhibitedBy s)
  end.

Definition Delete (m : alertMarker) (alerts : list Z) : alertMarker :=
  foldl (λ m fp, delete fp m) m alerts.

(** GroupMarker *)
Abbreviation groupMarker := (gmap (string * string) (list string)).

Definition Muted (m : groupMarker) (routeID groupKey : string) : list string * bool :=
  match m !! (routeID, groupKey) with
  | None => ([], false)
  | Some mutedBy => (mutedBy, bool_decide (mutedBy ≠ []))
  end.

Definition SetMuted (m : groupMarker) (routeID groupKey : string) (names : list string)
    : groupMarker := <[(routeID, groupKey) := names]> m.

Definition DeleteByGroupKey (m : groupMarker) (routeID groupKey : string) : groupMarker :=
  delete (routeID, groupKey) m.

(** an alert is reported as suppressed exactly when the last inhibition
    mark or the last silence mark for it is not empty, whichever was set last:
    the two marks do not overwrite each other. *)
Theorem marker_status_suppressed m fp sil inh :
  State (Status (SetInhibited (SetSilenced m fp sil) fp inh) fp) = AlertStateSuppressed ↔
    sil ≠ [] ∨ inh ≠ [].
Proof.
  unfold Status, SetInhibited, SetSilenced, find_status.
  rewrite !lookup_insert_eq. cbn. destruct inh, sil; cbn; naive_solver.
Qed.
End Marker.
