(* ===== verification/Nflog.v ===== *)
(** * The notification log (nflog/nflog.go, nflog/nflogpb/set.go)

    Per receiver and group, the log keeps the last notification that was sent:
    which alerts were firing and which were resolved in it, and when.  Entries
    are gossiped and merged like silences: the latest timestamp wins. *)

From Stdlib Require Import Ascii String.
From stdpp Require Import base gmap strings list pretty relations.
From S2P Require Import Prelude Utf8 Labels Lww Silence.

Module Nflog.

(** ** Data (nflogpb) *)
Record Receiver := mkReceiver {
  GroupName : string;
  Integration : string;
  Idx : N;
}.

#[global] Instance Receiver_eq_dec : EqDecision Receiver.
Proof. solve_decision. Defined.

(** A double is represented by its bits. *)
Inductive ReceiverDataValue :=
| StrVal (v : string)
| IntVal (v : Z)
| DoubleVal (bits : Z).

#[global] Instance ReceiverDataValue_eq_dec : EqDecision ReceiverDataValue.
Proof. solve_decision. Defined.

(** The deprecated fields [group_hash] and [resolved] are never read. *)
Record Entry := mkEntry {
  GroupKey : string;
  Recv : Receiver;
  Timestamp : timestamp;
  FiringAlerts : list Z;
  ResolvedAlerts : list Z;
  ReceiverData : gmap string ReceiverDataValue;
}.

#[global] Instance Entry_eq_dec : EqDecision Entry.
Proof. solve_decision. Defined.

Record MeshEntry := mkMeshEntry {
  Ent : Entry;
  ExpiresAt : timestamp;
}.

#[global] Instance MeshEntry_eq_dec : EqDecision MeshEntry.
Proof. solve_decision. Defined.

(** The wire form: the entry may be missing, and its receiver too. *)
Record WireEntry := mkWireEntry {
  we_entry : option (option Receiver * Entry);
  we_ExpiresAt : timestamp;
}.

(** [IsFiringSubset], [IsResolvedSubset]: the subset is a Go map used as a set. *)
Definition isSubset (set subset : gset Z) : bool :=
  forallb (λ k, bool_decide (k ∈ set)) (elements subset).
Definition IsFiringSubset (m : Entry) (subset : gset Z) : bool :=
  isSubset (list_to_set (FiringAlerts m)) subset.
Definition IsResolvedSubset (m : Entry) (subset : gset Z) : bool :=
  isSubset (list_to_set (ResolvedAlerts m)) subset.

Lemma isSubset_spec set subset : isSubset set subset = true ↔ subset ⊆ set.
Proof.
  unfold isSubset. rewrite forallb_forall. split.
  - intros H x Hx. apply elem_of_elements, list_elem_of_In, H in Hx. by apply bool_decide_eq_true in Hx.
  - intros H x Hx%list_elem_of_In%elem_of_elements. apply bool_decide_eq_true. by apply H.
Qed.

(** ** Store *)
Abbreviation Store := (gmap string ReceiverDataValue).

Definition NewStore (entry : option Entry) : Store :=
  match entry with Some e => ReceiverData e | None => ∅ end.
Definition GetInt (s : Store) (key : string) : Z * bool :=
  match s !! key with Some (IntVal v) => (v, true) | _ => (0, false) end.
Definition GetFloat (s : Store) (key : string) : Z * bool :=
  match s !! key with Some (DoubleVal v) => (v, true) | _ => (0, false) end.
Definition GetStr (s : Store) (key : string) : string * bool :=
  match s !! key with Some (StrVal v) => (v, true) | _ => (""%string, false) end.
Definition SetInt (s : Store) (key : string) (v : Z) : Store := <[key := IntVal v]> s.
Definition SetFloat (s : Store) (key : string) (v : Z) : Store := <[key := DoubleVal v]> s.
Definition SetStr (s : Store) (key v : string) : Store := <[key := StrVal v]> s.
Definition Delete (s : Store) (key : string) : Store := delete key s.

(** ** Keys *)
Definition receiverKey (r : Receiver) : string :=
  GroupName r +:+ "/" +:+ Integration r +:+ "/" +:+ pretty (Idx r).
Definition stateKey (k : string) (r : Receiver) : string := k +:+ ":" +:+ receiverKey r.

(** ** State *)
Inductive error := ErrNotFound | ErrInvalidState | ErrDecode | ErrMarshal | ErrNoParams | ErrZeroExpiration.

Inductive unmarshalled :=
| Unmarshalled (m : WireEntry) (rest : list Z)
| UnmarshalEOF
| UnmarshalErr.

(** protodelim, as for silences. *)
Class NflogCodec := {
  MarshalTo : MeshEntry → option (list Z);
  UnmarshalFrom : list Z → unmarshalled;
}.

Abbreviation state := (gmap string MeshEntry).

Definition entry_key (e : MeshEntry) : string := stateKey (GroupKey (Ent e)) (Recv (Ent e)).

(** [state.merge]. *)
Definition merge (s : state) (e : MeshEntry) (now : time) : state * bool :=
  if Before (AsTime (ExpiresAt e)) now then (s, false) else
  let k := stateKey (GroupKey (Ent e)) (Recv (Ent e)) in
  match s !! k with
  | None => (<[k := e]> s, true)
  | Some prev =>
      if Before (AsTime (Timestamp (Ent prev))) (AsTime (Timestamp (Ent e)))
      then (<[k := e]> s, true) else (s, false)
  end.

Section nflog.
Context `{NC : NflogCodec, MR : MapRange}.

Definition marshalMeshEntry (e : MeshEntry) : result error (list Z) :=
  match MarshalTo e with Some b => Ok b | None => Err ErrMarshal end.

Fixpoint marshal_all (es : list (string * MeshEntry)) : result error (list Z) :=
  match es with
  | [] => Ok []
  | (_, e) :: es => b ← marshalMeshEntry e; bs ← marshal_all es; Ok (b ++ bs)
  end.

(** [state.MarshalBinary]. *)
Definition MarshalBinary (s : state) : result error (list Z) := marshal_all (range s).

(** [decodeState]; a message takes at least one byte. *)
Fixpoint decode_loop (fuel : nat) (st : state) (r : list Z) : result error state :=
  match fuel with
  | O => Err ErrDecode
  | S fuel =>
      match UnmarshalFrom r with
      | Unmarshalled m rest =>
          match we_entry m with
          | Some (Some recv, e) =>
              let e := mkEntry (GroupKey e) recv (Timestamp e) (FiringAlerts e)
                         (ResolvedAlerts e) (ReceiverData e) in
              decode_loop fuel
                (<[stateKey (GroupKey e) recv := mkMeshEntry e (we_ExpiresAt m)]> st) rest
          | _ => Err ErrInvalidState
          end
      | UnmarshalEOF => Ok st
      | UnmarshalErr => Err ErrDecode
      end
  end.

Definition decodeState (r : list Z) : result error state := decode_loop (S (length r)) ∅ r.

(** ** The log *)
Record Log := mkLog {
  retention : duration;
  st : state;
  broadcasts : list (list Z);
}.

Definition New_Log (ret : duration) : Log := mkLog ret ∅ [].
Definition set_st x l := mkLog (retention l) x (broadcasts l).
Definition broadcast b l := mkLog (retention l) (st l) (broadcasts l ++ [b]).

(** The entry [Log] writes at [now]. *)
Definition new_entry (l : Log) (r : Receiver) (gkey : string) (firing resolved : list Z)
    (store : option Store) (expiry : duration) (now : time) : MeshEntry :=
  let expiresAt :=
    if (0 <? expiry) && (expiry <? retention l) then now + expiry else now + retention l in
  mkMeshEntry (mkEntry gkey r (timestamppb_New now) firing resolved (default ∅ store))
    (timestamppb_New expiresAt).

(** [Log.Log]; [now2] is the clock as read again for the merge. *)
Definition Log_ (l : Log) (r : Receiver) (gkey : string) (firing resolved : list Z)
    (store : option Store) (expiry : duration) (now now2 : time) : Log * option error :=
  let key := stateKey gkey r in
  let newer := match st l !! key with
               | Some prevle => After (AsTime (Timestamp (Ent prevle))) now
               | None => false
               end in
  if newer then (l, None) else
  let e := new_entry l r gkey firing resolved store expiry now in
  match marshalMeshEntry e with
  | Err err => (l, Some err)
  | Ok b => (broadcast b (set_st (merge (st l) e now2).1 l), None)
  end.

(** [GC] stops at the first entry without an expiry instant. *)
Fixpoint gc_loop (now : time) (es : list (string * MeshEntry)) (s : state) (n : Z)
    : state * Z * option error :=
  match es with
  | [] => (s, n, None)
  | (k, le) :: es =>
      if IsZero (AsTime (ExpiresAt le)) then (s, n, Some ErrZeroExpiration)
      else if negb (After (AsTime (ExpiresAt le)) now) then gc_loop now es (delete k s) (n + 1)
      else gc_loop now es s n
  end.

Definition GC (l : Log) (now : time) : Log * Z * option error :=
  let '(s, n, err) := gc_loop now (range (st l)) (st l) 0 in (set_st s l, n, err).

Record query := mkQuery { q_recv : option Receiver; q_groupKey : string }.
Inductive QueryParam := QReceiver (r : Receiver) | QGroupKey (gk : string).

Definition apply_param (q : query) (p : QueryParam) : query :=
  match p with
  | QReceiver r => mkQuery (Some r) (q_groupKey q)
  | QGroupKey gk => mkQuery (q_recv q) gk
  end.

Definition Query (l : Log) (params : list QueryParam) : result error (list Entry) :=
  let q := foldl apply_param (mkQuery None ""%string) params in
  match q_recv q with
  | None => Err ErrNoParams
  | Some r =>
      if bool_decide (q_groupKey q = ""%string) then Err ErrNoParams else
      match st l !! stateKey (q_groupKey q) r with
      | Some le => Ok [Ent le]
      | None => Err ErrNotFound
      end
  end.

Definition loadSnapshot (l : Log) (r : list Z) : Log * option error :=
  match decodeState r with
  | Err e => (l, Some e)
  | Ok s => (set_st s l, None)
  end.

Definition Snapshot (l : Log) : result error (list Z) := MarshalBinary (st l).

Fixpoint merge_loop (l : Log) (b : list Z) (now : time) (es : list (string * MeshEntry)) : Log :=
  match es with
  | [] => l
  | (_, e) :: es =>
      let '(s, merged) := merge (st l) e now in
      let l := set_st s l in
      merge_loop (if merged && negb (OversizedMessage b) then broadcast b l else l) b now es
  end.

Definition Merge (l : Log) (b : list Z) (now : time) : Log * option error :=
  match decodeState b with
  | Err e => (l, Some e)
  | Ok s => (merge_loop l b now (range s), None)
  end.
End nflog.
End Nflog.

(** * The notification log: its properties

    Keys identify receiver and group, gossip converges, what was logged is what
    a query finds, garbage collection removes exactly the expired entries, and
    a snapshot restores the state. *)
Import Nflog.

Module NflogInv.

#[global] Instance nflog_lww : Lww MeshEntry := {
  lww_key := entry_key;
  lww_stamp e := AsTime (Timestamp (Ent e));
}.

(** What the log relies on from protodelim. *)
Class NflogCodecLaws `{NC : NflogCodec} : Prop := {
  unmarshal_marshal : ∀ m b rest,
    MarshalTo m = Some b → readable_size b →
    UnmarshalFrom (b ++ rest) =
      Unmarshalled (mkWireEntry (Some (Some (Recv (Ent m)), Ent m)) (ExpiresAt m)) rest;
  marshal_nonempty : ∀ m b, MarshalTo m = Some b → b ≠ [];
  unmarshal_nil : UnmarshalFrom [] = UnmarshalEOF;
}.

(** ** Keys *)
Definition slash : Z := 47.
Definition colon : Z := 58.

Lemma pretty_N_go_bytes x : ∀ s b,
  b ∈ bytes (pretty_N_go x s) → b ∈ bytes s ∨ 48 ≤ b ≤ 57.
Proof.
  induction (N.lt_wf_0 x) as [x _ IH]. intros s b.
  destruct (decide (x = 0)%N) as [->|Hx]; [by rewrite pretty_N_go_0; left|].
  rewrite pretty_N_go_step by lia.
  specialize (IH (x `div` 10)%N ltac:(apply N.div_lt; lia)). intros [H|H]%IH; [|by right].
  unfold bytes in H. cbn [list_ascii_of_string map] in H.
  apply elem_of_cons in H as [->|H]; [right|by left].
  unfold pretty_N_char. repeat case_match; vm_compute; split; congruence.
Qed.

Lemma pretty_N_bytes (n : N) b : b ∈ bytes (pretty n) → 48 ≤ b ≤ 57.
Proof.
  unfold pretty, pretty_N. case_decide.
  - intros ->%list_elem_of_singleton. vm_compute; split; congruence.
  - by intros [Hb%elem_of_nil|Hb]%pretty_N_go_bytes.
Qed.

(** Integration names contain no slash, receiver names no colon. *)
Definition plain_receiver (r : Receiver) : Prop :=
  (slash ∉ bytes (Integration r)) ∧ (colon ∉ bytes (GroupName r)) ∧ (colon ∉ bytes (Integration r)).

Lemma bytes_slash (a b : string) : bytes (a +:+ "/" +:+ b) = bytes a ++ slash :: bytes b.
Proof. by rewrite !bytes_app. Qed.
Lemma bytes_colon (a b : string) : bytes (a +:+ ":" +:+ b) = bytes a ++ colon :: bytes b.
Proof. by rewrite !bytes_app. Qed.

Lemma receiverKey_inj r1 r2 :
  slash ∉ bytes (Integration r1) → slash ∉ bytes (Integration r2) →
  receiverKey r1 = receiverKey r2 → r1 = r2.
Proof.
  intros H1 H2 E%(f_equal bytes). unfold receiverKey in E. rewrite !bytes_slash in E.
  rewrite !app_comm_cons, !app_assoc in E.
  assert (Hp : ∀ n : N, slash ∉ bytes (pretty n)).
  { intros n H%pretty_N_bytes. unfold slash in H. lia. }
  destruct r1 as [g1 i1 n1], r2 as [g2 i2 n2]; cbn [GroupName Integration Idx] in *.
  apply app_sep_inj in E as [E ->%bytes_inj%(inj pretty)]; [|done..].
  apply app_sep_inj in E as [->%bytes_inj ->%bytes_inj]; done.
Qed.

(** the key of a log entry identifies the group and the receiver: two
    pairs with the same key are equal, as long as receiver names contain no
    colon and integration names neither a colon nor a slash. *)
Theorem nflog_stateKey_inj k1 k2 r1 r2 :
  plain_receiver r1 → plain_receiver r2 → stateKey k1 r1 = stateKey k2 r2 → k1 = k2 ∧ r1 = r2.
Proof.
  intros (H1 & G1 & I1) (H2 & G2 & I2) E%(f_equal bytes). 
  unfold stateKey in E. rewrite !bytes_colon in E.
  assert (Hc : ∀ r, colon ∉ bytes (GroupName r) → colon ∉ bytes (Integration r) →
    colon ∉ bytes (receiverKey r)).
  { intros r Hg Hi. unfold receiverKey. rewrite !bytes_slash.
    intros [?|[[=]|[?|[[=]|H%pretty_N_bytes]%elem_of_cons]%elem_of_app]%elem_of_cons]%elem_of_app;
      try done. unfold colon in H. lia. }
  apply app_sep_inj in E as [->%bytes_inj E%bytes_inj]; [|by apply Hc..].
  split; [done|]. by apply receiverKey_inj.
Qed.

Section nflog.
Context `{NC : NflogCodec, MR : MapRange}.
Implicit Types (l : Log) (e : MeshEntry).

(** ** Gossip *)
Definition live (now : time) (e : MeshEntry) : bool := negb (Before (AsTime (ExpiresAt e)) now).

Lemma log_merge_is_lww (s : state) e now :
  (merge s e now).1 = if live now e then lww_merge s e else s.
Proof.
  unfold merge, live, lww_merge, lww_wins. cbn. unfold entry_key.
  destruct (Before _ now); cbn; [done|].
  destruct (s !! stateKey _ _); [|done]. by destruct (Before _ _).
Qed.

Definition entries (now : time) (b : list Z) : list MeshEntry :=
  match decodeState b with
  | Ok s => List.filter (live now) ((range s).*2)
  | Err _ => []
  end.

Lemma log_merge_loop_st b now es : ∀ l,
  st (merge_loop l b now es) = foldl lww_merge (st l) (List.filter (live now) (es.*2)).
Proof.
  induction es as [|[k e] es IH]; intros l; cbn; [done|].
  pose proof (log_merge_is_lww (st l) e now) as Hm. destruct (merge (st l) e now) as [s merged].
  cbn in Hm. rewrite IH.
  match goal with |- context [foldl _ (st ?L) _] => assert (Hst : st L = s) by by destruct (merged && negb (OversizedMessage b)) end.
  rewrite Hst, Hm. by destruct (live now e).
Qed.

Lemma log_Merge_st l b now : st (Merge l b now).1 = foldl lww_merge (st l) (entries now b).
Proof. unfold Merge, entries. destruct (decodeState b); [apply log_merge_loop_st|done]. Qed.

Definition merge_all (l : Log) (now : time) (bs : list (list Z)) : Log :=
  foldl (λ l b, (Merge l b now).1) l bs.

Lemma log_merge_all_st now bs : ∀ l,
  st (merge_all l now bs) = foldl lww_merge (st l) (bs ≫= entries now).
Proof.
  induction bs as [|b bs IH]; intros l; [done|].
  change (merge_all l now (b :: bs)) with (merge_all (Merge l b now).1 now bs).
  rewrite IH, log_Merge_st. cbn. by rewrite foldl_app.
Qed.

(** peers that have received the same notification log messages, in any
    order and any number of times, agree on every entry, provided two different
    entries for one key never carry the same timestamp. *)
Theorem nflog_gossip_converges l now (bs1 bs2 : list (list Z)) :
  tie_free (st l) (bs1 ≫= entries now) → (∀ b, b ∈ bs1 ↔ b ∈ bs2) →
  st (merge_all l now bs1) = st (merge_all l now bs2).
Proof.
  intros Htf Hsame. rewrite !log_merge_all_st. apply lww_fold_converges; [done|].
  intros e. rewrite !list_elem_of_bind. naive_solver.
Qed.

(** ** Log and Query *)
Lemma Query_key l r gkey :
  gkey ≠ ""%string →
  Query l [QReceiver r; QGroupKey gkey] =
    match st l !! stateKey gkey r with Some le => Ok [Ent le] | None => Err ErrNotFound end.
Proof. intros H. unfold Query. cbn. by rewrite bool_decide_eq_false_2. Qed.

Lemma log_merge_lookup_ne (s : state) e now k : k ≠ entry_key e → (merge s e now).1 !! k = s !! k.
Proof.
  intros Hne. rewrite log_merge_is_lww. destruct (live now e); [|done]. by apply lww_merge_lookup_ne.
Qed.

Lemma log_merge_lookup_newer (s : state) e now :
  now ≤ AsTime (ExpiresAt e) →
  (∀ prev, s !! entry_key e = Some prev → AsTime (Timestamp (Ent prev)) < AsTime (Timestamp (Ent e))) →
  (merge s e now).1 !! entry_key e = Some e.
Proof.
  intros Hx Hnew. rewrite log_merge_is_lww. unfold live.
  destruct (Before_spec (AsTime (ExpiresAt e)) now); [lia|]. cbn.
  change (entry_key e) with (lww_key e). rewrite lww_merge_lookup_eq.
  unfold lww_wins. cbn [lww_key lww_stamp nflog_lww]. destruct (s !! entry_key e) as [p|]; [|done].
  specialize (Hnew p eq_refl). destruct (Before_spec (AsTime (Timestamp (Ent p)))
    (AsTime (Timestamp (Ent e)))); [done|lia].
Qed.

Lemma Log_then_Query l r gkey firing resolved store expiry now now2 l' :
  gkey ≠ ""%string → 0 < retention l →
  (∀ prev, st l !! stateKey gkey r = Some prev → AsTime (Timestamp (Ent prev)) < now) →
  now2 ≤ now + Z.min (retention l) (if 0 <? expiry then expiry else retention l) →
  Log_ l r gkey firing resolved store expiry now now2 = (l', None) →
  Query l' [QReceiver r; QGroupKey gkey] =
    Ok [mkEntry gkey r (Some now) firing resolved (default ∅ store)] ∧
  ∀ k, k ≠ stateKey gkey r → st l' !! k = st l !! k.
Proof.
  intros Hg Hret Hprev Hnow2. unfold Log_.
  assert ((match st l !! stateKey gkey r with
    Some p => After (AsTime (Timestamp (Ent p))) now | None => false end) = false) as ->.
  { destruct (st l !! _) as [p|] eqn:Hp; [|done]. apply Z.ltb_ge. specialize (Hprev p eq_refl). lia. }
  set (e := new_entry l r gkey firing resolved store expiry now).
  destruct (marshalMeshEntry e); [|done]. intros [= <-]. cbn [st broadcast set_st]. split.
  - rewrite Query_key by done. cbn [st broadcast set_st]. change (stateKey gkey r) with (entry_key e).
    rewrite log_merge_lookup_newer; [done| |by intros p ?%Hprev].
    cbn. destruct (Z.ltb_spec 0 expiry), (Z.ltb_spec expiry (retention l)); cbn; lia.
  - intros k Hk. by apply log_merge_lookup_ne.
Qed.

(** what was logged is what the next query finds: after a successful Log
    for a receiver and group whose previous entry is older, a query for them
    returns one entry with exactly the firing and resolved alerts, receiver
    data and time of the notification, and the entries under other keys are
    unchanged. *)
Theorem nflog_log_query l r gkey firing resolved store expiry now now2 l' :
  gkey ≠ ""%string → 0 < retention l →
  (∀ prev, st l !! stateKey gkey r = Some prev → AsTime (Timestamp (Ent prev)) < now) →
  now2 ≤ now + Z.min (retention l) (if 0 <? expiry then expiry else retention l) →
  Log_ l r gkey firing resolved store expiry now now2 = (l', None) →
  Query l' [QReceiver r; QGroupKey gkey] =
    Ok [mkEntry gkey r (Some now) firing resolved (default ∅ store)] ∧
  ∀ k, k ≠ stateKey gkey r → st l' !! k = st l !! k.
Proof. apply Log_then_Query. Qed.

(** ** Garbage collection *)
Definition kept (now : time) (e : MeshEntry) : bool := After (AsTime (ExpiresAt e)) now.

Lemma log_gc_loop_spec now es : ∀ (s : state) n,
  NoDup es.*1 → (∀ k e, (k, e) ∈ es → s !! k = Some e ∧ AsTime (ExpiresAt e) ≠ 0) →
  ∃ s', gc_loop now es s n =
      (s', n + Z.of_nat (length (List.filter (λ x, negb (kept now x.2)) es)), None) ∧
    ∀ k, s' !! k = match s !! k with
      | Some e => if bool_decide (k ∈ es.*1) && negb (kept now e) then None else Some e
      | None => None
      end.
Proof.
  induction es as [|[k e] es IH]; intros s n Hnd Hes; cbn [gc_loop fmap list_fmap fst].
  { exists s. cbn. rewrite Z.add_0_r. split; [done|]. intros k. by destruct (s !! k). }
  apply NoDup_cons in Hnd as [Hnin Hnd]. destruct (Hes k e) as [Hk Hz]; [by left|].
  unfold IsZero. rewrite (proj2 (Z.eqb_neq _ _) Hz). fold (kept now e).
  assert (Hin : ∀ k0 e0, s !! k0 = Some e0 → k0 ∉ (es.*1) → k0 ≠ k → k0 ∉ k :: es.*1).
  { intros k0 e0 _ H1 H2 [?|?]%elem_of_cons; done. }
  destruct (kept now e) eqn:Hkept; cbn.
  - destruct (IH s n Hnd) as (s' & E & Hs'); [intros; apply Hes; by right|].
    exists s'. rewrite Hkept. split; [exact E|]. intros k0. rewrite Hs'.
    destruct (s !! k0) as [e0|] eqn:He0; [|done]. destruct (decide (k0 = k)) as [->|Hne].
    + simplify_eq. rewrite Hkept. by rewrite !andb_false_r.
    + rewrite (bool_decide_ext (k0 ∈ k :: es.*1) (k0 ∈ es.*1)); [done|].
      rewrite elem_of_cons. naive_solver.
  - destruct (IH (delete k s) (n + 1) Hnd) as (s' & E & Hs').
    { intros k' e' Hin'. rewrite lookup_delete_ne; [apply Hes; by right|].
      intros <-. apply Hnin, list_elem_of_fmap. by exists (k, e'). }
    exists s'. rewrite Hkept. cbn. split; [rewrite E; f_equal; f_equal; lia|].
    intros k0. rewrite Hs'. destruct (decide (k0 = k)) as [->|Hne].
    + rewrite lookup_delete_eq, Hk, Hkept, bool_decide_eq_true_2; [done|by left].
    + rewrite lookup_delete_ne by done. destruct (s !! k0); [|done].
      rewrite (bool_decide_ext (k0 ∈ k :: es.*1) (k0 ∈ es.*1)); [done|].
      rewrite elem_of_cons. naive_solver.
Qed.

(** a garbage collection of the log removes exactly the entries whose
    expiry instant has come, in whatever order the map is walked, keeps all
    others, and returns how many it removed, provided every entry has an expiry
    instant. *)
Theorem nflog_gc_exact l now :
  (∀ k e, st l !! k = Some e → AsTime (ExpiresAt e) ≠ 0) →
  let '(l', n, err) := GC l now in
  err = None ∧
  (∀ k, st l' !! k = st l !! k ≫= λ e, if kept now e then Some e else None) ∧
  n = Z.of_nat (size (st l)) - Z.of_nat (size (st l')).
Proof.
  intros Hz. unfold GC. destruct (log_gc_loop_spec now (range (st l)) (st l) 0) as (s' & -> & Hs').
  { apply NoDup_fst_range. }
  { intros k e Hin%elem_of_range. eauto. }
  assert (Hlook : ∀ k, s' !! k = st l !! k ≫= λ e, if kept now e then Some e else None).
  { intros k. rewrite Hs'. destruct (st l !! k) as [e|] eqn:He; [|done]. cbn.
    rewrite bool_decide_eq_true_2; [by destruct (kept now e)|].
    apply list_elem_of_fmap. exists (k, e). split; [done|]. by apply elem_of_range. }
  split_and!; [done|done|]. cbn. rewrite <- (length_range s'), <- (length_range (st l)).
  assert (Hperm : range s' ≡ₚ List.filter (λ x, kept now x.2) (range (st l))).
  { apply NoDup_Permutation.
    - eapply NoDup_fmap_1, NoDup_fst_range.
    - eapply (NoDup_fmap_1 fst), NoDup_fst_filter, NoDup_fst_range.
    - intros [k e]. rewrite elem_of_range, Hlook, list_elem_of_In, filter_In, <- list_elem_of_In.
      rewrite elem_of_range. destruct (st l !! k) as [e'|]; cbn; [|naive_solver].
      destruct (kept now e') eqn:Hk; naive_solver congruence. }
  rewrite Hperm.
  pose proof (List.filter_length (λ x : string * MeshEntry, kept now x.2) (range (st l))). lia.
Qed.

(** ** Reachable states and snapshots *)
Definition keyed (s : state) : Prop := ∀ k e, s !! k = Some e → entry_key e = k.

Inductive step : relation Log :=
| step_Log l r gkey f re store expiry now now2 :
    step l (Log_ l r gkey f re store expiry now now2).1
| step_GC l now : step l (GC l now).1.1
| step_Merge l b now : step l (Merge l b now).1
| step_load l r : step l (loadSnapshot l r).1.

Lemma gc_loop_subset now es : ∀ (s : state) n, (gc_loop now es s n).1.1 ⊆ s.
Proof.
  induction es as [|[k e] es IH]; intros s n; cbn; [done|].
  destruct (IsZero _); [done|]. destruct (negb _); [|apply IH].
  etrans; [apply IH|]. apply delete_subseteq.
Qed.

Lemma decode_loop_keyed fuel : ∀ s r s', keyed s → decode_loop fuel s r = Ok s' → keyed s'.
Proof.
  induction fuel as [|fuel IH]; intros s r s' Hs; cbn; [done|].
  destruct (UnmarshalFrom r) as [[[[[recv|] e]|] x] rest| |]; try done; [|by intros [= <-]].
  apply IH. intros k e' [[<- <-]|[_ ?]]%lookup_insert_Some; [done|]. by apply Hs.
Qed.

Lemma step_keyed l l' : step l l' → keyed (st l) → keyed (st l').
Proof.
  intros Hstep Hk. destruct Hstep as [l r gkey f re store expiry now now2|l now|l b now|l r].
  - unfold Log_. destruct (match st l !! _ with Some _ => _ | None => _ end); [done|].
    destruct (marshalMeshEntry _); [|done]. cbn [st broadcast set_st fst].
    rewrite log_merge_is_lww. destruct (live _ _); [|done]. exact (lww_merge_key_wf _ _ Hk).
  - unfold GC. pose proof (gc_loop_subset now (range (st l)) (st l) 0) as Hsub.
    destruct (gc_loop _ _ _ _) as [[s n] err]. cbn in *. intros k e He.
    apply Hk. by eapply lookup_weaken.
  - unfold Merge. destruct (decodeState b); [|done]. cbn. rewrite log_merge_loop_st.
    exact (lww_fold_key_wf _ _ Hk).
  - unfold loadSnapshot. destruct (decodeState r) as [s|] eqn:Hd; [|done]. cbn.
    eapply decode_loop_keyed; [|exact Hd]. intros k e. by rewrite lookup_empty.
Qed.

Lemma reachable_keyed ret l : rtc step (New_Log ret) l → keyed (st l).
Proof.
  intros Hr. assert (H0 : keyed (st (New_Log ret))) by done.
  revert H0. induction Hr; eauto using step_keyed.
Qed.

(** No entry of the log is too large to be read back. *)
Definition readable (e : MeshEntry) : Prop := ∀ b, marshalMeshEntry e = Ok b → readable_size b.
Definition all_readable (l : Log) : Prop := map_Forall (λ _, readable) (st l).

Lemma log_decode_marshal_all `{!NflogCodecLaws} es : ∀ fuel s b,
  Forall (λ x, readable x.2) es → marshal_all es = Ok b → (length b < fuel)%nat →
  decode_loop fuel s b = Ok (foldl (λ s e, <[entry_key e := e]> s) s es.*2).
Proof.
  induction es as [|[k e] es IH]; intros fuel s b Hsz; cbn [marshal_all].
  - intros [= <-] Hf. destruct fuel as [|fuel]; [cbn in *; lia|]. cbn. by rewrite unmarshal_nil.
  - intros (b1 & Hb1 & (b2 & Hb2 & [= <-])%result_bind_Ok)%result_bind_Ok Hf.
    apply Forall_cons_1 in Hsz as [Hsize Hsz]. apply Hsize in Hb1 as Hsize'. unfold marshalMeshEntry in Hb1. case_match eqn:Hm; simplify_eq.
    destruct fuel as [|fuel]; [lia|]. cbn [decode_loop foldl fmap list_fmap].
    rewrite (unmarshal_marshal _ _ _ Hm Hsize'). destruct e as [[] x]. cbn.
    apply IH; [done..|]. apply marshal_nonempty in Hm.
    rewrite length_app in Hf. destruct b1; [done|]. cbn in Hf. lia.
Qed.

Lemma decode_log_snapshot `{!NflogCodecLaws} l b :
  keyed (st l) → all_readable l → Snapshot l = Ok b → decodeState b = Ok (st l).
Proof.
  intros Hk Hsz Hb. unfold decodeState. rewrite (log_decode_marshal_all (range (st l))); [| |done|lia].
  2: { apply Forall_forall. intros [k e] Hin%elem_of_range. by eapply Hsz. }
  by rewrite foldl_insert_rebuild.
Qed.

(** a snapshot of the log in any reachable state none of whose entries is
    larger than protodelim reads, read back, gives exactly the state that was
    written. *)
Theorem nflog_snapshot_roundtrip `{!NflogCodecLaws} ret l b :
  rtc step (New_Log ret) l → all_readable l → Snapshot l = Ok b → (loadSnapshot (New_Log ret) b).1 = set_st (st l) (New_Log ret).
Proof.
  intros Hr%reachable_keyed Hsz Hb. unfold loadSnapshot. by rewrite (decode_log_snapshot l b).
Qed.
End nflog.
End NflogInv.
