(* ===== verification/Notify.v ===== *)
(** * The notification pipeline (notify/)

    A flush of an aggregation group hands its alerts to a pipeline of stages.
    A stage is a function of the state it may change ([World]), the context and
    the alerts; it returns the new state with the context, the alerts that are
    left and an error, or [None] while it has not returned (a notification is
    retried until it succeeds or the context ends).  Times that the code reads
    and events that it waits for are arguments ([oracle]). *)

From Stdlib Require Import Ascii String.
From stdpp Require Import base gmap strings list sorting.
From S2P Require Import Prelude Utf8 Labels Silence Alert Nflog.

(** xxhash.Sum64, of the library the code imports. *)
Class XXHash := Sum64 : list Z → Z.

Module Notify.
Import Alert.

Inductive NotifyReason :=
| ReasonDoNotNotify
| ReasonFirstNotification
| ReasonNewAlertsInGroup
| ReasonNewResolvedAlerts
| ReasonAllAlertsResolved
| ReasonRepeatIntervalElapsed
| ReasonUnknown.

#[global] Instance NotifyReason_eq_dec : EqDecision NotifyReason.
Proof. solve_decision. Defined.

Definition shouldNotify (r : NotifyReason) : bool := bool_decide (r ≠ ReasonDoNotNotify).

Definition NotifyReason_String (r : NotifyReason) : string :=
  match r with
  | ReasonDoNotNotify => "none"
  | ReasonFirstNotification => "first notification"
  | ReasonNewAlertsInGroup => "new alerts added"
  | ReasonNewResolvedAlerts => "some alerts resolved"
  | ReasonAllAlertsResolved => "all alerts resolved"
  | ReasonRepeatIntervalElapsed => "repeat interval elapsed"
  | ReasonUnknown => "unknown"
  end.

Inductive ctx_error := Canceled | DeadlineExceeded.

Inductive error :=
| ErrReceiverMissing | ErrStageMissing | ErrGroupKeyMissing | ErrRepeatMissing
| ErrRouteIDMissing | ErrFiringMissing | ErrResolvedMissing | ErrNowMissing
| ErrNflog (e : Nflog.error)
| ErrEntryCount
| ErrTimeInterval
| ErrCtx (e : ctx_error)
| ErrPeer
| ErrNotify (code : Z)
| ErrRetryCanceled (attempts : Z) (e : error)
| ErrUnrecoverable (attempts : Z) (e : error)
| ErrJoin (e1 e2 : error).

(** ** context.go: the values of a context, each present or not *)
Section context.
Context `{RE : Regexp}.

Record Context := mkContext {
  ReceiverName : option string;
  RepeatInterval : option duration;
  GroupLabels : option LabelSet;
  GroupKey : option string;
  FiringAlerts : option (list Z);
  ResolvedAlerts : option (list Z);
  Now : option time;
  MuteTimeIntervalNames : option (list string);
  ActiveTimeIntervalNames : option (list string);
  RouteID : option string;
  NflogStore : option Nflog.Store;
  NotificationReason : option NotifyReason;
  MutedAlerts : option (gset Z);
  AggrGroupID : option string;
  FlushID : option Z;
  GroupMatchers : option Labels.Matchers;
  RouteLabels : option LabelSet;
}.

Definition background : Context :=
  mkContext None None None None None None None None None None None None None None None None None.

Definition WithReceiverName (c : Context) (v : string) : Context :=
  mkContext (Some v) (RepeatInterval c) (GroupLabels c) (GroupKey c) (FiringAlerts c)
    (ResolvedAlerts c) (Now c) (MuteTimeIntervalNames c) (ActiveTimeIntervalNames c) (RouteID c)
    (NflogStore c) (NotificationReason c) (MutedAlerts c) (AggrGroupID c) (FlushID c)
    (GroupMatchers c) (RouteLabels c).
Definition WithRepeatInterval (c : Context) (v : duration) : Context :=
  mkContext (ReceiverName c) (Some v) (GroupLabels c) (GroupKey c) (FiringAlerts c)
    (ResolvedAlerts c) (Now c) (MuteTimeIntervalNames c) (ActiveTimeIntervalNames c) (RouteID c)
    (NflogStore c) (NotificationReason c) (MutedAlerts c) (AggrGroupID c) (FlushID c)
    (GroupMatchers c) (RouteLabels c).
Definition WithGroupLabels (c : Context) (v : LabelSet) : Context :=
  mkContext (ReceiverName c) (RepeatInterval c) (Some v) (GroupKey c) (FiringAlerts c)
    (ResolvedAlerts c) (Now c) (MuteTimeIntervalNames c) (ActiveTimeIntervalNames c) (RouteID c)
    (NflogStore c) (NotificationReason c) (MutedAlerts c) (AggrGroupID c) (FlushID c)
    (GroupMatchers c) (RouteLabels c).
Definition WithGroupKey (c : Context) (v : string) : Context :=
  mkContext (ReceiverName c) (RepeatInterval c) (GroupLabels c) (Some v) (FiringAlerts c)
    (ResolvedAlerts c) (Now c) (MuteTimeIntervalNames c) (ActiveTimeIntervalNames c) (RouteID c)
    (NflogStore c) (NotificationReason c) (MutedAlerts c) (AggrGroupID c) (FlushID c)
    (GroupMatchers c) (RouteLabels c).
Definition WithFiringAlerts (c : Context) (v : list Z) : Context :=
  mkContext (ReceiverName c) (RepeatInterval c) (GroupLabels c) (GroupKey c) (Some v)
    (ResolvedAlerts c) (Now c) (MuteTimeIntervalNames c) (ActiveTimeIntervalNames c) (RouteID c)
    (NflogStore c) (NotificationReason c) (MutedAlerts c) (AggrGroupID c) (FlushID c)
    (GroupMatchers c) (RouteLabels c).
Definition WithResolvedAlerts (c : Context) (v : list Z) : Context :=
  mkContext (ReceiverName c) (RepeatInterval c) (GroupLabels c) (GroupKey c) (FiringAlerts c)
    (Some v) (Now c) (MuteTimeIntervalNames c) (ActiveTimeIntervalNames c) (RouteID c)
    (NflogStore c) (NotificationReason c) (MutedAlerts c) (AggrGroupID c) (FlushID c)
    (GroupMatchers c) (RouteLabels c).
Definition WithNow (c : Context) (v : time) : Context :=
  mkContext (ReceiverName c) (RepeatInterval c) (GroupLabels c) (GroupKey c) (FiringAlerts c)
    (ResolvedAlerts c) (Some v) (MuteTimeIntervalNames c) (ActiveTimeIntervalNames c)
    (RouteID c) (NflogStore c) (NotificationReason c) (MutedAlerts c) (AggrGroupID c)
    (FlushID c) (GroupMatchers c) (RouteLabels c).
Definition WithMuteTimeIntervals (c : Context) (v : list string) : Context :=
  mkContext (ReceiverName c) (RepeatInterval c) (GroupLabels c) (GroupKey c) (FiringAlerts c)
    (ResolvedAlerts c) (Now c) (Some v) (ActiveTimeIntervalNames c) (RouteID c) (NflogStore c)
    (NotificationReason c) (MutedAlerts c) (AggrGroupID c) (FlushID c) (GroupMatchers c)
    (RouteLabels c).
Definition WithActiveTimeIntervals (c : Context) (v : list string) : Context :=
  mkContext (ReceiverName c) (RepeatInterval c) (GroupLabels c) (GroupKey c) (FiringAlerts c)
    (ResolvedAlerts c) (Now c) (MuteTimeIntervalNames c) (Some v) (RouteID c) (NflogStore c)
    (NotificationReason c) (MutedAlerts c) (AggrGroupID c) (FlushID c) (GroupMatchers c)
    (RouteLabels c).
Definition WithRouteID (c : Context) (v : string) : Context :=
  mkContext (ReceiverName c) (RepeatInterval c) (GroupLabels c) (GroupKey c) (FiringAlerts c)
    (ResolvedAlerts c) (Now c) (MuteTimeIntervalNames c) (ActiveTimeIntervalNames c) (Some v)
    (NflogStore c) (NotificationReason c) (MutedAlerts c) (AggrGroupID c) (FlushID c)
    (GroupMatchers c) (RouteLabels c).
Definition WithNflogStore (c : Context) (v : Nflog.Store) : Context :=
  mkContext (ReceiverName c) (RepeatInterval c) (GroupLabels c) (GroupKey c) (FiringAlerts c)
    (ResolvedAlerts c) (Now c) (MuteTimeIntervalNames c) (ActiveTimeIntervalNames c) (RouteID c)
    (Some v) (NotificationReason c) (MutedAlerts c) (AggrGroupID c) (FlushID c)
    (GroupMatchers c) (RouteLabels c).
Definition WithNotificationReason (c : Context) (v : NotifyReason) : Context :=
  mkContext (ReceiverName c) (RepeatInterval c) (GroupLabels c) (GroupKey c) (FiringAlerts c)
    (ResolvedAlerts c) (Now c) (MuteTimeIntervalNames c) (ActiveTimeIntervalNames c) (RouteID c)
    (NflogStore c) (Some v) (MutedAlerts c) (AggrGroupID c) (FlushID c) (GroupMatchers c)
    (RouteLabels c).
Definition WithMutedAlerts (c : Context) (v : gset Z) : Context :=
  mkContext (ReceiverName c) (RepeatInterval c) (GroupLabels c) (GroupKey c) (FiringAlerts c)
    (ResolvedAlerts c) (Now c) (MuteTimeIntervalNames c) (ActiveTimeIntervalNames c) (RouteID c)
    (NflogStore c) (NotificationReason c) (Some v) (AggrGroupID c) (FlushID c) (GroupMatchers c)
    (RouteLabels c).
Definition WithAggrGroupID (c : Context) (v : string) : Context :=
  mkContext (ReceiverName c) (RepeatInterval c) (GroupLabels c) (GroupKey c) (FiringAlerts c)
    (ResolvedAlerts c) (Now c) (MuteTimeIntervalNames c) (ActiveTimeIntervalNames c) (RouteID c)
    (NflogStore c) (NotificationReason c) (MutedAlerts c) (Some v) (FlushID c) (GroupMatchers c)
    (RouteLabels c).
Definition WithFlushID (c : Context) (v : Z) : Context :=
  mkContext (ReceiverName c) (RepeatInterval c) (GroupLabels c) (GroupKey c) (FiringAlerts c)
    (ResolvedAlerts c) (Now c) (MuteTimeIntervalNames c) (ActiveTimeIntervalNames c) (RouteID c)
    (NflogStore c) (NotificationReason c) (MutedAlerts c) (AggrGroupID c) (Some v)
    (GroupMatchers c) (RouteLabels c).
Definition WithGroupMatchers (c : Context) (v : Labels.Matchers) : Context :=
  mkContext (ReceiverName c) (RepeatInterval c) (GroupLabels c) (GroupKey c) (FiringAlerts c)
    (ResolvedAlerts c) (Now c) (MuteTimeIntervalNames c) (ActiveTimeIntervalNames c) (RouteID c)
    (NflogStore c) (NotificationReason c) (MutedAlerts c) (AggrGroupID c) (FlushID c) (Some v)
    (RouteLabels c).
Definition WithRouteLabels (c : Context) (v : LabelSet) : Context :=
  mkContext (ReceiverName c) (RepeatInterval c) (GroupLabels c) (GroupKey c) (FiringAlerts c)
    (ResolvedAlerts c) (Now c) (MuteTimeIntervalNames c) (ActiveTimeIntervalNames c) (RouteID c)
    (NflogStore c) (NotificationReason c) (MutedAlerts c) (AggrGroupID c) (FlushID c)
    (GroupMatchers c) (Some v).
End context.

(** ** hashAlert *)
Definition sep : Z := 255.

Definition string_le (x y : string) : Prop := String.leb x y = true.

#[global] Instance string_le_dec x y : Decision (string_le x y).
Proof. unfold string_le. apply _. Defined.

Definition label_names (ls : LabelSet) : list string :=
  merge_sort string_le ((map_to_list ls).*1).

(** The bytes that are hashed: the labels by increasing name, each name and
    each value followed by the separator. *)
Definition hash_input (ls : LabelSet) : list Z :=
  concat (map (λ ln, bytes ln ++ [sep] ++ bytes (label_get ls ln) ++ [sep]) (label_names ls)).

Definition hashAlert `{XXHash} (a : Alert) : Z := Sum64 (hash_input (Labels a)).

(** ** State and inputs *)
Section notify.
Context `{RE : Regexp, PM : PromModel, XH : XXHash, NC : Nflog.NflogCodec}.
Context {M : Type}.   (** the state of silencer and inhibitor *)

Record Integration := mkIntegration {
  i_SendResolved : bool;
  i_Name : string;
  i_Index : Z;
  i_receiverName : string;
}.

(** One call of a notifier: what it was given and whether it succeeded. *)
Record Attempt := mkAttempt {
  at_recv : Nflog.Receiver;
  at_alerts : list Alert;
  at_ok : bool;
}.

Record World := mkWorld {
  w_log : Nflog.Log;
  w_groups : gmap (string * string) (list string);
  w_muters : M;
  w_attempts : list Attempt;
}.

Definition set_log l w := mkWorld l (w_groups w) (w_muters w) (w_attempts w).
Definition set_groups g w := mkWorld (w_log w) g (w_muters w) (w_attempts w).
Definition set_muters m w := mkWorld (w_log w) (w_groups w) m (w_attempts w).
Definition add_attempt a w := mkWorld (w_log w) (w_groups w) (w_muters w) (w_attempts w ++ [a]).

(** A round of the retry loop: the context was done when the round started, the
    ticker fired and the notifier returned, or the context ended first. *)
Inductive outcome := NotifySuccess | NotifyError (retry : bool) (code : Z).
Inductive round :=
| RoundDone (e : ctx_error)
| RoundTick (out : outcome) (ctx_done : bool) (upd : Nflog.Store → Nflog.Store)
| RoundWake.

(** What one run of a receiver's stages reads from the clock and waits for. *)
Record oracle := mkOracle {
  o_wait : option ctx_error;      (** the context ended during the cluster wait *)
  o_at : Alert → time;            (** the instant at which an alert is tested *)
  o_now : time;
  o_rounds : list round;
  o_log : time;                   (** the two clock readings of [Log] *)
  o_log2 : time;
}.

Definition Stage : Type :=
  World → Context → list Alert → option (World * (Context * list Alert * option error)).

(** ** cluster_stages.go *)
Definition ClusterGossipSettleStage_Exec (ready : option bool) : Stage := λ w ctx alerts,
  match ready with
  | Some false => Some (w, (ctx, [], Some ErrPeer))
  | _ => Some (w, (ctx, alerts, None))
  end.

Definition ClusterWaitStage_Exec (o : oracle) : Stage := λ w ctx alerts,
  match o_wait o with
  | Some e => Some (w, (ctx, [], Some (ErrCtx e)))
  | None => Some (w, (ctx, alerts, None))
  end.

(** ** dedup_stage.go *)
Definition needsUpdate (sendResolved : bool) (entry : option Nflog.Entry)
    (firing resolved : gset Z) (repeat_ : duration) (now : time) : NotifyReason :=
  match entry with
  | None => if bool_decide (0 < size firing)%nat then ReasonFirstNotification else ReasonDoNotNotify
  | Some entry =>
      if negb (Nflog.IsFiringSubset entry firing) then
        if (length (Nflog.FiringAlerts entry) =? 0)%nat then ReasonFirstNotification
        else ReasonNewAlertsInGroup
      else if bool_decide (size firing = 0)%nat then
        if (0 <? length (Nflog.FiringAlerts entry))%nat then ReasonAllAlertsResolved
        else ReasonDoNotNotify
      else if sendResolved && negb (Nflog.IsResolvedSubset entry resolved) then
        ReasonNewResolvedAlerts
      else if Before (AsTime (Nflog.Timestamp entry)) (now - repeat_) then
        ReasonRepeatIntervalElapsed
      else ReasonDoNotNotify
  end.

(** [partitionAlertsByState]: hashes in the order of the alerts; the sets are
    the sets of the two lists. *)
Fixpoint partitionAlertsByState (at_ : Alert → time) (alerts : list Alert)
    : list Z * list Z :=
  match alerts with
  | [] => ([], [])
  | a :: alerts =>
      let '(firing, resolved) := partitionAlertsByState at_ alerts in
      if Resolved a (at_ a) then (firing, hashAlert a :: resolved)
      else (hashAlert a :: firing, resolved)
  end.

Definition DedupStage_Exec (sendResolved : bool) (recv : Nflog.Receiver) (o : oracle) : Stage :=
  λ w ctx alerts,
  match GroupKey ctx, RepeatInterval ctx with
  | None, _ => Some (w, (ctx, [], Some ErrGroupKeyMissing))
  | _, None => Some (w, (ctx, [], Some ErrRepeatMissing))
  | Some gkey, Some repeatInterval =>
      let '(firing, resolved) := partitionAlertsByState (o_at o) alerts in
      let ctx := WithResolvedAlerts (WithFiringAlerts ctx firing) resolved in
      let decide_ entry :=
        let now := default (o_now o) (Now ctx) in
        let updateReason := needsUpdate sendResolved entry (list_to_set firing)
                              (list_to_set resolved) repeatInterval now in
        let ctx := WithNotificationReason ctx updateReason in
        let ctx := WithNflogStore ctx
          (if bool_decide (updateReason = ReasonFirstNotification) then Nflog.NewStore None
           else Nflog.NewStore entry) in
        Some (w, (ctx, if shouldNotify updateReason then alerts else [], None)) in
      match Nflog.Query (w_log w) [Nflog.QGroupKey gkey; Nflog.QReceiver recv] with
      | Err Nflog.ErrNotFound => decide_ None
      | Err e => Some (w, (ctx, [], Some (ErrNflog e)))
      | Ok [] => decide_ None
      | Ok [entry] => decide_ (Some entry)
      | Ok _ => Some (w, (ctx, [], Some ErrEntryCount))
      end
  end.

(** ** retry_stage.go *)
Definition set_store (upd : Nflog.Store → Nflog.Store) (ctx : Context) : Context :=
  match NflogStore ctx with
  | Some st => WithNflogStore ctx (upd st)
  | None => ctx
  end.

(** The loop of [exec]: [sent] is what the notifier gets, [alerts] what the
    stage was given, [n] the number of attempts, [iErr] the last error. *)
Fixpoint retry_loop (recv : Nflog.Receiver) (sent alerts : list Alert) (rounds : list round)
    (n : Z) (iErr : option error) (w : World) (ctx : Context)
    : option (World * (Context * list Alert * option error)) :=
  match rounds with
  | [] => None
  | RoundDone e :: _ =>
      Some (w, (ctx, [], Some (ErrRetryCanceled n (default (ErrCtx e) iErr))))
  | RoundTick NotifySuccess _ upd :: _ =>
      Some (add_attempt (mkAttempt recv sent true) w, (set_store upd ctx, alerts, None))
  | RoundTick (NotifyError retry code) ctx_done upd :: rounds =>
      let w := add_attempt (mkAttempt recv sent false) w in
      let ctx := set_store upd ctx in
      if retry then
        retry_loop recv sent alerts rounds (n + 1)
          (if ctx_done then iErr else Some (ErrNotify code)) w ctx
      else Some (w, (ctx, alerts, Some (ErrUnrecoverable (n + 1) (ErrNotify code))))
  | RoundWake :: rounds => retry_loop recv sent alerts rounds n iErr w ctx
  end.

Definition RetryStage_Exec (sendResolved : bool) (recv : Nflog.Receiver) (o : oracle) : Stage :=
  λ w ctx alerts,
  if sendResolved then retry_loop recv alerts alerts (o_rounds o) 0 None w ctx
  else
    match FiringAlerts ctx with
    | None => Some (w, (ctx, [], Some ErrFiringMissing))
    | Some [] => Some (w, (ctx, alerts, None))
    | Some _ =>
        let sent := List.filter (λ a, negb (Resolved a (o_at o a))) alerts in
        retry_loop recv sent alerts (o_rounds o) 0 None w ctx
    end.

(** ** set_notifies_stage.go *)
Definition SetNotifiesStage_Exec (recv : Nflog.Receiver) (o : oracle) : Stage := λ w ctx alerts,
  match GroupKey ctx, FiringAlerts ctx, ResolvedAlerts ctx, RepeatInterval ctx with
  | None, _, _, _ => Some (w, (ctx, [], Some ErrGroupKeyMissing))
  | _, None, _, _ => Some (w, (ctx, [], Some ErrFiringMissing))
  | _, _, None, _ => Some (w, (ctx, [], Some ErrResolvedMissing))
  | _, _, _, None => Some (w, (ctx, [], Some ErrRepeatMissing))
  | Some gkey, Some firing, Some resolved, Some repeat_ =>
      let expiry := 2 * repeat_ in
      let '(l, err) := Nflog.Log_ (w_log w) recv gkey firing resolved (NflogStore ctx) expiry
                         (o_log o) (o_log2 o) in
      Some (set_log l w, (ctx, alerts, ErrNflog <$> err))
  end.

(** ** mute.go *)
Class Muter := { Mutes : M → Context → LabelSet → M * bool }.

Fixpoint mute_loop `{Muter} (ctx : Context) (m : M) (alerts : list Alert)
    : M * list Alert * list Alert :=
  match alerts with
  | [] => (m, [], [])
  | a :: alerts =>
      let '(m, b) := Mutes m ctx (Labels a) in
      let '(m, filtered, muted) := mute_loop ctx m alerts in
      if b : bool then (m, filtered, a :: muted) else (m, a :: filtered, muted)
  end.

Definition MuteStage_Exec (muter : Muter) : Stage := λ w ctx alerts,
  let '(m, filtered, muted) := mute_loop ctx (w_muters w) alerts in
  let ctx :=
    match muted with
    | [] => ctx
    | _ => WithMutedAlerts ctx (default ∅ (MutedAlerts ctx) ∪ list_to_set (hashAlert <$> muted))
    end in
  Some (set_muters m w, (ctx, filtered, None)).

(** A [TimeMuter]: whether one of the named intervals contains the instant, and
    which ones, or an error for an unknown name. *)
Definition TimeMuter : Type := list string → time → option (bool * list string).

Definition TimeMuteStage_Exec (muter : TimeMuter) : Stage := λ w ctx alerts,
  match RouteID ctx, GroupKey ctx with
  | None, _ => Some (w, (ctx, [], Some ErrRouteIDMissing))
  | _, None => Some (w, (ctx, [], Some ErrGroupKeyMissing))
  | Some routeID, Some gkey =>
      let mark names := set_groups (Marker.SetMuted (w_groups w) routeID gkey names) w in
      match MuteTimeIntervalNames ctx, Now ctx with
      | None, _ => Some (mark [], (ctx, alerts, None))
      | _, None => Some (mark [], (ctx, alerts, Some ErrNowMissing))
      | Some [], _ => Some (mark [], (ctx, alerts, None))
      | Some names, Some now =>
          match muter names now with
          | None => Some (w, (ctx, alerts, Some ErrTimeInterval))
          | Some (muted, mutedBy) =>
              Some (mark mutedBy, (ctx, if muted : bool then [] else alerts, None))
          end
      end
  end.

Definition TimeActiveStage_Exec (muter : TimeMuter) : Stage := λ w ctx alerts,
  match RouteID ctx, GroupKey ctx with
  | None, _ => Some (w, (ctx, [], Some ErrRouteIDMissing))
  | _, None => Some (w, (ctx, [], Some ErrGroupKeyMissing))
  | Some routeID, Some gkey =>
      let mark names := set_groups (Marker.SetMuted (w_groups w) routeID gkey names) w in
      match ActiveTimeIntervalNames ctx, Now ctx with
      | None, _ => Some (mark [], (ctx, alerts, None))
      | Some [], _ => Some (mark [], (ctx, alerts, None))
      | _, None => Some (mark [], (ctx, alerts, Some ErrNowMissing))
      | Some names, Some now =>
          match muter names now with
          | None => Some (w, (ctx, alerts, Some ErrTimeInterval))
          | Some (active, _) =>
              Some (mark (if active : bool then [] else names),
                    (ctx, if active : bool then alerts else [], None))
          end
      end
  end.

(** ** notify.go: combining stages *)
Fixpoint MultiStage_Exec (ms : list Stage) : Stage := λ w ctx alerts,
  match ms with
  | [] => Some (w, (ctx, alerts, None))
  | s :: ms =>
      match alerts with
      | [] => Some (w, (ctx, [], None))
      | _ =>
          '(w, (ctx, alerts, err)) ← s w ctx alerts;
          match err with
          | Some e => Some (w, (ctx, [], Some e))
          | None => MultiStage_Exec ms w ctx alerts
          end
      end
  end.

(** The stages of a fan-out work on different receivers; they are run here one
    after the other, in the order of the list, each from the same context. *)
Fixpoint fanout_loop (fs : list Stage) (ctx : Context) (alerts : list Alert)
    (w : World) (errs : option error) : option (World * option error) :=
  match fs with
  | [] => Some (w, errs)
  | s :: fs =>
      '(w, (_, _, err)) ← s w ctx alerts;
      fanout_loop fs ctx alerts w
        (match errs, err with
         | Some e1, Some e2 => Some (ErrJoin e1 e2)
         | Some e, None | None, Some e => Some e
         | None, None => None
         end)
  end.

Definition FanoutStage_Exec (fs : list Stage) : Stage := λ w ctx alerts,
  '(w, errs) ← fanout_loop fs ctx alerts w None; Some (w, (ctx, alerts, errs)).

Definition RoutingStage_Exec (rs : gmap string Stage) : Stage := λ w ctx alerts,
  match ReceiverName ctx with
  | None => Some (w, (ctx, [], Some ErrReceiverMissing))
  | Some receiver =>
      match rs !! receiver with
      | None => Some (w, (ctx, [], Some ErrStageMissing))
      | Some s => s w ctx alerts
      end
  end.

(** The receiver of the [i]-th integration ([uint32] conversion of the index). *)
Definition integration_receiver (name : string) (i : Integration) : Nflog.Receiver :=
  Nflog.mkReceiver name (i_Name i) (Z.to_N (i_Index i mod 2 ^ 32)).

Definition integration_stage (name : string) (i : Integration) (o : oracle) : Stage :=
  let recv := integration_receiver name i in
  MultiStage_Exec
    [ClusterWaitStage_Exec o; DedupStage_Exec (i_SendResolved i) recv o;
     RetryStage_Exec (i_SendResolved i) recv o; SetNotifiesStage_Exec recv o].

(** [createReceiverStage]: each integration runs with its own inputs. *)
Definition createReceiverStage (name : string) (integrations : list (Integration * oracle)) : Stage :=
  FanoutStage_Exec ((λ x, integration_stage name x.1 x.2) <$> integrations).

(** [PipelineBuilder.New], for the inputs of one run. *)
Definition New_pipeline (receivers : gmap string (list (Integration * oracle)))
    (peer : option bool) (inhibitor silencer : Muter) (intervener : TimeMuter)
    : gmap string Stage :=
  map_imap (λ name integrations, Some (MultiStage_Exec
    [ClusterGossipSettleStage_Exec peer; MuteStage_Exec inhibitor;
     TimeActiveStage_Exec intervener; TimeMuteStage_Exec intervener;
     MuteStage_Exec silencer; createReceiverStage name integrations])) receivers.
End notify.
Arguments World M : clear implicits.
End Notify.
