(* ===== verification/NotifyInv.v ===== *)
(** * The notification pipeline: its properties

    When a group is notified again and when not, what retrying does, and how
    the stages compose: no duplicate within the repeat interval, nothing logged
    that was not sent, and the group marker in step with the time intervals. *)

From Stdlib Require Import Ascii String.
From stdpp Require Import base gmap strings list sorting.
From S2P Require Import Prelude Utf8 Labels Lww Silence Alert Nflog Notify.

Import Alert Notify.

Module NotifyInv.

(** ** hashAlert *)
Definition plain_label (x : string * string) : Prop :=
  (sep ∉ bytes x.1) ∧ (sep ∉ bytes x.2).

Lemma label_names_perm ls : label_names ls ≡ₚ (map_to_list ls).*1.
Proof. apply merge_sort_Permutation. Qed.

Definition pairs (ls : LabelSet) : list (string * string) :=
  (λ ln, (ln, label_get ls ln)) <$> label_names ls.

Definition encode_pair (x : string * string) : list Z := bytes x.1 ++ [sep] ++ bytes x.2 ++ [sep].

Lemma hash_input_pairs ls : hash_input ls = concat (map encode_pair (pairs ls)).
Proof. unfold hash_input, pairs. by rewrite map_map. Qed.

Lemma elem_of_pairs ls n v : (n, v) ∈ pairs ls ↔ ls !! n = Some v.
Proof.
  unfold pairs. rewrite list_elem_of_fmap. setoid_rewrite label_names_perm.
  setoid_rewrite list_elem_of_fmap. unfold label_get. split.
  - intros (ln & [= -> ->] & [x y] & -> & Hin%elem_of_map_to_list). cbn. by rewrite Hin.
  - intros Hn. exists n. rewrite Hn. split; [done|]. exists (n, v).
    by rewrite elem_of_map_to_list.
Qed.

(** What precedes the first separator is determined. *)
Lemma sep_prefix_inj (l1 l2 r1 r2 : list Z) :
  sep ∉ l1 → sep ∉ l2 → l1 ++ sep :: r1 = l2 ++ sep :: r2 → l1 = l2 ∧ r1 = r2.
Proof.
  revert l2. induction l1 as [|x l1 IH]; intros [|y l2] H1 H2 E; cbn in *; simplify_eq; try done.
  - destruct H2. by left.
  - destruct H1. by left.
  - rewrite not_elem_of_cons in H1, H2. destruct (IH l2) as [-> ->]; naive_solver.
Qed.

Lemma encode_pair_nonnil x (r : list Z) : encode_pair x ++ r ≠ [].
Proof. unfold encode_pair. by destruct (bytes x.1). Qed.

Lemma encode_pairs_inj ps : ∀ qs,
  Forall plain_label ps → Forall plain_label qs →
  concat (map encode_pair ps) = concat (map encode_pair qs) → ps = qs.
Proof.
  induction ps as [|[n v] ps IH]; intros [|[m u] qs] Hp Hq E; [done|..].
  { symmetry in E. by apply encode_pair_nonnil in E. }
  { by apply encode_pair_nonnil in E. }
  apply Forall_cons_1 in Hp as [[Hn Hv] Hp], Hq as [[Hm Hu] Hq].
  cbn [map concat] in E. unfold encode_pair in E at 1 3. cbn [fst snd] in E.
  rewrite <- !app_assoc in E. cbn [app] in E.
  apply sep_prefix_inj in E as [->%bytes_inj E]; [|done..].
  apply sep_prefix_inj in E as [->%bytes_inj E]; [|done..]. f_equal. by apply IH.
Qed.

(** the bytes that identify an alert in the notification log determine its
    label set: label sets without the byte 0xff (all valid UTF-8 ones) that give
    the same hash input are equal, so two alerts are only confused by a
    collision of the hash function itself. *)
Theorem hash_input_inj l1 l2 :
  (∀ n v, l1 !! n = Some v → plain_label (n, v)) →
  (∀ n v, l2 !! n = Some v → plain_label (n, v)) →
  hash_input l1 = hash_input l2 → l1 = l2.
Proof.
  intros H1 H2. rewrite !hash_input_pairs. intros E%encode_pairs_inj.
  - apply map_eq. intros n. apply option_eq. intros v. by rewrite <- !elem_of_pairs, E.
  - apply Forall_forall. intros [n v] Hin%elem_of_pairs. by apply H1.
  - apply Forall_forall. intros [n v] Hin%elem_of_pairs. by apply H2.
Qed.

(** ** needsUpdate *)

(** When a group has to be notified, given the last notification of it. *)
Definition must_notify (sendResolved : bool) (entry : option Nflog.Entry)
    (firing resolved : gset Z) (repeat_ : duration) (now : time) : Prop :=
  match entry with
  | None => firing ≠ ∅
  | Some e =>
      (¬ firing ⊆ list_to_set (Nflog.FiringAlerts e)) ∨
      (firing = ∅ ∧ Nflog.FiringAlerts e ≠ []) ∨
      (firing ≠ ∅ ∧ sendResolved = true ∧ ¬ (resolved ⊆ list_to_set (Nflog.ResolvedAlerts e))) ∨
      (firing ≠ ∅ ∧ AsTime (Nflog.Timestamp e) + repeat_ < now)
  end.

Lemma isSubset_reflect set subset : reflect (subset ⊆ set) (Nflog.isSubset set subset).
Proof. apply iff_reflect. by rewrite Nflog.isSubset_spec. Qed.

Lemma size_zero (X : gset Z) : bool_decide (size X = 0)%nat = bool_decide (X = ∅).
Proof. apply bool_decide_ext. rewrite size_empty_iff. split; [apply leibniz_equiv|by intros ->]. Qed.

Lemma size_pos (X : gset Z) : bool_decide (0 < size X)%nat = bool_decide (X ≠ ∅).
Proof.
  apply bool_decide_ext. rewrite <- Nat.neq_0_lt_0, size_non_empty_iff.
  by split; intros H E; apply H; [rewrite E|apply leibniz_equiv].
Qed.

Lemma shouldNotify_spec sr entry firing resolved rep now :
  shouldNotify (needsUpdate sr entry firing resolved rep now) = true ↔
  must_notify sr entry firing resolved rep now.
Proof.
  unfold shouldNotify, needsUpdate, must_notify, Nflog.IsFiringSubset, Nflog.IsResolvedSubset.
  rewrite bool_decide_eq_true. destruct entry as [e|].
  - destruct (isSubset_reflect (list_to_set (Nflog.FiringAlerts e)) firing) as [Hf|Hf]; cbn.
    + rewrite size_zero. destruct (bool_decide_reflect (firing = ∅)) as [->|Hne].
      * destruct (Nflog.FiringAlerts e); cbn; naive_solver.
      * destruct (isSubset_reflect (list_to_set (Nflog.ResolvedAlerts e)) resolved) as [Hr|Hr],
          sr, (Before_spec (AsTime (Nflog.Timestamp e)) (now - rep)) as [Hb|Hb]; cbn;
          split; try done; intros; first [naive_solver lia | right; right; naive_solver lia].
    + destruct (Nflog.FiringAlerts e); cbn; naive_solver.
  - rewrite size_pos. case_bool_decide; naive_solver.
Qed.

(** the dedup decision is the documented one: a group is notified exactly
    when it was never notified and something fires; or an alert fires that the
    last notification did not contain; or nothing fires any more and something
    did; or something still fires and, with resolved notifications enabled, an
    alert resolved that was not reported as resolved; or something still fires
    and the repeat interval has passed. *)
Theorem dedup_decision sr entry firing resolved rep now :
  shouldNotify (needsUpdate sr entry firing resolved rep now) = true ↔
  must_notify sr entry firing resolved rep now.
Proof. apply shouldNotify_spec. Qed.

Section notify.
Context `{RE : Regexp, PM : PromModel, XH : XXHash, NC : Nflog.NflogCodec}.
Context {M : Type}.
Implicit Types (w : World M) (ctx : Context) (alerts : list Alert) (recv : Nflog.Receiver).

(** ** Retrying *)
Lemma set_store_fields upd ctx :
  GroupKey (set_store upd ctx) = GroupKey ctx ∧ FiringAlerts (set_store upd ctx) = FiringAlerts ctx ∧
  ResolvedAlerts (set_store upd ctx) = ResolvedAlerts ctx ∧
  RepeatInterval (set_store upd ctx) = RepeatInterval ctx.
Proof. unfold set_store. by destruct (NflogStore ctx). Qed.

(** The attempts of one run: failures, then perhaps one success. *)
Definition attempts_of (recv : Nflog.Receiver) (sent : list Alert) (k : nat) (ok : bool) : list Attempt :=
  replicate k (mkAttempt recv sent false) ++ (if ok then [mkAttempt recv sent true] else []).

Lemma retry_loop_spec recv sent alerts rounds : ∀ n iErr w ctx w' ctx' out err,
  retry_loop recv sent alerts rounds n iErr w ctx = Some (w', (ctx', out, err)) →
  ∃ k ok, w_attempts w' = w_attempts w ++ attempts_of recv sent k ok ∧
    (ok = true ↔ err = None) ∧ (ok = true → out = alerts) ∧
    w_log w' = w_log w ∧ w_groups w' = w_groups w ∧
    GroupKey ctx' = GroupKey ctx ∧ FiringAlerts ctx' = FiringAlerts ctx ∧
    ResolvedAlerts ctx' = ResolvedAlerts ctx ∧ RepeatInterval ctx' = RepeatInterval ctx.
Proof.
  induction rounds as [|[e|[|[] code] dn upd|] rounds IH]; intros n iErr w ctx w' ctx' out err; cbn.
  - done.
  - intros [= <- <- <- <-]. exists 0%nat, false. rewrite app_nil_r. naive_solver.
  - intros [= <- <- <- <-]. exists 0%nat, true. destruct (set_store_fields upd ctx). naive_solver.
  - intros (k & ok & Ha & Hok & Hout & Hl & Hg & Hc)%IH. exists (S k), ok.
    destruct (set_store_fields upd ctx) as (E1 & E2 & E3 & E4). cbn in Ha, Hl, Hg.
    rewrite E1, E2, E3, E4 in Hc. rewrite Ha, <- app_assoc. naive_solver.
  - intros [= <- <- <- <-]. exists 1%nat, false. destruct (set_store_fields upd ctx). naive_solver.
  - apply IH.
Qed.

(** retrying is well behaved: whatever happens, all attempts of one run go
    to the same receiver with the same alerts, there is at most one successful
    attempt and it is the last one, the stage reports success exactly when it
    happened, and neither the log nor the markers are touched. *)
Theorem retry_at_most_one_success recv sent alerts rounds w ctx w' ctx' out err :
  retry_loop recv sent alerts rounds 0 None w ctx = Some (w', (ctx', out, err)) →
  ∃ k ok, w_attempts w' = w_attempts w ++ attempts_of recv sent k ok ∧
    (ok = true ↔ err = None) ∧ w_log w' = w_log w ∧ w_groups w' = w_groups w.
Proof. intros (k & ok & H)%retry_loop_spec. exists k, ok. naive_solver. Qed.

(** ** One integration's stages *)
Definition firing_of (o : oracle) alerts : list Z := (partitionAlertsByState (o_at o) alerts).1.
Definition resolved_of (o : oracle) alerts : list Z := (partitionAlertsByState (o_at o) alerts).2.

(** What the log says about a receiver's group. *)
Definition logged (l : Nflog.Log) (gkey : string) recv : option Nflog.Entry :=
  Nflog.Ent <$> Nflog.st l !! Nflog.stateKey gkey recv.

Lemma Query_logged l gkey recv :
  gkey ≠ ""%string →
  Nflog.Query l [Nflog.QGroupKey gkey; Nflog.QReceiver recv] =
    match logged l gkey recv with Some e => Ok [e] | None => Err Nflog.ErrNotFound end.
Proof.
  intros Hg. unfold Nflog.Query, logged. cbn. rewrite bool_decide_eq_false_2 by done.
  by destruct (Nflog.st l !! _).
Qed.

(** The dedup stage passes all alerts on or none, and changes nothing. *)
Lemma DedupStage_spec sr recv o w ctx alerts gkey rep :
  gkey ≠ ""%string → GroupKey ctx = Some gkey → RepeatInterval ctx = Some rep →
  ∃ ctx', DedupStage_Exec sr recv o w ctx alerts =
      Some (w, (ctx', if shouldNotify (needsUpdate sr (logged (w_log w) gkey recv)
                          (list_to_set (firing_of o alerts)) (list_to_set (resolved_of o alerts))
                          rep (default (o_now o) (Now ctx)))
                      then alerts else [], None)) ∧
    GroupKey ctx' = Some gkey ∧ RepeatInterval ctx' = Some rep ∧
    FiringAlerts ctx' = Some (firing_of o alerts) ∧ ResolvedAlerts ctx' = Some (resolved_of o alerts).
Proof.
  intros Hne Hg Hr. unfold DedupStage_Exec, firing_of, resolved_of. rewrite Hg, Hr, Query_logged by done.
  destruct (partitionAlertsByState (o_at o) alerts) as [firing resolved].
  destruct (logged (w_log w) gkey recv); eexists; (split; [reflexivity|]); done.
Qed.

(** The retry stage changes nothing but the record of attempts. *)
Lemma RetryStage_spec sr recv o w ctx alerts w' ctx' out err :
  RetryStage_Exec sr recv o w ctx alerts = Some (w', (ctx', out, err)) →
  w_log w' = w_log w ∧ GroupKey ctx' = GroupKey ctx ∧ FiringAlerts ctx' = FiringAlerts ctx ∧
  ResolvedAlerts ctx' = ResolvedAlerts ctx ∧ RepeatInterval ctx' = RepeatInterval ctx ∧
  (err = None → out = alerts).
Proof.
  assert (Hloop : ∀ sent rounds,
    retry_loop recv sent alerts rounds 0 None w ctx = Some (w', (ctx', out, err)) →
    w_log w' = w_log w ∧ GroupKey ctx' = GroupKey ctx ∧ FiringAlerts ctx' = FiringAlerts ctx ∧
    ResolvedAlerts ctx' = ResolvedAlerts ctx ∧ RepeatInterval ctx' = RepeatInterval ctx ∧
    (err = None → out = alerts)).
  { intros sent rounds (k & ok & _ & Hok & Hout & Hl & _ & H)%retry_loop_spec. naive_solver. }
  unfold RetryStage_Exec.
  destruct sr; [apply Hloop|]. destruct (FiringAlerts ctx) as [[|h f]|] eqn:Hf; [|apply Hloop|];
    intros [= <- <- <- <-]; naive_solver.
Qed.

(** A run of an integration's stages that got through logged what it saw; any
    other run leaves the log alone. *)
Lemma integration_run name i o w ctx alerts w' ctx' out err gkey rep :
  gkey ≠ ""%string → GroupKey ctx = Some gkey → RepeatInterval ctx = Some rep →
  integration_stage name i o w ctx alerts = Some (w', (ctx', out, err)) →
  w_log w' = w_log w ∨
  (err = None ∧ ∃ store,
    Nflog.Log_ (w_log w) (integration_receiver name i) gkey (firing_of o alerts)
      (resolved_of o alerts) store (2 * rep) (o_log o) (o_log2 o) = (w_log w', None)).
Proof.
  intros Hne Hg Hr. unfold integration_stage. cbn [MultiStage_Exec].
  destruct alerts as [|a alerts]; [intros [= <- <- <- <-]; by left|]. unfold ClusterWaitStage_Exec.
  destruct (o_wait o); cbn [mbind option_bind]; [intros [= <- <- <- <-]; by left|].
  destruct (DedupStage_spec (i_SendResolved i) (integration_receiver name i) o w ctx (a :: alerts)
    gkey rep Hne Hg Hr) as (ctx1 & -> & Hg1 & Hr1 & Hf1 & Hre1). cbn [mbind option_bind].
  destruct (shouldNotify _); [|intros [= <- <- <- <-]; by left].
  destruct (RetryStage_Exec _ _ _ _ _ _) as [[w2 [[ctx2 out2] err2]]|] eqn:Hretry; [|done].
  apply RetryStage_spec in Hretry as (Hl & Eg & Ef & Ere & Er & Hout). cbn [mbind option_bind].
  destruct err2 as [e|]; [intros [= <- <- <- <-]; by left|].
  rewrite (Hout eq_refl). unfold SetNotifiesStage_Exec. rewrite Eg, Ef, Ere, Er, Hg1, Hf1, Hre1, Hr1.
  rewrite Hl. destruct (Nflog.Log_ _ _ _ _ _ _ _ _ _) as [l err3] eqn:Hlog. cbn [mbind option_bind].
  destruct err3 as [e|]; cbn; intros [= <- <- <- <-]; cbn.
  - left. unfold Nflog.Log_ in Hlog. destruct (match Nflog.st (w_log w) !! _ with Some _ => _ | _ => _ end);
      [done|]. destruct (Nflog.marshalMeshEntry _); [done|]. by injection Hlog.
  - right. split; [done|]. eauto.
Qed.

(** A run that has nothing to notify does nothing. *)
Lemma integration_quiet name i o w ctx alerts gkey rep e :
  gkey ≠ ""%string → GroupKey ctx = Some gkey → RepeatInterval ctx = Some rep → o_wait o = None →
  logged (w_log w) gkey (integration_receiver name i) = Some e →
  ¬ must_notify (i_SendResolved i) (Some e) (list_to_set (firing_of o alerts))
      (list_to_set (resolved_of o alerts)) rep (default (o_now o) (Now ctx)) →
  ∃ ctx', integration_stage name i o w ctx alerts = Some (w, (ctx', [], None)).
Proof.
  intros Hne Hg Hr Hw He Hquiet. unfold integration_stage. cbn [MultiStage_Exec].
  destruct alerts as [|a alerts]; [eauto|]. unfold ClusterWaitStage_Exec. rewrite Hw.
  cbn [mbind option_bind].
  destruct (DedupStage_spec (i_SendResolved i) (integration_receiver name i) o w ctx (a :: alerts)
    gkey rep Hne Hg Hr) as (ctx1 & -> & _). cbn [mbind option_bind]. rewrite He.
  rewrite <- shouldNotify_spec, not_true_iff_false in Hquiet. rewrite Hquiet. cbn. eauto.
Qed.

(** C3: no duplicate notifications: once an integration's stages have run to
    the end for a group and logged its alerts, every run for the group in a later
    world whose log still has that entry, whatever else has changed, ends without
    any attempt to notify and leaves its world as it is, provided that it finds
    no firing and no resolved alert that the first run had not seen, that it does
    not find all firing alerts gone, and that its repeat interval since the entry
    is not over.  (The first run is assumed to have used a clock after the
    timestamp of an earlier entry and to have written within the retention.) *)
Theorem pipeline_no_duplicate name i o w ctx alerts w1 ctx1 out gkey rep w' o' ctx' alerts' rep' :
  gkey ≠ ""%string → GroupKey ctx = Some gkey → RepeatInterval ctx = Some rep → 0 < rep →
  0 < Nflog.retention (w_log w) →
  (∀ prev, logged (w_log w) gkey (integration_receiver name i) = Some prev →
     AsTime (Nflog.Timestamp prev) < o_log o) →
  o_log2 o ≤ o_log o + Z.min (Nflog.retention (w_log w)) (2 * rep) →
  integration_stage name i o w ctx alerts = Some (w1, (ctx1, out, None)) →
  w_log w1 ≠ w_log w →
  logged (w_log w') gkey (integration_receiver name i) =
    logged (w_log w1) gkey (integration_receiver name i) →
  GroupKey ctx' = Some gkey → RepeatInterval ctx' = Some rep' → o_wait o' = None →
  (firing_of o' alerts' = [] → firing_of o alerts = []) →
  firing_of o' alerts' ⊆ firing_of o alerts → resolved_of o' alerts' ⊆ resolved_of o alerts →
  default (o_now o') (Now ctx') ≤ o_log o + rep' →
  ∃ ctx2, integration_stage name i o' w' ctx' alerts' = Some (w', (ctx2, [], None)).
Proof.
  intros Hne Hg Hr Hrep Hret Hprev Hl2 Hrun Hdiff Hlog' Hg' Hr' Hw' Hf' Hfs Hrs Hnow.
  destruct (integration_run _ _ _ _ _ _ _ _ _ _ gkey rep Hne Hg Hr Hrun) as [?|[_ [store Hlog]]]; [done|].
  apply NflogInv.Log_then_Query in Hlog as [Hq _]; [|done..| |].
  - rewrite NflogInv.Query_key in Hq by done.
    destruct (Nflog.st (w_log w1) !! _) as [m|] eqn:Hm; [|done]. injection Hq as Hq.
    apply integration_quiet with gkey rep' (Nflog.Ent m); try done.
    { rewrite Hlog'. unfold logged. by rewrite Hm. }
    rewrite Hq. unfold must_notify. cbn. intros [H|[H|[(_ & _ & H)|[_ H]]]].
    + apply H. set_solver.
    + destruct H as [H1 H2]. destruct (firing_of o' alerts') as [|x l]; [|set_solver].
      rewrite Hf' in H2 by done. done.
    + apply H. set_solver.
    + lia.
  - intros prev Hp. apply Hprev. unfold logged. by rewrite Hp.
  - destruct (Z.ltb_spec 0 (2 * rep)); lia.
Qed.

(** a failed notification is not forgotten: when the stages of an
    integration end with an error, the notification log is exactly as before,
    so the next flush decides as if the failed run had not happened. *)
Theorem pipeline_failure_keeps_log name i o w ctx alerts w' ctx' out e gkey rep :
  gkey ≠ ""%string → GroupKey ctx = Some gkey → RepeatInterval ctx = Some rep →
  integration_stage name i o w ctx alerts = Some (w', (ctx', out, Some e)) →
  w_log w' = w_log w.
Proof. intros Hne Hg Hr Hrun. by destruct (integration_run _ _ _ _ _ _ _ _ _ _ _ _ Hne Hg Hr Hrun) as [?|[? _]]. Qed.

(** ** Time intervals and the group marker *)

(** The effect of the two time stages on a group with alerts, for a muter that
    answers whether [inside] holds of the names and with the names found. *)
Section time_stages.
Context (muter : TimeMuter) (now : time) (inside : list string → Prop).
Hypothesis muter_spec : ∀ names b by_,
  muter names now = Some (b, by_) → (b = true ↔ by_ ≠ []) ∧ (b = true ↔ inside names).
Hypothesis inside_nil : ¬ inside [].

Definition marked (w : World M) (routeID gkey : string) : Prop :=
  (Marker.Muted (w_groups w) routeID gkey).2 = true.

Lemma marked_SetMuted w routeID gkey names :
  marked (set_groups (Marker.SetMuted (w_groups w) routeID gkey names) w) routeID gkey ↔ names ≠ [].
Proof.
  unfold marked, Marker.Muted, Marker.SetMuted. cbn. rewrite lookup_insert_eq. cbn.
  apply bool_decide_eq_true.
Qed.

Lemma TimeMuteStage_spec w ctx alerts w' ctx' out routeID gkey mutes :
  RouteID ctx = Some routeID → GroupKey ctx = Some gkey → Now ctx = Some now →
  MuteTimeIntervalNames ctx = Some mutes → alerts ≠ [] →
  TimeMuteStage_Exec muter w ctx alerts = Some (w', (ctx', out, None)) →
  (out = [] ∨ out = alerts) ∧ (out = [] ↔ inside mutes) ∧ (marked w' routeID gkey ↔ out = []).
Proof using muter_spec inside_nil.
  intros Hid Hg Hn Hmu Hne. unfold TimeMuteStage_Exec. rewrite Hid, Hg, Hmu, Hn.
  destruct mutes as [|n names].
  - intros [= <- <- <-]. rewrite marked_SetMuted. naive_solver.
  - destruct (muter _ now) as [[b by_]|] eqn:Hb; [|done]. apply muter_spec in Hb as [Hb1 Hb2].
    intros [= <- <- <-]. rewrite marked_SetMuted. destruct b; naive_solver.
Qed.

Lemma time_stages_spec w ctx alerts w' ctx' out routeID gkey mutes actives :
  RouteID ctx = Some routeID → GroupKey ctx = Some gkey → Now ctx = Some now →
  MuteTimeIntervalNames ctx = Some mutes → ActiveTimeIntervalNames ctx = Some actives →
  alerts ≠ [] →
  MultiStage_Exec [TimeActiveStage_Exec muter; TimeMuteStage_Exec muter] w ctx alerts =
    Some (w', (ctx', out, None)) →
  (out = [] ∨ out = alerts) ∧
  (out = [] ↔ (actives ≠ [] ∧ ¬ inside actives) ∨ inside mutes) ∧
  (marked w' routeID gkey ↔ out = []).
Proof using muter_spec inside_nil.
  intros Hid Hg Hn Hmu Hac Hne. destruct alerts as [|a alerts]; [done|]. cbn [MultiStage_Exec].
  assert (Hmute : ∀ w0,
    ('(w1, (ctx1, al, err)) ← TimeMuteStage_Exec muter w0 ctx (a :: alerts);
      match err with Some e => Some (w1, (ctx1, [], Some e)) | None => Some (w1, (ctx1, al, None)) end)
      = Some (w', (ctx', out, None)) →
    (out = [] ∨ out = a :: alerts) ∧ (out = [] ↔ inside mutes) ∧ (marked w' routeID gkey ↔ out = [])).
  { intros w0. destruct (TimeMuteStage_Exec muter w0 ctx (a :: alerts))
      as [[w1 [[c1 al] [e|]]]|] eqn:E; cbn; [done| |done].
    intros [= <- <- <-]. by apply (TimeMuteStage_spec w0 ctx _ w1 c1). }
  unfold TimeActiveStage_Exec at 1. rewrite Hid, Hg, Hac, Hn.
  destruct actives as [|n names]; [intros H%Hmute; naive_solver|]. cbn [mbind option_bind].
  destruct (muter _ now) as [[b by_]|] eqn:Hb; cbn [mbind option_bind]; [|done].
  apply muter_spec in Hb as [_ Hb]. destruct b.
  - intros H%Hmute. naive_solver.
  - intros [= <- <- <-]. rewrite marked_SetMuted. naive_solver.
Qed.
End time_stages.
End notify.
End NotifyInv.

(** * Delivery

    The retry loop (notify/retry_stage.go) has no bound of its own: it goes on
    until the notifier succeeds, an error is final or the context ends.  The
    events of a run are an infinite sequence here; a run with enough of it
    returns. *)
Import Alert Notify NotifyInv.

Module PipelineLive.
Section live.
Context `{RE : Regexp, PM : PromModel, XH : XXHash, NC : Nflog.NflogCodec}.
Context {M : Type}.
Implicit Types (w : World M) (ctx : Context) (alerts : list Alert) (recv : Nflog.Receiver).

(** Rounds after which the loop goes on. *)
Definition retryable (r : round) : bool :=
  match r with
  | RoundTick (NotifyError true _) _ _ | RoundWake => true
  | _ => false
  end.
Definition succeeds (r : round) : bool :=
  match r with RoundTick NotifySuccess _ _ => true | _ => false end.

(** The first [k] rounds of a run. *)
Definition with_rounds (rounds : nat → round) (k : nat) (o : oracle) : oracle :=
  mkOracle (o_wait o) (o_at o) (o_now o) (rounds <$> seq 0 k) (o_log o) (o_log2 o).

(** What the notifier is given. *)
Definition sent_of (i : Integration) (o : oracle) alerts : list Alert :=
  if i_SendResolved i then alerts else List.filter (λ a, negb (Resolved a (o_at o a))) alerts.

Lemma retry_loop_returns recv sent alerts pre r post : ∀ n iErr w ctx,
  Forall (λ r, retryable r = true) pre → succeeds r = true →
  ∃ w' ctx', retry_loop recv sent alerts (pre ++ r :: post) n iErr w ctx = Some (w', (ctx', alerts, None)).
Proof.
  intros n iErr w ctx Hpre Hr. revert n iErr w ctx.
  induction Hpre as [|x pre Hx _ IH]; intros n iErr w ctx; cbn [app].
  - destruct r as [e|[|] d upd|]; [done| |done|done]. cbn. eauto.
  - destruct x as [e|[|[] code] d upd|]; cbn [retry_loop]; try done; apply IH.
Qed.

Lemma rounds_split (rounds : nat → round) n k :
  (n < k)%nat → rounds <$> seq 0 k = (rounds <$> seq 0 n) ++ rounds n :: (rounds <$> seq (S n) (k - S n)).
Proof.
  intros Hk. replace k with (n + S (k - S n))%nat at 1 by lia. by rewrite seq_app, fmap_app.
Qed.

(** Logging a notification newer than the last one succeeds and is what the log
    then says. *)
Lemma Log_recorded l recv gkey firing resolved store rep now now2 :
  gkey ≠ ""%string → (∀ e, is_ok (Nflog.marshalMeshEntry e) = true) → 0 < Nflog.retention l → 0 < rep →
  (∀ prev, logged l gkey recv = Some prev → AsTime (Nflog.Timestamp prev) < now) →
  now2 ≤ now + Z.min (Nflog.retention l) (2 * rep) →
  ∃ l', Nflog.Log_ l recv gkey firing resolved store (2 * rep) now now2 = (l', None) ∧
    logged l' gkey recv = Some (Nflog.mkEntry gkey recv (Some now) firing resolved (default ∅ store)).
Proof.
  intros Hne Hmarsh Hret Hrep Hprev Hnow2.
  destruct (Nflog.Log_ l recv gkey firing resolved store (2 * rep) now now2) as [l' err] eqn:HLog.
  assert (err = None) as ->.
  { unfold Nflog.Log_ in HLog. destruct (match _ with Some _ => _ | None => _ end); [congruence|].
    pose proof (Hmarsh (Nflog.new_entry l recv gkey firing resolved store (2 * rep) now)) as Hm.
    destruct (Nflog.marshalMeshEntry _); [congruence|done]. }
  exists l'. split; [done|]. apply NflogInv.Log_then_Query in HLog as [Hq _]; [|done|done| |].
  - rewrite NflogInv.Query_key in Hq by done. unfold logged.
    destruct (Nflog.st l' !! Nflog.stateKey gkey recv) as [m|]; [|done]. injection Hq as Hq. cbn. by rewrite Hq.
  - intros prev Hp. apply Hprev. unfold logged. by rewrite Hp.
  - destruct (Z.ltb_spec 0 (2 * rep)); lia.
Qed.

(** C4: A due notification is delivered and recorded: when a group must be notified, the context
    does not end during the cluster wait, and the notifier's answers are retryable errors up to a
    success, then the stages of the integration return after finitely many rounds and without an
    error, the last attempt of the run is that success with all the due alerts, and the notification
    log has the group's firing and resolved alerts as of the time of logging. *)
Theorem due_notification_delivered name i o w ctx alerts gkey rep rounds n :
  gkey ≠ ""%string → GroupKey ctx = Some gkey → RepeatInterval ctx = Some rep → alerts ≠ [] →
  o_wait o = None →
  must_notify (i_SendResolved i) (logged (w_log w) gkey (integration_receiver name i))
    (list_to_set (firing_of o alerts)) (list_to_set (resolved_of o alerts)) rep (default (o_now o) (Now ctx)) →
  i_SendResolved i = true ∨ firing_of o alerts ≠ [] →
  (∀ m, (m < n)%nat → retryable (rounds m) = true) → succeeds (rounds n) = true →
  (∀ e, is_ok (Nflog.marshalMeshEntry e) = true) →
  0 < Nflog.retention (w_log w) → 0 < rep →
  (∀ prev, logged (w_log w) gkey (integration_receiver name i) = Some prev →
     AsTime (Nflog.Timestamp prev) < o_log o) →
  o_log2 o ≤ o_log o + Z.min (Nflog.retention (w_log w)) (2 * rep) →
  ∃ bound, ∀ k, (bound ≤ k)%nat → ∃ w' ctx' failures e,
    integration_stage name i (with_rounds rounds k o) w ctx alerts = Some (w', (ctx', alerts, None)) ∧
    w_attempts w' = w_attempts w ++ attempts_of (integration_receiver name i) (sent_of i o alerts) failures true ∧
    logged (w_log w') gkey (integration_receiver name i) = Some e ∧
    Nflog.Timestamp e = Some (o_log o) ∧
    Nflog.FiringAlerts e = firing_of o alerts ∧ Nflog.ResolvedAlerts e = resolved_of o alerts.
Proof.
  intros Hne Hg Hr Hal Hw Hdue Hsend Hpre Hsucc Hmarsh Hret Hrep Hprev Hl2.
  exists (S n). intros k Hk. set (recv := integration_receiver name i) in *.
  set (o' := with_rounds rounds k o).
  destruct (DedupStage_spec (i_SendResolved i) recv o' w ctx alerts gkey rep Hne Hg Hr)
    as (ctx1 & Hdedup & Hg1 & Hr1 & Hf1 & Hre1).
  apply shouldNotify_spec in Hdue. change (firing_of o' alerts) with (firing_of o alerts) in *.
  change (resolved_of o' alerts) with (resolved_of o alerts) in *. change (o_now o') with (o_now o) in *.
  rewrite Hdue in Hdedup.
  destruct (retry_loop_returns recv (sent_of i o alerts) alerts (rounds <$> seq 0 n) (rounds n)
    (rounds <$> seq (S n) (k - S n)) 0 None w ctx1) as (w2 & ctx2 & Hloop); [|done|].
  { apply Forall_fmap, Forall_forall. intros m [_ Hm]%elem_of_seq. by apply Hpre. }
  rewrite <-rounds_split in Hloop by lia.
  assert (Hretry : RetryStage_Exec (i_SendResolved i) recv o' w ctx1 alerts = Some (w2, (ctx2, alerts, None))).
  { unfold RetryStage_Exec, sent_of in *. destruct (i_SendResolved i); [exact Hloop|]. rewrite Hf1.
    destruct (firing_of o alerts); [naive_solver|exact Hloop]. }
  apply retry_loop_spec in Hloop as (fails & ok & Hatt & Hok & _ & Hlog & _ & Eg & Ef & Ere & Er).
  assert (ok = true) as -> by by apply Hok.
  destruct (Log_recorded (w_log w) recv gkey (firing_of o alerts) (resolved_of o alerts) (NflogStore ctx2) rep
    (o_log o) (o_log2 o)) as (l & HLog & Hlogged); [done..|].
  eexists (set_log l w2), ctx2, fails, _. split_and!; [|done|exact Hlogged|done..].
  unfold integration_stage. destruct alerts as [|a alerts]; [done|]. fold recv.
  cbn [MultiStage_Exec]. unfold ClusterWaitStage_Exec. change (o_wait o') with (o_wait o). rewrite Hw.
  cbn [mbind option_bind]. rewrite Hdedup. cbn [mbind option_bind]. rewrite Hretry. cbn [mbind option_bind].
  unfold SetNotifiesStage_Exec. rewrite Eg, Ef, Ere, Er, Hg1, Hf1, Hre1, Hr1, Hlog. cbn [o_log o_log2 o' with_rounds].
  rewrite HLog. done.
Qed.
End live.
End PipelineLive.
