(* ===== verification/NotifyUtil.v ===== *)
(** * Helpers of the notifiers (notify/util.go)

    Truncation of messages to the size a receiver accepts, and the
    classification of HTTP responses.  A Go string is its list of bytes here. *)

From Stdlib Require Import Ascii String.
From stdpp Require Import base strings list pretty.
From S2P Require Import Prelude Utf8.

Module NotifyUtil.

(** The ellipsis, in UTF-8. *)
Definition truncationMarker : list Z := [226; 128; 166].

(** [r[:k]] of a slice with elements [r] and capacity [cap]: a slice expression
    may reach beyond the length, into zero elements, up to the capacity; beyond
    it the program panics ([None]). *)
Definition reslice (r : list rune) (cap : nat) (k : Z) : option (list rune) :=
  if (0 <=? k) && (k <=? Z.of_nat cap)
  then Some (take (Z.to_nat k) (r ++ replicate (cap - length r) 0)) else None.

Definition TruncateInRunes (s : list Z) (n : Z) (cap : nat) : option (list Z * bool) :=
  let r := runes s in
  if Z.of_nat (length r) <=? n then Some (s, false)
  else if n <=? 3 then r' ← reslice r cap n; Some (encode_runes r', true)
  else r' ← reslice r cap (n - 1); Some (encode_runes r' ++ truncationMarker, true).

(** The loop that drops runes until the encoding fits. *)
Fixpoint trim (r : list rune) (target : Z) (k : nat) : list rune :=
  if Z.of_nat (length (encode_runes (take k r))) <=? target then take k r
  else match k with
       | O => []
       | S k => trim r target k
       end.

(** [TruncateInBytes]; [cap] is the capacity of the slice made by the
    conversion of the string to runes. *)
Definition TruncateInBytes (s : list Z) (n : Z) (cap : nat) : option (list Z * bool) :=
  if Z.of_nat (length s) <=? n then Some (s, false)
  else if n <=? 3 then
    if n =? 3 then Some (truncationMarker, true)
    else if n <? 0 then None
    else Some (replicate (Z.to_nat n) 46, true)
  else
    let r := runes s in
    let truncationTarget := n - 3 in
    truncatedRunes ← reslice r cap truncationTarget;
    Some (encode_runes (trim truncatedRunes truncationTarget (length truncatedRunes))
            ++ truncationMarker, true).

(** ** HTTP status codes *)
Record Retrier := mkRetrier { RetryCodes : list Z }.

(** [Check]; [details] is what the details function or the body gives. *)
Definition Check (r : Retrier) (statusCode : Z) (details : string) : bool * option string :=
  if Z.quot statusCode 100 =? 2 then (false, None)
  else
    let retry := (Z.quot statusCode 100 =? 5) || bool_decide (statusCode ∈ RetryCodes r) in
    let s := "unexpected status code " +:+ pretty statusCode in
    (retry, Some (if bool_decide (details = ""%string) then s else s +:+ ": " +:+ details)).

Inductive Reason :=
| DefaultReason | ClientErrorReason | ServerErrorReason | ContextCanceledReason
| ContextDeadlineExceededReason | AuthErrorReason | RateLimitedReason.

Definition Reason_String (s : Reason) : string :=
  match s with
  | DefaultReason => "other"
  | ClientErrorReason => "clientError"
  | ServerErrorReason => "serverError"
  | ContextCanceledReason => "contextCanceled"
  | ContextDeadlineExceededReason => "contextDeadlineExceeded"
  | AuthErrorReason => "authError"
  | RateLimitedReason => "rateLimited"
  end.

Definition GetFailureReasonFromStatusCode (statusCode : Z) : Reason :=
  if (statusCode =? 401) || (statusCode =? 403) then AuthErrorReason
  else if statusCode =? 429 then RateLimitedReason
  else if Z.quot statusCode 100 =? 4 then ClientErrorReason
  else if Z.quot statusCode 100 =? 5 then ServerErrorReason
  else DefaultReason.

(** ** Properties *)

(** A decoded rune takes at least as many bytes when it is encoded again. *)
Lemma DecodeRune_EncodeRune_width bs :
  Forall is_byte bs → ((DecodeRune bs).2 ≤ length (EncodeRune (DecodeRune bs).1))%nat.
Proof.
  intros Hb. unfold DecodeRune. destruct bs as [|b0 rest]; [cbn; lia|].
  apply Forall_cons_1 in Hb as [Hb0 Hrest]. unfold is_byte in Hb0.
  destruct (Z.ltb_spec b0 128); [cbn [fst snd]; unfold EncodeRune; between_cases; cbn; lia|].
  assert (Herr : (1 ≤ length (EncodeRune RuneError))%nat) by (vm_compute; lia).
  unfold first_info. between_cases; destruct rest as [|b1 [|b2 [|b3 rest]]]; try exact Herr;
    repeat (apply Forall_cons_1 in Hrest as [? Hrest]); unfold is_byte in *;
    unfold cont; between_cases; try exact Herr; cbn [fst snd];
    unfold EncodeRune, is_surrogate; between_cases; cbn; lia.
Qed.

Lemma runes_fuel_length fuel : ∀ bs,
  Forall is_byte bs → (length bs ≤ fuel)%nat →
  (length bs ≤ length (encode_runes (runes_fuel fuel bs)))%nat.
Proof.
  induction fuel as [|fuel IH]; intros bs Hb Hf; [destruct bs; cbn in *; lia|].
  destruct bs as [|b bs]; [cbn; lia|]. cbn [runes_fuel].
  pose proof (DecodeRune_EncodeRune_width (b :: bs) Hb) as Hw.
  pose proof (DecodeRune_width (b :: bs) ltac:(done)) as Hw'.
  destruct (DecodeRune (b :: bs)) as [r w]. cbn [fst snd] in *.
  rewrite length_encode_runes_cons.
  specialize (IH (drop w (b :: bs)) ltac:(by apply Forall_drop)).
  rewrite length_drop in IH. specialize (IH ltac:(lia)). lia.
Qed.

Lemma length_encode_runes_ge bs :
  Forall is_byte bs → (length bs ≤ length (encode_runes (runes bs)))%nat.
Proof. intros Hb. by apply runes_fuel_length. Qed.

Lemma length_encode_runes_count rs : (length rs ≤ length (encode_runes rs))%nat.
Proof.
  induction rs as [|r rs IH]; [cbn; lia|]. rewrite length_encode_runes_cons.
  pose proof (EncodeRune_nonempty r). destruct (EncodeRune r); [done|]. cbn. lia.
Qed.

Lemma trim_spec r target k :
  0 ≤ target → ∃ j, (j ≤ k)%nat ∧ trim r target k = take j r ∧
    Z.of_nat (length (encode_runes (take j r))) ≤ target ∧
    ∀ i, (j < i ≤ k)%nat → target < Z.of_nat (length (encode_runes (take i r))).
Proof.
  intros Ht. induction k as [|k IH]; cbn [trim].
  - exists 0%nat. destruct (Z.leb_spec (Z.of_nat (length (encode_runes (take 0 r)))) target) as [H|H];
      [|change (encode_runes (take 0 r)) with (@nil Z) in H; cbn in H; lia]. split_and!; try done. intros; lia.
  - destruct (Z.leb_spec (Z.of_nat (length (encode_runes (take (S k) r)))) target) as [H|H].
    + exists (S k). split_and!; try done. intros; lia.
    + destruct IH as (j & Hj & E & Hle & Hgt). exists j. split_and!; try done; [lia|].
      intros i Hi. destruct (decide (i = S k)) as [->|]; [lia|]. apply Hgt. lia.
Qed.

(** truncation to a number of bytes gives the longest rune prefix that
    fits: when the rune slice is large enough for the code's slice expression,
    an oversized string becomes its longest prefix of whole runes that leaves
    room for the ellipsis, and the result never exceeds the limit. *)
Theorem truncate_in_bytes_longest_prefix s n cap :
  Forall is_byte s → 3 < n → n < Z.of_nat (length s) →
  (length (runes s) ≤ cap)%nat → n - 3 ≤ Z.of_nat cap →
  ∃ j, TruncateInBytes s n cap =
      Some (encode_runes (take j (runes s)) ++ truncationMarker, true) ∧
    Z.of_nat (length (encode_runes (take j (runes s)) ++ truncationMarker)) ≤ n ∧
    (j < length (runes s))%nat ∧
    n < Z.of_nat (length (encode_runes (take (S j) (runes s)) ++ truncationMarker)).
Proof.
  intros Hb Hn Hs Hlen Hcap. unfold TruncateInBytes, reslice.
  destruct (Z.leb_spec (Z.of_nat (length s)) n); [lia|]. destruct (Z.leb_spec n 3); [lia|].
  destruct (Z.leb_spec 0 (n - 3)); [|lia]. destruct (Z.leb_spec (n - 3) (Z.of_nat cap)); [|lia].
  cbn [andb mbind option_bind]. set (pad := runes s ++ replicate (cap - length (runes s)) 0).
  set (k := Z.to_nat (n - 3)).
  assert (Hpad : length pad = cap) by (unfold pad; rewrite length_app, length_replicate; lia).
  assert (Hk : length (take k pad) = k) by (rewrite length_take; lia). rewrite Hk.
  destruct (trim_spec (take k pad) (n - 3) k ltac:(lia)) as (j & Hj & -> & Hle & Hgt).
  rewrite take_take, Nat.min_l in * by lia.
  pose proof (length_encode_runes_ge s Hb) as Hge.
  assert (Hjr : (j < length (runes s))%nat).
  { destruct (decide (j < length (runes s))%nat) as [|Hnj]; [done|]. exfalso.
    unfold pad in Hle. rewrite take_app_ge in Hle by lia.
    rewrite encode_runes_app, length_app in Hle. lia. }
  assert (Htake : ∀ i, (i ≤ length (runes s))%nat → take i pad = take i (runes s)).
  { intros i Hi. unfold pad. by rewrite take_app_le. }
  rewrite Htake in * by lia. exists j. split_and!; [done| |done|].
  - rewrite length_app. cbn. lia.
  - rewrite length_app. cbn [length truncationMarker]. destruct (decide (S j ≤ k)%nat) as [Hsj|Hsj].
    + specialize (Hgt (S j) ltac:(lia)). rewrite take_take, Nat.min_l, Htake in Hgt by lia. lia.
    + pose proof (length_encode_runes_count (take (S j) (runes s))) as Hc.
      rewrite length_take in Hc. lia.
Qed.

(** A string of many runes of several bytes: the slice expression with the byte
    count as an index reaches beyond the capacity, and the program panics. *)
Lemma truncate_in_bytes_panics s n cap :
  3 < n → n < Z.of_nat (length s) → Z.of_nat cap < n - 3 → TruncateInBytes s n cap = None.
Proof.
  intros Hn Hs Hcap. unfold TruncateInBytes, reslice.
  destruct (Z.leb_spec (Z.of_nat (length s)) n); [lia|]. destruct (Z.leb_spec n 3); [lia|].
  destruct (Z.leb_spec (n - 3) (Z.of_nat cap)); [lia|]. by rewrite andb_false_r.
Qed.

(** Forty copies of a three-byte rune, limited to 110 bytes: 40 runes are
    converted, but the code slices 107 of them. *)
Definition wide_text : list Z := concat (replicate 40 [226; 130; 172]).

(** truncating a text of multi-byte runes that exceeds the limit panics: the
    rune slice is cut at a position computed in bytes. *)
Example truncate_in_bytes_panics_wide : TruncateInBytes wide_text 110 64 = None.
Proof. vm_compute. reflexivity. Qed.

(** truncation to a number of runes keeps at most that many runes and
    never panics for a non-negative limit. *)
Theorem truncate_in_runes_fits s n cap :
  Forall is_byte s → 0 ≤ n → (length (runes s) ≤ cap)%nat → Forall valid_rune (runes s) →
  ∃ out b, TruncateInRunes s n cap = Some (out, b) ∧
    Z.of_nat (length (runes out)) ≤ n ∧ (b = false → out = s).
Proof.
  intros Hb Hn Hcap Hv. unfold TruncateInRunes, reslice.
  destruct (Z.leb_spec (Z.of_nat (length (runes s))) n); [eauto|].
  assert (Htake : ∀ k, (k ≤ length (runes s))%nat →
    take k (runes s ++ replicate (cap - length (runes s)) 0) = take k (runes s)).
  { intros k Hk. by rewrite take_app_le. }
  destruct (Z.leb_spec n 3).
  - rewrite (proj2 (andb_true_iff _ _)) by (rewrite !Z.leb_le; lia). cbn.
    rewrite Htake by lia. eexists _, _. split; [done|]. split; [|done].
    rewrite runes_encode_runes by by apply Forall_take. rewrite length_take. lia.
  - rewrite (proj2 (andb_true_iff _ _)) by (rewrite !Z.leb_le; lia). cbn.
    rewrite Htake by lia. eexists _, _. split; [done|]. split; [|done].
    change truncationMarker with (encode_runes [8230]). rewrite <- encode_runes_app.
    rewrite runes_encode_runes.
    + rewrite length_app, length_take. cbn. lia.
    + apply Forall_app. split; [by apply Forall_take|]. repeat constructor; cbn; lia.
Qed.

(** HTTP responses are classified by their hundreds: a request succeeded
    exactly for 200 to 299, it is retried exactly for 500 to 599 and the
    configured codes, and a failure always carries a message. *)
Theorem retrier_check r code details :
  let '(retry, err) := Check r code details in
  (err = None ↔ 200 ≤ code ≤ 299) ∧
  (retry = true ↔ ¬ (200 ≤ code ≤ 299) ∧ (500 ≤ code ≤ 599 ∨ code ∈ RetryCodes r)).
Proof.
  unfold Check.
  assert (Hq : ∀ d, 0 < d → (Z.quot code 100 =? d) = true ↔ 100 * d ≤ code ≤ 100 * d + 99).
  { intros d Hd. rewrite Z.eqb_eq. Z.to_euclidean_division_equations. lia. }
  destruct (Z.quot code 100 =? 2) eqn:H2.
  - apply Hq in H2; [|lia]. split; split; try done; lia.
  - assert (¬ 200 ≤ code ≤ 299) by (intros H; apply (Hq 2) in H; [congruence|lia]).
    split; [split; [done|lia]|]. rewrite orb_true_iff, bool_decide_eq_true, (Hq 5) by lia.
    naive_solver lia.
Qed.
End NotifyUtil.
