(* ===== verification/Bucket.v ===== *)
(** * Limit buckets (limit/bucket.go)

    A bucket holds at most [capacity] values with an expiry each, in a binary
    heap (container/heap) with an index from values to heap positions.  The
    index map of the code sends a value to its item, whose field [index] is the
    position that [Swap], [Push] and [Pop] keep up to date; the two are one map
    from values to positions here. *)

From stdpp Require Import base gmap list.
From S2P Require Import Prelude.

Module Bucket.
Section bucket.
Context {V : Type} `{Countable V}.

(** ** container/heap on the bucket's items *)
Record heap := mkHeap {
  h_index : gmap V nat;
  h_items : list (V * time);
}.

Definition prio (h : heap) (k : nat) : time := default 0 (snd <$> h_items h !! k).
Definition Len (h : heap) : nat := length (h_items h).
Definition Less (h : heap) (i j : nat) : bool := Before (prio h i) (prio h j).

Definition Swap (h : heap) (i j : nat) : heap :=
  match h_items h !! i, h_items h !! j with
  | Some x, Some y =>
      mkHeap (<[x.1 := j]> (<[y.1 := i]> (h_index h))) (<[j := x]> (<[i := y]> (h_items h)))
  | _, _ => h
  end.

(** [up]: the position at least halves, so it is enough fuel. *)
Fixpoint up (fuel : nat) (h : heap) (j : nat) : heap :=
  match fuel with
  | O => h
  | S fuel =>
      let i := Nat.div2 (j - 1) in
      if (i =? j)%nat || negb (Less h j i) then h else up fuel (Swap h i j) i
  end.

(** [down] on the first [n] items; returns the final position too. *)
Fixpoint down (fuel : nat) (h : heap) (i n : nat) : heap * nat :=
  match fuel with
  | O => (h, i)
  | S fuel =>
      let j1 := (2 * i + 1)%nat in
      if (n <=? j1)%nat then (h, i) else
      let j2 := S j1 in
      let j := if (j2 <? n)%nat && Less h j2 j1 then j2 else j1 in
      if negb (Less h j i) then (h, i) else down fuel (Swap h i j) j n
  end.

Definition heap_Push (h : heap) (x : V * time) : heap :=
  let n := Len h in
  let h := mkHeap (<[x.1 := n]> (h_index h)) (h_items h ++ [x]) in
  up (S n) h n.

(** [heap.Pop] with the deletion of the popped item from the index. *)
Definition heap_Pop (h : heap) : heap :=
  let n := (Len h - 1)%nat in
  let h := Swap h 0 n in
  let h := (down (S n) h 0 n).1 in
  match h_items h !! n with
  | Some x => mkHeap (delete x.1 (h_index h)) (take n (h_items h))
  | None => h
  end.

Definition heap_Fix (h : heap) (i : nat) : heap :=
  let '(h', i') := down (S (Len h)) h i (Len h) in
  if (i <? i')%nat then h' else up (S i) h' i.

(** ** The bucket *)
Record Bucket := mkBucket {
  b_heap : heap;
  capacity : Z;
}.

Definition NewBucket (cap : Z) : Bucket := mkBucket (mkHeap ∅ []) cap.

Definition expired (priority at_ : time) : bool := Before priority at_.

(** [IsStale] looks at the last element of the heap's array. *)
Definition IsStale (b : Bucket) (now : time) : bool :=
  if (Len (b_heap b) =? 0)%nat then true
  else expired (prio (b_heap b) (Len (b_heap b) - 1)) now.

(** [update] sets the priority of the item at position [i] and repairs. *)
Definition update (h : heap) (i : nat) (value : V) (priority : time) : heap :=
  heap_Fix (mkHeap (h_index h) (<[i := (value, priority)]> (h_items h))) i.

Definition Upsert (b : Bucket) (value : V) (priority now : time) : Bucket * bool :=
  if capacity b <? 1 then (b, false) else
  let h := b_heap b in
  match h_index h !! value with
  | Some i => (mkBucket (update h i value priority) (capacity b), true)
  | None =>
      if Z.of_nat (Len h) <? capacity b then
        (mkBucket (heap_Push h (value, priority)) (capacity b), true)
      else if expired (prio h 0) now then
        (mkBucket (heap_Push (heap_Pop h) (value, priority)) (capacity b), true)
      else (b, false)
  end.

(** ** Well-formedness *)

(** The index and the items describe each other; values are different. *)
Definition linked (h : heap) : Prop :=
  ∀ v k, h_index h !! v = Some k ↔ ∃ p, h_items h !! k = Some (v, p).

Definition child (i k : nat) : Prop := k = (2 * i + 1)%nat ∨ k = (2 * i + 2)%nat.

(** Heap order on the first [n] items. *)
Definition ordered (h : heap) (n : nat) : Prop :=
  ∀ i k, (k < n)%nat → child i k → prio h i ≤ prio h k.

Lemma lookup_some (h : heap) i : (i < Len h)%nat → ∃ x, h_items h !! i = Some x.
Proof. intros Hi. apply lookup_lt_is_Some in Hi as [x Hx]. eauto. Qed.

Lemma Swap_items h i j :
  (i < Len h)%nat → (j < Len h)%nat →
  ∃ x y, h_items h !! i = Some x ∧ h_items h !! j = Some y ∧
    h_items (Swap h i j) = <[j := x]> (<[i := y]> (h_items h)) ∧
    h_index (Swap h i j) = <[x.1 := j]> (<[y.1 := i]> (h_index h)).
Proof.
  intros Hi Hj. destruct (lookup_some h i Hi) as [x Hx], (lookup_some h j Hj) as [y Hy].
  exists x, y. unfold Swap. by rewrite Hx, Hy.
Qed.

Lemma Swap_lookup h i j k :
  (i < Len h)%nat → (j < Len h)%nat →
  h_items (Swap h i j) !! k =
    h_items h !! (if decide (k = i) then j else if decide (k = j) then i else k).
Proof.
  intros Hi Hj. destruct (Swap_items h i j Hi Hj) as (x & y & Hx & Hy & -> & _).
  unfold Len in *. repeat case_decide; subst.
  - destruct (decide (i = j)) as [->|].
    + rewrite list_lookup_insert_eq; [congruence|by rewrite length_insert].
    + rewrite list_lookup_insert_ne, list_lookup_insert_eq by done. congruence.
  - rewrite list_lookup_insert_eq; [congruence|by rewrite length_insert].
  - by rewrite !list_lookup_insert_ne.
Qed.

Lemma Swap_prio h i j k :
  (i < Len h)%nat → (j < Len h)%nat →
  prio (Swap h i j) k = prio h (if decide (k = i) then j else if decide (k = j) then i else k).
Proof. intros Hi Hj. unfold prio. by rewrite Swap_lookup. Qed.

Lemma Swap_Len h i j : Len (Swap h i j) = Len h.
Proof. unfold Swap, Len. repeat case_match; cbn; by rewrite ?length_insert. Qed.

Lemma Swap_perm h i j : h_items (Swap h i j) ≡ₚ h_items h.
Proof.
  unfold Swap. destruct (h_items h !! i) as [x|] eqn:Hx, (h_items h !! j) as [y|] eqn:Hy;
    try done. cbn. by apply Permutation_insert_swap.
Qed.

Lemma linked_inj h i j v p q :
  linked h → h_items h !! i = Some (v, p) → h_items h !! j = Some (v, q) → i = j.
Proof.
  intros Hl Hi Hj. assert (h_index h !! v = Some i) by (apply Hl; eauto).
  assert (h_index h !! v = Some j) by (apply Hl; eauto). congruence.
Qed.

Lemma linked_Swap h i j :
  (i < Len h)%nat → (j < Len h)%nat → linked h → linked (Swap h i j).
Proof.
  intros Hi Hj Hl v k. rewrite Swap_lookup by done.
  destruct (Swap_items h i j Hi Hj) as ([x p] & [y q] & Hx & Hy & _ & ->). cbn [fst].
  destruct (decide (v = x)) as [->|Hvx].
  - rewrite lookup_insert_eq. split.
    + intros [= <-]. exists p. repeat case_decide; congruence.
    + intros [p' Hp]. repeat case_decide; subst; f_equal;
        pose proof (linked_inj h _ _ _ _ _ Hl Hp Hx); congruence.
  - rewrite lookup_insert_ne by done. destruct (decide (v = y)) as [->|Hvy].
    + rewrite lookup_insert_eq. split.
      * intros [= <-]. exists q. case_decide; [done|congruence].
      * intros [p' Hp]. repeat case_decide; subst; f_equal;
          pose proof (linked_inj h _ _ _ _ _ Hl Hp Hy); congruence.
    + rewrite lookup_insert_ne by done. rewrite (Hl v k).
      repeat case_decide; subst; naive_solver congruence.
Qed.

(** Rearranging: same items, index in step. *)
Definition rearranged (h h' : heap) : Prop :=
  h_items h' ≡ₚ h_items h ∧ (linked h → linked h').

Lemma rearranged_refl h : rearranged h h.
Proof. done. Qed.

Lemma rearranged_Swap h i j :
  (i < Len h)%nat → (j < Len h)%nat → rearranged h (Swap h i j).
Proof. intros Hi Hj. split; [apply Swap_perm|by apply linked_Swap]. Qed.

Lemma rearranged_trans h1 h2 h3 : rearranged h1 h2 → rearranged h2 h3 → rearranged h1 h3.
Proof. intros [P1 L1] [P2 L2]. split; [by rewrite P2|auto]. Qed.

Lemma rearranged_Len h h' : rearranged h h' → Len h' = Len h.
Proof. intros [P _]. unfold Len. by rewrite P. Qed.

(** ** up and down restore the order *)
Ltac heap_swap := rewrite !Swap_prio by lia; repeat case_decide; subst; try lia.

Lemma up_spec fuel : ∀ h j,
  (j < fuel)%nat → (j < Len h)%nat →
  (∀ i k, (k < Len h)%nat → child i k → k ≠ j → prio h i ≤ prio h k) →
  (∀ g k, (k < Len h)%nat → child g j → child j k → prio h g ≤ prio h k) →
  ordered (up fuel h j) (Len h) ∧ rearranged h (up fuel h j).
Proof.
  unfold child. induction fuel as [|fuel IH]; intros h j Hf Hj Hord Hgrand; [lia|]. cbn [up].
  destruct (Nat.eqb_spec (Nat.div2 (j - 1)) j) as [Hij|Hij]; cbn [orb].
  { split; [|apply rearranged_refl]. intros i k Hk Hc. apply Hord; [done..|].
    intros ->. pose proof (Nat.div2_odd (j - 1)) as E. rewrite Hij in E.
    destruct (Nat.odd (j - 1)); cbn [Nat.b2n] in E; unfold child in Hc; lia. }
  assert (Hc : j = (2 * Nat.div2 (j - 1) + 1)%nat ∨ j = (2 * Nat.div2 (j - 1) + 2)%nat).
  { pose proof (Nat.div2_odd (j - 1)) as E. destruct (Nat.odd (j - 1)); cbn [Nat.b2n] in E;
      destruct j; cbn in Hij; lia. }
  set (i := Nat.div2 (j - 1)) in *. unfold Less.
  destruct (Before_spec (prio h j) (prio h i)) as [Hlt|Hge]; cbn [negb].
  - destruct (IH (Swap h i j) i) as [Ho Hr]; rewrite ?Swap_Len; [lia|lia|..].
    + intros a k Hk Hak Hki. heap_swap; try (specialize (Hord i k); lia);
        try (specialize (Hgrand i k); lia); specialize (Hord a k); lia.
    + intros g k Hk Hg Hik. heap_swap;
        pose proof (Hord g i); try lia; pose proof (Hord i k); lia.
    + rewrite Swap_Len in Ho. split; [done|]. eapply rearranged_trans; [|exact Hr].
      apply rearranged_Swap; lia.
  - split; [|apply rearranged_refl]. intros a k Hk Hak. unfold child in Hak.
    destruct (decide (k = j)) as [->|]; [|by apply Hord].
    assert (a = i) as -> by lia. lia.
Qed.

Lemma down_noop fuel h i n :
  (∀ k, (k < n)%nat → child i k → prio h i ≤ prio h k) → down fuel h i n = (h, i).
Proof.
  intros Hc. destruct fuel as [|fuel]; cbn [down]; [done|].
  destruct (Nat.leb_spec n (2 * i + 1)); [done|]. unfold Less.
  destruct (Nat.ltb_spec (S (2 * i + 1)) n); cbn [andb].
  - destruct (Before_spec (prio h (S (2 * i + 1))) (prio h (2 * i + 1))).
    + destruct (Before_spec (prio h (S (2 * i + 1))) (prio h i)); [|done].
      specialize (Hc (S (2 * i + 1))). unfold child in Hc. lia.
    + destruct (Before_spec (prio h (2 * i + 1)) (prio h i)); [|done].
      specialize (Hc (2 * i + 1)%nat). unfold child in Hc. lia.
  - destruct (Before_spec (prio h (2 * i + 1)) (prio h i)); [|done].
    specialize (Hc (2 * i + 1)%nat). unfold child in Hc. lia.
Qed.

Lemma down_spec fuel : ∀ h i n,
  (n ≤ Len h)%nat → (n - i < fuel)%nat → (i < Len h)%nat →
  (∀ a k, (k < n)%nat → child a k → a ≠ i → prio h a ≤ prio h k) →
  (∀ g k, (k < n)%nat → child g i → child i k → prio h g ≤ prio h k) →
  ordered (down fuel h i n).1 n ∧ rearranged h (down fuel h i n).1 ∧
  (∀ k, (n ≤ k)%nat → h_items (down fuel h i n).1 !! k = h_items h !! k).
Proof.
  unfold child. induction fuel as [|fuel IH]; intros h i n Hn Hf Hi Hord Hgrand; [lia|]. cbn [down].
  destruct (Nat.leb_spec n (2 * i + 1)) as [Hno|Hj1]; cbn [fst].
  { split_and!; [|apply rearranged_refl|done]. intros a k Hk Hc. apply Hord; [done..|].
    unfold child in Hc. lia. }
  set (j := if (S (2 * i + 1) <? n)%nat && Less h (S (2 * i + 1)) (2 * i + 1)
            then S (2 * i + 1) else (2 * i + 1)%nat).
  assert (Hj : (j = 2 * i + 1 ∨ j = 2 * i + 2)%nat ∧ (j < n)%nat ∧
    ∀ k, (k < n)%nat → (k = 2 * i + 1 ∨ k = 2 * i + 2)%nat → prio h j ≤ prio h k).
  { unfold j, Less. destruct (Nat.ltb_spec (S (2 * i + 1)) n); cbn [andb].
    - destruct (Before_spec (prio h (S (2 * i + 1))) (prio h (2 * i + 1))); split_and!; try lia;
        intros k Hk [->| ->]; rewrite ?(Nat.add_succ_r (2 * i) 1) in *;
        replace (2 * i + 2)%nat with (S (2 * i + 1)) by lia; lia.
    - split_and!; try lia. intros k Hk [->| ->]; lia. }
  clearbody j. destruct Hj as (Hcj & Hjn & Hmin). unfold Less.
  destruct (Before_spec (prio h j) (prio h i)) as [Hlt|Hge]; cbn [negb].
  - destruct (IH (Swap h i j) j n) as (Ho & Hr & Htail); rewrite ?Swap_Len; [lia|lia|lia|..].
    + intros a k Hk Hak Haj. heap_swap; try (specialize (Hmin k); lia);
        try (specialize (Hgrand a j); lia); specialize (Hord a k); lia.
    + intros g k Hk Hg Hjk. heap_swap. specialize (Hord j k). lia.
    + split_and!; [done| |].
      * eapply rearranged_trans; [|exact Hr]. apply rearranged_Swap; lia.
      * intros k Hk. rewrite Htail, Swap_lookup by lia. repeat case_decide; subst; (done || lia).
  - split_and!; [|apply rearranged_refl|done]. intros a k Hk Hak. unfold child in Hak. cbn.
    destruct (decide (a = i)) as [->|]; [|by apply Hord]. specialize (Hmin k Hk Hak). lia.
Qed.

Definition wfh (h : heap) : Prop := linked h ∧ ordered h (Len h).

Lemma linked_NoDup h : linked h → NoDup (h_items h).*1.
Proof.
  intros Hl. apply NoDup_alt. intros i j v Hi Hj. rewrite list_lookup_fmap in Hi, Hj.
  destruct (h_items h !! i) as [[u p]|] eqn:Ei; [|done].
  destruct (h_items h !! j) as [[u' q]|] eqn:Ej; [|done]. cbn in *. simplify_eq.
  eapply linked_inj; eauto.
Qed.

(** The root has the least priority. *)
Lemma root_min h k : ordered h (Len h) → (k < Len h)%nat → prio h 0 ≤ prio h k.
Proof.
  intros Ho. induction (lt_wf k) as [k _ IH]. intros Hk.
  destruct k as [|k]; [lia|]. pose proof (Nat.div2_odd k) as E.
  pose proof (Ho (Nat.div2 k) (S k) Hk) as Hp. specialize (IH (Nat.div2 k)).
  unfold child in Hp. destruct (Nat.odd k); cbn [Nat.b2n] in E; lia.
Qed.

Lemma Push_spec h x :
  wfh h → h_index h !! x.1 = None →
  wfh (heap_Push h x) ∧ h_items (heap_Push h x) ≡ₚ x :: h_items h.
Proof.
  intros [Hl Ho] Hn. unfold heap_Push.
  set (h1 := mkHeap (<[x.1 := Len h]> (h_index h)) (h_items h ++ [x])).
  assert (Hlen : Len h1 = S (Len h)) by (unfold Len; cbn; rewrite length_app; cbn; lia).
  assert (Hp : ∀ k, (k < Len h)%nat → prio h1 k = prio h k).
  { intros k Hk. unfold prio, h1; cbn. by rewrite lookup_app_l. }
  assert (Hl1 : linked h1).
  { intros v k. unfold h1; cbn. destruct (decide (v = x.1)) as [->|Hne].
    - rewrite lookup_insert_eq. split.
      + intros [= <-]. exists x.2. rewrite lookup_app_r by done. unfold Len.
        rewrite Nat.sub_diag. by destruct x.
      + intros [p Hk]. f_equal. apply lookup_app_Some in Hk as [Hk|[Hge Hk]].
        * assert (h_index h !! x.1 = Some k) by (apply Hl; eauto). congruence.
        * apply list_lookup_singleton_Some in Hk as [Hk _]. unfold Len. lia.
    - rewrite lookup_insert_ne by done. rewrite (Hl v k). split; intros [p Hk]; exists p.
      + by apply lookup_app_l_Some.
      + apply lookup_app_Some in Hk as [Hk|[_ Hk]]; [done|].
        apply list_lookup_singleton_Some in Hk as [_ E]. by rewrite E in Hne. }
  destruct (up_spec (S (Len h)) h1 (Len h)) as [Ho1 [Hperm Hlink]]; [lia|lia|..].
  - intros i k Hk Hc Hne. unfold child in Hc. rewrite !Hp by lia. apply Ho; [lia|done].
  - intros g k Hk _ Hc. unfold child in Hc. lia.
  - split.
    + split; [by apply Hlink|].
      assert (E : Len (up (S (Len h)) h1 (Len h)) = Len h1) by by apply rearranged_Len.
      by rewrite E.
    + rewrite Hperm. cbn. apply Permutation_app_comm.
Qed.

Lemma Pop_spec h :
  wfh h → (0 < Len h)%nat →
  ∃ x, h_items h !! 0%nat = Some x ∧ wfh (heap_Pop h) ∧
    x :: h_items (heap_Pop h) ≡ₚ h_items h ∧ h_index (heap_Pop h) !! x.1 = None.
Proof.
  intros [Hl Ho] Hpos. destruct (lookup_some h 0 Hpos) as [x Hx]. exists x.
  unfold heap_Pop. set (n := (Len h - 1)%nat). set (h1 := Swap h 0 n).
  assert (Hlen1 : Len h1 = Len h) by apply Swap_Len.
  assert (Hl1 : linked h1) by (apply linked_Swap; [lia|lia|done]).
  destruct (down_spec (S n) h1 0 n) as (Ho2 & [Hperm Hlink] & Htail); [lia|lia|lia|..].
  - intros a k Hk Hc Ha. unfold h1. unfold child in Hc.
    rewrite !Swap_prio by lia. repeat case_decide; try lia. apply Ho; [lia|]. unfold child. lia.
  - unfold child. lia.
  - set (h2 := (down (S n) h1 0 n).1) in *.
    assert (Hn2 : h_items h2 !! n = Some x).
    { rewrite Htail by lia. unfold h1. rewrite Swap_lookup by lia.
      repeat case_decide; subst; [congruence|done|congruence]. }
    assert (Hlen2 : Len h2 = S n) by (rewrite (rearranged_Len h1) by done; lia).
    assert (Hsplit : h_items h2 = take n (h_items h2) ++ [x]).
    { rewrite <- (take_drop n (h_items h2)) at 1. f_equal.
      apply drop_S in Hn2 as ->. f_equal. apply drop_ge. unfold Len in Hlen2. lia. }
    assert (Hperm2 : x :: take n (h_items h2) ≡ₚ h_items h).
    { rewrite <- (Swap_perm h 0 n). fold h1. rewrite <- Hperm.
      rewrite Hsplit at 2. apply Permutation_cons_append. }
    rewrite Hn2. cbn [h_items h_index]. split_and!; [done| |done|by rewrite lookup_delete_eq].
    specialize (Hlink Hl1). split.
    + intros v k. cbn. rewrite lookup_delete_Some, (Hlink v k). split.
      * intros [Hne [p Hk]]. exists p. rewrite lookup_take_lt; [done|].
        apply lookup_lt_Some in Hk as Hk'. unfold Len in Hlen2.
        destruct (decide (k = n)) as [->|]; [|lia]. rewrite Hn2 in Hk. by simplify_eq/=.
      * intros [p [Hk Hkn]%lookup_take_Some]. split; [|eauto]. intros <-. destruct x as [x q].
        pose proof (linked_inj h2 _ _ _ _ _ Hlink Hk Hn2). lia.
    + intros i k Hk Hc. unfold Len in Hk; cbn in Hk. rewrite length_take in Hk.
      assert (Hpr : ∀ j, (j < n)%nat →
        prio (mkHeap (delete x.1 (h_index h2)) (take n (h_items h2))) j = prio h2 j).
      { intros j Hj. unfold prio; cbn. by rewrite lookup_take_lt. }
      unfold child in Hc. rewrite !Hpr by lia. apply Ho2; [lia|done].
Qed.

Lemma child_parent g i : child g i ↔ (0 < i)%nat ∧ g = Nat.div2 (i - 1).
Proof.
  unfold child. pose proof (Nat.div2_odd (i - 1)) as E.
  destruct (Nat.odd (i - 1)); cbn [Nat.b2n] in E; lia.
Qed.

Lemma Fix_spec h i :
  linked h → (i < Len h)%nat →
  (∀ a k, (k < Len h)%nat → child a k → a ≠ i → k ≠ i → prio h a ≤ prio h k) →
  (∀ g k, (k < Len h)%nat → child g i → child i k → prio h g ≤ prio h k) →
  wfh (heap_Fix h i) ∧ rearranged h (heap_Fix h i).
Proof.
  intros Hl Hi Hord Hgrand. unfold heap_Fix.
  set (g := Nat.div2 (i - 1)).
  destruct (decide ((0 < i)%nat ∧ prio h i < prio h g)) as [[Hpos Hlt]|Hup].
  - assert (Hg : child g i) by by apply child_parent.
    rewrite down_noop.
    + rewrite Nat.ltb_irrefl. destruct (up_spec (S i) h i) as [Ho Hr]; [lia|done| |done|].
      * intros a k Hk Hc Hne. destruct (decide (a = i)) as [->|]; [|by apply Hord].
        specialize (Hgrand g k Hk Hg Hc). lia.
      * split; [|done]. split; [by apply Hr|]. by rewrite (rearranged_Len h).
    + intros k Hk Hc. specialize (Hgrand g k Hk Hg Hc). lia.
  - assert (Hfull : ∀ a k, (k < Len h)%nat → child a k → a ≠ i → prio h a ≤ prio h k).
    { intros a k Hk Hc Ha. destruct (decide (k = i)) as [->|]; [|by apply Hord].
      destruct (Z.le_gt_cases (prio h a) (prio h i)) as [|Hgt]; [done|].
      apply child_parent in Hc as [Hpos ->]. by destruct Hup. }
    destruct (down_spec (S (Len h)) h i (Len h)) as (Ho & Hr & _); [lia|lia|done|done|done|].
    destruct (down (S (Len h)) h i (Len h)) as [h' i'] eqn:Hd. cbn [fst] in *.
    assert (Hlen : Len h' = Len h) by by apply rearranged_Len.
    destruct (i <? i')%nat.
    + split; [|done]. split; [by apply Hr|by rewrite Hlen].
    + destruct (up_spec (S i) h' i) as [Ho' Hr']; rewrite ?Hlen; [lia|done|..].
      * intros a k Hk Hc _. by apply Ho.
      * intros g' k Hk Hg Hc. etrans; [apply (Ho g' i)|apply (Ho i k)]; done.
      * rewrite Hlen in Ho'. split; [|by eapply rearranged_trans].
        split; [by apply Hr', Hr|]. by rewrite (rearranged_Len h'), Hlen.
Qed.

(** ** The bucket as a map from values to expiries *)
Definition contents (b : Bucket) : gmap V time := list_to_map (h_items (b_heap b)).

Definition wf (b : Bucket) : Prop :=
  wfh (b_heap b) ∧ Z.of_nat (Len (b_heap b)) ≤ Z.max 0 (capacity b).

Lemma contents_index h v : linked h → h_index h !! v = None ↔ (list_to_map (h_items h) : gmap V time) !! v = None.
Proof.
  intros Hl. rewrite <- not_elem_of_list_to_map. split.
  - intros Hn ([u p] & -> & [k Hk]%list_elem_of_lookup)%list_elem_of_fmap. cbn in Hn.
    assert (h_index h !! u = Some k) by (apply Hl; eauto). congruence.
  - intros Hn. destruct (h_index h !! v) as [k|] eqn:E; [|done]. apply Hl in E as [p Hp].
    destruct Hn. apply list_elem_of_fmap. exists (v, p). split; [done|].
    apply list_elem_of_lookup. eauto.
Qed.

Lemma contents_perm (l l' : list (V * time)) :
  NoDup l'.*1 → l ≡ₚ l' → (list_to_map l : gmap V time) = list_to_map l'.
Proof. intros Hnd Hp. symmetry. by apply list_to_map_proper. Qed.

Lemma insert_item_contents (l : list (V * time)) i v p q :
  NoDup l.*1 → l !! i = Some (v, q) →
  (list_to_map (<[i := (v, p)]> l) : gmap V time) = <[v := p]> (list_to_map l).
Proof.
  revert i. induction l as [|[u r] l IH]; intros i Hnd Hi; [done|].
  cbn in Hnd. apply NoDup_cons in Hnd as [Hnin Hnd]. destruct i as [|i]; cbn in Hi; simplify_eq.
  - change (<[0%nat := (v, p)]> ((v, q) :: l)) with ((v, p) :: l).
    by rewrite !list_to_map_cons, insert_insert_eq.
  - change (<[S i := (v, p)]> ((u, r) :: l)) with ((u, r) :: <[i := (v, p)]> l).
    rewrite !list_to_map_cons, (IH i) by done. rewrite insert_insert_ne; [done|]. intros ->. apply Hnin.
    apply list_elem_of_fmap. exists (v, q). split; [done|]. apply list_elem_of_lookup. eauto.
Qed.

Lemma update_spec h i v p q :
  wfh h → h_items h !! i = Some (v, q) →
  wfh (update h i v p) ∧ h_items (update h i v p) ≡ₚ <[i := (v, p)]> (h_items h).
Proof.
  intros [Hl Ho] Hi. unfold update. set (h1 := mkHeap (h_index h) (<[i := (v, p)]> (h_items h))).
  pose proof (lookup_lt_Some _ _ _ Hi) as Hlt.
  assert (Hlen : Len h1 = Len h) by (unfold Len; cbn; apply length_insert).
  assert (Hp : ∀ k, k ≠ i → prio h1 k = prio h k).
  { intros k Hk. unfold prio, h1; cbn. by rewrite list_lookup_insert_ne. }
  assert (Hl1 : linked h1).
  { intros u k. cbn. rewrite (Hl u k). destruct (decide (k = i)) as [->|].
    - rewrite list_lookup_insert_eq by done. naive_solver.
    - by rewrite list_lookup_insert_ne. }
  destruct (Fix_spec h1 i Hl1) as [Hw [Hperm _]]; [by rewrite Hlen|..|done].
  - intros a k Hk Hc Ha Hk'. rewrite Hlen in Hk. rewrite !Hp by done. by apply Ho.
  - intros g k Hk Hg Hc. rewrite Hlen in Hk. rewrite !Hp by (unfold child in *; lia).
    etrans; [apply (Ho g i)|apply (Ho i k)]; done.
Qed.

Lemma elem_of_contents b u q :
  wf b → contents b !! u = Some q ↔ ∃ k, h_items (b_heap b) !! k = Some (u, q).
Proof.
  intros [[Hl _] _]. unfold contents.
  rewrite <- elem_of_list_to_map by by apply linked_NoDup. apply list_elem_of_lookup.
Qed.

Lemma root_is_min b u q :
  wf b → contents b !! u = Some q → prio (b_heap b) 0 ≤ q.
Proof.
  intros Hwf [k Hk]%elem_of_contents; [|done]. destruct Hwf as [[_ Ho] _].
  pose proof (root_min (b_heap b) k Ho (lookup_lt_Some _ _ _ Hk)) as Hm.
  unfold prio in Hm at 2. rewrite Hk in Hm. done.
Qed.

(** What one Upsert does to the contents. *)
Definition upsert_spec (b : Bucket) (v : V) (p now : time) (b' : Bucket) (ok : bool) : Prop :=
  match contents b !! v with
  | Some _ => ok = true ∧ contents b' = <[v := p]> (contents b)
  | None =>
      if Z.of_nat (size (contents b)) <? capacity b
      then ok = true ∧ contents b' = <[v := p]> (contents b)
      else (ok = false ∧ b' = b ∧ ∀ u q, contents b !! u = Some q → now ≤ q) ∨
           (ok = true ∧ ∃ u q, contents b !! u = Some q ∧ q < now ∧
              (∀ u' q', contents b !! u' = Some q' → q ≤ q') ∧
              contents b' = <[v := p]> (delete u (contents b)))
  end.

Lemma size_contents b : wf b → size (contents b) = Len (b_heap b).
Proof. intros [[Hl _] _]. unfold contents. by apply map_size_list_to_map, linked_NoDup. Qed.

Lemma contents_Push h v p cap :
  wfh h → h_index h !! v = None →
  wfh (heap_Push h (v, p)) ∧ Len (heap_Push h (v, p)) = S (Len h) ∧
  contents (mkBucket (heap_Push h (v, p)) cap) = <[v := p]> (list_to_map (h_items h)).
Proof.
  intros Hw Hn. destruct (Push_spec h (v, p) Hw Hn) as [Hw' Hperm]. split_and!; [done| |].
  - unfold Len. by rewrite Hperm.
  - unfold contents; cbn. rewrite (contents_perm _ ((v, p) :: h_items h)); [done| |done].
    rewrite <- Hperm. by apply linked_NoDup, Hw'.
Qed.

Lemma Upsert_spec b v p now b' ok :
  wf b → 1 ≤ capacity b → Upsert b v p now = (b', ok) →
  wf b' ∧ capacity b' = capacity b ∧ upsert_spec b v p now b' ok.
Proof.
  intros Hwf Hcap. pose proof Hwf as [Hw Hlen]. pose proof Hw as [Hl Ho].
  unfold Upsert, upsert_spec. destruct (Z.ltb_spec (capacity b) 1); [lia|].
  rewrite (size_contents b Hwf).
  destruct (h_index (b_heap b) !! v) as [i|] eqn:Hi.
  { intros [= <- <-]. apply Hl in Hi as [q Hq].
    destruct (update_spec (b_heap b) i v p q Hw Hq) as [Hw' Hperm].
    assert (Hc : contents b !! v = Some q) by (apply elem_of_contents; eauto). rewrite Hc.
    pose proof (linked_NoDup _ Hl) as Hnd.
    assert (Hlen' : Len (update (b_heap b) i v p) = Len (b_heap b)).
    { unfold Len. by rewrite Hperm, length_insert. }
    split_and!; [split; [done|cbn [b_heap capacity]; lia]|done|done|]. unfold contents; cbn.
    rewrite (contents_perm _ (<[i := (v, p)]> (h_items (b_heap b)))); [|rewrite <- Hperm; by apply linked_NoDup, Hw'|done].
    by apply insert_item_contents with q. }
  assert (Hc : contents b !! v = None) by by apply contents_index. rewrite Hc.
  destruct (Z.ltb_spec (Z.of_nat (Len (b_heap b))) (capacity b)) as [Hroom|Hfull].
  { intros [= <- <-]. destruct (contents_Push (b_heap b) v p (capacity b) Hw Hi) as (Hw' & Hl' & Hc').
    split_and!; [split; [done|cbn [b_heap capacity]; lia]|done|done|done]. }
  unfold expired. destruct (Before_spec (prio (b_heap b) 0) now) as [Hexp|Hlive]; intros [= <- <-].
  - destruct (Pop_spec (b_heap b) Hw) as ([u q] & Hx & Hwp & Hperm & Hxn); [lia|]. cbn in Hxn.
    assert (Hnd : NoDup ((u, q) :: h_items (heap_Pop (b_heap b))).*1).
    { rewrite Hperm. by apply linked_NoDup. }
    assert (Hdel : (list_to_map (h_items (heap_Pop (b_heap b))) : gmap V time) = delete u (contents b)).
    { unfold contents. rewrite <- (contents_perm _ _ (linked_NoDup _ Hl) Hperm). cbn.
      rewrite delete_insert_id; [done|]. apply not_elem_of_list_to_map.
      cbn in Hnd. by apply NoDup_cons in Hnd as []. }
    assert (Hvn : h_index (heap_Pop (b_heap b)) !! v = None).
    { apply contents_index; [apply Hwp|]. rewrite Hdel, lookup_delete_None. by right. }
    destruct (contents_Push _ v p (capacity b) Hwp Hvn) as (Hw' & Hl' & Hc').
    assert (Hlp : S (Len (heap_Pop (b_heap b))) = Len (b_heap b)).
    { unfold Len. by rewrite <- Hperm. }
    assert (Hcu : contents b !! u = Some q) by (apply elem_of_contents; eauto).
    assert (Hq : prio (b_heap b) 0 = q) by (unfold prio; by rewrite Hx).
    split_and!; [split; [done|cbn [b_heap capacity]; lia]|done|]. right. split; [done|]. exists u, q.
    split_and!; [done|lia| |by rewrite Hc', Hdel].
    intros u' q' Hu'. rewrite <- Hq. by eapply root_is_min.
  - split_and!; [done..|]. left. split_and!; [done..|]. intros u q Hu.
    pose proof (root_is_min b u q Hwf Hu). lia.
Qed.

(** Buckets built by a sequence of Upserts, each at its own instant. *)
Inductive built (cap : Z) : Bucket → Prop :=
| built_New : built cap (NewBucket cap)
| built_Upsert b v p now : built cap b → built cap (Upsert b v p now).1.

Lemma wf_NewBucket cap : wf (NewBucket cap).
Proof.
  split; [split|]; cbn.
  - intros v k. cbn. rewrite lookup_empty, lookup_nil. naive_solver.
  - intros i k Hk. cbn in Hk. lia.
  - lia.
Qed.

Lemma built_wf cap b : built cap b → wf b ∧ capacity b = cap.
Proof.
  induction 1 as [|b v p now _ [Hwf Hcap]]; [split; [apply wf_NewBucket|done]|].
  destruct (Upsert b v p now) as [b' ok] eqn:E.
  destruct (decide (1 ≤ capacity b)) as [H1|H1].
  - destruct (Upsert_spec b v p now b' ok Hwf H1 E) as (? & ? & _). split; [done|cbn; lia].
  - unfold Upsert in E. destruct (Z.ltb_spec (capacity b) 1); [|lia]. by injection E as <- <-.
Qed.

(** C23: a limit bucket implements a bounded map with expiry: whatever was
    stored before, it never holds more than its capacity; storing a known value
    updates it, storing a new one adds it while there is room; when the bucket
    is full the new value replaces one with the least expiry, provided that one
    has expired, and is refused exactly when no stored value has expired. *)
Theorem bucket_refines_map cap b v p now b' ok :
  1 ≤ cap → built cap b → Upsert b v p now = (b', ok) →
  Z.of_nat (size (contents b')) ≤ cap ∧ upsert_spec b v p now b' ok.
Proof.
  intros Hcap [Hwf Hc]%built_wf HU.
  destruct (Upsert_spec b v p now b' ok Hwf ltac:(lia) HU) as (Hwf' & Hcap' & Hs).
  split; [|done]. rewrite (size_contents b' Hwf'). destruct Hwf' as [_ Hl]. lia.
Qed.
End bucket.
Arguments heap V {_ _}.
Arguments Bucket V {_ _}.

(** Three values with expiries 1, 9 and 5: at instant 7 the second one is still
    live, but the last element of the heap's array is the third. *)
Definition ex_bucket : Bucket Z :=
  (Upsert (Upsert (Upsert (NewBucket 3) 1 1 0).1 2 9 0).1 3 5 0).1.

(** a bucket can be declared stale while it holds a value that has not expired:
    [IsStale] looks at the last element of the heap's array, which is not the
    one with the latest expiry. *)
Theorem bucket_stale_with_live_item :
  contents ex_bucket !! 2 = Some 9 ∧ expired 9 7 = false ∧ IsStale ex_bucket 7 = true.
Proof. split_and!; vm_compute; reflexivity. Qed.

Lemma bucket_refines_map_witness :
  Z.of_nat (size (contents (Upsert ex_bucket 4 8 3).1)) ≤ 3 ∧
  upsert_spec ex_bucket 4 8 3 (Upsert ex_bucket 4 8 3).1 (Upsert ex_bucket 4 8 3).2.
Proof.
  apply (bucket_refines_map 3); [lia|repeat constructor|]. apply surjective_pairing.
Defined.
End Bucket.
