(* ===== verification/Store.v ===== *)
(** * The alert store and the alert provider (store/store.go, provider/mem/mem.go)

    [Store] is the in-memory map of alerts with the limit per alert name;
    [Provider] puts alerts into a store, merging overlapping ones, calls the
    callbacks and passes every stored alert on to its listeners. *)

From Stdlib Require Import Ascii String.
From stdpp Require Import base gmap strings list relations.
From S2P Require Import Prelude Utf8 Labels Silence Alert Bucket.

Module Store.
Import Alert.

Inductive error := ErrLimited | ErrNotFound | ErrDestroyed.

Record Alerts := mkAlerts {
  alerts : gmap Z Alert;
  limits : gmap string (Bucket.Bucket Z);
  perAlertLimit : Z;
  destroyed : bool;
}.

Definition set_alerts m s := mkAlerts m (limits s) (perAlertLimit s) (destroyed s).

Definition NewAlerts : Alerts := mkAlerts ∅ ∅ 0 false.
Definition WithPerAlertLimit (s : Alerts) (lim : Z) : Alerts :=
  mkAlerts (alerts s) ∅ lim (destroyed s).

Definition alert_Name (a : Alert) : string := label_get (Labels a) "alertname".

Section store.
Context `{PM : PromModel, FP : Fingerprinter, MR : MapRange}.

Definition alert_Fingerprint (a : Alert) : Z := Fingerprint (Labels a).

(** The loop of [gcAlerts]; [at_] is the instant at which an alert is tested. *)
Fixpoint gc_loop (at_ : Alert → time) (es : list (Z * Alert)) (m : gmap Z Alert)
    (deleted : list Alert) : gmap Z Alert * list Alert :=
  match es with
  | [] => (m, deleted)
  | (fp, a) :: es =>
      if Resolved a (at_ a) then gc_loop at_ es (delete fp m) (deleted ++ [a])
      else gc_loop at_ es m deleted
  end.

Definition gcAlerts (s : Alerts) (at_ : Alert → time) : Alerts * list Alert :=
  let '(m, deleted) := gc_loop at_ (range (alerts s)) (alerts s) [] in
  (set_alerts m s, deleted).

Definition gcLimitBuckets (s : Alerts) (now : time) : Alerts :=
  mkAlerts (alerts s)
    (filter (λ x, Bucket.IsStale x.2 now = false) (limits s)) (perAlertLimit s) (destroyed s).

(** [GC]; the callback is the caller's, who gets the deleted alerts. *)
Definition GC (s : Alerts) (at_ : Alert → time) (now : time) : Alerts * list Alert :=
  gcAlerts (gcLimitBuckets s now) at_.

Definition Get (s : Alerts) (fp : Z) : result error Alert :=
  match alerts s !! fp with Some a => Ok a | None => Err ErrNotFound end.

(** [Set]; [now] is the clock of the bucket. *)
Definition Set_ (s : Alerts) (a : Alert) (now : time) : Alerts * option error :=
  if destroyed s then (s, Some ErrDestroyed) else
  let fp := alert_Fingerprint a in
  let name := alert_Name a in
  if 0 <? perAlertLimit s then
    let bucket := default (Bucket.NewBucket (perAlertLimit s)) (limits s !! name) in
    let '(bucket, ok) := Bucket.Upsert bucket fp (EndsAt a) now in
    let s := mkAlerts (alerts s) (<[name := bucket]> (limits s)) (perAlertLimit s) (destroyed s) in
    if ok : bool then (set_alerts (<[fp := a]> (alerts s)) s, None) else (s, Some ErrLimited)
  else (set_alerts (<[fp := a]> (alerts s)) s, None).

Fixpoint delete_loop (m : gmap Z Alert) (l : list Alert) : gmap Z Alert :=
  match l with
  | [] => m
  | a :: l =>
      let fp := alert_Fingerprint a in
      delete_loop
        (match m !! fp with
         | Some other => if UpdatedAt a =? UpdatedAt other then delete fp m else m
         | None => m
         end) l
  end.

Definition DeleteIfNotModified (s : Alerts) (l : list Alert) (destroyIfEmpty : bool) : Alerts :=
  let m := delete_loop (alerts s) l in
  mkAlerts m (limits s) (perAlertLimit s)
    (destroyed s || (bool_decide (m = ∅) && destroyIfEmpty)).

Definition List_ (s : Alerts) : list Alert := (range (alerts s)).*2.
Definition Empty (s : Alerts) : bool := bool_decide (alerts s = ∅).
Definition Destroyed (s : Alerts) : bool := destroyed s.
Definition Len (s : Alerts) : nat := size (alerts s).

(** ** Properties *)
Lemma gc_loop_lookup at_ es : ∀ m deleted fp,
  NoDup es.*1 → (∀ k a, (k, a) ∈ es → m !! k = Some a) →
  (gc_loop at_ es m deleted).1 !! fp =
    match m !! fp with
    | Some a => if bool_decide (fp ∈ es.*1) && Resolved a (at_ a) then None else Some a
    | None => None
    end.
Proof.
  induction es as [|[k a] es IH]; intros m deleted fp Hnd Hes; cbn [gc_loop].
  { cbn. by destruct (m !! fp). }
  cbn in Hnd. apply NoDup_cons in Hnd as [Hnin Hnd]. pose proof (Hes k a ltac:(by left)) as Hk.
  assert (Hother : fp ≠ k → bool_decide (fp ∈ ((k, a) :: es).*1) = bool_decide (fp ∈ es.*1)).
  { intros Hne. apply bool_decide_ext. cbn. rewrite elem_of_cons. naive_solver. }
  destruct (Resolved a (at_ a)) eqn:Hr.
  - rewrite IH; [|done|].
    + destruct (decide (fp = k)) as [->|Hne].
      * rewrite lookup_delete_eq, Hk, Hr, bool_decide_eq_true_2; [done|by left].
      * by rewrite lookup_delete_ne, Hother.
    + intros k' a' Hin. rewrite lookup_delete_ne; [by apply Hes; right|].
      intros <-. apply Hnin, list_elem_of_fmap. by exists (k, a').
  - rewrite IH; [|done|intros; apply Hes; by right].
    destruct (decide (fp = k)) as [->|Hne]; [|by rewrite Hother].
    rewrite Hk, Hr. by rewrite !andb_false_r.
Qed.

Lemma gcAlerts_lookup s at_ fp :
  alerts (gcAlerts s at_).1 !! fp =
    match alerts s !! fp with
    | Some a => if Resolved a (at_ a) then None else Some a
    | None => None
    end.
Proof.
  unfold gcAlerts. pose proof (gc_loop_lookup at_ (range (alerts s)) (alerts s) [] fp) as H.
  destruct (gc_loop at_ (range (alerts s)) (alerts s) []) as [m deleted]. cbn in *.
  rewrite H; [|apply NoDup_fst_range|by intros ?? ?%elem_of_range].
  destruct (alerts s !! fp) as [a|] eqn:Ha; [|done].
  rewrite bool_decide_eq_true_2; [done|]. apply list_elem_of_fmap. exists (fp, a).
  split; [done|]. by apply elem_of_range.
Qed.

Lemma gc_loop_deleted at_ es : ∀ m deleted,
  (gc_loop at_ es m deleted).2 = deleted ++ List.filter (λ a, Resolved a (at_ a)) es.*2.
Proof.
  induction es as [|[k a] es IH]; intros m deleted; cbn; [by rewrite app_nil_r|].
  rewrite <- app_nil_r. destruct (Resolved a (at_ a)); rewrite app_nil_r, IH; [|done].
  by rewrite <- app_assoc.
Qed.

Lemma gcAlerts_deleted s at_ a :
  a ∈ (gcAlerts s at_).2 ↔ (∃ fp, alerts s !! fp = Some a) ∧ Resolved a (at_ a) = true.
Proof.
  unfold gcAlerts. pose proof (gc_loop_deleted at_ (range (alerts s)) (alerts s) []) as H.
  destruct (gc_loop at_ (range (alerts s)) (alerts s) []) as [m deleted]. cbn in *. subst.
  rewrite list_elem_of_In, filter_In, <- list_elem_of_In, list_elem_of_fmap.
  apply and_iff_compat_r. split.
  - intros ([fp b] & -> & Hin%elem_of_range). eauto.
  - intros [fp Hin%elem_of_range]. exists (fp, a). done.
Qed.

Lemma delete_loop_subset l : ∀ m, delete_loop m l ⊆ m.
Proof.
  induction l as [|a l IH]; intros m; cbn; [done|]. etrans; [apply IH|].
  repeat case_match; [apply delete_subseteq|done|done].
Qed.

(** The stored alerts after a deletion. *)
Lemma DeleteIfNotModified_lookup s l b fp :
  alerts (DeleteIfNotModified s l b) !! fp =
    match alerts s !! fp with
    | Some other =>
        if existsb (λ a, (alert_Fingerprint a =? fp) && (UpdatedAt a =? UpdatedAt other)) l
        then None else Some other
    | None => None
    end.
Proof.
  cbn. generalize (alerts s). induction l as [|a l IH]; intros m; cbn; [by destruct (m !! fp)|].
  rewrite IH. destruct (Z.eqb_spec (alert_Fingerprint a) fp) as [->|Hne]; cbn.
  - destruct (m !! fp) as [other|] eqn:Hm; [|by rewrite Hm].
    destruct (UpdatedAt a =? UpdatedAt other); cbn; [by rewrite lookup_delete_eq|by rewrite Hm].
  - assert (E : (match m !! alert_Fingerprint a with
      | Some other => if UpdatedAt a =? UpdatedAt other then delete (alert_Fingerprint a) m else m
      | None => m end) !! fp = m !! fp); [|by rewrite E].
    destruct (m !! alert_Fingerprint a); [|done]. case_match; [|done]. by rewrite lookup_delete_ne.
Qed.

(** deleting a batch of notified alerts removes exactly those that were not
    updated in the meantime: a stored alert disappears if and only if the batch
    contains an alert with its fingerprint and its update time. *)
Theorem store_delete_if_not_modified s l b fp :
  alerts (DeleteIfNotModified s l b) !! fp =
    match alerts s !! fp with
    | Some other =>
        if existsb (λ a, (alert_Fingerprint a =? fp) && (UpdatedAt a =? UpdatedAt other)) l
        then None else Some other
    | None => None
    end.
Proof. apply DeleteIfNotModified_lookup. Qed.

Inductive step : relation Alerts :=
| step_Set s a now : step s (Set_ s a now).1
| step_Delete s l b : step s (DeleteIfNotModified s l b)
| step_GC s at_ now : step s (GC s at_ now).1.

Definition sound (s : Alerts) : Prop := destroyed s = true → alerts s = ∅.

Lemma step_sound s s' : step s s' → sound s → sound s'.
Proof.
  unfold sound. intros Hstep Hs. destruct Hstep as [s a now|s l b|s at_ now].
  - unfold Set_. destruct (destroyed s) eqn:Hd; [by intros _; apply Hs|].
    destruct (0 <? perAlertLimit s); cbn; [|congruence].
    destruct (Bucket.Upsert _ _ _ _) as [bk []]; cbn; congruence.
  - cbn. intros [Hd|[E _]%andb_true_iff]%orb_true_iff.
    + pose proof (delete_loop_subset l (alerts s)) as Hsub. rewrite (Hs Hd) in *.
      apply map_empty. intros fp. apply (lookup_weaken_None _ _ _ (lookup_empty fp) Hsub).
    + by apply bool_decide_eq_true in E.
  - unfold GC. intros Hd. apply map_empty. intros fp. rewrite gcAlerts_lookup.
    assert (E : alerts (gcLimitBuckets s now) = ∅).
    { apply Hs. unfold gcAlerts in Hd. by destruct (gc_loop _ _ _ _). }
    by rewrite E, lookup_empty.
Qed.

(** a store that has been destroyed stays empty: in every reachable state a
    destroyed store holds no alert and refuses new ones, so that no alert can
    be added to a group that is about to be removed. *)
Theorem store_destroyed_empty s0 s a now :
  destroyed s0 = false → rtc step s0 s → destroyed s = true →
  alerts s = ∅ ∧ Set_ s a now = (s, Some ErrDestroyed).
Proof.
  intros H0 Hr Hd. assert (Hs0 : sound s0) by (unfold sound; congruence).
  assert (Hs : sound s) by (clear Hd H0; revert Hs0; induction Hr; eauto using step_sound).
  split; [by apply Hs|]. unfold Set_. by rewrite Hd.
Qed.
End store.
End Store.
