(* ===== verification/Provider.v ===== *)
(** * The alert provider (provider/mem/mem.go)

    [Put] merges an incoming alert with the stored version when their activity
    overlaps, stores it and passes it on to every listener.  A listener's
    channel is the queue of messages it has been sent; a listener that has
    closed its iterator ([l_done]) may or may not get a message, since the two
    branches of the [select] are then both ready. *)

From Stdlib Require Import Ascii String.
From stdpp Require Import base gmap strings list relations.
From S2P Require Import Prelude Utf8 Labels Silence Alert Bucket Store.

Module Provider.
Import Alert Store.

Record listeningAlerts := mkListener {
  l_name : string;
  l_alerts : list Alert;
  l_done : bool;
}.

Inductive callback :=
| PostStore (a : Alert) (existing : bool)
| PostDelete (a : Alert)
| PostGC (ff : list Z)
| AlertCreated (a : Alert).

Record Alerts := mkAlerts {
  p_store : Store.Alerts;
  listeners : gmap Z listeningAlerts;
  next : Z;
  callbacks : list callback;
}.

Definition set_store s p := mkAlerts s (listeners p) (next p) (callbacks p).
Definition call c p := mkAlerts (p_store p) (listeners p) (next p) (callbacks p ++ [c]).

Definition NewAlerts (perAlertNameLimit : Z) : Alerts :=
  mkAlerts (WithPerAlertLimit Store.NewAlerts perAlertNameLimit) ∅ 0 [].

Section provider.
Context `{PM : PromModel, FP : Fingerprinter, MR : MapRange}.

(** What [Put] depends on besides the alert: the callback's verdict, the clock
    of the merge and of the store, and which closed listeners get the message. *)
Record put_env := mkPutEnv {
  pe_PreStore : Alert → bool → bool;
  pe_now_o : time;
  pe_now_a : time;
  pe_now : time;
  pe_choice : Z → bool;
}.

Definition send (choice : bool) (msg : Alert) (l : listeningAlerts) : listeningAlerts :=
  if l_done l && negb choice then l
  else mkListener (l_name l) (l_alerts l ++ [msg]) (l_done l).

Definition send_all (env : put_env) (msg : Alert) (ls : gmap Z listeningAlerts)
    : gmap Z listeningAlerts :=
  map_imap (λ i l, Some (send (pe_choice env i) msg l)) ls.

(** The alert that is stored when [a] arrives while [old] is known. *)
Definition merged (old a : Alert) (env : put_env) : Alert :=
  if (After (EndsAt a) (StartsAt old) && Before (EndsAt a) (EndsAt old)) ||
     (After (StartsAt a) (StartsAt old) && Before (StartsAt a) (EndsAt old))
  then Merge old a (pe_now_o env) (pe_now_a env) else a.

(** One round of [Put]. *)
Definition put_one (p : Alerts) (a : Alert) (env : put_env) : Alerts :=
  let fp := alert_Fingerprint a in
  let '(existing, a) :=
    match Get (p_store p) fp with
    | Ok old => (true, merged old a env)
    | Err _ => (false, a)
    end in
  if negb (pe_PreStore env a existing) then p else
  let '(s, err) := Store.Set_ (p_store p) a (pe_now env) in
  let p := set_store s p in
  match err with
  | Some _ => p
  | None =>
      let p := call (PostStore a existing) p in
      let p := if existing then p else call (AlertCreated a) p in
      mkAlerts (p_store p) (send_all env a (listeners p)) (next p) (callbacks p)
  end.

Definition Put (p : Alerts) (l : list (Alert * put_env)) : Alerts :=
  foldl (λ p x, put_one p x.1 x.2) p l.

(** [SlurpAndSubscribe]: the current alerts, and a listener for later ones. *)
Definition SlurpAndSubscribe (p : Alerts) (name : string) : list Alert * Alerts :=
  (List_ (p_store p),
   mkAlerts (p_store p) (<[next p := mkListener name [] false]> (listeners p)) (next p + 1)
     (callbacks p)).

(** [Subscribe]: the current alerts are the first messages. *)
Definition Subscribe (p : Alerts) (name : string) : Alerts :=
  mkAlerts (p_store p)
    (<[next p := mkListener name (List_ (p_store p)) false]> (listeners p)) (next p + 1)
    (callbacks p).

(** The listener closes its iterator. *)
Definition Close_iterator (p : Alerts) (i : Z) : Alerts :=
  mkAlerts (p_store p)
    (alter (λ l, mkListener (l_name l) (l_alerts l) true) i (listeners p)) (next p) (callbacks p).

Definition gcListeners (p : Alerts) : Alerts :=
  mkAlerts (p_store p) (filter (λ x, l_done x.2 = false) (listeners p)) (next p) (callbacks p).

Definition gc (p : Alerts) (at_ : Alert → time) (now : time) : Alerts :=
  let p := gcListeners p in
  let '(s, deleted) := Store.GC (p_store p) at_ now in
  let p := set_store s p in
  match deleted with
  | [] => p
  | _ =>
      let p := foldl (λ p a, call (PostDelete a) p) p deleted in
      call (PostGC (alert_Fingerprint <$> deleted)) p
  end.

(** ** What a listener knows

    A listener that started from the alerts [l0] and applied its messages. *)
Definition replay (l : list Alert) : gmap Z Alert :=
  foldl (λ m a, <[alert_Fingerprint a := a]> m) ∅ l.

Lemma replay_snoc l a : replay (l ++ [a]) = <[alert_Fingerprint a := a]> (replay l).
Proof. unfold replay. by rewrite foldl_app. Qed.

Definition filed (s : Store.Alerts) : Prop :=
  ∀ fp a, Store.alerts s !! fp = Some a → alert_Fingerprint a = fp.

Definition informed (l0 : list Alert) (i : Z) (p : Alerts) : Prop :=
  filed (p_store p) ∧
  ∀ l, listeners p !! i = Some l → l_done l = false →
    ∀ fp a, Store.alerts (p_store p) !! fp = Some a → replay (l0 ++ l_alerts l) !! fp = Some a.

Inductive step : relation Alerts :=
| step_put p a env : step p (put_one p a env)
| step_slurp p name : step p (SlurpAndSubscribe p name).2
| step_subscribe p name : step p (Subscribe p name)
| step_close p i : step p (Close_iterator p i)
| step_gc p at_ now : step p (gc p at_ now).

(** Listener numbers are never reused. *)
Definition numbered (i : Z) (p : Alerts) : Prop := i < next p.

Lemma Set_cases s a now s' err :
  Store.Set_ s a now = (s', err) →
  match err with
  | None => Store.alerts s' = <[alert_Fingerprint a := a]> (Store.alerts s)
  | Some _ => Store.alerts s' = Store.alerts s
  end.
Proof.
  unfold Store.Set_. destruct (destroyed s); [by intros [= <- <-]|].
  destruct (0 <? perAlertLimit s); [|by intros [= <- <-]].
  destruct (Bucket.Upsert _ _ _ _) as [bk []]; by intros [= <- <-].
Qed.

Lemma Merge_Fingerprint a o t1 t2 :
  alert_Fingerprint a = alert_Fingerprint o → alert_Fingerprint (Merge a o t1 t2) = alert_Fingerprint o.
Proof.
  intros E. unfold Merge, alert_Fingerprint in *. destruct (Before _ _);
    [destruct (merge_younger_fields o a t1 t2) as [-> _]|
     destruct (merge_younger_fields a o t1 t2) as [-> _]]; done.
Qed.

Lemma merged_Fingerprint old a env :
  alert_Fingerprint old = alert_Fingerprint a → alert_Fingerprint (merged old a env) = alert_Fingerprint a.
Proof. intros E. unfold merged. case_match; [by apply Merge_Fingerprint|done]. Qed.

(** One round of [Put] either leaves the alerts and listeners alone or stores an
    alert with the fingerprint of the argument and sends it. *)
Lemma put_one_cases p a env :
  filed (p_store p) →
  (Store.alerts (p_store (put_one p a env)) = Store.alerts (p_store p) ∧
   listeners (put_one p a env) = listeners p) ∨
  (∃ b, alert_Fingerprint b = alert_Fingerprint a ∧
   Store.alerts (p_store (put_one p a env)) = <[alert_Fingerprint b := b]> (Store.alerts (p_store p)) ∧
   listeners (put_one p a env) = send_all env b (listeners p) ∧
   (b = a ∨ ∃ old, Store.alerts (p_store p) !! alert_Fingerprint a = Some old ∧ b = merged old a env)).
Proof.
  intros Hf. unfold put_one, Get.
  destruct (Store.alerts (p_store p) !! alert_Fingerprint a) as [old|] eqn:Hold; cbn.
  - assert (Hfp : alert_Fingerprint (merged old a env) = alert_Fingerprint a).
    { apply merged_Fingerprint. by apply Hf in Hold. }
    destruct (pe_PreStore env (merged old a env) true); cbn; [|by left].
    destruct (Store.Set_ _ _ _) as [s err] eqn:Hset. apply Set_cases in Hset.
    destruct err; cbn; [by left|]. right. exists (merged old a env).
    split_and!; [done..|]. right. by exists old.
  - destruct (pe_PreStore env a false); cbn; [|by left].
    destruct (Store.Set_ _ _ _) as [s err] eqn:Hset. apply Set_cases in Hset.
    destruct err; cbn; [by left|]. right. exists a.
    split_and!; [done..|]. by left.
Qed.

Lemma foldl_call p (l : list Alert) :
  let p' := foldl (λ p a, call (PostDelete a) p) p l in
  p_store p' = p_store p ∧ listeners p' = listeners p ∧ next p' = next p.
Proof. revert p. induction l as [|a l IH]; intros p; cbn; [done|]. apply (IH (call _ p)). Qed.

Lemma gc_fields p at_ now :
  Store.alerts (p_store (gc p at_ now)) = Store.alerts (Store.GC (p_store p) at_ now).1 ∧
  listeners (gc p at_ now) = filter (λ x, l_done x.2 = false) (listeners p) ∧
  next (gc p at_ now) = next p.
Proof.
  unfold gc. cbn. destruct (Store.GC (p_store p) at_ now) as [s [|a deleted]]; [done|]. cbn.
  by destruct (foldl_call (call (PostDelete a) (set_store s (gcListeners p))) deleted) as (-> & -> & ->).
Qed.

Lemma GC_subset s at_ now fp a :
  Store.alerts (Store.GC s at_ now).1 !! fp = Some a → Store.alerts s !! fp = Some a.
Proof.
  unfold Store.GC. rewrite gcAlerts_lookup. cbn. destruct (Store.alerts s !! fp); [|done].
  by case_match.
Qed.

Lemma step_numbered i p p' : step p p' → numbered i p → numbered i p'.
Proof.
  unfold numbered. intros Hstep Hn. destruct Hstep; cbn; try lia.
  - unfold put_one. destruct (Get _ _); cbn; (destruct (negb _); [done|]);
      destruct (Store.Set_ _ _ _) as [s []]; cbn; try done.
  - by destruct (gc_fields p at_ now) as (_ & _ & ->).
Qed.

Lemma step_informed l0 i p p' : step p p' → numbered i p → informed l0 i p → informed l0 i p'.
Proof.
  intros Hstep Hn [Hf Hi]. destruct Hstep as [p a env|p name|p name|p j|p at_ now].
  - destruct (put_one_cases p a env Hf) as [[Ea El]|(b & Hb & Ea & El & _)];
      (split; [|rewrite Ea, El]); unfold filed; rewrite ?Ea; [done|done| |].
    + intros fp x [[<- <-]|[_ ?]]%lookup_insert_Some; [done|]. by apply Hf.
    + intros l. unfold send_all. rewrite map_lookup_imap.
      destruct (listeners p !! i) as [l'|] eqn:Hl; [|done]. cbn. intros [= <-] Hd fp x Hx.
      assert (Hd' : l_done l' = false) by (unfold send in Hd; by case_match).
      unfold send. rewrite Hd'. cbn. rewrite app_assoc, replay_snoc.
      apply lookup_insert_Some in Hx as [[<- <-]|[Hne Hx]]; [apply lookup_insert_eq|].
      rewrite lookup_insert_ne by done. by eapply Hi.
  - split; [done|]. cbn. unfold numbered in Hn. intros l.
    rewrite lookup_insert_ne by lia. apply Hi.
  - split; [done|]. cbn. unfold numbered in Hn. intros l.
    rewrite lookup_insert_ne by lia. apply Hi.
  - split; [done|]. cbn. intros l Hl Hd. destruct (decide (i = j)) as [->|Hne].
    + rewrite lookup_alter_eq in Hl. destruct (listeners p !! j); cbn in Hl; by simplify_eq/=.
    + rewrite lookup_alter_ne in Hl by done. by apply Hi.
  - destruct (gc_fields p at_ now) as (Ea & El & _). split.
    + intros fp x. rewrite Ea. intros Hx%GC_subset. by apply Hf.
    + intros l. rewrite El, Ea. intros [Hl _]%map_lookup_filter_Some Hd fp x Hx%GC_subset.
      by eapply Hi.
Qed.

(** C6: a subscriber misses no alert: take the alerts that SlurpAndSubscribe
    returns and apply the messages of the listener in order; whatever is put,
    merged or collected in the meantime, every alert the provider still stores
    is known to the subscriber in exactly its stored version, as long as it has
    not closed its iterator. *)
Theorem provider_subscriber_complete p name p' l :
  filed (p_store p) →
  rtc step (SlurpAndSubscribe p name).2 p' →
  listeners p' !! next p = Some l → l_done l = false →
  ∀ fp a, Store.alerts (p_store p') !! fp = Some a →
    replay ((SlurpAndSubscribe p name).1 ++ l_alerts l) !! fp = Some a.
Proof.
  intros Hf Hr Hl Hd.
  assert (Hinit : informed (SlurpAndSubscribe p name).1 (next p) (SlurpAndSubscribe p name).2).
  { split; [done|]. cbn. intros l'. rewrite lookup_insert_eq. intros [= <-] _ fp a Ha.
    cbn. rewrite app_nil_r. unfold List_, replay.
    assert (E : foldl (λ m b, <[alert_Fingerprint b := b]> m) ∅ (range (Store.alerts (p_store p))).*2
      = Store.alerts (p_store p)); [|by rewrite E].
    apply (foldl_insert_rebuild alert_Fingerprint), Hf. }
  assert (Hn : numbered (next p) (SlurpAndSubscribe p name).2) by (unfold numbered; cbn; lia).
  assert (Hfin : informed (SlurpAndSubscribe p name).1 (next p) p').
  { clear Hl Hd Hf. revert Hinit Hn. generalize (SlurpAndSubscribe p name).1 as l0.
    induction Hr as [|x y z Hxy _ IH]; intros l0 Hx Hnx; [done|].
    apply IH; [by eapply step_informed|by eapply step_numbered]. }
  destruct Hfin as [_ H]. by apply H.
Qed.
End provider.
End Provider.
