(* ===== verification/Inhibit.v ===== *)
(** * Inhibition (inhibit/inhibit.go, inhibit/index.go)

    A rule caches the source alerts it has seen and an index from the values of
    the equal labels to one source alert.  [Mutes] only consults the index. *)

From Stdlib Require Import Ascii String.
From stdpp Require Import base gmap strings list relations.
From S2P Require Import Prelude Utf8 Labels Silence Alert Bucket Store.

Module Inhibit.
Import Alert Store.

Section inhibit.
Context `{RE : Regexp, PM : PromModel, FP : Fingerprinter, MR : MapRange}.

Record InhibitRule := mkRule {
  Name : string;
  SourceMatchers : list Labels.Matcher;
  TargetMatchers : list Labels.Matcher;
  Equal : gset string;
  scache : Store.Alerts;
  sindex : gmap Z Z;
}.

(** The configuration of a rule; the deprecated matcher maps are iterated in
    some order. *)
Record InhibitRuleConfig := mkConfig {
  c_Name : string;
  c_SourceMatch : gmap string string;
  c_SourceMatchRE : gmap string string;
  c_SourceMatchers : list Labels.Matcher;
  c_TargetMatch : gmap string string;
  c_TargetMatchRE : gmap string string;
  c_TargetMatchers : list Labels.Matcher;
  c_Equal : list string;
}.

(** One of the loops over a deprecated map; [None] is the panic on a pattern
    that does not compile. *)
Fixpoint deprecated_matchers (t : Labels.MatchType) (es : list (string * string))
    : option (list Labels.Matcher) :=
  match es with
  | [] => Some []
  | (ln, lv) :: es =>
      m ← Labels.NewMatcher t ln lv;
      ms ← deprecated_matchers t es;
      Some (m :: ms)
  end.

Definition side_matchers (eq re : gmap string string) (ms : list Labels.Matcher)
    : option (list Labels.Matcher) :=
  m1 ← deprecated_matchers Labels.MatchEqual (range eq);
  m2 ← deprecated_matchers Labels.MatchRegexp (range re);
  Some (m1 ++ m2 ++ ms).

Definition NewInhibitRule (cr : InhibitRuleConfig) : option InhibitRule :=
  sourcem ← side_matchers (c_SourceMatch cr) (c_SourceMatchRE cr) (c_SourceMatchers cr);
  targetm ← side_matchers (c_TargetMatch cr) (c_TargetMatchRE cr) (c_TargetMatchers cr);
  Some (mkRule (c_Name cr) sourcem targetm (list_to_set (c_Equal cr)) Store.NewAlerts ∅).

Definition set_cache s r :=
  mkRule (Name r) (SourceMatchers r) (TargetMatchers r) (Equal r) s (sindex r).
Definition set_index i r :=
  mkRule (Name r) (SourceMatchers r) (TargetMatchers r) (Equal r) (scache r) i.

(** The label set that [fingerprintEquals] hashes: every equal label, with the
    empty value when it is missing. *)
Definition equal_labels (names : gset string) (lset : LabelSet) : LabelSet :=
  set_to_map (λ n, (n, label_get lset n)) names.

Definition fingerprintEquals (r : InhibitRule) (lset : LabelSet) : Z :=
  Fingerprint (equal_labels (Equal r) lset).

(** [updateIndex]. *)
Definition updateIndex (r : InhibitRule) (a : Alert) : InhibitRule :=
  let fp := alert_Fingerprint a in
  let eq := fingerprintEquals r (Labels a) in
  match sindex r !! eq with
  | None => set_index (<[eq := fp]> (sindex r)) r
  | Some indexed =>
      if indexed =? fp then r else
      match Get (scache r) indexed with
      | Err _ => set_index (<[eq := fp]> (sindex r)) r
      | Ok existing =>
          if ResolvedAt (EndsAt existing) (EndsAt a)
          then set_index (<[eq := fp]> (sindex r)) r else r
      end
  end.

(** [findEqualSourceAlert]. *)
Definition findEqualSourceAlert (r : InhibitRule) (lset : LabelSet) (now : time) : option Alert :=
  match sindex r !! fingerprintEquals r lset with
  | None => None
  | Some sourceFP =>
      match Get (scache r) sourceFP with
      | Err _ => None
      | Ok a => if ResolvedAt (EndsAt a) now then None else Some a
      end
  end.

Definition hasEqual (r : InhibitRule) (lset : LabelSet) (excludeTwoSidedMatch : bool) (now : time)
    : option Z :=
  match findEqualSourceAlert r lset now with
  | Some equal =>
      if excludeTwoSidedMatch && Labels.matchesb (TargetMatchers r) (Labels equal) then None
      else Some (alert_Fingerprint equal)
  | None => None
  end.

Definition gcCallback (r : InhibitRule) (l : list Alert) : InhibitRule :=
  set_index (foldl (λ i a, delete (fingerprintEquals r (Labels a)) i) (sindex r) l) r.

(** A run of the cache's garbage collection, with the callback. *)
Definition rule_GC (r : InhibitRule) (at_ : Alert → time) (now : time) : InhibitRule :=
  let '(s, deleted) := Store.GC (scache r) at_ now in
  gcCallback (set_cache s r) deleted.

(** ** The inhibitor *)
Definition process_rule (a : Alert) (now : time) (r : InhibitRule) : InhibitRule :=
  if Labels.matchesb (SourceMatchers r) (Labels a) then
    let '(s, err) := Store.Set_ (scache r) a now in
    let r := set_cache s r in
    match err with
    | Some _ => r
    | None => updateIndex r a
    end
  else r.

Definition processAlert (rules : list InhibitRule) (a : Alert) (now : time) : list InhibitRule :=
  process_rule a now <$> rules.

(** [Mutes]: the fingerprint of the inhibiting alert, for the marker. *)
Fixpoint Mutes (rules : list InhibitRule) (lset : LabelSet) (now : time) : option Z :=
  match rules with
  | [] => None
  | r :: rules =>
      if Labels.matchesb (TargetMatchers r) lset then
        match hasEqual r lset (Labels.matchesb (SourceMatchers r) lset) now with
        | Some fp => Some fp
        | None => Mutes rules lset now
        end
      else Mutes rules lset now
  end.

(** ** The invariant of a rule *)
Definition U_ok (U : LabelSet → Prop) : Prop :=
  ∀ l1 l2, U l1 → U l2 → Fingerprint l1 = Fingerprint l2 → l1 = l2.

(** Cached alerts are filed under their fingerprint and match the source side;
    an index entry points to the fingerprint of a source alert with those equal
    labels, which may have left the cache. *)
Record rinv (U : LabelSet → Prop) (r : InhibitRule) : Prop := {
  ri_cache : ∀ fp a, Store.alerts (scache r) !! fp = Some a →
    alert_Fingerprint a = fp ∧ Labels.sat_all (SourceMatchers r) (Labels a) ∧ U (Labels a);
  ri_index : ∀ eq fp, sindex r !! eq = Some fp →
    ∃ l, U l ∧ Fingerprint l = fp ∧ fingerprintEquals r l = eq;
}.

Lemma Set_None s a now s' :
  Store.Set_ s a now = (s', None) →
  Store.alerts s' = <[alert_Fingerprint a := a]> (Store.alerts s).
Proof.
  unfold Store.Set_. destruct (destroyed s); [done|].
  destruct (0 <? perAlertLimit s); [|by intros [= <-]].
  destruct (Bucket.Upsert _ _ _ _) as [bk []]; by intros [= <-].
Qed.

Lemma Set_Some s a now s' e :
  Store.Set_ s a now = (s', Some e) → Store.alerts s' = Store.alerts s.
Proof.
  unfold Store.Set_. destruct (destroyed s); [by intros [= <- <-]|].
  destruct (0 <? perAlertLimit s); [|done].
  destruct (Bucket.Upsert _ _ _ _) as [bk []]; by intros [= <- <-].
Qed.

Lemma updateIndex_fields r a :
  scache (updateIndex r a) = scache r ∧ Equal (updateIndex r a) = Equal r ∧
  SourceMatchers (updateIndex r a) = SourceMatchers r ∧
  TargetMatchers (updateIndex r a) = TargetMatchers r ∧
  (sindex (updateIndex r a) = sindex r ∨
   sindex (updateIndex r a) = <[fingerprintEquals r (Labels a) := alert_Fingerprint a]> (sindex r)).
Proof. unfold updateIndex. repeat case_match; cbn; split_and!; auto. Qed.

Lemma Set_inv U r a now :
  Labels.sat_all (SourceMatchers r) (Labels a) → U (Labels a) → rinv U r →
  rinv U (set_cache (Store.Set_ (scache r) a now).1 r).
Proof.
  intros Hm Ha [Hc Hi]. constructor; [|exact Hi]. intros fp b. cbn.
  destruct (Store.Set_ (scache r) a now) as [s [e|]] eqn:Hset; cbn.
  - rewrite (Set_Some _ _ _ _ _ Hset). apply Hc.
  - rewrite (Set_None _ _ _ _ Hset).
    intros [[<- <-]|[_ Hb]]%lookup_insert_Some; [done|by apply Hc].
Qed.

Lemma updateIndex_inv U r a : U (Labels a) → rinv U r → rinv U (updateIndex r a).
Proof.
  intros Ha [Hc Hi]. destruct (updateIndex_fields r a) as (E1 & E2 & E3 & _ & E5).
  constructor; [rewrite E1, E3; exact Hc|]. intros eq fp Hix.
  unfold fingerprintEquals. rewrite E2.
  destruct E5 as [E5|E5]; rewrite E5 in Hix; [by apply Hi|].
  apply lookup_insert_Some in Hix as [[<- <-]|[_ Hix]]; [by exists (Labels a)|by apply Hi].
Qed.

Lemma foldl_delete_lookup (r : InhibitRule) (l : list Alert) : ∀ (i : gmap Z Z) eq fp,
  foldl (λ i a, delete (fingerprintEquals r (Labels a)) i) i l !! eq = Some fp →
  i !! eq = Some fp ∧ ∀ a, a ∈ l → fingerprintEquals r (Labels a) ≠ eq.
Proof.
  induction l as [|a l IH]; intros i eq fp; cbn; [by intros; split; [|intros ? ?%elem_of_nil]|].
  intros [Hd Hl]%IH. apply lookup_delete_Some in Hd as [Hne Hi]. split; [done|].
  intros b [->|Hb]%elem_of_cons; [done|]. by apply Hl.
Qed.

Lemma collect_inv U r at_ now : rinv U r → rinv U (set_cache (Store.GC (scache r) at_ now).1 r).
Proof.
  intros [Hc Hi]. constructor; [|exact Hi]. intros fp a. cbn. unfold Store.GC.
  rewrite gcAlerts_lookup. cbn. destruct (Store.alerts (scache r) !! fp) as [b|] eqn:Hb; [|done].
  case_match; [done|]. intros [= <-]. by apply Hc.
Qed.

Lemma gcCallback_inv U r l : rinv U r → rinv U (gcCallback r l).
Proof. intros [Hc Hi]. constructor; [exact Hc|]. intros eq fp [Hix _]%foldl_delete_lookup. by apply Hi. Qed.

(** ** Reachable rules

    The cache and the index have locks of their own: processAlert stores the
    alert and then updates the index, the collector deletes from the cache and
    then calls back, and the two run in different goroutines, so that the four
    steps interleave. *)
Inductive rstep (U : LabelSet → Prop) : relation InhibitRule :=
| rstep_set r a now : U (Labels a) → Labels.sat_all (SourceMatchers r) (Labels a) →
    rstep U r (set_cache (Store.Set_ (scache r) a now).1 r)
| rstep_index r a : U (Labels a) → rstep U r (updateIndex r a)
| rstep_collect r at_ now : rstep U r (set_cache (Store.GC (scache r) at_ now).1 r)
| rstep_callback r l : rstep U r (gcCallback r l).

(** A whole call of processAlert and a whole collection are such steps. *)
Lemma process_rule_steps U r a now : U (Labels a) → rtc (rstep U) r (process_rule a now r).
Proof.
  intros Ha. unfold process_rule.
  destruct (Labels.matchesb (SourceMatchers r) (Labels a)) eqn:Hm; [|done].
  apply Labels.matchesb_spec in Hm. pose proof (rstep_set U r a now Ha Hm) as Hs.
  destruct (Store.Set_ (scache r) a now) as [s [e|]]; cbn in Hs; [by apply rtc_once|].
  eapply rtc_l; [exact Hs|]. by apply rtc_once, rstep_index.
Qed.

Lemma rule_GC_steps U r at_ now : rtc (rstep U) r (rule_GC r at_ now).
Proof.
  unfold rule_GC. pose proof (rstep_collect U r at_ now) as Hs.
  destruct (Store.GC (scache r) at_ now) as [s deleted]; cbn in Hs.
  eapply rtc_l; [exact Hs|]. by apply rtc_once, rstep_callback.
Qed.

Lemma New_inv U cr r : NewInhibitRule cr = Some r → rinv U r.
Proof.
  unfold NewInhibitRule. intros (sm & _ & (tm & _ & [= <-])%bind_Some)%bind_Some.
  constructor; cbn; intros *; by rewrite lookup_empty.
Qed.

Lemma reachable_rinv U cr r0 r :
  NewInhibitRule cr = Some r0 → rtc (rstep U) r0 r → rinv U r.
Proof.
  intros Hn Hr. assert (Hi : rinv U r0) by by eapply New_inv. clear Hn. revert Hi.
  induction Hr as [|x y z Hxy _ IH]; [done|]. intros Hx. apply IH.
  destruct Hxy; eauto using Set_inv, updateIndex_inv, collect_inv, gcCallback_inv.
Qed.

(** What it means that [a] inhibits an alert with labels [lset]. *)
Definition inhibits (r : InhibitRule) (a : Alert) (lset : LabelSet) (now : time) : Prop :=
  Labels.sat_all (SourceMatchers r) (Labels a) ∧ Labels.sat_all (TargetMatchers r) lset ∧
  (∀ n, n ∈ Equal r → label_get (Labels a) n = label_get lset n) ∧
  Resolved a now = false ∧
  ¬ (Labels.sat_all (SourceMatchers r) lset ∧ Labels.sat_all (TargetMatchers r) (Labels a)).

Lemma equal_labels_lookup names lset n :
  n ∈ names → equal_labels names lset !! n = Some (label_get lset n).
Proof.
  intros Hn. unfold equal_labels. apply lookup_set_to_map; [by intros|]. by exists n.
Qed.

Lemma equal_labels_inj names l1 l2 :
  equal_labels names l1 = equal_labels names l2 → ∀ n, n ∈ names → label_get l1 n = label_get l2 n.
Proof.
  intros E n Hn. pose proof (equal_labels_lookup names l1 n Hn) as H1.
  rewrite E, (equal_labels_lookup names l2 n Hn) in H1. congruence.
Qed.

Lemma hasEqual_sound U r lset now fp :
  rinv U r → U_ok U → U (equal_labels (Equal r) lset) →
  (∀ fp a, Store.alerts (scache r) !! fp = Some a → U (equal_labels (Equal r) (Labels a))) →
  Labels.sat_all (TargetMatchers r) lset →
  hasEqual r lset (Labels.matchesb (SourceMatchers r) lset) now = Some fp →
  ∃ a, Store.alerts (scache r) !! fp = Some a ∧ inhibits r a lset now.
Proof.
  intros [Hc Hi] HU Hul Hua Ht. unfold hasEqual, findEqualSourceAlert, Get.
  destruct (sindex r !! fingerprintEquals r lset) as [sfp|] eqn:Hix; [|done].
  destruct (Store.alerts (scache r) !! sfp) as [a|] eqn:Ha; [|done].
  destruct (ResolvedAt (EndsAt a) now) eqn:Hres; [done|]. destruct (Hc _ _ Ha) as (Hfp & Hsrc & HUa).
  destruct (Hi _ _ Hix) as (l & HUl & Hl & Heq).
  assert (l = Labels a) as -> by by apply HU; [..|rewrite Hl].
  destruct (Labels.matchesb (SourceMatchers r) lset && _) eqn:Htwo; [done|].
  intros [= <-]. exists a. rewrite Hfp. split; [done|]. split_and!; [done..| |done|].
  - apply equal_labels_inj. apply HU; [by eapply Hua|done|exact Heq].
  - intros [H1%Labels.matchesb_spec H2%Labels.matchesb_spec]. by rewrite H1, H2 in Htwo.
Qed.

(** The rules of an inhibitor that has run, on label sets whose fingerprints
    differ. *)
Definition rules_ok (U : LabelSet → Prop) (rules : list InhibitRule) (lset : LabelSet) : Prop :=
  ∀ r, r ∈ rules → (∃ cr r0, NewInhibitRule cr = Some r0 ∧ rtc (rstep U) r0 r) ∧
     U (equal_labels (Equal r) lset) ∧
     ∀ fp a, Store.alerts (scache r) !! fp = Some a → U (equal_labels (Equal r) (Labels a)).

Lemma Mutes_sound U rules lset now fp :
  U_ok U → rules_ok U rules lset → Mutes rules lset now = Some fp →
  ∃ r a, r ∈ rules ∧ Store.alerts (scache r) !! fp = Some a ∧ inhibits r a lset now.
Proof.
  intros HU. induction rules as [|r rules IH]; intros Hr; cbn; [done|].
  destruct (Hr r ltac:(by left)) as ((cr & r0 & Hnew & Hreach) & Hul & Hua).
  pose proof (reachable_rinv U cr r0 r Hnew Hreach) as Hinv.
  assert (Hrec : Mutes rules lset now = Some fp → ∃ r0 a, (r0 ∈ r :: rules) ∧
    Store.alerts (scache r0) !! fp = Some a ∧ inhibits r0 a lset now).
  { intros Hm. destruct IH as (r1 & a & Hin & ?); [intros ? ?; apply Hr; by right|done|].
    exists r1, a. split; [by right|done]. }
  destruct (Labels.matchesb (TargetMatchers r) lset) eqn:Ht; [|done].
  apply Labels.matchesb_spec in Ht.
  destruct (hasEqual r lset _ now) as [fp'|] eqn:He; [|done]. intros [= ->].
  destruct (hasEqual_sound U r lset now fp Hinv HU Hul Hua Ht He) as (a & Ha & Hin).
  exists r, a. split; [by left|done].
Qed.

(** C38: inhibition is sound: when Mutes answers with a fingerprint, some rule
    has a cached, unresolved source alert with that fingerprint which matches
    the source side, the muted label set matches the target side, all equal
    labels agree, and the two do not inhibit each other by matching both sides
    (fingerprints of the label sets at hand do not collide). *)
Theorem inhibit_mutes_sound U rules lset now fp :
  U_ok U →
  (∀ r, r ∈ rules → (∃ cr r0, NewInhibitRule cr = Some r0 ∧ rtc (rstep U) r0 r) ∧
     U (equal_labels (Equal r) lset) ∧
     ∀ fp a, Store.alerts (scache r) !! fp = Some a → U (equal_labels (Equal r) (Labels a))) →
  Mutes rules lset now = Some fp →
  ∃ r a, r ∈ rules ∧ Store.alerts (scache r) !! fp = Some a ∧ inhibits r a lset now.
Proof. intros HU Hr. by apply Mutes_sound with U. Qed.

(** inhibition takes effect: right after an unresolved source alert has
    been processed, a matching target is muted by its rule, provided no other
    cached source alert has the same equal labels (the index has room for one
    per equal label set). *)
Theorem inhibit_effective U r a now s lset :
  U_ok U → rinv U r → U (Labels a) →
  Store.Set_ (scache r) a now = (s, None) → inhibits r a lset now →
  (∀ fp b, Store.alerts (scache r) !! fp = Some b → Labels b ≠ Labels a →
     fingerprintEquals r (Labels b) ≠ fingerprintEquals r (Labels a)) →
  hasEqual (process_rule a now r) lset (Labels.matchesb (SourceMatchers r) lset) now =
    Some (alert_Fingerprint a).
Proof.
  intros HU [Hc Hi] Ha Hset (Hsrc & Ht & Heq & Hres & Htwo) Hone.
  unfold process_rule. rewrite (proj2 (Labels.matchesb_spec _ _) Hsrc), Hset.
  apply Set_None in Hset as Hs.
  destruct (updateIndex_fields (set_cache s r) a) as (E1 & E2 & E3 & E4 & _).
  assert (Hix : sindex (updateIndex (set_cache s r) a) !! fingerprintEquals r (Labels a) =
    Some (alert_Fingerprint a)).
  { unfold updateIndex. cbn [sindex set_cache].
    change (fingerprintEquals (set_cache s r)) with (fingerprintEquals r).
    destruct (sindex r !! fingerprintEquals r (Labels a)) as [ix|] eqn:Hix; [|apply lookup_insert_eq].
    destruct (Z.eqb_spec ix (alert_Fingerprint a)) as [->|Hne]; [done|].
    unfold Get. cbn [scache set_cache]. rewrite Hs, lookup_insert_ne by done.
    destruct (Store.alerts (scache r) !! ix) as [b|] eqn:Hb; [|apply lookup_insert_eq]. exfalso.
    destruct (Hi _ _ Hix) as (l & HUl & Hl & Hbeq). destruct (Hc _ _ Hb) as (Hfp & _ & HUb).
    assert (l = Labels b) as -> by by apply HU; [..|rewrite Hl].
    apply (Hone ix b Hb); [|done]. intros E. apply Hne. rewrite <- Hfp.
    unfold alert_Fingerprint. by rewrite E. }
  assert (Hfpe : fingerprintEquals (updateIndex (set_cache s r) a) lset = fingerprintEquals r (Labels a)).
  { unfold fingerprintEquals. rewrite E2. cbn. f_equal. apply map_eq. intros n.
    destruct (decide (n ∈ Equal r)) as [Hn|Hn].
    - rewrite !equal_labels_lookup by done. by rewrite Heq.
    - unfold equal_labels. transitivity (@None string); [|symmetry];
        apply eq_None_not_Some; intros [v Hv]; apply lookup_set_to_map in Hv as (x & Hx & [= <- _]);
        done. }
  unfold hasEqual, findEqualSourceAlert, Get. rewrite Hfpe, Hix, E1. cbn [scache set_cache].
  rewrite Hs, lookup_insert_eq. fold (Resolved a now). unfold Resolved in *. rewrite Hres, E4.
  cbn [TargetMatchers set_cache].
  destruct (Labels.matchesb (SourceMatchers r) lset && _) eqn:H2; [|done].
  apply andb_true_iff in H2 as [H2%Labels.matchesb_spec H3%Labels.matchesb_spec]. by destruct Htwo.
Qed.
End inhibit.
End Inhibit.
