(* ===== verification/Unquote.v ===== *)
(** * strconv.Unquote and text in quotes

    The part of Go's strconv that reads a double-quoted string, and what links
    it to the two printers of label matchers: strconv.Quote and the OpenMetrics
    escaping are both undone by it. *)

From Stdlib Require Import Ascii String.
From stdpp Require Import base list strings numbers sets.
From S2P Require Import Prelude Utf8 Labels.

Module Unquote.

(** ** Reading *)
Definition unhex (b : Z) : option Z :=
  if between 48 57 b then Some (b - 48)
  else if between 97 102 b then Some (b - 97 + 10)
  else if between 65 70 b then Some (b - 65 + 10)
  else None.

(** [n] digits of a base, most significant first, and what follows them. *)
Fixpoint read_digits (digit : Z → option Z) (base : Z) (n : nat) (v : Z) (bs : list Z)
    : option (Z * list Z) :=
  match n, bs with
  | O, _ => Some (v, bs)
  | S n, b :: bs => x ← digit b; read_digits digit base n (v * base + x) bs
  | S _, [] => None
  end.

Definition unoctal (b : Z) : option Z := if between 48 55 b then Some (b - 48) else None.

(** [utf8.ValidRune]. *)
Definition ValidRune (r : rune) : bool := between 0 1114111 r && negb (is_surrogate r).

(** The bytes one escaped character stands for, by the byte after the
    backslash, and what follows it. *)
Definition unescape (c : Z) (bs : list Z) : option (list Z * list Z) :=
  if c =? 97 then Some ([7], bs) else if c =? 98 then Some ([8], bs)
  else if c =? 102 then Some ([12], bs) else if c =? 110 then Some ([10], bs)
  else if c =? 114 then Some ([13], bs) else if c =? 116 then Some ([9], bs)
  else if c =? 118 then Some ([11], bs)
  else if c =? 120 then '(v, bs) ← read_digits unhex 16 2 0 bs; Some ([v], bs)
  else if c =? 117 then
    '(v, bs) ← read_digits unhex 16 4 0 bs;
    if ValidRune v then Some (EncodeRune v, bs) else None
  else if c =? 85 then
    '(v, bs) ← read_digits unhex 16 8 0 bs;
    if ValidRune v then Some (EncodeRune v, bs) else None
  else if between 48 55 c then
    '(v, bs) ← read_digits unoctal 8 2 (c - 48) bs;
    if v <=? 255 then Some ([v], bs) else None
  else if c =? backslash then Some ([backslash], bs)
  else if c =? dquote then Some ([dquote], bs)
  else None.

(** [UnquoteChar] in a double-quoted string: the bytes to append. *)
Definition UnquoteChar (bs : list Z) : option (list Z * list Z) :=
  match bs with
  | [] => None
  | b :: rest =>
      if b =? dquote then None
      else if 128 <=? b then
        let '(r, w) := DecodeRune bs in Some (EncodeRune r, drop w bs)
      else if negb (b =? backslash) then Some ([b], rest)
      else match rest with [] => None | c :: rest => unescape c rest end
  end.

(** The text up to the closing quote, which has to be the last byte.  Every
    round consumes a byte. *)
Fixpoint unquote_loop (fuel : nat) (bs : list Z) : option (list Z) :=
  match fuel with
  | O => None
  | S fuel =>
      match bs with
      | [] => None
      | b :: rest =>
          if b =? dquote then (if bool_decide (rest = []) then Some [] else None)
          else if b =? 10 then None
          else '(out, rest) ← UnquoteChar bs; app out <$> unquote_loop fuel rest
      end
  end.

(** [Unquote] of text that starts with a double quote. *)
Definition Unquote (bs : list Z) : option (list Z) :=
  match bs with
  | b :: rest => if b =? dquote then unquote_loop (length rest) rest else None
  | [] => None
  end.

(** ** Decoding valid text *)
Lemma between_true lo hi x : between lo hi x = true → lo ≤ x ≤ hi.
Proof. by destruct (between_spec lo hi x). Qed.

Lemma first_info_spec b n lo hi :
  first_info b = Some (n, lo, hi) →
  128 ≤ lo ∧ hi ≤ 191 ∧ 194 ≤ b ≤ 244 ∧
  (n = 2%nat ∧ b ≤ 223 ∨
   n = 3%nat ∧ 224 ≤ b ≤ 239 ∧ (b = 224 → lo = 160) ∧ (b = 237 → hi = 159) ∨
   n = 4%nat ∧ 240 ≤ b ∧ (b = 240 → lo = 144) ∧ (b = 244 → hi = 143)).
Proof.
  unfold first_info. intros H. repeat case_match; simplify_eq;
    repeat match goal with
    | H : between _ _ _ = true |- _ => apply between_true in H
    | H : (_ =? _) = true |- _ => apply Z.eqb_eq in H
    end; lia.
Qed.

(** What the decoder accepts is the encoding of the rune it returns. *)
Lemma DecodeRune_inv bs r w :
  Forall is_byte bs → DecodeRune bs = (r, w) → bs ≠ [] →
  (r = RuneError ∧ w = 1%nat) ∨ valid_rune r ∧ take w bs = EncodeRune r.
Proof.
  intros Hb Hd Hne. destruct bs as [|b0 bs]; [done|]. apply Forall_cons_1 in Hb as [Hb0 Hb].
  unfold is_byte in Hb0. unfold DecodeRune in Hd.
  destruct (Z.ltb_spec b0 128).
  { simplify_eq. right. unfold valid_rune, EncodeRune, is_surrogate. between_cases. split_and!; first [done|lia]. }
  destruct (first_info b0) as [[[n lo] hi]|] eqn:Hf; [|simplify_eq; by left].
  apply first_info_spec in Hf as (Hlo & Hhi & Hb1 & Hn).
  destruct Hn as [(-> & ?)|[(-> & ?)|(-> & ?)]].
  - destruct bs as [|b1 bs]; simplify_eq; [by left|].
    destruct (between_spec lo hi b1); simplify_eq; [right|by left].
    unfold valid_rune, EncodeRune, is_surrogate. cbn [take]. rewrite ?take_0.
    between_cases. split_and!; first [done|lia|f_equal; [|f_equal]; Z.to_euclidean_division_equations; lia].
  - destruct bs as [|b1 [|b2 bs]]; simplify_eq; [by left..|]. unfold cont in Hd.
    destruct (between_spec lo hi b1), (between_spec 128 191 b2); cbn in Hd; simplify_eq; try by left.
    right. unfold valid_rune, EncodeRune, is_surrogate. cbn [take]. rewrite ?take_0.
    between_cases; split_and!; first [done|lia|cbn [orb negb]; between_cases;
      f_equal; [|f_equal; [|f_equal]]; Z.to_euclidean_division_equations; lia].
  - destruct bs as [|b1 [|b2 [|b3 bs]]]; simplify_eq; [by left..|]. unfold cont in Hd.
    destruct (between_spec lo hi b1), (between_spec 128 191 b2), (between_spec 128 191 b3);
      cbn in Hd; simplify_eq; try by left.
    right. unfold valid_rune, EncodeRune, is_surrogate. cbn [take]. rewrite ?take_0.
    between_cases; split_and!; first [done|lia|cbn [orb negb]; between_cases;
      f_equal; [|f_equal; [|f_equal; [|f_equal]]]; Z.to_euclidean_division_equations; lia].
Qed.

Lemma DecodeRune_drop bs r w : DecodeRune bs = (r, w) → bs ≠ [] → (length (drop w bs) < length bs)%nat.
Proof.
  intros Hd Hne. pose proof (DecodeRune_width bs Hne) as Hw. rewrite Hd in Hw. cbn in Hw.
  rewrite length_drop. lia.
Qed.

(** Valid text is the encoding of valid runes. *)
Lemma ValidBytes_runes bs :
  Forall is_byte bs → ValidBytes bs = true → ∃ rs, Forall valid_rune rs ∧ bs = encode_runes rs.
Proof.
  unfold ValidBytes. generalize (length bs) as fuel. intros fuel. revert bs.
  induction fuel as [|fuel IH]; intros bs Hb Hv.
  { exists []. destruct bs; [done|discriminate Hv]. }
  destruct bs as [|b0 bs0] eqn:E; [by exists []|]. rewrite <-E in *. cbn [valid_fuel] in Hv.
  assert (Hne : bs ≠ []) by by subst. destruct (DecodeRune bs) as [r w] eqn:Hd.
  assert (Hc : negb ((r =? RuneError) && (w =? 1)%nat) && valid_fuel fuel (drop w bs) = true)
    by by subst bs.
  apply andb_true_iff in Hc as [Hc Hrest].
  destruct (DecodeRune_inv bs r w Hb Hd Hne) as [[-> ->]|[Hr Ht]]; [done|].
  destruct (IH (drop w bs)) as (rs & Hrs & Hdrop); [by apply Forall_drop|done|].
  exists (r :: rs). split; [by constructor|].
  change (encode_runes (r :: rs)) with (EncodeRune r ++ encode_runes rs).
  by rewrite <-Ht, <-Hdrop, take_drop.
Qed.

(** ** ASCII bytes are runes of their own *)
Lemma DecodeRune_ascii bs b :
  b ∈ take (DecodeRune bs).2 bs → b < 128 → (DecodeRune bs).1 = b.
Proof.
  destruct bs as [|b0 rest]; [cbn; by intros ?%elem_of_nil|]. unfold DecodeRune.
  destruct (Z.ltb_spec b0 128) as [|H0]; [cbn; set_solver|].
  assert (Hlo : ∀ n lo hi, first_info b0 = Some (n, lo, hi) → 128 ≤ lo)
    by (unfold first_info; intros; repeat case_match; simplify_eq; lia).
  intros Hin Hb. exfalso. cut (Forall (Z.le 128) (take (DecodeRune (b0 :: rest)).2 (b0 :: rest))).
  { unfold DecodeRune. rewrite (proj2 (Z.ltb_ge b0 128)), Forall_forall by done.
    intros HF. specialize (HF b Hin). lia. }
  clear Hin. unfold DecodeRune, cont. rewrite (proj2 (Z.ltb_ge b0 128)) by done.
  destruct (first_info b0) as [[[n lo] hi]|]; [specialize (Hlo n lo hi eq_refl)|by repeat constructor].
  destruct n as [|[|[|[|[|n]]]]], rest as [|b1 [|b2 [|b3 rest]]]; cbn;
    between_cases; repeat (constructor; try lia).
Qed.

Lemma ascii_in_runes_fuel fuel : ∀ bs b,
  (length bs ≤ fuel)%nat → b ∈ bs → b < 128 → b ∈ runes_fuel fuel bs.
Proof.
  induction fuel as [|fuel IH]; intros bs b Hf Hin Hb.
  { destruct bs; [done|cbn in Hf; lia]. }
  destruct bs as [|b0 bs0] eqn:E; [by apply elem_of_nil in Hin|]. cbn [runes_fuel]. rewrite <-E in *.
  pose proof (DecodeRune_width bs ltac:(by subst)) as Hw.
  pose proof (DecodeRune_ascii bs b) as Ha. destruct (DecodeRune bs) as [r w]. cbn in *.
  rewrite <-(take_drop w bs), elem_of_app in Hin. destruct Hin as [Hin|Hin].
  - rewrite (Ha Hin Hb). by left.
  - right. apply IH; [rewrite length_drop; lia|done|done].
Qed.

(** A text without a certain kind of runes has no such bytes. *)
Lemma ContainsFunc_bytes s f b :
  ContainsFunc s f = false → b ∈ bytes s → b < 128 → f b = false.
Proof.
  intros Hn Hb Hlt. apply not_true_is_false. intros Hf. unfold ContainsFunc in Hn.
  apply not_true_iff_false in Hn. apply Hn, existsb_exists. exists b. split; [|done].
  apply list_elem_of_In. by apply ascii_in_runes_fuel.
Qed.

Lemma ValidBytes_encode rs : Forall valid_rune rs → ValidBytes (encode_runes rs) = true.
Proof.
  intros Hrs. unfold ValidBytes.
  assert (H : ∀ fuel, (length (encode_runes rs) ≤ fuel)%nat → valid_fuel fuel (encode_runes rs) = true); [|by apply H].
  induction Hrs as [|r rs Hr _ IH]; intros fuel Hf; [by destruct fuel|].
  change (encode_runes (r :: rs)) with (EncodeRune r ++ encode_runes rs) in *.
  pose proof (EncodeRune_nonempty r) as Hne. rewrite length_app in Hf.
  destruct fuel as [|fuel]; [destruct (EncodeRune r); [done|cbn in Hf; lia]|].
  pose proof (DecodeRune_EncodeRune r (encode_runes rs) Hr) as Hd.
  destruct (EncodeRune r ++ encode_runes rs) as [|b bs] eqn:E; [by apply app_nil in E as [? _]|].
  cbn [valid_fuel]. rewrite Hd, <-E, drop_app_length, IH by (destruct (EncodeRune r); [done|cbn in Hf; lia]).
  destruct (Z.eqb_spec r RuneError) as [->|]; done.
Qed.

(** ** The reader, piece by piece *)
Lemma read_digits_length digit base n : ∀ v bs x rest,
  read_digits digit base n v bs = Some (x, rest) → (length rest ≤ length bs)%nat.
Proof.
  induction n as [|n IH]; intros v bs x rest H; cbn in H; [by simplify_eq|].
  destruct bs as [|b bs]; [done|]. destruct (digit b); [|done]. cbn in H.
  apply IH in H. cbn. lia.
Qed.

Lemma unescape_length c bs out rest :
  unescape c bs = Some (out, rest) → (length rest ≤ length bs)%nat.
Proof.
  unfold unescape. intros H.
  repeat match type of H with
  | (if ?b then _ else _) = _ => destruct b
  | (read_digits ?d ?base ?n ?v ?l ≫= _) = _ =>
      let E := fresh in destruct (read_digits d base n v l) as [[]|] eqn:E; [|done];
      apply read_digits_length in E; cbn in H
  end; by simplify_eq.
Qed.

Lemma UnquoteChar_length bs out rest :
  UnquoteChar bs = Some (out, rest) → (length rest < length bs)%nat.
Proof.
  unfold UnquoteChar. destruct bs as [|b bs]; [done|]. intros H.
  destruct (b =? dquote); [done|]. destruct (128 <=? b).
  { destruct (DecodeRune (b :: bs)) as [r w] eqn:Hd. simplify_eq. by eapply DecodeRune_drop. }
  destruct (negb _); [simplify_eq; cbn; lia|]. destruct bs as [|c bs]; [done|].
  apply unescape_length in H. cbn. lia.
Qed.

Lemma unquote_fuel f1 : ∀ f2 bs, (length bs ≤ f1)%nat → (length bs ≤ f2)%nat →
  unquote_loop f1 bs = unquote_loop f2 bs.
Proof.
  induction f1 as [|f1 IH]; intros f2 bs H1 H2.
  { destruct bs; [by destruct f2|cbn in H1; lia]. }
  destruct bs as [|b bs]; [by destruct f2|]. destruct f2 as [|f2]; [cbn in H2; lia|].
  cbn [unquote_loop]. destruct (b =? dquote); [done|]. destruct (b =? 10); [done|].
  destruct (UnquoteChar (b :: bs)) as [[out rest]|] eqn:Hc; [|done]. cbn [mbind option_bind].
  apply UnquoteChar_length in Hc. cbn in *. rewrite (IH f2) by lia. done.
Qed.

(** The reader with enough fuel. *)
Definition unq (bs : list Z) : option (list Z) := unquote_loop (length bs) bs.

Lemma unq_step b bs out rest :
  b ≠ dquote → b ≠ 10 → UnquoteChar (b :: bs) = Some (out, rest) →
  unq (b :: bs) = app out <$> unq rest.
Proof.
  intros H1%Z.eqb_neq H2%Z.eqb_neq Hc. unfold unq. cbn [unquote_loop length].
  rewrite H1, H2, Hc. cbn [mbind option_bind]. f_equal. apply UnquoteChar_length in Hc.
  apply unquote_fuel; cbn in *; lia.
Qed.

Lemma EncodeRune_wide r b : b ∈ EncodeRune r → b = r ∧ r < 128 ∨ 128 ≤ b.
Proof.
  intros Hb. unfold EncodeRune, is_surrogate in Hb.
  pose proof (mod64_range r). pose proof (mod64_range (r / 64)).
  pose proof (mod64_range (r / 4096)).
  destruct (between_spec 0 127 r); [left; apply list_elem_of_singleton in Hb; lia|].
  destruct (between_spec 128 2047 r).
  { right. rewrite !elem_of_cons, elem_of_nil in Hb. pose proof (Z.div_pos r 64). lia. }
  destruct (between_spec 0 1114111 r); cbn in Hb.
  2:{ right. rewrite orb_true_r, !elem_of_cons, elem_of_nil in Hb. lia. }
  right. pose proof (Z.div_pos r 4096). pose proof (Z.div_pos r 262144).
  repeat case_match; rewrite !elem_of_cons, elem_of_nil in Hb; lia.
Qed.

Lemma EncodeRune_head r : valid_rune r →
  ∃ b l, EncodeRune r = b :: l ∧ (r < 128 → b = r ∧ l = []) ∧ (128 ≤ r → 128 ≤ b).
Proof.
  intros [Hr _]. unfold EncodeRune, is_surrogate.
  pose proof (mod64_range r). pose proof (mod64_range (r / 64)).
  pose proof (Z.div_pos r 64). pose proof (Z.div_pos r 4096). pose proof (Z.div_pos r 262144).
  repeat case_match; to_props; eexists _, _; (split; [done|]); split; intros; try split; try done;
    unfold between in *; to_props; try lia.
Qed.

(** A rune that stands for itself. *)
Lemma unq_rune r rest :
  valid_rune r → r ∉ [dquote; backslash; 10] →
  unq (EncodeRune r ++ rest) = app (EncodeRune r) <$> unq rest.
Proof.
  intros Hr Hn. destruct (EncodeRune_head r Hr) as (b & l & E & Hlo & Hhi).
  rewrite E. destruct (decide (r < 128)) as [H|H].
  - destruct (Hlo H) as [-> ->]. apply (unq_step r rest [r] rest); [set_solver..|].
    cbn [UnquoteChar]. rewrite (proj2 (Z.eqb_neq r dquote)) by set_solver.
    rewrite (proj2 (Z.leb_gt 128 r)) by done. by rewrite (proj2 (Z.eqb_neq r backslash)) by set_solver.
  - specialize (Hhi ltac:(lia)). apply (unq_step b (l ++ rest) (b :: l) rest); [unfold dquote; lia|lia|].
    unfold UnquoteChar. rewrite (proj2 (Z.eqb_neq b dquote)) by (unfold dquote; lia).
    rewrite (proj2 (Z.leb_le 128 b)) by done. rewrite app_comm_cons, <-E, DecodeRune_EncodeRune by done.
    by rewrite drop_app_length.
Qed.

(** An escape sequence. *)
Lemma unq_escape c tail out rest :
  unescape c tail = Some (out, rest) → unq (backslash :: c :: tail) = app out <$> unq rest.
Proof. intros H. by apply unq_step. Qed.

Lemma unq_end : unq [dquote] = Some [].
Proof. done. Qed.

(** ** The OpenMetrics escaping is read back *)
Lemma escape_rune r :
  valid_rune r →
  concat (map Labels.escape_byte (EncodeRune r)) =
    if decide (r ∈ [backslash; 10; dquote]) then Labels.escape_byte r else EncodeRune r.
Proof.
  intros Hr. case_decide as Hs.
  - rewrite !elem_of_cons, elem_of_nil in Hs. by destruct_or! Hs; subst.
  - assert (Hid : ∀ l, (∀ b, b ∈ l → b ∉ [backslash; 10; dquote]) →
      concat (map Labels.escape_byte l) = l).
    { induction l as [|b l IH]; intros Hl; [done|]. cbn. rewrite IH by set_solver.
      assert (Hb : b ∉ [backslash; 10; dquote]) by set_solver. unfold Labels.escape_byte.
      by rewrite !(proj2 (Z.eqb_neq b _)) by set_solver. }
    apply Hid. intros b [[-> _]|Hb]%EncodeRune_wide; [done|].
    rewrite !elem_of_cons, elem_of_nil. unfold backslash, dquote. lia.
Qed.

Lemma unq_escaped rs rest :
  Forall valid_rune rs →
  unq (concat (map Labels.escape_byte (encode_runes rs)) ++ rest) =
    app (encode_runes rs) <$> unq rest.
Proof.
  induction 1 as [|r rs Hr _ IH].
  { change (unq rest = app [] <$> unq rest). by destruct (unq rest). }
  change (encode_runes (r :: rs)) with (EncodeRune r ++ encode_runes rs).
  rewrite map_app, concat_app, <-app_assoc, escape_rune by done.
  assert (Hend : ∀ l, unq (l ++ concat (map Labels.escape_byte (encode_runes rs)) ++ rest) =
      app (EncodeRune r) <$> unq (concat (map Labels.escape_byte (encode_runes rs)) ++ rest) →
    unq (l ++ concat (map Labels.escape_byte (encode_runes rs)) ++ rest) =
      app (EncodeRune r ++ encode_runes rs) <$> unq rest).
  { intros l ->. rewrite IH. destruct (unq rest); [|done]. cbn. by rewrite app_assoc. }
  case_decide as Hs; [|apply Hend, unq_rune; [done|set_solver]].
  rewrite !elem_of_cons, elem_of_nil in Hs. destruct_or! Hs; subst; try done; apply Hend, unq_escape; done.
Qed.

Lemma escape_bytes v : Forall is_byte v → Forall is_byte (concat (map Labels.escape_byte v)).
Proof.
  induction 1 as [|b v Hb _ IH]; cbn; [done|]. apply Forall_app. split; [|done].
  unfold Labels.escape_byte, dquote, backslash. repeat case_match; to_props; subst;
    try apply bytes_is_byte; repeat constructor; unfold is_byte in *; lia.
Qed.

(** ** strconv.Quote is read back *)
Lemma unhex_hexdigit n : 0 ≤ n < 16 → unhex (hexdigit n) = Some n.
Proof.
  intros Hn. unfold hexdigit, unhex. destruct (Z.ltb_spec n 10); between_cases; f_equal; lia.
Qed.

Lemma read_hexdigits n : ∀ v r rest, 0 ≤ r →
  read_digits unhex 16 n v (hexdigits n r ++ rest) = Some (v * 16 ^ Z.of_nat n + r mod 16 ^ Z.of_nat n, rest).
Proof.
  induction n as [|n IH]; intros v r rest Hr; cbn [hexdigits read_digits app].
  { rewrite Z.mod_1_r. do 2 f_equal. lia. }
  change 15 with (Z.ones 4). rewrite Z.land_ones, Z.shiftr_div_pow2 by lia.
  rewrite unhex_hexdigit by (apply Z.mod_pos_bound; lia). cbn [mbind option_bind].
  rewrite IH by done. do 2 f_equal.
  rewrite Nat2Z.inj_succ, Z.pow_succ_r by lia. rewrite Z.pow_mul_r by lia.
  change (2 ^ 4) with 16. set (p := 16 ^ Z.of_nat n).
  assert (0 < p) by (apply Z.pow_pos_nonneg; lia).
  rewrite (Z.mul_comm 16 p), Z.rem_mul_r by lia. ring.
Qed.

Section quote.
Context `{UP : UnicodePrint}.

Lemma valid_ValidRune r : valid_rune r → ValidRune r = true.
Proof.
  intros [Hr Hs]. unfold ValidRune. rewrite Hs. by destruct (between_spec 0 1114111 r).
Qed.

Lemma unq_quoted_rune r rest :
  valid_rune r → unq (appendEscapedRune r ++ rest) = app (EncodeRune r) <$> unq rest.
Proof.
  intros Hr. pose proof Hr as [Hr1 Hr2]. unfold appendEscapedRune.
  destruct ((r =? dquote) || (r =? backslash)) eqn:Hq.
  { apply orb_true_iff in Hq. destruct Hq as [->%Z.eqb_eq| ->%Z.eqb_eq]; by apply unq_escape. }
  apply orb_false_iff in Hq as [Hq1%Z.eqb_neq Hq2%Z.eqb_neq].
  destruct (IsPrint r) eqn:Hp.
  { apply unq_rune; [done|]. rewrite !elem_of_cons, elem_of_nil. intros [|[|[->|]]]; done. }
  clear Hp.
  destruct (Z.eqb_spec r 7) as [->|]; [by apply (unq_escape 97 rest)|].
  destruct (Z.eqb_spec r 8) as [->|]; [by apply (unq_escape 98 rest)|].
  destruct (Z.eqb_spec r 12) as [->|]; [by apply (unq_escape 102 rest)|].
  destruct (Z.eqb_spec r 10) as [->|]; [by apply (unq_escape 110 rest)|].
  destruct (Z.eqb_spec r 13) as [->|]; [by apply (unq_escape 114 rest)|].
  destruct (Z.eqb_spec r 9) as [->|]; [by apply (unq_escape 116 rest)|].
  destruct (Z.eqb_spec r 11) as [->|]; [by apply (unq_escape 118 rest)|].
  destruct ((r <? 32) || (r =? 127)) eqn:Hc.
  { apply (unq_escape 120 (hexdigits 2 r ++ rest)). unfold unescape. cbn [Z.eqb Pos.eqb].
    rewrite read_hexdigits by lia. cbn [mbind option_bind]. apply orb_true_iff in Hc.
    assert (r < 128) by (destruct Hc as [?%Z.ltb_lt|?%Z.eqb_eq]; lia).
    change (16 ^ Z.of_nat 2) with 256. rewrite Z.mod_small, Z.add_0_l by lia.
    unfold EncodeRune. by between_cases. }
  rewrite Hr2. destruct (between_spec 0 1114111 r); [cbn [orb negb]|lia].
  destruct (Z.ltb_spec r 65536).
  - apply (unq_escape 117 (hexdigits 4 r ++ rest)). unfold unescape. cbn [Z.eqb Pos.eqb].
    rewrite read_hexdigits by lia. cbn [mbind option_bind].
    change (16 ^ Z.of_nat 4) with 65536. rewrite Z.mod_small, Z.add_0_l by lia.
    by rewrite valid_ValidRune.
  - apply (unq_escape 85 (hexdigits 8 r ++ rest)). unfold unescape. cbn [Z.eqb Pos.eqb].
    rewrite read_hexdigits by lia. cbn [mbind option_bind].
    change (16 ^ Z.of_nat 8) with 4294967296. rewrite Z.mod_small, Z.add_0_l by lia.
    by rewrite valid_ValidRune.
Qed.

Lemma unq_quote_fuel fuel : ∀ bs rest, Forall is_byte bs → (length bs ≤ fuel)%nat →
  unq (quote_fuel fuel bs ++ rest) = app bs <$> unq rest.
Proof.
  induction fuel as [|fuel IH]; intros bs rest Hb Hf.
  { destruct bs; [|cbn in Hf; lia]. change (unq rest = app [] <$> unq rest). by destruct (unq rest). }
  destruct bs as [|b0 bs0] eqn:E; [change (unq rest = app [] <$> unq rest); by destruct (unq rest)|].
  rewrite <-E in *. assert (Hne : bs ≠ []) by by subst. destruct (DecodeRune bs) as [r w] eqn:Hd.
  assert (Hq : quote_fuel (S fuel) bs =
    (if (w =? 1)%nat && (r =? RuneError) then bytes "\x" ++ hexdigits 2 b0
     else appendEscapedRune r) ++ quote_fuel fuel (drop w bs)) by (subst bs; cbn [quote_fuel]; by rewrite Hd).
  rewrite Hq, <-app_assoc. pose proof (DecodeRune_drop bs r w Hd Hne).
  assert (IH' := IH (drop w bs) rest ltac:(by apply Forall_drop) ltac:(lia)).
  destruct (DecodeRune_inv bs r w Hb Hd Hne) as [[-> ->]|[Hr Ht]].
  - rewrite Nat.eqb_refl, Z.eqb_refl. cbn [andb]. rewrite <-app_assoc.
    change (bytes "\x" ++ hexdigits 2 b0 ++ quote_fuel fuel (drop 1 bs) ++ rest) with
      (backslash :: 120 :: hexdigits 2 b0 ++ quote_fuel fuel (drop 1 bs) ++ rest).
    rewrite (unq_escape 120 _ [b0] (quote_fuel fuel (drop 1 bs) ++ rest)), IH'.
    + subst bs. destruct (unq rest); done.
    + unfold unescape. cbn [Z.eqb Pos.eqb]. subst bs. apply Forall_cons_1 in Hb as [Hb0 _].
      unfold is_byte in Hb0. rewrite read_hexdigits by lia. cbn [mbind option_bind].
      change (16 ^ Z.of_nat 2) with 256. by rewrite Z.mod_small, Z.add_0_l by lia.
  - assert (Hbad : (w =? 1)%nat && (r =? RuneError) = false).
    { destruct (Z.eqb_spec r RuneError) as [->|]; [|by rewrite andb_false_r].
      destruct (Nat.eqb_spec w 1) as [->|]; [|done].
      apply (f_equal length) in Ht. by destruct bs. }
    rewrite Hbad, unq_quoted_rune, IH' by done. destruct (unq rest); [|done]. cbn.
    by rewrite app_assoc, <-Ht, take_drop.
Qed.

(** The bytes of quoted text. *)
Lemma hexdigits_bytes n r : Forall is_byte (hexdigits n r).
Proof.
  induction n as [|n IH]; cbn; constructor; [|done]. unfold hexdigit, is_byte.
  change 15 with (Z.ones 4). rewrite Z.land_ones by lia.
  pose proof (Z.mod_pos_bound (Z.shiftr r (4 * Z.of_nat n)) (2 ^ 4) ltac:(lia)) as Hm.
  change (2 ^ 4) with 16 in *. destruct (Z.ltb_spec (Z.shiftr r (4 * Z.of_nat n) mod 16) 10); lia.
Qed.

Lemma quote_bytes fuel : ∀ bs, Forall is_byte (quote_fuel fuel bs).
Proof.
  induction fuel as [|fuel IH]; intros [|b bs]; cbn [quote_fuel]; try constructor.
  destruct (DecodeRune (b :: bs)) as [r w]. apply Forall_app. split; [|apply IH].
  unfold appendEscapedRune. repeat case_match; rewrite ?Forall_app;
    try split; try apply bytes_is_byte; try apply hexdigits_bytes; try apply EncodeRune_bytes.
  apply orb_true_iff in H0. unfold dquote, backslash in *. to_props.
  repeat constructor; unfold is_byte; lia.
Qed.

(** The value of a quoted token. *)
Lemma Unquote_Quote s : Unquote (bytes (Quote s)) = Some (bytes s).
Proof.
  unfold Quote. rewrite bytes_of_bytes.
  - unfold Unquote. rewrite Z.eqb_refl. fold (unq (quote_fuel (length (bytes s)) (bytes s) ++ [dquote])).
    rewrite unq_quote_fuel, unq_end by (done || apply bytes_is_byte). cbn. by rewrite app_nil_r.
  - constructor; [unfold is_byte, dquote; lia|]. apply Forall_app. split; [apply quote_bytes|].
    repeat constructor; unfold is_byte, dquote; lia.
Qed.
End quote.
End Unquote.
