(* ===== verification/Strconv.v ===== *)
(** * Numbers and strings of the Go standard library (strconv, strings, fmt)

    The functions that the parsers of the configuration use, on the bytes of a
    string: decimal numbers at the width of Go's [int], splitting at a byte and
    lower-casing.  Lower case beyond ASCII is a table of package unicode and a
    parameter. *)

From Stdlib Require Import Ascii String.
From stdpp Require Import base list strings numbers.
From S2P Require Import Prelude Utf8.

(** unicode.ToLower for runes from 128 on. *)
Class UnicodeLower := lower_rune : Z → Z.

Module Strconv.

(** ** Decimal numbers *)
Definition is_digit (b : Z) : bool := between 48 57 b.

Fixpoint digits_fuel (fuel : nat) (n : Z) : list Z :=
  match fuel with
  | O => []
  | S fuel => if n <? 10 then [48 + n] else digits_fuel fuel (n / 10) ++ [48 + n mod 10]
  end.

(** The decimal digits of a non-negative number; it has at most as many as it
    has binary ones. *)
Definition digits (n : Z) : list Z := digits_fuel (S (Z.to_nat (Z.log2 n))) n.

Definition Itoa_bytes (n : Z) : list Z := if n <? 0 then 45 :: digits (- n) else digits n.
Definition Itoa (n : Z) : string := of_bytes (Itoa_bytes n).

Definition value (ds : list Z) : Z := foldl (λ acc d, acc * 10 + (d - 48)) 0 ds.

Definition Atoi_bytes (bs : list Z) : option Z :=
  let '(neg, ds) :=
    match bs with
    | 45 :: ds => (true, ds)
    | 43 :: ds => (false, ds)
    | _ => (false, bs)
    end in
  match ds with
  | [] => None
  | _ =>
      if forallb is_digit ds then
        let n := if neg : bool then - value ds else value ds in
        if bool_decide (in_int64 n) then Some n else None
      else None
  end.
Definition Atoi (s : string) : option Z := Atoi_bytes (bytes s).

(** The verb %02d of package fmt. *)
Definition fmt02_bytes (n : Z) : list Z :=
  if between 0 9 n then 48 :: digits n else Itoa_bytes n.

(** ** strings.Split at a byte, strings.ToLower *)
Fixpoint split_at (c : Z) (bs : list Z) : list (list Z) :=
  match bs with
  | [] => [[]]
  | b :: bs =>
      if b =? c then [] :: split_at c bs else
      match split_at c bs with
      | w :: ws => (b :: w) :: ws
      | [] => [[b]]
      end
  end.
Definition Split (s : string) (c : Z) : list string := of_bytes <$> split_at c (bytes s).

Definition lower_byte (b : Z) : Z := if between 65 90 b then b + 32 else b.

Section lower.
Context `{UL : UnicodeLower}.

Definition lower (r : Z) : Z := if r <? 128 then lower_byte r else lower_rune r.

Definition ToLower (s : string) : string :=
  if forallb (λ b, b <? 128) (bytes s) then of_bytes (lower_byte <$> bytes s)
  else of_bytes (encode_runes (lower <$> runes (bytes s))).
End lower.

(** ** Properties *)
Lemma value_app ds d : value (ds ++ [d]) = value ds * 10 + (d - 48).
Proof. unfold value. by rewrite foldl_app. Qed.

Lemma digits_fuel_spec fuel : ∀ n, 0 ≤ n < 2 ^ Z.of_nat fuel →
  value (digits_fuel fuel n) = n ∧ Forall (λ b, is_digit b = true) (digits_fuel fuel n) ∧
  (0 < fuel → digits_fuel fuel n ≠ [])%nat.
Proof.
  induction fuel as [|fuel IH]; intros n Hn; [cbn in *; split_and!; [lia|done|lia]|].
  cbn [digits_fuel]. rewrite Nat2Z.inj_succ, Z.pow_succ_r in Hn by lia.
  destruct (Z.ltb_spec n 10).
  - split_and!; [unfold value; cbn; lia| |done].
    repeat constructor. unfold is_digit. destruct (between_spec 48 57 (48 + n)); [done|lia].
  - assert (Hq : 0 ≤ n / 10 < 2 ^ Z.of_nat fuel)
      by (split; [apply Z.div_pos; lia|apply Z.div_lt_upper_bound; lia]).
    pose proof (Z.mod_pos_bound n 10 ltac:(lia)) as Hm.
    destruct (IH _ Hq) as (Hv & Hd & _). split_and!.
    + rewrite value_app, Hv. pose proof (Z.div_mod n 10 ltac:(lia)). lia.
    + apply Forall_app. split; [done|]. repeat constructor. unfold is_digit.
      destruct (between_spec 48 57 (48 + n mod 10)); [done|lia].
    + by intros _ [_ ?]%app_nil.
Qed.

Lemma digits_spec n : 0 ≤ n →
  value (digits n) = n ∧ Forall (λ b, is_digit b = true) (digits n) ∧ digits n ≠ [].
Proof.
  intros Hn. unfold digits. set (f := S (Z.to_nat (Z.log2 n))).
  destruct (digits_fuel_spec f n) as (? & ? & Hne).
  { subst f. rewrite Nat2Z.inj_succ, Z2Nat.id by apply Z.log2_nonneg.
    destruct (decide (n = 0)) as [->|]; [done|]. pose proof (Z.log2_spec n). lia. }
  split_and!; [done..|]. apply Hne. lia.
Qed.

Lemma is_digit_range b : is_digit b = true → 48 ≤ b ≤ 57.
Proof. unfold is_digit. by destruct (between_spec 48 57 b). Qed.

Lemma forallb_Forall {A} (f : A → bool) (l : list A) :
  Forall (λ x, f x = true) l → forallb f l = true.
Proof. induction 1 as [|x l Hx _ IH]; [done|]. cbn. by rewrite Hx, IH. Qed.

Lemma Atoi_digits ds :
  Forall (λ b, is_digit b = true) ds → ds ≠ [] → in_int64 (value ds) →
  Atoi_bytes ds = Some (value ds).
Proof.
  intros Hd Hne Hn. unfold Atoi_bytes. destruct ds as [|d ds]; [done|].
  pose proof (Forall_inv Hd) as Hd0%is_digit_range. apply forallb_Forall in Hd.
  assert (Hs : (match d :: ds with 45 :: ds => (true, ds) | 43 :: ds => (false, ds)
                | _ => (false, d :: ds) end) = (false, d :: ds)).
  { assert (Hc : d ≠ 45 ∧ d ≠ 43) by lia. destruct d as [|p|p]; [done| |done].
    do 6 (destruct p as [p|p|]; try done); lia. }
  by rewrite Hs, Hd, bool_decide_eq_true_2.
Qed.

Lemma Atoi_range bs n : Atoi_bytes bs = Some n → in_int64 n.
Proof. unfold Atoi_bytes. intros H. repeat case_match; simplify_eq; by case_bool_decide. Qed.

(** Decimal notation is read back. *)
Lemma Atoi_Itoa_bytes n : in_int64 n → Atoi_bytes (Itoa_bytes n) = Some n.
Proof.
  intros Hn. unfold Itoa_bytes. destruct (Z.ltb_spec n 0).
  - unfold Atoi_bytes. destruct (digits_spec (- n)) as (Hv & Hd & Hne); [lia|].
    destruct (digits (- n)) as [|d ds]; [done|].
    by rewrite (forallb_Forall _ _ Hd), Hv, Z.opp_involutive, bool_decide_eq_true_2.
  - destruct (digits_spec n) as (Hv & Hd & Hne); [lia|].
    rewrite Atoi_digits, Hv; [done|done..|]. by rewrite Hv.
Qed.

Lemma Itoa_bytes_ascii n : Forall (λ b, 45 ≤ b ≤ 57 ∧ b ≠ 58) (Itoa_bytes n).
Proof.
  assert (Hd : ∀ k, 0 ≤ k → Forall (λ b, 45 ≤ b ≤ 57 ∧ b ≠ 58) (digits k)).
  { intros k Hk. destruct (digits_spec k Hk) as (_ & Hd & _).
    eapply Forall_impl; [|exact Hd]. cbn. intros b Hb%is_digit_range. lia. }
  unfold Itoa_bytes. destruct (Z.ltb_spec n 0); [constructor; [lia|]|]; apply Hd; lia.
Qed.

Lemma split_at_none c bs : c ∉ bs → split_at c bs = [bs].
Proof.
  induction bs as [|b bs IH]; intros Hn; cbn; [done|].
  apply not_elem_of_cons in Hn as [Hb Hn]. destruct (Z.eqb_spec b c); [congruence|].
  by rewrite IH.
Qed.

Lemma split_at_two c l r : c ∉ l → c ∉ r → split_at c (l ++ c :: r) = [l; r].
Proof.
  induction l as [|b l IH]; intros Hl Hr; cbn.
  - rewrite Z.eqb_refl. by rewrite split_at_none.
  - apply not_elem_of_cons in Hl as [Hb Hl]. destruct (Z.eqb_spec b c); [congruence|].
    by rewrite IH.
Qed.

(** Lower-casing text without ASCII capitals that is ASCII changes nothing. *)
Lemma ToLower_id `{UL : UnicodeLower} bs :
  Forall (λ b, 0 ≤ b < 128 ∧ ¬ 65 ≤ b ≤ 90) bs → ToLower (of_bytes bs) = of_bytes bs.
Proof.
  intros Hbs. unfold ToLower.
  rewrite bytes_of_bytes by (eapply Forall_impl; [|exact Hbs]; unfold is_byte; cbn; lia).
  rewrite forallb_Forall.
  - f_equal. induction Hbs as [|b bs Hb _ IH]; [done|]. cbn. rewrite IH. f_equal.
    unfold lower_byte. destruct (between_spec 65 90 b); [lia|done].
  - eapply Forall_impl; [|exact Hbs]. cbn. intros b Hb. apply Z.ltb_lt. lia.
Qed.
End Strconv.

(** * Parts of Go's package strings the notifiers use

    Trimming works on bytes: a string is cut into the pieces that decode to one
    rune each, so that bytes that are not UTF-8 are kept as they are. *)
Module Strings.

(** A rune and the bytes it was decoded from; every piece has at least one
    byte, so that the length of the input is enough fuel. *)
Fixpoint pieces_fuel (fuel : nat) (bs : list Z) : list (rune * list Z) :=
  match fuel, bs with
  | _, [] => []
  | O, _ => []
  | S fuel, _ => let '(r, w) := DecodeRune bs in (r, take w bs) :: pieces_fuel fuel (drop w bs)
  end.
Definition pieces (bs : list Z) : list (rune * list Z) := pieces_fuel (length bs) bs.

Fixpoint drop_spaces (ps : list (rune * list Z)) : list (rune * list Z) :=
  match ps with
  | p :: ps' => if IsSpace p.1 then drop_spaces ps' else ps
  | [] => []
  end.

(** [strings.TrimSpace]. *)
Definition TrimSpace (s : string) : string :=
  of_bytes (concat (snd <$> rev (drop_spaces (rev (drop_spaces (pieces (bytes s))))))).

Definition HasPrefix (s p : string) : bool := String.prefix p s.
Definition HasSuffix (s p : string) : bool :=
  bool_decide (drop (length (bytes s) - length (bytes p)) (bytes s) = bytes p) &&
  (length (bytes p) <=? length (bytes s))%nat.

(** [strings.TrimRight] with a cutset of one byte. *)
Fixpoint drop_byte (c : Z) (bs : list Z) : list Z :=
  match bs with b :: bs' => if b =? c then drop_byte c bs' else bs | [] => [] end.
Definition TrimRight (s : string) (c : Z) : string := of_bytes (rev (drop_byte c (rev (bytes s)))).

(** ** Properties *)
Lemma drop_spaces_idem ps : drop_spaces (drop_spaces ps) = drop_spaces ps.
Proof.
  induction ps as [|p ps IH]; cbn; [done|]. destruct (IsSpace p.1) eqn:E; [done|]. cbn. by rewrite E.
Qed.

Example trim_both : TrimSpace " a b  " = "a b"%string.
Proof. reflexivity. Qed.
Example trim_only_spaces : TrimSpace "   " = ""%string.
Proof. reflexivity. Qed.
End Strings.
