(* ===== verification/Route.v ===== *)
(** * The routing tree (dispatch/route.go)

    A route is a node of a tree with matchers and options.  The code refers to
    a route by a pointer and reaches the parent through one; here a pointer to
    a route is its position below the root, the list of child indices, which
    gives both the node and its ancestors. *)

From Stdlib Require Import Ascii String.
From stdpp Require Import base gmap strings list sorting.
From S2P Require Import Prelude Utf8 Labels Silence Alert Bucket Store Inhibit Unquote Strconv.

Module Route.

(** A position in the tree. *)
Abbreviation position := (list nat).

Section route.
Context `{RE : Regexp, MR : MapRange, UP : UnicodePrint}.

Record RouteOpts := mkRouteOpts {
  Receiver : string;
  GroupBy : gset string;
  GroupByAll : bool;
  GroupWait : duration;
  GroupInterval : duration;
  RepeatInterval : duration;
  MuteTimeIntervals : list string;
  ActiveTimeIntervals : list string;
  RouteLabels : LabelSet;
}.

Definition DefaultRouteOpts : RouteOpts :=
  mkRouteOpts "" ∅ false (30 * second) (5 * minute) (4 * hour) [] [] ∅.

(** config.Route without its children; unset durations and a missing list of
    group labels are nil. *)
Record RouteConfig := mkRouteConfig {
  c_Receiver : string;
  c_GroupBy : option (list string);
  c_GroupByAll : bool;
  c_Match : gmap string string;
  c_MatchRE : gmap string string;
  c_Matchers : list Labels.Matcher;
  c_MuteTimeIntervals : list string;
  c_ActiveTimeIntervals : list string;
  c_Continue : bool;
  c_GroupWait : option duration;
  c_GroupInterval : option duration;
  c_RepeatInterval : option duration;
  c_Labels : LabelSet;
}.

Inductive config_route := ConfigRoute (cr : RouteConfig) (routes : list config_route).

Inductive route := mkRoute {
  Opts : RouteOpts;
  Matchers : list Labels.Matcher;
  Continue : bool;
  Routes : list route;
  Idx : Z;
}.

(** ** Construction *)

(** The options of a route: the parent's (or the defaults), overwritten by what
    is configured; time intervals are never inherited. *)
Definition merge_opts (opts : RouteOpts) (cr : RouteConfig) : RouteOpts :=
  mkRouteOpts
    (if bool_decide (c_Receiver cr ≠ ""%string) then c_Receiver cr else Receiver opts)
    (match c_GroupBy cr with Some l => list_to_set l | None => GroupBy opts end)
    (match c_GroupBy cr with
     | Some _ => false
     | None => if c_GroupByAll cr then c_GroupByAll cr else GroupByAll opts
     end)
    (default (GroupWait opts) (c_GroupWait cr))
    (default (GroupInterval opts) (c_GroupInterval cr))
    (default (RepeatInterval opts) (c_RepeatInterval cr))
    (c_MuteTimeIntervals cr)
    (c_ActiveTimeIntervals cr)
    (if bool_decide (size (c_Labels cr) ≠ 0%nat) then c_Labels cr ∪ RouteLabels opts
     else RouteLabels opts).

(** The order in which sort.Sort leaves the matchers. *)
Definition matcher_le (a b : Labels.Matcher) : Prop := Labels.Matcher_Less b a = false.

#[global] Instance matcher_le_dec a b : Decision (matcher_le a b).
Proof. unfold matcher_le. apply _. Defined.

(** [newRoute] and [newRoutes]; the counter is threaded through, [None] is the
    panic on a matcher that does not compile. *)
Fixpoint newRoute (cr : config_route) (parent : option RouteOpts) (counter : Z)
    : option (route * Z) :=
  match cr with
  | ConfigRoute c crs =>
      let opts := merge_opts (default DefaultRouteOpts parent) c in
      matchers ← Inhibit.side_matchers (c_Match c) (c_MatchRE c) (c_Matchers c);
      '(rs, counter) ←
        (fix newRoutes (crs : list config_route) (counter : Z) : option (list route * Z) :=
           match crs with
           | [] => Some ([], counter)
           | cr :: crs =>
               '(r, counter) ← newRoute cr (Some opts) counter;
               '(rs, counter) ← newRoutes crs counter;
               Some (r :: rs, counter)
           end) crs counter;
      Some (mkRoute opts (merge_sort matcher_le matchers) (c_Continue c) rs counter, counter + 1)
  end.

Fixpoint newRoutes (crs : list config_route) (opts : RouteOpts) (counter : Z)
    : option (list route * Z) :=
  match crs with
  | [] => Some ([], counter)
  | cr :: crs =>
      '(r, counter) ← newRoute cr (Some opts) counter;
      '(rs, counter) ← newRoutes crs opts counter;
      Some (r :: rs, counter)
  end.

Definition NewRoute (cr : config_route) (parent : option RouteOpts) : option route :=
  fst <$> newRoute cr parent 0.

(** ** Positions *)
Fixpoint node_at (r : route) (p : position) : option route :=
  match p with
  | [] => Some r
  | i :: p => child ← Routes r !! i; node_at child p
  end.

(** ** Matching *)

(** [Match]: the positions of the matching nodes; [p] is the position of [r]. *)
Fixpoint Match_ (r : route) (lset : LabelSet) (p : position) : list position :=
  if negb (Labels.matchesb (Matchers r) lset) then [] else
  let all :=
    (fix loop (rs : list route) (i : nat) : list position :=
       match rs with
       | [] => []
       | cr :: rs =>
           let matches := Match_ cr lset (p ++ [i]) in
           matches ++ (if bool_decide (matches ≠ []) && negb (Continue cr) then []
                       else loop rs (S i))
       end) (Routes r) 0%nat in
  if bool_decide (all = []) then [p] else all.

Fixpoint match_loop (lset : LabelSet) (p : position) (rs : list route) (i : nat) : list position :=
  match rs with
  | [] => []
  | cr :: rs =>
      let matches := Match_ cr lset (p ++ [i]) in
      matches ++ (if bool_decide (matches ≠ []) && negb (Continue cr) then []
                  else match_loop lset p rs (S i))
  end.

Definition Match (r : route) (lset : LabelSet) : list position := Match_ r lset [].

(** ** Identifiers *)

(** [Key] of the node at a position: the matchers of its ancestors and its own. *)
Fixpoint Key (r : route) (p : position) : option string :=
  match p with
  | [] => Some (Labels.Matchers_String (Matchers r))
  | i :: p =>
      child ← Routes r !! i;
      k ← Key child p;
      Some (Labels.Matchers_String (Matchers r) +:+ "/" +:+ k)
  end.

(** [ID]: like [Key], with the index of each node among its siblings. *)
Fixpoint ID_below (r : route) (i : nat) (p : position) : option string :=
  let own := Labels.Matchers_String (Matchers r) +:+ "/" +:+ Strconv.Itoa (Z.of_nat i) in
  match p with
  | [] => Some own
  | j :: p =>
      child ← Routes r !! j;
      k ← ID_below child j p;
      Some (own +:+ "/" +:+ k)
  end.

Definition ID (r : route) (p : position) : option string :=
  match p with
  | [] => Some (Labels.Matchers_String (Matchers r))
  | i :: p =>
      child ← Routes r !! i;
      k ← ID_below child i p;
      Some (Labels.Matchers_String (Matchers r) +:+ "/" +:+ k)
  end.

(** ** Traversal *)

(** The nodes in the order in which [Walk] visits them. *)
Fixpoint Walk (r : route) : list route :=
  r :: concat ((fix walk (rs : list route) : list (list route) :=
                  match rs with [] => [] | r :: rs => Walk r :: walk rs end) (Routes r)).

(** ** The induction principle of trees *)
Section route_induction.
Context (P : route → Prop).
Hypothesis step : ∀ o ms c rs i, Forall P rs → P (mkRoute o ms c rs i).

Fixpoint route_tree_ind (r : route) : P r :=
  match r with
  | mkRoute o ms c rs i =>
      step o ms c rs i
        ((fix go (rs : list route) : Forall P rs :=
            match rs with
            | [] => List.Forall_nil P
            | r :: rs => List.Forall_cons P r rs (route_tree_ind r) (go rs)
            end) rs)
  end.
End route_induction.

Section config_induction.
Context (P : config_route → Prop).
Hypothesis step : ∀ c crs, Forall P crs → P (ConfigRoute c crs).

Fixpoint config_tree_ind (cr : config_route) : P cr :=
  match cr with
  | ConfigRoute c crs =>
      step c crs
        ((fix go (crs : list config_route) : Forall P crs :=
            match crs with
            | [] => List.Forall_nil P
            | cr :: crs => List.Forall_cons P cr crs (config_tree_ind cr) (go crs)
            end) crs)
  end.
End config_induction.

Lemma newRoute_eq c crs parent counter :
  newRoute (ConfigRoute c crs) parent counter =
    (let opts := merge_opts (default DefaultRouteOpts parent) c in
     matchers ← Inhibit.side_matchers (c_Match c) (c_MatchRE c) (c_Matchers c);
     '(rs, counter) ← newRoutes crs opts counter;
     Some (mkRoute opts (merge_sort matcher_le matchers) (c_Continue c) rs counter, counter + 1)).
Proof.
  cbn [newRoute]. destruct (Inhibit.side_matchers _ _ _) as [ms|]; [|done]. cbn [mbind option_bind].
  f_equal. revert counter. induction crs as [|cr crs IH]; intros counter; [done|]. cbn [newRoutes].
  destruct (newRoute cr _ counter) as [[r n]|]; [|done]. cbn [mbind option_bind]. by rewrite IH.
Qed.

Lemma Match_eq r lset p :
  Match_ r lset p =
    if negb (Labels.matchesb (Matchers r) lset) then [] else
    let all := match_loop lset p (Routes r) 0 in
    if bool_decide (all = []) then [p] else all.
Proof.
  destruct r as [o ms c rs idx]. cbn [Match_ Matchers Routes]. destruct (negb _); [done|].
  set (loop := fix loop (rs : list route) (i : nat) : list position := _).
  assert (Hl : ∀ rs i, loop rs i = match_loop lset p rs i); [|by rewrite Hl].
  clear. induction rs as [|r rs IH]; intros i; [done|]. cbn [match_loop]. rewrite <-IH. done.
Qed.

Lemma Walk_eq r : Walk r = r :: (Routes r ≫= Walk).
Proof.
  destruct r as [o ms c rs i]. cbn [Walk Routes]. f_equal. induction rs as [|r rs IH]; [done|].
  cbn. f_equal. exact IH.
Qed.
End route.
End Route.

(** * Properties of the routing tree

    Which routes an alert reaches, how options are inherited, that every route
    has its own slot, and that identifiers of routes are unique. *)
Import Route.

Module RouteInv.
Section route.
Context `{RE : Regexp, MR : MapRange, UP : UnicodePrint}.
Implicit Types r : route.

(** ** Matching *)
Definition accepts r (lset : LabelSet) : Prop := Labels.sat_all (Matchers r) lset.

(** The documented routing: an alert goes down from a matching node to a
    matching child unless an earlier sibling matches and does not continue, and
    stops at a node none of whose children match. *)
Fixpoint routed r (lset : LabelSet) (q : position) : Prop :=
  accepts r lset ∧
  match q with
  | [] => ∀ cr, cr ∈ Routes r → ¬ accepts cr lset
  | i :: q => ∃ cr, Routes r !! i = Some cr ∧ routed cr lset q ∧
      ∀ j cr', (j < i)%nat → Routes r !! j = Some cr' → accepts cr' lset → Continue cr' = true
  end.

Lemma routed_accepts r lset q : routed r lset q → accepts r lset.
Proof. by destruct q; intros []. Qed.

Lemma Match_nil r lset p : Match_ r lset p = [] ↔ ¬ accepts r lset.
Proof.
  rewrite Match_eq. unfold accepts. rewrite <-Labels.matchesb_spec.
  destruct (Labels.matchesb (Matchers r) lset); cbn; [|by split].
  case_bool_decide; naive_solver.
Qed.

(** What the loop over the children finds, from the [i]-th child on. *)
Lemma match_loop_spec lset p rs : ∀ i x,
  Forall (λ cr, ∀ p x, x ∈ Match_ cr lset p ↔ ∃ q, x = p ++ q ∧ routed cr lset q) rs →
  x ∈ match_loop lset p rs i ↔
  ∃ k cr q, rs !! k = Some cr ∧ x = p ++ ((i + k)%nat :: q) ∧ routed cr lset q ∧
    ∀ j cr', (j < k)%nat → rs !! j = Some cr' → accepts cr' lset → Continue cr' = true.
Proof.
  induction rs as [|c rs IH]; intros i x HF; cbn [match_loop].
  { rewrite elem_of_nil. split; [done|]. by intros (k & cr & q & ? & _). }
  apply Forall_cons in HF as [Hc HF]. rewrite elem_of_app, Hc.
  assert (Hgo : x ∈ (if bool_decide (Match_ c lset (p ++ [i]) ≠ []) && negb (Continue c) then []
                     else match_loop lset p rs (S i)) ↔
                (accepts c lset → Continue c = true) ∧ x ∈ match_loop lset p rs (S i)).
  { assert (Hb : bool_decide (Match_ c lset (p ++ [i]) ≠ []) = true ↔ accepts c lset).
    { rewrite bool_decide_eq_true. rewrite Match_nil. unfold accepts.
      rewrite <-Labels.matchesb_spec. destruct (Labels.matchesb _ _); naive_solver. }
    destruct (bool_decide _), (Continue c); cbn; rewrite ?elem_of_nil; naive_solver. }
  rewrite Hgo, IH by done. split.
  - intros [(q & -> & Hq)|(Hcont & k & cr & q & Hk & -> & Hq & Hj)].
    + exists 0%nat, c, q. rewrite Nat.add_0_r, <-app_assoc. split_and!; [done..|]. intros; lia.
    + exists (S k), cr, q. rewrite Nat.add_succ_r. split_and!; [done..|].
      intros [|j] cr' Hlt Hl; cbn in Hl; [by simplify_eq|]. apply (Hj j); [lia|done].
  - intros ([|k] & cr & q & Hk & -> & Hq & Hj); cbn in Hk.
    + simplify_eq. left. exists q. rewrite Nat.add_0_r, <-app_assoc. done.
    + right. split; [by apply (Hj 0%nat c); [lia|]|].
      exists k, cr, q. rewrite Nat.add_succ_r. split_and!; [done..|].
      intros j cr' Hlt Hl. apply (Hj (S j)); [lia|done].
Qed.

Lemma first_accepting (rs : list route) lset cr :
  cr ∈ rs → accepts cr lset →
  ∃ k cr', rs !! k = Some cr' ∧ accepts cr' lset ∧
    ∀ j cr'', (j < k)%nat → rs !! j = Some cr'' → ¬ accepts cr'' lset.
Proof.
  intros Hcr Hca. induction rs as [|c rs IH]; [by apply elem_of_nil in Hcr|].
  destruct (Labels.matchesb (Matchers c) lset) eqn:Hm.
  - exists 0%nat, c. split_and!; [done|by apply Labels.matchesb_spec|lia].
  - assert (Hnc : ¬ accepts c lset)
      by (unfold accepts; rewrite <-Labels.matchesb_spec; congruence).
    apply elem_of_cons in Hcr as [->|Hcr]; [done|].
    destruct (IH Hcr) as (k & cr' & Hk & Hk' & Hj). exists (S k), cr'. split_and!; [done..|].
    intros [|j] cr'' Hlt Hlk; cbn in Hlk; [by simplify_eq|]. apply (Hj j); [lia|done].
Qed.

Lemma Match_spec lset r : ∀ p x, x ∈ Match_ r lset p ↔ ∃ q, x = p ++ q ∧ routed r lset q.
Proof.
  induction r as [o ms c rs idx IH] using route_tree_ind. intros p x.
  set (r := mkRoute o ms c rs idx). rewrite Match_eq.
  pose proof (Labels.matchesb_spec (Matchers r) lset) as Hacc. fold (accepts r lset) in Hacc.
  destruct (Labels.matchesb (Matchers r) lset) eqn:Hm; cbn [negb].
  2:{ rewrite elem_of_nil. split; [done|]. intros (q & _ & Hq%routed_accepts). naive_solver. }
  assert (Ha : accepts r lset) by naive_solver. clear Hacc Hm.
  pose proof (λ y, match_loop_spec lset p rs 0 y IH) as Hl. cbn zeta. cbn [Routes r].
  case_bool_decide as Hnil.
  - assert (Hno : ∀ cr, cr ∈ rs → ¬ accepts cr lset).
    { intros cr Hcr Hca.
      destruct (first_accepting rs lset cr Hcr Hca) as (k & cr' & Hk & Hk' & Hj).
      assert (Hne : Match_ cr' lset (p ++ [k]) ≠ []) by (rewrite Match_nil; naive_solver).
      destruct (Match_ cr' lset (p ++ [k])) as [|y ys] eqn:Ey; [done|].
      rewrite Forall_forall in IH.
      pose proof (IH cr' ltac:(by eapply list_elem_of_lookup_2) (p ++ [k]) y) as Hy.
      rewrite Ey in Hy. destruct (proj1 Hy) as (q & -> & Hq); [by left|].
      apply (not_elem_of_nil ((p ++ [k]) ++ q)). rewrite <-Hnil. apply Hl.
      exists k, cr', q. rewrite <-app_assoc. split_and!; [done..|].
      intros j cr'' Hlt Hlk Hacc. by destruct (Hj j cr'' Hlt Hlk). }
    rewrite list_elem_of_singleton. split.
    + intros ->. exists []. rewrite app_nil_r. done.
    + intros ([|i q] & -> & Hq); [by rewrite app_nil_r|].
      destruct Hq as (_ & cr & Hi & Hq%routed_accepts & _). cbn in Hi.
      apply list_elem_of_lookup_2 in Hi. by destruct (Hno cr).
  - rewrite Hl. split.
    + intros (k & cr & q & Hk & -> & Hq & Hj). exists (k :: q). split; [done|]. cbn. eauto 10.
    + intros ([|i q] & -> & Hq).
      * destruct Hq as [_ Hq]. cbn in Hq. destruct Hnil.
        destruct (match_loop lset p rs 0) as [|y ys] eqn:E; [done|].
        destruct (proj1 (Hl y)) as (k & cr & q & Hk & _ & Hr%routed_accepts & _); [by left|].
        apply list_elem_of_lookup_2 in Hk. by destruct (Hq cr).
      * destruct Hq as (_ & cr & Hi & Hq & Hj). exists i, cr, q. done.
Qed.

(** C18: routing follows the documented rule: a route gets an alert exactly when the
    alert matches it and all its ancestors, none of its children match, and on
    the way down no earlier sibling matched without [Continue]; and an alert
    that the root accepts always reaches some route. *)
Theorem route_match_exact r lset :
  (∀ q, q ∈ Match r lset ↔ routed r lset q) ∧ (accepts r lset ↔ Match r lset ≠ []).
Proof.
  split.
  - intros q. unfold Match. rewrite Match_spec. cbn. naive_solver.
  - unfold Match. rewrite Match_nil. unfold accepts. rewrite <-Labels.matchesb_spec.
    destruct (Labels.matchesb _ _); naive_solver.
Qed.
(** ** Construction *)

(** Every node of a new tree has its own index below that of the root. *)
Lemma newRoute_Idx (cr : config_route) : ∀ parent c r c',
  newRoute cr parent c = Some (r, c') →
  c' = Idx r + 1 ∧ c ≤ Idx r ∧ Idx <$> Walk r ≡ₚ seqZ c (c' - c).
Proof.
  induction cr as [cfg crs IH] using config_tree_ind. intros parent c r c'. rewrite newRoute_eq.
  cbn zeta. destruct (Inhibit.side_matchers _ _ _) as [ms|]; [|done]. cbn [mbind option_bind].
  set (opts := merge_opts _ _). clearbody opts.
  assert (Hrs : ∀ c rs c1, newRoutes crs opts c = Some (rs, c1) →
    c ≤ c1 ∧ Idx <$> (rs ≫= Walk) ≡ₚ seqZ c (c1 - c)).
  { clear parent c r c'. induction IH as [|cr crs Hcr _ IHs]; intros c rs c1; cbn [newRoutes].
    - intros [= <- <-]. split; [lia|]. by rewrite Z.sub_diag, seqZ_nil.
    - destruct (newRoute cr _ c) as [[r n]|] eqn:E; [|done]. cbn [mbind option_bind].
      destruct (newRoutes crs opts n) as [[rs' n']|] eqn:E'; [|done]. intros [= <- <-].
      apply Hcr in E as (-> & Hle & Hp). apply IHs in E' as [Hle' Hp']. split; [lia|].
      cbn. rewrite fmap_app, Hp, Hp'.
      replace (n' - c) with ((Idx r + 1 - c) + (n' - (Idx r + 1))) by lia.
      rewrite seqZ_app by lia. by replace (c + (Idx r + 1 - c)) with (Idx r + 1) by lia. }
  destruct (newRoutes crs opts c) as [[rs c1]|] eqn:E; [|done]. intros [= <- <-].
  apply Hrs in E as [Hle Hp]. cbn [Idx]. split_and!; [done|done|].
  rewrite Walk_eq. cbn [Routes]. rewrite fmap_cons, Hp. cbn [Idx].
  replace (c1 + 1 - c) with ((c1 - c) + 1) by lia. rewrite seqZ_app by lia.
  replace (c + (c1 - c)) with c1 by lia.
  assert (Hone : seqZ c1 1 = [c1]) by (rewrite seqZ_cons, seqZ_nil by lia; done).
  rewrite Hone. by rewrite <-Permutation_cons_append.
Qed.

(** The configurations on the way from the root to a position. *)
Fixpoint config_path (cr : config_route) (q : position) : option (list RouteConfig) :=
  match cr, q with
  | ConfigRoute c _, [] => Some [c]
  | ConfigRoute c crs, i :: q => cr ← crs !! i; cs ← config_path cr q; Some (c :: cs)
  end.

Lemma newRoutes_lookup crs opts : ∀ c rs c' i r,
  newRoutes crs opts c = Some (rs, c') → rs !! i = Some r →
  ∃ cr n n', crs !! i = Some cr ∧ newRoute cr (Some opts) n = Some (r, n').
Proof.
  induction crs as [|cr crs IH]; intros c rs c' i r; cbn [newRoutes]; [by intros [= <- <-]|].
  destruct (newRoute cr _ c) as [[r0 n]|] eqn:E; [|done]. cbn [mbind option_bind].
  destruct (newRoutes crs opts n) as [[rs' n']|] eqn:E'; [|done]. intros [= <- <-].
  destruct i as [|i]; cbn; [intros [= <-]; by eauto|]. intros Hi. by eapply IH.
Qed.

Lemma newRoute_opts q : ∀ cr parent c r c' n,
  newRoute cr parent c = Some (r, c') → node_at r q = Some n →
  ∃ cs cfg, config_path cr q = Some cs ∧ last cs = Some cfg ∧
    Opts n = foldl merge_opts (default DefaultRouteOpts parent) cs.
Proof.
  induction q as [|i q IH]; intros [cfg crs] parent c r c' n; rewrite newRoute_eq; cbn zeta;
    destruct (Inhibit.side_matchers _ _ _) as [ms|]; try done; cbn [mbind option_bind];
    destruct (newRoutes crs _ c) as [[rs c1]|] eqn:E; try done; intros [= <- <-]; cbn [node_at].
  - intros [= <-]. by exists [cfg], cfg.
  - cbn [Routes]. destruct (rs !! i) as [child|] eqn:Hi; [|done]. cbn [mbind option_bind]. intros Hn.
    destruct (newRoutes_lookup _ _ _ _ _ _ _ E Hi) as (cr & m & m' & Hcr & Hnew).
    destruct (IH _ _ _ _ _ _ Hnew Hn) as (cs & cfg' & Hp & Hlast & ->).
    exists (cfg :: cs), cfg'. cbn. rewrite Hcr. cbn. rewrite Hp. cbn. split_and!; [done| |done].
    by destruct cs.
Qed.

(** The last of the configured values, or the inherited one. *)
Lemma foldl_last {A} (get : RouteOpts → A) (set : RouteConfig → option A) cs :
  (∀ o c, get (merge_opts o c) = default (get o) (set c)) →
  ∀ o, get (foldl merge_opts o cs) = default (get o) (last (omap set cs)).
Proof.
  intros Hg. induction cs as [|c cs IH]; intros o; cbn; [done|]. rewrite IH, Hg.
  destruct (set c) as [x|]; cbn; [|done]. rewrite last_cons. by destruct (last (omap set cs)).
Qed.

(** options are inherited from the nearest route that sets them: the receiver,
    the timers and each route label of a node are those of the last route on
    the way from the root that configures them, or the defaults; time
    intervals are the node's own. *)
Theorem route_options_nearest cr r q n :
  NewRoute cr None = Some r → node_at r q = Some n →
  ∃ cs cfg, config_path cr q = Some cs ∧ last cs = Some cfg ∧
    Receiver (Opts n) = default ""%string
      (last (omap (λ c, if bool_decide (c_Receiver c ≠ ""%string) then Some (c_Receiver c) else None) cs)) ∧
    GroupWait (Opts n) = default (30 * second) (last (omap c_GroupWait cs)) ∧
    GroupInterval (Opts n) = default (5 * minute) (last (omap c_GroupInterval cs)) ∧
    RepeatInterval (Opts n) = default (4 * hour) (last (omap c_RepeatInterval cs)) ∧
    (∀ k, RouteLabels (Opts n) !! k = last (omap (λ c, c_Labels c !! k) cs)) ∧
    MuteTimeIntervals (Opts n) = c_MuteTimeIntervals cfg ∧
    ActiveTimeIntervals (Opts n) = c_ActiveTimeIntervals cfg.
Proof.
  unfold NewRoute. intros ([r0 c'] & Hnew & ->)%fmap_Some Hn.
  destruct (newRoute_opts q _ _ _ _ _ _ Hnew Hn) as (cs & cfg & Hp & Hlast & Ho).
  exists cs, cfg. rewrite Ho. cbn [default]. split_and!; [done|done|..].
  - rewrite (foldl_last Receiver (λ c, if bool_decide (c_Receiver c ≠ ""%string)
      then Some (c_Receiver c) else None)); [done|].
    intros o c. cbn. by destruct (bool_decide _).
  - by rewrite (foldl_last GroupWait c_GroupWait).
  - by rewrite (foldl_last GroupInterval c_GroupInterval).
  - by rewrite (foldl_last RepeatInterval c_RepeatInterval).
  - intros k. rewrite (foldl_last (λ o, RouteLabels o !! k) (λ c, Some <$> (c_Labels c !! k))).
    + assert (Hm : ∀ l : list RouteConfig, omap (λ c, Some <$> (c_Labels c !! k)) l =
        Some <$> omap (λ c, c_Labels c !! k) l).
      { induction l as [|c l IH]; [done|]. cbn. by destruct (c_Labels c !! k); cbn; rewrite IH. }
      rewrite Hm, fmap_last. cbn. rewrite lookup_empty.
      by destruct (last (omap _ _)).
    + intros o c. cbn. case_bool_decide as Hs.
      * rewrite lookup_union. by destruct (c_Labels c !! k), (RouteLabels o !! k).
      * apply map_size_empty_iff in Hs. by rewrite Hs, lookup_empty.
  - clear -Hlast. apply last_Some in Hlast as [l ->]. by rewrite foldl_app.
  - clear -Hlast. apply last_Some in Hlast as [l ->]. by rewrite foldl_app.
Qed.

(** every route has its own slot: the indices of the nodes of a new tree, in
    the order of [Walk], are a permutation of 0 to the index of the root, so a
    slice with one more element than the root's index has exactly one element
    per route. *)
Theorem route_indices_are_slots cr r :
  NewRoute cr None = Some r → Idx <$> Walk r ≡ₚ seqZ 0 (Idx r + 1).
Proof.
  unfold NewRoute. intros ([r0 c'] & Hnew & ->)%fmap_Some.
  apply newRoute_Idx in Hnew as (-> & _ & Hp). cbn. by rewrite Hp, Z.sub_0_r.
Qed.
End route.
End RouteInv.

(** * Identifiers of routes are unique

    [Route.ID] concatenates the printed matchers of the ancestors with indices
    and slashes.  Label values may contain slashes, braces and digits, so
    uniqueness rests on the printed form of matchers: it can be read from left
    to right, because quotes inside quoted text are escaped. *)
Import Unquote Strconv Route.

Module RouteId.

(** Reads to the first closing brace outside quoted text. *)
Inductive mode := Plain | Quoted | Escaped.

Fixpoint scan (m : mode) (bs : list Z) : option (list Z) :=
  match bs with
  | [] => None
  | b :: bs =>
      match m with
      | Plain => if b =? 125 then Some bs else if b =? dquote then scan Quoted bs else scan Plain bs
      | Quoted =>
          if b =? backslash then scan Escaped bs
          else if b =? dquote then scan Plain bs else scan Quoted bs
      | Escaped => scan Quoted bs
      end
  end.

(** Text that the reader passes over in a mode. *)
Definition neutral (m : mode) (l : list Z) : Prop := ∀ rest, scan m (l ++ rest) = scan m rest.

Lemma neutral_nil m : neutral m [].
Proof. done. Qed.

Lemma neutral_app m l1 l2 : neutral m l1 → neutral m l2 → neutral m (l1 ++ l2).
Proof. intros H1 H2 rest. by rewrite <-app_assoc, H1, H2. Qed.

Lemma neutral_quoted_byte b : b ≠ dquote → b ≠ backslash → neutral Quoted [b].
Proof.
  intros H1 H2 rest. cbn. destruct (Z.eqb_spec b backslash), (Z.eqb_spec b dquote); done.
Qed.

Lemma neutral_escape b : neutral Quoted [backslash; b].
Proof. done. Qed.

Lemma neutral_Forall m l : (∀ b, b ∈ l → neutral m [b]) → neutral m l.
Proof.
  induction l as [|b l IH]; intros H; [apply neutral_nil|].
  apply (neutral_app m [b]); [apply H; by left|apply IH; intros; apply H; by right].
Qed.

(** Quoted text: an opening quote, neutral text, a closing quote. *)
Lemma neutral_quote l : neutral Quoted l → neutral Plain (dquote :: l ++ [dquote]).
Proof. intros Hl rest. cbn. rewrite <-app_assoc, Hl. done. Qed.

Section ids.
Context `{RE : Regexp, MR : MapRange, UP : UnicodePrint}.

Lemma hexdigits_plain n r : ∀ b, b ∈ hexdigits n r → neutral Quoted [b].
Proof.
  intros b Hb. assert (Hd : 48 ≤ b ≤ 57 ∨ 97 ≤ b ≤ 102).
  { induction n as [|n IH]; cbn in Hb; [by apply elem_of_nil in Hb|].
    apply elem_of_cons in Hb as [->|Hb]; [|by apply IH]. unfold hexdigit.
    change 15 with (Z.ones 4). rewrite Z.land_ones by lia.
    pose proof (Z.mod_pos_bound (Z.shiftr r (4 * Z.of_nat n)) (2 ^ 4) ltac:(lia)) as Hm.
    change (2 ^ 4) with 16 in *. destruct (Z.ltb_spec (Z.shiftr r (4 * Z.of_nat n) mod 16) 10); lia. }
  apply neutral_quoted_byte; unfold dquote, backslash; lia.
Qed.

Lemma EncodeRune_plain r b :
  r ≠ dquote → r ≠ backslash → b ∈ EncodeRune r → neutral Quoted [b].
Proof.
  intros H1 H2 [[-> _]|Hb]%EncodeRune_wide; apply neutral_quoted_byte;
    unfold dquote, backslash in *; lia.
Qed.

Lemma quote_neutral fuel : ∀ bs, neutral Quoted (quote_fuel fuel bs).
Proof.
  assert (Hx : ∀ b l, (∀ c, c ∈ l → neutral Quoted [c]) → neutral Quoted (backslash :: b :: l)).
  { intros b l Hl. apply (neutral_app Quoted [backslash; b]); [apply neutral_escape|].
    by apply neutral_Forall. }
  assert (Hno : ∀ c, c ∈ @nil Z → neutral Quoted [c]) by (by intros c ?%elem_of_nil).
  induction fuel as [|fuel IH]; intros [|b bs]; cbn [quote_fuel]; try apply neutral_nil.
  destruct (DecodeRune (b :: bs)) as [r w]. apply neutral_app; [|apply IH].
  destruct (_ && _); [apply Hx, hexdigits_plain|]. unfold appendEscapedRune.
  destruct ((r =? dquote) || (r =? backslash)) eqn:Eq; [apply neutral_escape|].
  apply orb_false_iff in Eq as [E1%Z.eqb_neq E2%Z.eqb_neq].
  repeat case_match; try apply Hx, hexdigits_plain; try apply Hx, Hno.
  - apply neutral_Forall. intros c. by apply EncodeRune_plain.
  - apply (Hx 117 [102; 102; 102; 100]). intros c Hc. rewrite !elem_of_cons, elem_of_nil in Hc.
    apply neutral_quoted_byte; unfold dquote, backslash; lia.
Qed.
(** ** Unquoted names *)
Lemma plain_name_neutral n :
  ContainsFunc n Labels.isReserved = false → neutral Plain (bytes n).
Proof.
  intros Hn. apply neutral_Forall. intros b Hb rest. cbn.
  assert (Hno : ∀ c, c < 128 → Labels.isReserved c = true → b ≠ c).
  { intros c Hc Hr ->. by rewrite (ContainsFunc_bytes n _ c Hn) in Hr. }
  destruct (Z.eqb_spec b 125); [by destruct (Hno 125)|].
  destruct (Z.eqb_spec b dquote); [by destruct (Hno dquote)|done].
Qed.

Lemma MatchType_neutral t : neutral Plain (bytes (Labels.MatchType_String t)).
Proof. by destruct t. Qed.

Lemma Quote_neutral v : neutral Plain (bytes (Quote v)).
Proof.
  unfold Quote. rewrite bytes_of_bytes; [apply neutral_quote, quote_neutral|].
  constructor; [unfold is_byte, dquote; lia|]. apply Forall_app. split.
  - apply quote_bytes.
  - repeat constructor; unfold is_byte, dquote; lia.
Qed.
Lemma escape_neutral v : neutral Quoted (concat (map Labels.escape_byte v)).
Proof.
  induction v as [|b v IH]; cbn; [apply neutral_nil|]. apply neutral_app; [|done].
  unfold Labels.escape_byte. destruct (Z.eqb_spec b backslash); [apply neutral_escape|].
  destruct (Z.eqb_spec b 10); [apply neutral_escape|].
  destruct (Z.eqb_spec b dquote); [apply neutral_escape|]. by apply neutral_quoted_byte.
Qed.

Lemma Matcher_neutral m : neutral Plain (bytes (Labels.Matcher_String m)).
Proof.
  unfold Labels.Matcher_String. destruct (ContainsFunc _ _) eqn:Hr; rewrite !bytes_app.
  - auto using neutral_app, Quote_neutral, MatchType_neutral.
  - unfold Labels.openMetricsEscape.
    rewrite (bytes_of_bytes [dquote]) by (repeat constructor; unfold is_byte, dquote; lia).
    rewrite bytes_of_bytes by apply escape_bytes, bytes_is_byte.
    apply neutral_app; [by apply plain_name_neutral|]. apply neutral_app; [apply MatchType_neutral|].
    apply neutral_quote, escape_neutral.
Qed.

Lemma join_neutral ms : ∀ first, neutral Plain (bytes (Labels.join_matchers first ms)).
Proof.
  induction ms as [|m ms IH]; intros first; cbn [Labels.join_matchers]; [apply neutral_nil|].
  rewrite !bytes_app. apply neutral_app; [by destruct first|].
  apply neutral_app; [apply Matcher_neutral|apply IH].
Qed.

(** The printed matchers end at the first closing brace outside quotes. *)
Lemma scan_matchers ms rest :
  scan Plain (bytes (Labels.Matchers_String ms) ++ rest) = Some rest.
Proof.
  unfold Labels.Matchers_String. rewrite !bytes_app, <-!app_assoc.
  change (bytes "{") with [123]. cbn [app scan]. cbn.
  by rewrite (join_neutral ms true).
Qed.

Lemma matchers_prefix_free ms1 ms2 r1 r2 :
  bytes (Labels.Matchers_String ms1) ++ r1 = bytes (Labels.Matchers_String ms2) ++ r2 → r1 = r2.
Proof. intros E. pose proof (scan_matchers ms1 r1) as H. rewrite E, scan_matchers in H. congruence. Qed.

(** ** The identifiers *)
Definition slash : Z := 47.

(** A list ends or goes on with a slash. *)
Definition at_slash (t : list Z) : Prop := t = [] ∨ ∃ t', t = slash :: t'.

Lemma app_slash_inj l1 l2 t1 t2 :
  slash ∉ l1 → slash ∉ l2 → at_slash t1 → at_slash t2 → l1 ++ t1 = l2 ++ t2 → l1 = l2 ∧ t1 = t2.
Proof.
  revert l2. induction l1 as [|b l1 IH]; intros [|c l2] H1 H2 Ht1 Ht2 E; cbn in *; [done|..].
  - destruct Ht1 as [->|[t' ->]]; simplify_eq. set_solver.
  - destruct Ht2 as [->|[t' ->]]; simplify_eq. set_solver.
  - simplify_eq. destruct (IH l2) as [-> ->]; [set_solver..|done|done|done|done].
Qed.

Lemma Itoa_index_inj (i j : nat) t1 t2 :
  at_slash t1 → at_slash t2 →
  bytes (Itoa (Z.of_nat i)) ++ t1 = bytes (Itoa (Z.of_nat j)) ++ t2 → i = j ∧ t1 = t2.
Proof.
  assert (Hb : ∀ k : nat, bytes (Itoa (Z.of_nat k)) = digits (Z.of_nat k)).
  { intros k. unfold Itoa, Itoa_bytes. rewrite (proj2 (Z.ltb_ge _ _)) by lia.
    apply bytes_of_bytes. eapply Forall_impl; [apply (digits_spec (Z.of_nat k)); lia|].
    cbn. intros b Hd%is_digit_range. unfold is_byte. lia. }
  assert (Hs : ∀ k : nat, slash ∉ digits (Z.of_nat k)).
  { intros k Hin. destruct (digits_spec (Z.of_nat k)) as (_ & Hd & _); [lia|].
    rewrite Forall_forall in Hd. apply Hd, is_digit_range in Hin. unfold slash in Hin. lia. }
  intros Ht1 Ht2 E. rewrite !Hb in E. apply app_slash_inj in E as [E ->]; [|done..].
  split; [|done]. destruct (digits_spec (Z.of_nat i)) as (Hi & _); [lia|].
  destruct (digits_spec (Z.of_nat j)) as (Hj & _); [lia|]. rewrite E in Hi. lia.
Qed.

(** The bytes of an identifier below a parent. *)
Lemma ID_below_bytes r i p s :
  ID_below r i p = Some s →
  ∃ t, bytes s = bytes (Labels.Matchers_String (Matchers r)) ++
         slash :: bytes (Itoa (Z.of_nat i)) ++ t ∧ at_slash t ∧
    match p with
    | [] => t = []
    | j :: q => ∃ child k, Routes r !! j = Some child ∧ ID_below child j q = Some k ∧ t = slash :: bytes k
    end.
Proof.
  destruct p as [|j q]; cbn.
  - intros [= <-]. exists []. rewrite !bytes_app, app_nil_r. split_and!; [done|by left|done].
  - destruct (Routes r !! j) as [child|] eqn:Ej; [|done]. cbn.
    destruct (ID_below child j q) as [k|] eqn:Ek; [|done]. cbn. intros [= <-].
    exists (slash :: bytes k). rewrite !bytes_app. cbn. rewrite <-!app_assoc.
    split_and!; [done|right; eauto|]. exists child, k. done.
Qed.

Lemma ID_below_inj (rs : list route) p : ∀ i c q j d s t,
  rs !! i = Some c → rs !! j = Some d → ID_below c i p = Some s → ID_below d j q = Some t →
  bytes s = bytes t → i = j ∧ p = q.
Proof.
  revert rs. induction p as [|a p IH]; intros rs i c q j d s t Hi Hj Hs Ht E;
    apply ID_below_bytes in Hs as (ts & Es & Hss & Hs);
    apply ID_below_bytes in Ht as (tt & Et & Htt & Ht);
    rewrite Es, Et in E; apply matchers_prefix_free in E; injection E as E;
    apply Itoa_index_inj in E as [<- <-]; try done.
  - destruct q as [|b q]; [done|]. by destruct Ht as (? & ? & _ & _ & Ht); simplify_eq.
  - simplify_eq. destruct Hs as (c1 & k1 & H1 & Hk1 & ->).
    destruct q as [|b q]; [done|]. destruct Ht as (c2 & k2 & H2 & Hk2 & [= E]).
    destruct (IH (Routes c) a c1 q b c2 k1 k2) as [-> ->]; done.
Qed.

(** the identifier of a route is unique in its tree, whatever bytes the
    configured label values contain: two positions with the same identifier
    are the same. *)
Theorem route_id_unique r p q s : ID r p = Some s → ID r q = Some s → p = q.
Proof.
  assert (Hroot : ∀ i p, ID r (i :: p) ≠ Some (Labels.Matchers_String (Matchers r))).
  { intros i p'. unfold ID. destruct (Routes r !! i) as [c|]; [|done]. cbn [mbind option_bind].
    destruct (ID_below c i p') as [k|]; [|done]. cbn [mbind option_bind]. intros E%(inj Some)%(f_equal bytes).
    rewrite !bytes_app, <-(app_nil_r (bytes (Labels.Matchers_String (Matchers r)))),
      <-!app_assoc in E. by apply app_inv_head in E. }
  destruct p as [|i p], q as [|j q]; [done|..].
  - intros [= <-] H. by destruct (Hroot j q).
  - intros H [= <-]. by destruct (Hroot i p).
  - unfold ID. destruct (Routes r !! i) as [c|] eqn:Hi; [|done]. cbn [mbind option_bind].
    destruct (ID_below c i p) as [k|] eqn:Hk; [|done]. cbn [mbind option_bind]. intros [= <-].
    destruct (Routes r !! j) as [d|] eqn:Hj; [|done]. cbn [mbind option_bind].
    destruct (ID_below d j q) as [k'|] eqn:Hk'; [|done]. cbn [mbind option_bind].
    intros E%(inj Some)%(f_equal bytes).
    rewrite !bytes_app in E. apply app_inv_head, app_inv_head in E.
    destruct (ID_below_inj (Routes r) p i c q j d k k') as [-> ->]; done.
Qed.
End ids.
End RouteId.
