(* ===== verification/Dispatch.v ===== *)
(** * The dispatcher (dispatch/dispatch.go)

    The dispatcher sorts alerts into aggregation groups, one map of groups per
    route, and each group flushes its alerts into the notification pipeline at
    intervals.  Several workers route alerts at the same time as groups flush
    and as a maintenance loop removes groups that have become empty; what they
    share is a map per route (sync.Map), a counter and the groups themselves.
    Groups are objects in a heap, [gstep] is one atomic action of [groupAlert],
    and [step] is one action of the whole system. *)

From Stdlib Require Import Ascii String.
From stdpp Require Import base gmap strings list sorting relations.
From S2P Require Import Prelude Utf8 Labels Silence Alert Nflog Notify Bucket Store Inhibit.
From S2P Require Import Strconv Route.

Import Alert.

(** The text form of a label set, of github.com/prometheus/common. *)
Class LabelSetString := LabelSet_String : LabelSet → string.

(** The template engine: the rendered value of a route label, or an error; the
    arguments are the receiver, the group labels, the route labels, the alerts
    and the name of the label. *)
Class RouteLabelRenderer :=
  render_label : string → LabelSet → LabelSet → list Alert → string → option string.

Module Dispatch.

Definition wrap32 (x : Z) : Z := (x + 2 ^ 31) mod 2 ^ 32 - 2 ^ 31.
Definition wrap_u64 (x : Z) : Z := x mod 2 ^ 64.

Inductive DispatcherState :=
| DispatcherStateUnknown | DispatcherStateWaitingToStart | DispatcherStateRunning
| DispatcherStateStopped.

#[global] Instance DispatcherState_eq_dec : EqDecision DispatcherState.
Proof. solve_decision. Defined.

Section dispatch.
Context `{RE : Regexp, MR : MapRange, UP : UnicodePrint, PM : PromModel, FP : Fingerprinter}.
Context `{LS : LabelSetString, RR : RouteLabelRenderer}.

(** ** Aggregation groups *)
Record aggrGroup := mkGroup {
  g_labels : LabelSet;
  g_opts : Route.RouteOpts;
  g_routeID : string;
  g_routeKey : string;
  g_matchers : list Labels.Matcher;
  g_alerts : Store.Alerts;
  g_marker : gmap Z Marker.alertStatus;
  g_canceled : bool;
  g_next : time;                        (** when the timer fires *)
  g_running : bool;
  g_flushIdx : Z;
  g_routeLabels : option (Z * LabelSet);
  g_routeLabelsGen : Z;
}.

Definition set_g_alerts s g :=
  mkGroup (g_labels g) (g_opts g) (g_routeID g) (g_routeKey g) (g_matchers g) s (g_marker g)
    (g_canceled g) (g_next g) (g_running g) (g_flushIdx g) (g_routeLabels g) (g_routeLabelsGen g).
Definition set_g_marker m g :=
  mkGroup (g_labels g) (g_opts g) (g_routeID g) (g_routeKey g) (g_matchers g) (g_alerts g) m
    (g_canceled g) (g_next g) (g_running g) (g_flushIdx g) (g_routeLabels g) (g_routeLabelsGen g).
Definition cancel g :=
  mkGroup (g_labels g) (g_opts g) (g_routeID g) (g_routeKey g) (g_matchers g) (g_alerts g)
    (g_marker g) true (g_next g) (g_running g) (g_flushIdx g) (g_routeLabels g)
    (g_routeLabelsGen g).
Definition set_running g :=
  mkGroup (g_labels g) (g_opts g) (g_routeID g) (g_routeKey g) (g_matchers g) (g_alerts g)
    (g_marker g) (g_canceled g) (g_next g) true (g_flushIdx g) (g_routeLabels g)
    (g_routeLabelsGen g).
Definition set_routeLabels c g :=
  mkGroup (g_labels g) (g_opts g) (g_routeID g) (g_routeKey g) (g_matchers g) (g_alerts g)
    (g_marker g) (g_canceled g) (g_next g) (g_running g) (g_flushIdx g) c (g_routeLabelsGen g).
Definition invalidateRouteLabels g :=
  mkGroup (g_labels g) (g_opts g) (g_routeID g) (g_routeKey g) (g_matchers g) (g_alerts g)
    (g_marker g) (g_canceled g) (g_next g) (g_running g) (g_flushIdx g) (g_routeLabels g)
    (wrap_u64 (g_routeLabelsGen g + 1)).

(** [resetTimer]: the timer fires [t] after [now]. *)
Definition resetTimer g (t : duration) (now : time) :=
  mkGroup (g_labels g) (g_opts g) (g_routeID g) (g_routeKey g) (g_matchers g) (g_alerts g)
    (g_marker g) (g_canceled g) (now + t) (g_running g) (g_flushIdx g) (g_routeLabels g)
    (g_routeLabelsGen g).
Definition next_flush g :=
  mkGroup (g_labels g) (g_opts g) (g_routeID g) (g_routeKey g) (g_matchers g) (g_alerts g)
    (g_marker g) (g_canceled g) (g_next g) (g_running g) (wrap_u64 (g_flushIdx g + 1))
    (g_routeLabels g) (g_routeLabelsGen g).

(** [getGroupLabels]. *)
Definition getGroupLabels (a : Alert) (opts : Route.RouteOpts) : LabelSet :=
  filter (λ x, x.1 ∈ Route.GroupBy opts ∨ Route.GroupByAll opts = true) (Labels a).

(** [newAggrGroup]; the identifiers are those of the route at its position. *)
Definition newAggrGroup (labels : LabelSet) (root : Route.route) (pos : Route.position)
    (r : Route.route) (now : time) : aggrGroup :=
  mkGroup labels (Route.Opts r) (default ""%string (Route.ID root pos))
    (default ""%string (Route.Key root pos)) (Route.Matchers r) Store.NewAlerts
    Marker.NewAlertMarker false (now + Route.GroupWait (Route.Opts r)) false 1 None 0.

Definition fingerprint (g : aggrGroup) : Z := Fingerprint (g_labels g).
Definition GroupKey (g : aggrGroup) : string := g_routeKey g +:+ ":" +:+ LabelSet_String (g_labels g).
Definition empty (g : aggrGroup) : bool := Store.Empty (g_alerts g).
Definition destroyed (g : aggrGroup) : bool := Store.Destroyed (g_alerts g).

(** [insert]: false when the group has been destroyed. *)
Definition insert_ (g : aggrGroup) (a : Alert) (now : time) : aggrGroup * bool :=
  let '(s, err) := Store.Set_ (g_alerts g) a now in
  match err with
  | Some Store.ErrDestroyed => (g, false)
  | Some _ => (set_g_alerts s g, true)
  | None => (invalidateRouteLabels (set_g_alerts s g), true)
  end.

(** [renderRouteLabels]; a label that fails to render is left out. *)
Definition renderRouteLabels (g : aggrGroup) (alerts : list Alert) : LabelSet :=
  let ls := Route.RouteLabels (g_opts g) in
  map_imap (λ n _, render_label (Route.Receiver (g_opts g)) (g_labels g) ls alerts n) ls.

(** [RouteLabels]. *)
Definition RouteLabels (g : aggrGroup) : aggrGroup * LabelSet :=
  let gen := g_routeLabelsGen g in
  let render :=
    let alerts := Store.List_ (g_alerts g) in
    let labels := match alerts with [] => ∅ | _ => renderRouteLabels g alerts end in
    (set_routeLabels (Some (gen, labels)) g, labels) in
  match g_routeLabels g with
  | Some (g_gen, labels) => if g_gen =? gen then (g, labels) else render
  | None => render
  end.

(** ** Flushing *)

(** The loop of [flush]: alerts that are not resolved at [now] lose their end
    time, so that they do not resolve while they are being notified. *)
Fixpoint flush_loop (now : time) (alerts : list Alert) : list Alert * list Alert :=
  match alerts with
  | [] => ([], [])
  | a :: alerts =>
      let '(slice, resolved) := flush_loop now alerts in
      if Resolved a now then (a :: slice, a :: resolved) else (set_EndsAt 0 a :: slice, resolved)
  end.

Definition alert_le (x y : Alert) : Prop := AlertSlice_Less y x = false.

#[global] Instance alert_le_dec x y : Decision (alert_le x y).
Proof. unfold alert_le. apply _. Defined.

(** [flush] up to the call of notify: the alerts to notify, in order, and the
    resolved ones among them; [None] when the group is empty. *)
Definition flush_begin (g : aggrGroup) (now : time) : option (list Alert * list Alert) :=
  if empty g then None else
  let '(slice, resolved) := flush_loop now (Store.List_ (g_alerts g)) in
  Some (merge_sort alert_le slice, resolved).

(** [flush] after notify has returned [ok]. *)
Definition flush_end (g : aggrGroup) (resolved : list Alert) (ok : bool) : aggrGroup :=
  if negb ok then g else
  let g := set_g_alerts (Store.DeleteIfNotModified (g_alerts g) resolved true) g in
  let g := if (0 <? length resolved)%nat then invalidateRouteLabels g else g in
  set_g_marker
    (foldl (λ m a,
       match Store.Get (g_alerts g) (Store.alert_Fingerprint a) with
       | Err Store.ErrNotFound => Marker.Delete m [Store.alert_Fingerprint a]
       | _ => m
       end) (g_marker g) resolved) g.

Definition flush (g : aggrGroup) (now : time) (notify : list Alert → bool) : aggrGroup :=
  match flush_begin g now with
  | None => g
  | Some (alerts, resolved) => flush_end g resolved (notify alerts)
  end.

(** The context of one run of the pipeline, as [run] and the callback of
    [flush] fill it. *)
Definition run_context (g : aggrGroup) (now : time) (ctx : Notify.Context) : Notify.Context :=
  let ctx := Notify.WithNow ctx now in
  let ctx := Notify.WithGroupKey ctx (GroupKey g) in
  let ctx := Notify.WithGroupLabels ctx (g_labels g) in
  let ctx := Notify.WithRouteLabels ctx (Route.RouteLabels (g_opts g)) in
  let ctx := Notify.WithReceiverName ctx (Route.Receiver (g_opts g)) in
  let ctx := Notify.WithRepeatInterval ctx (Route.RepeatInterval (g_opts g)) in
  let ctx := Notify.WithMuteTimeIntervals ctx (Route.MuteTimeIntervals (g_opts g)) in
  let ctx := Notify.WithActiveTimeIntervals ctx (Route.ActiveTimeIntervals (g_opts g)) in
  let ctx := Notify.WithRouteID ctx (g_routeID g) in
  let ctx := Notify.WithFlushID ctx (g_flushIdx g) in
  Notify.WithGroupMatchers ctx (g_matchers g).

(** One round of [run] when the timer has fired: the group after it and whether
    the loop ends; [nf] runs the pipeline. *)
Definition run_round (g : aggrGroup) (now now_reset now_flush : time) (ctx : Notify.Context)
    (nf : Notify.Context → list Alert → bool) : aggrGroup * bool :=
  let ctx := run_context g now ctx in
  let g := next_flush g in
  let g := resetTimer g (Route.GroupInterval (g_opts g)) now_reset in
  let g := flush g now_flush (λ alerts,
    nf (Notify.WithRouteLabels ctx (renderRouteLabels g alerts)) alerts) in
  (g, destroyed g).

(** ** The dispatcher *)
Record routeAggrGroups := mkRouteGroups {
  rg_groups : gmap Z nat;    (** fingerprint to address *)
  rg_len : Z;
}.

Record Dispatcher := mkDispatcher {
  d_route : Route.route;
  d_limit : Z;
  d_state : DispatcherState;
  routeGroupsSlice : list routeAggrGroups;
  aggrGroupsNum : Z;
  d_marker : gmap (string * string) (list string);
  heap : gmap nat aggrGroup;
  next_addr : nat;
}.

Definition set_slice l d :=
  mkDispatcher (d_route d) (d_limit d) (d_state d) l (aggrGroupsNum d) (d_marker d) (heap d)
    (next_addr d).
Definition set_num n d :=
  mkDispatcher (d_route d) (d_limit d) (d_state d) (routeGroupsSlice d) n (d_marker d) (heap d)
    (next_addr d).
Definition set_marker m d :=
  mkDispatcher (d_route d) (d_limit d) (d_state d) (routeGroupsSlice d) (aggrGroupsNum d) m (heap d)
    (next_addr d).
Definition set_heap h d :=
  mkDispatcher (d_route d) (d_limit d) (d_state d) (routeGroupsSlice d) (aggrGroupsNum d)
    (d_marker d) h (next_addr d).
Definition set_state st d :=
  mkDispatcher (d_route d) (d_limit d) st (routeGroupsSlice d) (aggrGroupsNum d) (d_marker d)
    (heap d) (next_addr d).
Definition alloc g d :=
  mkDispatcher (d_route d) (d_limit d) (d_state d) (routeGroupsSlice d) (aggrGroupsNum d)
    (d_marker d) (<[next_addr d := g]> (heap d)) (S (next_addr d)).

(** [Run] until it waits: one empty map of groups per route. *)
Definition Run_init (root : Route.route) (limit : Z) : Dispatcher :=
  let slice := replicate (Z.to_nat (Route.Idx root + 1)) (mkRouteGroups ∅ 0) in
  mkDispatcher root limit DispatcherStateWaitingToStart
    (foldl (λ l r, <[Z.to_nat (Route.Idx r) := mkRouteGroups ∅ 0]> l) slice (Route.Walk root))
    0 ∅ ∅ 0.

(** The sync.Map of a route: each operation is atomic. *)
Definition Load (d : Dispatcher) (idx : nat) (fp : Z) : option nat :=
  rg ← routeGroupsSlice d !! idx; rg_groups rg !! fp.

Definition Store_ (d : Dispatcher) (idx : nat) (fp : Z) (addr : nat) : Dispatcher :=
  set_slice (alter (λ rg, mkRouteGroups (<[fp := addr]> (rg_groups rg)) (rg_len rg)) idx
               (routeGroupsSlice d)) d.

Definition CompareAndSwap (d : Dispatcher) (idx : nat) (fp : Z) (old new : nat)
    : Dispatcher * bool :=
  if decide (Load d idx fp = Some old) then (Store_ d idx fp new, true) else (d, false).

(** The stored address when there is one, and whether it was loaded. *)
Definition LoadOrStore (d : Dispatcher) (idx : nat) (fp : Z) (new : nat) : Dispatcher * nat * bool :=
  match Load d idx fp with
  | Some addr => (d, addr, true)
  | None => (Store_ d idx fp new, new, false)
  end.

Definition CompareAndDelete (d : Dispatcher) (idx : nat) (fp : Z) (old : nat) : Dispatcher * bool :=
  if decide (Load d idx fp = Some old) then
    (set_slice (alter (λ rg, mkRouteGroups (delete fp (rg_groups rg)) (rg_len rg)) idx
                  (routeGroupsSlice d)) d, true)
  else (d, false).

(** groupsLen.Add and aggrGroupsNum.Add. *)
Definition count_groups (n : Z) (idx : nat) (d : Dispatcher) : Dispatcher :=
  set_num (wrap32 (aggrGroupsNum d + n))
    (set_slice (alter (λ rg, mkRouteGroups (rg_groups rg) (rg_len rg + n)) idx
                  (routeGroupsSlice d)) d).

(** Calling a method of the group at an address. *)
Definition insert_at (d : Dispatcher) (addr : nat) (a : Alert) (now : time) : Dispatcher * bool :=
  match heap d !! addr with
  | None => (d, false)
  | Some g => let '(g, ok) := insert_ g a now in (set_heap (<[addr := g]> (heap d)) d, ok)
  end.

Definition update_at (f : aggrGroup → aggrGroup) (addr : nat) (d : Dispatcher) : Dispatcher :=
  set_heap (alter f addr (heap d)) d.

(** ** groupAlert *)

(** A call: the alert, the route and the clock readings. *)
Record call := mkCall {
  c_alert : Alert;
  c_pos : Route.position;
  c_route : Route.route;
  c_now : time;
}.

Definition c_idx (c : call) : nat := Z.to_nat (Route.Idx (c_route c)).
Definition c_labels (c : call) : LabelSet := getGroupLabels (c_alert c) (Route.Opts (c_route c)).
Definition c_fp (c : call) : Z := Fingerprint (c_labels c).

Inductive outcome :=
| Inserted (addr : nat)      (** into an existing group *)
| Created (addr : nat)       (** a group was created and stored *)
| LimitReached
| GivenUp.

(** Where a call is: before its next atomic action.  [el] is the group that was
    loaded and found destroyed, [ag] the new one. *)
Inductive pc :=
| PLoad
| PInsert (el : nat)
| PLimit (el : option nat)
| PNew (el : option nat)
| PLoop (ag : nat) (el : option nat) (retries : Z)
| PCancel (ag el : nat)
| PCount (ag : nat)
| PInsertExisting (ag el : nat) (retries : Z)
| PRetry (ag : nat) (el : option nat) (retries : Z)
| PStart (ag : nat)
| PDone (o : outcome).

(** One atomic action of [groupAlert]. *)
Definition gstep (c : call) (d : Dispatcher) (p : pc) : Dispatcher * pc :=
  match p with
  | PLoad =>
      match Load d (c_idx c) (c_fp c) with
      | Some el => (d, PInsert el)
      | None => (d, PLimit None)
      end
  | PInsert el =>
      let '(d, ok) := insert_at d el (c_alert c) (c_now c) in
      (d, if ok : bool then PDone (Inserted el) else PLimit (Some el))
  | PLimit el =>
      if (0 <? d_limit d) && (d_limit d <=? aggrGroupsNum d) then (d, PDone LimitReached)
      else (d, PNew el)
  | PNew el =>
      let g := newAggrGroup (c_labels c) (d_route d) (c_pos c) (c_route c) (c_now c) in
      let '(g, _) := insert_ g (c_alert c) (c_now c) in
      (alloc g d, PLoop (next_addr d) el 0)
  | PLoop ag (Some el) retries =>
      let '(d, swapped) := CompareAndSwap d (c_idx c) (c_fp c) el ag in
      (d, if swapped : bool then PCancel ag el else PRetry ag None retries)
  | PLoop ag None retries =>
      let '(d, el, loaded) := LoadOrStore d (c_idx c) (c_fp c) ag in
      (d, if loaded : bool then PInsertExisting ag el retries else PCount ag)
  | PCancel ag el => (update_at cancel el d, PStart ag)
  | PCount ag => (count_groups 1 (c_idx c) d, PStart ag)
  | PInsertExisting ag el retries =>
      let '(d, ok) := insert_at d el (c_alert c) (c_now c) in
      (d, if ok : bool then PDone (Inserted el) else PRetry ag (Some el) retries)
  | PRetry ag el retries =>
      (d, if 100 <? retries + 1 then PDone GivenUp else PLoop ag el (retries + 1))
  | PStart ag =>
      let d := update_at (λ g,
        if Before (StartsAt (c_alert c) + Route.GroupWait (g_opts g)) (c_now c)
        then resetTimer g 0 (c_now c) else g) ag d in
      (match d_state d with
       | DispatcherStateRunning => update_at set_running ag d
       | _ => d
       end, PDone (Created ag))
  | PDone o => (d, PDone o)
  end.

(** [groupAlert] when nothing else runs. *)
Fixpoint group_loop (fuel : nat) (c : call) (d : Dispatcher) (p : pc) : Dispatcher * pc :=
  match fuel with
  | O => (d, p)
  | S fuel =>
      match p with
      | PDone o => (d, PDone o)
      | _ => let '(d, p) := gstep c d p in group_loop fuel c d p
      end
  end.

Definition groupAlert (c : call) (d : Dispatcher) : Dispatcher * pc := group_loop 12 c d PLoad.

(** [routeAlert]: the routes that match, one after the other. *)
Definition routeAlert (a : Alert) (now : time) (d : Dispatcher) : Dispatcher :=
  foldl (λ d pos,
    match Route.node_at (d_route d) pos with
    | Some r => (groupAlert (mkCall a pos r now) d).1
    | None => d
    end) d (Route.Match (d_route d) (Labels a)).

(** [runAG], on the group at an address. *)
Definition runAG (addr : nat) (d : Dispatcher) : Dispatcher := update_at set_running addr d.

(** The timer goroutine of [run] when nothing else runs: it starts every group
    that exists. *)
Definition start_all (d : Dispatcher) : Dispatcher :=
  match d_state d with
  | DispatcherStateWaitingToStart =>
      foldl (λ d rg, foldl (λ d x, runAG x.2 d) d (range (rg_groups rg)))
        (set_state DispatcherStateRunning d) (routeGroupsSlice d)
  | _ => d
  end.

(** One group in [doMaintenance]: its removal when it has been destroyed, and
    what follows the removal. *)
Definition maintain_delete (idx addr : nat) (d : Dispatcher) : Dispatcher * bool :=
  match heap d !! addr with
  | Some g =>
      if destroyed g then
        CompareAndDelete (update_at cancel addr d) idx (fingerprint g) addr
      else (d, false)
  | None => (d, false)
  end.

Definition maintain_count (idx addr : nat) (d : Dispatcher) : Dispatcher :=
  match heap d !! addr with
  | Some g =>
      count_groups (-1) idx
        (set_marker (Marker.DeleteByGroupKey (d_marker d) (g_routeID g) (GroupKey g)) d)
  | None => d
  end.

Definition maintain_group (idx addr : nat) (d : Dispatcher) : Dispatcher :=
  let '(d, deleted) := maintain_delete idx addr d in
  if deleted : bool then maintain_count idx addr d else d.

(** [doMaintenance] when nothing else runs. *)
Fixpoint maintain_loop (idx : nat) (slice : list routeAggrGroups) (d : Dispatcher) : Dispatcher :=
  match slice with
  | [] => d
  | rg :: slice =>
      maintain_loop (S idx) slice
        (foldl (λ d x, maintain_group idx x.2 d) d (range (rg_groups rg)))
  end.
Definition doMaintenance (d : Dispatcher) : Dispatcher := maintain_loop 0 (routeGroupsSlice d) d.

(** ** The system *)

(** The dispatcher with the calls of [groupAlert] in progress, the flushes
    waiting for the pipeline, the groups that maintenance has seen in the map of
    a route and not yet looked at, and the deletions not yet counted. *)
Record system := mkSystem {
  sys_d : Dispatcher;
  sys_calls : gmap nat (call * pc);
  sys_flushes : list (nat * list Alert);
  sys_seen : list (nat * nat);
  sys_deleted : list (nat * nat);
}.

Inductive step : relation system :=
| step_call d cs fs es ds tid a pos r now :
    cs !! tid = None → pos ∈ Route.Match (d_route d) (Labels a) →
    Route.node_at (d_route d) pos = Some r →
    step (mkSystem d cs fs es ds) (mkSystem d (<[tid := (mkCall a pos r now, PLoad)]> cs) fs es ds)
| step_group d cs fs es ds tid c p d' p' :
    cs !! tid = Some (c, p) → gstep c d p = (d', p') →
    step (mkSystem d cs fs es ds) (mkSystem d' (<[tid := (c, p')]> cs) fs es ds)
| step_start d cs fs es ds :
    d_state d = DispatcherStateWaitingToStart →
    step (mkSystem d cs fs es ds) (mkSystem (set_state DispatcherStateRunning d) cs fs es ds)
| step_run d cs fs es ds idx fp addr :
    d_state d = DispatcherStateRunning → Load d idx fp = Some addr →
    step (mkSystem d cs fs es ds) (mkSystem (runAG addr d) cs fs es ds)
| step_flush_begin d cs fs es ds addr g now alerts resolved :
    heap d !! addr = Some g → g_running g = true → flush_begin g now = Some (alerts, resolved) →
    step (mkSystem d cs fs es ds) (mkSystem d cs (fs ++ [(addr, resolved)]) es ds)
| step_flush_end d cs fs1 fs2 es ds addr resolved ok :
    step (mkSystem d cs (fs1 ++ (addr, resolved) :: fs2) es ds)
      (mkSystem (update_at (λ g, flush_end g resolved ok) addr d) cs (fs1 ++ fs2) es ds)
| step_range d cs fs es ds idx fp addr :
    Load d idx fp = Some addr →
    step (mkSystem d cs fs es ds) (mkSystem d cs fs (es ++ [(idx, addr)]) ds)
| step_maintain d cs fs es1 es2 ds idx addr d' deleted :
    maintain_delete idx addr d = (d', deleted) →
    step (mkSystem d cs fs (es1 ++ (idx, addr) :: es2) ds)
      (mkSystem d' cs fs (es1 ++ es2) (if deleted : bool then ds ++ [(idx, addr)] else ds))
| step_count d cs fs es ds1 ds2 idx addr :
    step (mkSystem d cs fs es (ds1 ++ (idx, addr) :: ds2))
      (mkSystem (maintain_count idx addr d) cs fs es (ds1 ++ ds2)).

Definition init (root : Route.route) (limit : Z) : system :=
  mkSystem (Run_init root limit) ∅ [] [] [].
End dispatch.
End Dispatch.
