(* ===== verification/DispatchInv.v ===== *)
(** * Properties of the dispatcher

    The invariant of the concurrent dispatcher: a group that some worker has
    found in the map of its route stays there as long as it is not destroyed,
    and a group under construction is seen by nobody else.  From it follows
    that an alert is never put into a group that has been forgotten. *)

From Stdlib Require Import Ascii String.
From stdpp Require Import base gmap strings list sorting relations.
From S2P Require Import Prelude Utf8 Labels Silence Alert Nflog Notify Bucket Store Inhibit.
From S2P Require Import Strconv Route Dispatch.

Import Alert Dispatch.

Module DispatchInv.
Section dispatch.
Context `{RE : Regexp, MR : MapRange, UP : UnicodePrint, PM : PromModel, FP : Fingerprinter}.
Context `{LS : LabelSetString, RR : RouteLabelRenderer}.
Implicit Types d : Dispatcher.
Implicit Types s : system.

(** A node of the tree is visited by [Walk]. *)
Lemma node_at_Walk pos : ∀ root r, Route.node_at root pos = Some r → r ∈ Route.Walk root.
Proof.
  induction pos as [|i pos IH]; intros root r; cbn; rewrite Route.Walk_eq.
  - intros [= <-]. by left.
  - intros (child & Hi & Hr)%bind_Some. right. apply list_elem_of_bind. exists child.
    split; [by apply IH|by eapply list_elem_of_lookup_2].
Qed.

(** ** The maps *)
Lemma Load_set_heap d h idx fp : Load (set_heap h d) idx fp = Load d idx fp.
Proof. done. Qed.

Lemma Load_update_at f addr d idx fp : Load (update_at f addr d) idx fp = Load d idx fp.
Proof. done. Qed.

Lemma heap_update_at f addr d a :
  heap (update_at f addr d) !! a = (if decide (a = addr) then f <$> (heap d !! a) else heap d !! a).
Proof.
  cbn. case_decide as E; [subst; by rewrite lookup_alter_eq|by rewrite lookup_alter_ne].
Qed.

Lemma Load_alter (f : routeAggrGroups → routeAggrGroups) d idx idx' fp :
  Load (set_slice (alter f idx (routeGroupsSlice d)) d) idx' fp =
    (if decide (idx' = idx) then rg ← routeGroupsSlice d !! idx; rg_groups (f rg) !! fp
     else Load d idx' fp).
Proof.
  unfold Load. cbn. case_decide as E; [subst; rewrite list_lookup_alter_eq|
    by rewrite list_lookup_alter_ne].
  by destruct (routeGroupsSlice d !! idx).
Qed.

Lemma Load_count n idx d idx' fp : Load (count_groups n idx d) idx' fp = Load d idx' fp.
Proof.
  change (Load (count_groups n idx d) idx' fp) with
    (Load (set_slice (alter (λ rg, mkRouteGroups (rg_groups rg) (rg_len rg + n)) idx
       (routeGroupsSlice d)) d) idx' fp).
  rewrite Load_alter. case_decide; [|done]. subst. unfold Load.
  by destruct (routeGroupsSlice d !! idx).
Qed.

Lemma Load_Store_ne d idx fp addr idx' fp' :
  (idx', fp') ≠ (idx, fp) → Load (Store_ d idx fp addr) idx' fp' = Load d idx' fp'.
Proof.
  intros Hne. unfold Store_. rewrite Load_alter. case_decide; [|done]. subst. unfold Load.
  destruct (routeGroupsSlice d !! idx) as [rg|]; [|done]. cbn. rewrite lookup_insert_ne; congruence.
Qed.

(** The route of the call has a map. *)
Definition has_slot d (idx : nat) : Prop := (idx < length (routeGroupsSlice d))%nat.

Lemma Load_Store_eq d idx fp addr :
  has_slot d idx → Load (Store_ d idx fp addr) idx fp = Some addr.
Proof.
  intros Hs. unfold Store_. rewrite Load_alter, decide_True by done.
  apply lookup_lt_is_Some in Hs as [rg ->]. cbn. apply lookup_insert_eq.
Qed.

(** ** Groups that only die *)
Definition dead d (el : nat) : Prop := ∃ g, heap d !! el = Some g ∧ destroyed g = true.

(** A group that was found in the map and is alive is still there. *)
Definition attached d (idx : nat) (fp : Z) (el : nat) : Prop :=
  ∃ g, heap d !! el = Some g ∧ (destroyed g = false → Load d idx fp = Some el).

Definition grows d d' : Prop :=
  ∀ a g, heap d !! a = Some g →
    ∃ g', heap d' !! a = Some g' ∧ (destroyed g = true → destroyed g' = true).

Record evolves d d' : Prop := {
  ev_grows : grows d d';
  ev_attached : ∀ idx fp el, attached d idx fp el → attached d' idx fp el;
}.

Lemma dead_evolves d d' el : evolves d d' → dead d el → dead d' el.
Proof. intros [Hg _] (g & Hl & Hd). destruct (Hg _ _ Hl) as (g' & Hl' & Hd'). exists g'. auto. Qed.

Lemma evolves_heap d d' :
  grows d d' → (∀ idx fp, Load d' idx fp = Load d idx fp) → evolves d d'.
Proof.
  intros Hg Hs. split; [done|]. intros idx fp el (g & Hl & Ha).
  destruct (Hg _ _ Hl) as (g' & Hl' & Hd'). exists g'. split; [done|]. rewrite Hs. intros Hn.
  apply Ha. destruct (destroyed g); [by rewrite Hd' in Hn|done].
Qed.

(** A slot changes only when what it held was dead or absent. *)
Lemma evolves_slot d d' idx fp :
  heap d' = heap d →
  (∀ idx' fp', (idx', fp') ≠ (idx, fp) → Load d' idx' fp' = Load d idx' fp') →
  (∀ el, Load d idx fp = Some el → dead d el) →
  evolves d d'.
Proof.
  intros Hh Hs Hold. split.
  - intros a g Ha. exists g. by rewrite Hh.
  - intros idx' fp' el (g & Hl & Ha). exists g. rewrite Hh. split; [done|]. intros Hn.
    specialize (Ha Hn). destruct (decide ((idx', fp') = (idx, fp))) as [[= -> ->]|Hne].
    + apply Hold in Ha as (g' & Hg' & Hd). congruence.
    + by rewrite Hs.
Qed.

Lemma grows_update f addr d :
  (∀ g, destroyed g = true → destroyed (f g) = true) → grows d (update_at f addr d).
Proof.
  intros Hf a g Ha. rewrite heap_update_at, Ha. case_decide; [exists (f g)|exists g]; auto.
Qed.

Lemma evolves_update f addr d :
  (∀ g, destroyed g = true → destroyed (f g) = true) → evolves d (update_at f addr d).
Proof. intros Hf. apply evolves_heap; [by apply grows_update|done]. Qed.

(** ** What the methods of a group do to it *)
Lemma Set_store (st : Store.Alerts) a now :
  Store.perAlertLimit st = 0 →
  Store.Set_ st a now =
    if Store.destroyed st then (st, Some Store.ErrDestroyed)
    else (Store.set_alerts (<[Store.alert_Fingerprint a := a]> (Store.alerts st)) st, None).
Proof. intros H. unfold Store.Set_. by rewrite H. Qed.

(** The stores of groups have no limit. *)
Definition unlimited (g : aggrGroup) : Prop := Store.perAlertLimit (g_alerts g) = 0.

Lemma insert_spec g a now :
  unlimited g →
  let '(g', ok) := insert_ g a now in
  ok = negb (destroyed g) ∧ destroyed g' = destroyed g ∧ unlimited g' ∧ g_running g' = g_running g ∧
  (ok = true → Store.alerts (g_alerts g') =
     <[Store.alert_Fingerprint a := a]> (Store.alerts (g_alerts g))) ∧
  (ok = false → g' = g).
Proof.
  intros Hu. unfold insert_. rewrite Set_store by done. unfold destroyed, Store.Destroyed.
  destruct (Store.destroyed (g_alerts g)) eqn:E; cbn; naive_solver.
Qed.

Lemma flush_end_spec g resolved ok :
  (destroyed g = true → destroyed (flush_end g resolved ok) = true) ∧
  (unlimited g → unlimited (flush_end g resolved ok)).
Proof.
  unfold flush_end, unlimited, destroyed, Store.Destroyed. destruct ok; cbn; [|done].
  destruct (length resolved); cbn; (split; [intros Hd; by rewrite Hd|done]).
Qed.
(** ** The invariant *)

(** The groups a call refers to that are or were in the map. *)
Definition pub_of (p : pc) : list nat :=
  match p with
  | PInsert el | PLimit (Some el) | PNew (Some el) | PLoop _ (Some el) _
  | PInsertExisting _ el _ | PRetry _ (Some el) _ => [el]
  | PCancel ag el => [ag; el]
  | PCount ag | PStart ag => [ag]
  | _ => []
  end.

(** The group a call has made and not yet stored. *)
Definition priv_of (p : pc) : option nat :=
  match p with
  | PLoop ag _ _ | PInsertExisting ag _ _ | PRetry ag _ _ => Some ag
  | _ => None
  end.

Inductive public s (addr : nat) : Prop :=
| pub_slot idx fp : Load (sys_d s) idx fp = Some addr → public s addr
| pub_call tid c p : sys_calls s !! tid = Some (c, p) → addr ∈ pub_of p → public s addr
| pub_flush resolved : (addr, resolved) ∈ sys_flushes s → public s addr
| pub_seen idx : (idx, addr) ∈ sys_seen s → public s addr.

Definition owner s (tid ag : nat) : Prop :=
  ∃ c p, sys_calls s !! tid = Some (c, p) ∧ priv_of p = Some ag.

(** A group under construction: alive, not running, with the alert. *)
Definition fresh_group (c : call) d (ag : nat) : Prop :=
  ∃ g, heap d !! ag = Some g ∧ destroyed g = false ∧ g_running g = false ∧
    Store.alerts (g_alerts g) !! Store.alert_Fingerprint (c_alert c) = Some (c_alert c).

(** What a call knows about the group it loaded. *)
Definition pc_ok (c : call) d (p : pc) : Prop :=
  match p with
  | PInsert el | PInsertExisting _ el _ => attached d (c_idx c) (c_fp c) el
  | PLimit (Some el) | PNew (Some el) | PLoop _ (Some el) _ | PRetry _ (Some el) _
  | PCancel _ el => dead d el
  | _ => True
  end.

Record inv s : Prop := {
  inv_bound : ∀ a g, heap (sys_d s) !! a = Some g → (a < next_addr (sys_d s))%nat;
  inv_unlimited : ∀ a g, heap (sys_d s) !! a = Some g → unlimited g;
  inv_slots : ∀ r, r ∈ Route.Walk (d_route (sys_d s)) → has_slot (sys_d s) (Z.to_nat (Route.Idx r));
  inv_routes : ∀ tid c p, sys_calls s !! tid = Some (c, p) →
    c_route c ∈ Route.Walk (d_route (sys_d s));
  inv_public : ∀ a, public s a → is_Some (heap (sys_d s) !! a);
  inv_hidden : ∀ tid a, public s a → ¬ owner s tid a;
  inv_private : ∀ tid c p ag, sys_calls s !! tid = Some (c, p) → priv_of p = Some ag →
    fresh_group c (sys_d s) ag;
  inv_sep : ∀ tid1 tid2 ag, owner s tid1 ag → owner s tid2 ag → tid1 = tid2;
  inv_calls : ∀ tid c p, sys_calls s !! tid = Some (c, p) → pc_ok c (sys_d s) p;
}.

Lemma pc_ok_evolves c d d' p : evolves d d' → pc_ok c d p → pc_ok c d' p.
Proof.
  intros He. pose proof (dead_evolves d d') as Hd. destruct He as [Hg Ha].
  destruct p as [| |[]|[]|? [] ?| | | |? [] ?| |]; cbn; auto;
    intros H; apply Hd; try done; by constructor.
Qed.

(** The frame of a step: only call [t0] moves, the rest of the invariant is
    carried over. *)
Lemma inv_next s s' t0 :
  inv s →
  evolves (sys_d s) (sys_d s') →
  (∀ a g, heap (sys_d s') !! a = Some g → (a < next_addr (sys_d s'))%nat ∧ unlimited g) →
  d_route (sys_d s') = d_route (sys_d s) →
  length (routeGroupsSlice (sys_d s')) = length (routeGroupsSlice (sys_d s)) →
  (∀ tid, tid ≠ t0 → sys_calls s' !! tid = sys_calls s !! tid) →
  (∀ c p, sys_calls s' !! t0 = Some (c, p) →
     sys_calls s !! t0 = Some (c, p) ∧
       (∀ ag, priv_of p = Some ag → heap (sys_d s') !! ag = heap (sys_d s) !! ag) ∨
     c_route c ∈ Route.Walk (d_route (sys_d s)) ∧ pc_ok c (sys_d s') p ∧
     ∀ ag, priv_of p = Some ag → fresh_group c (sys_d s') ag ∧
       (owner s t0 ag ∨ heap (sys_d s) !! ag = None)) →
  (∀ tid ag, owner s tid ag → tid ≠ t0 → heap (sys_d s') !! ag = heap (sys_d s) !! ag) →
  (∀ a, public s' a → public s a ∨ is_Some (heap (sys_d s') !! a) ∧ ∀ tid, ¬ owner s' tid a) →
  inv s'.
Proof.
  intros Hi He Hb Hr Hlen Hother Ht0 Hsame Hpub.
  assert (Hown : ∀ tid ag, owner s' tid ag →
    owner s tid ag ∨ tid = t0 ∧ heap (sys_d s) !! ag = None).
  { intros tid ag (c & p & Hc & Hp). destruct (decide (tid = t0)) as [->|Hne].
    - destruct (Ht0 c p Hc) as [[Hold _]|(_ & _ & Hnew)]; [left; by exists c, p|].
      destruct (Hnew ag Hp) as [_ [?|?]]; auto.
    - left. exists c, p. by rewrite <-Hother. }
  assert (Hheap : ∀ tid ag, owner s tid ag → is_Some (heap (sys_d s) !! ag)).
  { intros tid ag (c & p & Hc & Hp). destruct (inv_private s Hi tid c p ag Hc Hp) as (g & -> & _). eauto. }
  split.
  - intros a g Ha. by apply (Hb a g).
  - intros a g Ha. by apply (Hb a g).
  - intros r. rewrite Hr. intros Hin%(inv_slots s Hi). unfold has_slot in *. by rewrite Hlen.
  - intros tid c p Hc. rewrite Hr. destruct (decide (tid = t0)) as [->|Hne].
    + destruct (Ht0 c p Hc) as [[Hold _]|[? _]]; [by eapply inv_routes|done].
    + rewrite Hother in Hc by done. by eapply inv_routes.
  - intros a [Ha|[? _]]%Hpub; [|done]. apply (inv_public s Hi) in Ha as [g Hg].
    destruct (ev_grows _ _ He a g Hg) as (g' & -> & _). eauto.
  - intros tid a [Ha|[_ ?]]%Hpub; [|done]. intros [Ho|[_ Hn]]%Hown.
    + by apply (inv_hidden s Hi tid a).
    + apply (inv_public s Hi) in Ha as [g Hg]. congruence.
  - intros tid c p ag Hc Hp.
    assert (Hcase : sys_calls s !! tid = Some (c, p) ∧
      heap (sys_d s') !! ag = heap (sys_d s) !! ag ∨ fresh_group c (sys_d s') ag).
    { destruct (decide (tid = t0)) as [->|Hne].
      - destruct (Ht0 c p Hc) as [[? H]|(_ & _ & H)]; [left; auto|right; by apply H].
      - left. rewrite Hother in Hc by done. split; [done|]. apply (Hsame tid); [by exists c, p|done]. }
    destruct Hcase as [[Hold Hh]|]; [|done].
    destruct (inv_private s Hi tid c p ag Hold Hp) as (g & Hg & ?). exists g. by rewrite Hh.
  - intros t1 t2 ag [H1|[-> H1]]%Hown [H2|[-> H2]]%Hown; [by eapply inv_sep| | |done].
    + apply Hheap in H1 as [g Hg]. congruence.
    + apply Hheap in H2 as [g Hg]. congruence.
  - intros tid c p Hc. destruct (decide (tid = t0)) as [->|Hne].
    + destruct (Ht0 c p Hc) as [[Hold _]|(_ & ? & _)]; [|done].
      eapply pc_ok_evolves; [done|]. by eapply inv_calls.
    + rewrite Hother in Hc by done. eapply pc_ok_evolves; [done|]. by eapply inv_calls.
Qed.
(** The same for one action of a call: the group it publishes, if any, is its
    own. *)
Lemma inv_group d cs fs es ds tid c p d' p' :
  inv (mkSystem d cs fs es ds) → cs !! tid = Some (c, p) →
  evolves d d' →
  (∀ a g, heap d' !! a = Some g → (a < next_addr d')%nat ∧ unlimited g) →
  d_route d' = d_route d → length (routeGroupsSlice d') = length (routeGroupsSlice d) →
  pc_ok c d' p' →
  (∀ ag, priv_of p' = Some ag → fresh_group c d' ag ∧ (priv_of p = Some ag ∨ heap d !! ag = None)) →
  (∀ t ag, t ≠ tid → owner (mkSystem d cs fs es ds) t ag → heap d' !! ag = heap d !! ag) →
  (∀ idx fp a, Load d' idx fp = Some a →
     Load d idx fp = Some a ∨ priv_of p = Some a ∧ priv_of p' = None) →
  (∀ a, a ∈ pub_of p' → a ∈ pub_of p ∨ (∃ idx fp, Load d idx fp = Some a) ∨
     priv_of p = Some a ∧ priv_of p' = None) →
  inv (mkSystem d' (<[tid := (c, p')]> cs) fs es ds).
Proof.
  intros Hi Hc He Hb Hr Hlen Hok Hpriv Hsame Hslot Hpub.
  set (s := mkSystem d cs fs es ds) in *. set (s' := mkSystem d' (<[tid := (c, p')]> cs) fs es ds).
  assert (Hnew : ∀ a, priv_of p = Some a → priv_of p' = None →
    is_Some (heap d' !! a) ∧ ∀ t, ¬ owner s' t a).
  { intros a Hp Hp'. split.
    - destruct (inv_private s Hi tid c p a Hc Hp) as (g & Hg & _).
      destruct (ev_grows _ _ He a g Hg) as (g' & -> & _). eauto.
    - intros t (c1 & p1 & H1 & Hp1). cbn in H1. destruct (decide (t = tid)) as [->|Hne].
      + rewrite lookup_insert_eq in H1. simplify_eq.
      + rewrite lookup_insert_ne in H1 by done. destruct Hne.
        apply (inv_sep s Hi t tid a); [by exists c1, p1|by exists c, p]. }
  apply (inv_next s s' tid); cbn; try done.
  - intros t Hne. by rewrite lookup_insert_ne.
  - intros c0 p0. rewrite lookup_insert_eq. intros [= <- <-]. right.
    split_and!; [by eapply (inv_routes s Hi)|done|]. intros ag Hag.
    destruct (Hpriv ag Hag) as [? [Hp|?]]; split; auto. left. by exists c, p.
  - intros t ag Ho Hne. by apply (Hsame t).
  - intros a Ha. destruct Ha as [idx fp Hl|t c0 p0 H0 Hin|res Hin|idx Hin]; cbn in *.
    + destruct (Hslot _ _ _ Hl) as [Hold|[Hp Hp']]; [left; by eapply pub_slot|right; by apply Hnew].
    + destruct (decide (t = tid)) as [->|Hne].
      * rewrite lookup_insert_eq in H0. injection H0 as <- <-.
        destruct (Hpub a Hin) as [Hold|[(idx & fp & Hl)|[Hp Hp']]].
        -- left. by eapply pub_call.
        -- left. by eapply pub_slot.
        -- right. by apply Hnew.
      * rewrite lookup_insert_ne in H0 by done. left. by eapply pub_call.
    + left. by eapply pub_flush.
    + left. by eapply pub_seen.
Qed.
(** ** Actions that leave the maps alone *)

(** Only groups in [A] change, and no slot does. *)
Record touches (A : nat → Prop) d d' : Prop := {
  t_grows : grows d d';
  t_same : ∀ a, ¬ A a → heap d' !! a = heap d !! a;
  t_dom : ∀ a g', heap d' !! a = Some g' →
    ∃ g, heap d !! a = Some g ∧ (unlimited g → unlimited g');
  t_load : ∀ idx fp, Load d' idx fp = Load d idx fp;
  t_next : next_addr d' = next_addr d;
  t_route : d_route d' = d_route d;
  t_len : length (routeGroupsSlice d') = length (routeGroupsSlice d);
}.

Lemma touches_evolves A d d' : touches A d d' → evolves d d'.
Proof. intros Ht. apply evolves_heap; apply Ht. Qed.

Lemma touches_heap_eq A d d' :
  heap d' = heap d → (∀ idx fp, Load d' idx fp = Load d idx fp) → next_addr d' = next_addr d →
  d_route d' = d_route d → length (routeGroupsSlice d') = length (routeGroupsSlice d) →
  touches A d d'.
Proof.
  intros Hh Hl Hn Hr Hlen. split; [|by rewrite Hh| |done..].
  - intros a g Ha. exists g. by rewrite Hh.
  - intros a g. rewrite Hh. eauto.
Qed.

Lemma touches_refl A d : touches A d d.
Proof. by apply touches_heap_eq. Qed.

Lemma touches_trans A d d' d'' : touches A d d' → touches A d' d'' → touches A d d''.
Proof.
  intros H1 H2. split.
  - intros a g Ha. destruct (t_grows _ _ _ H1 a g Ha) as (g1 & Hg1 & Hd1).
    destruct (t_grows _ _ _ H2 a g1 Hg1) as (g2 & Hg2 & Hd2). exists g2. auto.
  - intros a Ha. by rewrite (t_same _ _ _ H2), (t_same _ _ _ H1).
  - intros a g2 Hg2. destruct (t_dom _ _ _ H2 a g2 Hg2) as (g1 & Hg1 & Hu1).
    destruct (t_dom _ _ _ H1 a g1 Hg1) as (g & Hg & Hu). eauto.
  - intros. by rewrite (t_load _ _ _ H2), (t_load _ _ _ H1).
  - by rewrite (t_next _ _ _ H2), (t_next _ _ _ H1).
  - by rewrite (t_route _ _ _ H2), (t_route _ _ _ H1).
  - by rewrite (t_len _ _ _ H2), (t_len _ _ _ H1).
Qed.

Lemma touches_update f addr d :
  (∀ g, destroyed g = true → destroyed (f g) = true) → (∀ g, unlimited g → unlimited (f g)) →
  touches (eq addr) d (update_at f addr d).
Proof.
  intros Hd Hu. split; try done.
  - by apply grows_update.
  - intros a Ha. rewrite heap_update_at. by case_decide.
  - intros a g'. rewrite heap_update_at. case_decide; [|by eauto].
    intros (g & Hg & ->)%fmap_Some. eauto.
Qed.

Lemma touches_count n idx A d : touches A d (count_groups n idx d).
Proof. apply touches_heap_eq; try done; [apply Load_count|cbn; apply length_alter]. Qed.

(** [insert_at] succeeds exactly on living groups. *)
Lemma insert_at_spec d el a now :
  (∀ b g, heap d !! b = Some g → unlimited g) → is_Some (heap d !! el) →
  let '(d', ok) := insert_at d el a now in
  touches (eq el) d d' ∧
  (ok = true → ∃ g g', heap d !! el = Some g ∧ heap d' !! el = Some g' ∧
     destroyed g = false ∧ destroyed g' = false ∧
     Store.alerts (g_alerts g') = <[Store.alert_Fingerprint a := a]> (Store.alerts (g_alerts g))) ∧
  (ok = false → dead d' el).
Proof.
  intros Hu [g Hg]. unfold insert_at. rewrite Hg. pose proof (insert_spec g a now (Hu _ _ Hg)) as Hs.
  destruct (insert_ g a now) as [g' ok]. destruct Hs as (Hok & Hd & Hu' & _ & Ht & Hf).
  assert (Hl : heap (set_heap (<[el := g']> (heap d)) d) !! el = Some g')
    by apply lookup_insert_eq.
  split_and!.
  - split; try done.
    + intros b g0 Hb. cbn. destruct (decide (b = el)) as [->|Hne].
      * rewrite lookup_insert_eq. exists g'. split; [done|]. simplify_eq. by rewrite Hd.
      * rewrite lookup_insert_ne by done. eauto.
    + intros b Hb. cbn. by rewrite lookup_insert_ne.
    + intros b g0. cbn. destruct (decide (b = el)) as [->|Hne].
      * rewrite lookup_insert_eq. intros [= <-]. eauto.
      * rewrite lookup_insert_ne by done. eauto.
  - intros ->. exists g, g'. destruct (destroyed g) eqn:E; [done|]. rewrite Hd. split_and!; auto.
  - intros ->. exists g'. rewrite Hd. destruct (destroyed g); done.
Qed.

(** A step of a call that only touches groups that are public. *)
Lemma inv_group_touch d cs fs es ds tid c p d' p' A :
  inv (mkSystem d cs fs es ds) → cs !! tid = Some (c, p) → touches A d d' →
  (∀ a, A a → public (mkSystem d cs fs es ds) a) →
  pc_ok c d' p' → (∀ ag, priv_of p' = Some ag → priv_of p = Some ag) →
  (∀ a, a ∈ pub_of p' → a ∈ pub_of p ∨ (∃ idx fp, Load d idx fp = Some a)) →
  inv (mkSystem d' (<[tid := (c, p')]> cs) fs es ds).
Proof.
  intros Hi Hc Ht HA Hok Hpriv Hpub. set (s := mkSystem d cs fs es ds) in *.
  assert (Hsame : ∀ t ag, owner s t ag → heap d' !! ag = heap d !! ag).
  { intros t ag Ho. apply (t_same _ _ _ Ht). intros Ha. by apply (inv_hidden s Hi t ag); [apply HA|]. }
  apply (inv_group d cs fs es ds tid c p); try done.
  - by eapply touches_evolves.
  - intros a g Hg. destruct (t_dom _ _ _ Ht a g Hg) as (g0 & Hg0 & Hu).
    rewrite (t_next _ _ _ Ht). split; [by eapply (inv_bound s Hi)|]. apply Hu. by eapply (inv_unlimited s Hi).
  - apply Ht.
  - apply Ht.
  - intros ag Hag. pose proof (Hpriv ag Hag) as Hp. split; [|by left].
    destruct (inv_private s Hi tid c p ag Hc Hp) as (g & Hg & ?). exists g.
    rewrite (Hsame tid ag); [done|]. by exists c, p.
  - intros t ag _ Ho. by apply (Hsame t).
  - intros idx fp a. rewrite (t_load _ _ _ Ht). auto.
  - intros a Ha. destruct (Hpub a Ha); auto.
Qed.

(** A step of something else that only touches public groups. *)
Lemma inv_touch d cs fs es ds d' fs' es' ds' A :
  inv (mkSystem d cs fs es ds) → touches A d d' →
  (∀ a, A a → public (mkSystem d cs fs es ds) a) →
  (∀ a, public (mkSystem d' cs fs' es' ds') a → public (mkSystem d cs fs es ds) a ∨
     is_Some (heap d !! a) ∧ ∀ tid, ¬ owner (mkSystem d cs fs es ds) tid a) →
  inv (mkSystem d' cs fs' es' ds').
Proof.
  intros Hi Ht HA Hpub. set (s := mkSystem d cs fs es ds) in *.
  assert (Hsame : ∀ t ag, owner s t ag → heap d' !! ag = heap d !! ag).
  { intros t ag Ho. apply (t_same _ _ _ Ht). intros Ha. by apply (inv_hidden s Hi t ag); [apply HA|]. }
  apply (inv_next s _ 0); cbn; try done.
  - by eapply touches_evolves.
  - intros a g Hg. destruct (t_dom _ _ _ Ht a g Hg) as (g0 & Hg0 & Hu).
    rewrite (t_next _ _ _ Ht). split; [by eapply (inv_bound s Hi)|]. apply Hu. by eapply (inv_unlimited s Hi).
  - apply Ht.
  - apply Ht.
  - intros c p Hc. left. split; [done|]. intros ag Hag. apply (Hsame 0%nat). by exists c, p.
  - intros t ag Ho _. by apply (Hsame t).
  - intros a [?|[[g Hg] Hno]]%Hpub; [by left|right]. split; [|done].
    destruct (t_grows _ _ _ Ht a g Hg) as (g' & -> & _). eauto.
Qed.
(** ** The actions of a call *)
Lemma inv_insert d cs fs es ds tid c p el d' ok p' :
  inv (mkSystem d cs fs es ds) → cs !! tid = Some (c, p) → el ∈ pub_of p →
  insert_at d el (c_alert c) (c_now c) = (d', ok) →
  (ok = false → dead d' el →
    pc_ok c d' p' ∧ (∀ ag, priv_of p' = Some ag → priv_of p = Some ag) ∧ pub_of p' = [el]) →
  (ok = true → p' = PDone (Inserted el)) →
  inv (mkSystem d' (<[tid := (c, p')]> cs) fs es ds).
Proof.
  intros Hi Hc Hel Hins Hf Ht. set (s := mkSystem d cs fs es ds) in *.
  assert (Hpe : public s el) by by eapply pub_call.
  pose proof (insert_at_spec d el (c_alert c) (c_now c) (inv_unlimited s Hi)
    (inv_public s Hi el Hpe)) as Hs.
  rewrite Hins in Hs. destruct Hs as (Htouch & _ & Hdead).
  assert (Hf' : ok = false → pc_ok c d' p' ∧ (∀ ag, priv_of p' = Some ag → priv_of p = Some ag) ∧
    pub_of p' = [el]) by (intros E; apply Hf; [done|by apply Hdead]).
  apply (inv_group_touch d cs fs es ds tid c p d' p' (eq el)); [done|done|done|by intros ? <-|..];
    destruct ok.
  - by rewrite Ht.
  - by apply Hf'.
  - by rewrite Ht.
  - by apply Hf'.
  - rewrite Ht by done. by intros a ?%elem_of_nil.
  - intros a. destruct Hf' as (_ & _ & ->); [done|]. set_solver.
Qed.

Lemma fresh_new c d :
  let g := newAggrGroup (c_labels c) (d_route d) (c_pos c) (c_route c) (c_now c) in
  let g' := (insert_ g (c_alert c) (c_now c)).1 in
  unlimited g' ∧ fresh_group c (alloc g' d) (next_addr d).
Proof.
  cbn zeta. set (g := newAggrGroup _ _ _ _ _).
  pose proof (insert_spec g (c_alert c) (c_now c) eq_refl) as Hs.
  destruct (insert_ g (c_alert c) (c_now c)) as [g' ok].
  destruct Hs as (Hok & Hd & Hu & Hr & Ha & _). cbn. split; [done|]. exists g'.
  cbn. rewrite lookup_insert_eq. split_and!; [done|by rewrite Hd|by rewrite Hr|].
  rewrite (Ha Hok). apply lookup_insert_eq.
Qed.

(** Storing the new group over a dead or absent one. *)
Lemma inv_store d cs fs es ds tid c ag el retries p' :
  inv (mkSystem d cs fs es ds) → cs !! tid = Some (c, PLoop ag el retries) →
  (∀ el', Load d (c_idx c) (c_fp c) = Some el' → dead d el') →
  pc_ok c d p' → priv_of p' = None →
  (∀ a, a ∈ pub_of p' → a = ag ∨ Some a = el) →
  inv (mkSystem (Store_ d (c_idx c) (c_fp c) ag) (<[tid := (c, p')]> cs) fs es ds).
Proof.
  intros Hi Hc Hold Hok Hpriv Hpub. set (s := mkSystem d cs fs es ds) in *.
  assert (He : evolves d (Store_ d (c_idx c) (c_fp c) ag)).
  { apply (evolves_slot _ _ (c_idx c) (c_fp c)); [done|by apply Load_Store_ne|done]. }
  apply (inv_group d cs fs es ds tid c (PLoop ag el retries)); try done.
  - intros a g Hg. split; [by eapply (inv_bound s Hi)|by eapply (inv_unlimited s Hi)].
  - cbn. apply length_alter.
  - by eapply pc_ok_evolves.
  - intros a. rewrite Hpriv. done.
  - intros idx fp a. destruct (decide ((idx, fp) = (c_idx c, c_fp c))) as [[= -> ->]|Hne].
    + rewrite Load_Store_eq; [intros [= <-]; by right|].
      by apply (inv_slots s Hi), (inv_routes s Hi tid c (PLoop ag el retries)).
    + rewrite Load_Store_ne by done. auto.
  - intros a [->|Ha]%Hpub; [auto|]. left. cbn. rewrite <-Ha. by left.
Qed.

(** An action that only moves the call. *)
Lemma inv_quiet d cs fs es ds tid c p p' :
  inv (mkSystem d cs fs es ds) → cs !! tid = Some (c, p) → pc_ok c d p' →
  (∀ ag, priv_of p' = Some ag → priv_of p = Some ag) →
  (∀ a, a ∈ pub_of p' → a ∈ pub_of p ∨ (∃ idx fp, Load d idx fp = Some a)) →
  inv (mkSystem d (<[tid := (c, p')]> cs) fs es ds).
Proof.
  intros Hi Hc H1 H2 H3. apply (inv_group_touch d cs fs es ds tid c p d p' (λ _, False));
    [done|done|apply touches_refl|done..].
Qed.

Lemma gstep_load_inv d cs fs es ds tid c p' :
  inv (mkSystem d cs fs es ds) → cs !! tid = Some (c, PLoad) → (gstep c d PLoad).2 = p' →
  inv (mkSystem d (<[tid := (c, p')]> cs) fs es ds).
Proof.
  intros Hi Hc. cbn. set (s := mkSystem d cs fs es ds) in *.
  destruct (Load d (c_idx c) (c_fp c)) as [el|] eqn:Hl; intros <-;
    (eapply inv_quiet; [exact Hi|exact Hc| |done|]); cbn; try done; try (by intros ? ?%elem_of_nil).
  - destruct (inv_public s Hi el) as [g Hg]; [by eapply pub_slot|]. by exists g.
  - intros a ->%list_elem_of_singleton. right. eauto.
Qed.

Lemma gstep_new_inv d cs fs es ds tid c el d' p' :
  inv (mkSystem d cs fs es ds) → cs !! tid = Some (c, PNew el) → gstep c d (PNew el) = (d', p') →
  inv (mkSystem d' (<[tid := (c, p')]> cs) fs es ds).
Proof.
  intros Hi Hc Hstep. cbn [gstep] in Hstep. set (s := mkSystem d cs fs es ds) in *.
  pose proof (inv_calls s Hi tid c _ Hc) as Hok.
  pose proof (fresh_new c d) as Hfresh. cbn zeta in Hfresh.
  destruct (insert_ _ (c_alert c) (c_now c)) as [g ok]. cbn in Hfresh. injection Hstep as <- <-.
  destruct Hfresh as [Hu Hfresh].
  assert (Hnone : heap d !! next_addr d = None).
  { destruct (heap d !! next_addr d) as [g0|] eqn:E; [|done].
    apply (inv_bound s Hi) in E. cbn in E. lia. }
  assert (He : evolves d (alloc g d)).
  { apply evolves_heap; [|done]. intros a g0 Ha. exists g0. cbn.
    rewrite lookup_insert_ne; [done|]. intros <-. congruence. }
  apply (inv_group d cs fs es ds tid c (PNew el)); try done.
  - intros a g0. cbn. destruct (decide (a = next_addr d)) as [->|Hne].
    + rewrite lookup_insert_eq. intros [= <-]. split; [lia|done].
    + rewrite lookup_insert_ne by done. intros Ha.
      split; [apply (inv_bound s Hi) in Ha; cbn in Ha; lia|by eapply (inv_unlimited s Hi)].
  - destruct el; [|done]. by eapply dead_evolves.
  - intros a [= <-]. auto.
  - intros t a _ (c1 & p1 & H1 & Hp1).
    destruct (inv_private s Hi t c1 p1 a H1 Hp1) as (g0 & Hg0 & _). cbn in *.
    rewrite lookup_insert_ne; [done|]. intros <-. congruence.
  - intros idx fp a Hl. by left.
  - intros a Ha. left. by destruct el.
Qed.

Lemma gstep_swap_inv d cs fs es ds tid c ag el n d' p' :
  inv (mkSystem d cs fs es ds) → cs !! tid = Some (c, PLoop ag (Some el) n) →
  gstep c d (PLoop ag (Some el) n) = (d', p') →
  inv (mkSystem d' (<[tid := (c, p')]> cs) fs es ds).
Proof.
  intros Hi Hc Hstep. cbn [gstep] in Hstep. set (s := mkSystem d cs fs es ds) in *.
  pose proof (inv_calls s Hi tid c _ Hc) as Hok.
  unfold CompareAndSwap in Hstep. destruct (decide _) as [Hl|]; injection Hstep as <- <-.
  - eapply inv_store; [exact Hi|exact Hc| |done|done|].
    + intros el'. rewrite Hl. by intros [= <-].
    + intros a. cbn. set_solver.
  - eapply inv_quiet; [exact Hi|exact Hc|done|done|]. by intros a ?%elem_of_nil.
Qed.

Lemma gstep_load_or_store_inv d cs fs es ds tid c ag n d' p' :
  inv (mkSystem d cs fs es ds) → cs !! tid = Some (c, PLoop ag None n) →
  gstep c d (PLoop ag None n) = (d', p') →
  inv (mkSystem d' (<[tid := (c, p')]> cs) fs es ds).
Proof.
  intros Hi Hc Hstep. cbn [gstep] in Hstep. set (s := mkSystem d cs fs es ds) in *.
  unfold LoadOrStore in Hstep. destruct (Load d (c_idx c) (c_fp c)) as [el|] eqn:Hl;
    injection Hstep as <- <-.
  - eapply inv_quiet; [exact Hi|exact Hc| |done|].
    + destruct (inv_public s Hi el) as [g Hg]; [by eapply pub_slot|]. by exists g.
    + intros a ->%list_elem_of_singleton. right. eauto.
  - eapply inv_store; [exact Hi|exact Hc| |done|done|].
    + intros el'. by rewrite Hl.
    + intros a. cbn. set_solver.
Qed.

Lemma gstep_inv d cs fs es ds tid c p d' p' :
  inv (mkSystem d cs fs es ds) → cs !! tid = Some (c, p) → gstep c d p = (d', p') →
  inv (mkSystem d' (<[tid := (c, p')]> cs) fs es ds).
Proof.
  intros Hi Hc Hstep. pose proof (inv_calls _ Hi tid c p Hc) as Hok.
  destruct p as [|el|el|el|ag [el|] n|ag el|ag|ag el n|ag el n|ag|o].
  - assert (d' = d) as -> by (cbn in Hstep; by destruct (Load d _ _); injection Hstep).
    eapply gstep_load_inv; [exact Hi|exact Hc|by rewrite Hstep].
  - cbn [gstep] in Hstep. destruct (insert_at d el _ _) as [d1 ok] eqn:Hins. injection Hstep as <- <-.
    eapply inv_insert; [exact Hi|exact Hc|by left|exact Hins|by intros ->|by intros ->].
  - cbn [gstep] in Hstep. destruct (_ && _); injection Hstep as <- <-;
      (eapply inv_quiet; [exact Hi|exact Hc|..]); try done; try (by intros ? ?%elem_of_nil); by auto.
  - by eapply gstep_new_inv.
  - by eapply gstep_swap_inv.
  - by eapply gstep_load_or_store_inv.
  - injection Hstep as <- <-.
    apply (inv_group_touch d cs fs es ds tid c (PCancel ag el) _ _ (eq el));
      [done|done|by apply touches_update| |done|done|].
    + intros a <-. eapply pub_call; [exact Hc|]. cbn. set_solver.
    + cbn. set_solver.
  - injection Hstep as <- <-.
    apply (inv_group_touch d cs fs es ds tid c (PCount ag) _ _ (λ _, False));
      [done|done|apply touches_count|done|done|done|]. cbn. set_solver.
  - cbn [gstep] in Hstep. destruct (insert_at d el _ _) as [d1 ok] eqn:Hins. injection Hstep as <- <-.
    eapply inv_insert; [exact Hi|exact Hc|by left|exact Hins|by intros ->|by intros ->].
  - cbn [gstep] in Hstep. destruct (100 <? n + 1); injection Hstep as <- <-;
      (eapply inv_quiet; [exact Hi|exact Hc|..]); try done; try (by intros ? ?%elem_of_nil); by auto.
  - injection Hstep as <- <-. set (f := λ g : aggrGroup, _).
    assert (Hf : touches (eq ag) d (update_at f ag d))
      by (apply touches_update; intros g; unfold f; by destruct (Before _ _)).
    apply (inv_group_touch d cs fs es ds tid c (PStart ag) _ _ (eq ag)); [done|done| | |done|done|].
    + cbn. destruct (d_state d); [done..| |done].
      eapply touches_trans; [exact Hf|by apply touches_update].
    + intros a <-. eapply pub_call; [exact Hc|]. by left.
    + by intros a ?%elem_of_nil.
  - injection Hstep as <- <-. eapply inv_quiet; [exact Hi|exact Hc|done|done|by auto].
Qed.
(** ** The other actions *)
Lemma touches_mono (A B : nat → Prop) d d' : (∀ a, A a → B a) → touches A d d' → touches B d d'.
Proof. intros HAB Ht. split; try apply Ht. intros a Ha. apply Ht. auto. Qed.

Lemma inv_lists d cs fs es ds fs' es' ds' :
  inv (mkSystem d cs fs es ds) →
  (∀ x, x ∈ fs' → x ∈ fs) → (∀ x, x ∈ es' → x ∈ es) → inv (mkSystem d cs fs' es' ds').
Proof.
  intros Hi Hf He. eapply inv_touch; [exact Hi|apply touches_refl with (A := λ _, False)|done|].
  intros a Ha. left. destruct Ha; cbn in *.
  - by eapply pub_slot.
  - by eapply pub_call.
  - eapply pub_flush. by apply Hf.
  - eapply pub_seen. by apply He.
Qed.

Definition delete_slot (idx : nat) (fp : Z) d : Dispatcher :=
  set_slice (alter (λ rg, mkRouteGroups (delete fp (rg_groups rg)) (rg_len rg)) idx
    (routeGroupsSlice d)) d.

Lemma Load_delete_slot d idx fp idx' fp' a :
  Load (delete_slot idx fp d) idx' fp' = Some a → Load d idx' fp' = Some a.
Proof.
  unfold delete_slot. rewrite Load_alter. case_decide; [|done]. subst. unfold Load.
  destruct (routeGroupsSlice d !! idx) as [rg|]; [|done]. cbn.
  by intros [? ?]%lookup_delete_Some.
Qed.

Lemma evolves_delete_slot d idx fp :
  (∀ el, Load d idx fp = Some el → dead d el) → evolves d (delete_slot idx fp d).
Proof.
  intros Hold. apply (evolves_slot _ _ idx fp); [done| |done]. intros idx' fp' Hne.
  unfold delete_slot. rewrite Load_alter. case_decide; [|done]. subst. unfold Load.
  destruct (routeGroupsSlice d !! idx) as [rg|]; [|done]. cbn. rewrite lookup_delete_ne; congruence.
Qed.

Lemma inv_delete d cs fs es ds idx fp :
  inv (mkSystem d cs fs es ds) → (∀ el, Load d idx fp = Some el → dead d el) →
  inv (mkSystem (delete_slot idx fp d) cs fs es ds).
Proof.
  intros Hi Hold. set (s := mkSystem d cs fs es ds) in *. apply (inv_next s _ 0); cbn; try done.
  - by apply evolves_delete_slot.
  - intros a g Hg. split; [by eapply (inv_bound s Hi)|by eapply (inv_unlimited s Hi)].
  - apply length_alter.
  - by left.
  - intros a Ha. left. destruct Ha; cbn in *.
    + eapply pub_slot. by eapply Load_delete_slot.
    + by eapply pub_call.
    + by eapply pub_flush.
    + by eapply pub_seen.
Qed.

Lemma maintain_delete_spec idx addr d d' deleted :
  maintain_delete idx addr d = (d', deleted) →
  (d' = d ∧ deleted = false) ∨
  ∃ g, heap d !! addr = Some g ∧ destroyed g = true ∧
    let d1 := update_at cancel addr d in
    (d' = d1 ∧ deleted = false ∨
     Load d idx (fingerprint g) = Some addr ∧ d' = delete_slot idx (fingerprint g) d1 ∧ deleted = true).
Proof.
  unfold maintain_delete. destruct (heap d !! addr) as [g|]; [|intros [= <- <-]; by left].
  destruct (destroyed g) eqn:E; [|intros [= <- <-]; by left].
  unfold CompareAndDelete. destruct (decide _) as [Hl|]; intros [= <- <-]; right; exists g;
    (split_and!; [done|done|]); [right|by left].
  split_and!; [exact Hl|done|done].
Qed.

(** Publicity is only lost. *)
Lemma public_mono s s' a :
  (∀ idx fp, Load (sys_d s') idx fp = Some a → Load (sys_d s) idx fp = Some a) →
  sys_calls s' = sys_calls s →
  (∀ r, (a, r) ∈ sys_flushes s' → (a, r) ∈ sys_flushes s) →
  (∀ idx, (idx, a) ∈ sys_seen s' → (idx, a) ∈ sys_seen s) →
  public s' a → public s a.
Proof.
  intros H1 H2 H3 H4 []; [eapply pub_slot, H1; eauto| |eapply pub_flush; eauto|eapply pub_seen; eauto].
  eapply pub_call; [rewrite <-H2|]; eauto.
Qed.

Lemma inv_step_call d cs fs es ds tid a pos r now :
  inv (mkSystem d cs fs es ds) → cs !! tid = None → Route.node_at (d_route d) pos = Some r →
  inv (mkSystem d (<[tid := (mkCall a pos r now, PLoad)]> cs) fs es ds).
Proof.
  intros Hi Hnone Hn. set (s := mkSystem d cs fs es ds) in *. apply (inv_next s _ tid); cbn; try done.
  - split; [intros b g Hg; by exists g|done].
  - intros b g Hg. split; [by eapply (inv_bound s Hi)|by eapply (inv_unlimited s Hi)].
  - intros t Hne. by rewrite lookup_insert_ne.
  - intros c p. rewrite lookup_insert_eq. intros [= <- <-]. right. split_and!; [|done|done].
    cbn. by eapply node_at_Walk.
  - intros b Hb. left. destruct Hb as [idx fp Hl|t c p Hc Hin|res Hin|idx Hin]; cbn in *;
      [by eapply pub_slot| |by eapply pub_flush|by eapply pub_seen].
    destruct (decide (t = tid)) as [->|Hne].
    + rewrite lookup_insert_eq in Hc. injection Hc as <- <-. by apply elem_of_nil in Hin.
    + rewrite lookup_insert_ne in Hc by done. by eapply pub_call.
Qed.

Lemma inv_step_flush_begin d cs fs es ds addr g resolved :
  inv (mkSystem d cs fs es ds) → heap d !! addr = Some g → g_running g = true →
  inv (mkSystem d cs (fs ++ [(addr, resolved)]) es ds).
Proof.
  intros Hi Hg Hrun. eapply inv_touch; [exact Hi|apply touches_refl with (A := λ _, False)|done|].
  intros a Ha. destruct Ha as [| |r Hin|]; cbn in *;
    [left; by eapply pub_slot|left; by eapply pub_call| |left; by eapply pub_seen].
  apply elem_of_app in Hin as [Hin|Hin]; [left; by eapply pub_flush|].
  apply list_elem_of_singleton in Hin. injection Hin as -> ->. right. split; [by rewrite Hg|].
  intros tid (c & p & Hc & Hp).
  destruct (inv_private _ Hi tid c p addr Hc Hp) as (g' & Hg' & _ & Hr & _). cbn in *. congruence.
Qed.

Lemma inv_step_range d cs fs es ds idx fp addr :
  inv (mkSystem d cs fs es ds) → Load d idx fp = Some addr →
  inv (mkSystem d cs fs (es ++ [(idx, addr)]) ds).
Proof.
  intros Hi Hl. eapply inv_touch; [exact Hi|apply touches_refl with (A := λ _, False)|done|].
  intros a Ha. left. destruct Ha as [| | |i Hin]; cbn in *;
    [by eapply pub_slot|by eapply pub_call|by eapply pub_flush|].
  apply elem_of_app in Hin as [Hin|Hin]; [by eapply pub_seen|].
  apply list_elem_of_singleton in Hin. injection Hin as -> ->. by eapply pub_slot.
Qed.

Lemma inv_step_maintain d cs fs es ds idx addr d' deleted :
  inv (mkSystem d cs fs es ds) → (idx, addr) ∈ es → maintain_delete idx addr d = (d', deleted) →
  inv (mkSystem d' cs fs es ds).
Proof.
  intros Hi Hin [[-> _]|(g & Hg & Hdead & Hd)]%maintain_delete_spec; [done|].
  assert (Hi1 : inv (mkSystem (update_at cancel addr d) cs fs es ds)).
  { eapply inv_touch; [exact Hi|by apply touches_update| |].
    - intros a <-. by apply (pub_seen _ _ idx).
    - intros a Ha. left. revert Ha. by apply public_mono. }
  destruct Hd as [[-> _]|(Hl & -> & _)]; [done|]. apply inv_delete; [done|].
  intros el Hel. rewrite Load_update_at in Hel. assert (el = addr) as -> by congruence.
  exists (cancel g). rewrite heap_update_at, decide_True, Hg by done. done.
Qed.

Lemma step_inv s s' : step s s' → inv s → inv s'.
Proof.
  intros Hstep Hi. destruct Hstep as
    [d cs fs es ds tid a pos r now Hnone Hm Hn|d cs fs es ds tid c p d' p' Hc Hg|d cs fs es ds Hst
    |d cs fs es ds i f addr Hst Hl|d cs fs es ds addr g now al res Hg Hrun Hb|d cs fs1 fs2 es ds addr res ok
    |d cs fs es ds idx fp addr Hl|d cs fs es1 es2 ds idx addr d' deleted Hd
    |d cs fs es ds1 ds2 idx addr].
  - by apply inv_step_call.
  - by eapply gstep_inv.
  - eapply inv_touch; [exact Hi|by apply (touches_heap_eq (λ _, False))|done|].
    intros a Ha. left. revert Ha. by apply public_mono.
  - eapply inv_touch; [exact Hi|by apply touches_update| |].
    + intros a <-. by eapply pub_slot.
    + intros a Ha. left. revert Ha. by apply public_mono.
  - by eapply inv_step_flush_begin.
  - eapply inv_touch; [exact Hi|apply (touches_update (λ g, flush_end g res ok) addr)| |].
    + intros g. apply flush_end_spec.
    + intros g. apply flush_end_spec.
    + intros a <-. apply (pub_flush _ _ res). cbn. set_solver.
    + intros a Ha. left. revert Ha. apply public_mono; try done. cbn. set_solver.
  - by eapply inv_step_range.
  - apply (inv_lists d' cs fs (es1 ++ (idx, addr) :: es2) ds); [|done|set_solver].
    eapply inv_step_maintain; [done| |done]. set_solver.
  - unfold maintain_count. destruct (heap d !! addr) as [g|]; [|by eapply inv_lists].
    eapply inv_touch; [exact Hi| |done|].
    + eapply touches_trans; [|apply touches_count]. by apply touches_heap_eq.
    + intros a Ha. left. revert Ha. apply public_mono; try done. cbn. intros i fp.
      by rewrite Load_count.
Qed.
End dispatch.
End DispatchInv.
