(* ===== verification/DispatchThm.v ===== *)
(** * What the dispatcher promises

    An alert that was routed reaches a live group of its route and stays in one
    until a version of it has been notified as resolved; routing an alert ends
    after a bounded number of actions, whatever the other workers do; a flush
    hands over all alerts of a group and forgets the resolved ones. *)

From Stdlib Require Import Ascii String.
From stdpp Require Import base gmap strings list sorting relations.
From S2P Require Import Prelude Utf8 Labels Silence Alert Nflog Notify Bucket Store Provider.
From S2P Require Import Inhibit Strconv Route Dispatch DispatchInv.

Import Alert Dispatch DispatchInv.

Module DispatchThm.
Section dispatch.
Context `{RE : Regexp, MR : MapRange, UP : UnicodePrint, PM : PromModel, FP : Fingerprinter}.
Context `{LS : LabelSetString, RR : RouteLabelRenderer}.
Implicit Types d : Dispatcher.
Implicit Types s : system.

(** ** The initial state *)
Lemma Run_init_slice root limit :
  length (routeGroupsSlice (Run_init root limit)) = Z.to_nat (Route.Idx root + 1) ∧
  ∀ idx fp, Load (Run_init root limit) idx fp = None.
Proof.
  unfold Run_init, Load. cbn. set (e := mkRouteGroups ∅ 0).
  assert (H : ∀ l, Forall (eq e) l → ∀ rs,
    length (foldl (λ l r, <[Z.to_nat (Route.Idx r) := e]> l) l rs) = length l ∧
    Forall (eq e) (foldl (λ l r, <[Z.to_nat (Route.Idx r) := e]> l) l rs)).
  { intros l Hl rs. revert l Hl. induction rs as [|r rs IH]; intros l Hl; cbn; [done|].
    destruct (IH (<[Z.to_nat (Route.Idx r) := e]> l)) as [IH1 IH2]; [by apply Forall_insert|].
    by rewrite IH1, length_insert. }
  destruct (H (replicate (Z.to_nat (Route.Idx root + 1)) e)
    ltac:(by apply Forall_replicate) (Route.Walk root)) as [H1 H2].
  split; [by rewrite H1, length_replicate|]. intros idx fp.
  destruct (foldl _ _ _ !! idx) as [rg|] eqn:E; [|done]. cbn.
  rewrite Forall_lookup in H2. rewrite <-(H2 _ _ E). cbn. apply lookup_empty.
Qed.

Lemma inv_init cr root limit : Route.NewRoute cr None = Some root → inv (init root limit).
Proof.
  unfold Route.NewRoute. intros ([r0 c'] & Hnew & ->)%fmap_Some.
  apply RouteInv.newRoute_Idx in Hnew as (-> & Hle & Hp). cbn [fst].
  destruct (Run_init_slice r0 limit) as [Hlen Hload].
  split; try done.
  - intros r Hr%(list_elem_of_fmap_2 Route.Idx). rewrite Hp in Hr. apply elem_of_seqZ in Hr.
    unfold has_slot. cbn [sys_d init] in *. rewrite Hlen. lia.
  - intros a Ha. exfalso. destruct Ha as [idx fp Hl|tid c p Hc|res Hin|idx Hin]; cbn in *.
    + unfold init in Hl. cbn in Hl. by rewrite Hload in Hl.
    + done.
    + by apply elem_of_nil in Hin.
    + by apply elem_of_nil in Hin.
  - intros tid a _ (c & p & Hc & _). done.
  - intros t1 t2 ag (c & p & Hc & _). done.
Qed.

Lemma reachable_inv cr root limit s :
  Route.NewRoute cr None = Some root → rtc step (init root limit) s → inv s.
Proof.
  intros Hnew Hr. assert (Hi : inv (init root limit)) by by eapply inv_init.
  clear Hnew. revert Hi. induction Hr; eauto using step_inv.
Qed.

(** ** Alerts reach a live group *)

(** The alert is in the living group that the map of the route holds. *)
Definition delivered d (idx : nat) (fp : Z) (a : Alert) : Prop :=
  ∃ addr g, Load d idx fp = Some addr ∧ heap d !! addr = Some g ∧ destroyed g = false ∧
    Store.alerts (g_alerts g) !! Store.alert_Fingerprint a = Some a.

(** The call has just handed its alert over. *)
Definition handed_over (p' : pc) : Prop :=
  match p' with PDone (Inserted _) | PCancel _ _ | PCount _ => True | _ => False end.

Lemma insert_delivers s tid c p el d' :
  inv s → sys_calls s !! tid = Some (c, p) → el ∈ pub_of p →
  attached (sys_d s) (c_idx c) (c_fp c) el →
  insert_at (sys_d s) el (c_alert c) (c_now c) = (d', true) →
  delivered d' (c_idx c) (c_fp c) (c_alert c).
Proof.
  intros Hi Hc Hel (g0 & Hg0 & Ha) Hins.
  pose proof (insert_at_spec (sys_d s) el (c_alert c) (c_now c) (inv_unlimited s Hi)
    (inv_public s Hi el (pub_call s el tid c p Hc Hel))) as Hs.
  rewrite Hins in Hs. destruct Hs as (Ht & Hok & _).
  destruct (Hok eq_refl) as (g & g' & Hg & Hg' & Hd & Hd' & Hal). rewrite Hg in Hg0. injection Hg0 as <-.
  exists el, g'. rewrite (t_load _ _ _ Ht), Hal. split_and!; [by apply Ha|done|done|].
  apply lookup_insert_eq.
Qed.

Lemma store_delivers s tid c ag el n :
  inv s → sys_calls s !! tid = Some (c, PLoop ag el n) →
  delivered (Store_ (sys_d s) (c_idx c) (c_fp c) ag) (c_idx c) (c_fp c) (c_alert c).
Proof.
  intros Hi Hc. destruct (inv_private s Hi tid c _ ag Hc eq_refl) as (g & Hg & Hd & _ & Ha).
  exists ag, g. split_and!; [|done..]. apply Load_Store_eq.
  by apply (inv_slots s Hi), (inv_routes s Hi tid c _ Hc).
Qed.

(** C10: no alert is put into a forgotten group: in every interleaving of workers,
    flushes and maintenance, at the moment a call of groupAlert hands its alert
    over, whether to a group it found or to one it created, the map of the
    route holds a group that is not destroyed and contains the alert. *)
Theorem dispatch_alert_reaches_group cr root limit d cs fs es ds tid c p d' p' :
  Route.NewRoute cr None = Some root →
  rtc step (init root limit) (mkSystem d cs fs es ds) →
  cs !! tid = Some (c, p) → gstep c d p = (d', p') → p ≠ p' → handed_over p' →
  delivered d' (c_idx c) (c_fp c) (c_alert c).
Proof.
  intros Hnew Hr Hc Hstep Hne Hh. pose proof (reachable_inv _ _ _ _ Hnew Hr) as Hi.
  set (s := mkSystem d cs fs es ds) in *. pose proof (inv_calls s Hi tid c p Hc) as Hok.
  destruct p as [|el|el|el|ag [el|] n|ag el|ag|ag el n|ag el n|ag|o]; cbn [gstep] in Hstep.
  - destruct (Load d _ _); by injection Hstep as <- <-.
  - destruct (insert_at d el _ _) as [d1 []] eqn:Hins; injection Hstep as <- <-; [|done].
    by eapply (insert_delivers s tid c (PInsert el) el); [| |left|..].
  - destruct (_ && _); by injection Hstep as <- <-.
  - destruct (insert_ _ _ _). by injection Hstep as <- <-.
  - unfold CompareAndSwap in Hstep. destruct (decide _); injection Hstep as <- <-; [|done].
    by eapply (store_delivers s).
  - unfold LoadOrStore in Hstep. destruct (Load d _ _); injection Hstep as <- <-; [done|].
    by eapply (store_delivers s).
  - by injection Hstep as <- <-.
  - by injection Hstep as <- <-.
  - destruct (insert_at d el _ _) as [d1 []] eqn:Hins; injection Hstep as <- <-; [|done].
    by eapply (insert_delivers s tid c (PInsertExisting ag el n) el); [| |left|..].
  - destruct (100 <? n + 1); by injection Hstep as <- <-.
  - by injection Hstep as <- <-.
  - injection Hstep as <- <-. done.
Qed.
(** ** Alerts stay in a live group *)

(** A group lives on with its alerts, or with one alert added or replaced. *)
Definition lives d d' (addr : nat) : Prop :=
  ∀ g, heap d !! addr = Some g → destroyed g = false →
    ∃ g', heap d' !! addr = Some g' ∧ destroyed g' = false ∧
      (Store.alerts (g_alerts g') = Store.alerts (g_alerts g) ∨
       ∃ b, Store.alerts (g_alerts g') =
         <[Store.alert_Fingerprint b := b]> (Store.alerts (g_alerts g))).

Lemma lives_same d d' addr : heap d' !! addr = heap d !! addr → lives d d' addr.
Proof. intros Hh g Hg Hd. exists g. rewrite Hh. auto. Qed.

Lemma lives_update f el d addr :
  (∀ g, g_alerts (f g) = g_alerts g) → lives d (update_at f el d) addr.
Proof.
  intros Hf g Hg Hd. rewrite heap_update_at, Hg. unfold destroyed in *. case_decide; cbn.
  - exists (f g). rewrite Hf. auto.
  - exists g. auto.
Qed.

Lemma lives_trans_update f el d d' addr :
  lives d d' addr → (∀ g, g_alerts (f g) = g_alerts g) → lives d (update_at f el d') addr.
Proof.
  intros Hl Hf g Hg Hd. destruct (Hl g Hg Hd) as (g1 & Hg1 & Hd1 & Ha).
  rewrite heap_update_at, Hg1. unfold destroyed in *. case_decide; cbn.
  - exists (f g1). rewrite Hf. auto.
  - exists g1. auto.
Qed.

(** What an action of a call keeps: the map's living groups and their alerts. *)
Definition keeps d d' : Prop :=
  evolves d d' ∧ ∀ addr, is_Some (heap d !! addr) → lives d d' addr.

Lemma keeps_refl d : keeps d d.
Proof.
  split; [|intros; by apply lives_same]. apply (touches_evolves (λ _, False)), touches_refl.
Qed.

Lemma insert_at_keeps s el a now d' ok :
  inv s → public s el → insert_at (sys_d s) el a now = (d', ok) → keeps (sys_d s) d'.
Proof.
  intros Hi Hp H. pose proof (insert_at_spec (sys_d s) el a now (inv_unlimited s Hi)
    (inv_public s Hi el Hp)) as Hs.
  rewrite H in Hs. destruct Hs as (Ht & Ht1 & Hf1). split; [by eapply touches_evolves|].
  intros addr _. destruct (decide (el = addr)) as [->|Hne]; [|by apply lives_same, (t_same _ _ _ Ht)].
  intros g Hg Hd. destruct ok.
  - destruct Ht1 as (g0 & g' & Hg0 & Hg' & _ & Hd' & Ha); [done|]. exists g'.
    rewrite Hg in Hg0. injection Hg0 as <-. eauto.
  - unfold insert_at in H. rewrite Hg in H.
    pose proof (insert_spec g a now (inv_unlimited s Hi _ _ Hg)) as Hs.
    destruct (insert_ g _ _) as [g' ok']. injection H as <- ->.
    destruct Hs as [Hs _]. rewrite Hd in Hs. done.
Qed.

Lemma alloc_keeps s g : inv s → keeps (sys_d s) (alloc g (sys_d s)).
Proof.
  intros Hi. assert (Hnone : ∀ a, is_Some (heap (sys_d s) !! a) → next_addr (sys_d s) ≠ a).
  { intros a [g0 Hg0] <-. apply (inv_bound s Hi) in Hg0. lia. }
  split.
  - apply evolves_heap; [|done]. intros a g0 Ha. exists g0. cbn. by rewrite lookup_insert_ne by eauto.
  - intros addr Ha. apply lives_same. cbn. by rewrite lookup_insert_ne by eauto.
Qed.

Lemma Store_keeps d idx fp ag :
  (∀ el, Load d idx fp = Some el → dead d el) → keeps d (Store_ d idx fp ag).
Proof.
  intros Hd. split; [|intros; by apply lives_same].
  apply (evolves_slot _ _ idx fp); [done|by apply Load_Store_ne|done].
Qed.

Lemma gstep_start_keeps c d ag : keeps d (gstep c d (PStart ag)).1.
Proof.
  cbn [gstep]. set (f := λ g : aggrGroup, _). cbn.
  assert (Hf : ∀ g, g_alerts (f g) = g_alerts g) by (intros g; unfold f; by destruct (Before _ _)).
  assert (Hfd : ∀ g, destroyed g = true → destroyed (f g) = true)
    by (intros g; unfold destroyed; by rewrite Hf).
  assert (Hfu : ∀ g, unlimited g → unlimited (f g)) by (intros g; unfold unlimited; by rewrite Hf).
  destruct (d_state d); (split; [|intros; first [by apply lives_update
    |apply lives_trans_update; [by apply lives_update|done]]]); try by apply evolves_update.
  eapply touches_evolves, (touches_trans (eq ag)); [by apply touches_update|by apply touches_update].
Qed.

Lemma gstep_lives d cs fs es ds tid c p d' p' :
  inv (mkSystem d cs fs es ds) → cs !! tid = Some (c, p) → gstep c d p = (d', p') → keeps d d'.
Proof.
  intros Hi Hc Hstep. set (s := mkSystem d cs fs es ds) in *.
  pose proof (inv_calls s Hi tid c p Hc) as Hok.
  assert (Hsame : d' = d → keeps d d') by (intros ->; apply keeps_refl).
  destruct p as [|el|el|el|ag [el|] n|ag el|ag|ag el n|ag el n|ag|o]; cbn [gstep] in Hstep.
  - apply Hsame. destruct (Load d _ _); by injection Hstep.
  - destruct (insert_at d el _ _) as [d1 ok] eqn:E. injection Hstep as <- _.
    eapply (insert_at_keeps s el); [done| |exact E]. eapply pub_call; [exact Hc|by left].
  - apply Hsame. destruct (_ && _); by injection Hstep.
  - destruct (insert_ _ _ _) as [g ok]. injection Hstep as <- _. by apply (alloc_keeps s).
  - unfold CompareAndSwap in Hstep. destruct (decide _) as [Hl|]; injection Hstep as <- _; [|by apply Hsame].
    apply Store_keeps. intros el'. rewrite Hl. by intros [= <-].
  - unfold LoadOrStore in Hstep. destruct (Load d _ _) eqn:Hl; injection Hstep as <- _; [by apply Hsame|].
    apply Store_keeps. intros el'. by rewrite Hl.
  - injection Hstep as <- _. split; [by apply evolves_update|]. intros. by apply lives_update.
  - injection Hstep as <- _. split; [eapply touches_evolves, (touches_count _ _ (λ _, False))|].
    intros. by apply lives_same.
  - destruct (insert_at d el _ _) as [d1 ok] eqn:E. injection Hstep as <- _.
    eapply (insert_at_keeps s el); [done| |exact E]. eapply pub_call; [exact Hc|by left].
  - apply Hsame. destruct (100 <? n + 1); by injection Hstep.
  - injection Hstep as <- _. apply (gstep_start_keeps c d ag).
  - apply Hsame. by injection Hstep.
Qed.

(** Between the two states a flush of the alert's group, whose notification has
    succeeded, ends, and [r], one of the alerts it had notified as resolved, is
    the stored version of the alert. *)
Definition notified s s' (idx : nat) (fp : Z) (a : Alert) (addr : nat) (resolved : list Alert)
    (r : Alert) : Prop :=
  ∃ d cs fs1 fs2 es ds,
    s = mkSystem d cs (fs1 ++ (addr, resolved) :: fs2) es ds ∧
    s' = mkSystem (update_at (λ g, flush_end g resolved true) addr d) cs (fs1 ++ fs2) es ds ∧
    Load d idx fp = Some addr ∧ r ∈ resolved ∧
    Store.alert_Fingerprint r = Store.alert_Fingerprint a ∧ UpdatedAt r = UpdatedAt a.

(** The flush began in an earlier state, at [now], with [alerts] to notify. *)
Definition began s0 s (addr : nat) (now : time) (alerts resolved : list Alert) : Prop :=
  ∃ d cs fs es ds g,
    s0 = mkSystem d cs fs es ds ∧ heap d !! addr = Some g ∧
    flush_begin g now = Some (alerts, resolved) ∧
    rtc step (mkSystem d cs (fs ++ [(addr, resolved)]) es ds) s.

Lemma delivered_lives d d' idx fp a :
  evolves d d' → (∀ addr, is_Some (heap d !! addr) → lives d d' addr) → delivered d idx fp a →
  ∃ b, Store.alert_Fingerprint b = Store.alert_Fingerprint a ∧ delivered d' idx fp b.
Proof.
  intros He Hl (addr & g & Hload & Hg & Hd & Ha).
  destruct (Hl addr ltac:(by rewrite Hg) g Hg Hd) as (g' & Hg' & Hd' & Hal).
  destruct (ev_attached _ _ He idx fp addr) as (g1 & Hg1 & Hat); [by exists g|].
  rewrite Hg' in Hg1. injection Hg1 as <-. specialize (Hat Hd').
  destruct Hal as [Hal|[b Hal]].
  - exists a. split; [done|]. exists addr, g'. by rewrite Hal.
  - destruct (decide (Store.alert_Fingerprint b = Store.alert_Fingerprint a)) as [E|Hne].
    + exists b. split; [done|]. exists addr, g'. rewrite Hal, lookup_insert_eq. done.
    + exists a. split; [done|]. exists addr, g'. rewrite Hal, lookup_insert_ne by done. done.
Qed.

Lemma maintain_lives d idx addr d' deleted :
  maintain_delete idx addr d = (d', deleted) → evolves d d' ∧ ∀ a, lives d d' a.
Proof.
  intros [[-> _]|(g & Hg & Hd & H)]%maintain_delete_spec.
  { split; [apply (touches_evolves (λ _, False)), touches_refl|]. intros. by apply lives_same. }
  assert (H1 : evolves d (update_at cancel addr d)) by by apply evolves_update.
  destruct H as [[-> _]|(Hl & -> & _)].
  - split; [done|]. intros. by apply lives_update.
  - split.
    + assert (H2 : evolves (update_at cancel addr d)
        (delete_slot idx (fingerprint g) (update_at cancel addr d))).
      { apply evolves_delete_slot. intros el. rewrite Load_update_at, Hl. intros [= <-].
        exists (cancel g). rewrite heap_update_at, decide_True, Hg by done. done. }
      split.
      * intros a g0 Ha. destruct (ev_grows _ _ H1 a g0 Ha) as (g1 & Hg1 & Hd1).
        destruct (ev_grows _ _ H2 a g1 Hg1) as (g2 & Hg2 & Hd2). exists g2. auto.
      * intros i fp el Hat. by apply (ev_attached _ _ H2), (ev_attached _ _ H1).
    + intros a. by apply (lives_update cancel addr d a).
Qed.

(** A flush only removes what it notified, and nothing if that failed. *)
Lemma flush_end_keeps d addr resolved ok idx fp a :
  delivered d idx fp a →
  delivered (update_at (λ g, flush_end g resolved ok) addr d) idx fp a ∨
  ok = true ∧ Load d idx fp = Some addr ∧ ∃ b, b ∈ resolved ∧
    Store.alert_Fingerprint b = Store.alert_Fingerprint a ∧ UpdatedAt b = UpdatedAt a.
Proof.
  intros (el & g & Hl & Hg & Hd & Ha).
  destruct (decide (el = addr)) as [->|Hne].
  2:{ left. exists el, g. rewrite heap_update_at, decide_False by done. done. }
  destruct ok.
  2:{ left. exists addr, g. rewrite heap_update_at, decide_True, Hg by done. done. }
  destruct (existsb (λ b, (Store.alert_Fingerprint b =? Store.alert_Fingerprint a) &&
    (UpdatedAt b =? UpdatedAt a)) resolved) eqn:Hex.
  { right. split_and!; [done..|]. apply existsb_exists in Hex as (b & Hb%list_elem_of_In & Hc).
    to_props. eauto. }
  left. exists addr, (flush_end g resolved true). rewrite heap_update_at, decide_True, Hg by done.
  split_and!; [done|done|..].
  all: assert (Hal : Store.alerts (Store.DeleteIfNotModified (g_alerts g) resolved true)
    !! Store.alert_Fingerprint a = Some a)
    by (by rewrite Store.DeleteIfNotModified_lookup, Ha, Hex).
  all: unfold destroyed, Store.Destroyed, flush_end in *; cbn [negb].
  - assert (Hne : bool_decide (Store.delete_loop (Store.alerts (g_alerts g)) resolved = ∅) = false).
    { apply bool_decide_eq_false. intros E. cbn in Hal. rewrite E in Hal. by rewrite lookup_empty in Hal. }
    destruct (0 <? length resolved)%nat; cbn; by rewrite Hd, Hne.
  - by destruct (0 <? length resolved)%nat.
Qed.

Lemma step_keeps s s' idx fp a :
  inv s → step s s' → delivered (sys_d s) idx fp a →
  (∃ b, Store.alert_Fingerprint b = Store.alert_Fingerprint a ∧ delivered (sys_d s') idx fp b) ∨
  ∃ addr resolved r, notified s s' idx fp a addr resolved r.
Proof.
  intros Hi Hstep Hdel. destruct Hstep as
    [d cs fs es ds tid b pos r now Hnone Hm Hn|d cs fs es ds tid c p d' p' Hc Hg|d cs fs es ds Hst
    |d cs fs es ds i f addr Hst Hl|d cs fs es ds addr g now al res Hg Hrun Hb|d cs fs1 fs2 es ds addr res ok
    |d cs fs es ds i f addr Hl|d cs fs es1 es2 ds i addr d' deleted Hd
    |d cs fs es ds1 ds2 i addr]; cbn in *.
  - left. eauto.
  - left. destruct (gstep_lives _ _ _ _ _ _ _ _ _ _ Hi Hc Hg) as [He Hl]. by eapply delivered_lives.
  - left. eauto.
  - left. eapply delivered_lives; [|intros; by apply lives_update|done]. by apply evolves_update.
  - left. eauto.
  - destruct (flush_end_keeps d addr res ok idx fp a Hdel) as [?|(-> & Hl & b & Hb & Hf & Hu)]; [left; eauto|].
    right. exists addr, res, b, d, cs, fs1, fs2, es, ds. split_and!; done.
  - left. eauto.
  - left. apply maintain_lives in Hd as [He Hl]. by eapply delivered_lives.
  - left. exists a. split; [done|]. unfold maintain_count. destruct (heap d !! addr) as [g|]; [|done].
    destruct Hdel as (el & g0 & Hl & Hrest). exists el, g0. by rewrite Load_count.
Qed.

(** What a flush reports as resolved had ended when it began, and is notified. *)
Lemma flush_loop_resolved now l b :
  b ∈ (flush_loop now l).2 → b ∈ (flush_loop now l).1 ∧ Resolved b now = true.
Proof.
  induction l as [|a l IH]; cbn; [by intros ?%elem_of_nil|].
  destruct (flush_loop now l) as [slice resolved]. cbn in IH. destruct (Resolved a now) eqn:E; cbn.
  - intros [->|[? ?]%IH]%elem_of_cons; [by split; [left|]|by split; [right|]].
  - intros [? ?]%IH. by split; [right|].
Qed.

Lemma flush_begin_resolved g now alerts resolved b :
  flush_begin g now = Some (alerts, resolved) → b ∈ resolved → b ∈ alerts ∧ Resolved b now = true.
Proof.
  unfold flush_begin. destruct (empty g); [done|].
  pose proof (flush_loop_resolved now (Store.List_ (g_alerts g)) b) as Hf.
  destruct (flush_loop now _) as [slice rs]. cbn in Hf. intros [= <- <-] [? ?]%Hf.
  split; [|done]. by rewrite merge_sort_Permutation.
Qed.

(** Every flush that waits for its notification has begun. *)
Lemma reachable_flushes root limit s :
  rtc step (init root limit) s → ∀ addr resolved, (addr, resolved) ∈ sys_flushes s →
  ∃ s0 now alerts, rtc step (init root limit) s0 ∧ began s0 s addr now alerts resolved.
Proof.
  assert (Hlater : ∀ s1 s2 addr resolved, step s1 s2 →
    (∃ s0 now alerts, rtc step (init root limit) s0 ∧ began s0 s1 addr now alerts resolved) →
    ∃ s0 now alerts, rtc step (init root limit) s0 ∧ began s0 s2 addr now alerts resolved).
  { intros s1 s2 addr resolved Hstep (s0 & now & al & H0 & d & cs & fs & es & ds & g & ? & ? & ? & Hr).
    exists s0, now, al. split; [done|]. exists d, cs, fs, es, ds, g. split_and!; [done..|].
    by eapply rtc_r. }
  revert s. refine (rtc_ind_r _ _ _ _); [by intros ?? ?%elem_of_nil|]. intros s1 s2 Hr Hstep IH.
  intros addr resolved Hin.
  assert (Hcase : (addr, resolved) ∈ sys_flushes s1 ∨ ∃ now al, began s1 s2 addr now al resolved).
  { destruct Hstep; cbn in *; try (by left); [|left; set_solver].
    apply elem_of_app in Hin as [Hin|Hin%list_elem_of_singleton]; [by left|]. injection Hin as -> ->.
    right. exists now, alerts, d, cs, fs, es, ds, g. by split_and!. }
  destruct Hcase as [Hold|(now & al & Hb)]; [by eapply Hlater, IH|]. by exists s1, now, al.
Qed.

(** C2: an alert stays with the dispatcher until it has been notified as resolved:
    once it is in a living group of its route, then after any further
    interleaving of workers, flushes and maintenance either the route's map
    still holds a living group with a version of the alert, or in between a
    flush of its group has ended whose notification succeeded and in which the
    version stored then (by its update time) was among the alerts notified,
    as one that had ended by the clock of that flush when it began. *)
Theorem dispatch_alert_kept cr root limit s s' idx fp a :
  Route.NewRoute cr None = Some root → rtc step (init root limit) s → rtc step s s' →
  delivered (sys_d s) idx fp a →
  (∃ b, Store.alert_Fingerprint b = Store.alert_Fingerprint a ∧ delivered (sys_d s') idx fp b) ∨
  ∃ s1 s2 b addr resolved r, rtc step s s1 ∧ rtc step s2 s' ∧
    Store.alert_Fingerprint b = Store.alert_Fingerprint a ∧
    delivered (sys_d s1) idx fp b ∧ notified s1 s2 idx fp b addr resolved r ∧
    ∃ s0 now alerts, rtc step (init root limit) s0 ∧ began s0 s1 addr now alerts resolved ∧
      r ∈ alerts ∧ Resolved r now = true.
Proof.
  intros Hnew Hreach Hrun. revert a. induction Hrun as [s|s1 s2 s3 Hstep Hrun IH]; intros a Hdel.
  { left. eauto. }
  pose proof (reachable_inv _ _ _ _ Hnew Hreach) as Hi.
  destruct (step_keeps s1 s2 idx fp a Hi Hstep Hdel) as [(b & Hb & Hdb)|(addr & res & r & Hn)].
  - destruct (IH ltac:(eapply rtc_r; [done|done]) b Hdb) as
      [(b' & Hb' & ?)|(s4 & s5 & b' & ad & res & r & H14 & H53 & Hf & Hrest)].
    + left. exists b'. by rewrite Hb', Hb.
    + right. exists s4, s5, b', ad, res, r. split_and!; [by eapply rtc_l|done|congruence|apply Hrest..].
  - right. exists s1, s2, a, addr, res, r. split_and!; [done..|].
    destruct Hn as (d & cs & fs1 & fs2 & es & ds & -> & _ & _ & Hr & _).
    destruct (reachable_flushes _ _ _ Hreach addr res ltac:(cbn; set_solver)) as (s0 & now & al & H0 & Hb).
    exists s0, now, al. split_and!; [done..| |];
      destruct Hb as (? & ? & ? & ? & ? & g & _ & _ & Hb & _);
      by destruct (flush_begin_resolved _ _ _ _ r Hb Hr).
Qed.

(** ** The timer goroutine *)

(** Starting all groups at once is one way of interleaving its actions. *)
Lemma start_all_steps d cs fs es ds :
  rtc step (mkSystem d cs fs es ds) (mkSystem (start_all d) cs fs es ds).
Proof.
  unfold start_all. destruct (d_state d) eqn:Hst; try done.
  eapply rtc_l; [by apply step_start|].
  set (ok := λ d0, d_state d0 = DispatcherStateRunning ∧ routeGroupsSlice d0 = routeGroupsSlice d).
  assert (Hrun : ∀ idx rg l d0, ok d0 → routeGroupsSlice d !! idx = Some rg →
    (∀ x, x ∈ l → x ∈ range (rg_groups rg)) →
    rtc step (mkSystem d0 cs fs es ds)
      (mkSystem (foldl (λ d (x : Z * nat), runAG x.2 d) d0 l) cs fs es ds) ∧
    ok (foldl (λ d (x : Z * nat), runAG x.2 d) d0 l)).
  { intros idx rg l d0 H0 Hrg. revert d0 H0. induction l as [|[fp a] l IH]; intros d0 H0 Hl; cbn; [done|].
    destruct (IH (runAG a d0) H0) as [Hs Hok]; [set_solver|]. split; [|done].
    eapply rtc_l; [|exact Hs]. apply (step_run _ _ _ _ _ idx fp); [apply H0|].
    unfold Load. rewrite (proj2 H0), Hrg. apply elem_of_range, Hl. by left. }
  assert (Hall : ∀ rgs d0, ok d0 → (∀ rg, rg ∈ rgs → rg ∈ routeGroupsSlice d) →
    rtc step (mkSystem d0 cs fs es ds) (mkSystem (foldl (λ d rg,
      foldl (λ d x, runAG x.2 d) d (range (rg_groups rg))) d0 rgs) cs fs es ds)).
  { induction rgs as [|rg rgs IH]; intros d0 H0 Hin; cbn; [done|].
    destruct (proj1 (list_elem_of_lookup _ _) (Hin rg ltac:(by left))) as [idx Hrg].
    destruct (Hrun idx rg (range (rg_groups rg)) d0 H0 Hrg) as [Hs Hok]; [done|].
    etrans; [exact Hs|]. apply IH; set_solver. }
  by apply Hall.
Qed.

(** ** Termination *)

(** The position of a call whose actions are interleaved with anything: the
    state may be any other one at each of its actions. *)
Fixpoint interleaved (c : call) (ds : nat → Dispatcher) (n : nat) : pc :=
  match n with
  | O => PLoad
  | S n => (gstep c (ds n) (interleaved c ds n)).2
  end.

Definition remaining (retries : Z) : nat := (4 * Z.to_nat (101 - retries))%nat.

Definition pc_measure (p : pc) : nat :=
  match p with
  | PDone _ => 0
  | PStart _ => 1
  | PCancel _ _ | PCount _ => 2
  | PRetry _ _ n => 3 + remaining n
  | PInsertExisting _ _ n => 4 + remaining n
  | PLoop _ _ n => 5 + remaining n
  | PNew _ => 410
  | PLimit _ => 411
  | PInsert _ => 412
  | PLoad => 413
  end.

Lemma gstep_measure c d p :
  (∀ o, p ≠ PDone o) → (pc_measure (gstep c d p).2 < pc_measure p)%nat.
Proof.
  intros Hp. destruct p as [|el|el|el|ag [el|] n|ag el|ag|ag el n|ag el n|ag|o]; cbn [gstep].
  - destruct (Load d _ _); cbn; lia.
  - destruct (insert_at d el _ _) as [d1 []]; cbn; lia.
  - destruct (_ && _); cbn; lia.
  - destruct (insert_ _ _ _). cbn. unfold remaining. lia.
  - unfold CompareAndSwap. destruct (decide _); cbn; lia.
  - unfold LoadOrStore. destruct (Load d _ _); cbn; lia.
  - cbn. lia.
  - cbn. lia.
  - destruct (insert_at d el _ _) as [d1 []]; cbn; lia.
  - destruct (Z.ltb_spec 100 (n + 1)); cbn; unfold remaining; lia.
  - cbn. lia.
  - by destruct (Hp o).
Qed.

(** Without interference a call takes at most seven actions and does not give
    up. *)
Lemma group_loop_step fuel c d p d' p' :
  (∀ o, p ≠ PDone o) → gstep c d p = (d', p') →
  group_loop (S fuel) c d p = group_loop fuel c d' p'.
Proof. intros Hp Hs. cbn. rewrite Hs. destruct p; try done. by destruct (Hp o). Qed.

Lemma group_loop_done fuel c d o : group_loop fuel c d (PDone o) = (d, PDone o).
Proof. by destruct fuel. Qed.

Lemma group_loop_new fuel c d el :
  Load d (c_idx c) (c_fp c) = el →
  ∃ o, (group_loop (S (S (S (S (S fuel))))) c d (PLimit el)).2 = PDone o ∧ o ≠ GivenUp.
Proof.
  intros Hl. destruct ((0 <? d_limit d) && (d_limit d <=? aggrGroupsNum d)) eqn:Hlim.
  { erewrite group_loop_step; [|done|cbn; by rewrite Hlim]. rewrite group_loop_done. by eexists. }
  erewrite group_loop_step; [|done|cbn; by rewrite Hlim].
  destruct (insert_ (newAggrGroup (c_labels c) (d_route d) (c_pos c) (c_route c) (c_now c))
    (c_alert c) (c_now c)) as [g ok] eqn:Hins.
  erewrite group_loop_step; [|done|cbn [gstep]; rewrite Hins; reflexivity].
  destruct el as [el|].
  - erewrite group_loop_step; [|done|cbn [gstep]; unfold CompareAndSwap; by rewrite decide_True].
    do 2 (erewrite group_loop_step; [|done|reflexivity]). rewrite group_loop_done. by eexists.
  - erewrite group_loop_step; [|done|cbn [gstep]; unfold LoadOrStore;
      change (Load (alloc g d) (c_idx c) (c_fp c)) with (Load d (c_idx c) (c_fp c)); by rewrite Hl].
    do 2 (erewrite group_loop_step; [|done|reflexivity]). rewrite group_loop_done. by eexists.
Qed.

Lemma groupAlert_outcome c d : ∃ o, (groupAlert c d).2 = PDone o ∧ o ≠ GivenUp.
Proof.
  unfold groupAlert. destruct (Load d (c_idx c) (c_fp c)) as [el|] eqn:Hl.
  - erewrite group_loop_step; [|done|cbn; by rewrite Hl].
    destruct (insert_at d el (c_alert c) (c_now c)) as [d1 ok] eqn:Hins.
    assert (Hl1 : Load d1 (c_idx c) (c_fp c) = Some el).
    { unfold insert_at in Hins. destruct (heap d !! el); [|by injection Hins as <- <-].
      destruct (insert_ _ _ _). by injection Hins as <- <-. }
    erewrite group_loop_step; [|done|cbn; by rewrite Hins].
    destruct ok; [rewrite group_loop_done; by eexists|]. by apply (group_loop_new 5).
  - erewrite group_loop_step; [|done|cbn; by rewrite Hl]. by apply (group_loop_new 6).
Qed.

(** C26: routing an alert to a group always ends: after at most 413 of its own
    actions a call of groupAlert has an outcome, whatever the other workers,
    the flushes and the maintenance do in between; and when nothing interferes
    it does not give up. *)
Theorem groupAlert_terminates c :
  (∀ ds, ∃ o, interleaved c ds 413 = PDone o) ∧
  ∀ d, ∃ o, (groupAlert c d).2 = PDone o ∧ o ≠ GivenUp.
Proof.
  split; [|intros d; apply groupAlert_outcome]. intros ds.
  assert (H : ∀ n, (∃ o, interleaved c ds n = PDone o) ∨
    (pc_measure (interleaved c ds n) + n ≤ 413)%nat).
  { induction n as [|n [[o Ho]|IH]]; cbn [interleaved].
    - right. cbn. lia.
    - left. exists o. by rewrite Ho.
    - destruct (interleaved c ds n) as [| | | | | | | | | |o] eqn:E;
        [right..|left; by exists o];
        (match goal with |- (_ (gstep _ _ ?p).2 + _ ≤ _)%nat =>
           pose proof (gstep_measure c (ds n) p ltac:(done)) end; lia). }
  destruct (H 413%nat) as [?|Hm]; [done|].
  destruct (interleaved c ds 413); cbn in Hm; try lia. eauto.
Qed.

(** ** Flushing *)
Lemma flush_loop_spec now l :
  flush_loop now l = ((λ a, if Resolved a now then a else set_EndsAt 0 a) <$> l,
                      List.filter (λ a, Resolved a now) l).
Proof.
  induction l as [|a l IH]; [done|]. cbn. rewrite IH. by destruct (Resolved a now).
Qed.

Lemma flush_end_alerts g resolved :
  g_alerts (flush_end g resolved true) = Store.DeleteIfNotModified (g_alerts g) resolved true.
Proof. unfold flush_end. cbn. by destruct (length resolved). Qed.

(** C25: flushing is complete: the notification gets every alert of the group, those
    that are still firing without an end time; when it fails the group is left
    as it is; when it succeeds exactly the resolved alerts are forgotten, and
    the group is destroyed exactly when no alert is left. *)
Theorem flush_exact g now notify :
  Provider.filed (g_alerts g) → empty g = false → destroyed g = false →
  ∃ alerts resolved, flush_begin g now = Some (alerts, resolved) ∧
    alerts ≡ₚ (λ a, if Resolved a now then a else set_EndsAt 0 a) <$> Store.List_ (g_alerts g) ∧
    (notify alerts = false → flush g now notify = g) ∧
    (notify alerts = true →
      (∀ fp, Store.alerts (g_alerts (flush g now notify)) !! fp =
         a ← Store.alerts (g_alerts g) !! fp; if Resolved a now then None else Some a) ∧
      (destroyed (flush g now notify) = true ↔
         Store.alerts (g_alerts (flush g now notify)) = ∅)).
Proof.
  intros Hfiled He Hd. unfold flush, flush_begin. rewrite He, flush_loop_spec.
  eexists _, _. split; [done|]. split; [apply merge_sort_Permutation|].
  set (alerts := merge_sort _ _). set (resolved := List.filter _ _). split; intros Hn; rewrite Hn; [done|].
  rewrite flush_end_alerts. split.
  - intros fp. rewrite Store.DeleteIfNotModified_lookup.
    destruct (Store.alerts (g_alerts g) !! fp) as [a|] eqn:Ha; [|done]. cbn.
    assert (Hin : ∀ b, In b resolved ↔ Store.alerts (g_alerts g) !! Store.alert_Fingerprint b = Some b ∧
      Resolved b now = true).
    { intros b. unfold resolved. rewrite filter_In, <-list_elem_of_In. apply and_iff_compat_r.
      unfold Store.List_. rewrite list_elem_of_fmap. split.
      - intros ([k b'] & -> & Hb%elem_of_range). cbn. by rewrite (Hfiled _ _ Hb).
      - intros Hb%elem_of_range. by eexists (_, _). }
    destruct (Resolved a now) eqn:Hr.
    + rewrite (proj2 (existsb_exists _ _)); [done|]. exists a.
      rewrite Hin, (Hfiled _ _ Ha), !Z.eqb_refl. done.
    + destruct (existsb _ _) eqn:Hex; [|done]. apply existsb_exists in Hex as (b & [Hb Hrb]%Hin & Hc).
      to_props. congruence.
  - unfold destroyed, Store.Destroyed in *. rewrite flush_end_alerts. cbn. rewrite Hd, andb_true_r. cbn.
    by rewrite bool_decide_eq_true.
Qed.
End dispatch.
End DispatchThm.
