(* ===== verification/RouteLabelsCache.v ===== *)
(** * The route-label cache of an aggregation group (dispatch/dispatch.go)

    [RouteLabels] caches the rendered route labels of a group without a lock:
    a render is tagged with the generation that was read before the alerts, and
    every change of the alerts is followed by an increment of the generation.
    Here readers and writers interleave action by action, and a reader never
    gets labels that are older than a change that was complete when it began. *)

From Stdlib Require Import Ascii String.
From stdpp Require Import base gmap strings list relations.
From S2P Require Import Prelude Utf8 Labels Silence Alert Nflog Notify Bucket Store Inhibit.
From S2P Require Import Strconv Route Dispatch.

Import Alert Dispatch.

Module RouteLabelsCache.
Section cache.
Context `{RE : Regexp, MR : MapRange, UP : UnicodePrint, PM : PromModel, FP : Fingerprinter}.
Context `{LS : LabelSetString, RR : RouteLabelRenderer}.

(** Where a call of [RouteLabels] is, before its next atomic action. *)
Inductive reader :=
| RLoad
| RGen (cached : option (Z * LabelSet))
| RList (gen : Z)
| RStore (gen : Z) (labels : LabelSet)
| RReturn (labels : LabelSet).

(** What a miss renders. *)
Definition render_current (g : aggrGroup) : LabelSet :=
  match Store.List_ (g_alerts g) with
  | [] => ∅
  | alerts => renderRouteLabels g alerts
  end.

(** One atomic action of [RouteLabels]. *)
Definition rstep (g : aggrGroup) (r : reader) : aggrGroup * reader :=
  match r with
  | RLoad => (g, RGen (g_routeLabels g))
  | RGen cached =>
      let gen := g_routeLabelsGen g in
      match cached with
      | Some (cached_gen, labels) =>
          if cached_gen =? gen then (g, RReturn labels) else (g, RList gen)
      | None => (g, RList gen)
      end
  | RList gen => (g, RStore gen (render_current g))
  | RStore gen labels => (set_routeLabels (Some (gen, labels)) g, RReturn labels)
  | RReturn labels => (g, RReturn labels)
  end.

(** The group, the calls in progress and the number of writers that have
    changed the alerts and not yet incremented the generation.  The rest
    records the run: the groups as they were after each change of the alerts,
    and for each generation the number of changes at the moment it began; a
    call carries the number of changes that its start must not miss. *)
Record cstate := mkC {
  c_g : aggrGroup;
  c_readers : gmap nat (nat * reader);
  c_pending : nat;
  c_hist : list aggrGroup;
  c_marks : list nat;
}.

Definition stable (c : cstate) : nat := default O (last (c_marks c)).
Definition changes (c : cstate) : nat := pred (length (c_hist c)).

(** A change of the alerts as [insert] and [flush] make it: an alert that was
    stored, or the deletion of a batch of resolved alerts. *)
Inductive changes_alerts (s : Store.Alerts) : Store.Alerts → Prop :=
| change_set a now s' : Store.Set_ s a now = (s', None) → changes_alerts s s'
| change_delete l : l ≠ [] → changes_alerts s (Store.DeleteIfNotModified s l true).

Inductive cstep : relation cstate :=
| cstep_change g rs n h ms s' :
    changes_alerts (g_alerts g) s' →
    cstep (mkC g rs n h ms) (mkC (set_g_alerts s' g) rs (S n) (h ++ [set_g_alerts s' g]) ms)
| cstep_invalidate g rs n h ms :
    cstep (mkC g rs (S n) h ms)
      (mkC (invalidateRouteLabels g) rs n h (ms ++ [pred (length h)]))
| cstep_begin g rs n h ms tid :
    rs !! tid = None →
    cstep (mkC g rs n h ms) (mkC g (<[tid := (default O (last ms), RLoad)]> rs) n h ms)
| cstep_read g rs n h ms tid from r g' r' :
    rs !! tid = Some (from, r) → rstep g r = (g', r') →
    cstep (mkC g rs n h ms) (mkC g' (<[tid := (from, r')]> rs) n h ms).

Definition cinit (g : aggrGroup) : cstate := mkC g ∅ 0 [g] [O].

(** The rendered labels of the alerts as they were at some moment. *)
Definition rendered_at (c : cstate) (v : nat) (labels : LabelSet) : Prop :=
  ∃ g, c_hist c !! v = Some g ∧ labels = render_current g.

Definition tagged (c : cstate) (gen : Z) (labels : LabelSet) : Prop :=
  ∃ m v, 0 ≤ gen ∧ c_marks c !! Z.to_nat gen = Some m ∧ (m ≤ v)%nat ∧ rendered_at c v labels.

Definition reader_ok (c : cstate) (from : nat) (r : reader) : Prop :=
  (from ≤ stable c)%nat ∧
  match r with
  | RLoad => True
  | RGen cached => ∀ gen labels, cached = Some (gen, labels) → tagged c gen labels
  | RList gen =>
      0 ≤ gen ∧ ∃ m, c_marks c !! Z.to_nat gen = Some m ∧ (from ≤ m)%nat
  | RStore gen labels =>
      tagged c gen labels ∧ ∃ v, (from ≤ v)%nat ∧ rendered_at c v labels
  | RReturn labels => ∃ v, (from ≤ v)%nat ∧ rendered_at c v labels
  end.

Record cinv (c : cstate) : Prop := {
  ci_now : ∃ g, last (c_hist c) = Some g ∧ render_current g = render_current (c_g c);
  ci_gen : g_routeLabelsGen (c_g c) = Z.of_nat (pred (length (c_marks c)));
  ci_marks : c_marks c ≠ [];
  ci_mono : Forall (λ m, m ≤ changes c)%nat (c_marks c);
  ci_cache : ∀ gen labels, g_routeLabels (c_g c) = Some (gen, labels) → tagged c gen labels;
  ci_readers : ∀ tid from r, c_readers c !! tid = Some (from, r) → reader_ok c from r;
}.

Lemma stable_lookup c : c_marks c ≠ [] → c_marks c !! pred (length (c_marks c)) = Some (stable c).
Proof.
  unfold stable. rewrite <- last_lookup. destruct (c_marks c) as [|m l] using rev_ind; [done|].
  by rewrite last_snoc.
Qed.

(** What is recorded stays recorded. *)
Definition extends (c c' : cstate) : Prop :=
  (∃ l, c_hist c' = c_hist c ++ l) ∧ (∃ l, c_marks c' = c_marks c ++ l).

Lemma rendered_at_extends c c' v labels :
  extends c c' → rendered_at c v labels → rendered_at c' v labels.
Proof.
  intros [[l El] _] (g & Hg & ->). exists g. split; [|done]. rewrite El. by apply lookup_app_l_Some.
Qed.

Lemma tagged_extends c c' gen labels : extends c c' → tagged c gen labels → tagged c' gen labels.
Proof.
  intros He (m & v & H0 & Hm & Hle & Hr). exists m, v. split_and!; [done| |done|].
  - destruct He as [_ [l ->]]. by apply lookup_app_l_Some.
  - by eapply rendered_at_extends.
Qed.

Lemma reader_ok_extends c c' from r :
  extends c c' → (stable c ≤ stable c')%nat → reader_ok c from r → reader_ok c' from r.
Proof.
  intros He Hs [Hf Hr]. split; [lia|]. destruct r as [|cached|gen|gen labels|labels].
  - done.
  - intros gen labels E. by eapply tagged_extends, Hr.
  - destruct Hr as (H0 & m & Hm & Hle). split; [done|]. exists m. split; [|done].
    destruct He as [_ [l ->]]. by apply lookup_app_l_Some.
  - destruct Hr as (Ht & v & Hle & Hv). split; [by eapply tagged_extends|].
    exists v. eauto using rendered_at_extends.
  - destruct Hr as (v & Hle & Hv). exists v. eauto using rendered_at_extends.
Qed.

(** The labels rendered now are those of the last change. *)
Lemma rendered_now c : cinv c → rendered_at c (changes c) (render_current (c_g c)).
Proof.
  intros Hi. destruct (ci_now c Hi) as (g & Hl & E). exists g. rewrite last_lookup in Hl. done.
Qed.

Lemma tagged_now c gen from :
  cinv c → reader_ok c from (RList gen) → reader_ok c from (RStore gen (render_current (c_g c))).
Proof.
  intros Hi [Hs (H0 & m & Hm & Hle)]. pose proof (rendered_now c Hi) as Hn.
  pose proof (ci_mono c Hi) as Hmono. rewrite Forall_lookup in Hmono. pose proof (Hmono _ _ Hm).
  split; [done|]. split; [by exists m, (changes c)|]. exists (changes c). split; [lia|done].
Qed.

(** One action of a reader keeps what it knows, and the cache tagged. *)
Lemma rstep_ok c from r g' r' :
  cinv c → reader_ok c from r → rstep (c_g c) r = (g', r') →
  reader_ok c from r' ∧ render_current g' = render_current (c_g c) ∧
  g_routeLabelsGen g' = g_routeLabelsGen (c_g c) ∧
  (∀ gen labels, g_routeLabels g' = Some (gen, labels) → tagged c gen labels).
Proof.
  intros Hi Hr E. pose proof (ci_cache c Hi) as Hcache.
  pose proof (stable_lookup c (ci_marks c Hi)) as Hst. pose proof (ci_gen c Hi) as Hgen.
  assert (Hmiss : reader_ok c from (RList (g_routeLabelsGen (c_g c)))).
  { split; [apply Hr|]. rewrite Hgen, Nat2Z.id. split; [lia|]. exists (stable c). split; [done|apply Hr]. }
  destruct r as [|cached|gen|gen labels|labels]; cbn in E.
  - simplify_eq. split; [|done]. split; [apply Hr|done].
  - destruct cached as [[cgen labels]|]; [|by simplify_eq].
    destruct (Z.eqb_spec cgen (g_routeLabelsGen (c_g c))) as [->|_]; simplify_eq; [|done].
    split; [|done]. destruct Hr as [Hf Hr]. destruct (Hr _ _ eq_refl) as (m & v & _ & Hm & Hle & Hv).
    rewrite Hgen, Nat2Z.id, Hst in Hm. simplify_eq. split; [done|]. exists v. split; [lia|done].
  - simplify_eq. split; [|done]. by apply tagged_now.
  - simplify_eq. destruct Hr as [Hf [Ht Hv]]. split_and!; [by split|done|done|].
    cbn. intros ? ? [= <- <-]. done.
  - simplify_eq. done.
Qed.

Lemma extends_refl c c' :
  c_hist c' = c_hist c → c_marks c' = c_marks c → extends c c'.
Proof. unfold extends. intros -> ->. split; exists []; by rewrite app_nil_r. Qed.

Lemma cinv_change g rs n h ms s' :
  cinv (mkC g rs n h ms) →
  cinv (mkC (set_g_alerts s' g) rs (S n) (h ++ [set_g_alerts s' g]) ms).
Proof.
  intros Hi. set (c := mkC g rs n h ms) in *. set (c' := mkC _ _ _ _ _).
  assert (He : extends c c') by (split; [by eexists|exists []; by rewrite app_nil_r]).
  split.
  - eexists. split; [apply last_snoc|done].
  - apply (ci_gen _ Hi).
  - apply (ci_marks _ Hi).
  - eapply Forall_impl; [apply (ci_mono _ Hi)|]. unfold changes. cbn. rewrite length_app. lia.
  - intros gen labels E. eapply tagged_extends; [done|]. by apply (ci_cache _ Hi).
  - intros tid from r Hr. eapply reader_ok_extends; [done|done|]. by eapply (ci_readers _ Hi).
Qed.

Lemma cinv_invalidate g rs n h ms :
  Z.of_nat (length ms) < 2 ^ 64 →
  cinv (mkC g rs (S n) h ms) →
  cinv (mkC (invalidateRouteLabels g) rs n h (ms ++ [pred (length h)])).
Proof.
  intros Hlt Hi. set (c := mkC g rs (S n) h ms) in *. set (c' := mkC _ _ _ _ _).
  assert (He : extends c c') by (split; [exists []; by rewrite app_nil_r|by eexists]).
  pose proof (ci_marks _ Hi) as Hne. pose proof (ci_gen _ Hi) as Hg. cbn in Hne, Hg.
  assert (Hlen : length ms ≠ 0%nat) by (by destruct ms).
  assert (Hst : (stable c ≤ stable c')%nat).
  { unfold stable at 2. cbn. rewrite last_snoc. cbn. pose proof (ci_mono _ Hi) as Hm.
    rewrite Forall_lookup in Hm. apply (Hm _ _ (stable_lookup c Hne)). }
  split.
  - apply (ci_now _ Hi).
  - cbn. rewrite Hg. unfold wrap_u64. rewrite length_app. cbn. rewrite Z.mod_small; lia.
  - cbn. by destruct ms.
  - cbn. apply Forall_app. split; [apply (ci_mono _ Hi)|]. by apply Forall_singleton.
  - intros gen labels E. eapply tagged_extends; [done|]. by apply (ci_cache _ Hi).
  - intros tid from r Hr. eapply reader_ok_extends; [done|done|]. by eapply (ci_readers _ Hi).
Qed.

Lemma cstep_cinv c c' :
  cstep c c' → Z.of_nat (length (c_marks c')) ≤ 2 ^ 64 → cinv c → cinv c'.
Proof.
  intros Hs Hlen Hi. destruct Hs as [g rs n h ms s' _|g rs n h ms|g rs n h ms tid Hn
    |g rs n h ms tid from r g' r' Hr E].
  - by apply cinv_change.
  - apply cinv_invalidate; [|done]. cbn in Hlen. rewrite length_app in Hlen. cbn in Hlen. lia.
  - split; try apply Hi. cbn. intros tid' from r [[<- [= <- <-]]|[_ Hl]]%lookup_insert_Some.
    + split; [unfold stable; cbn; lia|done].
    + by eapply (ci_readers _ Hi).
  - destruct (rstep_ok _ from r g' r' Hi (ci_readers _ Hi _ _ _ Hr) E) as (Hr' & Hrc & Hg & Hc).
    cbn in Hrc, Hg. split.
    + destruct (ci_now _ Hi) as (g0 & Hl & E0). exists g0. split; [done|]. cbn in *. congruence.
    + cbn. rewrite Hg. apply (ci_gen _ Hi).
    + apply (ci_marks _ Hi).
    + apply (ci_mono _ Hi).
    + intros gen labels Hgl. eapply tagged_extends; [by apply extends_refl|]. by apply Hc.
    + cbn. intros tid' from' r0 [[<- [= <- <-]]|[_ Hl]]%lookup_insert_Some.
      * eapply reader_ok_extends; [by apply extends_refl|done|done].
      * eapply reader_ok_extends; [by apply extends_refl|done|]. by eapply (ci_readers _ Hi).
Qed.

Lemma cstep_marks c c' : cstep c c' → (length (c_marks c) ≤ length (c_marks c'))%nat.
Proof. destruct 1; cbn; rewrite ?length_app; lia. Qed.

Lemma reachable_cinv g c :
  g_routeLabels g = None → g_routeLabelsGen g = 0 →
  rtc cstep (cinit g) c → Z.of_nat (length (c_marks c)) ≤ 2 ^ 64 → cinv c.
Proof.
  intros Hn Hg Hr. revert c Hr. apply (rtc_ind_r (λ c, Z.of_nat (length (c_marks c)) ≤ 2 ^ 64 → cinv c)).
  - intros _. split; cbn; try done; [by eexists|by repeat constructor|by rewrite Hn].
  - intros c c' _ Hs IH Hlen. eapply cstep_cinv; [done|done|]. apply IH. pose proof (cstep_marks _ _ Hs). lia.
Qed.

(** C22: the route labels a call of RouteLabels returns were rendered from the
    alerts as they were at some moment of the run, and that moment is not before
    any change whose invalidation was complete when the call began: whatever
    the interleaving of readers and writers, a stale render is never served, as
    long as the generation counter has not gone through all of its 2^64
    values. *)
Theorem route_labels_never_stale g c tid from labels :
  g_routeLabels g = None → g_routeLabelsGen g = 0 →
  rtc cstep (cinit g) c → Z.of_nat (length (c_marks c)) ≤ 2 ^ 64 →
  c_readers c !! tid = Some (from, RReturn labels) →
  ∃ v gv, (from ≤ v ≤ changes c)%nat ∧ c_hist c !! v = Some gv ∧ labels = render_current gv.
Proof.
  intros Hn Hg Hr Hlen Ht. pose proof (reachable_cinv g c Hn Hg Hr Hlen) as Hi.
  destruct (ci_readers c Hi _ _ _ Ht) as [_ (v & Hle & gv & Hgv & ->)].
  exists v, gv. apply lookup_lt_Some in Hgv as Hlt. unfold changes. split_and!; [lia|lia|done|done].
Qed.

(** Without interference the actions are the function [RouteLabels]. *)
Lemma RouteLabels_actions g :
  ∃ n, Nat.iter n (λ x, rstep x.1 x.2) (g, RLoad) = ((RouteLabels g).1, RReturn (RouteLabels g).2).
Proof.
  unfold RouteLabels. destruct (g_routeLabels g) as [[gen labels]|] eqn:E.
  - destruct (gen =? g_routeLabelsGen g) eqn:Eg.
    + exists 2%nat. cbn. rewrite E. cbn. by rewrite Eg.
    + exists 4%nat. cbn. rewrite E. cbn. rewrite Eg. cbn. unfold render_current. by destruct (Store.List_ _).
  - exists 4%nat. cbn. rewrite E. cbn. unfold render_current. by destruct (Store.List_ _).
Qed.
End cache.
End RouteLabelsCache.
