(* ===== verification/Groups.v ===== *)
(** * The groups the API shows (Groups of dispatch/dispatch.go)

    [Groups] walks over the aggregation groups of the routes that pass a filter
    and collects, per group, the alerts that pass another one, and per alert the
    receivers it goes to.  The alert filter may keep state of its own (the API
    asks the silencer, which has a cache): it is a function that passes a state
    [St] through. *)

From Stdlib Require Import Ascii String.
From stdpp Require Import base gmap strings list sorting relations.
From S2P Require Import Prelude Utf8 Labels Silence Alert Nflog Notify Bucket Store Inhibit.
From S2P Require Import Strconv Route Dispatch DispatchInv DispatchThm.

Import Alert Dispatch.

Module Groups.
Section groups.
Context `{RE : Regexp, MR : MapRange, UP : UnicodePrint, PM : PromModel, FP : Fingerprinter}.
Context `{LS : LabelSetString, RR : RouteLabelRenderer}.

Record AlertGroup := mkAlertGroup {
  ag_Alerts : list Alert;
  ag_Labels : LabelSet;
  ag_RouteLabels : LabelSet;
  ag_Receiver : string;
  ag_GroupKey : string;
  ag_RouteID : string;
  ag_AlertStatuses : gmap Z AlertStatus;
}.

(** [AlertGroups.Less] and the orders in which the results are sorted. *)
Definition AlertGroups_Less (x y : AlertGroup) : bool :=
  if bool_decide (ag_Labels x = ag_Labels y) then String.ltb (ag_Receiver x) (ag_Receiver y)
  else LabelSet_Before (ag_Labels x) (ag_Labels y).

Definition group_le (x y : AlertGroup) : Prop := AlertGroups_Less y x = false.
#[global] Instance group_le_dec x y : Decision (group_le x y).
Proof. unfold group_le. apply _. Defined.

Definition string_le (x y : string) : Prop := String.ltb y x = false.
#[global] Instance string_le_dec x y : Decision (string_le x y).
Proof. unfold string_le. apply _. Defined.

Inductive groups_error :=
| CtxDone     (** the request ended before the dispatcher had loaded *)
| NilRoute.   (** the panic on a slot without a route *)

(** The route of a slot of [routeGroupsSlice], which [Run] fills in. *)
Definition route_at (d : Dispatcher) (idx : nat) : option Route.route :=
  snd <$> list_find (λ r, Z.to_nat (Route.Idx r) = idx) (Route.Walk (d_route d)).

Section filters.
Context {St : Type} (routeFilter : Route.route → bool).
Context (alertFilter : St → Alert → time → St * bool).

(** What the loops carry: the state of the filter, the dispatcher (route labels
    are cached in the groups), the receivers and the groups found so far. *)
Record acc := mkAcc {
  a_st : St;
  a_d : Dispatcher;
  a_receivers : gmap Z (list string);
  a_groups : list AlertGroup;
}.

Definition add_receiver (receiver : string) (fp : Z) (m : gmap Z (list string))
    : gmap Z (list string) :=
  match m !! fp with
  | Some r => <[fp := r ++ [receiver]]> m
  | None => <[fp := [receiver]]> m
  end.

(** The loop over the alerts of one group. *)
Fixpoint filter_alerts (now : time) (receiver : string) (alerts : list Alert)
    (st : St) (receivers : gmap Z (list string)) : St * gmap Z (list string) * list Alert :=
  match alerts with
  | [] => (st, receivers, [])
  | a :: alerts =>
      let '(st, ok) := alertFilter st a now in
      if negb ok then filter_alerts now receiver alerts st receivers else
      let '(st, receivers, l) :=
        filter_alerts now receiver alerts st
          (add_receiver receiver (Store.alert_Fingerprint a) receivers) in
      (st, receivers, a :: l)
  end.

Definition statuses (m : gmap Z Marker.alertStatus) (alerts : list Alert) : gmap Z AlertStatus :=
  foldl (λ s a, <[Store.alert_Fingerprint a := Marker.Status m (Store.alert_Fingerprint a)]> s)
    ∅ alerts.

(** One group of the snapshot; the address is that of an existing group. *)
Definition visit_group (now : time) (receiver : string) (x : acc) (addr : nat) : acc :=
  match heap (a_d x) !! addr with
  | None => x
  | Some g =>
      let '(st, receivers, filteredAlerts) :=
        filter_alerts now receiver (Store.List_ (g_alerts g)) (a_st x) (a_receivers x) in
      match filteredAlerts with
      | [] => mkAcc st (a_d x) receivers (a_groups x)
      | _ =>
          let '(g', routeLabels) := RouteLabels g in
          mkAcc st (set_heap (<[addr := g']> (heap (a_d x))) (a_d x)) receivers
            (a_groups x ++
             [mkAlertGroup filteredAlerts (g_labels g) routeLabels receiver (GroupKey g)
                (g_routeID g) (statuses (g_marker g) filteredAlerts)])
      end
  end.

(** The loop over the routes. *)
Fixpoint visit_routes (now : time) (idx : nat) (slice : list routeAggrGroups) (x : acc)
    : result groups_error acc :=
  match slice with
  | [] => Ok x
  | rg :: slice =>
      match route_at (a_d x) idx with
      | None => Err NilRoute
      | Some r =>
          if negb (routeFilter r) then visit_routes now (S idx) slice x else
          visit_routes now (S idx) slice
            (foldl (visit_group now (Route.Receiver (Route.Opts r))) x (range (rg_groups rg)).*2)
      end
  end.

Definition sort_alerts (g : AlertGroup) : AlertGroup :=
  mkAlertGroup (merge_sort alert_le (ag_Alerts g)) (ag_Labels g) (ag_RouteLabels g)
    (ag_Receiver g) (ag_GroupKey g) (ag_RouteID g) (ag_AlertStatuses g).

(** [Groups]; [loaded] tells which branch of the [select] is taken. *)
Definition Groups_ (d : Dispatcher) (st : St) (loaded : bool) (now : time)
    : result groups_error (Dispatcher * St * list AlertGroup * gmap Z (list string)) :=
  if negb loaded then Err CtxDone else
  x ← visit_routes now 0 (routeGroupsSlice d) (mkAcc st d ∅ []);
  Ok (a_d x, a_st x, sort_alerts <$> merge_sort group_le (a_groups x),
      merge_sort string_le <$> a_receivers x).
End filters.
End groups.
End Groups.

(** * What the API is shown of the groups

    [Groups] is compared with a definition that looks at every group of every
    route: the groups it returns are exactly those with an alert that passes the
    filter, and the receivers it lists for an alert are those of the returned
    groups that contain it. *)
Import Alert Dispatch DispatchInv DispatchThm Groups.

Module GroupsInv.
Section groups.
Context `{RE : Regexp, MR : MapRange, UP : UnicodePrint, PM : PromModel, FP : Fingerprinter}.
Context `{LS : LabelSetString, RR : RouteLabelRenderer}.

(** ** The reference definition, for a filter without state *)
Section view.
Context (routeFilter : Route.route → bool) (p : Alert → bool).

Definition group_view (receiver : string) (g : aggrGroup) : option AlertGroup :=
  match List.filter p (Store.List_ (g_alerts g)) with
  | [] => None
  | l => Some (mkAlertGroup l (g_labels g) (RouteLabels g).2 receiver (GroupKey g) (g_routeID g)
                 (statuses (g_marker g) l))
  end.

Definition route_views (d : Dispatcher) (idx : nat) (rg : routeAggrGroups) : list AlertGroup :=
  match route_at d idx with
  | Some r =>
      if routeFilter r then
        omap (λ addr, g ← heap d !! addr; group_view (Route.Receiver (Route.Opts r)) g)
          (range (rg_groups rg)).*2
      else []
  | None => []
  end.

Fixpoint views_from (d : Dispatcher) (idx : nat) (slice : list routeAggrGroups) : list AlertGroup :=
  match slice with
  | [] => []
  | rg :: slice => route_views d idx rg ++ views_from d (S idx) slice
  end.

Definition views (d : Dispatcher) : list AlertGroup := views_from d 0 (routeGroupsSlice d).

(** The receivers of an alert: those of the groups that contain it. *)
Definition holders (fp : Z) (g : AlertGroup) : list string :=
  List.filter (λ a, Store.alert_Fingerprint a =? fp) (ag_Alerts g) ≫= λ _, [ag_Receiver g].
Definition receivers_of (gs : list AlertGroup) (fp : Z) : list string := gs ≫= holders fp.

#[global] Instance receivers_of_Permutation : Proper ((≡ₚ) ==> (=) ==> (≡ₚ)) receivers_of.
Proof. intros gs gs' H fp ? <-. unfold receivers_of. by rewrite H. Qed.
End view.

Lemma RouteLabels_again g :
  (RouteLabels (RouteLabels g).1).2 = (RouteLabels g).2 ∧
  RouteLabels (RouteLabels g).1 = ((RouteLabels g).1, (RouteLabels g).2).
Proof.
  assert (H : RouteLabels (RouteLabels g).1 = ((RouteLabels g).1, (RouteLabels g).2));
    [|by rewrite H].
  assert (Hset : ∀ x l, (x = g_routeLabelsGen g) →
    RouteLabels (set_routeLabels (Some (x, l)) g) = (set_routeLabels (Some (x, l)) g, l)).
  { intros x l ->. unfold RouteLabels. cbn. by rewrite Z.eqb_refl. }
  unfold RouteLabels at 2 3 4. destruct (g_routeLabels g) as [[gen l]|] eqn:E; [|by apply Hset].
  destruct (gen =? g_routeLabelsGen g) eqn:Eg; [|by apply Hset].
  unfold RouteLabels. cbn. by rewrite E, Eg.
Qed.

Lemma RouteLabels_fields g : ∃ c, (RouteLabels g).1 = set_routeLabels c g.
Proof.
  unfold RouteLabels. destruct (g_routeLabels g) as [[gen l]|] eqn:E; [|by eexists].
  destruct (gen =? g_routeLabelsGen g); [|by eexists].
  exists (g_routeLabels g). by destruct g.
Qed.

(** A group, or the same with its labels cached. *)
Definition refreshed (g g' : aggrGroup) : Prop := g' = g ∨ g' = (RouteLabels g).1.

Lemma refreshed_view p receiver g g' :
  refreshed g g' → group_view p receiver g' = group_view p receiver g.
Proof.
  intros [->| ->]; [done|]. unfold group_view. rewrite (proj1 (RouteLabels_again g)).
  by destruct (RouteLabels_fields g) as [c ->].
Qed.

Lemma refreshed_step g g' : refreshed g g' → refreshed g (RouteLabels g').1.
Proof.
  intros [->| ->]; [by right|]. right. by rewrite (proj2 (RouteLabels_again g)).
Qed.

(** ** The slots of a dispatcher *)

(** Every slot has a route, and every group in it is an object. *)
Record slotted (d : Dispatcher) : Prop := {
  sl_route : ∀ idx rg, routeGroupsSlice d !! idx = Some rg → is_Some (route_at d idx);
  sl_group : ∀ idx fp addr, Load d idx fp = Some addr → is_Some (heap d !! addr);
}.

(** Nothing changes the routes or the number of slots. *)
Definition frame (d : Dispatcher) : Route.route * nat := (d_route d, length (routeGroupsSlice d)).

Lemma frame_insert_at d addr a now : frame (insert_at d addr a now).1 = frame d.
Proof. unfold insert_at. destruct (heap d !! addr); [|done]. by destruct (insert_ _ _ _). Qed.

Lemma frame_gstep c d p : frame (gstep c d p).1 = frame d.
Proof.
  pose proof (frame_insert_at d) as Hins. unfold frame in *. destruct p; cbn [gstep].
  - by destruct (Load _ _ _).
  - specialize (Hins el (c_alert c) (c_now c)). by destruct (insert_at _ _ _ _).
  - by destruct (_ && _).
  - by destruct (insert_ _ _ _).
  - destruct el; [unfold CompareAndSwap; case_decide|unfold LoadOrStore; destruct (Load _ _ _)];
      cbn; by rewrite ?length_alter.
  - done.
  - cbn. by rewrite length_alter.
  - specialize (Hins el (c_alert c) (c_now c)). by destruct (insert_at _ _ _ _).
  - done.
  - cbn. by destruct (d_state d).
  - done.
Qed.

Lemma frame_maintain_delete idx addr d : frame (maintain_delete idx addr d).1 = frame d.
Proof.
  unfold maintain_delete. destruct (heap d !! addr) as [g|]; [|done]. destruct (destroyed g); [|done].
  unfold CompareAndDelete, frame. case_decide; cbn; by rewrite ?length_alter.
Qed.

Lemma frame_step s s' : step s s' → frame (sys_d s') = frame (sys_d s).
Proof.
  destruct 1 as [ |d cs fs es ds tid c p d' p' _ E| | | | | |d cs fs es1 es2 ds idx addr d' del E
    |d cs fs es ds1 ds2 idx addr]; try done; cbn.
  - pose proof (frame_gstep c d p) as H. by rewrite E in H.
  - pose proof (frame_maintain_delete idx addr d) as H. by rewrite E in H.
  - unfold maintain_count, frame. destruct (heap d !! addr); cbn; by rewrite ?length_alter.
Qed.

Lemma reachable_slotted cr root limit s :
  Route.NewRoute cr None = Some root → rtc step (init root limit) s → slotted (sys_d s).
Proof.
  intros Hnew Hr. pose proof (reachable_inv cr root limit s Hnew Hr) as Hi.
  assert (Hf : frame (sys_d s) = frame (Run_init root limit)).
  { clear Hi Hnew. change (Run_init root limit) with (sys_d (init root limit)).
    induction Hr as [|x y z Hxy _ IH]; [done|]. rewrite IH. by apply frame_step. }
  destruct (Run_init_slice root limit) as [Hlen _]. unfold frame in Hf.
  apply (f_equal snd) in Hf as Hl. apply (f_equal fst) in Hf. cbn [fst snd] in Hl, Hf.
  rewrite Hlen in Hl. split.
  - intros idx rg Hidx%lookup_lt_Some. unfold route_at. rewrite Hf. cbn [Run_init d_route].
    unfold Route.NewRoute in Hnew. apply fmap_Some in Hnew as ([r0 c'] & Hnew & ->).
    apply RouteInv.newRoute_Idx in Hnew as (-> & _ & Hp). cbn [fst] in *.
    assert (Hin : Z.of_nat idx ∈ Route.Idx <$> Route.Walk r0).
    { rewrite Hp. apply elem_of_seqZ. rewrite Hl in Hidx. lia. }
    apply list_elem_of_fmap in Hin as (r & Er & Hin).
    apply fmap_is_Some. apply (list_find_elem_of _ _ r); [done|lia].
  - intros idx fp addr Hload. apply (inv_public _ Hi). by eapply pub_slot.
Qed.

(** ** Groups with a stateful filter that decides [p] *)
Section exact.
Context {St : Type} (routeFilter : Route.route → bool) (now : time).
Context (alertFilter : St → Alert → time → St * bool).
Context (I : St → Prop) (Q : Alert → Prop) (p : Alert → bool).
Hypothesis decides : ∀ st a, I st → Q a →
  I (alertFilter st a now).1 ∧ (alertFilter st a now).2 = p a.

Definition rget (m : gmap Z (list string)) (fp : Z) : list string := default [] (m !! fp).

Lemma add_receiver_get receiver fp fp' m :
  rget (add_receiver receiver fp m) fp' = rget m fp' ++ (if fp =? fp' then [receiver] else []).
Proof.
  unfold rget, add_receiver. destruct (Z.eqb_spec fp fp') as [->|Hne].
  - destruct (m !! fp') as [r|] eqn:E; by rewrite lookup_insert_eq.
  - rewrite app_nil_r. destruct (m !! fp); by rewrite lookup_insert_ne.
Qed.

Lemma filter_alerts_spec receiver alerts : ∀ st m st' m' l,
  I st → Forall Q alerts → filter_alerts alertFilter now receiver alerts st m = (st', m', l) →
  I st' ∧ l = List.filter p alerts ∧
  ∀ fp, rget m' fp =
    rget m fp ++ (List.filter (λ a, Store.alert_Fingerprint a =? fp) l ≫= λ _, [receiver]).
Proof using decides.
  induction alerts as [|a alerts IH]; intros st m st' m' l Hst HQ E; cbn in E.
  { simplify_eq. split_and!; [done..|]. intros fp. cbn. by rewrite app_nil_r. }
  apply Forall_cons_1 in HQ as [Ha HQ]. destruct (decides st a Hst Ha) as [Hi Hp].
  destruct (alertFilter st a now) as [st1 ok] eqn:Ef. cbn in Hi, Hp. subst ok. cbn [List.filter].
  destruct (p a) eqn:Hpa; cbn in E.
  - destruct (filter_alerts _ _ _ alerts st1 _) as [[st2 m2] l2] eqn:Er. simplify_eq.
    destruct (IH _ _ _ _ _ Hi HQ Er) as (Hi' & -> & Hm). split_and!; [done..|].
    intros fp. rewrite Hm, add_receiver_get, <- (assoc_L (++)). f_equal.
    cbn [List.filter]. by destruct (Store.alert_Fingerprint a =? fp).
  - by apply IH in E.
Qed.

Record ainv (d0 : Dispatcher) (x : acc) (gs : list AlertGroup) : Prop := {
  ai_st : I (a_st x);
  ai_groups : a_groups x = gs;
  ai_route : d_route (a_d x) = d_route d0;
  ai_heap : ∀ addr g, heap d0 !! addr = Some g →
    ∃ g', heap (a_d x) !! addr = Some g' ∧ refreshed g g';
  ai_receivers : ∀ fp, rget (a_receivers x) fp = receivers_of gs fp;
}.

Definition all_alerts (d : Dispatcher) : Prop :=
  ∀ addr g, heap d !! addr = Some g → Forall Q (Store.List_ (g_alerts g)).

Lemma refreshed_alerts g g' :
  refreshed g g' → g_alerts g' = g_alerts g.
Proof. intros [->| ->]; [done|]. by destruct (RouteLabels_fields g) as [c ->]. Qed.

Lemma receivers_of_snoc gs g fp : receivers_of (gs ++ [g]) fp = receivers_of gs fp ++ holders fp g.
Proof. unfold receivers_of. rewrite bind_app. cbn. by rewrite app_nil_r. Qed.

Lemma visit_group_spec d0 receiver x gs addr g :
  all_alerts d0 → heap d0 !! addr = Some g → ainv d0 x gs →
  ainv d0 (visit_group alertFilter now receiver x addr)
    (gs ++ option_list (group_view p receiver g)).
Proof using decides.
  intros HQ Hg Hx. destruct (ai_heap _ _ _ Hx _ _ Hg) as (g' & Hg' & Hre).
  unfold visit_group. rewrite Hg'. pose proof (HQ _ _ Hg) as HQg.
  rewrite <- (refreshed_alerts g g') in HQg by done.
  destruct (filter_alerts _ _ _ _ _ _) as [[st1 m1] l] eqn:Ef.
  destruct (filter_alerts_spec _ _ _ _ _ _ _ (ai_st _ _ _ Hx) HQg Ef) as (Hi & -> & Hm).
  rewrite <- (refreshed_view p receiver g g') by done. unfold group_view.
  destruct (List.filter p _) as [|a l] eqn:El; cbn [option_list option_rect].
  - rewrite app_nil_r. destruct Hx. split; [done..|]. intros fp. cbn [a_receivers].
    rewrite Hm. cbn. rewrite app_nil_r. done.
  - destruct (RouteLabels g') as [g1 rl] eqn:Erl.
    split; [done|by rewrite (ai_groups _ _ _ Hx)|apply (ai_route _ _ _ Hx)| |].
    + cbn. intros addr2 g2 Hg2. destruct (decide (addr = addr2)) as [<-|Hne].
      * rewrite lookup_insert_eq. exists g1. split; [done|]. simplify_eq.
        apply refreshed_step in Hre. by rewrite Erl in Hre.
      * rewrite lookup_insert_ne by done. by apply (ai_heap _ _ _ Hx).
    + intros fp. cbn [a_receivers]. rewrite Hm, receivers_of_snoc. f_equal.
      apply (ai_receivers _ _ _ Hx).
Qed.

Lemma visit_groups_spec d0 receiver addrs : ∀ x gs,
  all_alerts d0 → Forall (λ addr, is_Some (heap d0 !! addr)) addrs → ainv d0 x gs →
  ainv d0 (foldl (visit_group alertFilter now receiver) x addrs)
    (gs ++ omap (λ addr, g ← heap d0 !! addr; group_view p receiver g) addrs).
Proof using decides.
  induction addrs as [|addr addrs IH]; intros x gs HQ Hall Hx; [by rewrite app_nil_r|].
  apply Forall_cons_1 in Hall as [[g Hg] Hall].
  pose proof (visit_group_spec d0 receiver x gs addr g HQ Hg Hx) as Hv.
  apply IH in Hv; [|done..]. cbn. rewrite Hg. cbn.
  destruct (group_view p receiver g); cbn in *; [|by rewrite app_nil_r in Hv].
  by rewrite <- (assoc_L (++)) in Hv.
Qed.

Lemma visit_routes_spec d0 slice : ∀ idx x gs,
  all_alerts d0 → ainv d0 x gs →
  (∀ i rg, slice !! i = Some rg → is_Some (route_at d0 (idx + i)) ∧
     Forall (λ addr, is_Some (heap d0 !! addr)) (range (rg_groups rg)).*2) →
  ∃ x', visit_routes routeFilter alertFilter now idx slice x = Ok x' ∧
    ainv d0 x' (gs ++ views_from routeFilter p d0 idx slice).
Proof using decides.
  induction slice as [|rg slice IH]; intros idx x gs HQ Hx Hsl; cbn.
  { exists x. by rewrite app_nil_r. }
  destruct (Hsl O rg eq_refl) as [[r Hr] Haddr]. rewrite Nat.add_0_r in Hr.
  assert (Hr' : route_at (a_d x) idx = Some r).
  { unfold route_at in *. by rewrite (ai_route _ _ _ Hx). }
  rewrite Hr'. unfold route_views. rewrite Hr.
  assert (Hnext : ∀ i rg', slice !! i = Some rg' → is_Some (route_at d0 (S idx + i)) ∧
    Forall (λ addr, is_Some (heap d0 !! addr)) (range (rg_groups rg')).*2).
  { intros i rg' Hi. replace (S idx + i)%nat with (idx + S i)%nat by lia. by apply Hsl. }
  destruct (routeFilter r); cbn [negb].
  - rewrite (assoc_L (++)). apply IH; [done| |done]. by apply visit_groups_spec.
  - by apply IH.
Qed.

(** The result, for clients of [Groups_]. *)
Lemma Groups_spec d st :
  I st → all_alerts d → slotted d →
  ∃ d' st' groups receivers,
    Groups_ routeFilter alertFilter d st true now = Ok (d', st', groups, receivers) ∧
    I st' ∧ groups ≡ₚ sort_alerts <$> views routeFilter p d ∧
    ∀ fp, rget receivers fp ≡ₚ receivers_of groups fp.
Proof using decides.
  intros Hst HQ Hsl. unfold Groups_. cbn [negb].
  destruct (visit_routes_spec d (routeGroupsSlice d) 0 (mkAcc st d ∅ []) []) as (x & -> & Hx).
  - done.
  - split; try done. intros addr g Hg. exists g. split; [done|by left].
  - intros i rg Hi. split; [by eapply (sl_route d Hsl)|].
    apply Forall_forall. intros addr ([fp addr'] & -> & Hin%elem_of_range)%list_elem_of_fmap.
    eapply (sl_group d Hsl i fp). unfold Load. by rewrite Hi.
  - cbn [mbind result_bind]. do 4 eexists. split; [done|]. split; [apply (ai_st _ _ _ Hx)|].
    rewrite (ai_groups _ _ _ Hx). cbn [app]. split; [by rewrite merge_sort_Permutation|].
    intros fp. pose proof (ai_receivers _ _ _ Hx fp) as Hm. cbn [app] in Hm.
    assert (Hsort : ∀ gs, receivers_of (sort_alerts <$> gs) fp ≡ₚ receivers_of gs fp).
    { intros gs. induction gs as [|g gs IH]; [done|]. cbn. apply Permutation_app; [|done]. unfold holders. cbn.
      by rewrite merge_sort_Permutation. }
    rewrite Hsort. unfold rget in *. rewrite lookup_fmap. rewrite merge_sort_Permutation at 1.
    rewrite <- Hm. destruct (a_receivers x !! fp); cbn; [|done]. apply merge_sort_Permutation.
Qed.

(** the groups handed to the API are exactly the aggregation groups of the
    routes that pass the route filter with at least one alert that passes the
    alert filter, each with exactly those alerts, its own labels, current route
    labels, keys and statuses; and the receivers reported for an alert are, with
    multiplicity, those of the returned groups that contain it.  The alert
    filter may keep state, as long as its answers are those of a predicate. *)
Theorem groups_exact d st :
  I st → all_alerts d → slotted d →
  ∃ d' st' groups receivers,
    Groups_ routeFilter alertFilter d st true now = Ok (d', st', groups, receivers) ∧
    I st' ∧ groups ≡ₚ sort_alerts <$> views routeFilter p d ∧
    ∀ fp, rget receivers fp ≡ₚ receivers_of groups fp.
Proof using decides. apply Groups_spec. Qed.
End exact.
End groups.
End GroupsInv.
