(* ===== verification/Calendar.v ===== *)
(** * Calendar dates of an instant (Go's package time)

    The part of the Go standard library that time intervals use: the date and
    clock of an instant in a location, and [time.Date] with its normalisation.
    Days are counted from January 1, year 1, the zero [Time]; the calendar is
    the proleptic Gregorian one.  The zone data of a location comes from the
    system and is a function of the model: [lookup] gives the offset in effect
    at a Unix time and the interval of Unix times in which it is. *)

From stdpp Require Import base list strings.
From S2P Require Import Prelude.

Module Calendar.

Record Location := mkLocation {
  loc_name : string;
  lookup : Z → Z * Z * Z;
}.

Definition UTC : Location := mkLocation "UTC" (λ _, (0, - 2 ^ 63, 2 ^ 63 - 1)).

Definition offset_at (l : Location) (unix : Z) : Z := (lookup l unix).1.1.

(** A [time.Time]: an instant and the location in which it is presented. *)
Record Time := mkTime { instant : time; loc : Location }.

Definition In_ (t : Time) (l : Location) : Time := mkTime (instant t) l.

Definition secondsPerDay : Z := 86400.

(** Seconds since the zero [Time] on the clock of the location. *)
Definition local_seconds (t : Time) : Z :=
  instant t / second + offset_at (loc t) (Unix (instant t)).

Definition local_day (t : Time) : Z := local_seconds t / secondsPerDay.
Definition Hour (t : Time) : Z := local_seconds t mod secondsPerDay / 3600.
Definition Minute (t : Time) : Z := local_seconds t mod 3600 / 60.

(** Sunday is 0; January 1, year 1 was a Monday. *)
Definition Weekday (t : Time) : Z := (local_day t + 1) mod 7.

(** ** Years *)
Definition isLeap (y : Z) : bool :=
  (y mod 4 =? 0) && (negb (y mod 100 =? 0) || (y mod 400 =? 0)).

Definition year_length (y : Z) : Z := if isLeap y then 366 else 365.

(** Days from the zero day to January 1 of year [y]. *)
Definition daysSinceEpoch (y : Z) : Z :=
  let n := y - 1 in 365 * n + n / 4 - n / 100 + n / 400.

(** The year of a day and the day within the year, from 0: whole 400-year
    cycles, centuries, 4-year cycles and years are taken off in turn; the last
    century of a cycle and the last year of four may be one day longer. *)
Definition year_day (d : Z) : Z * Z :=
  let n400 := d / 146097 in let d := d mod 146097 in
  let n100 := Z.min 3 (d / 36524) in let d := d - 36524 * n100 in
  let n4 := d / 1461 in let d := d mod 1461 in
  let n1 := Z.min 3 (d / 365) in let d := d - 365 * n1 in
  (400 * n400 + 100 * n100 + 4 * n4 + n1 + 1, d).

(** ** Months *)
Definition month_lengths (leap : bool) : list Z :=
  [31; if leap then 29 else 28; 31; 30; 31; 30; 31; 31; 30; 31; 30; 31].

Definition days_in (y m : Z) : Z := nth (Z.to_nat (m - 1)) (month_lengths (isLeap y)) 0.

Fixpoint month_loop (ls : list Z) (m d : Z) : Z * Z :=
  match ls with
  | [] => (m, d + 1)
  | l :: ls => if d <? l then (m, d + 1) else month_loop ls (m + 1) (d - l)
  end.

Definition date_of_day (d : Z) : Z * Z * Z :=
  let '(y, yday) := year_day d in
  let '(m, day) := month_loop (month_lengths (isLeap y)) 1 yday in (y, m, day).

Definition Year (t : Time) : Z := (date_of_day (local_day t)).1.1.
Definition Month (t : Time) : Z := (date_of_day (local_day t)).1.2.
Definition Day (t : Time) : Z := (date_of_day (local_day t)).2.

(** ** time.Date *)

(** The day of a date whose month and day may be out of range. *)
Definition day_of_date (y m d : Z) : Z :=
  let y' := y + (m - 1) / 12 in
  let m' := (m - 1) mod 12 in
  daysSinceEpoch y' + foldr Z.add 0 (take (Z.to_nat m') (month_lengths (isLeap y'))) + (d - 1).

(** The offset is first looked up as if the clock were UTC, and again when the
    instant this gives is outside the zone that was found. *)
Definition Date (y m d hour min : Z) (l : Location) : Time :=
  let unix := day_of_date y m d * secondsPerDay + hour * 3600 + min * 60 - unixToInternal in
  let '(offset, start, end_) := lookup l unix in
  let unix :=
    if offset =? 0 then unix else
    let utc := unix - offset in
    let offset := if (utc <? start) || (end_ <=? utc) then offset_at l utc else offset in
    unix - offset in
  mkTime ((unix + unixToInternal) * second) l.

(** ** The calendar is right *)
Lemma year_parts a b c e :
  0 ≤ b ≤ 3 → 0 ≤ c ≤ 24 → 0 ≤ e ≤ 3 →
  let y := 400 * a + 100 * b + 4 * c + e + 1 in
  daysSinceEpoch y = 146097 * a + 36524 * b + 1461 * c + 365 * e ∧
  isLeap y = (e =? 3) && (negb (c =? 24) || (b =? 3)).
Proof.
  intros Hb Hc He y. split.
  - unfold daysSinceEpoch. replace (y - 1) with (400 * a + 100 * b + 4 * c + e) by lia.
    Z.to_euclidean_division_equations. lia.
  - unfold isLeap.
    assert (y mod 4 = (e + 1) mod 4) as -> by (Z.to_euclidean_division_equations; lia).
    assert (y mod 100 = (4 * c + e + 1) mod 100) as -> by (Z.to_euclidean_division_equations; lia).
    assert (y mod 400 = (100 * b + 4 * c + e + 1) mod 400) as ->
      by (Z.to_euclidean_division_equations; lia).
    apply eq_bool_prop_intro. rewrite !Is_true_true, !andb_true_iff, !orb_true_iff, !negb_true_iff,
      !Z.eqb_eq, !Z.eqb_neq. Z.to_euclidean_division_equations. lia.
Qed.

Lemma year_length_bounds y : 365 ≤ year_length y ≤ 366.
Proof. unfold year_length. destruct (isLeap y); lia. Qed.

(** [year_day] takes a day apart into a year and a day of that year. *)
Lemma year_day_spec d :
  let '(y, yd) := year_day d in d = daysSinceEpoch y + yd ∧ 0 ≤ yd < year_length y.
Proof.
  unfold year_day.
  set (a := d / 146097). set (r4 := d mod 146097).
  assert (Hr4 : d = 146097 * a + r4 ∧ 0 ≤ r4 < 146097)
    by (subst a r4; Z.to_euclidean_division_equations; lia).
  set (b := Z.min 3 (r4 / 36524)). set (r1 := r4 - 36524 * b).
  assert (Hb : 0 ≤ b ≤ 3 ∧ 0 ≤ r1 < 36525 ∧ (r1 = 36524 → b = 3))
    by (subst b r1; Z.to_euclidean_division_equations; lia).
  set (c := r1 / 1461). set (r0 := r1 mod 1461).
  assert (Hc : r1 = 1461 * c + r0 ∧ 0 ≤ c ≤ 24 ∧ 0 ≤ r0 < 1461)
    by (subst c r0; Z.to_euclidean_division_equations; lia).
  set (e := Z.min 3 (r0 / 365)). set (yd := r0 - 365 * e).
  assert (He : 0 ≤ e ≤ 3 ∧ 0 ≤ yd < 366 ∧ (yd = 365 → e = 3))
    by (subst e yd; Z.to_euclidean_division_equations; lia).
  destruct (year_parts a b c e) as [-> Hleap]; [lia..|].
  split; [subst yd r1; lia|]. unfold year_length. rewrite Hleap.
  destruct (e =? 3) eqn:E3, (c =? 24) eqn:Ec, (b =? 3) eqn:Eb; cbn; to_props; subst yd; lia.
Qed.

Lemma daysSinceEpoch_S y : daysSinceEpoch (y + 1) = daysSinceEpoch y + year_length y.
Proof.
  set (n := y - 1).
  assert (Hy : y = 400 * (n / 400) + 100 * (n mod 400 / 100) + 4 * (n mod 100 / 4) + n mod 4 + 1)
    by (subst n; Z.to_euclidean_division_equations; lia).
  assert (Hb : 0 ≤ n mod 400 / 100 ≤ 3) by (Z.to_euclidean_division_equations; lia).
  assert (Hc : 0 ≤ n mod 100 / 4 ≤ 24) by (Z.to_euclidean_division_equations; lia).
  assert (He : 0 ≤ n mod 4 ≤ 3) by (Z.to_euclidean_division_equations; lia).
  clearbody n. revert Hy Hb Hc He.
  generalize (n / 400) (n mod 400 / 100) (n mod 100 / 4) (n mod 4). intros a b c e -> Hb Hc He.
  destruct (year_parts a b c e) as [-> Hl]; [lia..|]. unfold year_length. rewrite Hl.
  unfold daysSinceEpoch.
  replace (400 * a + 100 * b + 4 * c + e + 1 + 1 - 1) with (400 * a + 100 * b + 4 * c + e + 1) by lia.
  destruct (e =? 3) eqn:E3, (c =? 24) eqn:Ec, (b =? 3) eqn:Eb; cbn; to_props;
    Z.to_euclidean_division_equations; lia.
Qed.

Lemma daysSinceEpoch_lt y z : y < z → daysSinceEpoch y + year_length y ≤ daysSinceEpoch z.
Proof.
  intros Hlt. rewrite <-daysSinceEpoch_S. replace z with (y + 1 + (z - y - 1)) by lia.
  assert (Hk : 0 ≤ z - y - 1) by lia. revert Hk.
  generalize (z - y - 1) as k. apply natlike_ind; [rewrite Z.add_0_r; lia|].
  intros k Hk IH. replace (y + 1 + Z.succ k) with (y + 1 + k + 1) by lia.
  rewrite (daysSinceEpoch_S (y + 1 + k)). pose proof (year_length_bounds (y + 1 + k)). lia.
Qed.

Lemma year_day_unique y yd :
  0 ≤ yd < year_length y → year_day (daysSinceEpoch y + yd) = (y, yd).
Proof.
  intros Hyd. pose proof (year_day_spec (daysSinceEpoch y + yd)) as H.
  destruct (year_day _) as [y' yd']. destruct H as [H1 H2].
  destruct (Z.lt_trichotomy y y') as [Hlt|[->|Hlt]].
  - pose proof (daysSinceEpoch_lt y y' Hlt). lia.
  - f_equal. lia.
  - pose proof (daysSinceEpoch_lt y' y Hlt). lia.
Qed.

Lemma month_loop_spec ls m0 d k (l : Z) :
  Forall (Z.le 0) ls → ls !! k = Some l → 0 ≤ d < l →
  month_loop ls m0 (foldr Z.add 0 (take k ls) + d) = (m0 + Z.of_nat k, d + 1).
Proof.
  revert m0 k. induction ls as [|x ls IH]; intros m0 k Hp Hk Hd; [done|].
  apply Forall_cons in Hp as [Hx Hp]. destruct k as [|k]; cbn in *.
  - simplify_eq. destruct (Z.ltb_spec (0 + d) l); [|lia]. f_equal; lia.
  - assert (0 ≤ foldr Z.add 0 (take k ls)).
    { clear -Hp. revert k. induction Hp; intros [|k]; cbn; try lia. specialize (IHHp k). lia. }
    destruct (Z.ltb_spec (x + foldr Z.add 0 (take k ls) + d) x); [lia|].
    replace (x + foldr Z.add 0 (take k ls) + d - x) with (foldr Z.add 0 (take k ls) + d) by lia.
    rewrite IH by done. f_equal. lia.
Qed.

Lemma month_lengths_pos leap : Forall (Z.le 0) (month_lengths leap).
Proof. destruct leap; repeat constructor; lia. Qed.

Lemma month_lengths_sum y : foldr Z.add 0 (month_lengths (isLeap y)) = year_length y.
Proof. unfold year_length. by destruct (isLeap y). Qed.

Lemma days_in_lookup y m :
  1 ≤ m ≤ 12 → month_lengths (isLeap y) !! Z.to_nat (m - 1) = Some (days_in y m).
Proof.
  intros Hm. unfold days_in.
  destruct (month_lengths (isLeap y) !! Z.to_nat (m - 1)) as [l|] eqn:E.
  - by rewrite (nth_lookup_Some _ _ _ _ E).
  - apply lookup_ge_None in E. cbn in E. lia.
Qed.

Lemma take_month_sum y k l :
  month_lengths (isLeap y) !! k = Some l →
  0 ≤ foldr Z.add 0 (take k (month_lengths (isLeap y))) ∧
  foldr Z.add 0 (take k (month_lengths (isLeap y))) + l ≤ year_length y.
Proof.
  intros Hk. rewrite <-month_lengths_sum. revert k Hk. generalize (isLeap y) as b.
  intros b k Hk. do 12 (destruct k as [|k]; [destruct b; cbn in *; simplify_eq; lia|]). done.
Qed.

(** Every valid date is the date of its day. *)
Lemma date_of_day_of_date y m d :
  1 ≤ m ≤ 12 → 1 ≤ d ≤ days_in y m → date_of_day (day_of_date y m d) = (y, m, d).
Proof.
  intros Hm Hd. unfold date_of_day, day_of_date.
  rewrite Z.div_small, Z.mod_small, Z.add_0_r by lia.
  pose proof (days_in_lookup y m Hm) as Hl. pose proof (take_month_sum y _ _ Hl) as Hs.
  rewrite <-Z.add_assoc, year_day_unique by lia.
  rewrite (month_loop_spec _ _ _ _ (days_in y m)); [|apply month_lengths_pos|done|lia].
  f_equal; [f_equal|]; lia.
Qed.

Lemma month_loop_valid ls m0 d :
  0 ≤ d < foldr Z.add 0 ls →
  ∃ k l, ls !! k = Some l ∧ (month_loop ls m0 d).1 = m0 + Z.of_nat k ∧
    1 ≤ (month_loop ls m0 d).2 ≤ l ∧
    d = foldr Z.add 0 (take k ls) + ((month_loop ls m0 d).2 - 1).
Proof.
  revert m0 d. induction ls as [|x ls IH]; intros m0 d Hd; cbn in *; [lia|].
  destruct (Z.ltb_spec d x) as [Hlt|Hge].
  - exists 0%nat, x. cbn. split_and!; [done|lia..].
  - destruct (IH (m0 + 1) (d - x)) as (k & l & Hk & -> & Hr & Hs); [lia|].
    exists (S k), l. cbn. split_and!; [done|lia..].
Qed.

(** Every day has a valid date, and the date determines the day. *)
Lemma date_of_day_valid n :
  let '(y, m, d) := date_of_day n in
  1 ≤ m ≤ 12 ∧ 1 ≤ d ≤ days_in y m ∧ day_of_date y m d = n.
Proof.
  unfold date_of_day. pose proof (year_day_spec n) as Hy.
  destruct (year_day n) as [y yd]. destruct Hy as [Hn Hyd]. rewrite <-month_lengths_sum in Hyd.
  destruct (month_loop_valid _ 1 yd Hyd) as (k & l & Hk & Hm & Hd & Hs).
  destruct (month_loop _ 1 yd) as [m d]. cbn in Hm, Hd, Hs.
  pose proof (lookup_lt_Some _ _ _ Hk) as Hlt. cbn in Hlt.
  assert (Hkm : Z.to_nat (m - 1) = k) by lia. split_and!; [lia..| |].
  - unfold days_in. rewrite Hkm, (nth_lookup_Some _ _ _ _ Hk). lia.
  - unfold day_of_date. rewrite Z.div_small, Z.mod_small, Hkm, Z.add_0_r by lia. lia.
Qed.

(** Day 0 of the next month is the last day of the month. *)
Lemma day_before_month y m :
  1 ≤ m ≤ 12 → day_of_date y (m + 1) 0 = day_of_date y m (days_in y m).
Proof.
  intros Hm. destruct (decide (m = 12)) as [->|].
  - unfold day_of_date, days_in. change ((12 + 1 - 1) / 12) with 1.
    change ((12 - 1) / 12) with 0. change (Z.to_nat ((12 + 1 - 1) mod 12)) with 0%nat.
    change (Z.to_nat ((12 - 1) mod 12)) with 11%nat. change (Z.to_nat (12 - 1)) with 11%nat.
    rewrite daysSinceEpoch_S, <-month_lengths_sum. replace (y + 0) with y by lia.
    generalize (daysSinceEpoch y). intros n. destruct (isLeap y); cbn; lia.
  - unfold day_of_date. rewrite !Z.div_small, !Z.mod_small, !Z.add_0_r by lia.
    pose proof (days_in_lookup y m Hm) as Hl.
    replace (Z.to_nat (m + 1 - 1)) with (S (Z.to_nat (m - 1))) by lia.
    rewrite (take_S_r _ _ _ Hl), foldr_app. cbn.
    assert (Hf : ∀ ls a, foldr Z.add a ls = foldr Z.add 0 ls + a)
      by (intros ls a; induction ls; cbn; lia).
    rewrite (Hf _ (_ + 0)). lia.
Qed.
End Calendar.
