(* ===== verification/TimeInterval.v ===== *)
(** * Time intervals (timeinterval/timeinterval.go)

    Muting and active times of a route: ranges of minutes, weekdays, days of the
    month, months and years with their text forms, the test whether an instant
    is contained, and the [Intervener], which is the [TimeMuter] of the
    notification pipeline.  What the YAML decoder hands to [UnmarshalYAML] is
    the argument, [None] when it reports an error itself. *)

From Stdlib Require Import Ascii String.
From stdpp Require Import base gmap strings list.
From S2P Require Import Prelude Utf8 Strconv Calendar.

Import Strconv Calendar.

Module TimeInterval.

(** Half-open, in minutes of the day. *)
Record TimeRange := mkTimeRange { StartMinute : Z; EndMinute : Z }.

(** The ranges of weekdays, days of the month, months and years all embed it. *)
Record InclusiveRange := mkRange { Begin : Z; End_ : Z }.

Record yamlTimeRange := mkYamlTimeRange { StartTime : string; EndTime : string }.

(** A nil slice is [None]: the field was not given. *)
Record TimeInterval := mkTimeInterval {
  Times : option (list TimeRange);
  Weekdays : option (list InclusiveRange);
  DaysOfMonth : option (list InclusiveRange);
  Months : option (list InclusiveRange);
  Years : option (list InclusiveRange);
  Loc : option Location;
}.

Inductive error :=
| ErrYAML
| ErrAtoi (s : string)
| ErrNotWeekday (s : string)
| ErrNotMonth (s : string)
| ErrFormat (s : string)
| ErrOrder (r : InclusiveRange)
| ErrOutOfRange (r : InclusiveRange)
| ErrNegativeStart
| ErrTimesMissing
| ErrTimeFormat (s : string)
| ErrTimeOrder
| ErrNoName (n : Z).

(** ** Members of ranges *)
Definition daysOfWeek : gmap string Z := list_to_map
  [("sunday", 0); ("monday", 1); ("tuesday", 2); ("wednesday", 3); ("thursday", 4);
   ("friday", 5); ("saturday", 6)]%string.

Definition daysOfWeekInv : gmap Z string := list_to_map
  [(0, "sunday"); (1, "monday"); (2, "tuesday"); (3, "wednesday"); (4, "thursday");
   (5, "friday"); (6, "saturday")]%string.

Definition months : gmap string Z := list_to_map
  [("january", 1); ("february", 2); ("march", 3); ("april", 4); ("may", 5); ("june", 6);
   ("july", 7); ("august", 8); ("september", 9); ("october", 10); ("november", 11);
   ("december", 12)]%string.

Definition memberFromString (in_ : string) : result error Z :=
  match Atoi in_ with Some n => Ok n | None => Err (ErrAtoi in_) end.

Definition weekday_memberFromString (in_ : string) : result error Z :=
  match daysOfWeek !! in_ with Some n => Ok n | None => Err (ErrNotWeekday in_) end.

Definition month_memberFromString (in_ : string) : result error Z :=
  match months !! in_ with
  | Some n => Ok n
  | None => match Atoi in_ with Some n => Ok n | None => Err (ErrNotMonth in_) end
  end.

Section parse.
Context `{UL : UnicodeLower}.

Definition colon : Z := 58.

Definition stringableRangeFromString (member : string → result error Z) (in_ : string)
    : result error InclusiveRange :=
  let in_ := ToLower in_ in
  if existsb (Z.eqb colon) (bytes in_) then
    match Split in_ colon with
    | [c0; c1] => start ← member c0; end_ ← member c1; Ok (mkRange start end_)
    | _ => Err (ErrFormat in_)
    end
  else val ← member in_; Ok (mkRange val val).

Definition weekday_UnmarshalYAML (str : option string) : result error InclusiveRange :=
  match str with
  | None => Err ErrYAML
  | Some str =>
      r ← stringableRangeFromString weekday_memberFromString str;
      if End_ r <? Begin r then Err (ErrOrder r)
      else if (Begin r <? 0) || (6 <? Begin r) then Err (ErrOutOfRange r)
      else if (End_ r <? 0) || (6 <? End_ r) then Err (ErrOutOfRange r)
      else Ok r
  end.

Definition day_UnmarshalYAML (str : option string) : result error InclusiveRange :=
  match str with
  | None => Err ErrYAML
  | Some str =>
      r ← stringableRangeFromString memberFromString str;
      if (Begin r =? 0) || (Begin r <? -31) || (31 <? Begin r) then Err (ErrOutOfRange r)
      else if (End_ r =? 0) || (End_ r <? -31) || (31 <? End_ r) then Err (ErrOutOfRange r)
      else if (Begin r <? 0) && (0 <? End_ r) then Err ErrNegativeStart
      else
        let checkBegin := if Begin r <? 0 then 28 + Begin r else Begin r in
        let checkEnd := if End_ r <? 0 then 28 + End_ r else End_ r in
        if checkEnd <? checkBegin then Err (ErrOrder r) else Ok r
  end.

Definition month_UnmarshalYAML (str : option string) : result error InclusiveRange :=
  match str with
  | None => Err ErrYAML
  | Some str =>
      r ← stringableRangeFromString month_memberFromString str;
      if End_ r <? Begin r then Err (ErrOrder r) else Ok r
  end.

Definition year_UnmarshalYAML (str : option string) : result error InclusiveRange :=
  match str with
  | None => Err ErrYAML
  | Some str =>
      r ← stringableRangeFromString memberFromString str;
      if End_ r <? Begin r then Err (ErrOrder r) else Ok r
  end.
End parse.

(** [validTimeRE]: hours 00 to 23 with minutes 00 to 59, or 24:00. *)
Definition validTime (bs : list Z) : bool :=
  match bs with
  | [h1; h0; c; m1; m0] =>
      ((between 48 49 h1 && is_digit h0 || (h1 =? 50) && between 48 51 h0) &&
       (c =? colon) && between 48 53 m1 && is_digit m0) ||
      bool_decide (bs = [50; 52; 58; 48; 48])
  | _ => false
  end.

Definition parseTime (in_ : string) : result error Z :=
  if negb (validTime (bytes in_)) then Err (ErrTimeFormat in_) else
  match Split in_ colon with
  | [c0; c1] =>
      hours ← memberFromString c0;
      minutes ← memberFromString c1;
      if (hours <? 0) || (24 <? hours) || (minutes <? 0) || (60 <? minutes)
      then Err (ErrTimeFormat in_) else Ok (hours * 60 + minutes)
  | _ => Err (ErrTimeFormat in_)
  end.

Definition time_UnmarshalYAML (y : option yamlTimeRange) : result error TimeRange :=
  match y with
  | None => Err ErrYAML
  | Some y =>
      if bool_decide (EndTime y = ""%string) || bool_decide (StartTime y = ""%string)
      then Err ErrTimesMissing else
      start ← parseTime (StartTime y);
      end_ ← parseTime (EndTime y);
      if end_ <=? start then Err ErrTimeOrder else Ok (mkTimeRange start end_)
  end.

(** ** Text forms *)
Definition weekday_MarshalText (r : InclusiveRange) : result error string :=
  match daysOfWeekInv !! Begin r with
  | None => Err (ErrNoName (Begin r))
  | Some beginStr =>
      if Begin r =? End_ r then Ok beginStr else
      match daysOfWeekInv !! End_ r with
      | None => Err (ErrNoName (End_ r))
      | Some endStr => Ok (beginStr +:+ ":" +:+ endStr)
      end
  end.

Definition MarshalText (r : InclusiveRange) : string :=
  if Begin r =? End_ r then Itoa (Begin r)
  else of_bytes (Itoa_bytes (Begin r) ++ colon :: Itoa_bytes (End_ r)).

Definition time_MarshalYAML (tr : TimeRange) : yamlTimeRange :=
  let clock m := of_bytes (fmt02_bytes (Z.quot m 60) ++ colon :: fmt02_bytes (Z.rem m 60)) in
  mkYamlTimeRange (clock (StartMinute tr)) (clock (EndMinute tr)).

(** ** Containment *)
Definition daysInMonth (t : Time) : Z := Day (Date (Year t) (Month t + 1) 0 12 0 (loc t)).

Definition clamp (n min max : Z) : Z :=
  if n <=? min then min else if max <=? n then max else n.

Definition contains_minute (t : Time) (r : TimeRange) : bool :=
  (StartMinute r <=? Hour t * 60 + Minute t) && (Hour t * 60 + Minute t <? EndMinute r).

Definition contains_day (t : Time) (r : InclusiveRange) : bool :=
  let daysInMonth := daysInMonth t in
  let begin := if Begin r <? 0 then daysInMonth + Begin r + 1 else Begin r in
  let end_ := if End_ r <? 0 then daysInMonth + End_ r + 1 else End_ r in
  if daysInMonth <? begin then false else
  let begin := clamp begin (-1 * daysInMonth) daysInMonth in
  let end_ := clamp end_ (-1 * daysInMonth) daysInMonth in
  (begin <=? Day t) && (Day t <=? end_).

Definition contains (n : Z) (r : InclusiveRange) : bool := (Begin r <=? n) && (n <=? End_ r).

(** One field of the interval: satisfied when absent or by one of its ranges. *)
Definition field {R} (rs : option (list R)) (f : R → bool) : bool :=
  match rs with None => true | Some rs => existsb f rs end.

Definition ContainsTime (tp : TimeInterval) (t : Time) : bool :=
  let t := match Loc tp with Some l => In_ t l | None => t end in
  if negb (field (Times tp) (contains_minute t)) then false
  else if negb (field (DaysOfMonth tp) (contains_day t)) then false
  else if negb (field (Months tp) (contains (Month t))) then false
  else if negb (field (Weekdays tp) (contains (Weekday t))) then false
  else field (Years tp) (contains (Year t)).

(** ** The intervener *)
Definition Intervener : Type := gmap string (list TimeInterval).

Fixpoint mutes_loop (i : Intervener) (names : list string) (now : time) (in_ : list string)
    : option (list string) :=
  match names with
  | [] => Some in_
  | name :: names =>
      match i !! name with
      | None => None
      | Some interval =>
          mutes_loop i names now
            (in_ ++ ((λ _, name) <$> List.filter (λ ti, ContainsTime ti (mkTime now UTC)) interval))
      end
  end.

(** [None] when a name is unknown. *)
Definition Mutes (i : Intervener) (names : list string) (now : time)
    : option (bool * list string) :=
  match mutes_loop i names now [] with
  | None => None
  | Some in_ => Some ((0 <? length in_)%nat, in_)
  end.
End TimeInterval.
