(* ===== verification/TimeIntervalInv.v ===== *)
(** * Properties of time intervals

    The test of an instant against a time interval agrees with the calendar,
    the text forms are read back, and the intervener answers as the pipeline
    expects. *)

From Stdlib Require Import Ascii String.
From stdpp Require Import base gmap strings list.
From S2P Require Import Prelude Utf8 Labels Silence Alert Nflog Notify NotifyInv Strconv Calendar.
From S2P Require Import TimeInterval.

Import Strconv Calendar TimeInterval.

Module TimeIntervalInv.

(** ** Days of the month *)

(** A location whose offset never moves by half a day (clock changes do not;
    a country that changes the side of the date line does). *)
Definition steady (l : Location) : Prop :=
  ∀ u v, Z.abs (offset_at l u - offset_at l v) < 12 * 3600.

(** The calendar date of an instant in its location. *)
Definition on_date (t : Time) (y m d : Z) : Prop :=
  1 ≤ m ≤ 12 ∧ 1 ≤ d ≤ days_in y m ∧ day_of_date y m d = local_day t.

Lemma on_date_fields t y m d : on_date t y m d → Year t = y ∧ Month t = m ∧ Day t = d.
Proof.
  intros (Hm & Hd & Hday). unfold Year, Month, Day.
  by rewrite <-Hday, date_of_day_of_date.
Qed.

Lemma Unix_of_seconds u : Unix ((u + unixToInternal) * second) = u.
Proof. unfold Unix. rewrite Z.div_mul by done. lia. Qed.

(** Noon of a day, made by [Date], is in that day. *)
Lemma Date_noon_day y m d l : steady l → local_day (Date y m d 12 0 l) = day_of_date y m d.
Proof.
  intros Hl. set (D := day_of_date y m d).
  assert (Hu : ∃ u, Date y m d 12 0 l =
    mkTime ((D * secondsPerDay + 43200 - unixToInternal - offset_at l u + unixToInternal) * second) l).
  { unfold Date. fold D. set (x := D * secondsPerDay + 12 * 3600 + 0 * 60 - unixToInternal).
    assert (Hx : x = D * secondsPerDay + 43200 - unixToInternal) by (subst x; lia).
    destruct (lookup l x) as [[o s] e] eqn:E.
    assert (Ho : offset_at l x = o) by (unfold offset_at; by rewrite E).
    destruct (Z.eqb_spec o 0); [|destruct (_ || _)].
    - exists x. f_equal. rewrite Ho. lia.
    - exists (x - o). f_equal. lia.
    - exists x. f_equal. rewrite Ho. lia. }
  destruct Hu as [u ->].
  unfold local_day, local_seconds. cbn [instant loc].
  rewrite Unix_of_seconds, Z.div_mul by done.
  set (w := D * secondsPerDay + 43200 - unixToInternal - offset_at l u).
  pose proof (Hl w u) as Hd. unfold secondsPerDay in *.
  replace (w + unixToInternal + offset_at l w)
    with ((43200 + (offset_at l w - offset_at l u)) + D * 86400) by lia.
  rewrite Z.div_add, Z.div_small by lia. lia.
Qed.

Lemma daysInMonth_spec t y m d : steady (loc t) → on_date t y m d → daysInMonth t = days_in y m.
Proof.
  intros Hl Ht. destruct (on_date_fields _ _ _ _ Ht) as (Hy & Hm & _).
  destruct Ht as (Hm1 & Hd & _). unfold daysInMonth. rewrite Hy, Hm.
  apply (on_date_fields _ y m (days_in y m)). split_and!; [lia..|].
  by rewrite Date_noon_day, day_before_month.
Qed.

(** Day [d] of a month of [n] days, counted from the end when the bound is
    negative: the last day is -1. *)
Definition counted (bound d n : Z) : Z := if bound <? 0 then d - n - 1 else d.

Definition in_days (r : InclusiveRange) (d n : Z) : Prop :=
  Begin r ≤ counted (Begin r) d n ∧ counted (End_ r) d n ≤ End_ r.

(** Clamping to the boundaries of the month does not change the days. *)
Lemma contains_day_spec t y m d r :
  steady (loc t) → on_date t y m d →
  contains_day t r = true ↔ in_days r d (days_in y m).
Proof.
  intros Hl Ht. unfold contains_day. rewrite (daysInMonth_spec _ _ _ _ Hl Ht).
  destruct (on_date_fields _ _ _ _ Ht) as (_ & _ & ->). destruct Ht as (_ & Hd & _).
  unfold in_days, counted, clamp. set (n := days_in y m) in *. clearbody n.
  split; intros H; go_cases; split_and?; to_props; try lia; try done;
    try (apply andb_true_iff; rewrite !Z.leb_le; lia).
Qed.

Lemma field_spec {R} (rs : option (list R)) f :
  field rs f = true ↔ ∀ l, rs = Some l → ∃ r, r ∈ l ∧ f r = true.
Proof.
  destruct rs as [l|]; cbn; [|done]. rewrite existsb_exists. split.
  - intros (r & Hr%list_elem_of_In & Hf) ? [= <-]. eauto.
  - intros H. destruct (H l eq_refl) as (r & Hr%list_elem_of_In & Hf). eauto.
Qed.

Lemma contains_spec n r : contains n r = true ↔ Begin r ≤ n ≤ End_ r.
Proof. unfold contains. by rewrite andb_true_iff, !Z.leb_le. Qed.

(** What the documentation says of a time interval, for an instant that falls
    on a date, a weekday and a minute of the day. *)
Definition satisfies (tp : TimeInterval) (y m d wd min : Z) : Prop :=
  (∀ l, Times tp = Some l → ∃ r, r ∈ l ∧ StartMinute r ≤ min < EndMinute r) ∧
  (∀ l, DaysOfMonth tp = Some l → ∃ r, r ∈ l ∧ in_days r d (days_in y m)) ∧
  (∀ l, Months tp = Some l → ∃ r, r ∈ l ∧ Begin r ≤ m ≤ End_ r) ∧
  (∀ l, Weekdays tp = Some l → ∃ r, r ∈ l ∧ Begin r ≤ wd ≤ End_ r) ∧
  (∀ l, Years tp = Some l → ∃ r, r ∈ l ∧ Begin r ≤ y ≤ End_ r).

Lemma ContainsTime_spec tp t y m d :
  let t' := match Loc tp with Some l => In_ t l | None => t end in
  steady (loc t') → on_date t' y m d →
  ContainsTime tp t = true ↔ satisfies tp y m d (Weekday t') (Hour t' * 60 + Minute t').
Proof.
  cbn zeta. unfold ContainsTime. set (t' := match Loc tp with Some l => In_ t l | None => t end).
  clearbody t'. intros Hl Ht. destruct (on_date_fields _ _ _ _ Ht) as (Hy & Hm & _).
  unfold satisfies. setoid_rewrite <-(contains_day_spec t' y m d) at 1; [|done..].
  setoid_rewrite <-contains_spec. rewrite <-Hy, <-Hm.
  assert (Hmin : ∀ r, contains_minute t' r = true ↔
    StartMinute r ≤ Hour t' * 60 + Minute t' < EndMinute r)
    by (intros r; unfold contains_minute; by rewrite andb_true_iff, Z.leb_le, Z.ltb_lt).
  setoid_rewrite <-Hmin. rewrite <-!field_spec.
  repeat match goal with |- context [field ?a ?b] => destruct (field a b) end; cbn; naive_solver.
Qed.
(** C24: a time interval contains an instant exactly when, in the interval's own
    location, the minute, the day of the month, the month, the weekday and the
    year of the instant each satisfy one of the ranges given for them, where
    negative days count from the end of the month: clamping to the month and
    the computation of the month's length are right for every date of the
    calendar (in a location whose offset does not jump by half a day). *)
Theorem contains_time_exact tp t y m d :
  let t' := match Loc tp with Some l => In_ t l | None => t end in
  steady (loc t') → on_date t' y m d →
  ContainsTime tp t = true ↔ satisfies tp y m d (Weekday t') (Hour t' * 60 + Minute t').
Proof. apply ContainsTime_spec. Qed.

(** ** The intervener *)
Lemma mutes_loop_spec i names now : ∀ acc,
  match mutes_loop i names now acc with
  | None => ∃ name, name ∈ names ∧ i !! name = None
  | Some in_ =>
      (∀ name, name ∈ names → i !! name ≠ None) ∧
      ∀ name, name ∈ in_ ↔ name ∈ acc ∨ (name ∈ names ∧ ∃ tis ti,
        i !! name = Some tis ∧ ti ∈ tis ∧ ContainsTime ti (mkTime now UTC) = true)
  end.
Proof.
  induction names as [|n names IH]; intros acc; cbn.
  - split; [by intros ? ?%elem_of_nil|]. intros name. rewrite elem_of_nil. naive_solver.
  - destruct (i !! n) as [tis|] eqn:En; [|exists n; split; [by left|done]].
    specialize (IH (acc ++ ((λ _, n) <$> List.filter (λ ti, ContainsTime ti (mkTime now UTC)) tis))).
    destruct (mutes_loop i names now _) as [in_|].
    + destruct IH as [Hk Hin]. split.
      { intros name [->|]%elem_of_cons; [by rewrite En|by apply Hk]. }
      intros name. rewrite Hin, elem_of_app, list_elem_of_fmap, elem_of_cons.
      setoid_rewrite list_elem_of_In. setoid_rewrite filter_In. setoid_rewrite <-list_elem_of_In.
      naive_solver.
    + destruct IH as (name & Hn & Hi). exists name. split; [by right|done].
Qed.

(** the intervener reports an error exactly when some interval name is unknown,
    and otherwise answers with the names, among those asked for, that have an
    interval containing the instant; it mutes exactly when there is one. *)
Theorem intervener_exact i names now :
  match Mutes i names now with
  | None => ∃ name, name ∈ names ∧ i !! name = None
  | Some (muted, by_) =>
      (∀ name, name ∈ names → i !! name ≠ None) ∧
      (muted = true ↔ by_ ≠ []) ∧
      ∀ name, name ∈ by_ ↔ name ∈ names ∧ ∃ tis ti,
        i !! name = Some tis ∧ ti ∈ tis ∧ ContainsTime ti (mkTime now UTC) = true
  end.
Proof.
  unfold Mutes. pose proof (mutes_loop_spec i names now []) as H.
  destruct (mutes_loop i names now []) as [in_|]; [|done]. destruct H as [Hk Hin]. split_and!.
  - done.
  - destruct in_; cbn; naive_solver.
  - intros name. rewrite Hin, elem_of_nil. naive_solver.
Qed.

(** ** Text forms *)
Section text.
Context `{UL : UnicodeLower}.

Lemma Itoa_bytes_is_byte n : Forall is_byte (Itoa_bytes n).
Proof. eapply Forall_impl; [apply Itoa_bytes_ascii|]. unfold is_byte. cbn. lia. Qed.

Lemma colon_Itoa n : colon ∉ Itoa_bytes n.
Proof.
  intros Hin. pose proof (Itoa_bytes_ascii n) as Ha. rewrite Forall_forall in Ha.
  destruct (Ha _ Hin). unfold colon in *. lia.
Qed.

Lemma existsb_colon bs : existsb (Z.eqb colon) bs = bool_decide (colon ∈ bs).
Proof.
  apply eq_bool_prop_intro. rewrite Is_true_true, bool_decide_spec, existsb_exists. split.
  - intros (x & Hx & ->%Z.eqb_eq). by apply list_elem_of_In.
  - intros Hin. exists colon. split; [by apply list_elem_of_In|done].
Qed.

(** A range in its numeric text form is read back by every numeric kind. *)
Lemma stringable_MarshalText member r :
  (∀ n, in_int64 n → member (Itoa n) = Ok n) → in_int64 (Begin r) → in_int64 (End_ r) →
  stringableRangeFromString member (MarshalText r) = Ok r.
Proof.
  intros Hmem Hb He. unfold stringableRangeFromString, MarshalText.
  assert (Hlow : ∀ n, Forall (λ b, 0 ≤ b < 128 ∧ ¬ 65 ≤ b ≤ 90) (Itoa_bytes n))
    by (intros n; eapply Forall_impl; [apply Itoa_bytes_ascii|]; cbn; lia).
  destruct (Z.eqb_spec (Begin r) (End_ r)) as [E|E].
  - unfold Itoa. rewrite ToLower_id by done.
    rewrite bytes_of_bytes, existsb_colon, bool_decide_eq_false_2
      by (apply Itoa_bytes_is_byte || apply colon_Itoa).
    fold (Itoa (Begin r)). rewrite Hmem by done. cbn. destruct r; cbn in *; congruence.
  - rewrite ToLower_id by (apply Forall_app; split; [done|]; constructor; [unfold colon; lia|done]).
    assert (Hby : bytes (of_bytes (Itoa_bytes (Begin r) ++ colon :: Itoa_bytes (End_ r))) =
      Itoa_bytes (Begin r) ++ colon :: Itoa_bytes (End_ r)).
    { apply bytes_of_bytes. apply Forall_app. split; [apply Itoa_bytes_is_byte|].
      constructor; [unfold is_byte, colon; lia|apply Itoa_bytes_is_byte]. }
    rewrite Hby, existsb_colon, bool_decide_eq_true_2 by set_solver.
    unfold Split. rewrite Hby, split_at_two by apply colon_Itoa. cbn.
    fold (Itoa (Begin r)) (Itoa (End_ r)). rewrite !Hmem by done. by destruct r.
Qed.

Lemma Atoi_Itoa n : in_int64 n → Atoi (Itoa n) = Some n.
Proof.
  intros Hn. unfold Atoi, Itoa. rewrite bytes_of_bytes by apply Itoa_bytes_is_byte.
  by apply Atoi_Itoa_bytes.
Qed.

Lemma memberFromString_Itoa n : in_int64 n → memberFromString (Itoa n) = Ok n.
Proof. intros Hn. unfold memberFromString. by rewrite Atoi_Itoa. Qed.

Lemma months_Itoa n : months !! Itoa n = None.
Proof.
  destruct (months !! Itoa n) as [k|] eqn:E; [|done]. exfalso.
  assert (Ha : forallb (λ b, b <? 58) (bytes (Itoa n)) = true).
  { unfold Itoa. rewrite bytes_of_bytes by apply Itoa_bytes_is_byte. apply forallb_Forall.
    eapply Forall_impl; [apply Itoa_bytes_ascii|]. cbn. intros b Hb. apply Z.ltb_lt. lia. }
  apply elem_of_list_to_map_2 in E. revert E Ha. generalize (Itoa n) as s. intros s Hin Ha.
  repeat (apply elem_of_cons in Hin as [[= -> ->]|Hin]; [by vm_compute in Ha|]).
  by apply elem_of_nil in Hin.
Qed.

Lemma month_memberFromString_Itoa n : in_int64 n → month_memberFromString (Itoa n) = Ok n.
Proof. intros Hn. unfold month_memberFromString. by rewrite months_Itoa, Atoi_Itoa. Qed.
Lemma stringable_int64 member s r :
  (∀ s n, member s = Ok n → in_int64 n) →
  stringableRangeFromString member s = Ok r → in_int64 (Begin r) ∧ in_int64 (End_ r).
Proof.
  intros Hm. unfold stringableRangeFromString. intros H.
  destruct (existsb _ _).
  - destruct (Split _ _) as [|c0 [|c1 [|]]]; try done.
    apply result_bind_Ok in H as (b & Hb & H). apply result_bind_Ok in H as (e & He & [= <-]). eauto.
  - apply result_bind_Ok in H as (b & Hb & [= <-]). eauto.
Qed.

Lemma memberFromString_int64 s n : memberFromString s = Ok n → in_int64 n.
Proof.
  unfold memberFromString. destruct (Atoi s) eqn:E; [|done]. intros [= <-].
  by eapply Atoi_range.
Qed.

Lemma month_memberFromString_int64 s n : month_memberFromString s = Ok n → in_int64 n.
Proof.
  unfold month_memberFromString. destruct (months !! s) as [k|] eqn:E.
  - intros [= <-]. apply elem_of_list_to_map_2 in E.
    repeat (apply elem_of_cons in E as [[= -> ->]|E]; [unfold in_int64; lia|]).
    by apply elem_of_nil in E.
  - destruct (Atoi s) eqn:Ea; [|done]. intros [= <-]. by eapply Atoi_range.
Qed.

Lemma weekday_roundtrip r :
  0 ≤ Begin r → Begin r ≤ End_ r → End_ r ≤ 6 →
  ∃ s, weekday_MarshalText r = Ok s ∧ weekday_UnmarshalYAML (Some s) = Ok r.
Proof.
  destruct r as [b e]. cbn. intros Hb Hbe He.
  assert (Hb' : b = 0 ∨ b = 1 ∨ b = 2 ∨ b = 3 ∨ b = 4 ∨ b = 5 ∨ b = 6) by lia.
  assert (He' : e = 0 ∨ e = 1 ∨ e = 2 ∨ e = 3 ∨ e = 4 ∨ e = 5 ∨ e = 6) by lia.
  destruct_or! Hb'; destruct_or! He'; subst; try lia;
    (eexists; split; [vm_compute; reflexivity|vm_compute; reflexivity]).
Qed.

(** ** Times of day *)
Lemma two_digits a b :
  is_digit a = true → is_digit b = true →
  memberFromString (of_bytes [a; b]) = Ok ((a - 48) * 10 + (b - 48)).
Proof.
  intros Ha Hb. pose proof (is_digit_range _ Ha). pose proof (is_digit_range _ Hb).
  unfold memberFromString, Atoi. rewrite bytes_of_bytes, Atoi_digits.
  - done.
  - by repeat constructor.
  - done.
  - unfold value, in_int64. cbn. lia.
  - repeat constructor; unfold is_byte; lia.
Qed.

Lemma parseTime_range s m : parseTime s = Ok m → 0 ≤ m ≤ 1440.
Proof.
  unfold parseTime. destruct (validTime (bytes s)) eqn:Hv; cbn [negb]; [|done].
  unfold Split. unfold validTime in Hv.
  destruct (bytes s) as [|h1 [|h0 [|c [|m1 [|m0 [|]]]]]]; try done.
  assert (Hd : 48 ≤ h1 ≤ 50 ∧ 48 ≤ h0 ≤ 57 ∧ c = 58 ∧ 48 ≤ m1 ≤ 53 ∧ 48 ≤ m0 ≤ 57 ∧
    (h1 = 50 → h0 ≤ 51 ∨ h0 = 52 ∧ m1 = 48 ∧ m0 = 48)).
  { unfold is_digit, colon in Hv. apply orb_true_iff in Hv as [Hv|Hv].
    - rewrite !andb_true_iff, orb_true_iff, !andb_true_iff in Hv.
      repeat match goal with H : context [between ?a ?b ?x] |- _ =>
        destruct (between_spec a b x) end; rewrite ?Z.eqb_eq in Hv; naive_solver lia.
    - apply bool_decide_eq_true in Hv. simplify_eq. lia. }
  destruct Hd as (Hh1 & Hh0 & -> & Hm1 & Hm0 & H24).
  change [h1; h0; 58; m1; m0] with ([h1; h0] ++ 58 :: [m1; m0]).
  rewrite split_at_two by (rewrite !not_elem_of_cons, ?elem_of_nil; split_and!; try lia; set_solver).
  cbn [fmap list_fmap].
  assert (Hdig : ∀ x, 48 ≤ x ≤ 57 → is_digit x = true)
    by (intros x Hx; unfold is_digit; by destruct (between_spec 48 57 x)).
  rewrite !two_digits by (apply Hdig; lia). cbn [mbind result_bind].
  match goal with |- (if ?b then _ else _) = _ → _ => destruct b; [done|] end. intros [= <-]. lia.
Qed.

Lemma parseTime_clock m :
  0 ≤ m ≤ 1440 →
  parseTime (of_bytes (fmt02_bytes (Z.quot m 60) ++ colon :: fmt02_bytes (Z.rem m 60))) = Ok m.
Proof.
  intros Hm.
  assert (Hall : forallb (λ m, match parseTime (of_bytes (fmt02_bytes (Z.quot m 60) ++
    colon :: fmt02_bytes (Z.rem m 60))) with Ok k => k =? m | Err _ => false end)
    (seqZ 0 1441) = true) by (vm_compute; reflexivity).
  rewrite forallb_forall in Hall. specialize (Hall m).
  destruct (parseTime _) as [k|]; [apply Z.eqb_eq in Hall as ->; [done|]|discriminate Hall];
    apply list_elem_of_In, elem_of_seqZ; lia.
Qed.

(** what was accepted is printed in a form that is accepted again with the same
    meaning: for ranges of weekdays, days of the month, months, years and times
    of day, marshalling a range that was read from a configuration and reading
    the result gives the same range. *)
Theorem ranges_text_roundtrip str r y tr :
  (weekday_UnmarshalYAML str = Ok r → ∃ s, weekday_MarshalText r = Ok s ∧
     weekday_UnmarshalYAML (Some s) = Ok r) ∧
  (day_UnmarshalYAML str = Ok r → day_UnmarshalYAML (Some (MarshalText r)) = Ok r) ∧
  (month_UnmarshalYAML str = Ok r → month_UnmarshalYAML (Some (MarshalText r)) = Ok r) ∧
  (year_UnmarshalYAML str = Ok r → year_UnmarshalYAML (Some (MarshalText r)) = Ok r) ∧
  (time_UnmarshalYAML y = Ok tr → time_UnmarshalYAML (Some (time_MarshalYAML tr)) = Ok tr).
Proof.
  split_and!.
  - destruct str as [str|]; [|done]. cbn. intros (q & _ & H)%result_bind_Ok.
    go_cases. apply weekday_roundtrip; lia.
  - destruct str as [str|]; [|done]. cbn. intros (q & Hq & H)%result_bind_Ok.
    assert (q = r) as -> by (repeat case_match; congruence).
    apply stringable_int64 in Hq as []; [|apply memberFromString_int64].
    rewrite stringable_MarshalText; [exact H|apply memberFromString_Itoa|done..].
  - destruct str as [str|]; [|done]. cbn. intros (q & Hq & H)%result_bind_Ok.
    assert (q = r) as -> by (repeat case_match; congruence).
    apply stringable_int64 in Hq as []; [|apply month_memberFromString_int64].
    rewrite stringable_MarshalText; [exact H|apply month_memberFromString_Itoa|done..].
  - destruct str as [str|]; [|done]. cbn. intros (q & Hq & H)%result_bind_Ok.
    assert (q = r) as -> by (repeat case_match; congruence).
    apply stringable_int64 in Hq as []; [|apply memberFromString_int64].
    rewrite stringable_MarshalText; [exact H|apply memberFromString_Itoa|done..].
  - destruct y as [y|]; [|done]. cbn. destruct (_ || _); [done|].
    intros (s & Hs%parseTime_range & H)%result_bind_Ok.
    apply result_bind_Ok in H as (e & He%parseTime_range & H).
    destruct (e <=? s) eqn:Hle; [done|]. injection H as <-. cbn.
    pose proof (parseTime_clock s ltac:(lia)) as Ps. pose proof (parseTime_clock e ltac:(lia)) as Pe.
    rewrite Ps, Pe. cbn. rewrite Hle.
    rewrite !bool_decide_eq_false_2; [done| |]; intros E; rewrite E in *; done.
Qed.

(** the range 28:-1, from the 28th to the last day, is refused as one that
    always ends before it starts, although it contains a day of every month. *)
Theorem days_28_to_last_refused :
  day_UnmarshalYAML (Some "28:-1"%string) = Err (ErrOrder (mkRange 28 (-1))) ∧
  ∀ n, 28 ≤ n → in_days (mkRange 28 (-1)) 28 n.
Proof. split; [vm_compute; reflexivity|]. intros n Hn. unfold in_days, counted. cbn. lia. Qed.
End text.
End TimeIntervalInv.

(** * The time stages of the pipeline with the intervener

    The active-time and mute-time stages (notify/mute.go) run with the
    intervener (timeinterval/timeinterval.go): together they follow the
    calendar, and the group marker records it. *)
Import Notify NotifyInv.

Module TimeStages.
Section stages.
Context `{RE : Regexp, PM : PromModel, XH : XXHash, NC : Nflog.NflogCodec}.
Context {M : Type}.
Implicit Types w : World M.

(** One of the named intervals contains the instant. *)
Definition inside (i : TimeInterval.Intervener) (now : time) (names : list string) : Prop :=
  ∃ name tis ti, name ∈ names ∧ i !! name = Some tis ∧ ti ∈ tis ∧
    TimeInterval.ContainsTime ti (Calendar.mkTime now Calendar.UTC) = true.

Lemma intervener_muter i now names b by_ :
  TimeInterval.Mutes i names now = Some (b, by_) →
  (b = true ↔ by_ ≠ []) ∧ (b = true ↔ inside i now names).
Proof.
  unfold TimeInterval.Mutes. pose proof (TimeIntervalInv.mutes_loop_spec i names now []) as H.
  destruct (TimeInterval.mutes_loop i names now []) as [in_|]; [|done].
  destruct H as [_ Hin]. intros [= <- <-].
  assert (Hne : (0 <? length in_)%nat = true ↔ in_ ≠ []) by (destruct in_; cbn; naive_solver).
  split; [done|]. rewrite Hne. split.
  - destruct in_ as [|n l]; [done|]. intros _.
    destruct (proj1 (Hin n)) as [?%elem_of_nil|(Hn & tis & ti & ?)]; [by left|done|].
    exists n, tis, ti. naive_solver.
  - intros (n & tis & ti & Hn & Hi & Hti & Hc) ->. apply (not_elem_of_nil n). apply Hin. naive_solver.
Qed.

(** the time stages follow the calendar: after the active-time and mute-time
    stages have run on a group with alerts, either all alerts are left or none;
    none are left exactly when the route has active intervals and the instant
    is in none of them, or it is in one of the route's mute intervals; and the
    group is marked as muted exactly when its alerts were removed. *)
Theorem time_stages_follow_calendar i w ctx alerts w' ctx' out routeID gkey now mutes actives :
  RouteID ctx = Some routeID → GroupKey ctx = Some gkey → Now ctx = Some now →
  MuteTimeIntervalNames ctx = Some mutes → ActiveTimeIntervalNames ctx = Some actives →
  alerts ≠ [] →
  MultiStage_Exec [TimeActiveStage_Exec (TimeInterval.Mutes i);
                   TimeMuteStage_Exec (TimeInterval.Mutes i)] w ctx alerts =
    Some (w', (ctx', out, None)) →
  (out = [] ∨ out = alerts) ∧
  (out = [] ↔ (actives ≠ [] ∧ ¬ inside i now actives) ∨ inside i now mutes) ∧
  (marked w' routeID gkey ↔ out = []).
Proof.
  apply time_stages_spec.
  - intros names b by_. apply intervener_muter.
  - intros (n & tis & ti & []%elem_of_nil & _).
Qed.
End stages.
End TimeStages.
