(* ===== verification/DispatchExamples.v ===== *)
(** * The routing tree and the dispatcher at concrete states

    A small routing tree, a scheduler that runs chosen actions of the system,
    and the theorems about routes and the dispatcher at states it reaches. *)

From Stdlib Require Import Ascii String.
From stdpp Require Import base gmap strings list sorting pretty relations.
From S2P Require Import Prelude Utf8 Labels Silence Instances Alert Nflog Notify Bucket Store.
From S2P Require Import Provider Inhibit Strconv Route Dispatch DispatchInv DispatchThm.

Import Alert Dispatch DispatchThm.

Module DispatchExamples.

(** ** Instances *)
#[local] Program Instance prom_model : PromModel := {|
  ResolvedAt e now := negb (e =? 0) && (e <=? now);
  LabelSet_Before _ _ := false;
|}.
Next Obligation. intros. rewrite andb_true_iff, negb_true_iff, Z.eqb_neq, Z.leb_le. done. Qed.

#[local] Instance code_fingerprint : Fingerprinter := λ ls, Zpos (encode ls).
#[local] Instance ascii_print : UnicodePrint := λ _, false.
#[local] Instance plain_string : LabelSetString :=
  λ ls, foldr (λ x s, x.1 +:+ "=" +:+ x.2 +:+ "," +:+ s) ""%string (map_to_list ls).
#[local] Instance plain_renderer : RouteLabelRenderer := λ _ _ ls _ n, ls !! n.

(** ** A routing tree *)
Definition ex_cfg (receiver : string) (by_ : option (list string)) (m : gmap string string)
    (cont : bool) (wait : option duration) (ls : LabelSet) : Route.RouteConfig :=
  Route.mkRouteConfig receiver by_ false m ∅ [] [] [] cont wait None None ls.

Definition ex_tree : Route.config_route :=
  Route.ConfigRoute
    (ex_cfg "team" (Some ["job"%string]) ∅ false (Some 10) {["owner"%string := "ops"%string]})
    [Route.ConfigRoute (ex_cfg "api" None {["job"%string := "api"%string]} true None
       {["tier"%string := "1"%string]}) [];
     Route.ConfigRoute (ex_cfg "" None {["job"%string := "api"%string]} false (Some 20) ∅) []].

Definition ex_root : Route.route :=
  default (Route.mkRoute Route.DefaultRouteOpts [] false [] 0) (Route.NewRoute ex_tree None).

Lemma ex_root_new : Route.NewRoute ex_tree None = Some ex_root.
Proof. vm_compute. reflexivity. Qed.

Definition ex_child (i : nat) : Route.route := default ex_root (Route.node_at ex_root [i]).

Example ex_match_both : Route.Match ex_root {["job"%string := "api"%string]} = [[0%nat]; [1%nat]].
Proof. vm_compute. reflexivity. Qed.

Example ex_match_root : Route.Match ex_root {["job"%string := "db"%string]} = [[]].
Proof. vm_compute. reflexivity. Qed.

Lemma route_options_nearest_witness :
  ∃ cs cfg, RouteInv.config_path ex_tree [1%nat] = Some cs ∧ last cs = Some cfg ∧
    Route.Receiver (Route.Opts (ex_child 1)) = "team"%string ∧
    Route.GroupWait (Route.Opts (ex_child 1)) = 20 ∧
    Route.RouteLabels (Route.Opts (ex_child 1)) !! "owner"%string = Some "ops"%string.
Proof.
  destruct (RouteInv.route_options_nearest ex_tree ex_root [1%nat] (ex_child 1) ex_root_new
    ltac:(vm_compute; reflexivity)) as (cs & cfg & Hcs & Hl & Hr & Hw & _ & _ & Ho & _).
  exists cs, cfg. rewrite Hr, Hw, Ho. injection Hcs as <-. split_and!; [done|done|..];
    vm_compute; reflexivity.
Defined.

Lemma route_indices_are_slots_witness :
  Route.Idx <$> Route.Walk ex_root ≡ₚ seqZ 0 (Route.Idx ex_root + 1).
Proof. apply (RouteInv.route_indices_are_slots ex_tree ex_root ex_root_new). Defined.

Lemma route_id_unique_witness : [1%nat] = [1%nat].
Proof.
  refine (RouteId.route_id_unique ex_root [1%nat] [1%nat] (default ""%string (Route.ID ex_root [1%nat])) _ _);
    vm_compute; reflexivity.
Defined.

(** ** A scheduler *)
Inductive action :=
| ACall (tid : nat) (a : Alert) (pos : Route.position) (now : time)
| AStep (tid : nat)
| AStart
| ARun (idx : nat) (fp : Z)
| AFlushBegin (addr : nat) (now : time)
| AFlushEnd (ok : bool)
| ARange (idx : nat) (fp : Z)
| AMaintain
| ACount.

(** One action; the first waiting flush, group or deletion is taken. *)
Definition act (x : action) (s : system) : option system :=
  let '(mkSystem d cs fs es ds) := s in
  match x with
  | ACall tid a pos now =>
      match cs !! tid, Route.node_at (d_route d) pos with
      | None, Some r =>
          if decide (pos ∈ Route.Match (d_route d) (Labels a))
          then Some (mkSystem d (<[tid := (mkCall a pos r now, PLoad)]> cs) fs es ds) else None
      | _, _ => None
      end
  | AStep tid =>
      '(c, p) ← cs !! tid;
      let '(d', p') := gstep c d p in Some (mkSystem d' (<[tid := (c, p')]> cs) fs es ds)
  | AStart =>
      if decide (d_state d = DispatcherStateWaitingToStart)
      then Some (mkSystem (set_state DispatcherStateRunning d) cs fs es ds) else None
  | ARun idx fp =>
      addr ← Load d idx fp;
      if decide (d_state d = DispatcherStateRunning) then Some (mkSystem (runAG addr d) cs fs es ds)
      else None
  | AFlushBegin addr now =>
      g ← heap d !! addr;
      '(alerts, resolved) ← flush_begin g now;
      if g_running g then Some (mkSystem d cs (fs ++ [(addr, resolved)]) es ds) else None
  | AFlushEnd ok =>
      match fs with
      | (addr, resolved) :: fs =>
          Some (mkSystem (update_at (λ g, flush_end g resolved ok) addr d) cs fs es ds)
      | [] => None
      end
  | ARange idx fp => addr ← Load d idx fp; Some (mkSystem d cs fs (es ++ [(idx, addr)]) ds)
  | AMaintain =>
      match es with
      | (idx, addr) :: es =>
          let '(d', deleted) := maintain_delete idx addr d in
          Some (mkSystem d' cs fs es (if deleted : bool then ds ++ [(idx, addr)] else ds))
      | [] => None
      end
  | ACount =>
      match ds with
      | (idx, addr) :: ds => Some (mkSystem (maintain_count idx addr d) cs fs es ds)
      | [] => None
      end
  end.

Lemma act_step x s s' : act x s = Some s' → step s s'.
Proof.
  destruct s as [d cs fs es ds], x; cbn; intros H.
  - repeat case_match; simplify_eq. by constructor.
  - destruct (cs !! tid) as [[c p]|] eqn:Hc; [|done]. cbn in H.
    destruct (gstep c d p) eqn:Hg. simplify_eq. by econstructor.
  - case_decide; simplify_eq. by constructor.
  - destruct (Load d idx fp) as [ad|] eqn:Hl; [|done]. cbn in H. case_decide; simplify_eq.
    by econstructor.
  - destruct (heap d !! addr) as [g|] eqn:Hg; [|done]. cbn in H.
    destruct (flush_begin g now) as [[al res]|] eqn:Hf; [|done]. cbn in H.
    destruct (g_running g) eqn:Hr; simplify_eq. by econstructor.
  - destruct fs as [|[ad res] fs]; simplify_eq. apply (step_flush_end d cs [] fs).
  - destruct (Load d idx fp) as [ad|] eqn:Hl; simplify_eq/=. by econstructor.
  - destruct es as [|[i ad] es]; [done|]. destruct (maintain_delete i ad d) eqn:Hm.
    simplify_eq. by apply (step_maintain d cs fs [] es).
  - destruct ds as [|[i ad] ds]; simplify_eq. apply (step_count d cs fs es [] ds).
Qed.

Definition exec (xs : list action) (s : system) : option system :=
  foldl (λ o x, o ≫= act x) (Some s) xs.

Lemma exec_steps xs s s' : exec xs s = Some s' → rtc step s s'.
Proof.
  unfold exec. revert s. induction xs as [|x xs IH]; intros s; cbn.
  - by intros [= ->].
  - destruct (act x s) as [s1|] eqn:Hx.
    + intros Hs. eapply rtc_l; [by eapply act_step|by apply IH].
    + assert (Hn : foldl (λ o x, o ≫= act x) None xs = None) by (clear; by induction xs).
      by rewrite Hn.
Qed.

(** ** Reached states *)
Definition ex_init (limit : Z) : system := init ex_root limit.
Definition reach (limit : Z) (xs : list action) : system := default (ex_init limit) (exec xs (ex_init limit)).

Definition api (ends updated : time) : Alert :=
  mkAlert {["job"%string := "api"%string]} ∅ 5 ends ""%string updated false.

Definition api_fp : Z := Fingerprint {["job"%string := "api"%string]}.

(** The alert is delivered to a new group, the group is started, the alert
    resolves and the group is flushed and destroyed; then the alert fires again
    and the call finds the destroyed group. *)
Definition ex_created : list action :=
  ACall 0 (api 50 10) [0%nat] 10 :: replicate 6 (AStep 0) ++ [AStart; ARun 0 api_fp].
Definition ex_destroyed : list action := ex_created ++ [AFlushBegin 0 60; AFlushEnd true].
Definition ex_again : list action :=
  ex_destroyed ++ ACall 1 (api 100 70) [0%nat] 70 :: replicate 4 (AStep 1).

Definition runs (limit : Z) (xs : list action) : bool :=
  match exec xs (ex_init limit) with Some _ => true | None => false end.

Lemma reach_steps limit xs ys :
  runs limit (xs ++ ys) = true → rtc step (reach limit xs) (reach limit (xs ++ ys)).
Proof.
  unfold runs, reach, exec. rewrite foldl_app. destruct (foldl _ (foldl _ _ xs) ys) as [s|] eqn:Hs; [|done].
  intros _.
  destruct (foldl _ (Some _) xs) as [s1|] eqn:H1.
  - by apply (exec_steps ys).
  - assert (Hn : foldl (λ o x, o ≫= act x) None ys = None) by (clear; by induction ys).
    by rewrite Hn in Hs.
Qed.

Lemma system_eta s : mkSystem (sys_d s) (sys_calls s) (sys_flushes s) (sys_seen s) (sys_deleted s) = s.
Proof. by destruct s. Qed.

Definition ex_call : call := mkCall (api 100 70) [0%nat] (ex_child 0) 70.
Definition ex_swap : Dispatcher * pc := gstep ex_call (sys_d (reach 0 ex_again)) (PLoop 1 (Some 0%nat) 0).

Example ex_swapped : ex_swap.2 = PCancel 1 0.
Proof. vm_compute. reflexivity. Qed.

Lemma dispatch_alert_reaches_group_witness :
  delivered ex_swap.1 (c_idx ex_call) (c_fp ex_call) (api 100 70).
Proof.
  refine (dispatch_alert_reaches_group ex_tree ex_root 0 (sys_d (reach 0 ex_again))
    (sys_calls (reach 0 ex_again)) (sys_flushes (reach 0 ex_again)) (sys_seen (reach 0 ex_again))
    (sys_deleted (reach 0 ex_again)) 1 ex_call (PLoop 1 (Some 0%nat) 0) ex_swap.1 ex_swap.2
    ex_root_new _ _ _ _ _).
  - rewrite system_eta. apply (reach_steps 0 [] ex_again). vm_compute. reflexivity.
  - vm_compute. reflexivity.
  - apply surjective_pairing.
  - by rewrite ex_swapped.
  - by rewrite ex_swapped.
Defined.

Definition ex_maintained : list action := [ARange 0 api_fp; AMaintain; ACount].

Lemma dispatch_alert_kept_witness :
  (∃ b, Store.alert_Fingerprint b = Store.alert_Fingerprint (api 50 10) ∧
     delivered (sys_d (reach 0 (ex_destroyed ++ ex_maintained))) 0 api_fp b) ∨
  ∃ s1 s2 b addr resolved r, rtc step (reach 0 ex_created) s1 ∧
    Store.alert_Fingerprint b = Store.alert_Fingerprint (api 50 10) ∧
    delivered (sys_d s1) 0 api_fp b ∧ notified s1 s2 0 api_fp b addr resolved r.
Proof.
  assert (Hd : delivered (sys_d (reach 0 ex_created)) 0 api_fp (api 50 10)).
  { eexists 0%nat, _. split_and!; vm_compute; reflexivity. }
  destruct (dispatch_alert_kept ex_tree ex_root 0 (reach 0 ex_created)
    (reach 0 (ex_destroyed ++ ex_maintained)) 0 api_fp (api 50 10) ex_root_new
    ltac:(apply (reach_steps 0 [] ex_created); vm_compute; reflexivity)
    ltac:(apply (reach_steps 0 ex_created ([AFlushBegin 0 60; AFlushEnd true] ++ ex_maintained));
          vm_compute; reflexivity) Hd)
    as [(b & Hb & Hdb)|(s1 & s2 & b & addr & res & r & Hs & _ & Hb & Hdb & Hn & _)].
  - left. exact (ex_intro _ b (conj Hb Hdb)).
  - right. exists s1, s2, b, addr, res, r. split_and!; assumption.
Defined.

(** ** A flush *)
Definition ex_group : aggrGroup :=
  let g := newAggrGroup {["job"%string := "api"%string]} ex_root [0%nat] (ex_child 0) 10 in
  (insert_ g (api 50 10) 10).1.

Lemma flush_exact_witness :
  ∃ alerts resolved, flush_begin ex_group 60 = Some (alerts, resolved) ∧
    (∀ fp, Store.alerts (g_alerts (flush ex_group 60 (λ _, true))) !! fp =
       a ← Store.alerts (g_alerts ex_group) !! fp; if Resolved a 60 then None else Some a).
Proof.
  assert (Hf : Provider.filed (g_alerts ex_group)).
  { intros fp a. change (Store.alerts (g_alerts ex_group)) with ({[api_fp := api 50 10]} : gmap Z Alert).
    intros [<- <-]%lookup_singleton_Some. vm_compute. reflexivity. }
  destruct (flush_exact ex_group 60 (λ _, true) Hf ltac:(vm_compute; reflexivity)
    ltac:(vm_compute; reflexivity)) as (al & res & Hb & _ & _ & Hok).
  exists al, res. split; [done|]. by apply Hok.
Defined.

(** ** The limit of groups *)

(** the limit of aggregation groups is not strict when alerts are processed
    concurrently: with a limit of one, two workers that both pass the check
    before either of them counts its group leave the dispatcher with two. *)
Theorem dispatch_limit_exceeded :
  ∃ s, rtc step (init ex_root 1) s ∧ aggrGroupsNum (sys_d s) = 2 ∧
    is_Some (Load (sys_d s) 0 api_fp) ∧ is_Some (Load (sys_d s) 1 api_fp).
Proof.
  set (xs := [ACall 0 (api 50 10) [0%nat] 10; ACall 1 (api 50 10) [1%nat] 10] ++
    replicate 3 (AStep 0) ++ replicate 3 (AStep 1) ++ replicate 2 (AStep 0) ++ replicate 2 (AStep 1)).
  exists (reach 1 xs). split; [apply (reach_steps 1 [] xs); vm_compute; reflexivity|].
  split_and!; vm_compute; by eexists.
Qed.
End DispatchExamples.
