(* ===== verification/PipelineExamples.v ===== *)
(** * Notification log, pipeline, stores and inhibition at concrete states *)

From Stdlib Require Import Ascii String.
From stdpp Require Import base gmap strings list pretty relations.
From S2P Require Import Prelude Utf8 Labels Lww Silence Instances Alert Nflog Notify NotifyInv.
From S2P Require Import NotifyUtil Bucket Store Provider Inhibit Strconv Calendar TimeInterval TimeIntervalInv.

Module PipelineExamples.

(** ** Instances *)
#[local] Program Instance prom_model : PromModel := {|
  ResolvedAt e now := negb (e =? 0) && (e <=? now);
  LabelSet_Before _ _ := false;
|}.
Next Obligation. intros. rewrite andb_true_iff, negb_true_iff, Z.eqb_neq, Z.leb_le. done. Qed.

(** The sum of the bytes, and the encoding of the label set as a number. *)
#[local] Instance byte_sum : XXHash := foldl Z.add 0.
#[local] Instance code_fingerprint : Fingerprinter := λ ls, Zpos (encode ls).

Lemma code_fingerprint_ok : Inhibit.U_ok (λ _, True).
Proof. intros l1 l2 _ _ [= E]. by apply (inj encode). Qed.

Definition nflog_table_codec (table : list Nflog.MeshEntry) : Nflog.NflogCodec := {|
  Nflog.MarshalTo m := (λ x, [Z.of_nat x.1]) <$> list_find (λ x, x = m) table;
  Nflog.UnmarshalFrom bs :=
    match bs with
    | [] => Nflog.UnmarshalEOF
    | b :: rest =>
        match table !! Z.to_nat b with
        | Some m => Nflog.Unmarshalled (Nflog.mkWireEntry
            (Some (Some (Nflog.Recv (Nflog.Ent m)), Nflog.Ent m)) (Nflog.ExpiresAt m)) rest
        | None => Nflog.UnmarshalErr
        end
    end;
|}.

Lemma nflog_table_codec_laws table : @NflogInv.NflogCodecLaws (nflog_table_codec table).
Proof.
  constructor; cbn.
  - intros m b rest Hm. destruct (list_find _ table) as [[i m']|] eqn:Hf; [|done].
    apply list_find_Some in Hf as (Hi & -> & _). cbn in Hm. injection Hm as <-. cbn.
    by rewrite Nat2Z.id, Hi.
  - intros m b Hm. destruct (list_find _ table) as [[i m']|]; cbn in Hm; by simplify_eq.
  - done.
Qed.

(** Its messages have one byte. *)
Lemma nflog_table_readable table l : NflogInv.all_readable (NC := nflog_table_codec table) l.
Proof.
  intros id e _ b. unfold Nflog.marshalMeshEntry. cbn.
  destruct (list_find _ table) as [[i m']|]; cbn; [|done]. intros [= <-].
  unfold readable_size. by apply Z.leb_le.
Qed.

Definition ex_integration : Notify.Integration := Notify.mkIntegration true "webhook" 0 "team".
Definition ex_recv : Nflog.Receiver := Nflog.mkReceiver "team" "webhook" 0.
Definition gkey : string := "{}:{job=api}".
Definition api_labels : LabelSet := {["job"%string := "api"%string]}.
Definition ex_alert : Alert.Alert := Alert.mkAlert api_labels ∅ 10 0 ""%string 20 false.
Definition ex_hash : Z := Notify.hashAlert ex_alert.

Definition ex_entry (now : time) : Nflog.MeshEntry :=
  Nflog.mkMeshEntry (Nflog.mkEntry gkey ex_recv (Some now) [ex_hash] [] ∅) (Some (now + 20)).
Definition ex_entries : list Nflog.MeshEntry := [ex_entry 30; ex_entry 40].

#[local] Instance ex_nflog_codec : Nflog.NflogCodec := nflog_table_codec ex_entries.

Definition ex_log0 : Nflog.Log := Nflog.New_Log 100.
Definition ex_log : Nflog.Log := (Nflog.Log_ ex_log0 ex_recv gkey [ex_hash] [] None 20 30 30).1.

(** ** The notification log *)
Lemma ex_log_reachable : rtc NflogInv.step (Nflog.New_Log 100) ex_log.
Proof. apply rtc_once, NflogInv.step_Log. Qed.

Lemma ex_log_st : Nflog.st ex_log = {[Nflog.stateKey gkey ex_recv := ex_entry 30]}.
Proof. vm_compute. reflexivity. Qed.

Lemma nflog_stateKey_inj_witness : gkey = gkey ∧ ex_recv = ex_recv.
Proof.
  assert (Hp : NflogInv.plain_receiver ex_recv).
  { split_and!; refine (bool_decide_eq_true_1 (_ ∉ _) _); vm_compute; reflexivity. }
  apply (NflogInv.nflog_stateKey_inj gkey gkey ex_recv ex_recv Hp Hp eq_refl).
Defined.

Lemma ex_nflog_tie_free : tie_free (Nflog.st ex_log0) ([[0]; [1]] ≫= NflogInv.entries 35).
Proof.
  assert (Hb : [[0]; [1]] ≫= NflogInv.entries 35 = ex_entries) by (vm_compute; reflexivity).
  intros k e1 e2 H1 H2. unfold candidate in *. rewrite Hb in *. unfold ex_entries in *.
  rewrite !elem_of_cons, !elem_of_nil in *.
  destruct H1 as [H1|[[->|[->|[]]] _]]; [done|..];
    (destruct H2 as [H2|[[->|[->|[]]] _]]; [done|..]); intros E; vm_compute in E; done.
Qed.

Lemma nflog_gossip_converges_witness :
  Nflog.st (NflogInv.merge_all ex_log0 35 [[0]; [1]]) =
  Nflog.st (NflogInv.merge_all ex_log0 35 [[1]; [1]; [0]]).
Proof.
  apply (NflogInv.nflog_gossip_converges ex_log0 35 [[0]; [1]] [[1]; [1]; [0]] ex_nflog_tie_free).
  intros b. rewrite !elem_of_cons, !elem_of_nil. naive_solver.
Defined.

Lemma nflog_log_query_witness :
  Nflog.Query ex_log [Nflog.QReceiver ex_recv; Nflog.QGroupKey gkey] =
    Ok [Nflog.mkEntry gkey ex_recv (Some 30) [ex_hash] [] ∅] ∧
  ∀ k, k ≠ Nflog.stateKey gkey ex_recv → Nflog.st ex_log !! k = Nflog.st ex_log0 !! k.
Proof.
  apply (NflogInv.nflog_log_query ex_log0 ex_recv gkey [ex_hash] [] None 20 30 30 ex_log);
    [done|done|by intros prev|done|vm_compute; reflexivity].
Defined.

Lemma nflog_gc_exact_witness :
  let '(l', n, err) := Nflog.GC ex_log 60 in
  err = None ∧
  (∀ k, Nflog.st l' !! k = Nflog.st ex_log !! k ≫= λ e, if NflogInv.kept 60 e then Some e else None) ∧
  n = Z.of_nat (size (Nflog.st ex_log)) - Z.of_nat (size (Nflog.st l')).
Proof.
  apply (NflogInv.nflog_gc_exact ex_log 60). intros k e. rewrite ex_log_st.
  intros [_ <-]%lookup_singleton_Some. done.
Defined.

Lemma nflog_snapshot_roundtrip_witness :
  (Nflog.loadSnapshot (Nflog.New_Log 100) [0]).1 =
  Nflog.set_st (Nflog.st ex_log) (Nflog.New_Log 100).
Proof.
  apply (NflogInv.nflog_snapshot_roundtrip (H := nflog_table_codec_laws ex_entries)
           100 ex_log [0] ex_log_reachable
           (nflog_table_readable ex_entries ex_log)).
  vm_compute. reflexivity.
Defined.

(** ** The pipeline *)
Definition ex_ctx : Notify.Context :=
  Notify.WithRepeatInterval (Notify.WithGroupKey (Notify.WithRouteID Notify.background "r") gkey) 10.
Definition ex_oracle : Notify.oracle :=
  Notify.mkOracle None (λ _, 25) 25 [Notify.RoundTick (Notify.NotifyError true 500) false id;
                                     Notify.RoundTick Notify.NotifySuccess false id] 30 30.
Definition ex_failing : Notify.oracle :=
  Notify.mkOracle None (λ _, 25) 25 [Notify.RoundDone Notify.Canceled] 30 30.
Definition ex_world : Notify.World unit := Notify.mkWorld ex_log0 ∅ tt [].

Definition run1 := Notify.integration_stage "team" ex_integration ex_oracle ex_world ex_ctx [ex_alert].
Definition world1 : Notify.World unit := default ex_world (fst <$> run1).

Lemma hash_input_inj_witness : api_labels = api_labels.
Proof.
  assert (Hp : ∀ n v, api_labels !! n = Some v → NotifyInv.plain_label (n, v)).
  { unfold api_labels. intros n v [<- <-]%lookup_singleton_Some. split; refine (bool_decide_eq_true_1 (_ ∉ _) _); vm_compute; reflexivity. }
  apply (NotifyInv.hash_input_inj api_labels api_labels Hp Hp eq_refl).
Defined.

Definition retried : Notify.World unit :=
  Notify.add_attempt (Notify.mkAttempt ex_recv [ex_alert] true)
    (Notify.add_attempt (Notify.mkAttempt ex_recv [ex_alert] false) ex_world).

Lemma retry_at_most_one_success_witness :
  ∃ k ok, Notify.w_attempts retried =
      Notify.w_attempts ex_world ++ NotifyInv.attempts_of ex_recv [ex_alert] k ok ∧
    (ok = true ↔ @None Notify.error = None) ∧
    Notify.w_log retried = Notify.w_log ex_world ∧ Notify.w_groups retried = Notify.w_groups ex_world.
Proof.
  apply (NotifyInv.retry_at_most_one_success ex_recv [ex_alert] [ex_alert]
           (Notify.o_rounds ex_oracle) ex_world ex_ctx retried ex_ctx [ex_alert] None).
  reflexivity.
Defined.

Definition ctx1 : Notify.Context := default ex_ctx ((λ x, x.2.1.1) <$> run1).

Lemma run1_result : run1 = Some (world1, (ctx1, [ex_alert], None)).
Proof. vm_compute. reflexivity. Qed.

Lemma world1_logged : Notify.w_log world1 ≠ Notify.w_log ex_world.
Proof. intros E%(f_equal (λ l, size (Nflog.st l))). vm_compute in E. done. Qed.

(** A later run, with a later clock and in a world that has lost everything but
    the log. *)
Definition ex_later : Notify.oracle := Notify.mkOracle None (λ _, 35) 35 [] 40 40.
Definition later_world : Notify.World unit := Notify.mkWorld (Notify.w_log world1) ∅ tt [].

Lemma pipeline_no_duplicate_witness :
  ∃ ctx2, Notify.integration_stage "team" ex_integration ex_later later_world ex_ctx [ex_alert] =
    Some (later_world, (ctx2, [], None)).
Proof.
  apply (NotifyInv.pipeline_no_duplicate "team" ex_integration ex_oracle ex_world ex_ctx [ex_alert]
           world1 ctx1 [ex_alert] gkey 10 later_world ex_later ex_ctx [ex_alert] 10);
    [discriminate|reflexivity|reflexivity|lia|vm_compute; reflexivity| |vm_compute; discriminate
    |exact run1_result|exact world1_logged|reflexivity|reflexivity|reflexivity|reflexivity
    |intros H; vm_compute in H; discriminate|done|done|vm_compute; discriminate].
  intros prev Hp. vm_compute in Hp. discriminate.
Defined.

(** An infinite run: one retryable error, then successes. *)
Definition ex_rounds (n : nat) : Notify.round :=
  match n with
  | O => Notify.RoundTick (Notify.NotifyError true 500) false id
  | S _ => Notify.RoundTick Notify.NotifySuccess false id
  end.

(** A codec that accepts every entry. *)
Definition total_codec : Nflog.NflogCodec := {|
  Nflog.MarshalTo _ := Some [0];
  Nflog.UnmarshalFrom _ := Nflog.UnmarshalEOF;
|}.

Lemma due_notification_delivered_witness :
  ∃ bound, ∀ k, (bound ≤ k)%nat → ∃ w' ctx',
    Notify.integration_stage (NC := total_codec) "team" ex_integration (PipelineLive.with_rounds ex_rounds k ex_oracle) ex_world ex_ctx
      [ex_alert] = Some (w', (ctx', [ex_alert], None)).
Proof.
  destruct (PipelineLive.due_notification_delivered (NC := total_codec) "team" ex_integration ex_oracle ex_world ex_ctx [ex_alert] gkey 10
    ex_rounds 1) as [bound H];
    [discriminate|reflexivity|reflexivity|discriminate|reflexivity| |left; reflexivity| |reflexivity|
     reflexivity|vm_compute; reflexivity|lia| |vm_compute; discriminate|].
  - apply NotifyInv.shouldNotify_spec. vm_compute. reflexivity.
  - intros m Hm. destruct m; [reflexivity|lia].
  - intros prev Hp. vm_compute in Hp. discriminate.
  - exists bound. intros k Hk. destruct (H k Hk) as (w' & ctx' & f & e & H1 & _). exists w', ctx'. exact H1.
Defined.

Definition run2 := Notify.integration_stage "team" ex_integration ex_failing ex_world ex_ctx [ex_alert].
Definition world2 : Notify.World unit := default world1 (fst <$> run2).
Definition ctx2 : Notify.Context := default ex_ctx ((λ x, x.2.1.1) <$> run2).

Lemma pipeline_failure_keeps_log_witness : Notify.w_log world2 = Notify.w_log ex_world.
Proof.
  apply (NotifyInv.pipeline_failure_keeps_log "team" ex_integration ex_failing ex_world
    ex_ctx [ex_alert] world2 ctx2 []
    (Notify.ErrRetryCanceled 0 (Notify.ErrCtx Notify.Canceled)) gkey 10);
    [discriminate|reflexivity|reflexivity|vm_compute; reflexivity].
Defined.

(** ** Time intervals

    The last three days of each month, and weekends. *)
Definition month_end : TimeInterval.TimeInterval :=
  TimeInterval.mkTimeInterval None None (Some [TimeInterval.mkRange (-3) (-1)]) None None None.
Definition weekends : TimeInterval.TimeInterval :=
  TimeInterval.mkTimeInterval None
    (Some [TimeInterval.mkRange 0 0; TimeInterval.mkRange 6 6]) None None None None.
Definition ex_intervener : TimeInterval.Intervener :=
  {["month-end"%string := [month_end]; "weekends"%string := [weekends]]}.

(** February 29, 2024, 10:00 UTC, and the Saturday after it. *)
Definition leap_day : time := (Calendar.day_of_date 2024 2 29 * 86400 + 36000) * second.
Definition saturday : time := (Calendar.day_of_date 2024 3 2 * 86400 + 36000) * second.

Lemma contains_time_exact_witness :
  TimeInterval.ContainsTime month_end (Calendar.mkTime leap_day Calendar.UTC) = true ↔
  TimeIntervalInv.satisfies month_end 2024 2 29 4 600.
Proof.
  apply (TimeIntervalInv.contains_time_exact month_end (Calendar.mkTime leap_day Calendar.UTC)
           2024 2 29).
  - intros u v. cbn. lia.
  - split_and!; [lia|lia|lia| |]; vm_compute; [discriminate|reflexivity].
Defined.

Example month_end_contains :
  TimeInterval.ContainsTime month_end (Calendar.mkTime leap_day Calendar.UTC) = true ∧
  TimeInterval.ContainsTime month_end (Calendar.mkTime saturday Calendar.UTC) = false.
Proof. split; vm_compute; reflexivity. Qed.

Definition muting_ctx : Notify.Context :=
  Notify.WithActiveTimeIntervals
    (Notify.WithMuteTimeIntervals (Notify.WithNow ex_ctx saturday) ["weekends"%string]) [].
Definition muted_world : Notify.World unit :=
  Notify.set_groups (Marker.SetMuted (Marker.SetMuted ∅ "r" gkey []) "r" gkey ["weekends"%string])
    ex_world.

Lemma time_stages_follow_calendar_witness :
  (([] : list Alert.Alert) = [] ∨ [] = [ex_alert]) ∧
  (([] : list Alert.Alert) = [] ↔
    (([] : list string) ≠ [] ∧ ¬ TimeStages.inside ex_intervener saturday []) ∨
    TimeStages.inside ex_intervener saturday ["weekends"%string]) ∧
  (NotifyInv.marked muted_world "r" gkey ↔ ([] : list Alert.Alert) = []).
Proof.
  apply (TimeStages.time_stages_follow_calendar ex_intervener ex_world muting_ctx [ex_alert]
           muted_world muting_ctx [] "r" gkey saturday ["weekends"%string] []);
    [reflexivity..|discriminate|vm_compute; reflexivity].
Defined.

Section text.
Context `{UL : UnicodeLower}.

(** Ranges of every kind in capital letters or numbers, read and printed. *)
Example ranges_accepted :
  TimeInterval.weekday_UnmarshalYAML (Some "Monday:FRIDAY"%string) = Ok (TimeInterval.mkRange 1 5) ∧
  TimeInterval.day_UnmarshalYAML (Some "-3:-1"%string) = Ok (TimeInterval.mkRange (-3) (-1)) ∧
  TimeInterval.month_UnmarshalYAML (Some "may:8"%string) = Ok (TimeInterval.mkRange 5 8) ∧
  TimeInterval.time_UnmarshalYAML (Some (TimeInterval.mkYamlTimeRange "09:30" "24:00")) =
    Ok (TimeInterval.mkTimeRange 570 1440) ∧
  TimeInterval.time_MarshalYAML (TimeInterval.mkTimeRange 570 1440) =
    TimeInterval.mkYamlTimeRange "09:30" "24:00" ∧
  TimeInterval.MarshalText (TimeInterval.mkRange (-3) (-1)) = "-3:-1"%string.
Proof. split_and!; vm_compute; reflexivity. Qed.
End text.

(** ** Truncation *)
Lemma wide_text_bytes : Forall is_byte NotifyUtil.wide_text.
Proof. unfold NotifyUtil.wide_text, is_byte. cbn. repeat (constructor; [lia|]). constructor. Qed.

Lemma truncate_in_bytes_longest_prefix_witness :
  ∃ j, NotifyUtil.TruncateInBytes NotifyUtil.wide_text 30 48 =
      Some (encode_runes (take j (runes NotifyUtil.wide_text)) ++ NotifyUtil.truncationMarker, true) ∧
    Z.of_nat (length (encode_runes (take j (runes NotifyUtil.wide_text)) ++ NotifyUtil.truncationMarker)) ≤ 30 ∧
    (j < length (runes NotifyUtil.wide_text))%nat ∧
    30 < Z.of_nat (length (encode_runes (take (S j) (runes NotifyUtil.wide_text)) ++ NotifyUtil.truncationMarker)).
Proof.
  apply (NotifyUtil.truncate_in_bytes_longest_prefix NotifyUtil.wide_text 30 48);
    [exact wide_text_bytes|vm_compute; done..|vm_compute; lia|vm_compute; done].
Defined.

Lemma truncate_in_runes_fits_witness :
  ∃ out b, NotifyUtil.TruncateInRunes NotifyUtil.wide_text 10 48 = Some (out, b) ∧
    Z.of_nat (length (runes out)) ≤ 10 ∧ (b = false → out = NotifyUtil.wide_text).
Proof.
  apply (NotifyUtil.truncate_in_runes_fits NotifyUtil.wide_text 10 48);
    [exact wide_text_bytes|done|vm_compute; lia|].
  assert (E : runes NotifyUtil.wide_text = replicate 40 8364) by (vm_compute; reflexivity).
  rewrite E. apply Forall_replicate. split; [lia|reflexivity].
Defined.

(** ** Stores *)
Definition ex_resolved : Alert.Alert := Alert.mkAlert api_labels ∅ 10 20 ""%string 20 false.
Definition ex_store0 : Store.Alerts := (Store.Set_ Store.NewAlerts ex_resolved 15).1.
Definition ex_store1 : Store.Alerts := Store.DeleteIfNotModified ex_store0 [ex_resolved] true.

Lemma store_destroyed_empty_witness :
  Store.alerts ex_store1 = ∅ ∧ Store.Set_ ex_store1 ex_alert 30 = (ex_store1, Some Store.ErrDestroyed).
Proof.
  apply (Store.store_destroyed_empty Store.NewAlerts);
    [reflexivity| |vm_compute; reflexivity].
  eapply rtc_l; [apply (Store.step_Set _ ex_resolved 15)|].
  apply rtc_once. apply (Store.step_Delete _ [ex_resolved] true).
Defined.

Definition ex_env : Provider.put_env := Provider.mkPutEnv (λ _ _, true) 15 15 15 (λ _, false).
Definition ex_provider : Provider.Alerts := Provider.NewAlerts 0.
Definition ex_subscribed : Provider.Alerts := (Provider.SlurpAndSubscribe ex_provider "inhibitor").2.
Definition ex_put : Provider.Alerts := Provider.put_one ex_subscribed ex_alert ex_env.

Lemma provider_subscriber_complete_witness :
  Provider.replay ((Provider.SlurpAndSubscribe ex_provider "inhibitor").1 ++ [ex_alert])
    !! Store.alert_Fingerprint ex_alert = Some ex_alert.
Proof.
  apply (Provider.provider_subscriber_complete ex_provider "inhibitor" ex_put
           (Provider.mkListener "inhibitor" [ex_alert] false)).
  - intros fp a. cbn. by rewrite lookup_empty.
  - apply rtc_once, Provider.step_put.
  - reflexivity.
  - reflexivity.
  - vm_compute. reflexivity.
Defined.

(** ** Inhibition

    Source alerts have severity critical, targets severity warning, and the job
    must agree. *)
Definition eq_matcher (n v : string) : Labels.Matcher := Labels.mkMatcher Labels.MatchEqual n v None.
Definition source_labels (inst : string) : LabelSet :=
  {["job"%string := "api"%string; "severity"%string := "critical"%string; "instance"%string := inst]}.
Definition target_labels : LabelSet :=
  {["job"%string := "api"%string; "severity"%string := "warning"%string]}.
Definition ex_config : Inhibit.InhibitRuleConfig :=
  Inhibit.mkConfig "rule" ∅ ∅ [eq_matcher "severity" "critical"] ∅ ∅ [eq_matcher "severity" "warning"]
    ["job"%string].
Definition ex_rule : Inhibit.InhibitRule :=
  Inhibit.mkRule "rule" [eq_matcher "severity" "critical"] [eq_matcher "severity" "warning"]
    {["job"%string]} Store.NewAlerts ∅.
Definition source_alert (inst : string) (ends : time) : Alert.Alert :=
  Alert.mkAlert (source_labels inst) ∅ 10 ends ""%string 20 false.

Lemma ex_rule_new : Inhibit.NewInhibitRule ex_config = Some ex_rule.
Proof. vm_compute. reflexivity. Qed.

Lemma ex_inhibits : Inhibit.inhibits ex_rule (source_alert "a" 100) target_labels 30.
Proof.
  split_and!.
  - repeat constructor.
  - repeat constructor.
  - intros n Hn. change (n ∈ ({["job"%string]} : gset string)) in Hn.
    apply elem_of_singleton in Hn as ->. reflexivity.
  - reflexivity.
  - intros [H _]. apply Labels.matchesb_spec in H. vm_compute in H. discriminate.
Qed.

Definition ex_rule1 : Inhibit.InhibitRule := Inhibit.process_rule (source_alert "a" 100) 20 ex_rule.

Lemma inhibit_mutes_sound_witness :
  ∃ r a, r ∈ [ex_rule1] ∧
    Store.alerts (Inhibit.scache r) !! Store.alert_Fingerprint (source_alert "a" 100) = Some a ∧
    Inhibit.inhibits r a target_labels 30.
Proof.
  apply (Inhibit.inhibit_mutes_sound (λ _, True) [ex_rule1] target_labels 30
           (Store.alert_Fingerprint (source_alert "a" 100)) code_fingerprint_ok).
  - intros r ->%list_elem_of_singleton. split; [|done]. exists ex_config, ex_rule.
    split; [exact ex_rule_new|]. by apply Inhibit.process_rule_steps.
  - vm_compute. reflexivity.
Defined.

Lemma ex_rule_empty fp b : Store.alerts (Inhibit.scache ex_rule) !! fp = Some b → False.
Proof.
  change (Store.alerts (Inhibit.scache ex_rule)) with (∅ : gmap Z Alert.Alert).
  by rewrite lookup_empty.
Qed.

Lemma inhibit_effective_witness :
  Inhibit.hasEqual (Inhibit.process_rule (source_alert "a" 100) 30 ex_rule) target_labels
    (Labels.matchesb (Inhibit.SourceMatchers ex_rule) target_labels) 30 =
    Some (Store.alert_Fingerprint (source_alert "a" 100)).
Proof.
  apply (Inhibit.inhibit_effective (λ _, True) ex_rule (source_alert "a" 100) 30
           (Store.Set_ Store.NewAlerts (source_alert "a" 100) 30).1 target_labels code_fingerprint_ok).
  - eapply Inhibit.New_inv, ex_rule_new.
  - exact I.
  - reflexivity.
  - exact ex_inhibits.
  - intros fp b Hb. destruct (ex_rule_empty fp b Hb).
Defined.

(** Two source alerts with the same job fire until 100 and 50.  The index points
    to the longer one.  When the shorter one is resolved and collected, the
    callback drops the index entry, and the target is not inhibited any more
    although the longer source alert is still cached and firing. *)
Definition ex_rule2 : Inhibit.InhibitRule := Inhibit.process_rule (source_alert "b" 50) 20 ex_rule1.
Definition ex_rule_gc : Inhibit.InhibitRule := Inhibit.rule_GC ex_rule2 (λ _, 60) 60.

(** collecting one resolved source alert can end the inhibition by another one
    that is still firing: the alert is still cached and still inhibits the
    target by the rule's own terms, but [Mutes] no longer finds it. *)
Theorem inhibition_lost_after_gc :
  Inhibit.Mutes [ex_rule2] target_labels 59 = Some (Store.alert_Fingerprint (source_alert "a" 100)) ∧
  Store.alerts (Inhibit.scache ex_rule_gc) !! Store.alert_Fingerprint (source_alert "a" 100) =
    Some (source_alert "a" 100) ∧
  Inhibit.inhibits ex_rule_gc (source_alert "a" 100) target_labels 60 ∧
  Inhibit.Mutes [ex_rule_gc] target_labels 60 = None.
Proof.
  split_and!; [vm_compute; reflexivity..| |vm_compute; reflexivity].
  split_and!.
  - repeat constructor.
  - repeat constructor.
  - intros n Hn. change (n ∈ ({["job"%string]} : gset string)) in Hn.
    apply elem_of_singleton in Hn as ->. reflexivity.
  - reflexivity.
  - intros [H _]. apply Labels.matchesb_spec in H. vm_compute in H. discriminate.
Qed.
End PipelineExamples.
