(* ===== verification/Silencer.v ===== *)
(** * The silencer (silence/cache.go, Silencer of silence/silence.go)

    [Mutes] decides whether an alert is silenced.  It keeps, per fingerprint,
    the ids of the silences that matched and the version of the store they were
    computed at, re-checks those ids, and only looks for matches among the
    silences that are newer than that version. *)

From stdpp Require Import base gmap strings list sorting relations.
From S2P Require Import Prelude Utf8 Labels Lww Silence SilenceInv SilenceOps Alert.

Import Silence.

Module Silencer.

(** ** cache.go *)
Record cacheEntry := mkCacheEntry {
  silenceIDs : list string;
  ce_version : Z;
}.

Abbreviation cache := (gmap Z cacheEntry).

Definition newCacheEntry (version : Z) (ids : list string) : cacheEntry :=
  mkCacheEntry ids version.
Definition count (e : cacheEntry) : nat := length (silenceIDs e).
Definition cache_get (c : cache) (fp : Z) : cacheEntry := default (mkCacheEntry [] 0) (c !! fp).
Definition cache_set (c : cache) (fp : Z) (e : cacheEntry) : cache := <[fp := e]> c.
Definition cache_delete (c : cache) (fp : Z) : cache := delete fp c.

Section silencer.
Context `{RE : Regexp, FP : Fingerprinter}.

(** The result list of a query; on an error there is none. *)
Definition sils_of (r : result error (list PbSilence)) : list PbSilence :=
  match r with Ok l => l | Err _ => [] end.

(** The loop that sorts the silences found into active and all ids, skipping
    the ids already seen. *)
Fixpoint categorize (now : time) (sils : list PbSilence)
    (seen : gset string) (activeIDs allIDs : list string) : list string * list string :=
  match sils with
  | [] => (activeIDs, allIDs)
  | sil :: sils =>
      if bool_decide (Id sil ∈ seen) then categorize now sils seen activeIDs allIDs else
      let seen := {[Id sil]} ∪ seen in
      match getState sil now with
      | SilenceStatePending => categorize now sils seen activeIDs (allIDs ++ [Id sil])
      | SilenceStateActive =>
          categorize now sils seen (activeIDs ++ [Id sil]) (allIDs ++ [Id sil])
      | SilenceStateExpired => categorize now sils seen activeIDs allIDs
      end
  end.

Record mutes_result := mkMutes {
  mr_cache : cache;
  mr_marked : list string;   (** the ids set on the marker *)
  mr_mutes : bool;
}.

(** [Mutes].  The version check and the two queries lock the store one after
    the other, so each sees its own state of the store ([sv], [so], [sn]) and
    its own clock reading. *)
Definition Mutes_at (c : cache) (sv so sn : Silences) (t_old t_new now : time)
    (lset : LabelSet) : mutes_result :=
  let fp := Fingerprint lset in
  let cachedEntry := cache_get c fp in
  let cacheIsUpToDate := ce_version cachedEntry =? version sv in
  if cacheIsUpToDate && (count cachedEntry =? 0)%nat then mkMutes c [] false else
  let oldSils :=
    if (0 <? count cachedEntry)%nat then
      sils_of (Query so [QIDs (silenceIDs cachedEntry);
                         QState [SilenceStateActive; SilenceStatePending]] t_old).1
    else [] in
  let '(newSils, newVersion) :=
    if negb cacheIsUpToDate then
      let r := Query sn [QSince (ce_version cachedEntry);
                         QState [SilenceStateActive; SilenceStatePending];
                         QMatches lset] t_new in
      (sils_of r.1, r.2)
    else ([], ce_version cachedEntry) in
  if (length oldSils + length newSils =? 0)%nat then
    mkMutes (cache_set c fp (newCacheEntry newVersion [])) [] false
  else
    let '(activeIDs, allIDs) := categorize now (oldSils ++ newSils) ∅ [] [] in
    let c := cache_set c fp (newCacheEntry newVersion allIDs) in
    let mutes := (0 <? length activeIDs)%nat in
    mkMutes c (if mutes then activeIDs else []) mutes.

(** [Mutes] when nothing else touches the store in between. *)
Definition Mutes (c : cache) (s : Silences) (now : time) (lset : LabelSet) : mutes_result :=
  Mutes_at c s s s now now now lset.

(** The deferred update of the group's marker. *)
Definition Mutes_mark (m : gmap Z Marker.alertStatus) (r : mutes_result) (lset : LabelSet)
    : gmap Z Marker.alertStatus :=
  Marker.SetSilenced m (Fingerprint lset) (mr_marked r).

(** [PostGC]. *)
Definition PostGC (c : cache) (ff : list Z) : cache := foldl cache_delete c ff.
End silencer.
End Silencer.

(** * The silencer's cache is exact

    [world] is a store, the silencer's cache and the clock.  While silences are
    created, updated, expired, collected and gossiped, the cached entries stay
    consistent with the store, so [Mutes] gives the answer a scan of all
    silences would give.  What [Set] guarantees on the sending peer is assumed of
    gossip: the matchers of an id never change.  A gossip message may still revive
    a silence that has expired here, which the cache misses because the version
    of the store only counts new ids; the ids of which this has happened are
    collected in the ghost state [revived]. *)
Import Silence SilenceInv SilenceOps Silencer.

Module SilencerInv.

(** The specification: some stored silence is active and one of its matcher
    sets is satisfied. *)
Definition silenced_by `{Regexp} (s : Silences) (now : time) (lset : LabelSet) (id : string) : Prop :=
  ∃ m ms, st s !! id = Some m ∧ getState (Silence m) now = SilenceStateActive ∧
    compile_sets (MatcherSets (Silence m)) = Ok ms ∧ Labels.sat_any ms lset.

(** The matchers of a silence compile to well-formed matchers. *)
Lemma compile_matchers_wf `{Regexp} ms : ∀ cs, compile_matchers ms = Ok cs → Forall Labels.wf_matcher cs.
Proof.
  induction ms as [|m ms IH]; intros cs; cbn; [by intros [= <-]|].
  intros (c & Hc & (cs' & Hcs & [= <-])%result_bind_Ok)%result_bind_Ok.
  constructor; [|by apply IH]. apply result_bind_Ok in Hc as (mt & _ & Hc).
  destruct (Labels.NewMatcher mt (pm_Name m) (pm_Pattern m)) eqn:Hn; [|done].
  injection Hc as <-. by eapply Labels.NewMatcher_wf.
Qed.

Lemma compile_sets_wf `{Regexp} sets : ∀ ms,
  compile_sets sets = Ok ms → Forall (Forall Labels.wf_matcher) ms.
Proof.
  induction sets as [|x sets IH]; intros ms; cbn; [by intros [= <-]|].
  intros (c & Hc & (cs & Hcs & [= <-])%result_bind_Ok)%result_bind_Ok.
  constructor; [by eapply compile_matchers_wf|by apply IH].
Qed.

Section silencer.
Context `{RE : Regexp, LV : LabelValidation, SC : SilenceCodec, MR : MapRange, FP : Fingerprinter}.
Context (sets_of : string → list PbMatcherSet) (matchers_of : string → Labels.MatcherSet).
Context (U : LabelSet → Prop).
Hypothesis compiled : ∀ id, compile_sets (sets_of id) = Ok (matchers_of id).
Hypothesis collision_free : ∀ l1 l2, U l1 → U l2 → Fingerprint l1 = Fingerprint l2 → l1 = l2.
Implicit Types (s : Silences) (e m : MeshSilence) (id : string) (c : cache).

Definition unexpired (sil : PbSilence) (now : time) : Prop := getState sil now ≠ SilenceStateExpired.

#[global] Instance unexpired_dec sil now : Decision (unexpired sil now).
Proof. unfold unexpired. apply _. Defined.

Record sinv (s : Silences) : Prop := {
  si_wf : wf s;
  si_sets : ∀ id m, st s !! id = Some m → MatcherSets (Silence m) = sets_of id;
  si_mi : ∀ id m, st s !! id = Some m → mi s !! id = Some (matchers_of id);
  si_vi : ∀ id m, st s !! id = Some m → ∃ v, mkSilenceVersion id v ∈ vi s;
  si_pos : ∀ sv, sv ∈ vi s → 0 < sv_version sv;
  si_ver : 0 ≤ version s;
}.

Definition relevant (s : Silences) (now : time) (lset : LabelSet) (id : string) (v : Z) : Prop :=
  mkSilenceVersion id v ∈ vi s ∧ Labels.matches_setb (matchers_of id) lset = true ∧
  ∃ m, st s !! id = Some m ∧ unexpired (Silence m) now.

(** A cached entry, up to the ids in [R]. *)
Record entry_ok (R : gset string) (s : Silences) (now : time) (lset : LabelSet) (ce : cacheEntry) : Prop := {
  eo_version : ce_version ce ≤ version s;
  eo_complete : ∀ id v, id ∉ R → relevant s now lset id v → v ≤ ce_version ce → id ∈ silenceIDs ce;
  eo_sound : ∀ id, id ∈ silenceIDs ce → Labels.matches_setb (matchers_of id) lset = true;
}.

Definition cache_ok (R : gset string) (s : Silences) (c : cache) (now : time) : Prop :=
  ∀ lset, U lset → entry_ok R s now lset (cache_get c (Fingerprint lset)).

(** ** The discipline *)
Definition admissible (R : gset string) (s : Silences) (e : MeshSilence) (now : time) : Prop :=
  MatcherSets (Silence e) = sets_of (Id (Silence e)) ∧
  ∀ prev, st s !! Id (Silence e) = Some prev → unexpired (Silence e) now → Id (Silence e) ∉ R →
    unexpired (Silence prev) now.

Lemma unexpired_earlier sil now now' : now ≤ now' → unexpired sil now' → unexpired sil now.
Proof. unfold unexpired, getState, Before, After. intros Hle. go_cases; (done || lia). Qed.

Lemma upgraded_unexpired e now :
  unexpired (Silence (upgraded e)) now ↔ unexpired (Silence e) now.
Proof. unfold unexpired. cbn. by rewrite upgrade_comments_getState. Qed.

Lemma sinv_emit x s : sinv s → sinv (emit x s).
Proof. intros []. constructor; [by apply wf_emit|done..]. Qed.

(** What absorbing one disciplined entry does, in terms of the store's maps. *)
Lemma absorb_cases s e now :
  sinv s → MatcherSets (Silence e) = sets_of (Id (Silence e)) →
  let id := Id (Silence e) in
  absorb s e now = s ∨
  (∃ prev, st s !! id = Some prev ∧
     absorb s e now = set_st (<[id := upgraded e]> (st s)) s) ∨
  (st s !! id = None ∧ st (absorb s e now) = <[id := upgraded e]> (st s) ∧
     mi (absorb s e now) = <[id := matchers_of id]> (mi s) ∧
     vi (absorb s e now) = vi s ++ [mkSilenceVersion id (version s + 1)] ∧
     version (absorb s e now) = version s + 1).
Proof using compiled.
  intros Hs Hsets. cbn. unfold absorb.
  assert (Heta : set_st (st s) s = s) by by destruct s.
  destruct (merge_outP (st s) e now) as [Hx|Hx Hn|prev Hx Hp Hlt|prev Hx Hp Hle]; cbn;
    [left; done| |right; left; eauto|left; done].
  right; right. split; [done|]. unfold indexSilence, matcherIndex_add. cbn.
  by rewrite Hsets, compiled.
Qed.

Lemma sinv_absorb s e now :
  sinv s → MatcherSets (Silence e) = sets_of (Id (Silence e)) → sinv (absorb s e now).
Proof using compiled.
  intros Hs Hsets. pose proof (wf_absorb s e now (si_wf s Hs)) as Hwf.
  destruct (absorb_cases s e now Hs Hsets) as [->|[(prev & Hp & E)|(Hn & Est & Emi & Evi & Ev)]]; [done| |].
  - rewrite E in *. constructor; cbn; [done|..|apply Hs|apply Hs].
    + intros id m [[<- <-]|[_ Hm]]%lookup_insert_Some; [|by apply Hs].
      cbn. by rewrite upgrade_comments_MatcherSets.
    + intros id m [[<- <-]|[_ Hm]]%lookup_insert_Some; by eapply si_mi.
    + intros id m [[<- <-]|[_ Hm]]%lookup_insert_Some; by eapply si_vi.
  - constructor; rewrite ?Est, ?Emi, ?Evi, ?Ev; [done|..].
    + intros id m [[<- <-]|[_ Hm]]%lookup_insert_Some; [|by apply Hs].
      cbn. by rewrite upgrade_comments_MatcherSets.
    + intros id m [[<- <-]|[Hne Hm]]%lookup_insert_Some; [by rewrite lookup_insert_eq|].
      rewrite lookup_insert_ne by done. by eapply si_mi.
    + intros id m [[<- <-]|[Hne Hm]]%lookup_insert_Some.
      * exists (version s + 1). apply elem_of_app. right. by apply list_elem_of_singleton.
      * destruct (si_vi s Hs id m Hm) as [v Hv]. exists v. apply elem_of_app. by left.
    + intros sv [Hsv| ->%list_elem_of_singleton]%elem_of_app; [by apply Hs|].
      pose proof (si_ver s Hs). cbn. lia.
    + pose proof (si_ver s Hs). lia.
Qed.

(** ** Operations as disciplined runs *)
Inductive dmicro (R : gset string) (now : time) : relation Silences :=
| dmicro_emit s x : dmicro R now s (emit x s)
| dmicro_absorb s e : admissible R s e now → dmicro R now s (absorb s e now).

Lemma dmicro_sinv R now s s' : rtc (dmicro R now) s s' → sinv s → sinv s'.
Proof using compiled.
  induction 1 as [|s1 s2 s3 Hstep _ IH]; [done|]. intros Hs. apply IH.
  destruct Hstep as [s x|s e [Hsets _]]; auto using sinv_emit, sinv_absorb.
Qed.

Lemma entry_ok_absorb R s e now lset ce :
  sinv s → admissible R s e now → entry_ok R s now lset ce → entry_ok R (absorb s e now) now lset ce.
Proof using compiled.
  intros Hs [Hsets Hrev] [Hv Hc Hso].
  destruct (absorb_cases s e now Hs Hsets) as [->|[(prev & Hp & ->)|(Hn & Est & Emi & Evi & Ev)]]; [done| |].
  - split; cbn; [done| |done]. intros id v HR (Hvi & Hm & m & Hst & Hun). apply Hc; [done|]. cbn in Hst.
    apply lookup_insert_Some in Hst as [[<- <-]|[_ Hst]]; repeat split; eauto.
    exists prev. split; [done|]. apply Hrev; [done| |done]. by apply upgraded_unexpired.
  - split; [lia| |done]. intros id v HR (Hvi & Hm & m & Hst & Hun) Hle. rewrite Evi in Hvi.
    apply elem_of_app in Hvi as [Hvi|Hvi%list_elem_of_singleton]; [|simplify_eq; lia].
    apply (Hc id v); [done| |done]. repeat split; [done..|]. exists m. split; [|done].
    rewrite Est in Hst. apply lookup_insert_Some in Hst as [[<- _]|[_ ?]]; [|done].
    destruct (wf_vi_st s (si_wf s Hs) _ Hvi) as [x Hx]. cbn in Hx. congruence.
Qed.

Lemma entry_ok_emit R s x now lset ce : entry_ok R s now lset ce → entry_ok R (emit x s) now lset ce.
Proof. by intros []. Qed.

Lemma dmicro_cache_ok R now s s' c :
  rtc (dmicro R now) s s' → sinv s → cache_ok R s c now → cache_ok R s' c now.
Proof using compiled.
  induction 1 as [|s1 s2 s3 Hstep _ IH]; [done|]. intros Hs Hc.
  apply IH; [by apply (dmicro_sinv R now s1); [apply rtc_once|]|]. intros lset HU. destruct Hstep.
  - by apply entry_ok_emit, Hc.
  - by apply entry_ok_absorb; [..|apply Hc].
Qed.

Lemma setSilence_dmicro R s msil now :
  admissible R s msil now → rtc (dmicro R now) s (setSilence s msil now).1.
Proof.
  intros Ha. unfold setSilence. destruct (marshalMeshSilence msil) as [b|]; [|done].
  pose proof (dmicro_absorb R now s msil Ha) as H. unfold absorb in H.
  destruct (merge (st s) msil now) as [[st' changed] added]. cbn in *.
  destruct changed; [|by apply rtc_once]. eapply rtc_l; [done|]. apply rtc_once, dmicro_emit.
Qed.

Lemma admissible_over R s sil p now :
  getSilence s (Id sil) = Some p → unexpired p now → MatcherSets sil = sets_of (Id sil) →
  admissible R s (toMeshSilence s sil) now.
Proof.
  unfold getSilence. intros (m & Hm & ->)%fmap_Some Hun Hsets. split; [done|].
  cbn. intros prev Hp _. congruence.
Qed.

Lemma expire_dmicro R s id now : sinv s → rtc (dmicro R now) s (expire s id now).1.
Proof.
  intros Hs. unfold expire. destruct (getSilence s id) as [sil|] eqn:Hg; [|done].
  pose proof Hg as (m & Hm & ->)%fmap_Some.
  pose proof (wf_keys s (si_wf s Hs) id m Hm) as Hid.
  destruct (getState (Silence m) now) eqn:Hst; [done|..];
    match goal with |- context [setSilence s ?M now] =>
      assert (Ha : admissible R s M now) by
        (apply admissible_over with (Silence m); cbn; rewrite ?Hid;
          [done|unfold unexpired; by rewrite Hst|by apply Hs]);
      apply setSilence_dmicro in Ha; by destruct (setSilence s M now) end.
Qed.

Lemma canUpdate_true a b now :
  canUpdate a b now = true → MatcherSets a = MatcherSets b ∧ unexpired a now.
Proof.
  unfold canUpdate, unexpired.
  destruct (bool_decide_reflect (MatcherSets a = MatcherSets b)) as [Hm|]; [|done].
  by destruct (getState a now).
Qed.

Lemma Set_update_dmicro R s sil p now :
  sinv s → getSilence s (Id sil) = Some p → canUpdate p sil now = true →
  rtc (dmicro R now) s (Set_update s sil now).1.1.
Proof.
  intros Hs Hg [Hm Hun]%canUpdate_true. unfold Set_update.
  destruct (checkSizeLimits _ _); [done|].
  assert (Ha : admissible R s (toMeshSilence s (set_UpdatedAt (timestamppb_New now) sil)) now).
  { apply admissible_over with p; [done..|]. cbn. rewrite <- Hm.
    apply fmap_Some in Hg as (m & Hst & ->). by apply Hs. }
  apply setSilence_dmicro in Ha. destruct (setSilence s _ now) as [s1 [[changed added]|]]; [|done].
  cbn in *. destruct changed; [|done]. eapply rtc_r; [done|]. apply dmicro_emit.
Qed.

(** The request is for a fresh id with that id's matchers. *)
Definition fresh_request (s : Silences) (sil : PbSilence) (now : time) (uid : option string) : Prop :=
  ∀ u, uid = Some u → st s !! u = None ∧ MatcherSets (accepted sil now) = sets_of u.

Lemma expire_st_None s id now u :
  sinv s → st s !! u = None → st (expire s id now).1 !! u = None.
Proof.
  intros Hs Hn. unfold expire. destruct (getSilence s id) as [sil|] eqn:Hg; [|done].
  pose proof Hg as (m & Hm & ->)%fmap_Some.
  pose proof (wf_keys s (si_wf s Hs) id m Hm) as Hid.
  destruct (getState (Silence m) now); [done|..];
    match goal with |- context [setSilence s ?M now] =>
      destruct (setSilence s M now) as [s1 r] eqn:E; apply setSilence_cases in E;
      destruct r as [[]|]; cbn; [|by subst];
      destruct E as (_ & -> & _); rewrite merge_lookup_ne; cbn; congruence end.
Qed.

Lemma Set_create_dmicro R s sil prev now uid :
  sinv s → (∀ u, uid = Some u → st s !! u = None ∧ MatcherSets sil = sets_of u) →
  rtc (dmicro R now) s (Set_create s sil prev now now now uid).1.1.
Proof using compiled.
  intros Hs Hu. unfold Set_create. destruct (too_many s); [done|].
  destruct uid as [uid|]; [|done]. destruct (Hu uid eq_refl) as [Hn Hsets].
  destruct (checkSizeLimits _ _); [done|].
  assert (Hp : rtc (dmicro R now) s (expire_previous s prev now now).1 ∧
    st (expire_previous s prev now now).1 !! uid = None).
  { unfold expire_previous. destruct prev as [p|]; [|done].
    case_match; [|done]. split; [by apply expire_dmicro|by apply expire_st_None]. }
  destruct (expire_previous s prev now now) as [s1 [e|]]; cbn in Hp; destruct Hp as [Hp Hn1]; [exact Hp|].
  assert (Ha : admissible R s1 (toMeshSilence s (stamp_new sil uid now)) now).
  { destruct (stamp_new_fields sil uid now) as (Hid & _ & _ & _ & Hms).
    split; cbn [Silence toMeshSilence]; rewrite Hid; [by rewrite Hms|]. intros prev' ?. congruence. }
  apply setSilence_dmicro in Ha.
  destruct (setSilence s1 _ now) as [s2 [[changed added]|]]; cbn in *; [|by etrans].
  destruct added; [|by etrans]. eapply rtc_r; [by etrans|]. apply dmicro_emit.
Qed.

Lemma Set_dmicro R s sil now uid :
  sinv s → fresh_request s sil now uid →
  rtc (dmicro R now) s (Set_ s sil now now now uid).1.1.
Proof using compiled.
  intros Hs Hu. unfold Set_. destruct (validateSilence _) as [sil1 invalid] eqn:Hv.
  assert (sil1 = accepted sil now) as -> by by injection Hv.
  destruct invalid; [done|].
  destruct (bool_decide (Id (accepted sil now) ≠ ""%string) && _); [done|].
  destruct (getSilence s (Id (accepted sil now))) as [p|] eqn:Hg; [|by apply Set_create_dmicro].
  destruct (canUpdate p _ now) eqn:Hc; [|by apply Set_create_dmicro].
  by eapply Set_update_dmicro.
Qed.

(** Serialised silences that have the matchers of their ids. *)
Definition own_matchers (b : list Z) : Prop :=
  ∀ st', decodeState b = Ok st' → ∀ id e, st' !! id = Some e → MatcherSets (Silence e) = sets_of (Id (Silence e)).

(** The silences that have expired here and have not in a message. *)
Definition expired_here (s : Silences) (now : time) (id : string) : bool :=
  match st s !! id with Some prev => bool_decide (¬ unexpired (Silence prev) now) | None => false end.
Definition revived_by (s : Silences) (b : list Z) (now : time) : gset string :=
  match decodeState b with
  | Ok st' => dom (filter (λ x, unexpired (Silence x.2) now ∧ expired_here s now x.1 = true) st')
  | Err _ => ∅
  end.

Lemma absorb_other s e now id : id ≠ Id (Silence e) → st (absorb s e now) !! id = st s !! id.
Proof.
  intros Hne. unfold absorb. pose proof (merge_lookup_ne (st s) e now id Hne) as Hm.
  destruct (merge (st s) e now) as [[st' ?] []]; cbn in *; [|done].
  by destruct (indexSilence_fields (set_st st' s) (Silence e)) as (-> & _).
Qed.

Lemma merge_loop_dmicro R b now es : ∀ s,
  NoDup es.*1 → (∀ k e, (k, e) ∈ es → Id (Silence e) = k ∧ admissible R s e now) →
  rtc (dmicro R now) s (merge_loop s b now es).
Proof.
  induction es as [|[k e] es IH]; intros s Hnd Ha; [done|].
  apply NoDup_cons in Hnd as [Hnin Hnd].
  destruct (Ha k e) as [Hk He]; [by left|].
  assert (Hrest : ∀ s', (∀ id, id ≠ k → st s' !! id = st s !! id) →
    rtc (dmicro R now) s' (merge_loop s' b now es)).
  { intros s' Hs'. apply IH; [done|]. intros k' e' Hin.
    destruct (Ha k' e') as [Hk' [Hsets Hrev]]; [by right|]. split; [done|]. split; [done|].
    intros prev Hp. apply Hrev. rewrite <- Hs'; [done|]. rewrite Hk'. intros ->. apply Hnin.
    apply list_elem_of_fmap. by exists (k, e'). }
  cbn. pose proof (dmicro_absorb R now s e He) as Hstep.
  assert (Hoth : ∀ id, id ≠ k → st (absorb s e now) !! id = st s !! id).
  { intros id Hne. apply absorb_other. congruence. }
  unfold absorb in Hstep, Hoth. destruct (merge_outP (st s) e now); cbn in *;
    try (eapply rtc_l; [exact Hstep|by apply Hrest]);
    destruct (OversizedMessage b); eapply rtc_l; try exact Hstep; try (by apply Hrest);
    (eapply rtc_l; [apply dmicro_emit|]; by apply Hrest).
Qed.

Lemma Merge_dmicro R s b now :
  own_matchers b → revived_by s b now ⊆ R → rtc (dmicro R now) s (Merge s b now).1.
Proof.
  intros Ha HR. unfold Merge. destruct (decodeState b) as [st'|] eqn:Hd; [|done]. cbn.
  apply merge_loop_dmicro; [apply NoDup_fst_range|]. intros k e Hin%elem_of_range.
  assert (Hid : Id (Silence e) = k).
  { eapply decode_loop_keys; [|exact Hd|done]. by intros ???. }
  split; [done|]. split; [by eapply Ha|]. intros prev Hp Hu Hn.
  destruct (decide (unexpired (Silence prev) now)) as [|Hx]; [done|]. destruct Hn. apply HR.
  unfold revived_by. rewrite Hd, Hid in *. apply elem_of_dom. exists e. apply map_lookup_filter_Some.
  split; [done|]. split; [done|]. unfold expired_here. cbn. rewrite Hp. by apply bool_decide_eq_true.
Qed.

(** ** What the two queries of [Mutes] return *)
Abbreviation live_states := [SilenceStateActive; SilenceStatePending].

Lemma live_state_unexpired sil now :
  bool_decide (getState sil now ∈ live_states) = bool_decide (unexpired sil now).
Proof.
  apply bool_decide_ext. unfold unexpired. rewrite !elem_of_cons, elem_of_nil.
  destruct (getState sil now); naive_solver.
Qed.

Lemma query_ids_live s now ids :
  ∃ sils, query_ids s now [FState live_states] ids = Ok sils ∧
    ∀ sil, sil ∈ sils ↔ ∃ id m, id ∈ ids ∧ st s !! id = Some m ∧ sil = Silence m ∧
                                  unexpired (Silence m) now.
Proof.
  induction ids as [|id ids (sils & IH & Hs)]; cbn.
  { exists []. split; [done|]. intros sil. setoid_rewrite elem_of_nil. naive_solver. }
  setoid_rewrite elem_of_cons. destruct (st s !! id) as [m|] eqn:Hm.
  - rewrite live_state_unexpired. case_bool_decide as Hu; cbn; rewrite IH; cbn; eexists;
      (split; [done|]); intros sil; rewrite ?elem_of_cons, Hs; naive_solver.
  - eexists; split; [exact IH|]. intros sil. rewrite Hs. naive_solver.
Qed.

Lemma query_scan_live s now lset svs :
  sinv s → (∀ sv, sv ∈ svs → sv ∈ vi s) →
  ∃ sils, query_scan s now [FState live_states; FMatches lset] svs = Ok sils ∧
    ∀ sil, sil ∈ sils ↔ ∃ sv m, sv ∈ svs ∧ st s !! sv_id sv = Some m ∧ sil = Silence m ∧
      unexpired (Silence m) now ∧ Labels.matches_setb (matchers_of (sv_id sv)) lset = true.
Proof.
  intros Hi. induction svs as [|sv svs IH]; intros Hsub; cbn.
  { exists []. split; [done|]. intros sil. setoid_rewrite elem_of_nil. naive_solver. }
  destruct IH as (sils & IH & Hs); [intros; apply Hsub; by right|].
  setoid_rewrite elem_of_cons.
  destruct (wf_vi_st s (si_wf s Hi) sv) as [m Hm]; [apply Hsub; by left|]. rewrite Hm.
  rewrite live_state_unexpired. unfold matcherIndex_get.
  rewrite (wf_keys s (si_wf s Hi) _ m Hm), (si_mi s Hi _ m Hm).
  case_bool_decide as Hu; cbn;
    [destruct (Labels.matches_setb (matchers_of (sv_id sv)) lset) eqn:Hms|]; cbn; rewrite IH; cbn;
    eexists; (split; [done|]); intros sil; rewrite ?elem_of_cons, Hs; naive_solver congruence.
Qed.

Definition found (p : PbSilence → Prop) (sils : list PbSilence) (seen : gset string) id : Prop :=
  (id ∉ seen) ∧ (∃ sil, sil ∈ sils ∧ Id sil = id ∧ p sil).

Lemma found_cons p sil sils seen id :
  (∀ x, x ∈ sils → Id x = Id sil → x = sil) → Id sil ∉ seen →
  found p (sil :: sils) seen id ↔
    (id = Id sil ∧ p sil) ∨ found p sils ({[Id sil]} ∪ seen) id.
Proof.
  intros Hhd Hseen. unfold found. setoid_rewrite elem_of_cons.
  rewrite not_elem_of_union, not_elem_of_singleton.
  destruct (decide (id = Id sil)) as [->|]; naive_solver.
Qed.

Lemma found_skip p sil sils seen id :
  Id sil ∈ seen → found p (sil :: sils) seen id ↔ found p sils seen id.
Proof. unfold found. setoid_rewrite elem_of_cons. naive_solver. Qed.

Lemma categorize_spec now sils : ∀ seen act all act' all',
  (∀ x y, x ∈ sils → y ∈ sils → Id x = Id y → x = y) →
  categorize now sils seen act all = (act', all') →
  ∀ id,
  (id ∈ act' ↔ id ∈ act ∨ found (λ sil, getState sil now = SilenceStateActive) sils seen id) ∧
  (id ∈ all' ↔ id ∈ all ∨ found (λ sil, unexpired sil now) sils seen id).
Proof.
  induction sils as [|sil sils IH]; intros seen act all act' all' Huniq.
  { cbn. intros [= <- <-] id. unfold found. setoid_rewrite elem_of_nil. naive_solver. }
  assert (Hu : ∀ x y, x ∈ sils → y ∈ sils → Id x = Id y → x = y).
  { intros; apply Huniq; [by right..|done]. }
  assert (Hhd : ∀ x, x ∈ sils → Id x = Id sil → x = sil).
  { intros; apply Huniq; [by right|by left|done]. }
  cbn. case_bool_decide as Hseen.
  - intros E id. rewrite !found_skip by done. by apply (IH _ _ _ _ _ Hu E).
  - destruct (getState sil now) eqn:Hg; intros E id; rewrite !found_cons by done;
      destruct (IH _ _ _ _ _ Hu E id) as [-> ->];
      rewrite ?elem_of_app, ?list_elem_of_singleton; unfold unexpired; rewrite Hg; naive_solver.
Qed.

(** ** Mutes *)
Definition hits (s : Silences) (now : time) (lset : LabelSet) id m : Prop :=
  st s !! id = Some m ∧ Labels.matches_setb (matchers_of id) lset = true ∧ unexpired (Silence m) now.

Definition old_sils (s : Silences) (ce : cacheEntry) (now : time) : list PbSilence :=
  if (0 <? count ce)%nat then
    sils_of (Query s [QIDs (silenceIDs ce); QState live_states] now).1
  else [].

Definition new_sils (s : Silences) (ce : cacheEntry) (now : time) lset : list PbSilence :=
  sils_of (Query s [QSince (ce_version ce); QState live_states; QMatches lset] now).1.

Lemma elem_of_old_sils s ce now sil :
  sil ∈ old_sils s ce now ↔
    ∃ id m, id ∈ silenceIDs ce ∧ st s !! id = Some m ∧ sil = Silence m ∧ unexpired (Silence m) now.
Proof.
  unfold old_sils, count. destruct ce as [[|id ids] v]; cbn [silenceIDs length].
  - cbn. setoid_rewrite elem_of_nil. naive_solver.
  - destruct (query_ids_live s now (id :: ids)) as (sils & E & Hs). cbn [Nat.ltb Nat.leb].
    unfold Query, query_. cbn [apply_params apply_param q_ids q_since q_filters app mbind
      result_bind fst]. cbn [app] in *. rewrite E. apply Hs.
Qed.

Lemma elem_of_new_sils s ce now lset sil :
  sinv s →
  sil ∈ new_sils s ce now lset ↔
    ∃ id v m, mkSilenceVersion id v ∈ vi s ∧ ce_version ce < v ∧ hits s now lset id m ∧
      sil = Silence m.
Proof.
  intros Hi. unfold new_sils, Query.
  cbn [apply_params apply_param q_ids q_since q_filters app mbind result_bind].
  rewrite SilenceQuery.query_since_scan by apply Hi. cbn [fst].
  set (svs := List.filter _ (vi s)).
  assert (Hin : ∀ sv, sv ∈ svs ↔ sv ∈ vi s ∧ ce_version ce < sv_version sv).
  { intros sv. unfold svs. by rewrite list_elem_of_In, filter_In, <- list_elem_of_In, Z.ltb_lt. }
  destruct (query_scan_live s now lset svs Hi) as (sils & -> & Hs); [intros sv; by rewrite Hin; intros []|].
  cbn. rewrite Hs. setoid_rewrite Hin. unfold hits. split.
  - intros ([id v] & m & [? ?] & ? & -> & ? & ?). cbn in *. by exists id, v, m.
  - intros (id & v & m & ? & ? & (? & ? & ?) & ->). by exists (mkSilenceVersion id v), m.
Qed.

(** [sils] lists live silences that match, possibly several times, and all of
    them but some with ids in [R]. *)
Record lists_hits (R : gset string) (s : Silences) (now : time) lset (sils : list PbSilence) : Prop := {
  lh_sound : ∀ sil, sil ∈ sils → ∃ id m, hits s now lset id m ∧ sil = Silence m;
  lh_complete : ∀ id m, id ∉ R → hits s now lset id m → Silence m ∈ sils;
}.

(** The silences the two queries find together are the live ones that match. *)
Lemma all_sils R s ce now lset :
  sinv s → entry_ok R s now lset ce →
  lists_hits R s now lset (old_sils s ce now ++
    if ce_version ce =? version s then [] else new_sils s ce now lset).
Proof.
  intros Hi [Hv Hc Hso]. split.
  - intros sil. rewrite elem_of_app, elem_of_old_sils. intros [(id & m & Hid & Hm & -> & Hu)|Hnew].
    + exists id, m. split; [|done]. repeat split; auto.
    + destruct (ce_version ce =? version s); [by apply elem_of_nil in Hnew|].
      apply elem_of_new_sils in Hnew as (id & v & m & _ & _ & ? & ->); eauto.
  - intros id m HR Hh. rewrite elem_of_app, elem_of_old_sils. pose proof Hh as (Hm & Hms & Hu).
    destruct (si_vi s Hi id m Hm) as [v Hvi].
    pose proof (wf_vi_version s (si_wf s Hi) _ Hvi) as Hle. cbn in Hle.
    destruct (decide (v ≤ ce_version ce)) as [Hv'|Hv'].
    + left. exists id, m. split_and!; try done. apply (Hc id v); [done| |done]. repeat split; eauto.
    + right. destruct (Z.eqb_spec (ce_version ce) (version s)); [lia|].
      apply elem_of_new_sils; [done|]. exists id, v, m. split_and!; (done || lia).
Qed.

Lemma Mutes_unfold c s now lset :
  let ce := cache_get c (Fingerprint lset) in
  let upToDate := ce_version ce =? version s in
  let new := if upToDate then [] else new_sils s ce now lset in
  let newVersion := if upToDate then ce_version ce else version s in
  Mutes c s now lset =
    if upToDate && (count ce =? 0)%nat then mkMutes c [] false else
    if (length (old_sils s ce now) + length new =? 0)%nat then
      mkMutes (cache_set c (Fingerprint lset) (newCacheEntry newVersion [])) [] false
    else
      let r := categorize now (old_sils s ce now ++ new) ∅ [] [] in
      mkMutes (cache_set c (Fingerprint lset) (newCacheEntry newVersion r.2))
        (if (0 <? length r.1)%nat then r.1 else []) (0 <? length r.1)%nat.
Proof.
  unfold Mutes, Mutes_at, old_sils, new_sils. cbn zeta.
  set (ce := cache_get c (Fingerprint lset)).
  destruct (ce_version ce =? version s) eqn:Hup; cbn [andb negb].
  - destruct (count ce =? 0)%nat; [done|]. destruct (length _ + _ =? 0)%nat; [done|].
    by destruct (categorize _ _ _ _ _).
  - destruct (length _ + _ =? 0)%nat; [done|].
    by destruct (categorize _ _ _ _ _).
Qed.

Lemma cache_ok_set R s c now lset ce :
  U lset → cache_ok R s c now → entry_ok R s now lset ce →
  cache_ok R s (cache_set c (Fingerprint lset) ce) now.
Proof using collision_free.
  intros HU Hc He lset' HU'. unfold cache_get, cache_set.
  destruct (decide (Fingerprint lset' = Fingerprint lset)) as [E|Hne].
  - rewrite E, lookup_insert_eq. by rewrite (collision_free lset' lset).
  - rewrite lookup_insert_ne by done. by apply Hc.
Qed.

Lemma lists_hits_uniq R s now lset sils x y :
  sinv s → lists_hits R s now lset sils → x ∈ sils → y ∈ sils → Id x = Id y → x = y.
Proof.
  intros Hi Hl (i & m & [Hm _] & ->)%(lh_sound _ _ _ _ _ Hl) (j & m' & [Hm' _] & ->)%(lh_sound _ _ _ _ _ Hl).
  rewrite (wf_keys s (si_wf s Hi) i m), (wf_keys s (si_wf s Hi) j m') by done. congruence.
Qed.

Lemma lists_hits_found R s now lset sils (p : PbSilence → Prop) id :
  sinv s → lists_hits R s now lset sils →
  (found p sils ∅ id → ∃ m, hits s now lset id m ∧ p (Silence m)) ∧
  (id ∉ R → (∃ m, hits s now lset id m ∧ p (Silence m)) → found p sils ∅ id).
Proof.
  intros Hi [Hs Hc]. unfold found. split.
  - intros (_ & sil & (i & m & Hh & ->)%Hs & <- & Hp). exists m. split; [|done].
    by rewrite (wf_keys s (si_wf s Hi) i m) by apply Hh.
  - intros HR (m & Hh & Hp). split; [set_solver|]. exists (Silence m). split_and!; [by eapply Hc| |done].
    by apply (wf_keys s (si_wf s Hi)), Hh.
Qed.

(** An entry made of the ids found is a valid entry for the store. *)
Lemma entry_ok_found R s now lset v ids :
  v ≤ version s → (∀ id, id ∈ ids → ∃ m, hits s now lset id m) →
  (∀ id, id ∉ R → (∃ m, hits s now lset id m) → id ∈ ids) →
  entry_ok R s now lset (newCacheEntry v ids).
Proof.
  intros Hv Hids Hall. split; cbn; [done| |].
  - intros id w HR (_ & Hm & m & Hst & Hu) _. apply Hall; [done|]. exists m. by repeat split.
  - intros id (m & _ & ? & _)%Hids. done.
Qed.

Definition mutes_exact (R : gset string) (s : Silences) (now : time) lset (r : mutes_result) : Prop :=
  (∀ id, id ∈ mr_marked r →
     ∃ m, hits s now lset id m ∧ getState (Silence m) now = SilenceStateActive) ∧
  (∀ id, id ∉ R → (∃ m, hits s now lset id m ∧ getState (Silence m) now = SilenceStateActive) →
     id ∈ mr_marked r) ∧
  mr_mutes r = bool_decide (mr_marked r ≠ []) ∧ cache_ok R s (mr_cache r) now.

(** The two exits of [Mutes] that find nothing. *)
Lemma mutes_exact_nil R s now lset c :
  lists_hits R s now lset [] → cache_ok R s c now → mutes_exact R s now lset (mkMutes c [] false).
Proof.
  intros Hl Hc. split_and!; [by intros id ?%elem_of_nil| |done..]. intros id HR (m & Hh & _).
  by apply (lh_complete _ _ _ _ _ Hl), elem_of_nil in Hh.
Qed.

Lemma Mutes_spec R s c now lset :
  sinv s → cache_ok R s c now → U lset → mutes_exact R s now lset (Mutes c s now lset).
Proof using collision_free compiled.
  intros Hi Hc HU. rewrite Mutes_unfold. cbn zeta.
  set (ce := cache_get c (Fingerprint lset)) in *.
  pose proof (all_sils R s ce now lset Hi (Hc lset HU)) as Hall.
  assert (Hver : (if ce_version ce =? version s then ce_version ce else version s) ≤ version s).
  { destruct (Z.eqb_spec (ce_version ce) (version s)); lia. }
  destruct ((ce_version ce =? version s) && (count ce =? 0)%nat) eqn:Hfast.
  { apply andb_true_iff in Hfast as [H1 H2%Nat.eqb_eq]. unfold old_sils in Hall.
    rewrite H1, H2 in Hall. by apply mutes_exact_nil. }
  set (new := if ce_version ce =? version s then [] else new_sils s ce now lset) in *.
  destruct (length (old_sils s ce now) + length new =? 0)%nat eqn:Hz.
  { apply Nat.eqb_eq in Hz. assert (E : old_sils s ce now ++ new = []).
    { apply length_zero_iff_nil. rewrite length_app. lia. }
    rewrite E in Hall. apply mutes_exact_nil; [done|]. apply cache_ok_set; [done..|].
    apply entry_ok_found; [done|by intros id ?%elem_of_nil|]. intros id HR [m Hh].
    by apply (lh_complete _ _ _ _ _ Hall), elem_of_nil in Hh. }
  destruct (categorize now _ ∅ [] []) as [act all] eqn:Hcat. cbn [fst snd].
  pose proof (categorize_spec now _ ∅ [] [] act all
    (λ x y, lists_hits_uniq R s now lset _ x y Hi Hall) Hcat) as Hspec.
  setoid_rewrite elem_of_nil in Hspec.
  assert (Hact : (if (0 <? length act)%nat then act else []) = act) by by destruct act.
  split_and!; cbn [mr_marked mr_mutes mr_cache].
  - intros id. rewrite Hact. intros [[]|Hf]%(proj1 (Hspec id)).
    by apply (lists_hits_found R s now lset _ (λ sil, getState sil now = _) id Hi Hall).
  - intros id HR Hm. rewrite Hact. apply (proj1 (Hspec id)). right.
    by apply (lists_hits_found R s now lset _ (λ sil, getState sil now = _) id Hi Hall).
  - by destruct act.
  - apply cache_ok_set; [done..|]. apply entry_ok_found; [done|..].
    + intros id [[]|Hf]%(proj2 (Hspec id)).
      apply (lists_hits_found R s now lset _ (λ sil, unexpired sil now) id Hi Hall) in Hf as (m & ? & _). by exists m.
    + intros id HR [m Hh]. apply (proj2 (Hspec id)). right.
      apply (lists_hits_found R s now lset _ (λ sil, unexpired sil now) id Hi Hall); [done|]. exists m.
      split; [done|]. apply Hh.
Qed.

(** ** Garbage collection and the passing of time *)
Lemma entry_ok_later R s now now' lset ce :
  now ≤ now' → entry_ok R s now lset ce → entry_ok R s now' lset ce.
Proof.
  intros Hle [Hv Hc Hso]. split; [done| |done]. intros id v HR (Hvi & Hm & m & Hst & Hu).
  apply Hc; [done|]. repeat split; [done..|]. eauto using unexpired_earlier.
Qed.

Lemma GC_shrinks s now :
  sinv s → let s' := (GC s now).1.1 in
  version s' = version s ∧ (∀ sv, sv ∈ vi s' → sv ∈ vi s) ∧
  (∀ id m, st s' !! id = Some m →
     st s !! id = Some m ∧ mi s' !! id = mi s !! id ∧
     ∀ v, mkSilenceVersion id v ∈ vi s → mkSilenceVersion id v ∈ vi s').
Proof.
  intros Hi. unfold GC.
  destruct (gc_loop_spec now (vi s) (st s) (mi s) [] 0 [] (wf_vi_nodup s (si_wf s Hi))
    (wf_keys s (si_wf s Hi))) as [errs ->].
  cbn. split_and!; [done|by intros sv [? _]%elem_of_survivors|].
  intros id m. rewrite !lookup_without.
  destruct (collected (st s) now (sv_id <$> vi s) id) eqn:Hcol; [done|]. intros Hm.
  split_and!; [done..|]. intros v Hv. apply elem_of_survivors. split; [done|].
  exists m. split; [done|]. unfold collected in Hcol. rewrite bool_decide_eq_true_2 in Hcol.
  - by rewrite Hm in Hcol.
  - apply list_elem_of_fmap. by exists (mkSilenceVersion id v).
Qed.

Lemma sinv_GC s now : sinv s → sinv (GC s now).1.1.
Proof.
  intros Hi. destruct (GC_shrinks s now Hi) as (Hv & Hvi & Hst). constructor.
  - apply wf_GC, Hi.
  - intros id m (Hm & _)%Hst. by apply Hi.
  - intros id m (Hm & -> & _)%Hst. by eapply si_mi.
  - intros id m (Hm & _ & Hkeep)%Hst. destruct (si_vi s Hi id m Hm) as [v ?]. eauto.
  - intros sv ?%Hvi. by apply Hi.
  - rewrite Hv. apply Hi.
Qed.

Lemma entry_ok_GC R s now lset ce : sinv s → entry_ok R s now lset ce → entry_ok R (GC s now).1.1 now lset ce.
Proof.
  intros Hi [Hver Hc Hso]. destruct (GC_shrinks s now Hi) as (Hv & Hvi & Hst).
  split; [by rewrite Hv| |done]. intros id v HR (Hin & Hm & m & Hmst & Hu). apply Hc; [done|].
  repeat split; [by apply Hvi|done|]. exists m. split; [by apply Hst|done].
Qed.

Lemma entry_ok_empty R s now lset : sinv s → entry_ok R s now lset (mkCacheEntry [] 0).
Proof.
  intros Hi. split; cbn; [apply Hi| |by intros id ?%elem_of_nil].
  intros id v _ (Hin & _) Hle. pose proof (si_pos s Hi _ Hin) as Hp. cbn in Hp. lia.
Qed.

Lemma cache_ok_PostGC R s now ff : ∀ c, sinv s → cache_ok R s c now → cache_ok R s (PostGC c ff) now.
Proof.
  induction ff as [|fp ff IH]; intros c Hi Hc; [done|].
  apply (IH (delete fp c)); [done|]. intros lset HU. unfold cache_get.
  destruct (decide (fp = Fingerprint lset)) as [->|Hne].
  - rewrite lookup_delete_eq. by apply entry_ok_empty.
  - rewrite lookup_delete_ne by done. by apply Hc.
Qed.

(** More ids may be left out. *)
Lemma cache_ok_more R R' s c now : R ⊆ R' → cache_ok R s c now → cache_ok R' s c now.
Proof.
  intros HR Hc lset HU. destruct (Hc lset HU) as [? Hcomp ?]. split; [done| |done]. intros id v Hn. apply Hcomp. set_solver.
Qed.

(** ** Starting from a snapshot *)
Lemma sinv_New ret lim : sinv (New_Silences ret lim).
Proof. constructor; cbn; try done; [apply wf_New|by intros sv ?%elem_of_nil]. Qed.

Lemma sinv_load s r : sinv s → own_matchers r → sinv (loadSnapshot s r).1.
Proof using compiled.
  intros Hs Hown. pose proof (loadSnapshot_failed s r) as Hf. pose proof (wf_loadSnapshot s r (si_wf s Hs)) as Hw.
  destruct (loadSnapshot s r) as [s' [e|]] eqn:E; cbn in *; [by rewrite (Hf e)|].
  pose proof (indexed_load s r s' E) as [_ Hbad Hvi Hmi]. unfold loadSnapshot in E.
  destruct (decodeState r) as [st'|] eqn:Hd; [|done]. specialize (Hown st' Hd).
  assert (Hk : ∀ id m, st' !! id = Some m → Id (Silence m) = id).
  { intros id m. eapply decode_loop_keys; [|exact Hd]. by intros ???. }
  clear Hd.
  pose proof (load_index_vi (version s) (range st') ∅ []) as Hlvi.
  destruct (load_index _ _ _ _) as [mi' vi']. cbn in Hlvi. injection E as <-. cbn in *.
  assert (Hsets : ∀ id m, st' !! id = Some m → MatcherSets (Silence m) = sets_of id).
  { intros id m Hm. rewrite (Hown id m Hm). f_equal. by apply Hk. }
  assert (Hst : ∀ id m, (upgraded <$> st') !! id = Some m → MatcherSets (Silence m) = sets_of id).
  { intros id m (m' & <- & Hm')%lookup_fmap_Some. cbn. rewrite upgrade_comments_MatcherSets. eauto. }
  constructor; cbn; try done.
  - intros id m Hm. rewrite Hmi. rewrite lookup_fmap.
    change (λ e, mkMeshSilence (upgrade_comments (Silence e)) (ExpiresAt e)) with upgraded in *. rewrite Hm. cbn.
    rewrite (Hst id m Hm). unfold SilenceInv.compiled. by rewrite compiled.
  - intros id m Hm. assert (Hin : id ∈ sv_id <$> vi').
    { apply Hvi. split; [by eexists|]. unfold uncompiled. cbn. intros [x [Hx Hn]%map_lookup_filter_Some]%elem_of_dom.
      cbn in Hn. rewrite (Hst id x Hx) in Hn. unfold SilenceInv.compiled in Hn. by rewrite compiled in Hn. }
    apply list_elem_of_fmap in Hin as ([i v] & -> & Hin). by exists v.
  - subst vi'. intros sv (x & -> & _)%list_elem_of_fmap. cbn. pose proof (si_ver s Hs). lia.
  - pose proof (si_ver s Hs). lia.
Qed.

(** ** The world *)
Record world := mkWorld { w_s : Silences; w_c : cache; w_now : time; revived : gset string }.

Inductive wstep : relation world :=
| w_tick s c now now' R : now ≤ now' → wstep (mkWorld s c now R) (mkWorld s c now' R)
| w_set s c now sil uid R :
    fresh_request s sil now uid →
    wstep (mkWorld s c now R) (mkWorld (Set_ s sil now now now uid).1.1 c now R)
| w_expire s c now id R : wstep (mkWorld s c now R) (mkWorld (Expire s id now).1 c now R)
| w_gc s c now R : wstep (mkWorld s c now R) (mkWorld (GC s now).1.1 c now R)
| w_merge s c now b R :
    own_matchers b →
    wstep (mkWorld s c now R) (mkWorld (Merge s b now).1 c now (R ∪ revived_by s b now))
| w_mutes s c now lset R :
    U lset → wstep (mkWorld s c now R) (mkWorld s (mr_cache (Mutes c s now lset)) now R)
| w_postgc s c now ff R : wstep (mkWorld s c now R) (mkWorld s (PostGC c ff) now R).

(** A new store, empty or with what a snapshot held. *)
Inductive starts (ret : duration) (lim : Limits) : world → Prop :=
| starts_empty now : starts ret lim (mkWorld (New_Silences ret lim) ∅ now ∅)
| starts_snapshot r now :
    own_matchers r → starts ret lim (mkWorld (loadSnapshot (New_Silences ret lim) r).1 ∅ now ∅).

Definition winv (w : world) : Prop := sinv (w_s w) ∧ cache_ok (revived w) (w_s w) (w_c w) (w_now w).

Lemma winv_dmicro R s s' c now :
  rtc (dmicro R now) s s' → winv (mkWorld s c now R) → winv (mkWorld s' c now R).
Proof using compiled.
  intros Hr [Hi Hc]. split; cbn in *; [by eapply dmicro_sinv|by eapply dmicro_cache_ok].
Qed.

Lemma wstep_winv w w' : wstep w w' → winv w → winv w'.
Proof using collision_free compiled.
  intros Hstep Hw. pose proof Hw as [Hi Hc]. destruct Hstep; cbn in *.
  - split; [done|]. intros lset HU. by eapply entry_ok_later, Hc.
  - eapply winv_dmicro, Hw. by apply Set_dmicro.
  - eapply winv_dmicro, Hw. by apply expire_dmicro.
  - split; [by apply sinv_GC|]. intros lset HU. by apply entry_ok_GC, Hc.
  - eapply (winv_dmicro _ s); [apply Merge_dmicro; [done|set_solver]|].
    split; [done|]. eapply cache_ok_more, Hc. set_solver.
  - split; [done|]. by apply Mutes_spec.
  - split; [done|]. by apply cache_ok_PostGC.
Qed.

Lemma winv_starts ret lim w : starts ret lim w → winv w.
Proof using compiled.
  intros Hw. assert (Hi : sinv (w_s w)).
  { destruct Hw; [apply sinv_New|]. by apply sinv_load; [apply sinv_New|]. }
  split; [done|]. intros lset HU. destruct Hw; by apply entry_ok_empty.
Qed.

Lemma reachable_winv ret lim w0 w : starts ret lim w0 → rtc wstep w0 w → winv w.
Proof using collision_free compiled.
  intros Hw%winv_starts Hr. revert Hw. induction Hr; eauto using wstep_winv.
Qed.

Lemma hits_silenced_by s now lset id :
  sinv s →
  (∃ m, hits s now lset id m ∧ getState (Silence m) now = SilenceStateActive) ↔
  silenced_by s now lset id.
Proof using compiled.
  intros Hi. pose proof (compile_sets_wf _ _ (compiled id)) as Hwf. unfold silenced_by, hits. split.
  - intros (m & (Hm & Hms & _) & Ha). exists m, (matchers_of id).
    rewrite (si_sets s Hi id m Hm). split_and!; [done..|]. by apply Labels.matches_setb_spec.
  - intros (m & ms & Hm & Ha & Hc & Hsat). exists m.
    rewrite (si_sets s Hi id m Hm), compiled in Hc. injection Hc as <-.
    split_and!; [done|by apply Labels.matches_setb_spec| |done]. unfold unexpired. by rewrite Ha.
Qed.

(** C1: the silencer is exact, but for silences that gossip revived: in every
    state reached from an empty store or a loaded snapshot by creating, updating,
    expiring, collecting and gossiping silences and by earlier questions, [Mutes]
    marks the alert only with ids of stored silences that are active now and
    match it, and with all of them except possibly those that a gossip message
    made active again after they had expired here ([revived]); it answers true
    exactly when it marks one.  It gives this answer although it only evaluates
    the matchers of silences newer than the cached version.  Assumed are that all
    matchers compile, that an id keeps its matchers and a new id is fresh, and
    that the label sets asked about have different fingerprints. *)
Theorem silencer_exact ret lim w0 s c now R lset :
  starts ret lim w0 → rtc wstep w0 (mkWorld s c now R) → U lset →
  let r := Mutes c s now lset in
  (∀ id, id ∈ mr_marked r → silenced_by s now lset id) ∧
  (∀ id, silenced_by s now lset id → id ∉ R → id ∈ mr_marked r) ∧
  (mr_mutes r = true ↔ mr_marked r ≠ []).
Proof using collision_free compiled.
  intros H0 Hr HU. destruct (reachable_winv _ _ _ _ H0 Hr) as [Hi Hc]. cbn in Hi, Hc.
  destruct (Mutes_spec R s c now lset Hi Hc HU) as (Hs & Ha & Hmut & _). cbn zeta.
  setoid_rewrite hits_silenced_by in Hs; [|done]. setoid_rewrite hits_silenced_by in Ha; [|done].
  split_and!; [done|by auto|]. by rewrite Hmut, bool_decide_eq_true.
Qed.
End silencer.
End SilencerInv.
