(* ===== verification/SilenceExamples.v ===== *)
(** * Silences: the theorems at concrete states

    Each theorem of the silence files that has hypotheses is applied at a small
    store, built by running the operations. *)

From stdpp Require Import base gmap strings list sorting relations.
From S2P Require Import Prelude Utf8 Labels Lww Silence Instances SilenceInv SilenceOps Alert Silencer.

Import Silence SilenceInv SilenceQuery SilenceOps SilenceSnapshot.

Module SilenceExamples.

Lemma table_codec_laws table : @SilenceCodecLaws (table_codec table).
Proof.
  constructor; cbn.
  - intros m b rest Hm _. destruct (list_find _ table) as [[i m']|] eqn:Hf; [|done].
    apply list_find_Some in Hf as (Hi & -> & _). cbn in Hm. injection Hm as <-. cbn.
    by rewrite Nat2Z.id, Hi.
  - intros m b Hm. destruct (list_find _ table) as [[i m']|]; cbn in Hm; by simplify_eq.
  - done.
Qed.

(** Its messages have one byte. *)
Lemma table_readable table s : all_readable (SC := table_codec table) s.
Proof.
  intros id e _ b. unfold marshalMeshSilence. cbn.
  destruct (list_find _ table) as [[i m']|]; cbn; [|done]. intros [= <-].
  unfold readable_size. by apply Z.leb_le.
Qed.

Lemma ex_reachable : rtc step (New_Silences 10 (mkLimits (Some 2) None)) ex_store.
Proof. apply rtc_once, step_Set. Qed.

Lemma ex_wf : wf ex_store.
Proof. eapply reachable_wf, ex_reachable. Qed.

(** The store once [a] has been replaced by [b] at instant 50. *)
Definition ex_request : PbSilence := ex_silence "web" "a" 50 90 0.
Definition ex_replaced := Set_ ex_store ex_request 50 50 50 (Some "b"%string).

Example ex_replaced_st : st ex_replaced.1.1 = {["a"%string := ex_a50; "b"%string := ex_b]}.
Proof. vm_compute. reflexivity. Qed.

Lemma silences_reachable_wf_witness :
  wf ex_store ∧ ∃ F bad, history 10 (mkLimits (Some 2) None) F bad ex_store ∧ indexed F bad ex_store.
Proof. apply (silences_reachable_wf 10 (mkLimits (Some 2) None)), ex_reachable. Defined.

Lemma query_since_exact_witness :
  query_ ex_store (mkQuery [] (Some 0) []) 30 =
    (query_scan ex_store 30 [] (List.filter (λ sv, 0 <? sv_version sv) (vi ex_store)), 1).
Proof. eapply query_since_exact, ex_reachable. Defined.

Lemma query_never_panics_witness :
  (Query ex_store [QState [SilenceStateActive]] 30).1 ≠ Err ErrPanic ∧
  is_Some (CountState ex_store [SilenceStateActive] 30).
Proof.
  apply (query_never_panics 10 (mkLimits (Some 2) None)), ex_reachable.
Defined.

Lemma gc_removes_exactly_expired_witness :
  let '(s', n, _) := GC ex_store 110 in
  (∀ id, st s' !! id =
     if collected (st ex_store) 110 (sv_id <$> vi ex_store) id then None else st ex_store !! id) ∧
  (∀ id, mi s' !! id =
     if collected (st ex_store) 110 (sv_id <$> vi ex_store) id then None else mi ex_store !! id) ∧
  vi s' = List.filter (survives (st ex_store) 110) (vi ex_store) ∧
  n = Z.of_nat (length (vi ex_store)) - Z.of_nat (length (vi s')) ∧
  version s' = version ex_store.
Proof. apply (gc_removes_exactly_expired ex_store 110), ex_wf. Defined.

(** Two messages about silence [a], with different update times; the second peer
    gets them in another order, one of them twice, and at other times. *)
Definition ex_run1 : list (time * list Z) := [(30, [2]); (35, [4])].
Definition ex_run2 : list (time * list Z) := [(31, [4]); (40, [2]); (45, [4])].

Lemma ex_message_2 : decodeState [2] = Ok {["a"%string := ex_a50]}.
Proof. vm_compute. reflexivity. Qed.
Lemma ex_message_4 : decodeState [4] = Ok {["a"%string := ex_a70]}.
Proof. vm_compute. reflexivity. Qed.

Lemma ex_in_time rs :
  (∀ t b, (t, b) ∈ rs → t ≤ 45 ∧ (b = [2] ∨ b = [4])) → in_time rs "a".
Proof.
  intros Hrs t b st' e [Ht Hb]%Hrs Hd He. etrans; [exact Ht|].
  destruct Hb as [-> | ->]; rewrite ?ex_message_2, ?ex_message_4 in Hd; injection Hd as <-;
    rewrite lookup_singleton_eq in He; injection He as <-; vm_compute; done.
Qed.

Lemma ex_known e : known ex_store ex_run1.*2 "a" e → e = ex_a ∨ e = ex_a50 ∨ e = ex_a70.
Proof.
  intros [He|(b & st' & e0 & Hb & Hd & He & ->)].
  - left. rewrite ex_store_st, lookup_singleton_eq in He. congruence.
  - right. cbn in Hb. rewrite !elem_of_cons, elem_of_nil in Hb.
    destruct Hb as [->|[->|[]]]; rewrite ?ex_message_2, ?ex_message_4 in Hd; injection Hd as <-;
      rewrite lookup_singleton_eq in He; injection He as <-; [left|right]; vm_compute; reflexivity.
Qed.

Lemma silences_gossip_converges_witness :
  st (merge_run ex_store ex_run1) !! "a"%string = st (merge_run ex_store ex_run2) !! "a"%string ∧
  match st (merge_run ex_store ex_run1) !! "a"%string with
  | Some e => known ex_store ex_run1.*2 "a" e ∧
      ∀ e', known ex_store ex_run1.*2 "a" e' → lww_stamp e' ≤ lww_stamp e
  | None => ∀ e, ¬ known ex_store ex_run1.*2 "a" e
  end.
Proof.
  apply (silences_gossip_converges ex_store ex_store ex_run1 ex_run2 "a" eq_refl).
  - intros b. cbn. rewrite !elem_of_cons, !elem_of_nil. naive_solver.
  - apply ex_in_time. unfold ex_run1, ex_run2. intros t b. rewrite !elem_of_cons, elem_of_nil. intros Hin.
    destruct_or? Hin; simplify_eq; auto with lia.
  - apply ex_in_time. unfold ex_run1, ex_run2. intros t b. rewrite !elem_of_cons, elem_of_nil. intros Hin.
    destruct_or? Hin; simplify_eq; auto with lia.
  - intros e1 e2 [->|[->| ->]]%ex_known [->|[->| ->]]%ex_known; vm_compute; done.
Defined.

Lemma canUpdate_keeps_history_witness :
  MatcherSets (Silence ex_a) = MatcherSets (Silence ex_a70) ∧
  getState (Silence ex_a) (-5) = getState (Silence ex_a70) (-5).
Proof.
  apply (canUpdate_keeps_history (Silence ex_a) (Silence ex_a70) 70); vm_compute; done.
Defined.

Lemma expire_takes_effect_witness :
  (∃ m', st (Expire ex_store "a" 50).1 !! "a"%string = Some m' ∧
     MatcherSets (Silence m') = MatcherSets (Silence ex_a) ∧
     ∀ ts, 50 < ts → getState (Silence m') ts = SilenceStateExpired) ∧
  ∀ id', id' ≠ "a"%string → st (Expire ex_store "a" 50).1 !! id' = st ex_store !! id'.
Proof.
  apply (expire_takes_effect ex_store "a" 50 _ ex_a ex_wf); vm_compute; done.
Defined.

Lemma set_replacement_keeps_previous_witness :
  (∃ m', st ex_replaced.1.1 !! Id ex_request = Some m' ∧
     MatcherSets (Silence m') = MatcherSets (Silence ex_a) ∧
     ∀ ts, 50 < ts → getState (Silence m') ts = SilenceStateExpired) ∧
  50 ≤ AsTime (StartsAt ex_replaced.1.2) ∧
  ∀ id, id ≠ Id ex_request → id ≠ "b"%string → st ex_replaced.1.1 !! id = st ex_store !! id.
Proof.
  apply (set_replacement_keeps_previous ex_store ex_request ex_a 50 50 50 "b"%string
           ex_replaced.1.1 ex_replaced.1.2 ex_wf); vm_compute; done.
Defined.

Lemma set_stores_new_silence_witness :
  let s := New_Silences 10 no_limits in
  let r := Set_ s (ex_silence "api" ""%string 20 100 0) 10 10 10 (Some "a"%string) in
  Id r.1.2 = "a"%string ∧ 10 ≤ AsTime (StartsAt r.1.2) ∧ EndsAt r.1.2 = Some 100 ∧
  UpdatedAt r.1.2 = Some 10 ∧
  st r.1.1 = <["a"%string := mkMeshSilence r.1.2 (Some 110)]> (st s) ∧
  version r.1.1 = 1 ∧ vi r.1.1 = [mkSilenceVersion "a" 1].
Proof.
  intros s r.
  apply (set_stores_new_silence s (ex_silence "api" ""%string 20 100 0) 10 10 10 "a" r.1.1 r.1.2);
    vm_compute; done.
Defined.

Lemma set_respects_limit_witness :
  Z.of_nat (size (st ex_replaced.1.1)) ≤ 2.
Proof.
  apply (set_respects_limit ex_store ex_request 50 50 50 (Some "b"%string) 2 ex_wf);
    vm_compute; done.
Defined.

Lemma silences_snapshot_roundtrip_witness :
  ∃ s', loadSnapshot (New_Silences 10 no_limits) [0] = (s', None) ∧ st s' = st ex_store ∧
    indexed ((λ m, MatcherSets (Silence m)) <$> st s') (uncompiled s') s'.
Proof.
  apply (silences_snapshot_roundtrip (H := table_codec_laws ex_table) 10 (mkLimits (Some 2) None)
    ex_store (New_Silences 10 no_limits) [0] ex_reachable (table_readable ex_table ex_store)). vm_compute. reflexivity.
Defined.

Lemma matcher_json_roundtrip_witness :
  let m := Labels.mkMatcher Labels.MatchNotRegexp "job" "api" (Some "^(?:api)$"%string) in
  Labels.UnmarshalJSON (Labels.MarshalJSON m) = Some m.
Proof. apply Labels.matcher_json_roundtrip. vm_compute. reflexivity. Defined.
End SilenceExamples.

(** * The silencer at concrete states

    The exactness theorem at a run of the store, and the run outside its gossip
    discipline in which the cache hides an active silence. *)
Import Silence SilenceOps Silencer SilencerInv SilenceExamples.

Module SilencerExamples.

#[local] Instance const_fingerprint : Fingerprinter := λ _, 7.

Definition api_labels : LabelSet := {["job"%string := "api"%string]}.
Definition job_sets (id : string) : list PbMatcherSet := ex_sets "api".
Definition job_matchers (id : string) : Labels.MatcherSet :=
  [[Labels.mkMatcher Labels.MatchEqual "job" "api" None]].
Definition only_api (l : LabelSet) : Prop := l = api_labels.

Lemma ex_compiled id : compile_sets (job_sets id) = Ok (job_matchers id).
Proof. reflexivity. Qed.

Lemma ex_collision_free l1 l2 :
  only_api l1 → only_api l2 → Fingerprint l1 = Fingerprint l2 → l1 = l2.
Proof. unfold only_api. congruence. Qed.

Abbreviation ex_wstep := (wstep job_sets only_api).
Definition ex_new : Silences := New_Silences 10 (mkLimits (Some 2) None).

Lemma ex_world_reachable :
  rtc ex_wstep (mkWorld ex_new ∅ 10 ∅) (mkWorld ex_store ∅ 30 ∅).
Proof.
  apply rtc_l with (mkWorld ex_store ∅ 10 ∅); [|apply rtc_once, w_tick; lia].
  apply w_set. intros u [= <-]. split; reflexivity.
Qed.

Lemma silencer_exact_witness :
  let r := Mutes ∅ ex_store 30 api_labels in
  (∀ id, id ∈ mr_marked r → silenced_by ex_store 30 api_labels id) ∧
  (∀ id, silenced_by ex_store 30 api_labels id → id ∉ (∅ : gset string) → id ∈ mr_marked r) ∧
  (mr_mutes r = true ↔ mr_marked r ≠ []).
Proof.
  apply (silencer_exact job_sets job_matchers only_api ex_compiled ex_collision_free
           10 (mkLimits (Some 2) None) (mkWorld ex_new ∅ 10 ∅) ex_store ∅ 30 ∅ api_labels
           (starts_empty job_sets 10 _ 10) ex_world_reachable).
  reflexivity.
Defined.

(** Silence [a] is expired at 50; at 55 the alert is checked and an empty entry
    is cached; at 58 a peer's later version of [a] arrives, which ends at 200. *)
Definition ex_expired : Silences := (Expire ex_store "a" 50).1.
Definition ex_cache : cache := mr_cache (Mutes ∅ ex_expired 55 api_labels).
Definition ex_revived : Silences := (Merge ex_expired [4] 58).1.

(** An update that revives an expired silence gets no new version, so the cached
    empty entry stays valid and the alert is not muted although the silence is
    active and matches; without the cache it is muted. *)
Theorem revived_silence_not_muted :
  silenced_by ex_revived 80 api_labels "a" ∧
  mr_mutes (Mutes ex_cache ex_revived 80 api_labels) = false ∧
  mr_mutes (Mutes ∅ ex_revived 80 api_labels) = true.
Proof.
  split_and!; [|vm_compute; reflexivity..].
  exists ex_a70, (job_matchers "a"). split_and!; [vm_compute; reflexivity..|].
  constructor. constructor; [vm_compute; reflexivity|constructor].
Qed.

(** ** Alerts *)
#[local] Program Instance prom : PromModel := {|
  ResolvedAt e now := negb (e =? 0) && (e <=? now);
  LabelSet_Before _ _ := false;
|}.
Next Obligation. intros. rewrite andb_true_iff, negb_true_iff, Z.eqb_neq, Z.leb_le. done. Qed.

Definition ex_alert (starts ends updated : time) : Alert.Alert :=
  Alert.mkAlert api_labels ∅ starts ends ""%string updated false.

Lemma alert_merge_join_witness :
  let a := ex_alert 10 50 20 in let o := ex_alert 15 40 30 in
  let r := Alert.Merge a o 35 35 in
  r = Alert.Merge o a 35 35 ∧
  Alert.Labels r = Alert.Labels o ∧ Alert.Annotations r = Alert.Annotations o ∧
  Alert.UpdatedAt r = Alert.UpdatedAt o ∧
  Alert.StartsAt r = Z.min (Alert.StartsAt a) (Alert.StartsAt o) ∧
  (Alert.Resolved o 35 = true → Alert.Resolved r 35 = true) ∧
  (Alert.Resolved o 35 = false → Alert.EndsAt o ≠ 0 → Alert.Resolved r 35 = false).
Proof. apply (Alert.alert_merge_join (ex_alert 10 50 20) (ex_alert 15 40 30) 35). done. Defined.
End SilencerExamples.
