(* ===== verification/MatchLexer.v ===== *)
(** * The lexer of label matchers (matcher/parse/lexer.go, token.go)

    The lexer reads the input rune by rune and emits tokens.  It keeps the
    offsets of the current token and of the cursor and the column numbers for
    error messages; its state is passed explicitly.  The error of a failed scan
    is kept in the state and returned by every later call. *)

From Stdlib Require Import Ascii String.
From stdpp Require Import base list strings numbers sets.
From S2P Require Import Prelude Utf8 Labels Unquote.

Module MatchLexer.

(** ** Tokens *)
Inductive tokenKind :=
| tokenEOF | tokenOpenBrace | tokenCloseBrace | tokenComma | tokenEquals | tokenNotEquals
| tokenMatches | tokenNotMatches | tokenQuoted | tokenUnquoted.

#[global] Instance tokenKind_eq_dec : EqDecision tokenKind.
Proof. solve_decision. Defined.

Record position := mkPosition {
  offsetStart : nat;
  offsetEnd : nat;
  columnStart : nat;
  columnEnd : nat;
}.

Record token := mkToken { kind : tokenKind; value : list Z; tpos : position }.

Definition zero_position : position := mkPosition 0 0 0 0.
(** [token{}]. *)
Definition zero_token : token := mkToken tokenEOF [] zero_position.

Definition isEOF (t : token) : bool := bool_decide (kind t = tokenEOF).
Definition isOneOf (t : token) (kinds : list tokenKind) : bool := bool_decide (kind t ∈ kinds).

(** [unquote]; [None] is the error. *)
Definition unquote (t : token) : option (list Z) :=
  if decide (kind t = tokenQuoted) then
    u ← Unquote.Unquote (value t);
    if ValidBytes u then Some u else None
  else Some (value t).

(** ** The state *)
Inductive lex_error :=
| expectedError (p : position) (expected : string)
| invalidInputError (p : position)
| unterminatedError (p : position).

Record lexer := mkLexer {
  input : list Z;
  err : option lex_error;
  start : nat;    (** the offset of the current token *)
  pos : nat;      (** the cursor *)
  width : nat;    (** of the last rune *)
  column : nat;
  cols : nat;
}.

Definition new_lexer (input : list Z) : lexer := mkLexer input None 0 0 0 0 0.

Definition set_err e l := mkLexer (input l) e (start l) (pos l) (width l) (column l) (cols l).

Definition eof : rune := -1.

(** The reserved runes are those of the printer. *)
Definition isReserved (r : rune) : bool :=
  IsSpace r || ContainsRune ("{}!=~,\" +:+ of_bytes [dquote] +:+ "'`") r.

Definition position_of (l : lexer) : position := mkPosition (start l) (pos l) (column l) (cols l).

Definition emit (k : tokenKind) (l : lexer) : lexer * token :=
  (mkLexer (input l) (err l) (pos l) (pos l) (width l) (cols l) (cols l),
   mkToken k (take (pos l - start l) (drop (start l) (input l))) (position_of l)).

Definition next (l : lexer) : lexer * rune :=
  if (length (input l) <=? pos l)%nat then
    (mkLexer (input l) (err l) (start l) (pos l) 0 (column l) (cols l), eof)
  else
    let '(r, w) := DecodeRune (drop (pos l) (input l)) in
    (mkLexer (input l) (err l) (start l) (pos l + w) w (column l) (S (cols l)), r).

Definition rewind (l : lexer) : lexer :=
  mkLexer (input l) (err l) (start l) (pos l - width l) (width l) (column l)
    (if (0 <? width l)%nat then pred (cols l) else cols l).

Definition skip (l : lexer) : lexer :=
  mkLexer (input l) (err l) (pos l) (pos l) (width l) (cols l) (cols l).

Definition accept (valid : string) (l : lexer) : lexer * bool :=
  let '(l, r) := next l in
  if ContainsRune valid r then (l, true) else (rewind l, false).

Definition expect (valid : string) (l : lexer) : lexer * option lex_error :=
  let '(l, r) := next l in
  if ContainsRune valid r then (l, None)
  else let l := rewind l in (l, Some (expectedError (position_of l) valid)).

(** ** Scanning *)
Definition scanOperator (l : lexer) : lexer * result lex_error token :=
  let '(l, ok) := accept "!" l in
  if ok : bool then
    let '(l, ok) := accept "=" l in
    if ok : bool then let '(l, t) := emit tokenNotEquals l in (l, Ok t) else
    let '(l, ok) := accept "~" l in
    if ok : bool then let '(l, t) := emit tokenNotMatches l in (l, Ok t) else
    (l, Err (expectedError (position_of l) "=~"))
  else
    let '(l, ok) := accept "=" l in
    if ok : bool then
      let '(l, ok) := accept "~" l in
      if ok : bool then let '(l, t) := emit tokenMatches l in (l, Ok t)
      else let '(l, t) := emit tokenEquals l in (l, Ok t)
    else (l, Err (expectedError (position_of l) "!=")).

(** The loop of [scanQuoted]: to the closing quote, which is put back, or to
    the end.  Each round of a loop consumes a rune. *)
Fixpoint quoted_loop (fuel : nat) (isEscaped : bool) (l : lexer) : lexer :=
  match fuel with
  | O => l
  | S fuel =>
      let '(l, r) := next l in
      if r =? eof then l
      else if isEscaped then quoted_loop fuel false l
      else if r =? backslash then quoted_loop fuel true l
      else if r =? dquote then rewind l
      else quoted_loop fuel isEscaped l
  end.

Definition quote_mark : string := of_bytes [dquote].

Definition scanQuoted (l : lexer) : lexer * result lex_error token :=
  let '(l, e) := expect quote_mark l in
  match e with
  | Some e => (l, Err e)
  | None =>
      let l := quoted_loop (S (length (input l))) false l in
      let '(l, e) := expect quote_mark l in
      match e with
      | Some _ => (l, Err (unterminatedError (position_of l)))
      | None => let '(l, t) := emit tokenQuoted l in (l, Ok t)
      end
  end.

Fixpoint unquoted_loop (fuel : nat) (l : lexer) : lexer :=
  match fuel with
  | O => l
  | S fuel =>
      let '(l, r) := next l in
      if r =? eof then l
      else if isReserved r then rewind l
      else unquoted_loop fuel l
  end.

Definition scanUnquoted (l : lexer) : lexer * result lex_error token :=
  let l := unquoted_loop (S (length (input l))) l in
  let '(l, t) := emit tokenUnquoted l in (l, Ok t).

(** [t, l.err = f()]; the results of [scan]. *)
Definition keep_err (x : lexer * result lex_error token) : lexer * result lex_error token :=
  match x with
  | (l, Ok t) => (set_err None l, Ok t)
  | (l, Err e) => (set_err (Some e) l, Err e)
  end.

Definition emitted (x : lexer * token) : lexer * result lex_error token := (x.1, Ok x.2).

Fixpoint scan_loop (fuel : nat) (l : lexer) : lexer * result lex_error token :=
  match fuel with
  | O => (l, Ok zero_token)
  | S fuel =>
      let '(l, r) := next l in
      if r =? eof then (l, Ok zero_token)
      else if r =? 123 then emitted (emit tokenOpenBrace l)
      else if r =? 125 then emitted (emit tokenCloseBrace l)
      else if r =? 44 then emitted (emit tokenComma l)
      else if (r =? 61) || (r =? 33) then keep_err (scanOperator (rewind l))
      else if r =? dquote then keep_err (scanQuoted (rewind l))
      else if negb (isReserved r) then keep_err (scanUnquoted (rewind l))
      else if IsSpace r then scan_loop fuel (skip l)
      else let e := invalidInputError (position_of l) in (set_err (Some e) l, Err e)
  end.

Definition scan (l : lexer) : lexer * result lex_error token :=
  match err l with
  | Some e => (l, Err e)
  | None => scan_loop (S (length (input l))) l
  end.

(** [peek]: the state is put back, the error stays. *)
Definition peek (l : lexer) : lexer * result lex_error token :=
  let '(l', r) := scan l in (set_err (err l') l, r).
End MatchLexer.

(** * Properties of the lexer of label matchers

    [cur l tok rest]: the current token so far is [tok] and [rest] is still to
    be read.  Every operation of the lexer moves the boundary between the two,
    a scan consumes input or reports its end, and a token that was peeked is
    the one that is scanned next. *)
Import Unquote MatchLexer.

Module MatchLexerInv.

Record cur (l : lexer) (tok rest : list Z) : Prop := {
  cur_input : ∃ pre, input l = pre ++ tok ++ rest ∧ length pre = start l;
  cur_pos : pos l = (start l + length tok)%nat;
  cur_bytes : Forall is_byte (input l);
}.

Lemma cur_new bs : Forall is_byte bs → cur (new_lexer bs) [] bs.
Proof. intros Hb. split; [by exists []|done|done]. Qed.

Lemma cur_drop l tok rest : cur l tok rest → drop (pos l) (input l) = rest.
Proof.
  intros [(pre & -> & Hl) Hp _]. rewrite app_assoc, Hp, <-Hl, <-length_app. apply drop_app_length.
Qed.

Lemma cur_end l tok rest : cur l tok rest →
  (length (input l) <=? pos l)%nat = bool_decide (rest = []).
Proof.
  intros [(pre & -> & Hl) Hp _]. rewrite Hp, <-Hl, !length_app.
  case_bool_decide; subst; cbn; [apply Nat.leb_le; lia|].
  apply Nat.leb_gt. destruct rest; [done|cbn; lia].
Qed.

Lemma cur_rest_bytes l tok rest : cur l tok rest → Forall is_byte rest.
Proof.
  intros Hc. rewrite <-(cur_drop l tok rest Hc). apply Forall_drop, (cur_bytes _ _ _ Hc).
Qed.

(** ** Runes of the input *)
Lemma DecodeRune_nonneg bs : Forall is_byte bs → 0 ≤ (DecodeRune bs).1.
Proof.
  intros Hb. destruct (DecodeRune bs) as [r w] eqn:Hd. cbn.
  destruct bs as [|b bs]; [by injection Hd as <- <-|].
  destruct (DecodeRune_inv _ _ _ Hb Hd ltac:(done)) as [[-> _]|[[? _] _]]; [done|lia].
Qed.

Lemma DecodeRune_not_eof bs : Forall is_byte bs → ((DecodeRune bs).1 =? eof) = false.
Proof. intros Hb%DecodeRune_nonneg. apply Z.eqb_neq. unfold eof. lia. Qed.

Lemma next_end l tok : cur l tok [] →
  ∃ l', next l = (l', eof) ∧ cur l' tok [] ∧ width l' = 0%nat ∧ err l' = err l ∧ pos l' = pos l.
Proof.
  intros Hc. unfold next. rewrite (cur_end _ _ _ Hc). cbn. eexists. split; [done|].
  split_and!; try done. destruct Hc as [? ? ?]. by split.
Qed.

Lemma next_rune l tok rest r w : cur l tok rest → rest ≠ [] → DecodeRune rest = (r, w) →
  ∃ l', next l = (l', r) ∧ cur l' (tok ++ take w rest) (drop w rest) ∧ width l' = w ∧
    err l' = err l ∧ pos l' = (pos l + w)%nat.
Proof.
  intros Hc Hne Hd. unfold next.
  rewrite (cur_end _ _ _ Hc), bool_decide_eq_false_2, (cur_drop _ _ _ Hc), Hd by done.
  eexists. split; [done|]. split_and!; try done.
  pose proof (DecodeRune_width rest Hne) as Hw. rewrite Hd in Hw. cbn in Hw.
  destruct Hc as [(pre & Hi & Hl) Hp Hb]. split; cbn; [|rewrite length_app, length_take; lia|done].
  exists pre. split; [|done]. by rewrite <-app_assoc, take_drop.
Qed.

Lemma rewind_cur l tok x rest : cur l (tok ++ x) rest → width l = length x →
  cur (rewind l) tok (x ++ rest) ∧ err (rewind l) = err l ∧ pos (rewind l) = (pos l - length x)%nat.
Proof.
  intros [(pre & Hi & Hl) Hp Hb] Hw. unfold rewind. cbn. rewrite Hw. split_and!; [|done|done].
  split; cbn; [|rewrite Hp, length_app; lia|done]. exists pre. by rewrite Hi, <-!app_assoc.
Qed.

Lemma emit_cur k l tok rest : cur l tok rest →
  ∃ l' t, emit k l = (l', t) ∧ kind t = k ∧ value t = tok ∧ cur l' [] rest ∧ err l' = err l ∧
    pos l' = pos l.
Proof.
  intros [(pre & Hi & Hl) Hp Hb]. unfold emit. eexists _, _. split; [done|].
  cbn. split_and!; try done.
  - rewrite Hi, Hp, <-Hl, drop_app_length.
    replace (length pre + length tok - length pre)%nat with (length tok) by lia. apply take_app_length.
  - split; cbn; [|lia|done]. exists (pre ++ tok). rewrite Hi, Hp, <-Hl, length_app, <-app_assoc. done.
Qed.

Lemma skip_cur l tok rest : cur l tok rest → cur (skip l) [] rest.
Proof.
  intros [(pre & Hi & Hl) Hp Hb]. split; cbn; [|lia|done].
  exists (pre ++ tok). rewrite Hi, Hp, <-Hl, length_app, <-app_assoc. done.
Qed.

Lemma set_err_cur e l tok rest : cur l tok rest → cur (set_err e l) tok rest.
Proof. intros [? ? ?]. by split. Qed.

(** ** Accepting one of some runes *)

(** The next rune of the input and what follows it. *)
Definition head_rune (rest : list Z) : rune :=
  match rest with [] => eof | _ => (DecodeRune rest).1 end.

Lemma head_rune_eq rest : rest ≠ [] → head_rune rest = (DecodeRune rest).1.
Proof. by destruct rest. Qed.

Lemma next_back l tok rest : cur l tok rest →
  ∃ l', next l = (l', head_rune rest) ∧
    cur (rewind l') tok rest ∧ err (rewind l') = err l ∧ pos (rewind l') = pos l.
Proof.
  intros Hc. destruct (decide (rest = [])) as [->|Hne].
  - destruct (next_end _ _ Hc) as (l' & Hn & Hc' & Hw & He & Hp). exists l'.
    destruct (rewind_cur l' tok [] []) as (? & ? & ?); [by rewrite app_nil_r|done|].
    split_and!; try done; try congruence. cbn in *. lia.
  - destruct (DecodeRune rest) as [r w] eqn:Hd. pose proof (DecodeRune_width rest Hne) as Hw0.
    rewrite Hd in Hw0. cbn in Hw0.
    destruct (next_rune _ _ _ _ _ Hc Hne Hd) as (l' & Hn & Hc' & Hw & He & Hp). exists l'.
    destruct (rewind_cur l' tok (take w rest) (drop w rest)) as (H1 & H2 & H3);
      [done|rewrite length_take; lia|].
    rewrite take_drop in H1. rewrite length_take in H3.
    split_and!; try done; try congruence; [|lia]. by rewrite head_rune_eq, Hd.
Qed.

Lemma DecodeRune_small bs r w :
  Forall is_byte bs → bs ≠ [] → DecodeRune bs = (r, w) → r < 128 → w = 1%nat ∧ take 1 bs = [r].
Proof.
  intros Hb Hne Hd Hr. pose proof (DecodeRune_width bs Hne) as Hw. rewrite Hd in Hw. cbn in Hw.
  destruct (DecodeRune_inv bs r w Hb Hd Hne) as [[-> _]|[Hv Ht]]; [done|].
  destruct (EncodeRune_head r Hv) as (b & l & E & Hlo & _). destruct (Hlo Hr) as [-> ->].
  rewrite E in Ht. pose proof (f_equal length Ht) as Hl. rewrite length_take in Hl. cbn in Hl.
  assert (w = 1%nat) as -> by lia. done.
Qed.

Definition ascii (s : string) : Prop := Forall (λ b, 0 ≤ b < 128) (bytes s).

Lemma ContainsRune_ascii s r : ascii s → ContainsRune s r = true → 0 ≤ r < 128.
Proof.
  unfold ascii, ContainsRune. intros Hs (x & Hin & ->%Z.eqb_eq)%existsb_exists.
  rewrite Forall_forall in Hs. apply Hs. by apply list_elem_of_In.
Qed.

(** The state after [next] when the rune is one of some ASCII characters. *)
Lemma next_ascii l tok rest s : cur l tok rest → ascii s → ContainsRune s (head_rune rest) = true →
  ∃ l' c rest', next l = (l', c) ∧ rest = c :: rest' ∧ head_rune rest = c ∧ cur l' (tok ++ [c]) rest' ∧
    width l' = 1%nat ∧ err l' = err l ∧ pos l' = S (pos l).
Proof.
  intros Hc Hs Hr. pose proof (ContainsRune_ascii s _ Hs Hr) as Hlt.
  assert (Hne : rest ≠ []) by (intros ->; unfold head_rune, eof in Hlt; lia).
  rewrite head_rune_eq in * by done. destruct (DecodeRune rest) as [r w] eqn:Hd. cbn in *.
  destruct (DecodeRune_small rest r w (cur_rest_bytes _ _ _ Hc) Hne Hd ltac:(lia)) as [-> Ht].
  destruct (next_rune _ _ _ _ _ Hc Hne Hd) as (l' & Hn & Hc' & Hw & He & Hp).
  exists l', r, (drop 1 rest). rewrite Ht in Hc'. split_and!; try done; [|lia].
  change (r :: drop 1 rest) with ([r] ++ drop 1 rest). by rewrite <-Ht, take_drop.
Qed.

Lemma accept_true s l tok rest : cur l tok rest → ascii s → ContainsRune s (head_rune rest) = true →
  ∃ l' c rest', accept s l = (l', true) ∧ rest = c :: rest' ∧ head_rune rest = c ∧
    cur l' (tok ++ [c]) rest' ∧ err l' = err l ∧ pos l' = S (pos l).
Proof.
  intros Hc Hs Hr. destruct (next_ascii _ _ _ _ Hc Hs Hr) as (l' & c & rest' & Hn & He & Hh & Hc' & _ & ? & ?).
  exists l', c, rest'. unfold accept. rewrite Hn. rewrite Hh in Hr. rewrite Hr. done.
Qed.

Lemma accept_false s l tok rest : cur l tok rest → ContainsRune s (head_rune rest) = false →
  ∃ l', accept s l = (l', false) ∧ cur l' tok rest ∧ err l' = err l ∧ pos l' = pos l.
Proof.
  intros Hc Hr. destruct (next_back _ _ _ Hc) as (l' & Hn & ? & ? & ?).
  exists (rewind l'). unfold accept. by rewrite Hn, Hr.
Qed.

Lemma expect_true s l tok rest : cur l tok rest → ascii s → ContainsRune s (head_rune rest) = true →
  ∃ l' c rest', expect s l = (l', None) ∧ rest = c :: rest' ∧ head_rune rest = c ∧
    cur l' (tok ++ [c]) rest' ∧ err l' = err l ∧ pos l' = S (pos l).
Proof.
  intros Hc Hs Hr. destruct (next_ascii _ _ _ _ Hc Hs Hr) as (l' & c & rest' & Hn & He & Hh & Hc' & _ & ? & ?).
  exists l', c, rest'. unfold expect. rewrite Hn. rewrite Hh in Hr. rewrite Hr. done.
Qed.

Lemma expect_false s l tok rest : cur l tok rest → ContainsRune s (head_rune rest) = false →
  ∃ l' e, expect s l = (l', Some e) ∧ cur l' tok rest ∧ err l' = err l ∧ pos l' = pos l.
Proof.
  intros Hc Hr. destruct (next_back _ _ _ Hc) as (l' & Hn & ? & ? & ?).
  eexists (rewind l'), _. unfold expect. rewrite Hn, Hr. done.
Qed.

(** ** The loops *)
Lemma next_case l tok rest : cur l tok rest →
  rest = [] ∧ (∃ l', next l = (l', eof) ∧ cur l' tok [] ∧ err l' = err l) ∨
  rest ≠ [] ∧ ∃ l' x rest', next l = (l', head_rune rest) ∧ (head_rune rest =? eof) = false ∧
    rest = x ++ rest' ∧ x ≠ [] ∧ cur l' (tok ++ x) rest' ∧ width l' = length x ∧ err l' = err l.
Proof.
  intros Hc. destruct (decide (rest = [])) as [->|Hne].
  - left. split; [done|]. destruct (next_end _ _ Hc) as (l' & ? & ? & _ & ? & _). by exists l'.
  - right. split; [done|]. destruct (DecodeRune rest) as [r w] eqn:Hd.
    pose proof (DecodeRune_width rest Hne) as Hw0. rewrite Hd in Hw0. cbn in Hw0.
    pose proof (DecodeRune_not_eof _ (cur_rest_bytes _ _ _ Hc)) as Hr.
    destruct (next_rune _ _ _ _ _ Hc Hne Hd) as (l' & Hn & Hc' & Hw & He & _).
    exists l', (take w rest), (drop w rest). rewrite head_rune_eq, take_drop by done.
    rewrite Hd in *. cbn [fst] in *.
    split_and!; try done; [|rewrite length_take; lia]. intros Ht. apply (f_equal length) in Ht.
    rewrite length_take in Ht. cbn in Ht. lia.
Qed.

Lemma quoted_loop_cur fuel : ∀ esc l tok rest, cur l tok rest →
  ∃ x rest', rest = x ++ rest' ∧ cur (quoted_loop fuel esc l) (tok ++ x) rest' ∧
    err (quoted_loop fuel esc l) = err l.
Proof.
  induction fuel as [|fuel IH]; intros esc l tok rest Hc; cbn [quoted_loop].
  { exists [], rest. by rewrite (app_nil_r tok). }
  destruct (next_case _ _ _ Hc) as [(-> & l' & Hn & Hc' & He)|(Hne & l' & x & rest' & Hn & Hr & -> & Hx & Hc' & Hw & He)];
    rewrite Hn.
  { rewrite Z.eqb_refl. exists [], []. by rewrite (app_nil_r tok). }
  rewrite Hr. assert (Hrec : ∀ esc', ∃ x0 rest0, x ++ rest' = x0 ++ rest0 ∧
    cur (quoted_loop fuel esc' l') (tok ++ x0) rest0 ∧ err (quoted_loop fuel esc' l') = err l).
  { intros esc'. destruct (IH esc' l' _ _ Hc') as (y & rest0 & -> & Hy & Hey). exists (x ++ y), rest0.
    rewrite !app_assoc in *. split_and!; [done|done|congruence]. }
  destruct esc; [apply Hrec|]. destruct (head_rune _ =? backslash); [apply Hrec|].
  destruct (head_rune _ =? dquote); [|apply Hrec].
  destruct (rewind_cur _ _ _ _ Hc' Hw) as (Hb & Hbe & _). exists [], (x ++ rest').
  rewrite (app_nil_r tok). split_and!; [done|done|congruence].
Qed.

Lemma unquoted_loop_cur fuel : ∀ l tok rest, cur l tok rest →
  ∃ x rest', rest = x ++ rest' ∧ cur (unquoted_loop fuel l) (tok ++ x) rest' ∧
    err (unquoted_loop fuel l) = err l ∧
    ((0 < fuel)%nat → rest ≠ [] → isReserved (head_rune rest) = false → x ≠ []).
Proof.
  induction fuel as [|fuel IH]; intros l tok rest Hc; cbn [unquoted_loop].
  { exists [], rest. rewrite (app_nil_r tok). split_and!; try done. lia. }
  destruct (next_case _ _ _ Hc) as [(-> & l' & Hn & Hc' & He)|(Hne & l' & x & rest' & Hn & Hr & -> & Hx & Hc' & Hw & He)];
    rewrite Hn.
  { rewrite Z.eqb_refl. exists [], []. by rewrite (app_nil_r tok). }
  rewrite Hr. destruct (isReserved (head_rune (x ++ rest'))) eqn:Hres.
  - destruct (rewind_cur _ _ _ _ Hc' Hw) as (Hb & Hbe & _). exists [], (x ++ rest').
    rewrite (app_nil_r tok). split_and!; [done|done|congruence|done].
  - destruct (IH l' _ _ Hc') as (y & rest0 & -> & Hy & Hey & _). exists (x ++ y), rest0.
    rewrite !app_assoc in *. split_and!; [done|done|congruence|]. intros _ _ _ [? _]%app_nil. done.
Qed.

(** ** A scan consumes input *)

(** What a scan leaves: an error, or a token and what follows it. *)
Definition scanned (rest : list Z) (x : lexer * result lex_error token) : Prop :=
  match x with
  | (l', Ok t) => err l' = None ∧ ∃ rest', cur l' [] rest' ∧
      (if isEOF t then t = zero_token ∧ rest' = [] else (length rest' < length rest)%nat)
  | (l', Err e) => err l' = Some e
  end.

(** What the three scanners leave before the error is stored. *)
Definition scanned_part (rest : list Z) (x : lexer * result lex_error token) : Prop :=
  match x with
  | (l', Ok t) => isEOF t = false ∧ ∃ rest', cur l' [] rest' ∧ (length rest' < length rest)%nat
  | (l', Err e) => True
  end.

Lemma keep_err_scanned rest x : scanned_part rest x → scanned rest (keep_err x).
Proof.
  destruct x as [l [t|e]]; cbn; [|done]. intros (Ht & rest' & Hc & Hl). split; [done|].
  rewrite Ht. exists rest'. split; [by apply set_err_cur|done].
Qed.

Lemma emit_part k l tok rest rest' :
  k ≠ tokenEOF → cur l tok rest' → (length rest' < length rest)%nat →
  scanned_part rest (let '(l, t) := emit k l in (l, Ok t)).
Proof.
  intros Hk Hc Hl. destruct (emit_cur k _ _ _ Hc) as (l' & t & -> & Ht & _ & Hc' & _). cbn.
  split; [|by exists rest']. unfold isEOF. apply bool_decide_eq_false. congruence.
Qed.

Lemma ascii_const s : forallb (λ b, (0 <=? b) && (b <? 128)) (bytes s) = true → ascii s.
Proof.
  unfold ascii. rewrite Forall_forall. intros H b Hb%list_elem_of_In.
  apply forallb_forall with (x := b) in H; [|done]. to_props. lia.
Qed.

Ltac accept_case s Hc :=
  let l := fresh "l" in let c := fresh "c" in let r := fresh "rest" in
  let Ha := fresh "Ha" in
  match type of Hc with cur ?l0 ?tok ?rest =>
    destruct (ContainsRune s (head_rune rest)) eqn:Ha;
    [destruct (accept_true s _ _ _ Hc ltac:(by apply ascii_const) Ha) as
       (l & c & r & -> & -> & _ & ?Hc & _ & _)
    |destruct (accept_false s _ _ _ Hc Ha) as (l & -> & ?Hc & _ & _)]
  end.

Lemma scanOperator_part l rest : cur l [] rest → scanned_part rest (scanOperator l).
Proof.
  intros Hc. unfold scanOperator. accept_case "!"%string Hc.
  - accept_case "="%string Hc0; [by eapply emit_part; [|done|cbn; lia]|].
    accept_case "~"%string Hc1; [by eapply emit_part; [|done|cbn; lia]|done].
  - accept_case "="%string Hc0; [|done].
    accept_case "~"%string Hc1; by eapply emit_part; [|done|cbn; lia].
Qed.

Lemma quote_ascii : ascii quote_mark.
Proof. by apply ascii_const. Qed.

Lemma scanQuoted_part l rest : cur l [] rest → scanned_part rest (scanQuoted l).
Proof.
  intros Hc. unfold scanQuoted. destruct (ContainsRune quote_mark (head_rune rest)) eqn:Ha.
  2:{ destruct (expect_false _ _ _ _ Hc Ha) as (l' & e & -> & _). done. }
  destruct (expect_true _ _ _ _ Hc quote_ascii Ha) as (l1 & c & r1 & -> & -> & _ & Hc1 & _).
  destruct (quoted_loop_cur (S (length (input l1))) false _ _ _ Hc1) as (x & r2 & -> & Hc2 & _).
  destruct (ContainsRune quote_mark (head_rune r2)) eqn:Ha2.
  2:{ destruct (expect_false _ _ _ _ Hc2 Ha2) as (l' & e & -> & _). done. }
  destruct (expect_true _ _ _ _ Hc2 quote_ascii Ha2) as (l3 & c3 & r3 & -> & -> & _ & Hc3 & _).
  eapply emit_part; [done|exact Hc3|]. cbn. rewrite length_app. cbn. lia.
Qed.

Lemma scanUnquoted_part l rest :
  cur l [] rest → rest ≠ [] → isReserved (head_rune rest) = false → scanned_part rest (scanUnquoted l).
Proof.
  intros Hc Hne Hr. unfold scanUnquoted.
  destruct (unquoted_loop_cur (S (length (input l))) _ _ _ Hc) as (x & rest' & -> & Hc' & _ & Hx).
  eapply emit_part; [done|exact Hc'|]. rewrite length_app.
  specialize (Hx ltac:(lia) Hne Hr). destruct x; [done|cbn; lia].
Qed.

Lemma emitted_scanned k l tok rest rest' :
  k ≠ tokenEOF → cur l tok rest' → err l = None → (length rest' < length rest)%nat →
  scanned rest (emitted (emit k l)).
Proof.
  intros Hk Hc He Hl. destruct (emit_cur k _ _ _ Hc) as (l' & t & E & Ht & _ & Hc' & He' & _).
  unfold emitted. rewrite E. cbn. split; [congruence|]. exists rest'. split; [done|].
  unfold isEOF. rewrite bool_decide_eq_false_2; [done|congruence].
Qed.

Lemma scan_loop_scanned fuel : ∀ l rest, cur l [] rest → err l = None → (length rest < fuel)%nat →
  scanned rest (scan_loop fuel l).
Proof.
  induction fuel as [|fuel IH]; intros l rest Hc He Hf; [lia|]. cbn [scan_loop].
  destruct (next_case _ _ _ Hc) as
    [(-> & l' & Hn & Hc' & He')|(Hne & l' & x & rest' & Hn & Hr & Hrest & Hx & Hc' & Hw & He')]; rewrite Hn.
  { rewrite Z.eqb_refl. cbn. split; [congruence|]. by exists []. }
  rewrite Hr. set (r := head_rune rest) in *.
  assert (Hlt : (length rest' < length rest)%nat)
    by (rewrite Hrest, length_app; destruct x; [done|cbn; lia]).
  assert (Hback : cur (rewind l') [] rest) by (rewrite Hrest; by apply (rewind_cur _ [] x)).
  destruct (r =? 123); [by eapply emitted_scanned; [|done|congruence|]|].
  destruct (r =? 125); [by eapply emitted_scanned; [|done|congruence|]|].
  destruct (r =? 44); [by eapply emitted_scanned; [|done|congruence|]|].
  destruct ((r =? 61) || (r =? 33)); [by apply keep_err_scanned, scanOperator_part|].
  destruct (r =? dquote); [by apply keep_err_scanned, scanQuoted_part|].
  destruct (isReserved r) eqn:Hres; cbn [negb].
  2:{ by apply keep_err_scanned, scanUnquoted_part. }
  destruct (IsSpace r); [|done].
  assert (H := IH (skip l') rest' ltac:(by eapply skip_cur) ltac:(cbn; congruence) ltac:(lia)).
  destruct (scan_loop fuel (skip l')) as [l2 [t|e]]; cbn in *; [|done].
  destruct H as (? & r2 & ? & H). split; [done|]. exists r2. split; [done|]. destruct (isEOF t); [done|lia].
Qed.

Lemma scan_scanned l rest : cur l [] rest → err l = None → scanned rest (scan l).
Proof.
  intros Hc He. unfold scan. rewrite He. apply scan_loop_scanned; [done..|].
  destruct Hc as [(pre & -> & _) _ _]. rewrite !length_app. lia.
Qed.

(** A token that was peeked is the one that is scanned next. *)
Lemma peek_scan l l' t : err l = None → peek l = (l', Ok t) → err (scan l).1 = None →
  l' = l ∧ (scan l).2 = Ok t.
Proof.
  unfold peek. intros He. destruct (scan l) as [l1 r] eqn:Hs. cbn. intros [= <- ->] ->.
  split; [|done]. destruct l; cbn in *. by subst.
Qed.

(** ** Single tokens *)

(** The next token is of a kind, has a value and leaves the rest. *)
Definition lexes1 (l : lexer) (k : tokenKind) (v rest : list Z) : Prop :=
  ∃ l' t, scan l = (l', Ok t) ∧ kind t = k ∧ value t = v ∧ cur l' [] rest ∧ err l' = None.

Lemma scan_head l rest : cur l [] rest → err l = None → rest ≠ [] →
  ∃ l' x rest' fuel, next l = (l', head_rune rest) ∧ rest = x ++ rest' ∧ cur l' x rest' ∧
    err l' = None ∧ width l' = length x ∧ (length rest ≤ fuel)%nat ∧
    scan l = scan_loop (S fuel) l ∧ (head_rune rest =? eof) = false.
Proof.
  intros Hc He Hne. destruct (next_case _ _ _ Hc) as
    [(-> & _)|(_ & l' & x & rest' & Hn & Hr & Hrest & Hx & Hc' & Hw & He')]; [done|].
  exists l', x, rest', (length (input l)). unfold scan. rewrite He. split_and!; try done; [congruence|].
  destruct Hc as [(pre & -> & _) _ _]. rewrite !length_app. lia.
Qed.

Lemma head_rune_ascii c rest : c < 128 → head_rune (c :: rest) = c.
Proof. intros Hc. cbn. unfold DecodeRune. by rewrite (proj2 (Z.ltb_lt c 128)). Qed.

Lemma bytes_char c : 0 ≤ c < 128 → bytes (of_bytes [c]) = [c].
Proof. intros Hc. apply bytes_of_bytes, Forall_singleton. unfold is_byte. lia. Qed.

Lemma next_char l tok c rest : cur l tok (c :: rest) → 0 ≤ c < 128 →
  ∃ l', next l = (l', c) ∧ cur l' (tok ++ [c]) rest ∧ width l' = 1%nat ∧ err l' = err l.
Proof.
  intros Hc Hlt. destruct (next_ascii l tok (c :: rest) (of_bytes [c]) Hc) as
    (l' & c' & rest' & Hn & [= <- <-] & _ & ? & ? & ? & _).
  - unfold ascii. rewrite bytes_char by done. by apply Forall_singleton.
  - unfold ContainsRune. rewrite head_rune_ascii, bytes_char by lia.
    cbn. by rewrite Z.eqb_refl.
  - by exists l'.
Qed.

Lemma scan_punct l c rest k :
  cur l [] (c :: rest) → err l = None →
  (c, k) ∈ [(123, tokenOpenBrace); (125, tokenCloseBrace); (44, tokenComma)] → lexes1 l k [c] rest.
Proof.
  intros Hc He Hk. assert (Hlt : 0 ≤ c < 128) by (set_unfold; naive_solver lia).
  destruct (next_char _ _ _ _ Hc Hlt) as (l' & Hn & Hc' & _ & He').
  destruct (emit_cur k _ _ _ Hc') as (l2 & t & E & Ht & Hv & Hc2 & He2 & _).
  exists l2, t. split_and!; try done; [|congruence]. unfold scan. rewrite He. cbn [scan_loop]. rewrite Hn.
  set_unfold. destruct_or! Hk; injection Hk as -> ->; cbn; by rewrite E.
Qed.

(** The characters of an operator. *)
Definition op_bytes (k : tokenKind) : list Z :=
  match k with
  | tokenEquals => [61] | tokenNotEquals => [33; 61]
  | tokenMatches => [61; 126] | tokenNotMatches => [33; 126]
  | _ => []
  end.

Lemma accept_char s l tok c rest : cur l tok (c :: rest) → ascii s → 0 ≤ c < 128 →
  ContainsRune s c = true →
  ∃ l', accept s l = (l', true) ∧ cur l' (tok ++ [c]) rest ∧ err l' = err l.
Proof.
  intros Hc Hs Hlt Hr. destruct (accept_true s _ _ _ Hc Hs) as (l' & c' & r' & E & [= <- <-] & _ & ? & ? & _).
  { by rewrite head_rune_ascii by lia. }
  by exists l'.
Qed.

Lemma emit_lexes k l tok rest :
  cur l tok rest → err l = None →
  ∃ l' t, (let '(l, t) := emit k l in (l, Ok t)) = (l', @Ok lex_error _ t) ∧ kind t = k ∧ value t = tok ∧
    cur l' [] rest ∧ err l' = None.
Proof.
  intros Hc He. destruct (emit_cur k _ _ _ Hc) as (l' & t & -> & ? & ? & ? & ? & _).
  exists l', t. split_and!; try done. congruence.
Qed.

(** An operator that is not followed by a tilde. *)
Lemma scanOperator_lexes l k rest :
  k ∈ [tokenEquals; tokenNotEquals; tokenMatches; tokenNotMatches] → head_rune rest ≠ 126 →
  cur l [] (op_bytes k ++ rest) → err l = None →
  ∃ l' t, scanOperator l = (l', Ok t) ∧ kind t = k ∧ value t = op_bytes k ∧ cur l' [] rest ∧ err l' = None.
Proof.
  intros Hk Hr Hc He. unfold scanOperator.
  assert (Hno : ∀ s l tok c rest, cur l tok (c :: rest) → 0 ≤ c < 128 → ContainsRune s c = false →
    err l = None → ∃ l', accept s l = (l', false) ∧ cur l' tok (c :: rest) ∧ err l' = None).
  { intros s l0 tok c r0 Hc0 Hlt Hn He0. destruct (accept_false s _ _ _ Hc0) as (l' & ? & ? & ? & _).
    - by rewrite head_rune_ascii by lia.
    - exists l'. split_and!; try done. congruence. }
  set_unfold. destruct_or! Hk; subst k; cbn [op_bytes app] in Hc.
  - destruct (Hno "!"%string _ _ _ _ Hc) as (l1 & -> & Hc1 & He1); [lia|done..|].
    destruct (accept_char "=" _ _ _ _ Hc1) as (l2 & -> & Hc2 & He2); [by apply ascii_const|lia|done|].
    destruct (accept_false "~" _ _ _ Hc2) as (l3 & -> & Hc3 & He3 & _).
    { unfold ContainsRune. cbn. by rewrite (proj2 (Z.eqb_neq _ 126)). }
    by eapply emit_lexes; [|congruence].
  - destruct (accept_char "!" _ _ _ _ Hc) as (l1 & -> & Hc1 & He1); [by apply ascii_const|lia|done|].
    destruct (accept_char "=" _ _ _ _ Hc1) as (l2 & -> & Hc2 & He2); [by apply ascii_const|lia|done|].
    by eapply emit_lexes; [|congruence].
  - destruct (Hno "!"%string _ _ _ _ Hc) as (l1 & -> & Hc1 & He1); [lia|done..|].
    destruct (accept_char "=" _ _ _ _ Hc1) as (l2 & -> & Hc2 & He2); [by apply ascii_const|lia|done|].
    destruct (accept_char "~" _ _ _ _ Hc2) as (l3 & -> & Hc3 & He3); [by apply ascii_const|lia|done|].
    by eapply emit_lexes; [|congruence].
  - destruct (accept_char "!" _ _ _ _ Hc) as (l1 & -> & Hc1 & He1); [by apply ascii_const|lia|done|].
    destruct (Hno "="%string _ _ _ _ Hc1) as (l2 & -> & Hc2 & He2); [lia|done|congruence|].
    destruct (accept_char "~" _ _ _ _ Hc2) as (l3 & -> & Hc3 & He3); [by apply ascii_const|lia|done|].
    by eapply emit_lexes; [|congruence].
Qed.

Lemma scan_operator l k rest :
  k ∈ [tokenEquals; tokenNotEquals; tokenMatches; tokenNotMatches] → head_rune rest ≠ 126 →
  cur l [] (op_bytes k ++ rest) → err l = None → lexes1 l k (op_bytes k) rest.
Proof.
  intros Hk Hr Hc He.
  assert (Hh : ∃ c r0, op_bytes k ++ rest = c :: r0 ∧ (c = 61 ∨ c = 33))
    by (set_unfold; destruct_or! Hk; subst k; cbn; eauto).
  destruct Hh as (c & r0 & Hcr & Hc0). rewrite Hcr in Hc.
  destruct (scan_head _ _ Hc He ltac:(done)) as (l' & x & rest' & fuel & Hn & Hx & Hc' & He' & Hw & _ & Hs & _).
  rewrite head_rune_ascii in Hn by lia.
  destruct (rewind_cur l' [] x rest' Hc' Hw) as (Hb & Hbe & _). rewrite <-Hx, <-Hcr in Hb.
  destruct (scanOperator_lexes _ _ _ Hk Hr Hb ltac:(congruence)) as (l2 & t & E & ? & ? & ? & ?).
  exists (set_err None l2), t. rewrite Hs. cbn [scan_loop]. rewrite Hn.
  assert (Hops : (c =? eof) = false ∧ (c =? 123) = false ∧ (c =? 125) = false ∧ (c =? 44) = false ∧
    (c =? 61) || (c =? 33) = true) by (by destruct Hc0; subst).
  destruct Hops as (-> & -> & -> & -> & ->). rewrite E. split_and!; try done. by apply set_err_cur.
Qed.

(** Text between quotes: runes other than a quote or a backslash, and escapes
    of something else than a comma. *)
Inductive qtext : list Z → Prop :=
| qtext_nil : qtext []
| qtext_rune r q : valid_rune r → r ≠ dquote → r ≠ backslash → qtext q → qtext (EncodeRune r ++ q)
| qtext_esc c q : 0 ≤ c < 128 → c ≠ 44 → qtext q → qtext (backslash :: c :: q).

Lemma next_valid l tok r rest : cur l tok (EncodeRune r ++ rest) → valid_rune r →
  ∃ l', next l = (l', r) ∧ cur l' (tok ++ EncodeRune r) rest ∧ err l' = err l.
Proof.
  intros Hc Hr. pose proof (EncodeRune_nonempty r) as Hne.
  destruct (next_rune _ _ _ r (length (EncodeRune r)) Hc) as (l' & ? & Hc' & _ & ? & _).
  - by intros [? _]%app_nil.
  - by apply DecodeRune_EncodeRune.
  - exists l'. rewrite take_app_length, drop_app_length in Hc'. done.
Qed.

Lemma valid_not_eof r : valid_rune r → (r =? eof) = false.
Proof. intros [Hr _]. apply Z.eqb_neq. unfold eof. lia. Qed.

Lemma quoted_loop_qtext q : qtext q → ∀ fuel l tok rest,
  cur l tok (q ++ dquote :: rest) → (length q < fuel)%nat →
  cur (quoted_loop fuel false l) (tok ++ q) (dquote :: rest) ∧
  err (quoted_loop fuel false l) = err l.
Proof.
  induction 1 as [|r q Hr H1 H2 _ IH|c q Hlt _ _ IH]; intros fuel l tok rest Hc Hf;
    (destruct fuel as [|fuel]; [cbn in Hf; lia|]); cbn [quoted_loop].
  - rewrite app_nil_r. destruct (next_char _ _ _ _ Hc) as (l' & -> & Hc' & Hw & He);
      [unfold dquote; lia|]. cbn. destruct (rewind_cur l' tok [dquote] rest) as (? & ? & _); [done|done|].
    split; [done|congruence].
  - rewrite <-app_assoc in Hc. destruct (next_valid _ _ _ _ Hc Hr) as (l' & -> & Hc' & He).
    rewrite valid_not_eof, !(proj2 (Z.eqb_neq _ _)) by done.
    rewrite length_app in Hf. pose proof (EncodeRune_nonempty r).
    destruct (IH fuel l' _ _ Hc') as [H3 H4]; [destruct (EncodeRune r); [done|cbn in *; lia]|].
    rewrite app_assoc. split; [done|congruence].
  - destruct (next_char _ _ _ _ Hc) as (l1 & -> & Hc1 & _ & He1); [unfold backslash; lia|].
    change (backslash =? eof) with false. change (backslash =? backslash) with true. cbv iota.
    destruct fuel as [|fuel]; [cbn in Hf; lia|]. cbn [quoted_loop].
    destruct (next_char _ _ _ _ Hc1) as (l2 & -> & Hc2 & _ & He2); [done|].
    rewrite (proj2 (Z.eqb_neq c eof)) by (unfold eof; lia).
    destruct (IH fuel l2 _ _ Hc2) as [H3 H4]; [cbn in Hf; lia|].
    rewrite <-!app_assoc in H3. split; [done|congruence].
Qed.

Lemma scan_quoted l q rest :
  qtext q → cur l [] (dquote :: q ++ dquote :: rest) → err l = None →
  lexes1 l tokenQuoted (dquote :: q ++ [dquote]) rest.
Proof.
  intros Hq Hc He.
  destruct (scan_head _ _ Hc He ltac:(done)) as (l' & x & rest' & fuel & Hn & Hx & Hc' & He' & Hw & _ & Hs & _).
  rewrite head_rune_ascii in Hn by (unfold dquote; lia).
  destruct (rewind_cur l' [] x rest' Hc' Hw) as (Hb & Hbe & _). rewrite <-Hx in Hb.
  assert (Hsc : ∃ l2 t, scanQuoted (rewind l') = (l2, Ok t) ∧ kind t = tokenQuoted ∧
    value t = dquote :: q ++ [dquote] ∧ cur l2 [] rest ∧ err l2 = None).
  { unfold scanQuoted.
    destruct (expect_true _ _ _ _ Hb quote_ascii) as (l1 & c & r1 & -> & [= <- <-] & _ & Hc1 & He1 & _); [done|].
    assert (Hlen : (length q < S (length (input l1)))%nat).
    { destruct Hc1 as [(pre & -> & _) _ _]. rewrite !length_app. lia. }
    destruct (quoted_loop_qtext q Hq _ _ _ _ Hc1 Hlen) as [Hc2 He2].
    destruct (expect_true _ _ _ _ Hc2 quote_ascii) as (l3 & c & r3 & -> & [= <- <-] & _ & Hc3 & He3 & _); [done|].
    destruct (emit_lexes tokenQuoted l3 _ rest Hc3) as (l4 & t & -> & Ht & Hv & ? & ?); [congruence|].
    exists l4, t. by rewrite Ht, Hv. }
  destruct Hsc as (l2 & t & E & ? & ? & ? & ?).
  exists (set_err None l2), t. rewrite Hs. cbn [scan_loop]. rewrite Hn. cbn. rewrite E.
  split_and!; try done. by apply set_err_cur.
Qed.

Lemma unquoted_loop_runes rs : Forall valid_rune rs → Forall (λ r, isReserved r = false) rs →
  ∀ fuel l tok rest, cur l tok (encode_runes rs ++ rest) → (length (encode_runes rs) < fuel)%nat →
  rest ≠ [] → isReserved (head_rune rest) = true →
  cur (unquoted_loop fuel l) (tok ++ encode_runes rs) rest ∧ err (unquoted_loop fuel l) = err l.
Proof.
  intros Hv. induction Hv as [|r rs Hr _ IH]; intros Hres fuel l tok rest Hc Hf Hne Hh;
    (destruct fuel as [|fuel]; [lia|]); cbn [unquoted_loop].
  - destruct (next_case _ _ _ Hc) as [(? & _)|(_ & l' & x & rest' & Hn & Hr & Hrest & Hx & Hc' & Hw & He)];
      [done|]. rewrite Hn, Hr. change (encode_runes [] ++ rest) with rest in *. rewrite Hh.
    change (encode_runes []) with (@nil Z). rewrite (app_nil_r tok).
    destruct (rewind_cur l' tok x rest' Hc' Hw) as (Hb & Hbe & _). rewrite <-Hrest in Hb.
    split; [done|congruence].
  - apply Forall_cons_1 in Hres as [Hr1 Hres].
    change (encode_runes (r :: rs)) with (EncodeRune r ++ encode_runes rs) in *.
    rewrite <-app_assoc in Hc. destruct (next_valid _ _ _ _ Hc Hr) as (l' & -> & Hc' & He).
    rewrite valid_not_eof, Hr1 by done. rewrite length_app in Hf. pose proof (EncodeRune_nonempty r).
    destruct (IH Hres fuel l' _ _ Hc') as [H3 H4];
      [destruct (EncodeRune r); [done|cbn in *; lia]|done|done|].
    rewrite app_assoc. split; [done|congruence].
Qed.

Lemma scan_unquoted l rs rest :
  rs ≠ [] → Forall valid_rune rs → Forall (λ r, isReserved r = false) rs → rest ≠ [] →
  isReserved (head_rune rest) = true → cur l [] (encode_runes rs ++ rest) → err l = None →
  lexes1 l tokenUnquoted (encode_runes rs) rest.
Proof.
  intros Hne Hv Hres Hrest Hh Hc He. destruct rs as [|r rs0] eqn:Ers; [done|]. rewrite <-Ers in *.
  assert (Hr : valid_rune r ∧ isReserved r = false).
  { subst rs. apply Forall_cons_1 in Hv as [? _]. apply Forall_cons_1 in Hres as [? _]. done. }
  destruct Hr as [Hr Hnr].
  assert (Hhd : head_rune (encode_runes rs ++ rest) = r ∧ encode_runes rs ++ rest ≠ []).
  { subst rs. change (encode_runes (r :: rs0)) with (EncodeRune r ++ encode_runes rs0).
    rewrite <-app_assoc. pose proof (EncodeRune_nonempty r).
    assert (EncodeRune r ++ encode_runes rs0 ++ rest ≠ []) by (by intros [? _]%app_nil).
    split; [|done]. rewrite head_rune_eq by done. by rewrite DecodeRune_EncodeRune. }
  destruct Hhd as [Hhd Hnil].
  destruct (scan_head _ _ Hc He Hnil) as (l' & x & rest' & fuel & Hn & Hx & Hc' & He' & Hw & _ & Hs & Heof).
  rewrite Hhd in *. destruct (rewind_cur l' [] x rest' Hc' Hw) as (Hb & Hbe & _). rewrite <-Hx in Hb.
  assert (Hlen : (length (encode_runes rs) < S (length (input (rewind l'))))%nat).
  { destruct Hb as [(pre & -> & _) _ _]. rewrite !length_app. lia. }
  destruct (unquoted_loop_runes rs Hv Hres _ _ _ _ Hb Hlen Hrest Hh) as [Hc2 He2].
  destruct (emit_lexes tokenUnquoted _ _ rest Hc2) as (l4 & t & E & Ht & Hvt & ? & ?); [congruence|].
  exists (set_err None l4), t. rewrite Hs. cbn [scan_loop]. rewrite Hn, Heof.
  assert (Hno : ∀ c, isReserved c = true → (r =? c) = false) by (intros c Hres'; apply Z.eqb_neq; congruence).
  rewrite !Hno by done. cbn [orb]. rewrite Hnr. cbn [negb]. unfold scanUnquoted. rewrite E.
  split_and!; try done. by apply set_err_cur.
Qed.

Lemma scan_eof l : cur l [] [] → err l = None → ∃ l', scan l = (l', Ok zero_token) ∧ err l' = None ∧ cur l' [] [].
Proof.
  intros Hc He. destruct (next_end _ _ Hc) as (l' & Hn & Hc' & _ & He' & _).
  exists l'. unfold scan. rewrite He. cbn [scan_loop]. rewrite Hn. split_and!; try done. congruence.
Qed.
End MatchLexerInv.
