(* ===== verification/MatchParser.v ===== *)
(** * The parser of label matchers (matcher/parse/parse.go)

    A finite state automaton over the tokens of the lexer, one state per
    [parseFunc]; it collects matchers and remembers whether the input started
    with an open brace.  Its error messages name the tokens they stopped at and
    wrap each other; [PPanic] is the error that a recovered panic becomes. *)

From Stdlib Require Import Ascii String.
From stdpp Require Import base list strings numbers sets.
From S2P Require Import Prelude Utf8 Labels Unquote MatchLexer.

Import MatchLexer.

Module MatchParser.

(** The sentinel errors that wrap another error. *)
Inductive sentinel :=
| errExpectedEOF | errNoLabelName | errNoLabelValue | errNoOperator | errExpectedComma
| errExpectedCommaOrCloseBrace | errExpectedMatcherOrCloseBrace.

Inductive error :=
| PLex (e : lex_error)
| errEOF
| PUnexpected (t : token)
| PWrap (e : error) (s : sentinel)
| PNoCloseBrace (columnEnd : nat) (e : error)
| PNoOpenBrace (columnEnd : nat)
| PInvalid (t : token)           (** a token that cannot be unquoted *)
| PBadMatcher                    (** NewMatcher failed *)
| PNotEOF (t : token)
| PCount (n : nat)               (** not exactly one matcher *)
| PPanic
| PFuel.

Definition is_EOF (e : error) : bool := match e with errEOF => true | _ => false end.

Section parser.
Context `{RE : Regexp}.

Record parser := mkParser {
  matchers : list Labels.Matcher;
  hasOpenBrace : bool;
  lex : lexer;
}.

Definition set_lex l p := mkParser (matchers p) (hasOpenBrace p) l.
Definition set_open b p := mkParser (matchers p) b (lex p).
Definition add_matcher m p := mkParser (matchers p ++ [m]) (hasOpenBrace p) (lex p).

(** ** Looking at tokens *)
Definition acceptPeek (kinds : list tokenKind) (l : lexer) : lexer * result error bool :=
  let '(l, r) := peek l in
  match r with
  | Err e => (l, Err (PLex e))
  | Ok t => (l, if isEOF t then Err errEOF else Ok (isOneOf t kinds))
  end.

Definition accept_ (kinds : list tokenKind) (l : lexer) : lexer * result error bool :=
  let '(l, r) := acceptPeek kinds l in
  match r with
  | Ok true =>
      let '(l, r) := scan l in
      (l, match r with Ok _ => Ok true | Err _ => Err PPanic end)
  | _ => (l, r)
  end.

Definition expectPeek (kinds : list tokenKind) (l : lexer) : lexer * result error token :=
  let '(l, r) := peek l in
  match r with
  | Err e => (l, Err (PLex e))
  | Ok t =>
      (l, if isEOF t then Err errEOF
          else if negb (isOneOf t kinds) then Err (PUnexpected t) else Ok t)
  end.

Definition expect_ (kinds : list tokenKind) (l : lexer) : lexer * result error token :=
  let '(l, r) := expectPeek kinds l in
  match r with
  | Err e => (l, Err e)
  | Ok t =>
      let '(l, r) := scan l in
      (l, match r with Ok _ => Ok t | Err _ => Err PPanic end)
  end.

(** ** The states *)
Inductive state :=
| parseOpenBrace | parseCloseBrace | parseMatcher | parseEndOfMatcher | parseComma | parseEOF.

(** A state function: the next state, [None] at the end. *)
Definition open_brace (p : parser) : parser * result error (option state) :=
  let '(l, r) := accept_ [tokenOpenBrace] (lex p) in
  let p := set_lex l p in
  match r with
  | Err e => (set_open false p, if is_EOF e then Ok (Some parseEOF) else Err e)
  | Ok b =>
      let p := set_open b p in
      let '(l, r) := acceptPeek [tokenCloseBrace] (lex p) in
      let p := set_lex l p in
      (p, match r with
          | Err e => if is_EOF e then Ok (Some parseCloseBrace) else Err e
          | Ok true => Ok (Some parseCloseBrace)
          | Ok false => Ok (Some parseMatcher)
          end)
  end.

Definition close_brace (p : parser) : parser * result error (option state) :=
  let '(l, r) := expect_ [tokenCloseBrace] (lex p) in
  let p := set_lex l p in
  (p, if hasOpenBrace p then
        match r with
        | Err PPanic => Err PPanic
        | Err e => Err (PNoCloseBrace (columnEnd (position_of l)) e)
        | Ok _ => Ok (Some parseEOF)
        end
      else
        match r with
        | Err PPanic => Err PPanic
        | Ok _ => Err (PNoOpenBrace (columnEnd (position_of l)))
        | Err _ => Ok (Some parseEOF)
        end).

Definition matchTy (k : tokenKind) : option Labels.MatchType :=
  match k with
  | tokenEquals => Some Labels.MatchEqual
  | tokenNotEquals => Some Labels.MatchNotEqual
  | tokenMatches => Some Labels.MatchRegexp
  | tokenNotMatches => Some Labels.MatchNotRegexp
  | _ => None
  end.

(** [fmt.Errorf("%w: %w", err, s)], unless a panic passes through. *)
Definition wrap (e : error) (s : sentinel) : error :=
  match e with PPanic => PPanic | _ => PWrap e s end.

Definition operators : list tokenKind := [tokenEquals; tokenNotEquals; tokenMatches; tokenNotMatches].

Definition matcher (p : parser) : parser * result error (option state) :=
  let '(l, r) := expect_ [tokenQuoted; tokenUnquoted] (lex p) in
  match r with
  | Err e => (set_lex l p, Err (wrap e errNoLabelName))
  | Ok t =>
  match unquote t with
  | None => (set_lex l p, Err (PInvalid t))
  | Some matchName =>
  let '(l, r) := expect_ operators l in
  match r with
  | Err e => (set_lex l p, Err (wrap e errNoOperator))
  | Ok t =>
  match matchTy (kind t) with
  | None => (set_lex l p, Err PPanic)
  | Some ty =>
  let '(l, r) := expect_ [tokenUnquoted; tokenQuoted] l in
  match r with
  | Err e => (set_lex l p, Err (wrap e errNoLabelValue))
  | Ok t =>
  match unquote t with
  | None => (set_lex l p, Err (PInvalid t))
  | Some matchValue =>
  match Labels.NewMatcher ty (of_bytes matchName) (of_bytes matchValue) with
  | None => (set_lex l p, Err PBadMatcher)
  | Some m => (add_matcher m (set_lex l p), Ok (Some parseEndOfMatcher))
  end end end end end end end.

Definition end_of_matcher (p : parser) : parser * result error (option state) :=
  let '(l, r) := expectPeek [tokenComma; tokenCloseBrace] (lex p) in
  (set_lex l p,
   match r with
   | Err e => if is_EOF e then Ok (Some parseCloseBrace)
              else Err (wrap e errExpectedCommaOrCloseBrace)
   | Ok t =>
       match kind t with
       | tokenComma => Ok (Some parseComma)
       | tokenCloseBrace => Ok (Some parseCloseBrace)
       | _ => Err PPanic
       end
   end).

Definition comma (p : parser) : parser * result error (option state) :=
  let '(l, r) := expect_ [tokenComma] (lex p) in
  match r with
  | Err e => (set_lex l p, Err (wrap e errExpectedComma))
  | Ok _ =>
      let '(l, r) := expectPeek [tokenCloseBrace; tokenUnquoted; tokenQuoted] l in
      (set_lex l p,
       match r with
       | Err e => if is_EOF e then Ok (Some parseCloseBrace)
                  else Err (wrap e errExpectedMatcherOrCloseBrace)
       | Ok t => if decide (kind t = tokenCloseBrace) then Ok (Some parseCloseBrace)
                 else Ok (Some parseMatcher)
       end)
  end.

Definition end_of_input (p : parser) : parser * result error (option state) :=
  let '(l, r) := scan (lex p) in
  (set_lex l p,
   match r with
   | Err e => Err (PWrap (PLex e) errExpectedEOF)
   | Ok t => if isEOF t then Ok None else Err (PNotEOF t)
   end).

Definition run (fn : state) (p : parser) : parser * result error (option state) :=
  match fn with
  | parseOpenBrace => open_brace p
  | parseCloseBrace => close_brace p
  | parseMatcher => matcher p
  | parseEndOfMatcher => end_of_matcher p
  | parseComma => comma p
  | parseEOF => end_of_input p
  end.

(** The loop of [parse]. *)
Fixpoint parse_loop (fuel : nat) (fn : state) (p : parser) : result error (list Labels.Matcher) :=
  match fuel with
  | O => Err PFuel
  | S fuel =>
      match run fn p with
      | (_, Err e) => Err e
      | (p, Ok None) => Ok (matchers p)
      | (p, Ok (Some fn)) => parse_loop fuel fn p
      end
  end.

Definition parse (p : parser) : result error (list Labels.Matcher) :=
  parse_loop (3 * length (input (lex p)) + 4) parseOpenBrace p.

Definition Matchers (input : string) : result error (list Labels.Matcher) :=
  parse (mkParser [] false (new_lexer (bytes input))).

Definition Matcher (input : string) : result error Labels.Matcher :=
  match Matchers input with
  | Err e => Err e
  | Ok [m] => Ok m
  | Ok ms => Err (PCount (length ms))
  end.
End parser.
End MatchParser.

(** * What the parser of label matchers accepts

    The parser is a reader of the grammar that its states encode: it accepts an
    input exactly when the lexer splits all of it into tokens that form a
    sentence, and it never panics. *)
Import MatchLexer MatchLexerInv MatchParser.

Module MatchParserInv.

(** Contradictions between the kinds of a token. *)
Ltac kinds := repeat rewrite elem_of_cons in *; rewrite ?elem_of_nil in *; intuition congruence.

(** ** Tokens of the whole input *)
Inductive lexes : lexer → list token → Prop :=
| lexes_end l l' : scan l = (l', Ok zero_token) → lexes l []
| lexes_token l l' t ts : scan l = (l', Ok t) → isEOF t = false → lexes l' ts → lexes l (t :: ts).

(** The lexer is between two tokens and has not failed. *)
Definition ready (l : lexer) (rest : list Z) : Prop := cur l [] rest ∧ err l = None.

(** How a look at the next token ends. *)
Inductive look (l : lexer) (rest : list Z) : Prop :=
| look_error l' e : scan l = (l', Err e) → peek l = (set_err (Some e) l, Err e) → look l rest
| look_eof l' : scan l = (l', Ok zero_token) → peek l = (l, Ok zero_token) → look l rest
| look_token l' t rest' : scan l = (l', Ok t) → peek l = (l, Ok t) → isEOF t = false →
    ready l' rest' → (length rest' < length rest)%nat → look l rest.

Lemma look_ready l rest : ready l rest → look l rest.
Proof.
  intros [Hc He]. pose proof (scan_scanned _ _ Hc He) as Hs.
  assert (Hset : set_err None l = l) by (destruct l; cbn in *; by subst).
  destruct (scan l) as [l' [t|e]] eqn:E; cbn in Hs.
  - destruct Hs as (He' & rest' & Hc' & Ht). destruct (isEOF t) eqn:Hk.
    + destruct Ht as [-> ->]. eapply look_eof; [exact E|]. unfold peek. by rewrite E, He', Hset.
    + eapply look_token; [exact E| |done|by split|done]. unfold peek. by rewrite E, He', Hset.
  - eapply look_error; [exact E|]. unfold peek. by rewrite E, Hs.
Qed.

Lemma lexes_inv l ts : lexes l ts →
  match scan l with
  | (l', Ok t) => if isEOF t then ts = [] else ∃ ts', ts = t :: ts' ∧ lexes l' ts'
  | (_, Err _) => False
  end.
Proof. intros [l0 l' E|l0 l' t ts' E Ht Hl]; rewrite E; [done|]. rewrite Ht. by exists ts'. Qed.

(** ** The parser's looks at tokens *)
Inductive expects (kinds : list tokenKind) (l : lexer) (rest : list Z) (x : lexer * result error token) : Prop :=
| exp_token l' t rest' : x = (l', Ok t) → kind t ∈ kinds → scan l = (l', Ok t) → isEOF t = false →
    ready l' rest' → (length rest' < length rest)%nat → expects kinds l rest x
| exp_other l' t : x = (l, Err (PUnexpected t)) → kind t ∉ kinds → scan l = (l', Ok t) →
    isEOF t = false → expects kinds l rest x
| exp_eof l' : x = (l, Err errEOF) → scan l = (l', Ok zero_token) → expects kinds l rest x
| exp_error l' l'' e : x = (l', Err (PLex e)) → err l' = Some e → scan l = (l'', Err e) →
    expects kinds l rest x.

Lemma expect_cases kinds l rest : ready l rest → expects kinds l rest (expect_ kinds l).
Proof.
  intros Hr. unfold expect_, expectPeek. destruct (look_ready _ _ Hr) as [l' e Hs ->|l' Hs ->|l' t rest' Hs -> Ht Hr' Hl].
  - by eapply exp_error.
  - by eapply exp_eof.
  - rewrite Ht. unfold isOneOf. case_bool_decide; cbn.
    + rewrite Hs. by eapply exp_token.
    + by eapply exp_other.
Qed.

(** An expected token is found. *)
Lemma expects_lexes kinds l rest x t ts :
  expects kinds l rest x → lexes l (t :: ts) → kind t ∈ kinds → ∃ l', x = (l', Ok t) ∧ lexes l' ts.
Proof.
  intros Hx Hl%lexes_inv Hk.
  destruct Hx as [l' t' rest' -> Hk' Hs Ht Hr Hlt|l' t' -> Hk' Hs Ht|l' -> Hs|l' l'' e -> He Hs];
    rewrite Hs in Hl; rewrite ?Ht in Hl; try done; destruct Hl as (ts' & [= -> ->] & Hl); [|done].
  by exists l'.
Qed.

(** Looking ahead leaves the lexer where it is. *)
Inductive looks (kinds : list tokenKind) (l : lexer) (x : lexer * result error token) : Prop :=
| look_ok l' t : x = (l, Ok t) → kind t ∈ kinds → scan l = (l', Ok t) → isEOF t = false → looks kinds l x
| look_other l' t : x = (l, Err (PUnexpected t)) → kind t ∉ kinds → scan l = (l', Ok t) →
    isEOF t = false → looks kinds l x
| look_end l' : x = (l, Err errEOF) → scan l = (l', Ok zero_token) → looks kinds l x
| look_err l' l'' e : x = (l', Err (PLex e)) → scan l = (l'', Err e) → looks kinds l x.

Lemma expectPeek_cases kinds l rest : ready l rest → looks kinds l (expectPeek kinds l).
Proof.
  intros Hr. unfold expectPeek. destruct (look_ready _ _ Hr) as [l' e Hs ->|l' Hs ->|l' t rest' Hs -> Ht Hr' Hl].
  - by eapply look_err.
  - by eapply look_end.
  - rewrite Ht. unfold isOneOf. case_bool_decide; cbn; [by eapply look_ok|by eapply look_other].
Qed.

Section grammar.
Context `{RE : Regexp}.

(** ** The grammar *)

(** Three tokens that form a matcher. *)
Definition is_matcher (t1 t2 t3 : token) (m : Labels.Matcher) : Prop :=
  kind t1 ∈ [tokenQuoted; tokenUnquoted] ∧ kind t3 ∈ [tokenUnquoted; tokenQuoted] ∧
  ∃ n ty v, unquote t1 = Some n ∧ matchTy (kind t2) = Some ty ∧ unquote t3 = Some v ∧
    Labels.NewMatcher ty (of_bytes n) (of_bytes v) = Some m.

(** Matchers separated by commas; one more comma may follow the last one. *)
Inductive sequence : list token → list Labels.Matcher → Prop :=
| seq_last t1 t2 t3 m : is_matcher t1 t2 t3 m → sequence [t1; t2; t3] [m]
| seq_last_comma t1 t2 t3 c m :
    is_matcher t1 t2 t3 m → kind c = tokenComma → sequence [t1; t2; t3; c] [m]
| seq_more t1 t2 t3 c ts m ms :
    is_matcher t1 t2 t3 m → kind c = tokenComma → sequence ts ms →
    sequence (t1 :: t2 :: t3 :: c :: ts) (m :: ms).

(** The braces are optional, but come in pairs. *)
Inductive sentence : list token → list Labels.Matcher → Prop :=
| sentence_empty : sentence [] []
| sentence_bare ts ms : sequence ts ms → sentence ts ms
| sentence_braces_empty o c :
    kind o = tokenOpenBrace → kind c = tokenCloseBrace → sentence [o; c] []
| sentence_braces o ts c ms :
    kind o = tokenOpenBrace → kind c = tokenCloseBrace → sequence ts ms →
    sentence (o :: ts ++ [c]) ms.

(** What may follow in each state. *)
Definition closing (open : bool) (ts : list token) : Prop :=
  if open then ∃ c, kind c = tokenCloseBrace ∧ ts = [c] else ts = [].

Definition body (open : bool) (ts : list token) (ms : list Labels.Matcher) : Prop :=
  ∃ ts1 ts2, ts = ts1 ++ ts2 ∧ sequence ts1 ms ∧ closing open ts2.

Definition after_comma (open : bool) (ts : list token) (ms : list Labels.Matcher) : Prop :=
  ∃ c ts', ts = c :: ts' ∧ kind c = tokenComma ∧ (closing open ts' ∧ ms = [] ∨ body open ts' ms).

Definition follows (fn : state) (open : bool) (ts : list token) (ms : list Labels.Matcher) : Prop :=
  match fn with
  | parseOpenBrace => sentence ts ms
  | parseEOF => ts = [] ∧ ms = []
  | parseCloseBrace => closing open ts ∧ ms = []
  | parseMatcher => body open ts ms
  | parseEndOfMatcher => closing open ts ∧ ms = [] ∨ after_comma open ts ms
  | parseComma => after_comma open ts ms
  end.

Lemma body_cons open t1 t2 t3 m ts ms :
  is_matcher t1 t2 t3 m → closing open ts ∧ ms = [] ∨ after_comma open ts ms →
  body open (t1 :: t2 :: t3 :: ts) (m :: ms).
Proof.
  intros Hm [[Hc ->]|(c & ts' & -> & Hk & [[Hc ->]|(ts1 & ts2 & -> & Hs & Hc)])].
  - exists [t1; t2; t3], ts. split_and!; [done|by constructor|done].
  - exists [t1; t2; t3; c], ts'. split_and!; [done|by constructor|done].
  - exists (t1 :: t2 :: t3 :: c :: ts1), ts2. split_and!; [done|by constructor|done].
Qed.

Lemma body_inv open ts ms : body open ts ms →
  ∃ t1 t2 t3 m ts' ms', ts = t1 :: t2 :: t3 :: ts' ∧ ms = m :: ms' ∧ is_matcher t1 t2 t3 m ∧
    (closing open ts' ∧ ms' = [] ∨ after_comma open ts' ms').
Proof.
  intros (ts1 & ts2 & -> & Hs & Hc).
  destruct Hs as [t1 t2 t3 m Hm|t1 t2 t3 c m Hm Hk|t1 t2 t3 c ts m ms Hm Hk Hs];
    eexists t1, t2, t3, m, _, _; (split; [done|]); (split; [done|]); (split; [done|]).
  - left. by split.
  - right. exists c, ts2. split_and!; [done|done|]. left. by split.
  - right. exists c, (ts ++ ts2). split_and!; [done|done|]. right. by exists ts, ts2.
Qed.

(** ** Each state follows the grammar *)
Definition fuel_needed (fn : state) (n : nat) : nat :=
  match fn with
  | parseEOF => 1 | parseCloseBrace => 2
  | parseMatcher => 3 * n + 1 | parseComma => 3 * n + 3 | parseEndOfMatcher => 3 * n + 4
  | parseOpenBrace => 3 * n + 4
  end.

(** The result is what the grammar says of the rest of the input. *)
Definition exact_for (F : list token → list Labels.Matcher → Prop) (p : parser)
    (r : result error (list Labels.Matcher)) : Prop :=
  r ≠ Err PPanic ∧ r ≠ Err PFuel ∧
  ∀ ms, r = Ok ms ↔ ∃ ts ms', lexes (lex p) ts ∧ F ts ms' ∧ ms = matchers p ++ ms'.

Abbreviation exact fn p r := (exact_for (follows fn (hasOpenBrace p)) p r).

Lemma exact_err F p e :
  e ≠ PPanic → e ≠ PFuel → (∀ ts ms, lexes (lex p) ts → ¬ F ts ms) → exact_for F p (Err e).
Proof.
  intros H1 H2 H3. split_and!; [congruence..|]. intros ms. split; [done|].
  intros (ts & ms' & Hl & Hf & _). by destruct (H3 ts ms').
Qed.

(** A state that hands over to another one. *)
Lemma exact_next F p fn' p' added r :
  exact fn' p' r → matchers p' = matchers p ++ added →
  (∀ ts ms, lexes (lex p) ts → F ts ms →
    ∃ ts' ms', lexes (lex p') ts' ∧ follows fn' (hasOpenBrace p') ts' ms' ∧ ms = added ++ ms') →
  (∀ ts' ms', lexes (lex p') ts' → follows fn' (hasOpenBrace p') ts' ms' →
    ∃ ts, lexes (lex p) ts ∧ F ts (added ++ ms')) →
  exact_for F p r.
Proof.
  intros (H1 & H2 & H3) Hm Hf Hb. split_and!; [done|done|]. intros ms. rewrite H3. split.
  - intros (ts' & ms' & Hl & Hfo & ->). destruct (Hb ts' ms' Hl Hfo) as (ts & ? & ?).
    exists ts, (added ++ ms'). split_and!; [done|done|]. by rewrite Hm, app_assoc.
  - intros (ts & ms' & Hl & Hfo & ->). destruct (Hf ts ms' Hl Hfo) as (ts' & ms2 & ? & ? & ->).
    exists ts', ms2. split_and!; [done|done|]. by rewrite Hm, app_assoc.
Qed.

Section states.
Context (fuel : nat).
Hypothesis IH : ∀ fn p rest, ready (lex p) rest → (fuel_needed fn (length rest) ≤ fuel)%nat →
  exact fn p (parse_loop fuel fn p).

Lemma exact_eof p rest : ready (lex p) rest → exact parseEOF p (parse_loop (S fuel) parseEOF p).
Proof using.
  intros Hr. cbn [parse_loop run]. unfold end_of_input.
  destruct (look_ready _ _ Hr) as [l' e Hs _|l' Hs _|l' t rest' Hs _ Ht Hr' Hl]; rewrite Hs; cbn.
  - apply exact_err; [done|done|]. intros ts ms Hl%lexes_inv. by rewrite Hs in Hl.
  - split_and!; [done|done|]. intros ms. split.
    + intros [= <-]. exists [], []. rewrite app_nil_r. split_and!; [by eapply lexes_end|done|done].
    + intros (ts & ms' & Hl & [-> ->] & ->). by rewrite app_nil_r.
  - rewrite Ht. apply exact_err; [done|done|]. intros ts ms Hl0%lexes_inv [-> _].
    rewrite Hs, Ht in Hl0. by destruct Hl0 as (? & ? & _).
Qed.

Lemma exact_close p rest : (1 ≤ fuel)%nat → ready (lex p) rest →
  exact parseCloseBrace p (parse_loop (S fuel) parseCloseBrace p).
Proof using IH.
  intros Hf Hr. cbn [parse_loop run]. unfold close_brace.
  assert (Hno : hasOpenBrace p = true → (∀ l' t, scan (lex p) = (l', Ok t) → kind t ≠ tokenCloseBrace) →
    ∀ ts ms, lexes (lex p) ts → ¬ follows parseCloseBrace true ts ms).
  { intros _ Hk ts ms Hl%lexes_inv [(c & Hc & ->) _]. destruct (scan (lex p)) as [l' [t|]]; [|done].
    destruct (isEOF t); [done|]. destruct Hl as (? & [= <- <-] & _). by apply (Hk l' c). }
  destruct (expect_cases [tokenCloseBrace] _ _ Hr) as [l' t rest' E Hk Hs Ht Hr' Hl|l' t E Hk Hs Ht|l' E Hs|l' l'' e E He Hs];
    rewrite E; cbn [hasOpenBrace set_lex]; destruct (hasOpenBrace p) eqn:Hop.
  - eapply (exact_next _ _ parseEOF _ []); [eapply IH; [exact Hr'|done]|by rewrite app_nil_r|..].
    + cbn. rewrite ?Hop. intros ts ms Hlx%lexes_inv [(c & Hc & ->) ->]. rewrite Hs, Ht in Hlx.
      destruct Hlx as (ts' & [= <- <-] & ?). by exists [], [].
    + cbn. intros ts' ms' Hlx [-> ->]. exists [t]. rewrite ?Hop. split; [by eapply lexes_token|].
      split; [|done]. exists t. split; [|done]. set_solver.
  - apply exact_err; [done|done|]. rewrite ?Hop. intros ts ms Hlx%lexes_inv [-> _].
    rewrite Hs, Ht in Hlx. by destruct Hlx as (? & ? & _).
  - apply exact_err; [done|done|]. rewrite ?Hop. apply Hno; [done|]. intros ? ? E2. rewrite Hs in E2. set_solver.
  - eapply (exact_next _ _ parseEOF _ []); [by eapply IH|by rewrite app_nil_r|..]; cbn; rewrite ?Hop.
    + intros ts ms Hlx [-> ->]. by exists [], [].
    + intros ts' ms' Hlx [-> ->]. by exists [].
  - apply exact_err; [done|done|]. rewrite ?Hop. apply Hno; [done|]. intros ? ? E2. rewrite Hs in E2. by simplify_eq.
  - eapply (exact_next _ _ parseEOF _ []); [by eapply IH|by rewrite app_nil_r|..]; cbn; rewrite ?Hop.
    + intros ts ms Hlx [-> ->]. by exists [], [].
    + intros ts' ms' Hlx [-> ->]. by exists [].
  - apply exact_err; [done|done|]. intros ts ms Hlx%lexes_inv. by rewrite Hs in Hlx.
  - destruct fuel as [|fuel']; [lia|]. cbn [parse_loop run]. unfold end_of_input, scan. cbn. rewrite He.
    apply exact_err; [done|done|]. intros ts ms Hlx%lexes_inv. by rewrite Hs in Hlx.
Qed.

Lemma exact_end p rest : ready (lex p) rest → (3 * length rest + 3 ≤ fuel)%nat →
  exact parseEndOfMatcher p (parse_loop (S fuel) parseEndOfMatcher p).
Proof using IH.
  intros Hr Hf. cbn [parse_loop run]. unfold end_of_matcher.
  assert (Hno : (∀ l' t, scan (lex p) = (l', Ok t) → isEOF t = false ∧ kind t ∉ [tokenComma; tokenCloseBrace]) →
    ∀ ts ms, lexes (lex p) ts → ¬ follows parseEndOfMatcher (hasOpenBrace p) ts ms).
  { intros Hk ts ms Hl%lexes_inv Hfo. destruct (scan (lex p)) as [l' [t|]]; [|done].
    destruct (Hk l' t eq_refl) as [Ht Hn]. rewrite Ht in Hl. destruct Hl as (ts' & -> & _).
    destruct Hfo as [[Hc _]|(c & ts2 & [= <- <-] & Hc & _)]; [|set_solver].
    unfold closing in Hc. destruct (hasOpenBrace p); [|done]. destruct Hc as (c & Hc & [= <- _]). set_solver. }
  destruct (expectPeek_cases [tokenComma; tokenCloseBrace] _ _ Hr) as [l' t E Hk Hs Ht|l' t E Hk Hs Ht|l' E Hs|l' l'' e E Hs];
    rewrite E; cbn [is_EOF wrap].
  - assert (Hk' : kind t = tokenComma ∨ kind t = tokenCloseBrace) by set_solver. destruct Hk' as [Hk'|Hk']; rewrite Hk'.
    + eapply (exact_next _ _ parseComma _ []); [eapply IH; [exact Hr|cbn; lia]|by rewrite app_nil_r|..]; cbn.
      * intros ts ms Hlx [[Hc ->]|Hc]; [|by exists ts, ms]. exfalso. apply lexes_inv in Hlx.
        rewrite Hs, Ht in Hlx. destruct Hlx as (ts' & -> & _). unfold closing in Hc.
        destruct (hasOpenBrace p); [|done]. destruct Hc as (c & Hc & [= <- _]). congruence.
      * intros ts' ms' Hlx Hc. exists ts'. auto.
    + eapply (exact_next _ _ parseCloseBrace _ []); [eapply IH; [exact Hr|cbn; lia]|by rewrite app_nil_r|..]; cbn.
      * intros ts ms Hlx [[Hc ->]|(c & ts' & -> & Hc & _)]; [by exists ts, []|]. exfalso.
        apply lexes_inv in Hlx. rewrite Hs, Ht in Hlx. destruct Hlx as (? & [= -> ->] & _). congruence.
      * intros ts' ms' Hlx Hc. exists ts'. auto.
  - apply exact_err; [done|done|]. apply Hno. intros ? ? E2. rewrite Hs in E2. by simplify_eq.
  - eapply (exact_next _ _ parseCloseBrace _ []); [eapply IH; [exact Hr|cbn; lia]|by rewrite app_nil_r|..]; cbn.
    + intros ts ms Hlx [[Hc ->]|(c & ts' & -> & Hc & _)]; [by exists ts, []|]. exfalso.
      apply lexes_inv in Hlx. by rewrite Hs in Hlx.
    + intros ts' ms' Hlx Hc. exists ts'. auto.
  - apply exact_err; [done|done|]. intros ts ms Hlx%lexes_inv. by rewrite Hs in Hlx.
Qed.

Lemma exact_comma p rest : ready (lex p) rest → (3 * length rest + 2 ≤ fuel)%nat →
  exact parseComma p (parse_loop (S fuel) parseComma p).
Proof using IH.
  intros Hr Hf. cbn [parse_loop run]. unfold comma.
  destruct (expect_cases [tokenComma] _ _ Hr) as [l1 c rest1 E Hk Hs Ht Hr1 Hl|l' t E Hk Hs Ht|l' E Hs|l' l'' e E He Hs];
    rewrite E.
  2:{ apply exact_err; [done|done|]. intros ts ms Hlx%lexes_inv (c & ts' & -> & Hc & _).
      rewrite Hs, Ht in Hlx. destruct Hlx as (? & [= -> ->] & _). kinds. }
  2:{ apply exact_err; [done|done|]. intros ts ms Hlx%lexes_inv (c & ts' & -> & Hc & _). by rewrite Hs in Hlx. }
  2:{ apply exact_err; [done|done|]. intros ts ms Hlx%lexes_inv. by rewrite Hs in Hlx. }
  assert (Hck : kind c = tokenComma) by kinds.
  assert (Hstep : ∀ ts, lexes (lex p) ts → ∃ ts', ts = c :: ts' ∧ lexes l1 ts').
  { intros ts Hlx%lexes_inv. by rewrite Hs, Ht in Hlx. }
  assert (Hback : ∀ ts' ms', lexes l1 ts' → closing (hasOpenBrace p) ts' ∧ ms' = [] ∨ body (hasOpenBrace p) ts' ms' →
    ∃ ts, lexes (lex p) ts ∧ follows parseComma (hasOpenBrace p) ts ([] ++ ms')).
  { intros ts' ms' Hlx Hc. exists (c :: ts'). split; [by eapply lexes_token|]. by exists c, ts'. }
  destruct (expectPeek_cases [tokenCloseBrace; tokenUnquoted; tokenQuoted] _ _ Hr1) as
    [l' t E2 Hk2 Hs2 Ht2|l' t E2 Hk2 Hs2 Ht2|l' E2 Hs2|l' l'' e E2 Hs2]; rewrite E2; cbn [is_EOF wrap].
  - case_decide as Hcl.
    + eapply (exact_next _ _ parseCloseBrace _ []); [eapply IH; [exact Hr1|cbn; lia]|by rewrite app_nil_r|..];
        [|intros ts' ms' Hlx Hc; eapply Hback; [exact Hlx|by left]].
      intros ts ms Hlx (c' & ts' & -> & _ & Hfo). destruct (Hstep _ Hlx) as (? & [= -> <-] & Hl1).
      destruct Hfo as [[Hc ->]|(t1 & t2 & t3 & m & ts2 & ms2 & -> & _ & (Hm & _) & _)%body_inv];
        [by exists ts', []|]. exfalso. apply lexes_inv in Hl1. rewrite Hs2, Ht2 in Hl1.
      destruct Hl1 as (? & [= -> _] & _). kinds.
    + eapply (exact_next _ _ parseMatcher _ []); [eapply IH; [exact Hr1|cbn; lia]|by rewrite app_nil_r|..];
        [|intros ts' ms' Hlx Hc; eapply Hback; [exact Hlx|by right]].
      intros ts ms Hlx (c' & ts' & -> & _ & Hfo). destruct (Hstep _ Hlx) as (? & [= -> <-] & Hl1).
      destruct Hfo as [[Hc ->]|Hbody]; [|by exists ts', ms]. exfalso. apply lexes_inv in Hl1.
      rewrite Hs2, Ht2 in Hl1. destruct Hl1 as (? & -> & _). unfold closing in Hc.
      destruct (hasOpenBrace p); [|done]. destruct Hc as (? & ? & [= -> _]). done.
  - apply exact_err; [done|done|]. intros ts ms Hlx (c' & ts' & -> & _ & Hfo).
    destruct (Hstep _ Hlx) as (? & [= -> <-] & Hl1%lexes_inv). rewrite Hs2, Ht2 in Hl1.
    destruct Hl1 as (? & -> & _). destruct Hfo as [[Hc _]|Hb].
    + unfold closing in Hc. destruct (hasOpenBrace p); [|done]. destruct Hc as (? & ? & [= -> _]). kinds.
    + apply body_inv in Hb as (t1 & t2 & t3 & m & ts2 & ms2 & [= -> _] & _ & (Hm & _) & _). kinds.
  - eapply (exact_next _ _ parseCloseBrace _ []); [eapply IH; [exact Hr1|cbn; lia]|by rewrite app_nil_r|..];
        [|intros ts' ms' Hlx Hc; eapply Hback; [exact Hlx|by left]].
    intros ts ms Hlx (c' & ts' & -> & _ & Hfo). destruct (Hstep _ Hlx) as (? & [= -> <-] & Hl1).
    destruct Hfo as [[Hc ->]|(t1 & t2 & t3 & m & ts2 & ms2 & -> & _)%body_inv]; [by exists ts', []|].
    exfalso. apply lexes_inv in Hl1. by rewrite Hs2 in Hl1.
  - apply exact_err; [done|done|]. intros ts ms Hlx _.
    destruct (Hstep _ Hlx) as (? & -> & Hl1%lexes_inv). by rewrite Hs2 in Hl1.
Qed.

Lemma matchTy_operators k : is_Some (matchTy k) ↔ k ∈ operators.
Proof.
  unfold operators. split.
  - intros [ty H]. destruct k; try done; kinds.
  - intros H. destruct k; try (exfalso; kinds); eauto.
Qed.

Lemma exact_matcher p rest : ready (lex p) rest → (3 * length rest ≤ fuel)%nat →
  exact parseMatcher p (parse_loop (S fuel) parseMatcher p).
Proof using IH.
  intros Hr Hf. cbn [parse_loop run]. unfold matcher.
  pose proof (expect_cases [tokenQuoted; tokenUnquoted] _ _ Hr) as Hx1.
  destruct (expect_ _ (lex p)) as [l1 r1].
  assert (Hinv : ∀ ts ms, lexes (lex p) ts → follows parseMatcher (hasOpenBrace p) ts ms →
    ∃ t1 t2 t3 m ts' ms', ts = t1 :: t2 :: t3 :: ts' ∧ ms = m :: ms' ∧ is_matcher t1 t2 t3 m ∧
      follows parseEndOfMatcher (hasOpenBrace p) ts' ms' ∧ r1 = Ok t1 ∧ lexes l1 (t2 :: t3 :: ts')).
  { intros ts ms Hl (t1 & t2 & t3 & m & ts' & ms' & -> & -> & Hm & Hc)%body_inv.
    destruct (expects_lexes _ _ _ _ _ _ Hx1 Hl) as (l' & [= -> ->] & Hl1); [apply Hm|].
    by exists t1, t2, t3, m, ts', ms'. }
  destruct Hx1 as [l' t1 rest1 [= -> ->] Hk1 Hs1 Ht1 Hr1 Hl1|l' t [= -> ->] Hk Hs Ht|l' [= -> ->] Hs|l' l'' e [= -> ->] He Hs];
    [|by (apply exact_err; [done|done|]; intros ts ms Hl Hfo; destruct (Hinv ts ms Hl Hfo) as (?&?&?&?&?&?&?&?&?&?&?&?))..].
  destruct (unquote t1) as [n|] eqn:Hn.
  2:{ apply exact_err; [done|done|]. intros ts ms Hl Hfo.
      destruct (Hinv ts ms Hl Hfo) as (t1'&?&?&?&?&?&?&?&(_ & _ & ? & ? & ? & Hu & _)&?&[= <-]&?). congruence. }
  pose proof (expect_cases operators _ _ Hr1) as Hx2. destruct (expect_ operators l') as [l2 r2].
  assert (Hinv2 : ∀ ts ms, lexes (lex p) ts → follows parseMatcher (hasOpenBrace p) ts ms →
    ∃ t2 t3 m ts' ms', ts = t1 :: t2 :: t3 :: ts' ∧ ms = m :: ms' ∧ is_matcher t1 t2 t3 m ∧
      follows parseEndOfMatcher (hasOpenBrace p) ts' ms' ∧ r2 = Ok t2 ∧ lexes l2 (t3 :: ts')).
  { intros ts ms Hl Hfo.
    destruct (Hinv ts ms Hl Hfo) as (t1'&t2&t3&m&ts'&ms'& -> & -> & Hm & Hc & [= <-] & Hl2).
    destruct (expects_lexes _ _ _ _ _ _ Hx2 Hl2) as (l'' & [= -> ->] & Hl3).
    { apply matchTy_operators. destruct Hm as (_ & _ & ? & ? & ? & _ & -> & _). eauto. }
    by exists t2, t3, m, ts', ms'. }
  clear Hinv.
  destruct Hx2 as [l2' t2 rest2 [= -> ->] Hk2 Hs2 Ht2 Hr2 Hl2|l2' t [= -> ->] Hk Hs Ht|l2' [= -> ->] Hs|l2' l'' e [= -> ->] He Hs];
    [|by (apply exact_err; [done|done|]; intros ts ms Hl Hfo; destruct (Hinv2 ts ms Hl Hfo) as (?&?&?&?&?&?&?&?&?&?&?))..].
  destruct (proj2 (matchTy_operators _) Hk2) as [ty Hty]. rewrite Hty.
  pose proof (expect_cases [tokenUnquoted; tokenQuoted] _ _ Hr2) as Hx3.
  destruct (expect_ _ l2') as [l3 r3].
  assert (Hinv3 : ∀ ts ms, lexes (lex p) ts → follows parseMatcher (hasOpenBrace p) ts ms →
    ∃ t3 m ts' ms', ts = t1 :: t2 :: t3 :: ts' ∧ ms = m :: ms' ∧ is_matcher t1 t2 t3 m ∧
      follows parseEndOfMatcher (hasOpenBrace p) ts' ms' ∧ r3 = Ok t3 ∧ lexes l3 ts').
  { intros ts ms Hl Hfo.
    destruct (Hinv2 ts ms Hl Hfo) as (t2'&t3&m&ts'&ms'& -> & -> & Hm & Hc & [= <-] & Hl3).
    destruct (expects_lexes _ _ _ _ _ _ Hx3 Hl3) as (l'' & [= -> ->] & Hl4); [apply Hm|].
    by exists t3, m, ts', ms'. }
  clear Hinv2.
  destruct Hx3 as [l3' t3 rest3 [= -> ->] Hk3 Hs3 Ht3 Hr3 Hl3|l3' t [= -> ->] Hk Hs Ht|l3' [= -> ->] Hs|l3' l'' e [= -> ->] He Hs];
    [|by (apply exact_err; [done|done|]; intros ts ms Hl Hfo; destruct (Hinv3 ts ms Hl Hfo) as (?&?&?&?&?&?&?&?&?&?))..].
  destruct (unquote t3) as [v|] eqn:Hv.
  2:{ apply exact_err; [done|done|]. intros ts ms Hl Hfo.
      destruct (Hinv3 ts ms Hl Hfo) as (t3'&?&?&?&?&?&(_ & _ & ? & ? & ? & _ & _ & Hu & _)&?&[= <-]&?). congruence. }
  destruct (Labels.NewMatcher ty (of_bytes n) (of_bytes v)) as [m|] eqn:Hm.
  2:{ apply exact_err; [done|done|]. intros ts ms Hl Hfo.
      destruct (Hinv3 ts ms Hl Hfo) as (t3'&?&?&?&?&?&(_ & _ & ? & ? & ? & ? & ? & ? & ?)&?&[= <-]&?). congruence. }
  eapply (exact_next _ _ parseEndOfMatcher _ [m]); [eapply IH; [exact Hr3|cbn; lia]|done|..].
  - intros ts ms Hl Hfo.
    destruct (Hinv3 ts ms Hl Hfo) as (t3'&m'&ts'&ms'& -> & -> &(_ & _ & ? & ? & ? & ? & ? & ? & ?)&?&[= <-]&?).
    exists ts', ms'. split_and!; [done|done|]. cbn. congruence.
  - intros ts' ms' Hl Hfo. exists (t1 :: t2 :: t3 :: ts').
    split; [do 3 (eapply lexes_token; [done|done|]); exact Hl|]. apply body_cons; [|exact Hfo].
    split_and!; [done|done|]. by exists n, ty, v.
Qed.

(** After the optional open brace. *)
Definition opened (open : bool) (ts : list token) (ms : list Labels.Matcher) : Prop :=
  open = true ∧ closing true ts ∧ ms = [] ∨ body open ts ms.

Definition after_open (p : parser) : result error (list Labels.Matcher) :=
  let '(l, r) := acceptPeek [tokenCloseBrace] (lex p) in
  let p := set_lex l p in
  match r with
  | Err e => if is_EOF e then parse_loop fuel parseCloseBrace p else Err e
  | Ok true => parse_loop fuel parseCloseBrace p
  | Ok false => parse_loop fuel parseMatcher p
  end.

Lemma exact_opened p rest :
  ready (lex p) rest → (3 * length rest + 2 ≤ fuel)%nat →
  (hasOpenBrace p = false → rest ≠ [] ∧ ¬ lexes (lex p) []) →
  exact_for (opened (hasOpenBrace p)) p (after_open p).
Proof using IH.
  intros Hr Hf Hopen. unfold after_open, acceptPeek, opened.
  assert (Hset : set_lex (lex p) p = p) by by destruct p.
  destruct (look_ready _ _ Hr) as [l' e Hs ->|l' Hs ->|l' t rest' Hs -> Ht Hr' Hl]; rewrite ?Hset.
  - apply exact_err; [done|done|]. intros ts ms Hlx%lexes_inv. by rewrite Hs in Hlx.
  - assert (Hop : hasOpenBrace p = true).
    { destruct (hasOpenBrace p); [done|]. destruct Hopen as [_ []]; [done|]. by eapply lexes_end. }
    rewrite Hop. eapply (exact_next _ _ parseCloseBrace _ []); [eapply IH; [exact Hr|cbn; lia]|by rewrite app_nil_r|..];
      rewrite Hop; cbn [follows].
    + intros ts ms Hlx [(_ & ? & ->)|(t1 & t2 & t3 & m & ts2 & ms2 & -> & _)%body_inv]; [by exists ts, []|].
      apply lexes_inv in Hlx. by rewrite Hs in Hlx.
    + intros ts' ms' Hlx [? ->]. exists ts'. auto.
  - rewrite Ht. unfold isOneOf. case_bool_decide as Hk.
    + eapply (exact_next _ _ parseCloseBrace _ []); [eapply IH; [exact Hr|cbn; lia]|by rewrite app_nil_r|..];
        cbn [follows].
      * intros ts ms Hlx [(-> & ? & ->)|(t1 & t2 & t3 & m & ts2 & ms2 & -> & _ & (Hm & _) & _)%body_inv]; [by exists ts, []|].
        apply lexes_inv in Hlx. rewrite Hs, Ht in Hlx. destruct Hlx as (? & [= -> _] & _). exfalso. kinds.
      * intros ts' ms' Hlx [Hc ->]. exists ts'. split; [done|]. left.
        destruct (hasOpenBrace p); [done|]. cbn in Hc. subst ts'. by destruct (Hopen eq_refl).
    + eapply (exact_next _ _ parseMatcher _ []); [eapply IH; [exact Hr|cbn; lia]|by rewrite app_nil_r|..];
        cbn [follows].
      * intros ts ms Hlx [(-> & (c & Hc & ->) & ->)|?]; [|by exists ts, ms]. exfalso.
        apply lexes_inv in Hlx. rewrite Hs, Ht in Hlx. destruct Hlx as (? & [= -> _] & _). kinds.
      * intros ts' ms' Hlx Hc. exists ts'. auto.
Qed.

Lemma sentence_cons t ts ms : sentence (t :: ts) ms ↔
  kind t = tokenOpenBrace ∧ opened true ts ms ∨ kind t ≠ tokenOpenBrace ∧ opened false (t :: ts) ms.
Proof.
  split.
  - intros H. inversion H as [|ts' ms' Hs|o c Ho Hc|o ts' c ms' Ho Hc Hs]; subst.
    + right. split; [|right; exists (t :: ts), []; by rewrite app_nil_r].
      inversion Hs as [??? ? (Hk & _)|???? ? (Hk & _) ?|?????? ? (Hk & _) ??]; subst; intros ?; kinds.
    + left. split; [done|]. left. split_and!; try done. by exists c.
    + left. split; [done|]. right. exists ts', [c]. split_and!; try done. by exists c.
  - intros [(Ho & [(_ & (c & Hc & ->) & ->)|(ts1 & ts2 & -> & Hs & (c & Hc & ->))])|
            (Ho & [(? & _)|(ts1 & ts2 & E & Hs & ->)])]; try done.
    + by constructor.
    + by constructor.
    + rewrite app_nil_r in E. subst ts1. by constructor.
Qed.

Lemma open_brace_loop p :
  parse_loop (S fuel) parseOpenBrace p =
    let '(l, r) := accept_ [tokenOpenBrace] (lex p) in
    match r with
    | Err e => if is_EOF e then parse_loop fuel parseEOF (set_open false (set_lex l p)) else Err e
    | Ok b => after_open (set_open b (set_lex l p))
    end.
Proof using.
  cbn [parse_loop run]. unfold open_brace, after_open. destruct (accept_ _ (lex p)) as [l [b|e]].
  - cbn [lex set_open set_lex]. destruct (acceptPeek _ l) as [l' [[]|e']]; try done. by destruct (is_EOF e').
  - by destruct (is_EOF e).
Qed.

Lemma exact_open p rest : ready (lex p) rest → (3 * length rest + 3 ≤ fuel)%nat →
  exact parseOpenBrace p (parse_loop (S fuel) parseOpenBrace p).
Proof using IH.
  intros Hr Hf. rewrite open_brace_loop. unfold accept_, acceptPeek. cbn [follows].
  assert (Hset : set_lex (lex p) p = p) by by destruct p.
  destruct (look_ready _ _ Hr) as [l' e Hs ->|l' Hs ->|l' t rest' Hs -> Ht Hr' Hl].
  - apply exact_err; [done|done|]. intros ts ms Hlx%lexes_inv. by rewrite Hs in Hlx.
  - eapply (exact_next _ _ parseEOF _ []); [eapply IH; [exact Hr|cbn; lia]|by rewrite app_nil_r|..].
    + intros ts ms Hlx Hse. pose proof (lexes_inv _ _ Hlx) as Hi. rewrite Hs in Hi. assert (ts = []) as -> by exact Hi.
      exists [], []. split_and!; [done|done|]. inversion Hse as [|ts' ms' Hq| |]; [done|inversion Hq].
    + intros ts' ms' Hlx [-> ->]. exists []. split; [done|constructor].
  - assert (Hlex : ∀ ts, lexes (lex p) ts → ∃ ts', ts = t :: ts' ∧ lexes l' ts')
      by (intros ts Hlx%lexes_inv; by rewrite Hs, Ht in Hlx).
    rewrite Ht. unfold isOneOf. case_bool_decide as Hk.
    + rewrite Hs. assert (Ho : kind t = tokenOpenBrace) by kinds.
      destruct (exact_opened (set_open true (set_lex l' p)) rest') as (H1 & H2 & H3);
        [done|lia|done|]. split_and!; [done|done|]. intros ms. rewrite H3. cbn [lex set_open set_lex hasOpenBrace matchers].
      split.
      * intros (ts & ms' & Hl1 & Hfo & ->). exists (t :: ts), ms'. split_and!; [by eapply lexes_token| |done].
        apply sentence_cons. by left.
      * intros (ts & ms' & (ts' & -> & Hl1)%Hlex & Hse & ->). exists ts', ms'. split_and!; [done| |done].
        apply sentence_cons in Hse as [[_ ?]|[? _]]; done.
    + assert (Ho : kind t ≠ tokenOpenBrace) by kinds. rewrite Hset.
      destruct (exact_opened (set_open false p) rest) as (H1 & H2 & H3); [done|lia| |].
      { intros _. split; [by destruct rest; [cbn in Hl; lia|]|]. by intros (? & ? & _)%Hlex. }
      split_and!; [done|done|]. intros ms. rewrite H3. cbn [lex set_open hasOpenBrace matchers].
      split; intros (ts & ms' & Hl1 & Hfo & ->); exists ts, ms'; (split_and!; [done| |done]);
        destruct (Hlex ts Hl1) as (ts' & -> & _).
      * apply sentence_cons. by right.
      * apply sentence_cons in Hfo as [[? _]|[_ ?]]; done.
Qed.
End states.

Lemma exact_loop fuel : ∀ fn p rest, ready (lex p) rest → (fuel_needed fn (length rest) ≤ fuel)%nat →
  exact fn p (parse_loop fuel fn p).
Proof.
  induction fuel as [|fuel IH]; intros fn p rest Hr Hf; [destruct fn; cbn in Hf; lia|].
  destruct fn; cbn in Hf.
  - by eapply exact_open; [|exact Hr|lia].
  - by eapply exact_close; [|lia|exact Hr].
  - by eapply exact_matcher; [|exact Hr|lia].
  - by eapply exact_end; [|exact Hr|lia].
  - by eapply exact_comma; [|exact Hr|lia].
  - by eapply exact_eof.
Qed.

Lemma exact_Matchers input :
  exact parseOpenBrace (mkParser [] false (new_lexer (bytes input))) (Matchers input).
Proof.
  apply exact_loop with (rest := bytes input); [|cbn; lia].
  split; [apply cur_new, bytes_is_byte|done].
Qed.

(** C19: the parser of matchers accepts exactly the documented grammar: it returns
    matchers for an input exactly when the lexer splits the whole input into
    tokens that are matchers separated by commas, optionally in braces and
    with a trailing comma, and then it returns these matchers in order. *)
Theorem utf8_parser_exact input ms :
  Matchers input = Ok ms ↔ ∃ ts, lexes (new_lexer (bytes input)) ts ∧ sentence ts ms.
Proof.
  destruct (exact_Matchers input) as (_ & _ & H). rewrite H. cbn. naive_solver.
Qed.

(** the parser always returns: no input makes it panic, and the number of
    its transitions is bounded by three times the length of the input. *)
Theorem utf8_parser_total input :
  Matchers input ≠ Err PPanic ∧ Matchers input ≠ Err PFuel.
Proof. destruct (exact_Matchers input) as (? & ? & _). done. Qed.

Lemma sequence_wf ts ms : sequence ts ms → Forall Labels.wf_matcher ms.
Proof.
  induction 1 as [t1 t2 t3 m (_ & _ & n & ty & v & _ & _ & _ & Hm)
    |t1 t2 t3 c m (_ & _ & n & ty & v & _ & _ & _ & Hm) _
    |t1 t2 t3 c ts m ms (_ & _ & n & ty & v & _ & _ & _ & Hm) _ _ IH];
    repeat constructor; try done; by eapply Labels.NewMatcher_wf.
Qed.

Lemma sentence_wf ts ms : sentence ts ms → Forall Labels.wf_matcher ms.
Proof. intros [| ts' ms' H|o c Ho Hc|o ts' c ms' Ho Hc H]; try constructor; by eapply sequence_wf. Qed.
End grammar.
End MatchParserInv.
