(* ===== verification/Compat.v ===== *)
(** * Printed matchers are read back

    The printed form of a list of matchers (pkg/labels/matcher.go) is a sentence
    of the grammar of package matcher/parse: names with reserved characters are
    quoted by strconv.Quote, values by it or by the OpenMetrics escaping, and
    the lexer and strconv.Unquote undo both. *)

From Stdlib Require Import Ascii String.
From stdpp Require Import base list strings numbers sets.
From S2P Require Import Prelude Utf8 Labels Unquote MatchLexer MatchParser.

Import Unquote MatchLexer MatchLexerInv MatchParser MatchParserInv.

Module MatchPrint.
Section print.
Context `{RE : Regexp, UP : UnicodePrint}.

(** ** Text in quotes *)
Lemma qtext_ascii q : Forall (λ c, 0 ≤ c < 128 ∧ c ≠ dquote ∧ c ≠ backslash) q → ∀ q', qtext q' → qtext (q ++ q').
Proof.
  induction 1 as [|c q (Hc & H1 & H2) _ IH]; intros q' Hq'; [done|].
  replace (c :: q) with (EncodeRune c ++ q).
  - rewrite <-app_assoc. apply qtext_rune; [|done|done|by apply IH].
    split; [lia|]. unfold is_surrogate. by destruct (between_spec 55296 57343 c); [lia|].
  - unfold EncodeRune. by destruct (between_spec 0 127 c); [|lia].
Qed.

Lemma hexdigits_ascii n r : Forall (λ c, 0 ≤ c < 128 ∧ c ≠ dquote ∧ c ≠ backslash) (hexdigits n r).
Proof.
  induction n as [|n IH]; cbn; constructor; [|done]. unfold hexdigit, dquote, backslash.
  change 15 with (Z.ones 4). rewrite Z.land_ones by lia.
  pose proof (Z.mod_pos_bound (Z.shiftr r (4 * Z.of_nat n)) (2 ^ 4) ltac:(lia)) as Hm.
  change (2 ^ 4) with 16 in *. destruct (Z.ltb_spec (Z.shiftr r (4 * Z.of_nat n) mod 16) 10); lia.
Qed.

Lemma qtext_quoted_rune r q : valid_rune r → qtext q → qtext (appendEscapedRune r ++ q).
Proof.
  intros Hr Hq. pose proof Hr as [Hr1 Hr2]. unfold appendEscapedRune.
  destruct ((r =? dquote) || (r =? backslash)) eqn:Hs.
  { apply orb_true_iff in Hs. unfold dquote, backslash in Hs.
    assert (0 ≤ r < 128 ∧ r ≠ 44) as [? ?] by (destruct Hs as [?%Z.eqb_eq|?%Z.eqb_eq]; lia). by constructor. }
  apply orb_false_iff in Hs as [Hq1%Z.eqb_neq Hq2%Z.eqb_neq].
  assert (Hesc : ∀ c l, 0 ≤ c < 128 ∧ c ≠ 44 →
    Forall (λ c, 0 ≤ c < 128 ∧ c ≠ dquote ∧ c ≠ backslash) l → qtext ((backslash :: c :: l) ++ q)).
  { intros c l [Hc Hn] Hl. constructor; [done|done|]. by apply qtext_ascii. }
  destruct (IsPrint r); [by constructor|]. rewrite Hr2. destruct (between_spec 0 1114111 r); [|lia].
  destruct (r =? 7); [by apply (Hesc 97 []); [lia|constructor]|].
  destruct (r =? 8); [by apply (Hesc 98 []); [lia|constructor]|].
  destruct (r =? 12); [by apply (Hesc 102 []); [lia|constructor]|].
  destruct (r =? 10); [by apply (Hesc 110 []); [lia|constructor]|].
  destruct (r =? 13); [by apply (Hesc 114 []); [lia|constructor]|].
  destruct (r =? 9); [by apply (Hesc 116 []); [lia|constructor]|].
  destruct (r =? 11); [by apply (Hesc 118 []); [lia|constructor]|].
  destruct ((r <? 32) || (r =? 127)); [by apply (Hesc 120 (hexdigits 2 r)); [lia|apply hexdigits_ascii]|].
  cbn [orb negb]. destruct (r <? 65536).
  - by apply (Hesc 117 (hexdigits 4 r)); [lia|apply hexdigits_ascii].
  - by apply (Hesc 85 (hexdigits 8 r)); [lia|apply hexdigits_ascii].
Qed.

Lemma quote_fuel_runes rs : Forall valid_rune rs → ∀ fuel, (length (encode_runes rs) ≤ fuel)%nat →
  quote_fuel fuel (encode_runes rs) = rs ≫= appendEscapedRune.
Proof.
  induction 1 as [|r rs Hr _ IH]; intros fuel Hf; [by destruct fuel|].
  change (encode_runes (r :: rs)) with (EncodeRune r ++ encode_runes rs) in *.
  pose proof (EncodeRune_nonempty r) as Hne. rewrite length_app in Hf.
  destruct fuel as [|fuel]; [destruct (EncodeRune r); [done|cbn in Hf; lia]|].
  pose proof (DecodeRune_EncodeRune r (encode_runes rs) Hr) as Hd.
  destruct (EncodeRune r ++ encode_runes rs) as [|b bs] eqn:E; [by apply app_nil in E as [? _]|].
  cbn [quote_fuel]. rewrite Hd. rewrite <-E, drop_app_length.
  assert (Hbad : (length (EncodeRune r) =? 1)%nat && (r =? RuneError) = false).
  { destruct (Z.eqb_spec r RuneError) as [->|]; [done|apply andb_false_r]. }
  rewrite Hbad. cbn [mbind list_bind]. f_equal. apply IH. destruct (EncodeRune r); [done|cbn in Hf; lia].
Qed.

(** The quoted form of valid text: quotes around text that unquotes to it. *)
Lemma Quote_text s : ValidString s = true →
  ∃ q, bytes (Quote s) = dquote :: q ++ [dquote] ∧ qtext q ∧ Unquote (dquote :: q ++ [dquote]) = Some (bytes s).
Proof.
  intros Hv. destruct (ValidBytes_runes (bytes s)) as (rs & Hrs & E); [apply bytes_is_byte|done|].
  exists (quote_fuel (length (bytes s)) (bytes s)).
  assert (Hb : bytes (Quote s) = dquote :: quote_fuel (length (bytes s)) (bytes s) ++ [dquote]).
  { unfold Quote. apply bytes_of_bytes. constructor; [unfold is_byte, dquote; lia|].
    apply Forall_app. split; [apply quote_bytes|]. apply Forall_singleton. unfold is_byte, dquote. lia. }
  split_and!; [done| |by rewrite <-Hb, Unquote_Quote].
  rewrite E, quote_fuel_runes by done. clear -Hrs. induction Hrs as [|r rs Hr _ IH]; [constructor|].
  cbn [mbind list_bind]. by apply qtext_quoted_rune.
Qed.

Lemma escape_text s : ValidString s = true →
  ∃ q, bytes (Labels.openMetricsEscape s) = q ∧ qtext q ∧ Unquote (dquote :: q ++ [dquote]) = Some (bytes s).
Proof.
  intros Hv. destruct (ValidBytes_runes (bytes s)) as (rs & Hrs & E); [apply bytes_is_byte|done|].
  exists (concat (map Labels.escape_byte (bytes s))). split_and!.
  - unfold Labels.openMetricsEscape. apply bytes_of_bytes, escape_bytes, bytes_is_byte.
  - rewrite E. clear -Hrs. induction Hrs as [|r rs Hr _ IH]; [constructor|].
    change (encode_runes (r :: rs)) with (EncodeRune r ++ encode_runes rs).
    rewrite map_app, concat_app, escape_rune by done. case_decide as Hs.
    + rewrite !elem_of_cons, elem_of_nil in Hs. unfold Labels.escape_byte.
      destruct_or! Hs; try done; subst; apply (qtext_esc _ _); try done; unfold backslash, dquote; lia.
    + apply qtext_rune; [done|set_solver..|done].
  - unfold Unquote. rewrite Z.eqb_refl. fold (unq (concat (map Labels.escape_byte (bytes s)) ++ [dquote])).
    rewrite E, unq_escaped, unq_end by done. cbn. by rewrite app_nil_r.
Qed.

(** ** One matcher *)

(** Matchers with printable content: built by [NewMatcher], a name, UTF-8. *)
Record printable (m : Labels.Matcher) : Prop := {
  pr_wf : Labels.wf_matcher m;
  pr_name : Labels.Name m ≠ ""%string;
  pr_name_utf8 : ValidString (Labels.Name m) = true;
  pr_value_utf8 : ValidString (Labels.Value m) = true;
}.

Definition op_kind (t : Labels.MatchType) : tokenKind :=
  match t with
  | Labels.MatchEqual => tokenEquals | Labels.MatchNotEqual => tokenNotEquals
  | Labels.MatchRegexp => tokenMatches | Labels.MatchNotRegexp => tokenNotMatches
  end.

Lemma op_kind_bytes t : bytes (Labels.MatchType_String t) = op_bytes (op_kind t).
Proof. by destruct t. Qed.

(** A name and a value as the printer writes them. *)
Definition name_text (s : string) (v : list Z) : Prop :=
  (∃ q, v = dquote :: q ++ [dquote] ∧ qtext q ∧ Unquote v = Some (bytes s)) ∨
  ContainsFunc s Labels.isReserved = false ∧ s ≠ ""%string ∧ v = bytes s.
Definition value_text (s : string) (v : list Z) : Prop :=
  ∃ q, v = dquote :: q ++ [dquote] ∧ qtext q ∧ Unquote v = Some (bytes s).

Lemma Matcher_String_text m : printable m →
  ∃ n v, bytes (Labels.Matcher_String m) = n ++ op_bytes (op_kind (Labels.Type_ m)) ++ v ∧
    name_text (Labels.Name m) n ∧ value_text (Labels.Value m) v.
Proof.
  intros [_ Hne Hn Hv]. unfold Labels.Matcher_String.
  destruct (ContainsFunc _ _) eqn:Hr; rewrite !bytes_app, op_kind_bytes.
  - destruct (Quote_text _ Hn) as (qn & -> & Hqn & Un). destruct (Quote_text _ Hv) as (qv & -> & Hqv & Uv).
    eexists _, _. split; [done|]. split; [left; by exists qn|by exists qv].
  - destruct (escape_text _ Hv) as (qv & -> & Hqv & Uv).
    rewrite (bytes_of_bytes [dquote]) by (apply Forall_singleton; unfold is_byte, dquote; lia).
    eexists _, _. split; [done|]. split; [by right|by exists qv].
Qed.

Lemma lexes1_ready l k v rest : lexes1 l k v rest → k ≠ tokenEOF →
  ∃ l' t, scan l = (l', Ok t) ∧ isEOF t = false ∧ kind t = k ∧ value t = v ∧ ready l' rest.
Proof.
  intros (l' & t & Hs & Hk & Hv & Hc & He) Hne. exists l', t. split_and!; try done.
  unfold isEOF. apply bool_decide_eq_false. congruence.
Qed.

Lemma lex_value s v l rest : value_text s v → ValidString s = true → ready l (v ++ rest) →
  ∃ l' t, scan l = (l', Ok t) ∧ isEOF t = false ∧ kind t = tokenQuoted ∧ unquote t = Some (bytes s) ∧
    ready l' rest.
Proof.
  intros (q & -> & Hq & Hu) Hs [Hc He]. rewrite <-app_comm_cons, <-app_assoc in Hc.
  destruct (lexes1_ready _ _ _ _ (scan_quoted l q rest Hq Hc He)) as (l' & t & ? & ? & Hk & Hv & ?); [done|].
  exists l', t. split_and!; try done. unfold unquote. rewrite decide_True, Hv, Hu by done. cbn.
  by unfold ValidString in Hs; rewrite Hs.
Qed.

Lemma lex_name s n l rest :
  name_text s n → ValidString s = true → isReserved (head_rune rest) = true → rest ≠ [] →
  ready l (n ++ rest) →
  ∃ l' t, scan l = (l', Ok t) ∧ isEOF t = false ∧ kind t ∈ [tokenQuoted; tokenUnquoted] ∧
    unquote t = Some (bytes s) ∧ ready l' rest.
Proof.
  intros [Hq|(Hres & Hne & ->)] Hs Hrest Hnil Hr.
  { destruct (lex_value s n l rest Hq Hs Hr) as (l' & t & ? & ? & Hk & ? & ?). exists l', t.
    rewrite Hk. split_and!; try done. by left. }
  destruct (ValidBytes_runes (bytes s)) as (rs & Hrs & E); [apply bytes_is_byte|done|].
  unfold ContainsFunc in Hres. rewrite E, runes_encode_runes in Hres by done. rewrite E in Hr.
  destruct Hr as [Hc He].
  destruct (lexes1_ready _ _ _ _ (scan_unquoted l rs rest ltac:(intros ->; by destruct s) Hrs
    ltac:(apply Forall_forall; intros r Hin; apply not_true_is_false; intros Ht;
      apply not_true_iff_false in Hres; apply Hres, existsb_exists; exists r; by rewrite <-list_elem_of_In)
    Hnil Hrest Hc He)) as (l' & t & ? & ? & Hk & Hv & ?); [done|].
  exists l', t. split_and!; try done; [rewrite Hk; right; by left|].
  unfold unquote. by rewrite decide_False, Hv, E by (by rewrite Hk).
Qed.

(** Three pieces of text that are read as a matcher. *)
Lemma lex_text m n v l rest :
  Labels.wf_matcher m → ValidString (Labels.Name m) = true → ValidString (Labels.Value m) = true →
  name_text (Labels.Name m) n → value_text (Labels.Value m) v →
  ready l (n ++ op_bytes (op_kind (Labels.Type_ m)) ++ v ++ rest) →
  ∃ l' t1 t2 t3, is_matcher t1 t2 t3 m ∧ ready l' rest ∧
    ∀ ts, lexes l' ts → lexes l (t1 :: t2 :: t3 :: ts).
Proof.
  intros Hwf Hn Hv Hnt Hvt Hr.
  set (k := op_kind (Labels.Type_ m)) in *.
  destruct (lex_name _ n l (op_bytes k ++ v ++ rest) Hnt Hn) as (l1 & t1 & Hs1 & Ht1 & Hk1 & Hu1 & [Hc1 He1]);
    [by destruct (Labels.Type_ m)|by destruct (Labels.Type_ m)|done|].
  destruct (lexes1_ready _ _ _ _ (scan_operator l1 k (v ++ rest)
    ltac:(unfold k; destruct (Labels.Type_ m); cbn; set_solver)
    ltac:(destruct Hvt as (q & -> & _); by rewrite <-app_comm_cons, head_rune_ascii) Hc1 He1))
    as (l2 & t2 & Hs2 & Ht2 & Hk2 & _ & Hr2); [by destruct (Labels.Type_ m)|].
  destruct (lex_value _ v l2 rest Hvt Hv Hr2) as (l3 & t3 & Hs3 & Ht3 & Hk3 & Hu3 & Hr3).
  exists l3, t1, t2, t3. split_and!; [|done|].
  - split_and!; [done|rewrite Hk3; right; by left|].
    exists (bytes (Labels.Name m)), (Labels.Type_ m), (bytes (Labels.Value m)).
    split_and!; [done| |done|by rewrite !of_bytes_bytes]. rewrite Hk2. unfold k. by destruct (Labels.Type_ m).
  - intros ts Hl. by do 3 (eapply lexes_token; [done|done|]).
Qed.

Lemma lex_matcher m l rest : printable m → ready l (bytes (Labels.Matcher_String m) ++ rest) →
  ∃ l' t1 t2 t3, is_matcher t1 t2 t3 m ∧ ready l' rest ∧
    ∀ ts, lexes l' ts → lexes l (t1 :: t2 :: t3 :: ts).
Proof.
  intros Hp Hr. pose proof Hp as [Hwf Hne Hn Hv].
  destruct (Matcher_String_text m Hp) as (n & v & E & Hnt & Hvt). rewrite E, <-!app_assoc in Hr. by eapply lex_text.
Qed.

Lemma lex_punct l c k rest : ready l (c :: rest) →
  (c, k) ∈ [(123, tokenOpenBrace); (125, tokenCloseBrace); (44, tokenComma)] →
  ∃ l' t, kind t = k ∧ ready l' rest ∧ ∀ ts, lexes l' ts → lexes l (t :: ts).
Proof.
  intros [Hc He] Hk. destruct (lexes1_ready _ _ _ _ (scan_punct l c rest k Hc He Hk))
    as (l' & t & Hs & Ht & ? & _ & ?); [set_unfold; naive_solver|].
  exists l', t. split_and!; try done. intros ts Hl. by eapply lexes_token.
Qed.

(** ** Lists of matchers *)
Lemma lex_join ms : ms ≠ [] → Forall printable ms → ∀ l rest,
  ready l (bytes (Labels.join_matchers true ms) ++ rest) →
  ∃ l' ts, sequence ts ms ∧ ready l' rest ∧ ∀ ts', lexes l' ts' → lexes l (ts ++ ts').
Proof.
  intros Hne Hp. induction Hp as [|m ms Hm _ IH]; [done|]. intros l rest Hr.
  cbn [Labels.join_matchers] in Hr. rewrite !bytes_app, <-!app_assoc in Hr.
  destruct (lex_matcher m l _ Hm Hr) as (l1 & t1 & t2 & t3 & Him & Hr1 & Hl1).
  destruct ms as [|m2 ms].
  { exists l1, [t1; t2; t3]. split_and!; [by constructor|done|]. intros ts' Hts. by apply Hl1. }
  assert (Hj : bytes (Labels.join_matchers false (m2 :: ms)) =
    44 :: bytes (Labels.join_matchers true (m2 :: ms))) by (cbn [Labels.join_matchers]; by rewrite bytes_app).
  rewrite Hj in Hr1.
  destruct (lex_punct l1 44 tokenComma _ Hr1) as (l2 & c & Hc & Hr2 & Hl2); [set_solver|].
  destruct (IH ltac:(done) l2 rest Hr2) as (l3 & ts & Hs & Hr3 & Hl3).
  exists l3, (t1 :: t2 :: t3 :: c :: ts). split_and!; [by constructor|done|]. intros ts' Hts.
  by apply Hl1, Hl2, Hl3.
Qed.

Lemma print_sentence ms : Forall printable ms →
  ∃ ts, lexes (new_lexer (bytes (Labels.Matchers_String ms))) ts ∧ sentence ts ms.
Proof.
  intros Hp. unfold Labels.Matchers_String. rewrite !bytes_app.
  set (inner := bytes (Labels.join_matchers true ms)).
  assert (Hb : Forall is_byte (123 :: inner ++ [125])).
  { constructor; [unfold is_byte; lia|]. apply Forall_app. split; [apply bytes_is_byte|].
    apply Forall_singleton. unfold is_byte. lia. }
  assert (Hr : ready (new_lexer (123 :: inner ++ [125])) (123 :: inner ++ [125])) by (split; [by apply cur_new|done]).
  destruct (lex_punct _ 123 tokenOpenBrace _ Hr) as (l1 & o & Ho & Hr1 & Hl1); [set_solver|].
  assert (Hclose : ∀ l, ready l [125] → ∃ c, kind c = tokenCloseBrace ∧ lexes l [c]).
  { intros l Hrl. destruct (lex_punct l 125 tokenCloseBrace [] Hrl) as (l' & c & Hc & [Hc' He'] & Hl'); [set_solver|].
    exists c. split; [done|]. apply Hl'. destruct (scan_eof _ Hc' He') as (l'' & Hs & _). by eapply lexes_end. }
  destruct (decide (ms = [])) as [->|Hne].
  - destruct (Hclose l1 Hr1) as (c & Hc & Hlc). exists [o; c]. split; [by apply Hl1|by constructor].
  - destruct (lex_join ms Hne Hp l1 [125] Hr1) as (l2 & ts & Hs & Hr2 & Hl2).
    destruct (Hclose l2 Hr2) as (c & Hc & Hlc). exists (o :: ts ++ [c]).
    split; [by apply Hl1, Hl2|by constructor].
Qed.

(** printed matchers are read back: parsing the printed form of any list of
    matchers with UTF-8 content gives the same matchers, whatever quotes,
    braces, commas, spaces or control characters names and values contain. *)
Theorem utf8_print_parse_roundtrip ms :
  Forall printable ms → Matchers (Labels.Matchers_String ms) = Ok ms.
Proof.
  intros (ts & Hl & Hs)%print_sentence. destruct (exact_Matchers (Labels.Matchers_String ms)) as (_ & _ & H).
  apply H. by exists ts, ms.
Qed.
End print.
End MatchPrint.

(** * The classic matcher parser and the choice of a parser

    The older parser of pkg/labels/parse.go: a splitter at commas outside quotes
    and a regular expression per matcher.  Package matcher/compat selects one
    of the two parsers, or runs both and falls back to the classic one.  The
    regular expression is a constant of the source, so matching it is written
    out; log lines are not modelled. *)
Module Compat.

(** ** The expression of the classic parser: spaces, a name of letters, digits,
    underscores and colons, spaces, an operator, spaces, anything, spaces *)
Definition re_space (b : Z) : bool := between 9 10 b || between 12 13 b || (b =? 32).
Definition name_start (b : Z) : bool :=
  between 97 122 b || between 65 90 b || (b =? 95) || (b =? 58).
Definition name_char (b : Z) : bool := name_start b || between 48 57 b.

Fixpoint drop_while {A} (f : A → bool) (l : list A) : list A :=
  match l with [] => [] | x :: l' => if f x then drop_while f l' else l end.
Fixpoint span {A} (f : A → bool) (l : list A) : list A * list A :=
  match l with
  | [] => ([], [])
  | x :: l' => if f x then let '(a, b) := span f l' in (x :: a, b) else ([], l)
  end.
Definition trim_right {A} (f : A → bool) (l : list A) : list A := rev (drop_while f (rev l)).

(** The submatches: name, operator and raw value.  The classes of consecutive
    parts are disjoint, so no other way of matching exists. *)
Definition FindStringSubmatch (bs : list Z) : option (list Z * Labels.MatchType * list Z) :=
  match drop_while re_space bs with
  | [] => None
  | (b :: _) as bs =>
      if name_start b then
        let '(name, rest) := span name_char bs in
        '(ty, rest) ←
          match drop_while re_space rest with
          | 61 :: 126 :: rest => Some (Labels.MatchRegexp, rest)
          | 61 :: rest => Some (Labels.MatchEqual, rest)
          | 33 :: 61 :: rest => Some (Labels.MatchNotEqual, rest)
          | 33 :: 126 :: rest => Some (Labels.MatchNotRegexp, rest)
          | _ => None
          end;
        Some (name, ty, trim_right re_space (drop_while re_space rest))
      else None
  end.

(** ** The classic parser *)
Inductive error :=
| BadFormat | NotUTF8 | UnescapedQuote | BadMatcher
| UnexpectedBrace
| NewParser (e : MatchParser.error).

Section classic.
Context `{RE : Regexp}.

(** The loop of [ParseMatcher]: the value, and whether a closing quote is still
    expected.  A quote or backslash is the last byte when no rune follows. *)
Fixpoint unescape_loop (rs : list rune) (escaped expectTrailingQuote : bool) (value : list Z)
    : result error (list Z * bool) :=
  match rs with
  | [] => Ok (value, expectTrailingQuote)
  | r :: rs =>
      if escaped then
        unescape_loop rs false expectTrailingQuote
          (value ++ (if r =? 110 then [10]
                     else if (r =? dquote) || (r =? backslash) then EncodeRune r
                     else backslash :: EncodeRune r))
      else if r =? backslash then
        if bool_decide (rs ≠ []) then unescape_loop rs true expectTrailingQuote value
        else unescape_loop rs false expectTrailingQuote (value ++ [backslash])
      else if r =? dquote then
        if negb expectTrailingQuote || bool_decide (rs ≠ []) then Err UnescapedQuote
        else unescape_loop rs false false value
      else unescape_loop rs false expectTrailingQuote (value ++ EncodeRune r)
  end.

Definition ParseMatcher_bytes (s : list Z) : result error Labels.Matcher :=
  match FindStringSubmatch s with
  | None => Err BadFormat
  | Some (name, ty, raw) =>
      let '(rawValue, expectTrailingQuote) :=
        match raw with
        | b :: raw' => if b =? dquote then (raw', true) else (raw, false)
        | [] => (raw, false)
        end in
      if negb (ValidBytes rawValue) then Err NotUTF8 else
      '(value, expectTrailingQuote) ← unescape_loop (runes rawValue) false expectTrailingQuote [];
      if expectTrailingQuote : bool then Err UnescapedQuote else
      match Labels.NewMatcher ty (of_bytes name) (of_bytes value) with
      | Some m => Ok m
      | None => Err BadMatcher
      end
  end.
Definition ParseMatcher (s : string) : result error Labels.Matcher := ParseMatcher_bytes (bytes s).

(** The splitter of [ParseMatchers], on runes; a builder of runes holds the
    token. *)
Fixpoint split_loop (rs : list rune) (insideQuotes escaped : bool) (token : list rune)
    (tokens : list (list rune)) : list rune * list (list rune) :=
  match rs with
  | [] => (token, tokens)
  | r :: rs =>
      if (r =? 44) && negb insideQuotes then split_loop rs insideQuotes escaped [] (tokens ++ [token])
      else
        let '(insideQuotes, escaped) :=
          if r =? 44 then (insideQuotes, escaped)
          else if r =? dquote then
            if negb escaped then (negb insideQuotes, escaped) else (insideQuotes, false)
          else if r =? backslash then (insideQuotes, negb escaped)
          else (insideQuotes, false) in
        split_loop rs insideQuotes escaped (token ++ [r]) tokens
  end.

(** [strings.TrimPrefix] and [TrimSuffix] with one byte. *)
Definition TrimPrefix (c : Z) (bs : list Z) : list Z :=
  match bs with b :: bs' => if b =? c then bs' else bs | [] => [] end.
Definition TrimSuffix (c : Z) (bs : list Z) : list Z :=
  match rev bs with b :: bs' => if b =? c then rev bs' else bs | [] => bs end.

(** [strings.TrimSpace] of valid text, on runes. *)
Definition TrimSpace (rs : list rune) : list rune := trim_right IsSpace (drop_while IsSpace rs).

Fixpoint parse_tokens (tokens : list (list rune)) : result error (list Labels.Matcher) :=
  match tokens with
  | [] => Ok []
  | t :: tokens =>
      m ← ParseMatcher_bytes (encode_runes t);
      ms ← parse_tokens tokens;
      Ok (m :: ms)
  end.

Definition ParseMatchers (s : string) : result error (list Labels.Matcher) :=
  let bs := TrimSuffix 125 (TrimPrefix 123 (bytes s)) in
  let '(token, tokens) := split_loop (runes bs) false false [] [] in
  let last_ := TrimSpace token in
  parse_tokens (if bool_decide (last_ ≠ []) then tokens ++ [last_] else tokens).

(** ** Selecting a parser (matcher/compat) *)
Inductive mode := ClassicMode | UTF8StrictMode | FallbackMode.

Definition lift {A} (r : result MatchParser.error A) : result error A :=
  match r with Ok a => Ok a | Err e => Err (NewParser e) end.

Definition ClassicMatcherParser (input : string) : result error Labels.Matcher := ParseMatcher input.
Definition ClassicMatchersParser (input : string) : result error (list Labels.Matcher) :=
  ParseMatchers input.

(** A leading open or a trailing close brace. *)
Definition has_brace (input : string) : bool :=
  match bytes input with [] => false | b :: _ => b =? 123 end ||
  match rev (bytes input) with [] => false | b :: _ => b =? 125 end.

Definition UTF8MatcherParser (input : string) : result error Labels.Matcher :=
  if has_brace input then Err UnexpectedBrace else lift (MatchParser.Matcher input).
Definition UTF8MatchersParser (input : string) : result error (list Labels.Matcher) :=
  lift (MatchParser.Matchers input).

(** Both parsers run; the classic one wins when only it succeeds or when they
    disagree. *)
Definition fallback {A} `{EqDecision A} (n : result MatchParser.error A) (c : result error A)
    : result error A :=
  match n with
  | Err _ => c
  | Ok nm =>
      match c with
      | Ok cm => if decide (nm = cm) then Ok nm else Ok cm
      | Err _ => Ok nm
      end
  end.

Definition FallbackMatcherParser (input : string) : result error Labels.Matcher :=
  if has_brace input then Err UnexpectedBrace
  else fallback (MatchParser.Matcher input) (ParseMatcher input).
Definition FallbackMatchersParser (input : string) : result error (list Labels.Matcher) :=
  fallback (MatchParser.Matchers input) (ParseMatchers input).

(** The parsers that [InitFromFlags] installs. *)
Definition parseMatcher (m : mode) : string → result error Labels.Matcher :=
  match m with
  | ClassicMode => ClassicMatcherParser
  | UTF8StrictMode => UTF8MatcherParser
  | FallbackMode => FallbackMatcherParser
  end.
Definition parseMatchers (m : mode) : string → result error (list Labels.Matcher) :=
  match m with
  | ClassicMode => ClassicMatchersParser
  | UTF8StrictMode => UTF8MatchersParser
  | FallbackMode => FallbackMatchersParser
  end.

Definition isValidUTF8LabelName (name : string) : bool :=
  bool_decide (name ≠ ""%string) && ValidString name.
End classic.
End Compat.

(** * Both matcher parsers agree on printed matchers

    On the printed form of matchers the classic parser either gives the same
    matchers or, when a name is not a classic one, fails; so in every mode the
    selected parser reads back what was printed. *)
Import Unquote MatchLexerInv MatchPrint Compat.

Module CompatInv.
Section compat.
Context `{RE : Regexp, UP : UnicodePrint}.

Definition classic_name (s : string) : bool :=
  match bytes s with [] => false | b :: _ => name_start b end && forallb name_char (bytes s).

(** ** Lists *)
Lemma trim_right_last {A} (f : A → bool) l x : f x = false → trim_right f (l ++ [x]) = l ++ [x].
Proof. intros Hx. unfold trim_right. rewrite rev_app_distr. cbn. rewrite Hx. cbn. by rewrite rev_involutive. Qed.

Lemma span_all {A} (f : A → bool) l x rest :
  forallb f l = true → f x = false → span f (l ++ x :: rest) = (l, x :: rest).
Proof.
  intros Hl Hx. induction l as [|y l IH]; cbn; [by rewrite Hx|]. cbn in Hl. to_props.
  rewrite H. by rewrite IH.
Qed.

Lemma span_stops {A} (f : A → bool) l rest :
  forallb f l = false → ∃ a x b, span f (l ++ rest) = (a, x :: b) ∧ x ∈ l ∧ f x = false.
Proof.
  induction l as [|y l IH]; cbn; [done|]. destruct (f y) eqn:Hy; cbn.
  - intros Hl. destruct (IH Hl) as (a & x & b & -> & Hx & Hf). exists (y :: a), x, b.
    split_and!; [done|by right|done].
  - intros _. exists [], y, (l ++ rest). split_and!; [done|by left|done].
Qed.

Lemma ascii_list l : forallb (λ b, (0 <=? b) && (b <? 128)) l = true → Forall (λ b, 0 ≤ b < 128) l.
Proof.
  rewrite Forall_forall. intros H b Hb%list_elem_of_In.
  apply forallb_forall with (x := b) in H; [|done]. to_props. lia.
Qed.

Lemma ascii_encode l : Forall (λ b, 0 ≤ b < 128) l → encode_runes l = l ∧ Forall valid_rune l.
Proof.
  induction 1 as [|b l Hb _ [IH1 IH2]]; [done|]. split.
  - unfold encode_runes in *. cbn. rewrite IH1. unfold EncodeRune. by destruct (between_spec 0 127 b); [|lia].
  - constructor; [|done]. split; [lia|]. unfold is_surrogate. by destruct (between_spec 55296 57343 b); [lia|].
Qed.

(** ** The splitter *)

(** Runes that are copied into the token, outside and inside quotes. *)
Definition passes (inside : bool) (rs : list rune) : Prop := ∀ rest token tokens,
  split_loop (rs ++ rest) inside false token tokens = split_loop rest inside false (token ++ rs) tokens.

Lemma passes_nil b : passes b [].
Proof. intros rest token tokens. by rewrite app_nil_r. Qed.

Lemma passes_app b rs1 rs2 : passes b rs1 → passes b rs2 → passes b (rs1 ++ rs2).
Proof. intros H1 H2 rest token tokens. by rewrite <-app_assoc, H1, H2, <-app_assoc. Qed.

Lemma passes_rune b r : r ≠ dquote → r ≠ backslash → (b = false → r ≠ 44) → passes b [r].
Proof.
  intros H1%Z.eqb_neq H2%Z.eqb_neq H3 rest token tokens. cbn. rewrite H1, H2.
  destruct (Z.eqb_spec r 44); [|done]. destruct b; [done|]. by destruct H3.
Qed.

Lemma passes_quotes rs : passes true rs → passes false (dquote :: rs ++ [dquote]).
Proof.
  intros Hrs rest token tokens. change ((dquote :: rs ++ [dquote]) ++ rest) with (dquote :: (rs ++ [dquote]) ++ rest).
  rewrite <-app_assoc. cbn [split_loop]. change (dquote =? 44) with false. rewrite Z.eqb_refl. cbn [andb negb].
  rewrite Hrs. cbn. by rewrite <-!app_assoc.
Qed.

Lemma qtext_passes q : qtext q → ∃ rs, q = encode_runes rs ∧ Forall valid_rune rs ∧ passes true rs.
Proof.
  induction 1 as [|r q Hr H1 H2 _ (rs & -> & Hv & Hp)|c q Hc Hn _ (rs & -> & Hv & Hp)].
  - exists []. split_and!; [done|constructor|apply passes_nil].
  - exists (r :: rs). split_and!; [done|by constructor|]. apply (passes_app true [r]); [|done].
    by apply passes_rune.
  - destruct (ascii_encode [backslash; c]) as [Ee Ev].
    { apply Forall_cons_2; [unfold backslash; lia|by apply Forall_singleton]. }
    exists ([backslash; c] ++ rs). split_and!.
    + by rewrite encode_runes_app, Ee.
    + by apply Forall_app.
    + apply (passes_app true [backslash; c]); [|done]. intros rest token tokens. cbn.
      rewrite (proj2 (Z.eqb_neq c 44)) by done. cbn. rewrite <-app_assoc.
      destruct (Z.eqb_spec c dquote), (Z.eqb_spec c backslash); done.
Qed.

(** ** The runes of a printed matcher *)
Definition plain_op (t : Labels.MatchType) : list rune := op_bytes (op_kind t).

Record printed (m : Labels.Matcher) (rs : list rune) : Prop := {
  pd_bytes : bytes (Labels.Matcher_String m) = encode_runes rs;
  pd_valid : Forall valid_rune rs;
  pd_passes : passes false rs;
  pd_first : ∃ r rs', rs = r :: rs' ∧ IsSpace r = false;
  pd_last : ∃ rs', rs = rs' ++ [dquote];
}.

Lemma op_facts t : Forall (λ b, 0 ≤ b < 128) (plain_op t) ∧ passes false (plain_op t).
Proof.
  split; [by destruct t; apply ascii_list|].
  intros rest token tokens. destruct t; cbn; by rewrite <-?app_assoc.
Qed.

Lemma quoted_facts v s : value_text s v →
  ∃ rs, v = encode_runes (dquote :: rs ++ [dquote]) ∧ Forall valid_rune (dquote :: rs ++ [dquote]) ∧
    passes false (dquote :: rs ++ [dquote]).
Proof.
  intros (q & -> & (rs & -> & Hv & Hp)%qtext_passes & _). exists rs.
  assert (Hd : valid_rune dquote) by done.
  split_and!.
  - change (dquote :: rs ++ [dquote]) with ([dquote] ++ rs ++ [dquote]). by rewrite !encode_runes_app.
  - constructor; [done|]. apply Forall_app. split; [done|by apply Forall_singleton].
  - by apply passes_quotes.
Qed.

Lemma unreserved_passes rs : Forall (λ r, Labels.isReserved r = false) rs → passes false rs.
Proof.
  induction 1 as [|r rs Hr _ IH]; [apply passes_nil|]. apply (passes_app false [r]); [|done].
  apply passes_rune; [intros ->; done..|]. by intros _ ->.
Qed.

Lemma printed_exists m : printable m → ∃ rs, printed m rs.
Proof.
  intros Hp. pose proof Hp as [Hwf Hne Hn Hv].
  destruct (Matcher_String_text m Hp) as (n & v & E & Hnt & Hvt).
  destruct (quoted_facts _ _ Hvt) as (rv & -> & Hrv & Hpv).
  destruct (op_facts (Labels.Type_ m)) as [Ho Hpo]. destruct (ascii_encode _ Ho) as [Eo Vo].
  assert (Hname : ∃ rn, n = encode_runes rn ∧ Forall valid_rune rn ∧ passes false rn ∧
    ∃ r rn', rn = r :: rn' ∧ IsSpace r = false).
  { destruct Hnt as [Hq|(Hres & _ & ->)].
    - destruct (quoted_facts n (Labels.Name m) Hq) as (rn & -> & ? & ?).
      exists (dquote :: rn ++ [dquote]). split_and!; [done..|]. by eexists _, _.
    - destruct (ValidBytes_runes (bytes (Labels.Name m))) as (rs & Hrs & Es); [apply bytes_is_byte|done|].
      unfold ContainsFunc in Hres. rewrite Es, runes_encode_runes in Hres by done.
      assert (Hf : Forall (λ r, Labels.isReserved r = false) rs).
      { apply Forall_forall. intros r Hr. apply not_true_is_false. intros Ht.
        apply not_true_iff_false in Hres. apply Hres, existsb_exists. exists r. by rewrite <-list_elem_of_In. }
      exists rs. split_and!; [done|done|by apply unreserved_passes|].
      destruct rs as [|r rs']; [|exists r, rs'; split; [done|]].
      + exfalso. apply Hne. apply bytes_inj. by rewrite Es.
      + apply Forall_cons_1 in Hf as [Hf _]. unfold Labels.isReserved in Hf. by to_props. }
  destruct Hname as (rn & -> & Hrn & Hpn & r & rn' & -> & Hsp).
  exists ((r :: rn') ++ plain_op (Labels.Type_ m) ++ dquote :: rv ++ [dquote]). split.
  - by rewrite E, !encode_runes_app, Eo.
  - rewrite !Forall_app. done.
  - by apply passes_app; [|apply passes_app].
  - by eexists _, _.
  - exists ((r :: rn') ++ plain_op (Labels.Type_ m) ++ dquote :: rv).
    by rewrite <-!app_assoc, <-app_comm_cons.
Qed.

(** ** Lists of printed matchers *)
Fixpoint join (rss : list (list rune)) : list rune :=
  match rss with
  | [] => []
  | [rs] => rs
  | rs :: rss => rs ++ 44 :: join rss
  end.

Lemma join_cons rs rs2 rss : join (rs :: rs2 :: rss) = rs ++ 44 :: join (rs2 :: rss).
Proof. done. Qed.

Lemma join_bytes ms rss : Forall2 printed ms rss →
  bytes (Labels.join_matchers true ms) = encode_runes (join rss).
Proof.
  induction 1 as [|m rs ms rss Hm Hms IH]; [done|]. cbn [Labels.join_matchers]. rewrite !bytes_app, (pd_bytes _ _ Hm).
  destruct Hms as [|m2 rs2 ms rss Hm2 Hms].
  - cbn. by rewrite app_nil_r.
  - rewrite join_cons, encode_runes_app. change (encode_runes (44 :: ?l)) with (44 :: encode_runes l).
    rewrite <-IH. cbn [Labels.join_matchers]. by rewrite !bytes_app.
Qed.

Lemma split_join ms rss : Forall2 printed ms rss → rss ≠ [] → ∀ tokens,
  ∃ init last, rss = init ++ [last] ∧ split_loop (join rss) false false [] tokens = (last, tokens ++ init).
Proof.
  induction 1 as [|m rs ms rss Hm Hms IH]; [done|]. intros _ tokens.
  destruct Hms as [|m2 rs2 ms rss Hm2 Hms]; [cbn [join]|rewrite join_cons].
  - exists [], rs. split; [done|]. rewrite <-(app_nil_r rs) at 1.
    rewrite (pd_passes _ _ Hm). cbn. by rewrite app_nil_r.
  - rewrite (pd_passes _ _ Hm). cbn [split_loop app]. rewrite Z.eqb_refl. cbn [andb negb].
    destruct (IH ltac:(done) (tokens ++ [rs])) as (init & last & E & Hs).
    exists (rs :: init), last. rewrite E. split; [done|]. rewrite <-E. by rewrite Hs, <-app_assoc.
Qed.

(** ** One matcher *)

(** The escaping of values, on runes. *)
Definition escape_r (r : rune) : list rune :=
  if decide (r ∈ [backslash; 10; dquote]) then Labels.escape_byte r else [r].

Lemma escape_r_facts r : valid_rune r →
  concat (map Labels.escape_byte (EncodeRune r)) = encode_runes (escape_r r) ∧
  Forall valid_rune (escape_r r).
Proof.
  intros Hr. rewrite escape_rune by done. unfold escape_r. case_decide as Hs.
  - destruct (ascii_encode (Labels.escape_byte r)) as [-> ?]; [|done].
    rewrite !elem_of_cons, elem_of_nil in Hs.
    destruct_or! Hs; try done; subst; by apply ascii_list.
  - split; [|by apply Forall_singleton]. unfold encode_runes. cbn. by rewrite app_nil_r.
Qed.

Lemma escape_runes rs : Forall valid_rune rs →
  concat (map Labels.escape_byte (encode_runes rs)) = encode_runes (rs ≫= escape_r) ∧
  Forall valid_rune (rs ≫= escape_r).
Proof.
  induction 1 as [|r rs Hr _ [IH1 IH2]]; [done|].
  change (encode_runes (r :: rs)) with (EncodeRune r ++ encode_runes rs).
  destruct (escape_r_facts r Hr) as [E V].
  rewrite map_app, concat_app, E, IH1. cbn [mbind list_bind]. by rewrite encode_runes_app, Forall_app.
Qed.

Lemma unescape_escaped rs : Forall valid_rune rs → ∀ value,
  unescape_loop ((rs ≫= escape_r) ++ [dquote]) false true value = Ok (value ++ encode_runes rs, false).
Proof.
  induction 1 as [|r rs Hr _ IH]; intros value; cbn [mbind list_bind app].
  { cbn. by rewrite app_nil_r. }
  change (encode_runes (r :: rs)) with (EncodeRune r ++ encode_runes rs).
  rewrite <-app_assoc. unfold escape_r at 1. case_decide as Hs.
  - assert (Htl : bool_decide ((rs ≫= escape_r) ++ [dquote] ≠ []) = true)
      by (apply bool_decide_eq_true; by intros [_ ?]%app_nil).
    rewrite !elem_of_cons, elem_of_nil in Hs.
    destruct_or! Hs; try done; subst; cbn [Labels.escape_byte]; cbn -[mbind]; rewrite IH, <-app_assoc; done.
  - assert (Hq : (r =? backslash) = false ∧ (r =? dquote) = false)
      by (split; apply Z.eqb_neq; intros ->; apply Hs; set_solver).
    destruct Hq as [Hq1 Hq2]. cbn [app unescape_loop]. rewrite Hq1, Hq2, IH, <-app_assoc. done.
Qed.

Lemma name_char_facts b : name_char b = true → 0 ≤ b < 128 ∧ re_space b = false ∧ b ≠ 61 ∧ b ≠ 33 ∧ b ≠ 126.
Proof.
  unfold name_char, name_start, re_space. intros H.
  assert (Hb : 97 ≤ b ≤ 122 ∨ 65 ≤ b ≤ 90 ∨ b = 95 ∨ b = 58 ∨ 48 ≤ b ≤ 57).
  { destruct (between_spec 97 122 b), (between_spec 65 90 b), (between_spec 48 57 b),
      (Z.eqb_spec b 95), (Z.eqb_spec b 58); try tauto; done. }
  split_and!; try lia. between_cases; done.
Qed.

Lemma name_char_unreserved r : name_char r = true → Labels.isReserved r = false.
Proof.
  intros Hr. destruct (name_char_facts r Hr) as (Hb & _).
  assert (Hall : forallb (λ r, negb (name_char r && Labels.isReserved r)) (seqZ 0 128) = true)
    by (vm_compute; done).
  apply forallb_forall with (x := r) in Hall; [|apply list_elem_of_In, elem_of_seqZ; lia].
  rewrite Hr in Hall. by to_props.
Qed.

Lemma name_start_char b : name_start b = true → name_char b = true.
Proof. unfold name_char. by intros ->. Qed.

(** The expression on an unquoted name, an operator and a quoted value. *)
Lemma FindStringSubmatch_printed b l t x :
  name_start b = true → forallb name_char (b :: l) = true →
  FindStringSubmatch ((b :: l) ++ plain_op t ++ dquote :: x ++ [dquote]) =
    Some (b :: l, t, dquote :: x ++ [dquote]).
Proof.
  intros Hb Hl. unfold FindStringSubmatch.
  destruct (name_char_facts b (name_start_char b Hb)) as (_ & Hs & _).
  cbn [drop_while app]. rewrite Hs, Hb.
  assert (Hop : ∃ o os, plain_op t = o :: os ∧ name_char o = false) by (destruct t; by eexists _, _).
  destruct Hop as (o & os & Ho & Hno).
  assert (Hsp : span name_char (b :: l ++ plain_op t ++ dquote :: x ++ [dquote]) =
    (b :: l, plain_op t ++ dquote :: x ++ [dquote])) by (rewrite Ho; by apply (span_all _ (b :: l))).
  rewrite Hsp.
  assert (Htr : ∀ z, trim_right re_space (dquote :: x ++ [dquote]) = z → z = dquote :: x ++ [dquote]).
  { intros z <-. by rewrite app_comm_cons, trim_right_last. }
  destruct t; cbn -[trim_right]; by rewrite (Htr _ eq_refl).
Qed.

Lemma ParseMatcher_classic m : printable m → classic_name (Labels.Name m) = true →
  ParseMatcher_bytes (bytes (Labels.Matcher_String m)) = Ok m.
Proof.
  intros [Hwf Hne Hn Hv] Hc. unfold classic_name in Hc.
  destruct (bytes (Labels.Name m)) as [|b l] eqn:Eb; [done|]. apply andb_true_iff in Hc as [Hb Hl].
  assert (Hres : ContainsFunc (Labels.Name m) Labels.isReserved = false).
  { apply not_true_is_false. unfold ContainsFunc. rewrite Eb. intros (r & Hr & Hrs)%existsb_exists.
    assert (Ha : Forall (λ b, 0 ≤ b < 128) (b :: l)).
    { apply Forall_forall. intros c Hin%list_elem_of_In.
      apply name_char_facts. by eapply forallb_forall in Hl. }
    destruct (ascii_encode _ Ha) as [E V]. rewrite <-E, runes_encode_runes in Hr by done.
    eapply forallb_forall in Hl; [|exact Hr]. by rewrite (name_char_unreserved r Hl) in Hrs. }
  unfold Labels.Matcher_String. rewrite Hres, !bytes_app, op_kind_bytes, Eb.
  rewrite (bytes_of_bytes [dquote]) by (apply Forall_singleton; unfold is_byte, dquote; lia).
  destruct (ValidBytes_runes (bytes (Labels.Value m))) as (rs & Hrs & Ev); [apply bytes_is_byte|done|].
  unfold Labels.openMetricsEscape. rewrite bytes_of_bytes by apply escape_bytes, bytes_is_byte.
  rewrite Ev. destruct (escape_runes rs Hrs) as [-> Hve]. set (x := encode_runes (rs ≫= escape_r)).
  change ([dquote] ++ x ++ [dquote]) with (dquote :: x ++ [dquote]).
  unfold ParseMatcher_bytes. fold (plain_op (Labels.Type_ m)). rewrite (FindStringSubmatch_printed b l (Labels.Type_ m) x Hb Hl).
  rewrite Z.eqb_refl.
  assert (Ex : x ++ [dquote] = encode_runes ((rs ≫= escape_r) ++ [dquote])) by by rewrite encode_runes_app.
  assert (Hvx : Forall valid_rune ((rs ≫= escape_r) ++ [dquote])) by (apply Forall_app; split; [done|by apply Forall_singleton]).
  rewrite Ex, ValidBytes_encode, runes_encode_runes by done. cbn [negb].
  rewrite unescape_escaped by done. cbn [mbind result_bind app].
  rewrite <-Eb, <-Ev, !of_bytes_bytes. by rewrite Hwf.
Qed.

(** When a name is not a classic one the expression does not match. *)
Lemma ParseMatcher_other m : printable m → classic_name (Labels.Name m) = false →
  ParseMatcher_bytes (bytes (Labels.Matcher_String m)) = Err BadFormat.
Proof.
  intros [Hwf Hne Hn Hv] Hc. unfold ParseMatcher_bytes.
  assert (Hnone : FindStringSubmatch (bytes (Labels.Matcher_String m)) = None); [|by rewrite Hnone].
  unfold Labels.Matcher_String. destruct (ContainsFunc _ _) eqn:Hres; rewrite !bytes_app.
  { destruct (Quote_text _ Hn) as (q & -> & _). done. }
  rewrite op_kind_bytes. fold (plain_op (Labels.Type_ m)). set (rest := plain_op _ ++ _).
  destruct (bytes (Labels.Name m)) as [|b l] eqn:Eb.
  { destruct Hne. by apply bytes_inj. }
  unfold classic_name in Hc. rewrite Eb in Hc.
  assert (Hplain : ∀ c, c ∈ b :: l → re_space c = false ∧ c ≠ 61 ∧ c ≠ 33).
  { intros c Hin. rewrite <-Eb in Hin. destruct (decide (c < 128)) as [Hlt|Hge].
    - pose proof (ContainsFunc_bytes _ _ c Hres Hin Hlt) as Hr. split_and!; [|by intros ->..].
      apply not_true_is_false. intros Hs. unfold re_space in Hs.
      assert (Hc' : c ∈ [9; 10; 12; 13; 32]).
      { rewrite !elem_of_cons, elem_of_nil.
        destruct (between_spec 9 10 c), (between_spec 12 13 c), (Z.eqb_spec c 32); try lia; done. }
      set_unfold. by destruct_or! Hc'; subst.
    - split_and!; [|lia..]. unfold re_space. between_cases. }
  unfold FindStringSubmatch. destruct (Hplain b ltac:(by left)) as (Hsb & _). cbn [drop_while app]. rewrite Hsb.
  destruct (name_start b) eqn:Hb; [|done]. cbn [andb] in Hc.
  destruct (span_stops name_char (b :: l) rest Hc) as (a & x & y & Hsp & Hx & Hf).
  change (b :: l ++ rest) with ((b :: l) ++ rest). rewrite Hsp.
  destruct (Hplain x Hx) as (Hsx & H1 & H2). cbn [drop_while]. rewrite Hsx.
  destruct x as [|px|px]; [done| |done].
  repeat (destruct px as [px|px|]; try done).
Qed.

Lemma parse_printed ms rss : Forall2 printed ms rss → Forall printable ms →
  parse_tokens rss = if forallb (λ m, classic_name (Labels.Name m)) ms then Ok ms else Err BadFormat.
Proof.
  induction 1 as [|m rs ms rss Hm Hms IH]; intros Hp; [done|]. apply Forall_cons_1 in Hp as [Hp Hps].
  cbn [parse_tokens forallb]. rewrite <-(pd_bytes _ _ Hm).
  destruct (classic_name (Labels.Name m)) eqn:Hc; cbn [andb].
  - rewrite ParseMatcher_classic, IH by done. cbn [mbind result_bind]. by destruct (forallb _ ms).
  - by rewrite ParseMatcher_other by done.
Qed.

(** The classic parser on printed matchers. *)
Lemma classic_printed ms : Forall printable ms →
  ParseMatchers (Labels.Matchers_String ms) =
    if forallb (λ m, classic_name (Labels.Name m)) ms then Ok ms else Err BadFormat.
Proof.
  intros Hp.
  assert (Hrss : ∃ rss, Forall2 printed ms rss).
  { clear -Hp. induction Hp as [|m ms Hm _ [rss IH]]; [by exists []|].
    destruct (printed_exists m Hm) as [rs Hrs]. exists (rs :: rss). by constructor. }
  destruct Hrss as [rss Hrss]. rewrite <-(parse_printed ms rss Hrss Hp).
  unfold ParseMatchers, Labels.Matchers_String. rewrite !bytes_app.
  assert (Htrim : ∀ l, TrimSuffix 125 (TrimPrefix 123 (123 :: l ++ [125])) = l).
  { intros l. unfold TrimPrefix, TrimSuffix. cbn. rewrite rev_app_distr. cbn. apply rev_involutive. }
  change (bytes "{" ++ ?l ++ bytes "}") with (123 :: l ++ [125]). rewrite Htrim.
  rewrite (join_bytes ms rss Hrss).
  assert (Hv : Forall valid_rune (join rss)).
  { clear -Hrss. induction Hrss as [|m rs ms rss Hm Hms IH]; [done|].
    destruct Hms; [apply (pd_valid _ _ Hm)|]. rewrite join_cons. apply Forall_app.
    split; [apply (pd_valid _ _ Hm)|]. by constructor. }
  rewrite runes_encode_runes by done.
  destruct (decide (rss = [])) as [->|Hne]; [done|].
  destruct (split_join ms rss Hrss Hne []) as (init & last & -> & ->).
  assert (Hl : TrimSpace last = last ∧ last ≠ []).
  { apply Forall2_app_inv_r in Hrss as (ms1 & ms2 & _ & Hl & _). inversion Hl as [|m ? ? ? Hm _]; subst.
    destruct (pd_first _ _ Hm) as (r & rs' & E & Hr). destruct (pd_last _ _ Hm) as (rs2 & E2).
    split; [|by rewrite E]. unfold TrimSpace. rewrite E. cbn [drop_while]. rewrite Hr, <-E, E2.
    by apply trim_right_last. }
  destruct Hl as [-> Hne']. by rewrite bool_decide_eq_true_2.
Qed.

(** C20: printed matchers are read back: for matchers built by [NewMatcher] with
    non-empty UTF-8 names and UTF-8 values, parsing the printed form gives the same
    matchers, in the UTF-8 and in the fallback mode whatever the names are, and in
    the classic mode for classic label names. *)
Theorem compat_print_parse_roundtrip mode_ ms :
  Forall printable ms → (mode_ = ClassicMode → Forall (λ m, classic_name (Labels.Name m) = true) ms) →
  parseMatchers mode_ (Labels.Matchers_String ms) = Ok ms.
Proof.
  intros Hp Hc. assert (Hn : MatchParser.Matchers (Labels.Matchers_String ms) = Ok ms).
  { destruct (print_sentence ms Hp) as (ts & Hl & Hs).
    destruct (MatchParserInv.exact_Matchers (Labels.Matchers_String ms)) as (_ & _ & H).
    apply H. by exists ts, ms. }
  pose proof (classic_printed ms Hp) as Hcl. destruct mode_; cbn.
  - unfold ClassicMatchersParser. rewrite Hcl. rewrite (proj2 (forallb_forall _ _)); [done|].
    intros m Hm%list_elem_of_In. specialize (Hc eq_refl). rewrite Forall_forall in Hc. by apply Hc.
  - unfold UTF8MatchersParser. by rewrite Hn.
  - unfold FallbackMatchersParser, fallback. rewrite Hn, Hcl. destruct (forallb _ ms); [|done].
    by rewrite decide_True.
Qed.
End compat.
End CompatInv.
