(* ===== verification/MatchExamples.v ===== *)
(** * The matcher parsers at concrete inputs *)

From Stdlib Require Import Ascii String.
From stdpp Require Import base list strings numbers.
From S2P Require Import Prelude Utf8 Labels Silence Instances Unquote MatchLexer MatchParser Compat.

Import MatchPrint Compat CompatInv.

Module MatchExamples.
#[local] Instance ascii_print : UnicodePrint := λ _, false.

Definition ex_matcher (t : Labels.MatchType) (n v : string) : Labels.Matcher :=
  default (Labels.mkMatcher t n v None) (Labels.NewMatcher t n v).

(** A value with a quote, a comma, a brace and a line feed, a name with a space
    and an accented name. *)
Definition tricky : string := of_bytes [97; 34; 44; 125; 10; 92; 195; 182].
Definition ex_matchers : list Labels.Matcher :=
  [ex_matcher Labels.MatchEqual "job" tricky;
   ex_matcher Labels.MatchRegexp "job name" "api|web";
   ex_matcher Labels.MatchNotEqual (of_bytes [102; 195; 182]) ""].
Definition ex_classic : list Labels.Matcher :=
  [ex_matcher Labels.MatchEqual "job" tricky; ex_matcher Labels.MatchNotRegexp "le:1" "a.b"].

Lemma ex_printable : Forall printable (ex_matchers ++ ex_classic).
Proof.
  repeat (apply Forall_cons_2; [split; [vm_compute; reflexivity|discriminate|vm_compute; reflexivity..]|]).
  constructor.
Qed.

Lemma utf8_print_parse_roundtrip_witness :
  MatchParser.Matchers (Labels.Matchers_String ex_matchers) = Ok ex_matchers.
Proof.
  apply (utf8_print_parse_roundtrip ex_matchers).
  apply (proj1 (proj1 (Forall_app _ _ _) ex_printable)).
Defined.

Lemma compat_print_parse_roundtrip_witness :
  parseMatchers ClassicMode (Labels.Matchers_String ex_classic) = Ok ex_classic.
Proof.
  apply (compat_print_parse_roundtrip ClassicMode ex_classic).
  - apply (proj2 (proj1 (Forall_app _ _ _) ex_printable)).
  - intros _. repeat (apply Forall_cons_2; [vm_compute; reflexivity|]). constructor.
Defined.

(** The grammar at its edges. *)
Example ex_empty : MatchParser.Matchers "" = Ok [].
Proof. vm_compute. reflexivity. Qed.
Example ex_trailing_comma :
  MatchParser.Matchers "{ job = api , }" = Ok [ex_matcher Labels.MatchEqual "job" "api"].
Proof. vm_compute. reflexivity. Qed.
Example ex_unclosed : is_ok (MatchParser.Matchers "{job=api") = false.
Proof. vm_compute. reflexivity. Qed.
Example ex_unopened : is_ok (MatchParser.Matchers "job=api}") = false.
Proof. vm_compute. reflexivity. Qed.

(** Unquoted text need not be valid UTF-8. *)
Example ex_invalid_utf8 :
  MatchParser.Matchers ("job=" +:+ of_bytes [255]) =
    Ok [ex_matcher Labels.MatchEqual "job" (of_bytes [255])].
Proof. vm_compute. reflexivity. Qed.

Definition quoted (s : string) : string := of_bytes [dquote] +:+ s +:+ of_bytes [dquote].

(** the classic parser loses track of quotes after a backslash and a comma: two
    matchers that it accepts one by one, the first with a backslash followed by
    a comma in its quoted value, are refused when they are given as a list. *)
Theorem classic_backslash_comma_refused :
  let a := ("a=" +:+ quoted "\,")%string in
  let b := ("b=" +:+ quoted "c")%string in
  is_ok (ParseMatcher a) = true ∧ is_ok (ParseMatcher b) = true ∧
  ParseMatchers (a +:+ "," +:+ b) = Err UnescapedQuote.
Proof. vm_compute. split_and!; reflexivity. Qed.
End MatchExamples.
