(* ===== verification/Api.v ===== *)
(** * The HTTP API, version 2 (api/v2/api.go, api/v2/compat.go)

    The handlers as functions from the parameters of a request and the state of
    the components they call to the new state and a response.  What the
    generated server code does before and after (routing, decoding, checking
    required fields, encoding) is not modelled: a required field is a value, an
    optional one an option.  [setAlertStatus], the function that runs inhibitor
    and silencer for a label set, is a field of the API object and an argument
    here; [reloader_setAlertStatus] is the one app/reloader.go installs. *)

From Stdlib Require Import Ascii String.
From stdpp Require Import base gmap strings list sorting.
From S2P Require Import Prelude Utf8 Labels Silence Alert Nflog Notify Bucket Store Provider.
From S2P Require Import Inhibit Unquote Strconv Route Dispatch Groups Silencer MatchLexer MatchParser Compat.

(** The printed form of a fingerprint, of github.com/prometheus/common. *)
Class FingerprintString := Fingerprint_String : Z → string.

Module Api.

(** ** The data of the API (api/v2/models) *)
Record OMatcher := mkOMatcher {
  om_Name : string;
  om_Value : string;
  om_IsEqual : option bool;
  om_IsRegex : option bool;
}.

Record OSilence := mkOSilence {
  os_StartsAt : time;
  os_EndsAt : time;
  os_Matchers : list OMatcher;
  os_Comment : string;
  os_CreatedBy : string;
  os_Annotations : option LabelSet;
}.

Record PostableSilence := mkPostableSilence {
  po_ID : string;
  po_Silence : OSilence;
}.

Record GettableSilence := mkGettableSilence {
  gs_ID : string;
  gs_UpdatedAt : time;
  gs_Status : Silence.SilenceState;
  gs_Silence : OSilence;
}.

Record PostableAlert := mkPostableAlert {
  pa_Labels : LabelSet;
  pa_Annotations : LabelSet;
  pa_StartsAt : time;
  pa_EndsAt : time;
  pa_GeneratorURL : string;
}.

Record OAlertStatus := mkOAlertStatus {
  oa_State : Alert.AlertState;
  oa_SilencedBy : list string;
  oa_InhibitedBy : list string;
  oa_MutedBy : list string;
}.

Record GettableAlert := mkGettableAlert {
  ga_Labels : LabelSet;
  ga_GeneratorURL : string;
  ga_Annotations : LabelSet;
  ga_StartsAt : time;
  ga_UpdatedAt : time;
  ga_EndsAt : time;
  ga_Fingerprint : string;
  ga_Receivers : list string;
  ga_Status : OAlertStatus;
}.

Record OAlertGroup := mkOAlertGroup {
  og_Receiver : string;
  og_Labels : LabelSet;
  og_RouteLabels : LabelSet;
  og_Alerts : list GettableAlert;
}.

Record Receiver := mkReceiver {
  rcv_Name : string;
  rcv_Labels : LabelSet;
}.

Inductive api_error :=
| BadMatchers (e : Compat.error)
| BadReceiver
| BadReceiverMatchers (e : Compat.error)
| CtxErr
| MultipleMatcherSets
| UnknownMatcherType
| StartNotBeforeEnd
| EndInPast
| SilenceErr (e : Silence.error)
| InvalidAlerts (es : list Alert.validate_error)
| GroupsErr (e : Groups.groups_error).

(** The status code of a response with its payload. *)
Inductive response (A : Type) :=
| RespOK (a : A)
| RespBadRequest (e : api_error)
| RespNotFound
| RespInternal (e : api_error).
Arguments RespOK {A} a.
Arguments RespBadRequest {A} e.
Arguments RespNotFound {A}.
Arguments RespInternal {A} e.

Section api.
Context `{RE : Regexp, LV : LabelValidation, MR : MapRange, UP : UnicodePrint}.
Context `{PM : PromModel, FP : Fingerprinter, FS : FingerprintString}.
Context `{LS : LabelSetString, RR : RouteLabelRenderer, SC : Silence.SilenceCodec}.
Context (mode : Compat.mode).

(** The parts of the API object that [Update] sets and the handlers read. *)
Record API := mkAPI {
  api_receivers : list Receiver;
  api_resolveTimeout : duration;
  api_config_text : string;
  api_route : Route.route;
}.

(** ** Conversions (compat.go) *)

(** The two label-set conversions copy a map entry by entry. *)
Definition copy_labels (ls : LabelSet) : LabelSet :=
  foldl (λ m x, <[x.1 := x.2]> m) ∅ (range ls).
Definition ModelLabelSetToAPILabelSet := copy_labels.
Definition APILabelSetToModelLabelSet := copy_labels.

Definition gettable_matcher (m : Silence.PbMatcher) : result api_error OMatcher :=
  let matcher e r := Ok (mkOMatcher (Silence.pm_Name m) (Silence.pm_Pattern m) (Some e) (Some r)) in
  match Silence.pm_Type m with
  | Silence.EQUAL => matcher true false
  | Silence.NOT_EQUAL => matcher false false
  | Silence.REGEXP => matcher true true
  | Silence.NOT_REGEXP => matcher false true
  | Silence.UNKNOWN _ => Err UnknownMatcherType
  end.

Fixpoint gettable_matchers (ms : list Silence.PbMatcher) : result api_error (list OMatcher) :=
  match ms with
  | [] => Ok []
  | m :: ms => o ← gettable_matcher m; os ← gettable_matchers ms; Ok (o :: os)
  end.

(** [GettableSilenceFromProto]; [now] is the clock of [CurrentState]. *)
Definition GettableSilenceFromProto (s : Silence.PbSilence) (now : time)
    : result api_error GettableSilence :=
  let start := AsTime (Silence.StartsAt s) in
  let end_ := AsTime (Silence.EndsAt s) in
  let sil ms :=
    mkGettableSilence (Silence.Id s) (AsTime (Silence.UpdatedAt s))
      (Silence.CurrentState start end_ now)
      (mkOSilence start end_ ms (Silence.Comment s) (Silence.CreatedBy s)
         (Some (Silence.Annotations s))) in
  match Silence.MatcherSets s with
  | [] => Ok (sil [])
  | [set] => ms ← gettable_matchers (Silence.ps_Matchers set); Ok (sil ms)
  | _ => Err MultipleMatcherSets
  end.

Definition postable_matcher (m : OMatcher) : Silence.PbMatcher :=
  let isEqual := default true (om_IsEqual m) in
  let isRegex := default false (om_IsRegex m) in
  Silence.mkPbMatcher
    (if isEqual && negb isRegex then Silence.EQUAL
     else if negb isEqual && negb isRegex then Silence.NOT_EQUAL
     else if isEqual && isRegex then Silence.REGEXP
     else Silence.NOT_REGEXP)
    (om_Name m) (om_Value m).

(** [PostableSilenceToProto], which never fails. *)
Definition PostableSilenceToProto (s : PostableSilence) : Silence.PbSilence :=
  let o := po_Silence s in
  Silence.mkPbSilence (po_ID s) [] (timestamppb_New (os_StartsAt o))
    (timestamppb_New (os_EndsAt o)) None [] (os_CreatedBy o) (os_Comment o)
    (default ∅ (os_Annotations o))
    [Silence.mkPbMatcherSet (postable_matcher <$> os_Matchers o)] [].

(** [AlertToOpenAPIAlert]; a nil list is the empty one. *)
Definition AlertToOpenAPIAlert (source : Alert.Alert) (status : Alert.AlertStatus)
    (receivers mutedBy : list string) : GettableAlert :=
  mkGettableAlert (ModelLabelSetToAPILabelSet (Alert.Labels source)) (Alert.GeneratorURL source)
    (ModelLabelSetToAPILabelSet (Alert.Annotations source)) (Alert.StartsAt source)
    (Alert.UpdatedAt source) (Alert.EndsAt source)
    (Fingerprint_String (Store.alert_Fingerprint source)) receivers
    (mkOAlertStatus
       (if (0 <? length mutedBy)%nat then Alert.AlertStateSuppressed else Alert.State status)
       (Alert.SilencedBy status) (Alert.InhibitedBy status) mutedBy).

Definition OpenAPIAlertsToAlerts (apiAlerts : list PostableAlert) : list Alert.Alert :=
  (λ a, Alert.mkAlert (APILabelSetToModelLabelSet (pa_Labels a))
          (APILabelSetToModelLabelSet (pa_Annotations a)) (pa_StartsAt a) (pa_EndsAt a)
          (pa_GeneratorURL a) 0 false) <$> apiAlerts.

(** ** Filters *)
Fixpoint parseFilter (filter : list string) : result Compat.error (list Labels.Matcher) :=
  match filter with
  | [] => Ok []
  | s :: filter =>
      m ← Compat.parseMatcher mode s;
      ms ← parseFilter filter;
      Ok (m :: ms)
  end.

Definition matchesb (m : Labels.Matcher) (v : string) : bool :=
  default false (Labels.Matcher_Matches m v).

(** One round of [matchFilterLabels]: a matcher against the empty value asks
    whether the label is there. *)
Definition match_filter (m : Labels.Matcher) (sms : LabelSet) : bool :=
  let v := label_get sms (Labels.Name m) in
  let prs := bool_decide (is_Some (sms !! Labels.Name m)) in
  match Labels.Type_ m with
  | Labels.MatchNotRegexp | Labels.MatchNotEqual =>
      (bool_decide (Labels.Value m = ""%string) && prs) || matchesb m v
  | _ => (bool_decide (Labels.Value m = ""%string) && negb prs) || matchesb m v
  end.

Fixpoint matchFilterLabels (matchers : list Labels.Matcher) (sms : LabelSet) : bool :=
  match matchers with
  | [] => true
  | m :: matchers => if match_filter m sms then matchFilterLabels matchers sms else false
  end.

Definition alertMatchesFilterLabels (a : Alert.Alert) (matchers : list Labels.Matcher) : bool :=
  matchFilterLabels matchers (copy_labels (Alert.Labels a)).

Definition receiverLabelsMap (api : API) : gmap string LabelSet :=
  foldl (λ m r, <[rcv_Name r := rcv_Labels r]> m) ∅ (api_receivers api).

Definition receiversMatchLabels (receivers : list string) (matchers : list Labels.Matcher)
    (rcvLabels : gmap string LabelSet) : bool :=
  existsb (λ name,
    match rcvLabels !! name with
    | Some lbls => matchFilterLabels matchers lbls
    | None => false
    end) receivers.

Definition removeEmptyLabels (ls : LabelSet) : LabelSet :=
  foldl (λ m x, if bool_decide (x.2 = ""%string) then delete x.1 m else m) ls (range ls).

(** [parseFilter] and the compilation of the receiver expression that the
    handlers for alerts and groups start with. *)
Definition compile_receiver (receiver : option string) : result api_error (option regex) :=
  match receiver with
  | None => Ok None
  | Some r =>
      match Compile ("^(?:" +:+ r +:+ ")$") with
      | Some re => Ok (Some re)
      | None => Err BadReceiver
      end
  end.

Definition lift_error {A} (f : Compat.error → api_error) (r : result Compat.error A)
    : result api_error A :=
  match r with Ok a => Ok a | Err e => Err (f e) end.

(** ** Alerts *)
Section status.
Context {St : Type}.
Context (setAlertStatus : St → gmap Z Marker.alertStatus → LabelSet → St * gmap Z Marker.alertStatus).

Record alert_params := mkAlertParams {
  ap_Filter : list string;
  ap_Receiver : option string;
  ap_ReceiverMatchers : list string;
  ap_Silenced : bool;
  ap_Inhibited : bool;
  ap_Active : bool;
}.

(** The decision of [alertFilter] on a status. *)
Definition status_passes (p : alert_params) (status : Alert.AlertStatus) : bool :=
  if negb (ap_Active p) && bool_decide (Alert.State status = Alert.AlertStateActive) then false
  else if negb (ap_Silenced p) && negb (bool_decide (length (Alert.SilencedBy status) = O)) then false
  else if negb (ap_Inhibited p) && negb (bool_decide (length (Alert.InhibitedBy status) = O)) then false
  else true.

(** The function [alertFilter] returns, on the marker it writes to. *)
Definition alertFilter (matchers : list Labels.Matcher) (p : alert_params)
    (st : St) (predict : gmap Z Marker.alertStatus) (a : Alert.Alert) (now : time)
    : St * gmap Z Marker.alertStatus * bool :=
  if negb (IsZero (Alert.EndsAt a)) && Before (Alert.EndsAt a) now then (st, predict, false) else
  if negb (alertMatchesFilterLabels a matchers) then (st, predict, false) else
  let '(st, predict) := setAlertStatus st predict (Alert.Labels a) in
  (st, predict, status_passes p (Marker.Status predict (Store.alert_Fingerprint a))).

(** The same with a fresh marker per alert. *)
Definition alertFilter_fresh (matchers : list Labels.Matcher) (p : alert_params)
    (st : St) (a : Alert.Alert) (now : time) : St * bool :=
  let '(st, _, ok) := alertFilter matchers p st Marker.NewAlertMarker a now in (st, ok).

Definition predictAlertStatus (st : St) (a : Alert.Alert) : St * Alert.AlertStatus :=
  let '(st, m) := setAlertStatus st Marker.NewAlertMarker (Alert.Labels a) in
  (st, Marker.Status m (Store.alert_Fingerprint a)).

(** The receivers of the routes an alert matches. *)
Definition match_receivers (root : Route.route) (lset : LabelSet) : list string :=
  omap (λ pos, (λ r, Route.Receiver (Route.Opts r)) <$> Route.node_at root pos)
    (Route.Match root lset).

Definition receiver_passes (receiverFilter : option regex) (receiverMatchers : list Labels.Matcher)
    (rcvLabels : gmap string LabelSet) (receivers : list string) : bool :=
  match receiverFilter with
  | Some re => existsb (MatchString re) receivers
  | None => true
  end &&
  ((length receiverMatchers =? 0)%nat || receiversMatchLabels receivers receiverMatchers rcvLabels).

(** The loop of [getAlertsHandler]; [canceled] tells whether the request had
    ended when an alert was looked at. *)
Fixpoint get_alerts_loop (api : API) (matchers receiverMatchers : list Labels.Matcher)
    (receiverFilter : option regex) (p : alert_params) (now : time)
    (canceled : Alert.Alert → bool) (alerts : list Alert.Alert)
    (st : St) (tempMarker : gmap Z Marker.alertStatus) : St * result api_error (list GettableAlert) :=
  match alerts with
  | [] => (st, Ok [])
  | a :: alerts =>
      if canceled a then (st, Err CtxErr) else
      let receivers := match_receivers (api_route api) (Alert.Labels a) in
      if negb (receiver_passes receiverFilter receiverMatchers (receiverLabelsMap api) receivers)
      then get_alerts_loop api matchers receiverMatchers receiverFilter p now canceled alerts st tempMarker
      else
        let '(st, tempMarker, ok) := alertFilter matchers p st tempMarker a now in
        if negb ok
        then get_alerts_loop api matchers receiverMatchers receiverFilter p now canceled alerts st tempMarker
        else
          let openAlert :=
            AlertToOpenAPIAlert a (Marker.Status tempMarker (Store.alert_Fingerprint a)) receivers [] in
          let '(st, res) :=
            get_alerts_loop api matchers receiverMatchers receiverFilter p now canceled alerts st tempMarker in
          (st, res ← res; Ok (openAlert :: res))
  end.

Definition fingerprint_le (x y : GettableAlert) : Prop :=
  String.ltb (ga_Fingerprint y) (ga_Fingerprint x) = false.
#[global] Instance fingerprint_le_dec x y : Decision (fingerprint_le x y).
Proof. unfold fingerprint_le. apply _. Defined.

(** The three parameters that are parsed before anything is read. *)
Definition parse_params (p : alert_params)
    : result api_error (list Labels.Matcher * option regex * list Labels.Matcher) :=
  matchers ← lift_error BadMatchers (parseFilter (ap_Filter p));
  receiverFilter ← compile_receiver (ap_Receiver p);
  receiverMatchers ← lift_error BadReceiverMatchers (parseFilter (ap_ReceiverMatchers p));
  Ok (matchers, receiverFilter, receiverMatchers).

Definition getAlertsHandler (api : API) (alerts : Provider.Alerts) (p : alert_params) (st : St)
    (now : time) (canceled : Alert.Alert → bool) : St * response (list GettableAlert) :=
  match parse_params p with
  | Err e => (st, RespBadRequest e)
  | Ok (matchers, receiverFilter, receiverMatchers) =>
      match get_alerts_loop api matchers receiverMatchers receiverFilter p now canceled
              (Store.List_ (Provider.p_store alerts)) st Marker.NewAlertMarker with
      | (st, Err e) => (st, RespInternal e)
      | (st, Ok res) => (st, RespOK (merge_sort fingerprint_le res))
      end
  end.

(** ** Groups *)
Definition route_filter (receiverFilter : option regex) (receiverMatchers : list Labels.Matcher)
    (rcvLabels : gmap string LabelSet) (r : Route.route) : bool :=
  let receiver := Route.Receiver (Route.Opts r) in
  match receiverFilter with
  | Some re => MatchString re receiver
  | None => true
  end &&
  ((length receiverMatchers =? 0)%nat ||
   match rcvLabels !! receiver with
   | Some lbls => matchFilterLabels receiverMatchers lbls
   | None => false
   end).

(** The inner loop over the alerts of a group. *)
Fixpoint show_alerts (allReceivers : gmap Z (list string)) (mutedBy : list string)
    (alerts : list Alert.Alert) (st : St) : St * list GettableAlert :=
  match alerts with
  | [] => (st, [])
  | a :: alerts =>
      let receivers := default [] (allReceivers !! Store.alert_Fingerprint a) in
      let '(st, status) := predictAlertStatus st a in
      let '(st, l) := show_alerts allReceivers mutedBy alerts st in
      (st, AlertToOpenAPIAlert a status receivers mutedBy :: l)
  end.

Fixpoint show_groups (muted : bool) (groupMarker : gmap (string * string) (list string))
    (allReceivers : gmap Z (list string)) (groups : list Groups.AlertGroup) (st : St)
    : St * list OAlertGroup :=
  match groups with
  | [] => (st, [])
  | g :: groups =>
      let '(mutedBy, isMuted) := Marker.Muted groupMarker (Groups.ag_RouteID g) (Groups.ag_GroupKey g) in
      if negb muted && isMuted then show_groups muted groupMarker allReceivers groups st else
      let '(st, alerts) := show_alerts allReceivers mutedBy (Groups.ag_Alerts g) st in
      let ag := mkOAlertGroup (Groups.ag_Receiver g) (ModelLabelSetToAPILabelSet (Groups.ag_Labels g))
                  (ModelLabelSetToAPILabelSet (Groups.ag_RouteLabels g)) alerts in
      let '(st, res) := show_groups muted groupMarker allReceivers groups st in
      (st, ag :: res)
  end.

Definition getAlertGroupsHandler (api : API) (d : Dispatch.Dispatcher)
    (groupMarker : gmap (string * string) (list string)) (p : alert_params) (muted : bool)
    (st : St) (loaded : bool) (now : time)
    : Dispatch.Dispatcher * St * response (list OAlertGroup) :=
  match parse_params p with
  | Err e => (d, st, RespBadRequest e)
  | Ok (matchers, receiverFilter, receiverMatchers) =>
      match Groups.Groups_ (route_filter receiverFilter receiverMatchers (receiverLabelsMap api))
              (alertFilter_fresh matchers p) d st loaded now with
      | Err e => (d, st, RespInternal (GroupsErr e))
      | Ok (d, st, alertGroups, allReceivers) =>
          let '(st, res) := show_groups muted groupMarker allReceivers alertGroups st in
          (d, st, RespOK res)
      end
  end.
End status.

(** What app/reloader.go installs: the inhibitor, then the silencer; the clock
    readings of the two are arguments. *)
Definition reloader_setAlertStatus (rules : list Inhibit.InhibitRule) (s : Silence.Silences)
    (now_i now_s : time) (c : gmap Z Silencer.cacheEntry) (m : gmap Z Marker.alertStatus)
    (lset : LabelSet) : gmap Z Silencer.cacheEntry * gmap Z Marker.alertStatus :=
  let m := Marker.SetInhibited m (Fingerprint lset)
             (match Inhibit.Mutes rules lset now_i with
              | Some fp => [Fingerprint_String fp]
              | None => []
              end) in
  let r := Silencer.Mutes c s now_s lset in
  (Silencer.mr_cache r, Silencer.Mutes_mark m r lset).

(** One round of the first loop of [postAlertsHandler]. *)
Definition fill_times (now : time) (resolveTimeout : duration) (a : Alert.Alert) : Alert.Alert :=
  let a := Alert.set_UpdatedAt now a in
  let a := if IsZero (Alert.StartsAt a) then
             Alert.set_StartsAt (if IsZero (Alert.EndsAt a) then now else Alert.EndsAt a) a
           else a in
  if IsZero (Alert.EndsAt a) then Alert.set_EndsAt (now + resolveTimeout) (Alert.set_Timeout true a)
  else a.

Definition set_Labels (ls : LabelSet) (a : Alert.Alert) : Alert.Alert :=
  Alert.mkAlert ls (Alert.Annotations a) (Alert.StartsAt a) (Alert.EndsAt a) (Alert.GeneratorURL a)
    (Alert.UpdatedAt a) (Alert.Timeout a).

(** The second loop: the valid alerts and the errors of the others. *)
Fixpoint validate_alerts (alerts : list Alert.Alert) : list Alert.Alert * list Alert.validate_error :=
  match alerts with
  | [] => ([], [])
  | a :: alerts =>
      let a := set_Labels (removeEmptyLabels (Alert.Labels a)) a in
      let '(valid, errs) := validate_alerts alerts in
      match Alert.Validate a with
      | Some e => (valid, e :: errs)
      | None => (a :: valid, errs)
      end
  end.

(** [postAlertsHandler]; [env] is what [Put] depends on besides an alert.  The
    in-memory provider's [Put] does not fail. *)
Definition postAlertsHandler (api : API) (alerts : Provider.Alerts) (posted : list PostableAlert)
    (now : time) (env : Alert.Alert → Provider.put_env) : Provider.Alerts * response unit :=
  let l := fill_times now (api_resolveTimeout api) <$> OpenAPIAlertsToAlerts posted in
  let '(validAlerts, validationErrs) := validate_alerts l in
  let alerts := Provider.Put alerts ((λ a, (a, env a)) <$> validAlerts) in
  (alerts,
   match validationErrs with
   | [] => RespOK ()
   | _ => RespBadRequest (InvalidAlerts validationErrs)
   end).

(** ** Silences *)
Definition matcher_type_eqb (t : Labels.MatchType) (pt : Silence.MatcherType) : bool :=
  match t, pt with
  | Labels.MatchEqual, Silence.EQUAL | Labels.MatchRegexp, Silence.REGEXP
  | Labels.MatchNotEqual, Silence.NOT_EQUAL | Labels.MatchNotRegexp, Silence.NOT_REGEXP => true
  | _, _ => false
  end.

Definition checkMatcherSetMatchesFilterLabels (ms : Silence.PbMatcherSet)
    (matchers : list Labels.Matcher) : bool :=
  forallb (λ matcher,
    existsb (λ m, bool_decide (Labels.Name matcher = Silence.pm_Name m) &&
                  matcher_type_eqb (Labels.Type_ matcher) (Silence.pm_Type m) &&
                  bool_decide (Labels.Value matcher = Silence.pm_Pattern m))
      (Silence.ps_Matchers ms)) matchers.

Definition CheckSilenceMatchesFilterLabels (s : Silence.PbSilence) (matchers : list Labels.Matcher)
    : bool :=
  existsb (λ ms, checkMatcherSetMatchesFilterLabels ms matchers) (Silence.MatcherSets s).

Definition silenceStateOrder (st : Silence.SilenceState) : Z :=
  match st with
  | Silence.SilenceStateActive => 1
  | Silence.SilenceStatePending => 2
  | Silence.SilenceStateExpired => 3
  end.

(** The comparison of [SortSilences]. *)
Definition silence_less (x y : GettableSilence) : bool :=
  if bool_decide (gs_Status x ≠ gs_Status y)
  then silenceStateOrder (gs_Status x) <? silenceStateOrder (gs_Status y)
  else
    match gs_Status x with
    | Silence.SilenceStateActive => Before (os_EndsAt (gs_Silence x)) (os_EndsAt (gs_Silence y))
    | Silence.SilenceStatePending => Before (os_StartsAt (gs_Silence x)) (os_StartsAt (gs_Silence y))
    | Silence.SilenceStateExpired => After (os_EndsAt (gs_Silence x)) (os_EndsAt (gs_Silence y))
    end.

Definition silence_le (x y : GettableSilence) : Prop := silence_less y x = false.
#[global] Instance silence_le_dec x y : Decision (silence_le x y).
Proof. unfold silence_le. apply _. Defined.

Definition SortSilences (sils : list GettableSilence) : list GettableSilence :=
  merge_sort silence_le sils.

Record silence_params := mkSilenceParams {
  sp_Filter : list string;
  sp_Active : bool;
  sp_Expired : bool;
  sp_Pending : bool;
}.

Definition wanted_states (p : silence_params) : list Silence.SilenceState :=
  (if sp_Active p then [Silence.SilenceStateActive] else []) ++
  (if sp_Expired p then [Silence.SilenceStateExpired] else []) ++
  (if sp_Pending p then [Silence.SilenceStatePending] else []).

(** The loop over the silences found; [at_] is the clock of each conversion. *)
Fixpoint get_silences_loop (matchers : list Labels.Matcher) (at_ : Silence.PbSilence → time)
    (psils : list Silence.PbSilence) : result api_error (list GettableSilence) :=
  match psils with
  | [] => Ok []
  | ps :: psils =>
      if negb (CheckSilenceMatchesFilterLabels ps matchers)
      then get_silences_loop matchers at_ psils
      else
        sil ← GettableSilenceFromProto ps (at_ ps);
        sils ← get_silences_loop matchers at_ psils;
        Ok (sil :: sils)
  end.

Definition getSilencesHandler (s : Silence.Silences) (p : silence_params) (now : time)
    (at_ : Silence.PbSilence → time) : response (list GettableSilence) :=
  match parseFilter (sp_Filter p) with
  | Err e => RespBadRequest (BadMatchers e)
  | Ok matchers =>
      match (Silence.Query s [Silence.QState (wanted_states p)] now).1 with
      | Err e => RespInternal (SilenceErr e)
      | Ok psils =>
          match get_silences_loop matchers at_ psils with
          | Err e => RespInternal e
          | Ok sils => RespOK (SortSilences sils)
          end
      end
  end.

Definition getSilenceHandler (s : Silence.Silences) (id : string) (now now_state : time)
    : response GettableSilence :=
  match (Silence.Query s [Silence.QIDs [id]] now).1 with
  | Err e => RespInternal (SilenceErr e)
  | Ok [] => RespNotFound
  | Ok (sil :: _) =>
      match GettableSilenceFromProto sil now_state with
      | Err e => RespInternal e
      | Ok g => RespOK g
      end
  end.

Definition deleteSilenceHandler (s : Silence.Silences) (id : string) (now : time)
    : Silence.Silences * response unit :=
  match Silence.Expire s id now with
  | (s, None) => (s, RespOK ())
  | (s, Some Silence.ErrNotFound) => (s, RespNotFound)
  | (s, Some e) => (s, RespInternal (SilenceErr e))
  end.

(** [errors.Is(err, ErrNotFound)], through the wrapping of [Set]. *)
Fixpoint is_not_found (e : Silence.error) : bool :=
  match e with
  | Silence.ErrNotFound => true
  | Silence.ErrExpirePrevious e => is_not_found e
  | _ => false
  end.

(** [postSilencesHandler]; the payload is the id of the silence. *)
Definition postSilencesHandler (s : Silence.Silences) (posted : PostableSilence)
    (now_check now now_prev now_expire : time) (uid : option string)
    : Silence.Silences * response string :=
  let sil := PostableSilenceToProto posted in
  let start := AsTime (Silence.StartsAt sil) in
  let end_ := AsTime (Silence.EndsAt sil) in
  if After start end_ || (start =? end_) then (s, RespBadRequest StartNotBeforeEnd) else
  if Before end_ now_check then (s, RespBadRequest EndInPast) else
  match Silence.Set_ s sil now now_prev now_expire uid with
  | (s, sil, None) => (s, RespOK (Silence.Id sil))
  | (s, _, Some e) =>
      (s, if is_not_found e then RespNotFound else RespBadRequest (SilenceErr e))
  end.

(** ** Receivers, status and reload *)
Definition configReceiverToAPIReceiver (r : Receiver) : Receiver :=
  mkReceiver (rcv_Name r) (copy_labels (rcv_Labels r)).

Definition getReceiversHandler (api : API) (receiver_matchers : list string)
    : response (list Receiver) :=
  match parseFilter receiver_matchers with
  | Err e => RespBadRequest (BadReceiverMatchers e)
  | Ok receiverMatchers =>
      RespOK (configReceiverToAPIReceiver <$>
        List.filter (λ r, (length receiverMatchers =? 0)%nat ||
                          matchFilterLabels receiverMatchers (rcv_Labels r)) (api_receivers api))
  end.

Record ClusterPeer := mkClusterPeer {
  cp_Name : string;
  cp_Status : string;
  cp_Peers : list (string * string);
}.

Record Status := mkStatusResponse {
  sr_Original : string;
  sr_Uptime : time;
  sr_ClusterName : string;
  sr_ClusterStatus : string;
  sr_Peers : list (string * string);
}.

Definition peer_le (x y : string * string) : Prop := String.ltb y.1 x.1 = false.
#[global] Instance peer_le_dec x y : Decision (peer_le x y).
Proof. unfold peer_le. apply _. Defined.

(** [getStatusHandler]; the build constants are left out. *)
Definition getStatusHandler (api : API) (uptime : time) (peer : option ClusterPeer) : Status :=
  match peer with
  | None => mkStatusResponse (api_config_text api) uptime ""%string "disabled"%string []
  | Some peer =>
      mkStatusResponse (api_config_text api) uptime (cp_Name peer) (cp_Status peer)
        (merge_sort peer_le (cp_Peers peer))
  end.

(** [Update]; [None] is the panic of [NewRoute]. *)
Definition Update (receivers : list Receiver) (resolveTimeout : duration) (text : string)
    (cr : Route.config_route) : option API :=
  route ← Route.NewRoute cr None; Some (mkAPI receivers resolveTimeout text route).
End api.
End Api.
