(* ===== verification/ApiInv.v ===== *)
(** * Properties of the API: alerts, silences and filters

    What the API accepts is well-formed, silences are shown as they were posted,
    deleted and stored, and its label filters mean what matchers mean. *)

From Stdlib Require Import Ascii String.
From stdpp Require Import base gmap strings list sorting relations.
From S2P Require Import Prelude Utf8 Labels Lww Silence SilenceInv SilenceOps Alert Nflog Notify.
From S2P Require Import Bucket Store Provider Inhibit Unquote Strconv Route Dispatch Groups Silencer.
From S2P Require Import MatchLexer MatchParser Compat Api.

Import Api.

Module ApiInv.
Section api.
Context `{RE : Regexp, LV : LabelValidation, MR : MapRange, UP : UnicodePrint}.
Context `{PM : PromModel, FP : Fingerprinter, FS : FingerprintString}.
Context `{LS : LabelSetString, RR : RouteLabelRenderer, SC : !Silence.SilenceCodec}.
Context (mode : Compat.mode).

(** ** Copying and cleaning label sets *)
Lemma foldl_copy (es : list (string * string)) : ∀ m : LabelSet,
  NoDup es.*1 →
  ∀ k, foldl (λ m x, <[x.1 := x.2]> m) m es !! k =
    match list_to_map (M := gmap string string) es !! k with Some v => Some v | None => m !! k end.
Proof.
  induction es as [|[k0 v0] es IH]; intros m Hnd k; cbn; [by rewrite lookup_empty|].
  apply NoDup_cons in Hnd as [Hn Hnd]. rewrite IH by done.
  destruct (decide (k = k0)) as [->|Hne].
  - rewrite lookup_insert_eq, (not_elem_of_list_to_map_1 es k0) by done. by rewrite lookup_insert_eq.
  - by rewrite !lookup_insert_ne by done.
Qed.

Lemma copy_labels_id ls : copy_labels ls = ls.
Proof.
  apply map_eq. intros k. unfold copy_labels. rewrite foldl_copy by apply NoDup_fst_range.
  rewrite lookup_empty. rewrite (list_to_map_proper (range ls) (map_to_list ls)).
  - rewrite list_to_map_to_list. by destruct (ls !! k).
  - apply NoDup_fst_range.
  - apply range_perm.
Qed.

Lemma removeEmptyLabels_lookup ls k :
  removeEmptyLabels ls !! k = (if decide (ls !! k = Some ""%string) then None else ls !! k).
Proof.
  unfold removeEmptyLabels.
  assert (H : ∀ es (m : LabelSet), foldl (λ m x, if bool_decide (x.2 = ""%string) then delete x.1 m else m)
    m es !! k = (if decide ((k, ""%string) ∈ es) then None else m !! k)).
  { induction es as [|[k0 v0] es IH]; intros m; cbn [foldl].
    - rewrite decide_False; [done|apply not_elem_of_nil].
    - rewrite IH. cbn [fst snd]. destruct (decide ((k, ""%string) ∈ es)) as [Hin|Hnin].
      + rewrite decide_True; [done|by right].
      + case_bool_decide as Hv; [subst v0; destruct (decide (k = k0)) as [->|Hne]|].
        * rewrite lookup_delete_eq, decide_True; [done|by left].
        * rewrite lookup_delete_ne, decide_False; [done| |done].
          rewrite not_elem_of_cons. split; [congruence|done].
        * rewrite decide_False; [done|]. rewrite not_elem_of_cons. split; [congruence|done]. }
  rewrite H. destruct (decide (ls !! k = Some ""%string)) as [E|E].
  - rewrite decide_True; [done|]. by apply elem_of_range.
  - rewrite decide_False; [done|]. by rewrite elem_of_range.
Qed.

(** ** Alerts that enter the system *)
Definition no_empty (ls : LabelSet) : Prop := ∀ k v, ls !! k = Some v → v ≠ ""%string.

(** What an alert is like once the API has accepted it. *)
Record good_alert (a : Alert.Alert) : Prop := {
  ga_labels : Alert.Labels a ≠ ∅;
  ga_no_empty : no_empty (Alert.Labels a);
  ga_started : Alert.StartsAt a ≠ 0;
  ga_ended : Alert.EndsAt a ≠ 0;
  ga_order : Alert.StartsAt a ≤ Alert.EndsAt a;
}.

Lemma removeEmptyLabels_no_empty ls : no_empty (removeEmptyLabels ls).
Proof. intros k v. rewrite removeEmptyLabels_lookup. case_decide; [done|]. congruence. Qed.

Lemma fill_times_spec now rt a :
  now + rt ≠ 0 →
  let b := fill_times now rt a in
  Alert.Labels b = Alert.Labels a ∧ Alert.EndsAt b ≠ 0 ∧ Alert.UpdatedAt b = now ∧
  Alert.EndsAt b = (if IsZero (Alert.EndsAt a) then now + rt else Alert.EndsAt a) ∧
  (Alert.StartsAt a ≠ 0 → Alert.StartsAt b = Alert.StartsAt a).
Proof.
  intros Hrt. unfold fill_times, IsZero. cbn.
  destruct (Alert.StartsAt a =? 0) eqn:Es; cbn; destruct (Alert.EndsAt a =? 0) eqn:Ee; cbn;
    rewrite ?Ee; cbn; split_and!; try done; lia.
Qed.

Lemma validate_alerts_spec l :
  let '(valid, errs) := validate_alerts l in
  Forall (λ b, ∃ a, a ∈ l ∧ b = set_Labels (removeEmptyLabels (Alert.Labels a)) a ∧
    Alert.Validate b = None) valid ∧
  (length valid + length errs = length l)%nat.
Proof.
  induction l as [|a l IH]; cbn; [by split|].
  destruct (validate_alerts l) as [valid errs]. destruct IH as [IH Hlen].
  assert (IH' : Forall (λ b, ∃ a0, a0 ∈ a :: l ∧
    b = set_Labels (removeEmptyLabels (Alert.Labels a0)) a0 ∧ Alert.Validate b = None) valid).
  { eapply Forall_impl; [done|]. intros b (a0 & Hin & ?). exists a0. split; [by right|done]. }
  destruct (Alert.Validate _) eqn:E; cbn; split; [done|lia| |lia].
  constructor; [|done]. exists a. split; [by left|done].
Qed.

Lemma Validate_None a :
  Alert.Validate a = None →
  Alert.StartsAt a ≠ 0 ∧ Alert.Labels a ≠ ∅ ∧
  (Alert.EndsAt a ≠ 0 → Alert.StartsAt a ≤ Alert.EndsAt a).
Proof.
  unfold Alert.Validate, IsZero. destruct (Z.eqb_spec (Alert.StartsAt a) 0); [done|].
  destruct (Z.eqb_spec (Alert.EndsAt a) 0) as [E|E]; cbn;
    destruct (Before_spec (Alert.EndsAt a) (Alert.StartsAt a)); try done;
    case_bool_decide; try done; repeat split; (done || lia).
Qed.

(** Everything the handler puts into the provider is well-formed. *)
Lemma posted_good api posted now :
  now + api_resolveTimeout api ≠ 0 →
  Forall good_alert
    (validate_alerts (fill_times now (api_resolveTimeout api) <$> OpenAPIAlertsToAlerts posted)).1.
Proof.
  intros Hrt. pose proof (validate_alerts_spec
    (fill_times now (api_resolveTimeout api) <$> OpenAPIAlertsToAlerts posted)) as H.
  destruct (validate_alerts _) as [valid errs]. destruct H as [H _]. cbn.
  eapply Forall_impl; [done|]. intros b (a & Ha & -> & Hv). clear H.
  apply list_elem_of_fmap in Ha as (a0 & -> & _).
  destruct (fill_times_spec now (api_resolveTimeout api) a0 Hrt) as (Hl & He & _).
  apply Validate_None in Hv as (Hs & Hne & Ho). cbn in *.
  split; cbn; [done|apply removeEmptyLabels_no_empty|done|done|by apply Ho].
Qed.

Lemma merge_younger_good a o t1 t2 : good_alert a → good_alert o → good_alert (Alert.merge_younger a o t1 t2).
Proof.
  intros Ha Ho. destruct (Alert.merge_younger_fields a o t1 t2) as (El & _ & _ & _ & _ & Es).
  assert (Ee : Alert.EndsAt (Alert.merge_younger a o t1 t2) = Alert.EndsAt o ∨
    Alert.EndsAt (Alert.merge_younger a o t1 t2) = Alert.EndsAt a).
  { unfold Alert.merge_younger. repeat case_match; cbn; auto. }
  destruct Ha as [La Na Sa Ea Oa], Ho as [Lo No So Eo Oo].
  split; rewrite ?El, ?Es; [done|done|lia|destruct Ee; lia|destruct Ee; lia].
Qed.

Lemma merged_good old a env : good_alert old → good_alert a → good_alert (Provider.merged old a env).
Proof.
  intros Ho Ha. unfold Provider.merged. case_match; [|done]. unfold Alert.Merge.
  case_match; by apply merge_younger_good.
Qed.

(** The well-formed states of the provider. *)
Record good_provider (p : Provider.Alerts) : Prop := {
  gp_filed : Provider.filed (Provider.p_store p);
  gp_stored : ∀ fp a, Store.alerts (Provider.p_store p) !! fp = Some a → good_alert a;
  gp_sent : ∀ i l, Provider.listeners p !! i = Some l → Forall good_alert (Provider.l_alerts l);
}.

Lemma send_good env b l i :
  good_alert b → Forall good_alert (Provider.l_alerts l) →
  Forall good_alert (Provider.l_alerts (Provider.send (Provider.pe_choice env i) b l)).
Proof.
  intros Hb Hl. unfold Provider.send. case_match; [done|]. cbn. apply Forall_app.
  split; [done|by apply Forall_singleton].
Qed.

Lemma put_one_good p a env : good_alert a → good_provider p → good_provider (Provider.put_one p a env).
Proof.
  intros Ha [Hf Hs Hl].
  destruct (Provider.put_one_cases p a env Hf) as [[Ea El]|(b & Hb & Ea & El & Hab)].
  { split; unfold Provider.filed; rewrite ?Ea, ?El; done. }
  assert (Hgood : good_alert b).
  { destruct Hab as [->|(old & Hold & ->)]; [done|]. apply merged_good; eauto. }
  split; unfold Provider.filed; rewrite ?Ea, ?El.
  - intros fp x [[<- <-]|[_ ?]]%lookup_insert_Some; [done|]. by apply Hf.
  - intros fp x [[<- <-]|[_ ?]]%lookup_insert_Some; eauto.
  - intros i l. unfold Provider.send_all. rewrite map_lookup_imap.
    destruct (Provider.listeners p !! i) as [l'|] eqn:E; [|done]. cbn. intros [= <-].
    apply send_good; eauto.
Qed.

Lemma Put_good l : ∀ p, Forall (λ x, good_alert x.1) l → good_provider p → good_provider (Provider.Put p l).
Proof.
  induction l as [|x l IH]; intros p Hl Hp; cbn; [done|]. apply Forall_cons_1 in Hl as [Hx Hl].
  apply IH; [done|]. by apply put_one_good.
Qed.

(** The provider with the API in front of it: alerts come in through
    [postAlertsHandler] only. *)
Inductive pstep (api : API) : relation Provider.Alerts :=
| pstep_post p posted now env :
    0 < now + api_resolveTimeout api →
    pstep api p (postAlertsHandler api p posted now env).1
| pstep_slurp p name : pstep api p (Provider.SlurpAndSubscribe p name).2
| pstep_subscribe p name : pstep api p (Provider.Subscribe p name)
| pstep_close p i : pstep api p (Provider.Close_iterator p i)
| pstep_gc p at_ now : pstep api p (Provider.gc p at_ now).

Lemma postAlerts_good api p posted now env :
  0 < now + api_resolveTimeout api → good_provider p →
  good_provider (postAlertsHandler api p posted now env).1.
Proof.
  intros Hrt Hp. unfold postAlertsHandler.
  pose proof (posted_good api posted now ltac:(lia)) as Hg.
  destruct (validate_alerts _) as [valid errs]. cbn in *. apply Put_good; [|done].
  apply Forall_fmap. eapply Forall_impl; [done|]. done.
Qed.

Lemma pstep_good api p p' : pstep api p p' → good_provider p → good_provider p'.
Proof.
  intros Hs Hp. destruct Hs as [p posted now env Hrt|p name|p name|p i|p at_ now].
  - by apply postAlerts_good.
  - destruct Hp as [Hf Hst Hl]. split; [done|done|]. cbn.
    intros i l [[<- <-]|[_ ?]]%lookup_insert_Some; [constructor|eauto].
  - destruct Hp as [Hf Hst Hl]. split; [done|done|]. cbn.
    intros i l [[<- <-]|[_ ?]]%lookup_insert_Some; [|eauto]. cbn. unfold Store.List_.
    apply Forall_forall. intros a ([fp b] & -> & Hin%elem_of_range)%list_elem_of_fmap. eauto.
  - destruct Hp as [Hf Hst Hl]. split; [done|done|]. cbn. intros j l Hj.
    destruct (decide (i = j)) as [<-|Hne].
    + rewrite lookup_alter_eq in Hj. destruct (Provider.listeners p !! i) eqn:E; simplify_eq/=. eauto.
    + rewrite lookup_alter_ne in Hj by done. eauto.
  - destruct Hp as [Hf Hst Hl]. destruct (Provider.gc_fields p at_ now) as (Ea & El & _).
    split; unfold Provider.filed; rewrite ?Ea, ?El.
    + intros fp a Ha%Provider.GC_subset. by apply Hf.
    + intros fp a Ha%Provider.GC_subset. eauto.
    + intros i l [? _]%map_lookup_filter_Some. eauto.
Qed.

(** C11: every alert in the system is well-formed: whatever is posted, in whatever
    order with subscriptions and garbage collection, each alert the provider
    stores and each alert a subscriber is sent has labels, no label with an
    empty value, a start and an end, and does not end before it starts; merging
    two versions of an alert keeps this. *)
Theorem api_alerts_well_formed api limit p :
  rtc (pstep api) (Provider.NewAlerts limit) p →
  (∀ fp a, Store.alerts (Provider.p_store p) !! fp = Some a →
     Store.alert_Fingerprint a = fp ∧ good_alert a) ∧
  (∀ i l, Provider.listeners p !! i = Some l → Forall good_alert (Provider.l_alerts l)).
Proof.
  intros Hr. assert (Hp : good_provider p).
  { assert (H0 : good_provider (Provider.NewAlerts limit)) by (split; intros ??; cbn; by rewrite ?lookup_empty).
    revert H0. induction Hr; eauto using pstep_good. }
  destruct Hp as [Hf Hs Hl]. split; [|done]. intros fp a Ha. split; [by apply Hf|eauto].
Qed.

(** The answer of the handler: accepted completely, or with the errors of the
    alerts that were left out. *)
Theorem post_alerts_response api p posted now env :
  let '(p', resp) := postAlertsHandler api p posted now env in
  ∃ valid errs,
    p' = Provider.Put p ((λ a, (a, env a)) <$> valid) ∧
    (length valid + length errs = length posted)%nat ∧
    resp = (match errs with [] => RespOK () | _ => RespBadRequest (InvalidAlerts errs) end).
Proof.
  unfold postAlertsHandler. pose proof (validate_alerts_spec
    (fill_times now (api_resolveTimeout api) <$> OpenAPIAlertsToAlerts posted)) as H.
  destruct (validate_alerts _) as [valid errs]. destruct H as [_ H].
  exists valid, errs. split_and!; [done| |done]. rewrite H. unfold OpenAPIAlertsToAlerts. by rewrite !length_fmap.
Qed.

(** ** Silences *)
Lemma Query_one s id now :
  (Silence.Query s [Silence.QIDs [id]] now).1 =
    Ok (match Silence.st s !! id with Some m => [Silence.Silence m] | None => [] end).
Proof. unfold Silence.Query. cbn. by destruct (Silence.st s !! id). Qed.

(** The flags a posted matcher stands for. *)
Definition explicit (m : OMatcher) : OMatcher :=
  mkOMatcher (om_Name m) (om_Value m) (Some (default true (om_IsEqual m)))
    (Some (default false (om_IsRegex m))).

Lemma gettable_postable ms : gettable_matchers (postable_matcher <$> ms) = Ok (explicit <$> ms).
Proof.
  induction ms as [|m ms IH]; [done|]. cbn [fmap list_fmap gettable_matchers]. rewrite IH.
  destruct m as [n v [[]|] [[]|]]; done.
Qed.

(** The silence that is stored for a posted one. *)
Definition created (p : PostableSilence) (uid : string) (now : time) : Silence.PbSilence :=
  let o := po_Silence p in
  Silence.mkPbSilence uid [] (Some (Z.max (os_StartsAt o) now)) (Some (os_EndsAt o)) (Some now) []
    (os_CreatedBy o) (os_Comment o) (default ∅ (os_Annotations o))
    [Silence.mkPbMatcherSet (postable_matcher <$> os_Matchers o)] [].

Lemma stamp_created p uid now :
  0 < now →
  Silence.stamp_new (SilenceOps.accepted (PostableSilenceToProto p) now) uid now = created p uid now.
Proof.
  intros Hnow. unfold SilenceOps.accepted, PostableSilenceToProto, created.
  unfold Silence.nil_or_zero, IsZero, Silence.stamp_new, Silence.postprocessUnmarshalledSilence.
  destruct (po_Silence p) as [start end_ ms c by_ an].
  cbn [os_StartsAt os_EndsAt os_Matchers os_Comment os_CreatedBy os_Annotations
       Silence.StartsAt timestamppb_New].
  destruct (Z.eqb_spec start 0) as [->|Hs]; cbn; unfold Before.
  - rewrite Z.ltb_irrefl, Z.max_r by lia. done.
  - destruct (Z.ltb_spec start now); [rewrite Z.max_r by lia|rewrite Z.max_l by lia]; done.
Qed.

(** A successful post without an id stores [created]. *)
Lemma post_stores s p t0 now now1 now2 uid s' id :
  0 < now → po_ID p = ""%string → (∀ u, uid = Some u → Silence.st s !! u = None) →
  Silence.st s !! ""%string = None →
  now ≤ os_EndsAt (po_Silence p) + Silence.retention s →
  postSilencesHandler s p t0 now now1 now2 uid = (s', RespOK id) →
  uid = Some id ∧
  Silence.st s' = <[id := Silence.mkMeshSilence (created p id now)
    (Some (os_EndsAt (po_Silence p) + Silence.retention s))]> (Silence.st s).
Proof.
  intros Hnow Hid Hfresh Hempty Hexp. unfold postSilencesHandler.
  destruct (After _ _ || _); [done|]. destruct (Before _ t0); [done|].
  destruct (Silence.Set_ _ _ _ _ _ _) as [[s1 sil] [e|]] eqn:Hset.
  { by destruct (is_not_found e). }
  intros [= <- <-]. destruct uid as [u|].
  2: { apply SilenceOps.Set_success in Hset as [_ Hset]. unfold Silence.getSilence in Hset.
       cbn [Silence.Id PostableSilenceToProto] in Hset. rewrite Hid, Hempty in Hset.
       destruct Hset as [(q & ? & _)|Hc]; [done|]. unfold Silence.Set_create in Hc.
       by destruct (Silence.too_many s). }
  pose proof Hset as Hset'. apply SilenceOps.set_stores_new_silence in Hset as (Hi & _ & _ & _ & Hst & _).
  - apply SilenceOps.Set_success in Hset' as [_ Hset']. unfold Silence.getSilence in Hset'.
    cbn [Silence.Id PostableSilenceToProto] in Hset'. rewrite Hid, Hempty in Hset'.
    destruct Hset' as [(q & ? & _)|Hc]; [done|].
    apply SilenceOps.Set_create_success in Hc as (s2 & r & s3 & _ & _ & _ & Hsil & _).
    rewrite stamp_created in Hsil by done. rewrite Hst, Hi. split; [done|]. f_equal.
    cbn [PostableSilenceToProto Silence.EndsAt AsTime timestamppb_New default]. f_equal.
    rewrite Hsil. unfold Silence.after_merge. by case_match.
  - unfold Silence.getSilence. cbn. by rewrite Hid, Hempty.
  - by apply Hfresh.
  - done.
Qed.

(** C27: a new silence, posted without an id, is shown as it was posted: when the
    API answers with an id, asking for that id shows the posted matchers with their
    flags made explicit, the comment, the author, the annotations and the end; the
    start is the posted one unless that has passed, then it is the moment of
    creation; and no other silence changes.  The generated id is one that is not
    stored, nothing is stored under the empty id, and the end plus the retention
    has not passed at the moment of creation.  A post with an id changes or replaces the
    silence of that id and is not covered. *)
Theorem silence_post_get_roundtrip s p t0 now now1 now2 uid s' id t1 t2 :
  0 < now → po_ID p = ""%string → (∀ u, uid = Some u → Silence.st s !! u = None) →
  Silence.st s !! ""%string = None →
  now ≤ os_EndsAt (po_Silence p) + Silence.retention s →
  postSilencesHandler s p t0 now now1 now2 uid = (s', RespOK id) →
  let o := po_Silence p in
  let start := Z.max (os_StartsAt o) now in
  getSilenceHandler s' id t1 t2 =
    RespOK (mkGettableSilence id now (Silence.CurrentState start (os_EndsAt o) t2)
      (mkOSilence start (os_EndsAt o) (explicit <$> os_Matchers o) (os_Comment o) (os_CreatedBy o)
         (Some (default ∅ (os_Annotations o))))) ∧
  ∀ id', id' ≠ id → Silence.st s' !! id' = Silence.st s !! id'.
Proof.
  intros Hnow Hid Hfresh Hempty Hexp Hpost. cbn zeta.
  destruct (post_stores _ _ _ _ _ _ _ _ _ Hnow Hid Hfresh Hempty Hexp Hpost) as [_ Hst]. split.
  - unfold getSilenceHandler. rewrite Query_one, Hst, lookup_insert_eq.
    cbn [Silence.Silence]. unfold GettableSilenceFromProto, created. cbn [Silence.MatcherSets Silence.ps_Matchers].
    rewrite gettable_postable. done.
  - intros id' Hne. by rewrite Hst, lookup_insert_ne.
Qed.

(** A silence the API can show. *)
Lemma getSilence_shown s id t1 t2 g :
  getSilenceHandler s id t1 t2 = RespOK g ↔
    ∃ m, Silence.st s !! id = Some m ∧ GettableSilenceFromProto (Silence.Silence m) t2 = Ok g.
Proof.
  unfold getSilenceHandler. rewrite Query_one. destruct (Silence.st s !! id) as [m|].
  - destruct (GettableSilenceFromProto _ _) as [g0|e] eqn:E; split.
    + intros [= <-]. eauto.
    + intros (m' & [= <-] & Hm). rewrite E in Hm. by injection Hm as ->.
    + done.
    + intros (m' & [= <-] & Hm). by rewrite E in Hm.
  - split; [done|]. by intros (m & ? & _).
Qed.

Lemma gettable_ok sil t g :
  GettableSilenceFromProto sil t = Ok g →
  gs_Status g = Silence.CurrentState (AsTime (Silence.StartsAt sil)) (AsTime (Silence.EndsAt sil)) t ∧
  gs_ID g = Silence.Id sil ∧
  ∀ sil' t', Silence.MatcherSets sil' = Silence.MatcherSets sil →
    ∃ g', GettableSilenceFromProto sil' t' = Ok g' ∧
      os_Matchers (gs_Silence g') = os_Matchers (gs_Silence g).
Proof.
  unfold GettableSilenceFromProto. destruct (Silence.MatcherSets sil) as [|set [|]] eqn:E; [| |done].
  - intros [= <-]. split_and!; [done..|]. intros sil' t' ->. by eexists.
  - destruct (gettable_matchers _) as [ms|] eqn:Em; cbn; [|done]. intros [= <-].
    split_and!; [done..|]. intros sil' t' ->. rewrite Em. by eexists.
Qed.

Lemma expired_shown sil t :
  Silence.getState sil t = Silence.SilenceStateExpired →
  Silence.CurrentState (AsTime (Silence.StartsAt sil)) (AsTime (Silence.EndsAt sil)) t
    = Silence.SilenceStateExpired.
Proof.
  unfold Silence.getState, Silence.CurrentState, Before, After.
  destruct (Z.ltb_spec t (AsTime (Silence.StartsAt sil))); [done|].
  destruct (Z.ltb_spec (AsTime (Silence.EndsAt sil)) t); [|done].
  by rewrite (proj2 (Z.ltb_ge _ _)) by lia.
Qed.

(** deleting a silence through the API ends it for good: the request is
    answered with not found exactly when there is no such silence, and after a
    successful answer the API shows the silence at every later moment as
    expired, with its matchers, while other silences are as they were (clock
    ahead of the last update, retention not negative). *)
Theorem delete_silence_effective s id now s' resp m g t t0 :
  SilenceInv.wf s → 0 ≤ Silence.retention s →
  Silence.st s !! id = Some m → AsTime (Silence.UpdatedAt (Silence.Silence m)) < now →
  getSilenceHandler s id t t0 = RespOK g →
  deleteSilenceHandler s id now = (s', resp) → resp = RespOK () →
  (∀ t1 t2, now < t2 → ∃ g', getSilenceHandler s' id t1 t2 = RespOK g' ∧
     gs_Status g' = Silence.SilenceStateExpired ∧
     os_Matchers (gs_Silence g') = os_Matchers (gs_Silence g)) ∧
  (∀ id' t1, id' ≠ id → getSilenceHandler s' id' t1 t1 = getSilenceHandler s id' t1 t1) ∧
  (∀ id', (deleteSilenceHandler s id' now).2 = RespNotFound ↔ Silence.st s !! id' = None).
Proof.
  intros Hwf Hret Hm Hup Hg Hdel ->. apply getSilence_shown in Hg as (m0 & Hm0 & Hg).
  rewrite Hm in Hm0. injection Hm0 as <-. unfold deleteSilenceHandler, Silence.Expire in *.
  destruct (Silence.expire s id now) as [s1 [e|]] eqn:He; [by destruct e|].
  injection Hdel as <-. eapply SilenceOps.expire_spec in He as [(m' & Hm' & Hms & Hex) Hoth]; [|done..].
  split_and!.
  - intros t1 t2 Ht. destruct (gettable_ok _ _ _ Hg) as (_ & _ & Hshow).
    destruct (Hshow (Silence.Silence m') t2 Hms) as (g' & Hg' & Hmg).
    exists g'. split; [apply getSilence_shown; eauto|]. split; [|done].
    destruct (gettable_ok _ _ _ Hg') as (-> & _). by apply expired_shown, Hex.
  - intros id' t1 Hne. unfold getSilenceHandler. rewrite !Query_one. by rewrite Hoth.
  - intros id'. unfold Silence.expire, Silence.getSilence.
    destruct (Silence.st s !! id') as [m1|] eqn:E; cbn; [|done]. split; [|done].
    destruct (Silence.getState _ _); cbn; [done| |];
      unfold Silence.setSilence, Silence.marshalMeshSilence;
      destruct (Silence.MarshalTo _); cbn; try done;
      destruct (Silence.merge _ _ _) as [[]]; done.
Qed.

(** ** Listing silences *)
Definition listed (s : Silence.Silences) : list Silence.PbSilence :=
  omap (λ sv, Silence.Silence <$> Silence.st s !! Silence.sv_id sv) (Silence.vi s).

Lemma Query_state s states now :
  SilenceInv.wf s →
  (Silence.Query s [Silence.QState states] now).1 =
    Ok (List.filter (λ sil, bool_decide (Silence.getState sil now ∈ states)) (listed s)).
Proof.
  intros Hwf. unfold Silence.Query, listed. cbn.
  assert (Hall : Forall (λ sv, is_Some (Silence.st s !! Silence.sv_id sv)) (Silence.vi s)).
  { apply Forall_forall. apply (SilenceInv.wf_vi_st s Hwf). }
  revert Hall. induction (Silence.vi s) as [|sv svs IH]; intros Hall; [done|].
  apply Forall_cons_1 in Hall as [[m Hm] Hall]. cbn. rewrite Hm. cbn.
  rewrite (IH Hall). by destruct (bool_decide (Silence.getState _ _ ∈ states)).
Qed.

Definition selected (p : silence_params) (matchers : list Labels.Matcher) (now : time)
    (sil : Silence.PbSilence) : bool :=
  bool_decide (Silence.getState sil now ∈ wanted_states p) &&
  CheckSilenceMatchesFilterLabels sil matchers.

Lemma get_silences_loop_spec matchers at_ psils :
  match get_silences_loop matchers at_ psils with
  | Ok l => Forall2 (λ sil g, GettableSilenceFromProto sil (at_ sil) = Ok g)
              (List.filter (λ sil, CheckSilenceMatchesFilterLabels sil matchers) psils) l
  | Err e => ∃ sil, sil ∈ psils ∧ CheckSilenceMatchesFilterLabels sil matchers = true ∧
              GettableSilenceFromProto sil (at_ sil) = Err e
  end.
Proof.
  induction psils as [|sil psils IH]; cbn; [constructor|].
  destruct (CheckSilenceMatchesFilterLabels sil matchers) eqn:E; cbn.
  - destruct (GettableSilenceFromProto sil (at_ sil)) as [g|e] eqn:Eg; cbn.
    + destruct (get_silences_loop _ _ psils); cbn; [by constructor|].
      destruct IH as (x & Hx & ?). exists x. split; [by right|done].
    + exists sil. split; [by left|done].
  - destruct (get_silences_loop _ _ psils); [done|].
    destruct IH as (x & Hx & ?). exists x. split; [by right|done].
Qed.

(** The order of the listing is a total preorder. *)
#[global] Instance silence_le_total : Total silence_le.
Proof.
  intros x y. unfold silence_le, silence_less, Before, After.
  repeat case_bool_decide; try congruence;
    destruct (gs_Status x) eqn:Ex, (gs_Status y) eqn:Ey; cbn; try congruence; lia.
Qed.

#[global] Instance silence_le_trans : Transitive silence_le.
Proof.
  intros x y z. unfold silence_le, silence_less, Before, After.
  repeat case_bool_decide; try congruence;
    destruct (gs_Status x) eqn:Ex, (gs_Status y) eqn:Ey, (gs_Status z) eqn:Ez; cbn;
    try congruence; lia.
Qed.

(** the silences a listing shows are exactly the indexed ones in a wanted state
    that have all the matchers of the filter, each converted, active ones first,
    then pending and expired ones, each part by its own date; and it fails only
    when one of these cannot be represented. *)
Theorem get_silences_exact s p matchers now at_ :
  SilenceInv.wf s → parseFilter mode (sp_Filter p) = Ok matchers →
  let sel := List.filter (selected p matchers now) (listed s) in
  match getSilencesHandler mode s p now at_ with
  | RespOK l => StronglySorted silence_le l ∧ ∃ l0, l ≡ₚ l0 ∧
      Forall2 (λ sil g, GettableSilenceFromProto sil (at_ sil) = Ok g) sel l0
  | RespInternal e => ∃ sil, sil ∈ sel ∧ GettableSilenceFromProto sil (at_ sil) = Err e
  | _ => False
  end.
Proof.
  intros Hwf Hp. cbn zeta. unfold getSilencesHandler. rewrite Hp, Query_state by done.
  pose proof (get_silences_loop_spec matchers at_
    (List.filter (λ sil, bool_decide (Silence.getState sil now ∈ wanted_states p)) (listed s))) as H.
  destruct (get_silences_loop _ _ _) as [l|e].
  - split; [apply StronglySorted_merge_sort; apply _|]. exists l.
    split; [apply merge_sort_Permutation|]. unfold selected.
    by rewrite filter_filter_bool in H.
  - destruct H as (sil & Hin & Hc & He). exists sil. split; [|done].
    apply list_elem_of_In, filter_In. apply list_elem_of_In, filter_In in Hin as [Hin Hs].
    split; [done|]. unfold selected. by rewrite Hs, Hc.
Qed.

(** ** Filters *)
Section filters.
(** The expression of an empty pattern matches the empty string only. *)
Hypothesis empty_pattern : ∀ r, Compile "^(?:)$" = Some r →
  ∀ v, MatchString r v = bool_decide (v = ""%string).

Lemma match_filter_spec m ls :
  Labels.wf_matcher m → no_empty ls →
  match_filter m ls = Api.matchesb m (label_get ls (Labels.Name m)).
Proof using empty_pattern.
  unfold Labels.wf_matcher, Labels.NewMatcher, match_filter, Api.matchesb, label_get.
  intros Hm Hne. destruct m as [t n v r]. cbn in *.
  case_bool_decide as Hv; [|by destruct t]. subst v.
  assert (Hw : ∀ w, ls !! n = Some w → bool_decide (w = ""%string) = false).
  { intros w Hw. apply bool_decide_eq_false. by apply (Hne n). }
  destruct t; cbn in *; [| |destruct (Compile _) as [r0|] eqn:Hc; [|done]; simplify_eq/=..];
    destruct (ls !! n) as [w|] eqn:E; cbn; try done.
  - symmetry. apply bool_decide_eq_true. by apply (Hne n).
  - by rewrite (empty_pattern _ eq_refl).
  - by rewrite (empty_pattern _ eq_refl), (Hw _ eq_refl).
Qed.

(** the label filters of the API mean what matchers mean everywhere else: on
    labels without empty values, which is what the API lets in, a filter accepts
    a label set exactly when all of its matchers match it, a missing label
    counting as an empty one; the separate treatment of empty patterns changes
    nothing. *)
Theorem api_filter_is_matching ms ls :
  Forall Labels.wf_matcher ms → no_empty ls →
  matchFilterLabels ms ls = Labels.matchesb ms ls.
Proof using empty_pattern.
  intros Hms Hne. induction Hms as [|m ms Hm _ IH]; [done|]. cbn.
  rewrite match_filter_spec, IH by done. unfold Api.matchesb, Labels.matchesb. cbn.
  destruct (Labels.Matcher_Matches_wf m (label_get ls (Labels.Name m)) Hm) as [b ->]. cbn.
  by destruct b.
Qed.
End filters.
End api.
End ApiInv.
