(* ===== verification/ApiStatus.v ===== *)
(** * The alerts the API shows

    The handlers for alerts and alert groups run inhibitor and silencer for
    every alert they show.  Here they are composed with the silencer's cache,
    the store of silences, the inhibition rules, the routing tree and the
    dispatcher: what a client sees is exactly what the stores say. *)

From Stdlib Require Import Ascii String.
From stdpp Require Import base gmap strings list sorting relations.
From S2P Require Import Prelude Utf8 Labels Lww Silence SilenceInv SilenceOps Alert Nflog Notify.
From S2P Require Import Bucket Store Provider Inhibit Unquote Strconv Route Dispatch Groups Silencer.
From S2P Require Import MatchLexer MatchParser Compat Api ApiInv.

Import Api.

Module ApiStatus.
Section status.
Context `{RE : Regexp, LV : LabelValidation, SC : !Silence.SilenceCodec, MR : MapRange}.
Context `{FP : Fingerprinter, UP : UnicodePrint, PM : PromModel, FS : FingerprintString}.
Context `{LS : LabelSetString, RR : RouteLabelRenderer}.
Context (mode : Compat.mode).

(** The discipline of the silencer's theorem: what the matchers of an id are,
    and label sets with different fingerprints. *)
Context (sets_of : string → list Silence.PbMatcherSet) (matchers_of : string → Labels.MatcherSet).
Context (U : LabelSet → Prop).
Hypothesis compiled : ∀ id, Silence.compile_sets (sets_of id) = Ok (matchers_of id).
Hypothesis collision_free : ∀ l1 l2, U l1 → U l2 → Fingerprint l1 = Fingerprint l2 → l1 = l2.

Context (s : Silence.Silences) (rules : list Inhibit.InhibitRule) (now : time).

(** The ids of silences that gossip has revived; none of them silences an alert
    that is shown. *)
Context (R : gset string).
Hypothesis no_revived : ∀ id lset, id ∈ R → U lset → ¬ SilencerInv.silenced_by s now lset id.

(** The inhibition rules have run on label sets with different fingerprints. *)
Context (UI : LabelSet → Prop).
Hypothesis equal_collision_free : Inhibit.U_ok UI.
Hypothesis rules_ran : ∀ lset, U lset → Inhibit.rules_ok UI rules lset.

(** ** What the stores say about a label set *)
Definition silencedb (lset : LabelSet) : bool :=
  existsb (λ x : string * Silence.MeshSilence,
    bool_decide (Silence.getState (Silence.Silence x.2) now = Silence.SilenceStateActive) &&
    match Silence.compile_sets (Silence.MatcherSets (Silence.Silence x.2)) with
    | Ok ms => Labels.matches_setb ms lset
    | Err _ => false
    end) (map_to_list (Silence.st s)).

Definition inhibiting (lset : LabelSet) : list string :=
  match Inhibit.Mutes rules lset now with
  | Some fp => [Fingerprint_String fp]
  | None => []
  end.

Lemma silencedb_spec lset :
  silencedb lset = true ↔ ∃ id, SilencerInv.silenced_by s now lset id.
Proof.
  unfold silencedb, SilencerInv.silenced_by. rewrite existsb_exists. split.
  - intros ([id m] & Hin%list_elem_of_In%elem_of_map_to_list & [Ha%bool_decide_eq_true Hm]%andb_true_iff).
    cbn in *. destruct (Silence.compile_sets _) as [ms|] eqn:Hc; [|done].
    exists id, m, ms. split_and!; [done..|]. apply Labels.matches_setb_spec; [|done].
    by eapply SilencerInv.compile_sets_wf.
  - intros (id & m & ms & Hm & Ha & Hc & Hsat). exists (id, m).
    split; [by apply list_elem_of_In, elem_of_map_to_list|]. cbn. rewrite Hc.
    apply andb_true_iff. split; [by apply bool_decide_eq_true|].
    apply Labels.matches_setb_spec; [|done]. by eapply SilencerInv.compile_sets_wf.
Qed.

(** The status of an alert: who silences and inhibits it, and its state. *)
Record status_ok (lset : LabelSet) (st : Alert.AlertStatus) : Prop := {
  so_silenced : ∀ id, id ∈ Alert.SilencedBy st ↔ SilencerInv.silenced_by s now lset id;
  so_inhibited : Alert.InhibitedBy st = inhibiting lset;
  so_inhibits : ∀ x, x ∈ Alert.InhibitedBy st → ∃ r fp a, r ∈ rules ∧ x = Fingerprint_String fp ∧
    Store.alerts (Inhibit.scache r) !! fp = Some a ∧ Inhibit.inhibits r a lset now;
  so_state : Alert.State st =
    if silencedb lset || negb (bool_decide (inhibiting lset = []))
    then Alert.AlertStateSuppressed else Alert.AlertStateActive;
}.

Abbreviation cache_good c := (SilencerInv.winv sets_of matchers_of U (SilencerInv.mkWorld s c now R)).
Abbreviation set_status := (reloader_setAlertStatus rules s now now).

Lemma silenced_nonempty lset (l : list string) :
  (∀ id, id ∈ l ↔ SilencerInv.silenced_by s now lset id) → silencedb lset = bool_decide (l ≠ []).
Proof.
  intros Hl. apply Bool.eq_iff_eq_true. rewrite silencedb_spec, bool_decide_eq_true. split.
  - intros [id Hid%Hl] ->. by apply elem_of_nil in Hid.
  - destruct l as [|id l]; [done|]. intros _. exists id. apply Hl. by left.
Qed.

Lemma inhibiting_sound lset x :
  Inhibit.rules_ok UI rules lset → x ∈ inhibiting lset →
  ∃ r fp a, r ∈ rules ∧ x = Fingerprint_String fp ∧
    Store.alerts (Inhibit.scache r) !! fp = Some a ∧ Inhibit.inhibits r a lset now.
Proof using equal_collision_free.
  unfold inhibiting. intros Hr Hx. destruct (Inhibit.Mutes rules lset now) as [fp|] eqn:Hm.
  - apply list_elem_of_singleton in Hx as ->.
    destruct (Inhibit.Mutes_sound UI rules lset now fp equal_collision_free Hr Hm) as (r & a & ? & ?).
    by exists r, fp, a.
  - by apply elem_of_nil in Hx.
Qed.

Lemma set_status_spec c m lset c' m' :
  cache_good c → U lset → set_status c m lset = (c', m') →
  cache_good c' ∧ status_ok lset (Marker.Status m' (Fingerprint lset)).
Proof using collision_free compiled no_revived equal_collision_free rules_ran.
  intros [Hi Hc] HU E. cbn in Hi, Hc. unfold reloader_setAlertStatus in E. injection E as <- <-.
  destruct (SilencerInv.Mutes_spec _ _ _ compiled collision_free R s c now lset Hi Hc HU)
    as (Hsound & Hall & _ & Hc'). split; [by split|].
  setoid_rewrite (SilencerInv.hits_silenced_by _ _ compiled s now lset) in Hsound; [|done].
  setoid_rewrite (SilencerInv.hits_silenced_by _ _ compiled s now lset) in Hall; [|done].
  unfold Silencer.Mutes_mark, Marker.SetSilenced, Marker.SetInhibited, Marker.Status, Marker.find_status.
  rewrite !lookup_insert_eq. cbn [default Marker.s_InhibitedBy Marker.s_SilencedBy].
  set (marked := Silencer.mr_marked _) in *.
  assert (Hmark : ∀ id, id ∈ marked ↔ SilencerInv.silenced_by s now lset id).
  { intros id. split; [apply Hsound|]. intros Hid. apply Hall; [|done].
    intros HR. by apply (no_revived id lset). }
  pose proof (silenced_nonempty lset marked Hmark) as Hne.
  split; cbn; [done|done|intros x; apply inhibiting_sound; by apply rules_ran|]. unfold Marker.state. cbn. rewrite Hne. fold (inhibiting lset).
  by destruct (inhibiting lset), marked.
Qed.

(** ** Which alerts are shown *)
Definition visible (matchers : list Labels.Matcher) (p : alert_params) (a : Alert.Alert) : bool :=
  let lset := Alert.Labels a in
  let inhibited := negb (bool_decide (inhibiting lset = [])) in
  (IsZero (Alert.EndsAt a) || negb (Before (Alert.EndsAt a) now)) &&
  matchFilterLabels matchers lset &&
  (ap_Active p || silencedb lset || inhibited) &&
  (ap_Silenced p || negb (silencedb lset)) &&
  (ap_Inhibited p || negb inhibited).

Lemma status_passes_spec p lset st :
  status_ok lset st →
  status_passes p st =
    (ap_Active p || silencedb lset || negb (bool_decide (inhibiting lset = []))) &&
    (ap_Silenced p || negb (silencedb lset)) &&
    (ap_Inhibited p || negb (negb (bool_decide (inhibiting lset = [])))).
Proof.
  intros [Hs Hinh _ Hst]. unfold status_passes. rewrite Hst, Hinh.
  rewrite (silenced_nonempty lset _ Hs).
  destruct (Alert.SilencedBy st), (inhibiting lset), (ap_Active p), (ap_Silenced p), (ap_Inhibited p);
    reflexivity.
Qed.

Lemma alertFilter_spec matchers p c m a :
  cache_good c → U (Alert.Labels a) →
  let '(c', m', ok) := alertFilter set_status matchers p c m a now in
  cache_good c' ∧ ok = visible matchers p a ∧
  (ok = true → status_ok (Alert.Labels a) (Marker.Status m' (Store.alert_Fingerprint a))).
Proof using collision_free compiled no_revived equal_collision_free rules_ran.
  intros Hc HU. unfold alertFilter, visible, alertMatchesFilterLabels. rewrite ApiInv.copy_labels_id.
  destruct (IsZero (Alert.EndsAt a)), (Before (Alert.EndsAt a) now); cbn [negb andb orb]; try done;
  (destruct (matchFilterLabels matchers (Alert.Labels a)); cbn [negb andb]; [|done];
   destruct (set_status c m (Alert.Labels a)) as [c' m'] eqn:E;
   destruct (set_status_spec _ _ _ _ _ Hc HU E) as [Hc' Hok];
   split_and!; [done|by apply (status_passes_spec p)|done]).
Qed.

(** ** getAlertsHandler *)
Definition shows (api : API) (a : Alert.Alert) (g : GettableAlert) : Prop :=
  ∃ status, status_ok (Alert.Labels a) status ∧
    g = AlertToOpenAPIAlert a status (match_receivers (api_route api) (Alert.Labels a)) [].

Lemma get_alerts_loop_spec api matchers receiverMatchers receiverFilter p alerts : ∀ c m,
  cache_good c → Forall (λ a, U (Alert.Labels a)) alerts →
  ∃ c' l,
    get_alerts_loop set_status api matchers receiverMatchers receiverFilter p now (λ _, false)
      alerts c m = (c', Ok l) ∧ cache_good c' ∧
    Forall2 (shows api)
      (List.filter (λ a, receiver_passes receiverFilter receiverMatchers (receiverLabelsMap api)
                           (match_receivers (api_route api) (Alert.Labels a)) &&
                         visible matchers p a) alerts) l.
Proof using collision_free compiled no_revived equal_collision_free rules_ran.
  induction alerts as [|a alerts IH]; intros c m Hc HU; cbn; [by exists c, []|].
  apply Forall_cons_1 in HU as [Ha HU].
  destruct (receiver_passes _ _ _ _); cbn [negb andb]; [|by apply IH].
  pose proof (alertFilter_spec matchers p c m a Hc Ha) as Hf.
  destruct (alertFilter _ _ _ _ _ _ _) as [[c1 m1] ok]. destruct Hf as (Hc1 & -> & Hok).
  destruct (visible matchers p a); cbn [negb]; [|by apply IH].
  destruct (IH c1 m1 Hc1 HU) as (c' & l & -> & Hc' & Hl). cbn. eexists c', (_ :: l).
  split_and!; [done|done|]. constructor; [|done]. eexists. split; [by apply Hok|done].
Qed.

(** C7: the alerts the API lists are exactly the stored ones that have not ended,
    match the label filter, go to a receiver that was asked for and have a
    wanted status; each is shown with the receivers of the routes it matches and
    with its status: the ids of exactly the active silences that match it, the
    source alert the inhibitor answers with, which is a cached, unresolved alert
    that inhibits it by one of the rules, and suppressed exactly when there is one
    of either.  The silencer answers from its cache, in any state it can reach
    (from an empty store or a snapshot) where the matchers of an id compile and
    never change, the label sets have different fingerprints, and no silence that
    gossip has revived after it had expired silences one of the alerts. *)
Theorem get_alerts_exact ret lim w0 c api alerts p matchers rf rms :
  SilencerInv.starts sets_of ret lim w0 →
  rtc (SilencerInv.wstep sets_of U) w0 (SilencerInv.mkWorld s c now R) →
  (∀ fp a, Store.alerts (Provider.p_store alerts) !! fp = Some a → U (Alert.Labels a)) →
  parse_params mode p = Ok (matchers, rf, rms) →
  ∃ c' l l0,
    getAlertsHandler mode set_status api alerts p c now (λ _, false) = (c', RespOK l) ∧ l ≡ₚ l0 ∧
    Forall2 (shows api)
      (List.filter (λ a, receiver_passes rf rms (receiverLabelsMap api)
                           (match_receivers (api_route api) (Alert.Labels a)) &&
                         visible matchers p a) (Store.List_ (Provider.p_store alerts))) l0.
Proof using collision_free compiled no_revived equal_collision_free rules_ran.
  intros Hw Hr HU Hp. apply (SilencerInv.reachable_winv _ _ _ compiled collision_free _ _ _ _ Hw) in Hr.
  unfold getAlertsHandler. rewrite Hp.
  destruct (get_alerts_loop_spec api matchers rms rf p (Store.List_ (Provider.p_store alerts)) c
    Marker.NewAlertMarker Hr) as (c' & l & -> & _ & Hl).
  { apply Forall_forall. intros a ([fp b] & -> & Hin%elem_of_range)%list_elem_of_fmap. by eapply HU. }
  exists c'. eexists _, l. split_and!; [done| |done]. apply merge_sort_Permutation.
Qed.

(** ** getAlertGroupsHandler *)
Definition shown_in (allReceivers : gmap Z (list string)) (mutedBy : list string)
    (a : Alert.Alert) (g : GettableAlert) : Prop :=
  ∃ status, status_ok (Alert.Labels a) status ∧
    g = AlertToOpenAPIAlert a status (GroupsInv.rget allReceivers (Store.alert_Fingerprint a)) mutedBy.

Definition group_muted (gm : gmap (string * string) (list string)) (g : Groups.AlertGroup)
    : list string * bool := Marker.Muted gm (Groups.ag_RouteID g) (Groups.ag_GroupKey g).

Definition group_shown (gm : gmap (string * string) (list string))
    (allReceivers : gmap Z (list string)) (g : Groups.AlertGroup) (og : OAlertGroup) : Prop :=
  og_Receiver og = Groups.ag_Receiver g ∧ og_Labels og = Groups.ag_Labels g ∧
  og_RouteLabels og = Groups.ag_RouteLabels g ∧
  Forall2 (shown_in allReceivers (group_muted gm g).1) (Groups.ag_Alerts g) (og_Alerts og).

Lemma show_alerts_spec allReceivers mutedBy alerts : ∀ c,
  cache_good c → Forall (λ a, U (Alert.Labels a)) alerts →
  let '(c', l) := show_alerts set_status allReceivers mutedBy alerts c in
  cache_good c' ∧ Forall2 (shown_in allReceivers mutedBy) alerts l.
Proof using collision_free compiled no_revived equal_collision_free rules_ran.
  induction alerts as [|a alerts IH]; intros c Hc HU; cbn [show_alerts]; [by split|].
  apply Forall_cons_1 in HU as [Ha HU]. unfold predictAlertStatus.
  destruct (set_status c Marker.NewAlertMarker (Alert.Labels a)) as [c1 m] eqn:E.
  destruct (set_status_spec _ _ _ _ _ Hc Ha E) as [Hc1 Hok].
  specialize (IH c1 Hc1 HU). destruct (show_alerts _ _ _ alerts c1) as [c2 l].
  destruct IH as [Hc2 Hl]. split; [done|]. constructor; [|done]. eexists. split; [exact Hok|done].
Qed.

Lemma show_groups_spec muted gm allReceivers groups : ∀ c,
  cache_good c → Forall (λ g, Forall (λ a, U (Alert.Labels a)) (Groups.ag_Alerts g)) groups →
  let '(c', l) := show_groups set_status muted gm allReceivers groups c in
  cache_good c' ∧
  Forall2 (group_shown gm allReceivers)
    (List.filter (λ g, muted || negb (group_muted gm g).2) groups) l.
Proof using collision_free compiled no_revived equal_collision_free rules_ran.
  induction groups as [|g groups IH]; intros c Hc HU; cbn [show_groups List.filter]; [by split|].
  apply Forall_cons_1 in HU as [Hg HU]. unfold group_muted at 1.
  destruct (Marker.Muted gm (Groups.ag_RouteID g) (Groups.ag_GroupKey g)) as [mutedBy isMuted] eqn:Em.
  cbn [snd]. destruct (negb muted && isMuted) eqn:Esk.
  { replace (muted || negb isMuted) with false by (by destruct muted, isMuted). by apply IH. }
  replace (muted || negb isMuted) with true by (by destruct muted, isMuted).
  pose proof (show_alerts_spec allReceivers mutedBy (Groups.ag_Alerts g) c Hc Hg) as Ha.
  destruct (show_alerts _ _ _ _ c) as [c1 l]. destruct Ha as [Hc1 Hl].
  specialize (IH c1 Hc1 HU). destruct (show_groups _ _ _ _ groups c1) as [c2 res].
  destruct IH as [Hc2 Hres]. split; [done|]. constructor; [|done].
  unfold group_shown, group_muted, ModelLabelSetToAPILabelSet. rewrite Em. cbn.
  by rewrite !ApiInv.copy_labels_id.
Qed.

Lemma filter_fresh_decides matchers p c a :
  cache_good c → U (Alert.Labels a) →
  cache_good (alertFilter_fresh set_status matchers p c a now).1 ∧
  (alertFilter_fresh set_status matchers p c a now).2 = visible matchers p a.
Proof using collision_free compiled no_revived equal_collision_free rules_ran.
  intros Hc HU. unfold alertFilter_fresh.
  pose proof (alertFilter_spec matchers p c Marker.NewAlertMarker a Hc HU) as H.
  destruct (alertFilter _ _ _ _ _ _ _) as [[c1 m1] ok]. by destruct H as (? & -> & _).
Qed.

Lemma views_alerts rf q d g :
  g ∈ Groups.sort_alerts <$> GroupsInv.views rf q d →
  ∃ addr ag, Dispatch.heap d !! addr = Some ag ∧
    ∀ a, a ∈ Groups.ag_Alerts g → a ∈ Store.List_ (Dispatch.g_alerts ag).
Proof.
  intros (g0 & -> & Hin)%list_elem_of_fmap. unfold GroupsInv.views in Hin. revert Hin.
  generalize O. induction (Dispatch.routeGroupsSlice d) as [|rg slice IH]; intros idx; cbn.
  { by intros ?%elem_of_nil. }
  intros [Hin|Hin]%elem_of_app; [|by eapply IH]. unfold GroupsInv.route_views in Hin.
  destruct (Groups.route_at d idx) as [r|]; [|by apply elem_of_nil in Hin].
  destruct (rf r); [|by apply elem_of_nil in Hin].
  apply list_elem_of_omap in Hin as (addr & _ & Hg).
  destruct (Dispatch.heap d !! addr) as [ag|] eqn:Ha; [|done]. cbn in Hg. exists addr, ag.
  split; [done|]. unfold GroupsInv.group_view in Hg.
  destruct (List.filter q _) as [|x l] eqn:E; [done|]. injection Hg as <-.
  intros a Hin. cbn [Groups.sort_alerts Groups.ag_Alerts] in Hin.
  rewrite merge_sort_Permutation, <- E in Hin. revert Hin. intros Hin%list_elem_of_In.
  apply filter_In in Hin as [Hin _]. by apply list_elem_of_In.
Qed.

(** C21: the alert groups the API shows are exactly the aggregation groups with a
    visible alert on a route that was asked for and, unless muted groups are
    wanted too, whose time intervals do not mute them; every alert in them comes
    with its status, as in the list of alerts and under the same conditions, and
    with the receivers of all the groups on the wanted routes that show it. *)
Theorem get_alert_groups_exact cr root limit sys ret lim w0 c api gm p muted matchers rf rms :
  Route.NewRoute cr None = Some root → rtc Dispatch.step (Dispatch.init root limit) sys →
  SilencerInv.starts sets_of ret lim w0 →
  rtc (SilencerInv.wstep sets_of U) w0 (SilencerInv.mkWorld s c now R) →
  (∀ addr g, Dispatch.heap (Dispatch.sys_d sys) !! addr = Some g →
     Forall (λ a, U (Alert.Labels a)) (Store.List_ (Dispatch.g_alerts g))) →
  parse_params mode p = Ok (matchers, rf, rms) →
  ∃ d' c' res groups receivers,
    getAlertGroupsHandler mode set_status api (Dispatch.sys_d sys) gm p muted c true now
      = (d', c', RespOK res) ∧
    groups ≡ₚ Groups.sort_alerts <$>
      GroupsInv.views (route_filter rf rms (receiverLabelsMap api)) (visible matchers p)
        (Dispatch.sys_d sys) ∧
    (∀ fp, GroupsInv.rget receivers fp ≡ₚ GroupsInv.receivers_of groups fp) ∧
    Forall2 (group_shown gm receivers)
      (List.filter (λ g, muted || negb (group_muted gm g).2) groups) res.
Proof using collision_free compiled no_revived equal_collision_free rules_ran.
  intros Hnew Hsys Hw Hr HU Hp.
  apply (SilencerInv.reachable_winv _ _ _ compiled collision_free _ _ _ _ Hw) in Hr.
  pose proof (GroupsInv.reachable_slotted cr root limit sys Hnew Hsys) as Hsl.
  unfold getAlertGroupsHandler. rewrite Hp.
  destruct (GroupsInv.Groups_spec (route_filter rf rms (receiverLabelsMap api)) now
    (alertFilter_fresh set_status matchers p) (λ c, cache_good c) (λ a, U (Alert.Labels a))
    (visible matchers p) (filter_fresh_decides matchers p) (Dispatch.sys_d sys) c Hr HU Hsl)
    as (d' & c1 & groups & receivers & -> & Hc1 & Hg & Hrec).
  assert (HUg : Forall (λ g, Forall (λ a, U (Alert.Labels a)) (Groups.ag_Alerts g)) groups).
  { apply Forall_forall. intros g Hin. rewrite Hg in Hin.
    apply views_alerts in Hin as (addr & ag & Hag & Hin). apply Forall_forall. intros a Ha%Hin.
    pose proof (HU _ _ Hag) as HUa. rewrite Forall_forall in HUa. by apply HUa. }
  pose proof (show_groups_spec muted gm receivers groups c1 Hc1 HUg) as Hs.
  destruct (show_groups _ _ _ _ groups c1) as [c' res]. destruct Hs as [_ Hs].
  by exists d', c', res, groups, receivers.
Qed.
End status.
End ApiStatus.
