(* ===== verification/ApiExamples.v ===== *)
(** * The API at concrete states

    Requests against small stores, the theorems about the API and the groups at
    them, and two behaviours of the listing of silences. *)

From Stdlib Require Import Ascii String.
From stdpp Require Import base gmap strings list sorting pretty relations.
From S2P Require Import Prelude Utf8 Labels Lww Silence Instances SilenceInv SilenceOps Alert Nflog.
From S2P Require Import Notify Bucket Store Provider Inhibit Unquote Strconv Route Dispatch RouteLabelsCache.
From S2P Require Import Groups DispatchExamples Silencer MatchLexer MatchParser Compat Api ApiInv ApiStatus.

Import Api.

Module ApiExamples.
#[local] Existing Instance DispatchExamples.prom_model.
#[local] Existing Instance DispatchExamples.code_fingerprint.
#[local] Existing Instance DispatchExamples.ascii_print.
#[local] Existing Instance DispatchExamples.plain_string.
#[local] Existing Instance DispatchExamples.plain_renderer.
#[local] Instance pretty_fingerprint : FingerprintString := pretty.

(** A codec that writes nothing: gossip is not part of these runs. *)
#[local] Instance blank_codec : Silence.SilenceCodec := {|
  Silence.MarshalTo _ := Some [];
  Silence.UnmarshalFrom _ := Silence.UnmarshalEOF;
  Silence.proto_Size _ := 1;
|}.

(** ** The route-label cache *)
Definition ex_g : Dispatch.aggrGroup :=
  Dispatch.newAggrGroup {["job"%string := "api"%string]} DispatchExamples.ex_root [0%nat]
    (DispatchExamples.ex_child 0) 10.
Definition ex_stored : Store.Alerts := (Store.Set_ (Dispatch.g_alerts ex_g) (DispatchExamples.api 50 10) 10).1.
Definition ex_changed : Dispatch.aggrGroup := Dispatch.set_g_alerts ex_stored ex_g.

(** An alert is stored and announced, then a reader runs to its end. *)
Definition ex_read (r : RouteLabelsCache.reader) (g : Dispatch.aggrGroup) : RouteLabelsCache.cstate :=
  RouteLabelsCache.mkC g {[0%nat := (1%nat, r)]} 0 [ex_g; ex_changed] [0%nat; 1%nat].
Definition ex_bumped : Dispatch.aggrGroup := Dispatch.invalidateRouteLabels ex_changed.
Definition ex_labels : LabelSet := RouteLabelsCache.render_current ex_bumped.
Definition ex_cached : Dispatch.aggrGroup := Dispatch.set_routeLabels (Some (1, ex_labels)) ex_bumped.

Lemma ex_read_reachable :
  rtc RouteLabelsCache.cstep (RouteLabelsCache.cinit ex_g)
    (ex_read (RouteLabelsCache.RReturn ex_labels) ex_cached).
Proof.
  eapply rtc_l; [apply RouteLabelsCache.cstep_change, (RouteLabelsCache.change_set _
    (DispatchExamples.api 50 10) 10 ex_stored); vm_compute; reflexivity|].
  eapply rtc_l; [apply RouteLabelsCache.cstep_invalidate|].
  eapply rtc_l; [by apply (RouteLabelsCache.cstep_begin _ _ _ _ _ 0)|].
  assert (Hread : ∀ r g r' g', RouteLabelsCache.rstep g r = (g', r') →
    RouteLabelsCache.cstep (ex_read r g) (ex_read r' g')).
  { intros r g r' g' E. unfold ex_read.
    rewrite <- (insert_singleton_eq (M := gmap nat) 0%nat (1%nat, r') (1%nat, r)).
    apply (RouteLabelsCache.cstep_read g _ 0 _ _ 0 1 r g' r'); [apply lookup_singleton_eq|done]. }
  eapply rtc_l; [by apply Hread|]. eapply rtc_l; [by apply Hread|].
  eapply rtc_l; [by apply Hread|]. eapply rtc_once. by apply Hread.
Qed.

Lemma route_labels_never_stale_witness :
  ∃ v gv, (1 ≤ v ≤ 1)%nat ∧ [ex_g; ex_changed] !! v = Some gv ∧
    ex_labels = RouteLabelsCache.render_current gv.
Proof.
  apply (RouteLabelsCache.route_labels_never_stale ex_g
    (ex_read (RouteLabelsCache.RReturn ex_labels) ex_cached) 0 1 ex_labels);
    [reflexivity|reflexivity|apply ex_read_reachable|cbn; lia|reflexivity].
Defined.

(** ** Groups: the dispatcher after one alert was routed to the first child *)
Definition ex_sys : Dispatch.system := DispatchExamples.reach 0 DispatchExamples.ex_created.
Definition ex_d : Dispatch.Dispatcher := Dispatch.sys_d ex_sys.
Definition ex_pass (st : unit) (a : Alert.Alert) (now : time) : unit * bool := (st, true).

Lemma ex_sys_reachable : rtc Dispatch.step (Dispatch.init DispatchExamples.ex_root 0) ex_sys.
Proof. apply (DispatchExamples.reach_steps 0 [] DispatchExamples.ex_created). vm_compute. reflexivity. Qed.

Lemma ex_d_slotted : GroupsInv.slotted ex_d.
Proof. apply (GroupsInv.reachable_slotted _ _ _ _ DispatchExamples.ex_root_new ex_sys_reachable). Qed.

Lemma groups_exact_witness :
  ∃ d' st' groups receivers,
    Groups.Groups_ (λ _, true) ex_pass ex_d tt true 20 = Ok (d', st', groups, receivers) ∧
    groups ≡ₚ Groups.sort_alerts <$> GroupsInv.views (λ _, true) (λ _, true) ex_d.
Proof.
  destruct (GroupsInv.groups_exact (λ _, true) 20 ex_pass (λ _, True) (λ _, True) (λ _, true)
    ltac:(done) ex_d tt I ltac:(intros addr g _; by apply Forall_true) ex_d_slotted)
    as (d' & st' & groups & receivers & E & _ & Hg & _).
  exists d', st', groups, receivers. exact (conj E Hg).
Defined.

Example ex_groups_receivers :
  match Groups.Groups_ (λ _, true) ex_pass ex_d tt true 20 with
  | Ok (_, _, [g], receivers) =>
      Groups.ag_Receiver g = "api"%string ∧ Groups.ag_Alerts g = [DispatchExamples.api 50 10] ∧
      receivers !! DispatchExamples.api_fp = Some ["api"%string]
  | _ => False
  end.
Proof. vm_compute. done. Qed.

(** ** Alerts *)
Definition ex_api : API :=
  mkAPI [mkReceiver "team" ∅; mkReceiver "api" {["tier"%string := "1"%string]}] 300 ""
    DispatchExamples.ex_root.
Definition ex_env (a : Alert.Alert) : Provider.put_env :=
  Provider.mkPutEnv (λ _ _, true) 20 20 20 (λ _, true).

(** One alert with an empty label and no times, one without labels. *)
Definition ex_posted : list PostableAlert :=
  [mkPostableAlert {["job"%string := "api"%string; "zone"%string := ""%string]} ∅ 0 0 ""%string;
   mkPostableAlert ∅ ∅ 0 0 ""%string].
Definition ex_provider : Provider.Alerts :=
  (postAlertsHandler ex_api (Provider.NewAlerts 0) ex_posted 20 ex_env).1.
Definition ex_alert : Alert.Alert :=
  Alert.mkAlert {["job"%string := "api"%string]} ∅ 20 320 ""%string 20 true.

Example ex_post_response :
  (postAlertsHandler ex_api (Provider.NewAlerts 0) ex_posted 20 ex_env).2 =
    RespBadRequest (InvalidAlerts [Alert.NoLabels]) ∧
  Store.alerts (Provider.p_store ex_provider) = {[DispatchExamples.api_fp := ex_alert]}.
Proof. vm_compute. done. Qed.

Lemma api_alerts_well_formed_witness :
  Store.alert_Fingerprint ex_alert = DispatchExamples.api_fp ∧ ApiInv.good_alert ex_alert.
Proof.
  assert (Hr : rtc (ApiInv.pstep ex_api) (Provider.NewAlerts 0) ex_provider).
  { apply rtc_once, ApiInv.pstep_post. cbn. lia. }
  exact (proj1 (ApiInv.api_alerts_well_formed ex_api 0 ex_provider Hr)
    DispatchExamples.api_fp ex_alert ltac:(vm_compute; reflexivity)).
Defined.

(** ** Silences *)
Definition ex_postable (job : string) (starts ends : time) : PostableSilence :=
  mkPostableSilence "" (mkOSilence starts ends [mkOMatcher "job" job None None] "maintenance" "ops" None).
Definition ex_new : Silence.Silences := Silence.New_Silences 10 no_limits.
Definition ex_one : Silence.Silences :=
  (postSilencesHandler ex_new (ex_postable "api" 5 100) 10 10 10 10 (Some "a"%string)).1.

Lemma ex_posted_a :
  postSilencesHandler ex_new (ex_postable "api" 5 100) 10 10 10 10 (Some "a"%string)
    = (ex_one, RespOK "a"%string).
Proof. vm_compute. reflexivity. Qed.

Definition ex_shown (state : Silence.SilenceState) (ends updated : time) : GettableSilence :=
  mkGettableSilence "a" updated state
    (mkOSilence 10 ends [mkOMatcher "job" "api" (Some true) (Some false)] "maintenance" "ops" (Some ∅)).

Lemma silence_post_get_roundtrip_witness :
  getSilenceHandler ex_one "a" 30 30 = RespOK (ex_shown Silence.SilenceStateActive 100 10) ∧
  ∀ id', id' ≠ "a"%string → Silence.st ex_one !! id' = Silence.st ex_new !! id'.
Proof.
  apply (ApiInv.silence_post_get_roundtrip ex_new (ex_postable "api" 5 100) 10 10 10 10
    (Some "a"%string) ex_one "a" 30 30);
    [lia|reflexivity|by intros|reflexivity|cbn; lia|exact ex_posted_a].
Defined.

Lemma ex_one_wf : SilenceInv.wf ex_one.
Proof.
  apply (SilenceInv.reachable_wf 10 no_limits). eapply rtc_once.
  exact (SilenceInv.step_Set ex_new (PostableSilenceToProto (ex_postable "api" 5 100)) 10 10 10
    (Some "a"%string)).
Qed.

Definition ex_deleted : Silence.Silences := (deleteSilenceHandler ex_one "a" 50).1.

Lemma delete_silence_effective_witness :
  ∃ g', getSilenceHandler ex_deleted "a" 60 60 = RespOK g' ∧
    gs_Status g' = Silence.SilenceStateExpired ∧
    os_Matchers (gs_Silence g') = [mkOMatcher "job" "api" (Some true) (Some false)].
Proof.
  refine (proj1 (ApiInv.delete_silence_effective ex_one "a" 50 ex_deleted (RespOK ())
    (default (Silence.mkMeshSilence (PostableSilenceToProto (ex_postable "api" 5 100)) None)
       (Silence.st ex_one !! "a"%string))
    (ex_shown Silence.SilenceStateActive 100 10) 30 30 ex_one_wf _ _ _ _ _ eq_refl) 60 60 _);
    vm_compute; done.
Defined.

Definition ex_list_params (filter : list string) : silence_params := mkSilenceParams filter true true true.
Definition ex_filter : list Labels.Matcher := [Labels.mkMatcher Labels.MatchEqual "job" "api" None].

Lemma get_silences_exact_witness :
  ∃ l, getSilencesHandler Compat.UTF8StrictMode ex_one (ex_list_params ["job=api"%string]) 30 (λ _, 30)
         = RespOK l ∧ StronglySorted silence_le l.
Proof.
  pose proof (ApiInv.get_silences_exact Compat.UTF8StrictMode ex_one (ex_list_params ["job=api"%string])
    ex_filter 30 (λ _, 30) ex_one_wf ltac:(vm_compute; reflexivity)) as H.
  cbn zeta in H. destruct (getSilencesHandler _ _ _ _ _) as [l|e| |e]; [|done|done|].
  - exists l. exact (conj eq_refl (proj1 H)).
  - exfalso. destruct H as (sil & Hin & He). revert Hin He. vm_compute.
    intros Hin. apply list_elem_of_singleton in Hin as ->. done.
Defined.

(** Expressions without operators that match the whole string only. *)
Definition whole_regexp : Regexp := {|
  regex := string;
  Compile p := Some p;
  MatchString r v := bool_decide (r = "^(?:" +:+ v +:+ ")$");
|}.

Lemma whole_empty_pattern (v : string) :
  bool_decide ("^(?:)$"%string = "^(?:" +:+ v +:+ ")$") = bool_decide (v = ""%string).
Proof.
  apply bool_decide_ext. split; [|by intros ->]. intros E. cbn in E. injection E as E.
  apply (f_equal (λ x, length (bytes x))) in E. rewrite !bytes_app, !length_app in E.
  destruct v as [|c v]; [done|]. change (length (bytes ")$")) with 2%nat in E.
  change (length (bytes "")) with 0%nat in E.
  change (length (bytes (String c v))) with (S (length (bytes v))) in E. lia.
Qed.

Lemma api_filter_is_matching_witness :
  let filter := [Labels.mkMatcher (RE := whole_regexp) Labels.MatchRegexp "job" "" (Some "^(?:)$"%string)] in
  matchFilterLabels (RE := whole_regexp) filter {["job"%string := "api"%string]} =
    Labels.matchesb (RE := whole_regexp) filter {["job"%string := "api"%string]}.
Proof.
  refine (ApiInv.api_filter_is_matching (RE := whole_regexp) _ _ _ _ _).
  - intros r [= <-] v. apply whole_empty_pattern.
  - repeat constructor.
  - intros k v [<- <-]%lookup_singleton_Some. done.
Defined.

(** ** Alerts with their status *)
Definition job_api : LabelSet := {["job"%string := "api"%string]}.
Definition job_sets (id : string) : list Silence.PbMatcherSet :=
  [Silence.mkPbMatcherSet [Silence.mkPbMatcher Silence.EQUAL "job" "api"]].
Definition job_matchers (id : string) : Labels.MatcherSet := [ex_filter].
Definition only_api (l : LabelSet) : Prop := l = job_api.

Lemma api_compiled id : Silence.compile_sets (job_sets id) = Ok (job_matchers id).
Proof. reflexivity. Qed.

Lemma api_collision_free l1 l2 :
  only_api l1 → only_api l2 → Fingerprint l1 = Fingerprint l2 → l1 = l2.
Proof. unfold only_api. congruence. Qed.

Lemma api_world_reachable :
  rtc (SilencerInv.wstep job_sets only_api) (SilencerInv.mkWorld ex_new ∅ 10 ∅)
    (SilencerInv.mkWorld ex_one ∅ 30 ∅).
Proof.
  apply rtc_l with (SilencerInv.mkWorld ex_one ∅ 10 ∅); [|apply rtc_once, SilencerInv.w_tick; lia].
  assert (E : ex_one = (Silence.Set_ ex_new (PostableSilenceToProto (ex_postable "api" 5 100))
    10 10 10 (Some "a"%string)).1.1) by (vm_compute; reflexivity).
  rewrite E. apply SilencerInv.w_set. intros u [= <-]. split; reflexivity.
Qed.

Lemma api_no_revived (id : string) lset :
  id ∈ (∅ : gset string) → only_api lset → ¬ SilencerInv.silenced_by ex_one 30 lset id.
Proof. by intros ?%elem_of_empty. Qed.

Lemma api_no_equal_labels : Inhibit.U_ok (λ _, False).
Proof. by intros ?? []. Qed.

Lemma api_no_rules lset : only_api lset → Inhibit.rules_ok (λ _, False) [] lset.
Proof. by intros _ r ?%elem_of_nil. Qed.

Definition ex_params : alert_params := mkAlertParams ["job=api"%string] None [] true true true.

Lemma ex_params_parsed :
  parse_params Compat.UTF8StrictMode ex_params = Ok (ex_filter, None, []).
Proof. vm_compute. reflexivity. Qed.

Lemma get_alerts_exact_witness :
  ∃ c' l l0,
    getAlertsHandler Compat.UTF8StrictMode (reloader_setAlertStatus [] ex_one 30 30) ex_api ex_provider
      ex_params ∅ 30 (λ _, false) = (c', RespOK l) ∧ l ≡ₚ l0 ∧
    Forall2 (ApiStatus.shows ex_one [] 30 ex_api) [ex_alert] l0.
Proof.
  refine (ApiStatus.get_alerts_exact Compat.UTF8StrictMode job_sets job_matchers only_api api_compiled
    api_collision_free ex_one [] 30 ∅ api_no_revived (λ _, False) api_no_equal_labels api_no_rules
    10 no_limits _ ∅ ex_api ex_provider ex_params ex_filter None []
    (SilencerInv.starts_empty job_sets 10 no_limits 10) api_world_reachable _ ex_params_parsed).
  intros fp a. rewrite (proj2 ex_post_response). by intros [<- <-]%lookup_singleton_Some.
Defined.

(** The listing of the one alert: silenced by [a], sent to two receivers. *)
Example ex_alert_listed :
  match (getAlertsHandler Compat.UTF8StrictMode (reloader_setAlertStatus [] ex_one 30 30) ex_api
           ex_provider ex_params ∅ 30 (λ _, false)).2 with
  | RespOK [g] => ga_Receivers g = ["api"; "team"]%string ∧
      ga_Status g = mkOAlertStatus Alert.AlertStateSuppressed ["a"%string] [] []
  | _ => False
  end.
Proof. vm_compute. done. Qed.

Lemma ex_heap_api addr g :
  Dispatch.heap ex_d !! addr = Some g →
  Forall (λ a, only_api (Alert.Labels a)) (Store.List_ (Dispatch.g_alerts g)).
Proof.
  assert (E : Dispatch.heap ex_d = {[0%nat := default ex_g (Dispatch.heap ex_d !! 0%nat)]})
    by (vm_compute; reflexivity).
  rewrite E. intros [<- <-]%lookup_singleton_Some. vm_compute. by repeat constructor.
Qed.

Lemma get_alert_groups_exact_witness :
  ∃ d' c' res groups receivers,
    getAlertGroupsHandler Compat.UTF8StrictMode (reloader_setAlertStatus [] ex_one 30 30) ex_api ex_d
      ∅ ex_params true ∅ true 30 = (d', c', RespOK res) ∧
    (∀ fp, GroupsInv.rget receivers fp ≡ₚ GroupsInv.receivers_of groups fp) ∧
    Forall2 (ApiStatus.group_shown ex_one [] 30 ∅ receivers) groups res.
Proof.
  destruct (ApiStatus.get_alert_groups_exact Compat.UTF8StrictMode job_sets job_matchers only_api
    api_compiled api_collision_free ex_one [] 30 ∅ api_no_revived (λ _, False)
    api_no_equal_labels api_no_rules DispatchExamples.ex_tree DispatchExamples.ex_root 0 ex_sys
    10 no_limits _ ∅ ex_api ∅ ex_params true ex_filter None [] DispatchExamples.ex_root_new
    ex_sys_reachable (SilencerInv.starts_empty job_sets 10 no_limits 10) api_world_reachable ex_heap_api ex_params_parsed)
    as (d' & c' & res & groups & receivers & E & _ & Hr & Hs).
  exists d', c', res, groups, receivers. split_and!; [exact E|exact Hr|].
  assert (Hf : List.filter (λ g, true || negb (ApiStatus.group_muted ∅ g).2) groups = groups)
    by (clear; induction groups as [|g gs IH]; [done|]; cbn in *; by rewrite IH).
  by rewrite Hf in Hs.
Defined.

(** ** Two behaviours of the listing *)

(** A store that has received by gossip a silence with two matcher sets. *)
Definition two_sets : Silence.PbSilence :=
  Silence.mkPbSilence "b" [] (Some 10) (Some 100) (Some 10) [] "ops" "" ∅
    (job_sets "b" ++ job_sets "b") [].
Definition one_message : Silence.SilenceCodec := {|
  Silence.MarshalTo _ := Some [];
  Silence.UnmarshalFrom bs :=
    match bs with
    | [] => Silence.UnmarshalEOF
    | _ :: rest => Silence.Unmarshalled (Silence.mkWireSilence (Some two_sets) (Some 110)) rest
    end;
  Silence.proto_Size _ := 1;
|}.
Definition ex_two : Silence.Silences := (Silence.Merge (SC := one_message) ex_one [0] 20).1.

(** one silence with several matcher sets, which a peer may send, makes every
    listing that includes it fail: the other silences are not shown either,
    although each of them can be asked for by its id. *)
Theorem multi_set_silence_breaks_listing :
  getSilencesHandler Compat.UTF8StrictMode ex_two (ex_list_params []) 30 (λ _, 30) =
    RespInternal MultipleMatcherSets ∧
  getSilenceHandler ex_two "a" 30 30 = RespOK (ex_shown Silence.SilenceStateActive 100 10) ∧
  getSilencesHandler Compat.UTF8StrictMode ex_one (ex_list_params []) 30 (λ _, 30) =
    RespOK [ex_shown Silence.SilenceStateActive 100 10].
Proof. vm_compute. done. Qed.

(** at the instant a silence ends, asking for the active silences only shows it
    as an expired one: the query takes the end as part of the silence, the state
    that is shown does not. *)
Theorem active_listing_shows_expired :
  getSilencesHandler Compat.UTF8StrictMode ex_one (mkSilenceParams [] true false false) 100 (λ _, 100) =
    RespOK [ex_shown Silence.SilenceStateExpired 100 10].
Proof. vm_compute. done. Qed.
End ApiExamples.
