(* ===== verification/ConfigReceivers.v ===== *)
(** * Receivers and global settings of a configuration (config/config.go)

    The part of [Config.UnmarshalYAML] that fills notifier configurations from
    the global block, the checks of config/notifiers.go, and [resolveFilepaths].
    HTTP client configurations and URLs are objects behind pointers that several
    notifiers may share, so both live in a heap; a pointer is an address and nil
    is [None].  Of a notifier's fields those are kept that this code reads or
    writes.  A nil-pointer dereference is the error [Panic]. *)

From Stdlib Require Import Ascii String.
From stdpp Require Import base gmap strings list.
From S2P Require Import Prelude.

(** The rest of an HTTP client configuration and the resolution of its file
    names (github.com/prometheus/common/config), and the text of a URL
    (net/url). *)
Record Authorization := mkAuthorization {
  auth_Type : string;
  auth_Credentials : string;
  auth_CredentialsFile : string;
}.

Record HTTPClientConfig (Rest : Type) := mkHTTPClientConfig {
  http_Authorization : option Authorization;
  http_ProxyURL : option string;
  http_rest : Rest;
}.
Arguments mkHTTPClientConfig {Rest} _ _ _.
Arguments http_Authorization {Rest} _.
Arguments http_ProxyURL {Rest} _.
Arguments http_rest {Rest} _.

Record URL := mkURL { u_rest : string; u_Path : string }.

Class ConfigLib := {
  HTTPRest : Type;
  SetDirectory : string → HTTPClientConfig HTTPRest → HTTPClientConfig HTTPRest;
  DefaultHTTPClientConfig : HTTPClientConfig HTTPRest;
  URL_String : URL → string;
}.

Module ConfigReceivers.

Abbreviation loc := nat.

(** ** Data *)
Record HostPort := mkHostPort { Host : string; Port : string }.

#[global] Instance HostPort_eq_dec : EqDecision HostPort.
Proof. solve_decision. Defined.

Definition HostPort_is_empty (hp : HostPort) : bool :=
  bool_decide (Host hp = ""%string) && bool_decide (Port hp = ""%string).

Record GlobalConfig := mkGlobalConfig {
  ResolveTimeout : duration;
  HTTPConfig : option loc;
  JiraAPIURL : option loc;
  SMTPFrom : string;
  SMTPHello : string;
  SMTPSmarthost : HostPort;
  SMTPAuthUsername : string;
  SMTPAuthPassword : string;
  SMTPAuthPasswordFile : string;
  SMTPAuthSecret : string;
  SMTPAuthSecretFile : string;
  SMTPAuthIdentity : string;
  SMTPRequireTLS : bool;
  SMTPTLSConfig : option loc;
  SMTPForceImplicitTLS : option bool;
  SlackAPIURL : option loc;
  SlackAPIURLFile : string;
  SlackAppToken : string;
  SlackAppTokenFile : string;
  SlackAppURL : option loc;
  PagerdutyURL : option loc;
  OpsGenieAPIURL : option loc;
  OpsGenieAPIKey : string;
  OpsGenieAPIKeyFile : string;
  WeChatAPIURL : option loc;
  WeChatAPISecret : string;
  WeChatAPISecretFile : string;
  WeChatAPICorpID : string;
  VictorOpsAPIURL : option loc;
  VictorOpsAPIKey : string;
  VictorOpsAPIKeyFile : string;
  TelegramAPIUrl : option loc;
  TelegramBotToken : string;
  TelegramBotTokenFile : string;
  WebexAPIURL : option loc;
  RocketchatAPIURL : option loc;
  RocketchatToken : option string;
  RocketchatTokenFile : string;
  RocketchatTokenID : option string;
  RocketchatTokenIDFile : string;
  MattermostWebhookURL : option loc;
  MattermostWebhookURLFile : string;
}.

(** Webhook, Pushover, Incidentio and SNS configurations. *)
Record HTTPOnly := mkHTTPOnly { ho_HTTPConfig : option loc }.

(** Discord, MSTeams, MSTeamsV2 and Mattermost configurations. *)
Record HookConfig := mkHookConfig {
  hk_HTTPConfig : option loc;
  hk_WebhookURL : option loc;
  hk_WebhookURLFile : string;
}.

(** Pagerduty, Webex and Jira configurations. *)
Record URLConfig := mkURLConfig {
  uc_HTTPConfig : option loc;
  uc_URL : option loc;
}.

(** OpsGenie, VictorOps and Telegram configurations. *)
Record KeyConfig := mkKeyConfig {
  kc_HTTPConfig : option loc;
  kc_APIURL : option loc;
  kc_APIKey : string;
  kc_APIKeyFile : string;
}.

Record WechatConfig := mkWechatConfig {
  wc_HTTPConfig : option loc;
  wc_APIURL : option loc;
  wc_APISecret : string;
  wc_APISecretFile : string;
  wc_CorpID : string;
}.

Record RocketchatConfig := mkRocketchatConfig {
  rc_HTTPConfig : option loc;
  rc_APIURL : option loc;
  rc_TokenID : option string;
  rc_TokenIDFile : string;
  rc_Token : option string;
  rc_TokenFile : string;
}.

Record EmailConfig := mkEmailConfig {
  ec_TLSConfig : option loc;
  ec_Smarthost : HostPort;
  ec_From : string;
  ec_Hello : string;
  ec_AuthUsername : string;
  ec_AuthPassword : string;
  ec_AuthPasswordFile : string;
  ec_AuthSecret : string;
  ec_AuthSecretFile : string;
  ec_AuthIdentity : string;
  ec_RequireTLS : option bool;
  ec_ForceImplicitTLS : option bool;
}.

Record SlackConfig := mkSlackConfig {
  sc_HTTPConfig : option loc;
  sc_APIURL : option loc;
  sc_APIURLFile : string;
  sc_AppToken : string;
  sc_AppTokenFile : string;
  sc_AppURL : option loc;
  sc_UpdateMessage : bool;
}.

(** A receiver with the slices of pointers to its configurations. *)
Record Receiver := mkReceiver {
  Name : string;
  WebhookConfigs : list (option HTTPOnly);
  EmailConfigs : list (option EmailConfig);
  SlackConfigs : list (option SlackConfig);
  PushoverConfigs : list (option HTTPOnly);
  PagerdutyConfigs : list (option URLConfig);
  IncidentioConfigs : list (option HTTPOnly);
  OpsGenieConfigs : list (option KeyConfig);
  WechatConfigs : list (option WechatConfig);
  VictorOpsConfigs : list (option KeyConfig);
  SNSConfigs : list (option HTTPOnly);
  TelegramConfigs : list (option KeyConfig);
  DiscordConfigs : list (option HookConfig);
  WebexConfigs : list (option URLConfig);
  MSTeamsConfigs : list (option HookConfig);
  MSTeamsV2Configs : list (option HookConfig);
  JiraConfigs : list (option URLConfig);
  RocketchatConfigs : list (option RocketchatConfig);
  MattermostConfigs : list (option HookConfig);
}.

Inductive kind :=
| Webhook | Email | Slack | Pushover | Pagerduty | Incidentio | OpsGenie | Wechat | VictorOps
| SNS | Telegram | Discord | Webex | MSTeams | MSTeamsV2 | Jira | Rocketchat | Mattermost.

Inductive config_error :=
| AtMostOne (field : string)
| NotUnique (name : string)
| MissingConfig (k : kind)
| NoGlobal (field : string)
| SlackAuthorization
| UpdateMessage
| Panic.

(** ** The state the code runs in *)
Section receivers.
Context `{CL : ConfigLib}.

Record heaps := mkHeaps {
  h_http : gmap loc (HTTPClientConfig HTTPRest);
  h_url : gmap loc URL;
}.

Definition M (A : Type) : Type := heaps → result config_error (A * heaps).
#[global] Instance M_ret : MRet M := λ A a h, Ok (a, h).
#[global] Instance M_bind : MBind M := λ A B f m h,
  match m h with Ok (a, h) => f a h | Err e => Err e end.

Definition fail {A} (e : config_error) : M A := λ _, Err e.
Definition check (b : bool) (e : config_error) : M () := if b then fail e else mret ().
Definition get_url (l : loc) : M URL := λ h,
  match h_url h !! l with Some u => Ok (u, h) | None => Err Panic end.
Definition put_url (l : loc) (u : URL) : M () := λ h,
  Ok ((), mkHeaps (h_http h) (<[l := u]> (h_url h))).
Definition get_http (l : loc) : M (HTTPClientConfig HTTPRest) := λ h,
  match h_http h !! l with Some c => Ok (c, h) | None => Err Panic end.
Definition put_http (l : loc) (c : HTTPClientConfig HTTPRest) : M () := λ h,
  Ok ((), mkHeaps (<[l := c]> (h_http h)) (h_url h)).
Definition new_http (c : HTTPClientConfig HTTPRest) : M loc := λ h,
  let l := fresh (dom (h_http h)) in Ok (l, mkHeaps (<[l := c]> (h_http h)) (h_url h)).
Definition new_url (u : URL) : M loc := λ h,
  let l := fresh (dom (h_url h)) in Ok (l, mkHeaps (h_http h) (<[l := u]> (h_url h))).
(** A dereference. *)
Definition deref (p : option loc) : M loc :=
  match p with Some l => mret l | None => fail Panic end.

Fixpoint each {A B} (f : A → M B) (l : list A) : M (list B) :=
  match l with
  | [] => mret []
  | x :: l => y ← f x; ys ← each f l; mret (y :: ys)
  end.

(** [cmp.Or] on pointers and strings. *)
Definition orp {A} (p q : option A) : option A := match p with Some _ => p | None => q end.
Definition ors (s t : string) : string := if bool_decide (s = ""%string) then t else s.
Definition is_set (s : string) : bool := negb (bool_decide (s = ""%string)).
Definition some {A} (p : option A) : bool := match p with Some _ => true | None => false end.

(** [strings.HasSuffix(path, /)] and the appended slash, on a shared object. *)
Definition ends_with_slash (s : string) : bool :=
  match last (String.list_ascii_of_string s) with
  | Some c => bool_decide (c = "/"%char)
  | None => false
  end.
Definition add_slash (p : option loc) : M () :=
  l ← deref p;
  u ← get_url l;
  if ends_with_slash (u_Path u) then mret () else put_url l (mkURL (u_rest u) (u_Path u +:+ "/")).

(** ** The global block *)

(** [DefaultGlobalConfig]: fresh objects on every call.  TLS configurations are
    only compared with nil, their addresses are opaque. *)
Definition DefaultGlobalConfig : M GlobalConfig :=
  http ← new_http DefaultHTTPClientConfig;
  pagerduty ← new_url (mkURL "https://events.pagerduty.com" "/v2/enqueue");
  opsgenie ← new_url (mkURL "https://api.opsgenie.com" "/");
  wechat ← new_url (mkURL "https://qyapi.weixin.qq.com" "/cgi-bin/");
  victorops ← new_url (mkURL "https://alert.victorops.com" "/integrations/generic/20131114/alert/");
  telegram ← new_url (mkURL "https://api.telegram.org" "");
  webex ← new_url (mkURL "https://webexapis.com" "/v1/messages");
  rocketchat ← new_url (mkURL "https://open.rocket.chat" "/");
  slack ← new_url (mkURL "https://slack.com" "/api/chat.postMessage");
  mret {|
    ResolveTimeout := 5 * minute; HTTPConfig := Some http; JiraAPIURL := None;
    SMTPFrom := ""; SMTPHello := "localhost"; SMTPSmarthost := mkHostPort "" "";
    SMTPAuthUsername := ""; SMTPAuthPassword := ""; SMTPAuthPasswordFile := "";
    SMTPAuthSecret := ""; SMTPAuthSecretFile := ""; SMTPAuthIdentity := "";
    SMTPRequireTLS := true; SMTPTLSConfig := Some 0%nat; SMTPForceImplicitTLS := None;
    SlackAPIURL := None; SlackAPIURLFile := ""; SlackAppToken := ""; SlackAppTokenFile := "";
    SlackAppURL := Some slack; PagerdutyURL := Some pagerduty;
    OpsGenieAPIURL := Some opsgenie; OpsGenieAPIKey := ""; OpsGenieAPIKeyFile := "";
    WeChatAPIURL := Some wechat; WeChatAPISecret := ""; WeChatAPISecretFile := ""; WeChatAPICorpID := "";
    VictorOpsAPIURL := Some victorops; VictorOpsAPIKey := ""; VictorOpsAPIKeyFile := "";
    TelegramAPIUrl := Some telegram; TelegramBotToken := ""; TelegramBotTokenFile := "";
    WebexAPIURL := Some webex; RocketchatAPIURL := Some rocketchat;
    RocketchatToken := None; RocketchatTokenFile := ""; RocketchatTokenID := None;
    RocketchatTokenIDFile := ""; MattermostWebhookURL := None; MattermostWebhookURLFile := "" |}.

(** The checks of [Config.UnmarshalYAML]. *)
Definition check_global (g : GlobalConfig) : M () :=
  check (is_set (SlackAppToken g) && is_set (SlackAppTokenFile g)) (AtMostOne "slack_app_token");;
  check (some (SlackAPIURL g) && is_set (SlackAPIURLFile g)) (AtMostOne "slack_api_url");;
  (if (is_set (SlackAppToken g) || is_set (SlackAppTokenFile g)) &&
      (some (SlackAPIURL g) || is_set (SlackAPIURLFile g))
   then
     a ← deref (SlackAPIURL g); ua ← get_url a;
     b ← deref (SlackAppURL g); ub ← get_url b;
     check (negb (bool_decide (URL_String ua = URL_String ub))) (AtMostOne "slack_app_token or slack_api_url")
   else mret ());;
  check (is_set (OpsGenieAPIKey g) && is_set (OpsGenieAPIKeyFile g)) (AtMostOne "opsgenie_api_key");;
  check (is_set (VictorOpsAPIKey g) && is_set (VictorOpsAPIKeyFile g)) (AtMostOne "victorops_api_key");;
  check (is_set (TelegramBotToken g) && is_set (TelegramBotTokenFile g)) (AtMostOne "telegram_bot_token");;
  check (is_set (SMTPAuthPassword g) && is_set (SMTPAuthPasswordFile g)) (AtMostOne "smtp_auth_password");;
  check (some (RocketchatToken g) && is_set (RocketchatTokenFile g)) (AtMostOne "rocketchat_token");;
  check (some (RocketchatTokenID g) && is_set (RocketchatTokenIDFile g)) (AtMostOne "rocketchat_token_id");;
  check (is_set (SMTPAuthSecret g) && is_set (SMTPAuthSecretFile g)) (AtMostOne "smtp_auth_secret");;
  check (is_set (WeChatAPISecret g) && is_set (WeChatAPISecretFile g)) (AtMostOne "wechat_api_secret");;
  check (some (MattermostWebhookURL g) && is_set (MattermostWebhookURLFile g)) (AtMostOne "mattermost_webhook_url").

(** ** The loop bodies *)

(** A slot that must be there, and one for which a nil pointer is replaced by
    an empty configuration: in a local variable, the slot stays nil. *)
Definition need {A} (k : kind) (f : A → M A) (slot : option A) : M (option A) :=
  match slot with
  | None => fail (MissingConfig k)
  | Some x => y ← f x; mret (Some y)
  end.
Definition or_empty {A} (empty : A) (f : A → M A) (slot : option A) : M (option A) :=
  match slot with
  | None => f empty;; mret None
  | Some x => y ← f x; mret (Some y)
  end.

Definition fill_http (g : GlobalConfig) (c : HTTPOnly) : M HTTPOnly :=
  mret (mkHTTPOnly (orp (ho_HTTPConfig c) (HTTPConfig g))).

Definition fill_email (g : GlobalConfig) (c : EmailConfig) : M EmailConfig :=
  let tls := orp (ec_TLSConfig c) (SMTPTLSConfig g) in
  let smarthost := if bool_decide (ec_Smarthost c = mkHostPort "" "") then SMTPSmarthost g
                   else ec_Smarthost c in
  check (HostPort_is_empty smarthost) (NoGlobal "smtp_smarthost");;
  let from := ors (ec_From c) (SMTPFrom g) in
  check (negb (is_set from)) (NoGlobal "smtp_from");;
  let keep_password := is_set (ec_AuthPassword c) || is_set (ec_AuthPasswordFile c) in
  let keep_secret := is_set (ec_AuthSecret c) || is_set (ec_AuthSecretFile c) in
  mret (mkEmailConfig tls smarthost from (ors (ec_Hello c) (SMTPHello g))
    (ors (ec_AuthUsername c) (SMTPAuthUsername g))
    (if keep_password then ec_AuthPassword c else SMTPAuthPassword g)
    (if keep_password then ec_AuthPasswordFile c else SMTPAuthPasswordFile g)
    (if keep_secret then ec_AuthSecret c else SMTPAuthSecret g)
    (if keep_secret then ec_AuthSecretFile c else SMTPAuthSecretFile g)
    (ors (ec_AuthIdentity c) (SMTPAuthIdentity g))
    (match ec_RequireTLS c with Some b => Some b | None => Some (SMTPRequireTLS g) end)
    (orp (ec_ForceImplicitTLS c) (SMTPForceImplicitTLS g))).

(** Whether [sc.HTTPConfig] is nil or has no authorization. *)
Definition no_authorization (p : option loc) : M bool :=
  match p with
  | None => mret true
  | Some l => c ← get_http l; mret (negb (some (http_Authorization c)))
  end.

Definition fill_slack (g : GlobalConfig) (c : SlackConfig) : M SlackConfig :=
  let appURL := orp (sc_AppURL c) (SlackAppURL g) in
  check (negb (some appURL)) (NoGlobal "slack_app_url");;
  noauth ← (if negb (is_set (sc_AppToken c)) && negb (is_set (sc_AppTokenFile c))
            then no_authorization (sc_HTTPConfig c) else mret false);
  let inherit_token := negb (is_set (sc_AppToken c)) && negb (is_set (sc_AppTokenFile c)) &&
                       noauth && negb (some (sc_APIURL c)) in
  let appToken := if inherit_token then SlackAppToken g else sc_AppToken c in
  let appTokenFile := if inherit_token then SlackAppTokenFile g else sc_AppTokenFile c in
  let inherit_url := negb (some (sc_APIURL c)) && negb (is_set (sc_APIURLFile c)) in
  let apiURL := if inherit_url then SlackAPIURL g else sc_APIURL c in
  let apiURLFile := if inherit_url then SlackAPIURLFile g else sc_APIURLFile c in
  check (negb (some apiURL) && negb (is_set apiURLFile) && negb (is_set appToken) &&
         negb (is_set appTokenFile)) (NoGlobal "slack_api_url");;
  http ← (match sc_HTTPConfig c with
          | Some l => mret l
          | None => gl ← deref (HTTPConfig g); cfg ← get_http gl; new_http cfg
          end);
  if is_set appToken || is_set appTokenFile then
    cfg ← get_http http;
    check (some (http_Authorization cfg)) SlackAuthorization;;
    put_http http (mkHTTPClientConfig (Some (mkAuthorization "Bearer" appToken appTokenFile))
                     (http_ProxyURL cfg) (http_rest cfg));;
    mret (mkSlackConfig (Some http) appURL apiURLFile appToken appTokenFile appURL (sc_UpdateMessage c))
  else
    mret (mkSlackConfig (Some http) apiURL apiURLFile appToken appTokenFile appURL (sc_UpdateMessage c)).

(** Pagerduty, Webex and Jira: a URL, with the global one as the default. *)
Definition fill_url (g : GlobalConfig) (global : option loc) (field : string) (c : URLConfig) : M URLConfig :=
  let http := orp (uc_HTTPConfig c) (HTTPConfig g) in
  let url := orp (uc_URL c) global in
  check (negb (some url)) (NoGlobal field);;
  mret (mkURLConfig http url).

(** OpsGenie and VictorOps: a URL that ends with a slash and a key. *)
Definition fill_key (g : GlobalConfig) (url : option loc) (key keyFile : string)
    (url_field key_field : string) (c : KeyConfig) : M KeyConfig :=
  let http := orp (kc_HTTPConfig c) (HTTPConfig g) in
  let apiURL := orp (kc_APIURL c) url in
  check (negb (some apiURL)) (NoGlobal url_field);;
  add_slash apiURL;;
  if negb (is_set (kc_APIKey c)) && negb (is_set (kc_APIKeyFile c)) then
    check (negb (is_set key) && negb (is_set keyFile)) (NoGlobal key_field);;
    mret (mkKeyConfig http apiURL key keyFile)
  else mret (mkKeyConfig http apiURL (kc_APIKey c) (kc_APIKeyFile c)).

Definition fill_telegram (g : GlobalConfig) (c : KeyConfig) : M KeyConfig :=
  let http := orp (kc_HTTPConfig c) (HTTPConfig g) in
  let apiURL := orp (kc_APIURL c) (TelegramAPIUrl g) in
  if negb (is_set (kc_APIKey c)) && negb (is_set (kc_APIKeyFile c)) then
    check (negb (is_set (TelegramBotToken g)) && negb (is_set (TelegramBotTokenFile g)))
      (NoGlobal "bot_token");;
    mret (mkKeyConfig http apiURL (TelegramBotToken g) (TelegramBotTokenFile g))
  else mret (mkKeyConfig http apiURL (kc_APIKey c) (kc_APIKeyFile c)).

Definition fill_wechat (g : GlobalConfig) (c : WechatConfig) : M WechatConfig :=
  let http := orp (wc_HTTPConfig c) (HTTPConfig g) in
  let apiURL := orp (wc_APIURL c) (WeChatAPIURL g) in
  check (negb (some apiURL)) (NoGlobal "wechat_api_url");;
  let inherit := negb (is_set (wc_APISecret c)) && negb (is_set (wc_APISecretFile c)) in
  check (inherit && negb (is_set (WeChatAPISecret g)) && negb (is_set (WeChatAPISecretFile g)))
    (NoGlobal "wechat_api_secret");;
  let secret := if inherit then WeChatAPISecret g else wc_APISecret c in
  let secretFile := if inherit then WeChatAPISecretFile g else wc_APISecretFile c in
  let corpID := ors (wc_CorpID c) (WeChatAPICorpID g) in
  check (negb (is_set corpID)) (NoGlobal "wechat_api_corp_id");;
  add_slash apiURL;;
  mret (mkWechatConfig http apiURL secret secretFile corpID).

(** Discord and MSTeams: a webhook of their own. *)
Definition fill_hook (g : GlobalConfig) (field : string) (c : HookConfig) : M HookConfig :=
  let http := orp (hk_HTTPConfig c) (HTTPConfig g) in
  check (negb (some (hk_WebhookURL c)) && negb (is_set (hk_WebhookURLFile c))) (NoGlobal field);;
  mret (mkHookConfig http (hk_WebhookURL c) (hk_WebhookURLFile c)).

(** MSTeamsV2: the global configuration is copied, or its proxy inherited. *)
Definition fill_msteamsv2 (g : GlobalConfig) (c : HookConfig) : M HookConfig :=
  http ← (match hk_HTTPConfig c with
          | None => gl ← deref (HTTPConfig g); cfg ← get_http gl; new_http cfg
          | Some l =>
              cfg ← get_http l;
              (if some (http_ProxyURL cfg) then mret () else
                 gl ← deref (HTTPConfig g); gcfg ← get_http gl;
                 put_http l (mkHTTPClientConfig (http_Authorization cfg) (http_ProxyURL gcfg)
                               (http_rest cfg)));;
              mret l
          end);
  check (negb (some (hk_WebhookURL c)) && negb (is_set (hk_WebhookURLFile c))) (NoGlobal "msteamsv2");;
  mret (mkHookConfig (Some http) (hk_WebhookURL c) (hk_WebhookURLFile c)).

Definition fill_mattermost (g : GlobalConfig) (c : HookConfig) : M HookConfig :=
  let http := orp (hk_HTTPConfig c) (HTTPConfig g) in
  if negb (some (hk_WebhookURL c)) && negb (is_set (hk_WebhookURLFile c)) then
    check (negb (some (MattermostWebhookURL g)) && negb (is_set (MattermostWebhookURLFile g)))
      (NoGlobal "mattermost_webhook_url");;
    mret (mkHookConfig http (MattermostWebhookURL g) (MattermostWebhookURLFile g))
  else mret (mkHookConfig http (hk_WebhookURL c) (hk_WebhookURLFile c)).

Definition fill_rocketchat (g : GlobalConfig) (c : RocketchatConfig) : M RocketchatConfig :=
  let http := orp (rc_HTTPConfig c) (HTTPConfig g) in
  let apiURL := orp (rc_APIURL c) (RocketchatAPIURL g) in
  let inherit_id := negb (some (rc_TokenID c)) && negb (is_set (rc_TokenIDFile c)) in
  check (inherit_id && negb (some (RocketchatTokenID g)) && negb (is_set (RocketchatTokenIDFile g)))
    (NoGlobal "rocketchat_token_id");;
  let inherit_token := negb (some (rc_Token c)) && negb (is_set (rc_TokenFile c)) in
  check (inherit_token && negb (some (RocketchatToken g)) && negb (is_set (RocketchatTokenFile g)))
    (NoGlobal "rocketchat_token");;
  mret (mkRocketchatConfig http apiURL
    (if inherit_id then RocketchatTokenID g else rc_TokenID c)
    (if inherit_id then RocketchatTokenIDFile g else rc_TokenIDFile c)
    (if inherit_token then RocketchatToken g else rc_Token c)
    (if inherit_token then RocketchatTokenFile g else rc_TokenFile c)).

(** ** One receiver, and all of them *)
Definition fill_receiver (g : GlobalConfig) (r : Receiver) : M Receiver :=
  webhook ← each (need Webhook (fill_http g)) (WebhookConfigs r);
  email ← each (need Email (fill_email g)) (EmailConfigs r);
  slack ← each (or_empty (mkSlackConfig None None "" "" "" None false) (fill_slack g)) (SlackConfigs r);
  pushover ← each (need Pushover (fill_http g)) (PushoverConfigs r);
  pagerduty ← each (need Pagerduty (fill_url g (PagerdutyURL g) "pagerduty_url")) (PagerdutyConfigs r);
  incidentio ← each (need Incidentio (fill_http g)) (IncidentioConfigs r);
  opsgenie ← each (or_empty (mkKeyConfig None None "" "")
    (fill_key g (OpsGenieAPIURL g) (OpsGenieAPIKey g) (OpsGenieAPIKeyFile g)
       "opsgenie_api_url" "opsgenie_api_key")) (OpsGenieConfigs r);
  wechat ← each (or_empty (mkWechatConfig None None "" "" "") (fill_wechat g)) (WechatConfigs r);
  victorops ← each (need VictorOps
    (fill_key g (VictorOpsAPIURL g) (VictorOpsAPIKey g) (VictorOpsAPIKeyFile g)
       "victorops_api_url" "victorops_api_key")) (VictorOpsConfigs r);
  sns ← each (need SNS (fill_http g)) (SNSConfigs r);
  telegram ← each (need Telegram (fill_telegram g)) (TelegramConfigs r);
  discord ← each (need Discord (fill_hook g "discord")) (DiscordConfigs r);
  webex ← each (need Webex (fill_url g (WebexAPIURL g) "webex_api_url")) (WebexConfigs r);
  msteams ← each (need MSTeams (fill_hook g "msteams")) (MSTeamsConfigs r);
  msteamsv2 ← each (need MSTeamsV2 (fill_msteamsv2 g)) (MSTeamsV2Configs r);
  jira ← each (need Jira (fill_url g (JiraAPIURL g) "jira_api_url")) (JiraConfigs r);
  rocketchat ← each (or_empty (mkRocketchatConfig None None None "" None "") (fill_rocketchat g))
    (RocketchatConfigs r);
  mattermost ← each (need Mattermost (fill_mattermost g)) (MattermostConfigs r);
  mret (mkReceiver (Name r) webhook email slack pushover pagerduty incidentio opsgenie wechat
    victorops sns telegram discord webex msteams msteamsv2 jira rocketchat mattermost).

Fixpoint fill_receivers (g : GlobalConfig) (names : gset string) (rs : list Receiver)
    : M (gset string * list Receiver) :=
  match rs with
  | [] => mret (names, [])
  | r :: rs =>
      check (bool_decide (Name r ∈ names)) (NotUnique (Name r));;
      r ← fill_receiver g r;
      '(names, rs) ← fill_receivers g ({[Name r]} ∪ names) rs;
      mret (names, r :: rs)
  end.

(** ** config/notifiers.go: the check of a Slack configuration *)
Definition Slack_Validate (c : SlackConfig) : M () :=
  check (some (sc_APIURL c) && is_set (sc_APIURLFile c)) (AtMostOne "api_url");;
  check (is_set (sc_AppToken c) && is_set (sc_AppTokenFile c)) (AtMostOne "app_token");;
  check ((some (sc_APIURL c) || is_set (sc_APIURLFile c)) &&
         (is_set (sc_AppToken c) || is_set (sc_AppTokenFile c))) (AtMostOne "api_url or app_token");;
  if sc_UpdateMessage c then
    l ← deref (sc_APIURL c); u ← get_url l;
    check (negb (bool_decide (URL_String u = "https://slack.com/api/chat.postMessage"%string)))
      UpdateMessage
  else mret ().

(** ** resolveFilepaths: the HTTP configurations in the order of the code *)

(** The method accepts a nil receiver. *)
Definition set_directory (dir : string) (p : option loc) : M () :=
  match p with
  | None => mret ()
  | Some l => c ← get_http l; put_http l (SetDirectory dir c)
  end.

(** The pointer to the HTTP configuration of a slot; a nil slot panics. *)
Definition slot_http {A} (http : A → option loc) (slots : list (option A)) : list (option (option loc)) :=
  fmap (M := list) (fmap (M := option) http) slots.

Definition http_slots (r : Receiver) : list (option (option loc)) :=
  slot_http kc_HTTPConfig (OpsGenieConfigs r) ++ slot_http uc_HTTPConfig (PagerdutyConfigs r) ++
  slot_http ho_HTTPConfig (PushoverConfigs r) ++ slot_http sc_HTTPConfig (SlackConfigs r) ++
  slot_http kc_HTTPConfig (VictorOpsConfigs r) ++ slot_http ho_HTTPConfig (WebhookConfigs r) ++
  slot_http wc_HTTPConfig (WechatConfigs r) ++ slot_http ho_HTTPConfig (SNSConfigs r) ++
  slot_http kc_HTTPConfig (TelegramConfigs r) ++ slot_http hk_HTTPConfig (DiscordConfigs r) ++
  slot_http uc_HTTPConfig (WebexConfigs r) ++ slot_http hk_HTTPConfig (MSTeamsConfigs r) ++
  slot_http hk_HTTPConfig (MSTeamsV2Configs r) ++ slot_http uc_HTTPConfig (JiraConfigs r) ++
  slot_http rc_HTTPConfig (RocketchatConfigs r) ++ slot_http hk_HTTPConfig (MattermostConfigs r).

Definition resolve_slot (dir : string) (slot : option (option loc)) : M () :=
  match slot with
  | None => fail Panic
  | Some p => set_directory dir p
  end.

Definition resolve_http_configs (dir : string) (g : GlobalConfig) (rs : list Receiver) : M () :=
  set_directory dir (HTTPConfig g);;
  each (resolve_slot dir) (rs ≫= http_slots);;
  mret ().
End receivers.
End ConfigReceivers.
