(* ===== verification/ConfigReceiversInv.v ===== *)
(** * What an accepted set of receivers guarantees

    The loops of [Config.UnmarshalYAML] run against a heap of shared HTTP
    configurations and URLs.  [evolves] is what every loop body does to that
    heap; each body's lemma says that its result is complete, and the theorems
    compose them over the slots, the kinds and the receivers. *)

From Stdlib Require Import Ascii String.
From stdpp Require Import base gmap strings list.
From S2P Require Import Prelude ConfigReceivers.

Module ConfigReceiversInv.
Import ConfigReceivers.

(** ** Inversion of monadic runs *)
Section runs.
Context `{CL : ConfigLib}.

Lemma bind_run {A B} (m : M A) (f : A → M B) h b h' :
  (m ≫= f) h = Ok (b, h') ↔ ∃ a h1, m h = Ok (a, h1) ∧ f a h1 = Ok (b, h').
Proof. unfold mbind, M_bind. destruct (m h) as [[a h1]|e]; naive_solver. Qed.

Lemma ret_run {A} (a b : A) h h' : (mret a : M A) h = Ok (b, h') ↔ b = a ∧ h' = h.
Proof. unfold mret, M_ret. naive_solver. Qed.

Lemma check_run b e h u h' : check b e h = Ok (u, h') ↔ b = false ∧ h' = h.
Proof. unfold check, fail, mret, M_ret. destruct b, u; naive_solver. Qed.

Lemma fail_run {A} e h (a : A) h' : fail e h = Ok (a, h') ↔ False.
Proof. unfold fail. naive_solver. Qed.

Lemma deref_run p h l h' : deref p h = Ok (l, h') ↔ p = Some l ∧ h' = h.
Proof. destruct p; cbn; unfold mret, M_ret, fail; naive_solver. Qed.

Lemma get_url_run l h u h' : get_url l h = Ok (u, h') ↔ h_url h !! l = Some u ∧ h' = h.
Proof. unfold get_url. destruct (h_url h !! l); naive_solver. Qed.

Lemma get_http_run l h c h' : get_http l h = Ok (c, h') ↔ h_http h !! l = Some c ∧ h' = h.
Proof. unfold get_http. destruct (h_http h !! l); naive_solver. Qed.

Lemma put_url_run l u h x h' : put_url l u h = Ok (x, h') ↔ h' = mkHeaps (h_http h) (<[l := u]> (h_url h)).
Proof. unfold put_url. destruct x; naive_solver. Qed.

Lemma put_http_run l c h x h' :
  put_http l c h = Ok (x, h') ↔ h' = mkHeaps (<[l := c]> (h_http h)) (h_url h).
Proof. unfold put_http. destruct x; naive_solver. Qed.

Lemma new_http_run c h l h' : new_http c h = Ok (l, h') ↔
  l = fresh (dom (h_http h)) ∧ h' = mkHeaps (<[l := c]> (h_http h)) (h_url h).
Proof. unfold new_http. naive_solver. Qed.
End runs.

Create Rewrite HintDb config_runs.
#[export] Hint Rewrite @bind_run @ret_run @check_run @fail_run @deref_run @get_url_run @get_http_run
  @put_url_run @put_http_run @new_http_run : config_runs.

(** Opens every completed run in the context. *)
Ltac run_inv :=
  repeat match goal with
  | H : ?m ?h = Ok (_, ?h') |- _ =>
      match type of h with heaps => idtac end; progress autorewrite with config_runs in H
  | H : ∃ _, _ |- _ => destruct H
  | H : _ ∧ _ |- _ => destruct H
  | H : False |- _ => destruct H
  | H : (if ?b then _ else _) ?h = Ok _ |- _ => destruct b eqn:?
  | H : (match ?p with Some _ => _ | None => _ end) ?h = Ok _ |- _ => destruct p eqn:?
  | u : () |- _ => destruct u
  | x : _ * _ |- _ => destruct x
  end; simplify_eq/=.

Section inv.
Context `{CL : ConfigLib}.
Context (g : GlobalConfig).

(** ** What happens to the heap *)

(** The proxy of an HTTP configuration may have been inherited. *)
Definition proxy_kept (h : heaps) (c c' : HTTPClientConfig HTTPRest) : Prop :=
  http_ProxyURL c' = http_ProxyURL c ∨
  http_ProxyURL c = None ∧ ∀ gl gc, HTTPConfig g = Some gl → h_http h !! gl = Some gc →
    http_ProxyURL c' = http_ProxyURL gc.

(** No object disappears; an HTTP configuration only gets an authorization it
    did not have or the global proxy; a path that ends with a slash stays; and
    the global HTTP configuration is not written. *)
Record evolves (h h' : heaps) : Prop := {
  ev_http : ∀ l c, h_http h !! l = Some c → ∃ c', h_http h' !! l = Some c' ∧
    http_rest c' = http_rest c ∧ proxy_kept h c c' ∧
    ∀ a, http_Authorization c = Some a → http_Authorization c' = Some a;
  ev_slash : ∀ l u, h_url h !! l = Some u → ends_with_slash (u_Path u) →
    ∃ u', h_url h' !! l = Some u' ∧ ends_with_slash (u_Path u');
  ev_global : ∀ gl, HTTPConfig g = Some gl → gl ∈ dom (h_http h) → h_http h' !! gl = h_http h !! gl;
}.

Lemma ev_dom h h' : evolves h h' → dom (h_http h) ⊆ dom (h_http h').
Proof. intros E l [c Hc]%elem_of_dom. destruct (ev_http _ _ E l c Hc) as (c' & Hc' & _). by eapply elem_of_dom_2. Qed.

Lemma proxy_kept_trans h1 h2 c1 c2 c3 :
  (∀ gl, HTTPConfig g = Some gl → gl ∈ dom (h_http h1) → h_http h2 !! gl = h_http h1 !! gl) →
  proxy_kept h1 c1 c2 → proxy_kept h2 c2 c3 → proxy_kept h1 c1 c3.
Proof.
  intros Hg [E1|[N1 P1]] [E2|[N2 P2]]; [left; congruence|right..].
  - split; [congruence|]. intros gl gc Hgl Hgc. apply (P2 gl); [done|]. rewrite Hg; [done..|by eapply elem_of_dom_2].
  - split; [done|]. intros gl gc Hgl Hgc. rewrite E2. eauto.
  - split; [done|]. intros gl gc Hgl Hgc. apply (P2 gl); [done|]. rewrite Hg; [done..|by eapply elem_of_dom_2].
Qed.

#[global] Instance evolves_preorder : PreOrder evolves.
Proof.
  split.
  - intros h. split; [|by eauto..]. intros l c Hc. exists c. split_and!; [done..|by left|done].
  - intros h1 h2 h3 E1 E2. pose proof (ev_dom _ _ E1) as D1. destruct E1 as [A1 S1 G1], E2 as [A2 S2 G2]. split.
    + intros l c Hl. destruct (A1 _ _ Hl) as (c' & Hc' & R1 & P1 & Au1).
      destruct (A2 _ _ Hc') as (c2 & Hc2 & R2 & P2 & Au2). exists c2.
      split_and!; [done|congruence| |by auto]. by eapply proxy_kept_trans.
    + intros l u Hl Hs. destruct (S1 _ _ Hl Hs) as (u' & ? & ?). eauto.
    + intros gl Hg Hd. rewrite (G2 gl); [|done|set_solver]. auto.
Qed.

(** A pointer to an HTTP configuration that exists, and one of a receiver's
    own. *)
Definition valid (p : option loc) (h : heaps) : Prop := ∀ l, p = Some l → l ∈ dom (h_http h).
Definition own (p : option loc) (h : heaps) : Prop := valid p h ∧ ∀ l, p = Some l → HTTPConfig g ≠ Some l.

Lemma valid_evolves p h h' : evolves h h' → valid p h → valid p h'.
Proof. intros D%ev_dom Hv l Hl. set_solver. Qed.

Lemma own_evolves p h h' : evolves h h' → own p h → own p h'.
Proof. intros E [? ?]. split; [by eapply valid_evolves|done]. Qed.

Lemma own_None h : own None h.
Proof. by split; intros l. Qed.

Lemma valid_orp p h : own p h → valid (HTTPConfig g) h → valid (orp p (HTTPConfig g)) h.
Proof. intros [? _] ?. by destruct p. Qed.

(** Writes to a configuration that is not the global one. *)
Lemma evolves_put_http l c h :
  HTTPConfig g ≠ Some l →
  (∀ c0, h_http h !! l = Some c0 → http_rest c = http_rest c0 ∧ proxy_kept h c0 c ∧
     ∀ a, http_Authorization c0 = Some a → http_Authorization c = Some a) →
  evolves h (mkHeaps (<[l := c]> (h_http h)) (h_url h)).
Proof.
  intros Hg Ha. split; cbn.
  - intros l0 c0 H0. destruct (decide (l0 = l)) as [->|Hne].
    + exists c. rewrite lookup_insert_eq. split; [done|]. by apply Ha.
    + exists c0. rewrite lookup_insert_ne by done. split_and!; [done..|by left|done].
  - eauto.
  - intros gl Hgl _. rewrite lookup_insert_ne; congruence.
Qed.

Lemma evolves_new_http c h :
  valid (HTTPConfig g) h →
  evolves h (mkHeaps (<[fresh (dom (h_http h)) := c]> (h_http h)) (h_url h)).
Proof.
  intros Hg. pose proof (is_fresh (dom (h_http h))) as Hf. apply evolves_put_http.
  - intros Heq. by apply Hf, Hg.
  - intros c0 H0. by apply elem_of_dom_2 in H0.
Qed.

Lemma ends_with_slash_app s : ends_with_slash (s +:+ "/").
Proof.
  unfold ends_with_slash.
  assert (He : String.list_ascii_of_string (s +:+ "/") = String.list_ascii_of_string s ++ ["/"%char]).
  { induction s as [|a s IH]; [done|]. change (a :: String.list_ascii_of_string (s +:+ "/") = a :: (String.list_ascii_of_string s ++ ["/"%char])). by rewrite IH. }
  rewrite He, last_snoc. done.
Qed.

Lemma evolves_add_slash l u h :
  h_url h !! l = Some u →
  evolves h (mkHeaps (h_http h) (<[l := mkURL (u_rest u) (u_Path u +:+ "/")]> (h_url h))).
Proof.
  intros Hu. split; cbn; [| |done].
  { intros l0 c0 H0. exists c0. split_and!; [done..|by left|done]. }
  intros l0 u0 H0 Hs. destruct (decide (l0 = l)) as [->|Hne].
  - rewrite lookup_insert_eq. eexists; split; [done|]. apply ends_with_slash_app.
  - exists u0. by rewrite lookup_insert_ne.
Qed.

(** ** Complete configurations *)
Definition slashed (h : heaps) (p : option loc) : Prop :=
  ∃ l u, p = Some l ∧ h_url h !! l = Some u ∧ ends_with_slash (u_Path u).

Lemma slashed_evolves h h' p : evolves h h' → slashed h p → slashed h' p.
Proof. intros E (l & u & -> & Hu & Hs). destruct (ev_slash _ _ E _ _ Hu Hs) as (u' & ? & ?). by exists l, u'. Qed.

Lemma add_slash_run p h x h' :
  add_slash p h = Ok (x, h') → evolves h h' ∧ slashed h' p ∧ h_http h' = h_http h.
Proof.
  unfold add_slash. intros (l & h1 & [-> ->]%deref_run & H)%bind_run.
  apply bind_run in H as (u & h1 & [Hu ->]%get_url_run & H).
  destruct (ends_with_slash (u_Path u)) eqn:Hs; run_inv.
  - split_and!; [done| |done]. exists l, u. by rewrite Hs.
  - split_and!; [by apply evolves_add_slash| |done]. eexists l, _. cbn.
    rewrite lookup_insert_eq. split_and!; [done..|]. apply ends_with_slash_app.
Qed.

(** Where the HTTP configuration of an accepted slot comes from: it is the slot's
    own or, if that has none, the global one, shared or copied with its proxy and
    everything but the authorization. *)
Definition shared (_ : heaps) (p p' : option loc) : Prop := p' = orp p (HTTPConfig g).
Definition copied (h : heaps) (p p' : option loc) : Prop :=
  match p with
  | Some _ => p' = p
  | None => ∃ l gl c gc, p' = Some l ∧ HTTPConfig g = Some gl ∧ l ≠ gl ∧
      h_http h !! l = Some c ∧ h_http h !! gl = Some gc ∧
      http_ProxyURL c = http_ProxyURL gc ∧ http_rest c = http_rest gc
  end.

Lemma copied_evolves h h' p p' : evolves h h' → copied h p p' → copied h' p p'.
Proof.
  intros E. destruct p as [l0|]; [done|]. intros (l & gl & c & gc & -> & Hg & Hne & Hl & Hgl & Hp & Hr).
  destruct (ev_http _ _ E l c Hl) as (c' & Hc' & Hr' & Hpk & _).
  exists l, gl, c', gc. split_and!; [done..| | |congruence].
  - rewrite (ev_global _ _ E gl); [done..|by eapply elem_of_dom_2].
  - destruct Hpk as [->|[_ Hpk]]; [done|]. by apply (Hpk gl).
Qed.

Definition complete_email (h : heaps) (c : EmailConfig) : Prop :=
  HostPort_is_empty (ec_Smarthost c) = false ∧ ec_From c ≠ ""%string ∧ ec_RequireTLS c ≠ None.
Definition complete_url (h : heaps) (c : URLConfig) : Prop := uc_URL c ≠ None.
Definition complete_hook (h : heaps) (c : HookConfig) : Prop :=
  hk_WebhookURL c ≠ None ∨ hk_WebhookURLFile c ≠ ""%string.
Definition complete_key (h : heaps) (c : KeyConfig) : Prop :=
  slashed h (kc_APIURL c) ∧ (kc_APIKey c ≠ ""%string ∨ kc_APIKeyFile c ≠ ""%string).
Definition complete_telegram (h : heaps) (c : KeyConfig) : Prop :=
  kc_APIKey c ≠ ""%string ∨ kc_APIKeyFile c ≠ ""%string.
Definition complete_wechat (h : heaps) (c : WechatConfig) : Prop :=
  slashed h (wc_APIURL c) ∧ (wc_APISecret c ≠ ""%string ∨ wc_APISecretFile c ≠ ""%string) ∧
  wc_CorpID c ≠ ""%string.
Definition complete_rocketchat (h : heaps) (c : RocketchatConfig) : Prop :=
  (rc_TokenID c ≠ None ∨ rc_TokenIDFile c ≠ ""%string) ∧ (rc_Token c ≠ None ∨ rc_TokenFile c ≠ ""%string).
(** A Slack configuration posts to a webhook, or to the application's URL with
    its token in the authorization header. *)
Definition complete_slack (h : heaps) (c : SlackConfig) : Prop :=
  sc_AppURL c ≠ None ∧ sc_HTTPConfig c ≠ None ∧
  if is_set (sc_AppToken c) || is_set (sc_AppTokenFile c)
  then sc_APIURL c = sc_AppURL c ∧
       ∃ l cfg, sc_HTTPConfig c = Some l ∧ h_http h !! l = Some cfg ∧
         http_Authorization cfg = Some (mkAuthorization "Bearer" (sc_AppToken c) (sc_AppTokenFile c))
  else sc_APIURL c ≠ None ∨ sc_APIURLFile c ≠ ""%string.

(** An MSTeamsV2 configuration without a proxy of its own has the global one. *)
Definition complete_msteamsv2 (h : heaps) (c : HookConfig) : Prop :=
  complete_hook h c ∧ ∃ l cfg, hk_HTTPConfig c = Some l ∧ h_http h !! l = Some cfg ∧
    (http_ProxyURL cfg ≠ None ∨
     ∃ gl gc, HTTPConfig g = Some gl ∧ h_http h !! gl = Some gc ∧ http_ProxyURL cfg = http_ProxyURL gc).

Lemma complete_key_evolves h h' c : evolves h h' → complete_key h c → complete_key h' c.
Proof. intros E [? ?]. split; [by eapply slashed_evolves|done]. Qed.
Lemma complete_wechat_evolves h h' c : evolves h h' → complete_wechat h c → complete_wechat h' c.
Proof. intros E [? ?]. split; [by eapply slashed_evolves|done]. Qed.
Lemma complete_slack_evolves h h' c : evolves h h' → complete_slack h c → complete_slack h' c.
Proof.
  intros E (? & ? & Hc). split_and!; [done..|]. destruct (_ || _); [|done].
  destruct Hc as (? & l & cfg & ? & Hl & Ha). split; [done|].
  destruct (ev_http _ _ E _ _ Hl) as (cfg' & ? & _ & _ & Hau). exists l, cfg'. split_and!; [done..|]. by apply Hau.
Qed.
Lemma complete_msteamsv2_evolves h h' c : evolves h h' → complete_msteamsv2 h c → complete_msteamsv2 h' c.
Proof.
  intros E (Hh & l & cfg & Hl & Hc & Hp). split; [done|].
  destruct (ev_http _ _ E _ _ Hc) as (cfg' & Hc' & _ & Hk & _). exists l, cfg'. split_and!; [done..|].
  destruct Hp as [Hp|(gl & gc & Hg & Hgc & Hp)].
  - left. destruct Hk as [->|[? _]]; done.
  - right. exists gl, gc. split_and!; [done|rewrite (ev_global _ _ E gl); [done..|by eapply elem_of_dom_2]|].
    destruct Hk as [->|[_ Hk]]; [done|]. by apply (Hk gl).
Qed.

Lemma is_set_true s : is_set s = true ↔ s ≠ ""%string.
Proof. unfold is_set. case_bool_decide; naive_solver. Qed.
Lemma is_set_false s : is_set s = false ↔ s = ""%string.
Proof. unfold is_set. case_bool_decide; naive_solver. Qed.
Lemma some_true {A} (p : option A) : some p = true ↔ p ≠ None.
Proof. destruct p; naive_solver. Qed.
Lemma some_false {A} (p : option A) : some p = false ↔ p = None.
Proof. destruct p; naive_solver. Qed.

(** ** The loop bodies *)
Definition fills {A} (inh : heaps → option loc → option loc → Prop) (http : A → option loc)
    (C : heaps → A → Prop) (f : A → M A) : Prop :=
  ∀ c h c' h', f c h = Ok (c', h') → own (http c) h → valid (HTTPConfig g) h →
    evolves h h' ∧ valid (http c') h' ∧ inh h' (http c) (http c') ∧ C h' c'.

Ltac bools :=
  repeat match goal with
  | H : _ && _ = false |- _ => apply andb_false_iff in H
  | H : _ && _ = true |- _ => apply andb_true_iff in H
  | H : _ || _ = false |- _ => apply orb_false_iff in H
  | H : _ || _ = true |- _ => apply orb_true_iff in H
  | H : negb _ = false |- _ => apply negb_false_iff in H
  | H : negb _ = true |- _ => apply negb_true_iff in H
  | H : is_set _ = true |- _ => apply is_set_true in H
  | H : is_set _ = false |- _ => apply is_set_false in H
  | H : some _ = true |- _ => apply some_true in H
  | H : some _ = false |- _ => apply some_false in H
  | H : _ ∧ _ |- _ => destruct H
  | H : _ ∨ _ |- _ => destruct H
  end.

Lemma fill_http_ok : fills shared ho_HTTPConfig (λ _ _, True) (fill_http g).
Proof. intros c h c' h' H Hown Hg. unfold fill_http in H. run_inv. split_and!; [done|auto using valid_orp|done|done]. Qed.

Lemma fill_url_ok global field : fills shared uc_HTTPConfig complete_url (fill_url g global field).
Proof.
  intros c h c' h' H Hown Hg. unfold fill_url in H. run_inv. bools.
  split_and!; [done|auto using valid_orp|done|done].
Qed.

Lemma fill_hook_ok field : fills shared hk_HTTPConfig complete_hook (fill_hook g field).
Proof.
  intros c h c' h' H Hown Hg. unfold fill_hook in H. run_inv. bools.
  all: split_and!; [done|auto using valid_orp|done|]; unfold complete_hook; naive_solver.
Qed.

Lemma fill_mattermost_ok : fills shared hk_HTTPConfig complete_hook (fill_mattermost g).
Proof.
  intros c h c' h' H Hown Hg. unfold fill_mattermost in H. run_inv; bools.
  all: split_and!; [done|auto using valid_orp|done|]; unfold complete_hook; naive_solver.
Qed.

Lemma fill_telegram_ok : fills shared kc_HTTPConfig complete_telegram (fill_telegram g).
Proof.
  intros c h c' h' H Hown Hg. unfold fill_telegram in H. run_inv; bools.
  all: split_and!; [done|auto using valid_orp|done|]; unfold complete_telegram; naive_solver.
Qed.

Lemma fill_rocketchat_ok : fills shared rc_HTTPConfig complete_rocketchat (fill_rocketchat g).
Proof.
  intros c h c' h' H Hown Hg. unfold fill_rocketchat in H. run_inv.
  split_and!; [done|auto using valid_orp|done|]. unfold complete_rocketchat; cbn. split.
  - destruct (negb (some (rc_TokenID c)) && _) eqn:?; bools; naive_solver.
  - destruct (negb (some (rc_Token c)) && _) eqn:?; bools; naive_solver.
Qed.

Lemma fill_email_ok : fills (λ _ _ _, True) (λ _, None) complete_email (fill_email g).
Proof.
  intros c h c' h' H Hown Hg. unfold fill_email in H. run_inv. bools.
  split_and!; [done|by intros l|done|]. unfold complete_email. cbn. split_and!; [done..|]. by destruct (ec_RequireTLS c).
Qed.

Lemma fill_key_ok url key keyFile f1 f2 : fills shared kc_HTTPConfig complete_key (fill_key g url key keyFile f1 f2).
Proof.
  intros c h c' h' H Hown Hg. unfold fill_key in H. cbn beta zeta in H.
  apply bind_run in H as (x & h1 & [_ ->]%check_run & H).
  apply bind_run in H as (y & h1 & (E & Hs & Hh)%add_slash_run & H).
  assert (Hv : valid (orp (kc_HTTPConfig c) (HTTPConfig g)) h1)
    by eauto using valid_orp, valid_evolves.
  destruct (_ && _) eqn:?; run_inv; bools.
  all: split_and!; [done|done|done|]; unfold complete_key; naive_solver.
Qed.

Lemma fill_wechat_ok : fills shared wc_HTTPConfig complete_wechat (fill_wechat g).
Proof.
  intros c h c' h' H Hown Hg. unfold fill_wechat in H. cbn beta zeta in H.
  apply bind_run in H as (? & ? & [_ ->]%check_run & H).
  apply bind_run in H as (? & ? & [Hsec ->]%check_run & H).
  apply bind_run in H as (? & ? & [Hcorp ->]%check_run & H).
  apply bind_run in H as (y & h1 & (E & Hs & Hh)%add_slash_run & H). run_inv.
  split_and!; [done|by eauto using valid_orp, valid_evolves|done|]. split; [done|]. cbn.
  destruct (negb (is_set (wc_APISecret c)) && _) eqn:?; bools; naive_solver.
Qed.
(** Slack and MSTeamsV2 copy the global configuration instead of sharing it. *)
Lemma copy_global_ok l h h' :
  (gl ← deref (HTTPConfig g); cfg ← get_http gl; new_http cfg) h = Ok (l, h') →
  valid (HTTPConfig g) h → evolves h h' ∧ own (Some l) h' ∧ copied h' None (Some l).
Proof.
  intros (gl & h1 & [Hg ->]%deref_run & H)%bind_run Hv.
  apply bind_run in H as (cfg & h1 & [Hl ->]%get_http_run & [-> ->]%new_http_run).
  pose proof (is_fresh (dom (h_http h))) as Hf.
  assert (Hne : fresh (dom (h_http h)) ≠ gl) by (intros E; rewrite E in Hf; by eapply Hf, elem_of_dom_2).
  split_and!; [by apply evolves_new_http|split; cbn|].
  - intros l [= <-]. set_solver.
  - intros l [= <-] Heq. by apply Hf, Hv.
  - exists (fresh (dom (h_http h))), gl, cfg, cfg. cbn. rewrite lookup_insert_eq, lookup_insert_ne by done. done.
Qed.

Lemma own_valid p h : own p h → valid p h.
Proof. by intros [? _]. Qed.

Lemma fill_msteamsv2_ok : fills copied hk_HTTPConfig complete_msteamsv2 (fill_msteamsv2 g).
Proof.
  intros c h c' h' H Hown Hg. unfold fill_msteamsv2 in H.
  apply bind_run in H as (l & h1 & Hcopy & H). apply bind_run in H as (? & ? & [Hc ->]%check_run & [-> ->]%ret_run).
  assert (evolves h h1 ∧ own (Some l) h1 ∧ copied h1 (hk_HTTPConfig c) (Some l) ∧
    ∃ cfg, h_http h1 !! l = Some cfg ∧ (http_ProxyURL cfg ≠ None ∨
      ∃ gl gc, HTTPConfig g = Some gl ∧ h_http h1 !! gl = Some gc ∧ http_ProxyURL cfg = http_ProxyURL gc))
    as (E & Ho & Hcp & cfg & Hcfg & Hpx).
  { destruct (hk_HTTPConfig c) as [l0|] eqn:Hh.
    2:{ destruct (copy_global_ok _ _ _ Hcopy Hg) as (? & ? & Hcp). split_and!; [done..|].
        destruct Hcp as (l1 & gl & cf & gc & [= <-] & ? & _ & ? & ? & ? & _). exists cf. split; [done|].
        right. by exists gl, gc. }
    apply bind_run in Hcopy as (cfg & h2 & [Hl ->]%get_http_run & Hcopy).
    apply bind_run in Hcopy as (? & h2 & Hput & [-> ->]%ret_run).
    destruct (some (http_ProxyURL cfg)) eqn:Hsome; run_inv.
    { split_and!; [done..|]. exists cfg. split; [done|]. left. by apply some_true. }
    apply some_false in Hsome. destruct Hown as [Hv Hne]. pose proof (Hne l0 eq_refl) as Hne0.
    match goal with |- evolves h ?h2 ∧ _ => assert (E : evolves h h2) end.
    { apply evolves_put_http; [by apply Hne|]. intros c0 Hc0. simplify_eq. split_and!; [done| |done].
      right. split; [done|]. intros. by simplify_eq. }
    split_and!; [done|by eapply own_evolves|done|].
    eexists. cbn. rewrite lookup_insert_eq. split; [done|]. right.
    match goal with Hgl : HTTPConfig g = Some ?gl, Hgc : h_http h !! ?gl = Some ?gc |- _ => exists gl, gc end.
    rewrite lookup_insert_ne by congruence. done. }
  split_and!; [done|by apply own_valid|done|]. split; [unfold complete_hook; cbn; bools; naive_solver|].
  by exists l, cfg.
Qed.
(** The Slack body: where the token and the URL come from, and the
    configuration that is written. *)
Lemma no_authorization_run p h b h' :
  no_authorization p h = Ok (b, h') →
  h' = h ∧ (b = true → ∀ l c, p = Some l → h_http h !! l = Some c → http_Authorization c = None).
Proof.
  unfold no_authorization. intros H. run_inv; [|naive_solver].
  split; [done|]. intros Hb l0 c0 [= <-] Hc. simplify_eq. bools. done.
Qed.

Lemma fill_slack_ok : fills copied sc_HTTPConfig complete_slack (fill_slack g).
Proof.
  intros c h c' h' H Hown Hg. unfold fill_slack in H. cbn beta zeta in H.
  apply bind_run in H as (? & ? & [Happ ->]%check_run & H).
  apply bind_run in H as (na & h1 & Hna & H).
  assert (h1 = h) as ->.
  { destruct (negb (is_set (sc_AppToken c)) && _); [|by run_inv]. by apply no_authorization_run in Hna as [-> _]. }
  apply bind_run in H as (? & ? & [Hurl ->]%check_run & H).
  apply bind_run in H as (l & h1 & Hhttp & H).
  assert (evolves h h1 ∧ own (Some l) h1 ∧ copied h1 (sc_HTTPConfig c) (Some l)) as (E & [Hv Hne] & Hcp).
  { destruct (sc_HTTPConfig c) as [l0|] eqn:Hh; [|by apply copy_global_ok]. by run_inv. }
  revert Hurl H. set (tok := if (_ : bool) then SlackAppToken g else _). set (file := if (_ : bool) then SlackAppTokenFile g else _).
  intros Hurl H. destruct (is_set tok || is_set file) eqn:Htok.
  - apply bind_run in H as (cfg & h2 & [Hl ->]%get_http_run & H).
    apply bind_run in H as (? & ? & [Hau ->]%check_run & H).
    apply bind_run in H as (? & h2 & ->%put_http_run & [-> ->]%ret_run).
    assert (E2 : evolves h1 (mkHeaps (<[l := mkHTTPClientConfig (Some (mkAuthorization "Bearer" tok file))
                  (http_ProxyURL cfg) (http_rest cfg)]> (h_http h1)) (h_url h1))).
    { apply evolves_put_http; [by apply Hne|]. apply some_false in Hau. intros c0 Hc0. simplify_eq.
      split_and!; [done|by left|]. cbn. congruence. }
    apply negb_false_iff, some_true in Happ.
    split_and!; [by etrans|by eapply valid_evolves|by eapply copied_evolves|]. split_and!; [done..|]. cbn. rewrite Htok.
    split; [done|]. eexists _, _. rewrite lookup_insert_eq. done.
  - apply ret_run in H as [-> ->]. apply negb_false_iff, some_true in Happ.
    split_and!; [done..|]. split_and!; [done..|]. cbn. rewrite Htok. bools; naive_solver.
Qed.
(** ** The slots of a receiver *)

(** What is asked of the slots that were read, and what holds of those that are
    accepted; [must] says that the kind refuses a nil slot. *)
Definition slot_pre {A} (http : A → option loc) (h : heaps) (slot : option A) : Prop :=
  ∀ c, slot = Some c → own (http c) h.
Definition slot_ok {A} (must : bool) (inh : heaps → option loc → option loc → Prop)
    (http : A → option loc) (C : heaps → A → Prop) (h : heaps) (slot slot' : option A) : Prop :=
  match slot, slot' with
  | Some c, Some c' => valid (http c') h ∧ inh h (http c) (http c') ∧ C h c'
  | None, None => must = false
  | _, _ => False
  end.
Definition stable {A} (C : heaps → A → Prop) : Prop := ∀ h h' c, evolves h h' → C h c → C h' c.
Definition stable_inh (inh : heaps → option loc → option loc → Prop) : Prop :=
  ∀ h h' p p', evolves h h' → inh h p p' → inh h' p p'.

Lemma slots_pre_evolves {A} (http : A → option loc) h h' slots :
  evolves h h' → Forall (slot_pre http h) slots → Forall (slot_pre http h') slots.
Proof. intros E Hp. eapply Forall_impl; [exact Hp|]. intros slot Hs c Hc. eauto using own_evolves. Qed.

Lemma slot_ok_evolves {A} must inh (http : A → option loc) C h h' s s' :
  stable_inh inh → stable C → evolves h h' → slot_ok must inh http C h s s' → slot_ok must inh http C h' s s'.
Proof. intros HI HC E. destruct s, s'; cbn; [|done..]. intros (? & ? & ?). split_and!; [by eapply valid_evolves|by eapply HI|by eapply HC]. Qed.

Lemma slots_ok_evolves {A} must inh (http : A → option loc) C h h' slots slots' :
  stable_inh inh → stable C → evolves h h' → Forall2 (slot_ok must inh http C h) slots slots' →
  Forall2 (slot_ok must inh http C h') slots slots'.
Proof. intros HI HC E Ho. eapply Forall2_impl; [exact Ho|]. intros. by eapply slot_ok_evolves. Qed.

(** A body that runs on a slot. *)
Definition slot_fills {A} (must : bool) inh (http : A → option loc) (C : heaps → A → Prop)
    (f : option A → M (option A)) : Prop :=
  ∀ s h s' h', f s h = Ok (s', h') → slot_pre http h s → valid (HTTPConfig g) h →
    evolves h h' ∧ slot_ok must inh http C h' s s'.

Lemma need_fills {A} k inh (http : A → option loc) C f :
  fills inh http C f → slot_fills true inh http C (need k f).
Proof.
  intros Hf s h s' h' H Hp Hg. unfold need in H. destruct s as [c|]; [|by apply fail_run in H].
  apply bind_run in H as (c' & h1 & Hc & [-> ->]%ret_run).
  destruct (Hf _ _ _ _ Hc (Hp _ eq_refl) Hg) as (? & ? & ?). naive_solver.
Qed.

Lemma or_empty_fills {A} (empty : A) inh (http : A → option loc) C f :
  http empty = None → fills inh http C f → slot_fills false inh http C (or_empty empty f).
Proof.
  intros He Hf s h s' h' H Hp Hg. unfold or_empty in H. destruct s as [c|].
  - apply bind_run in H as (c' & h1 & Hc & [-> ->]%ret_run).
    destruct (Hf _ _ _ _ Hc (Hp _ eq_refl) Hg) as (? & ? & ?). naive_solver.
  - apply bind_run in H as (c' & h1 & Hc & [-> ->]%ret_run).
    destruct (Hf _ _ _ _ Hc) as (? & ? & ?); [rewrite He; apply own_None|done..].
Qed.

Definition nils {A} (slots : list (option A)) : list bool :=
  (λ s : option A, negb (some s)) <$> slots.

Lemma slots_ok_nils {A} must inh (http : A → option loc) C h slots slots' :
  Forall2 (slot_ok must inh http C h) slots slots' → nils slots' = nils slots.
Proof.
  unfold nils. induction 1 as [|s s' ss ss' Hs _ IH]; [done|]. cbn. rewrite IH. f_equal.
  by destruct s, s'.
Qed.

Lemma each_slots {A} must inh (http : A → option loc) C f slots : ∀ h slots' h',
  slot_fills must inh http C f → stable_inh inh → stable C → each f slots h = Ok (slots', h') →
  Forall (slot_pre http h) slots → valid (HTTPConfig g) h →
  evolves h h' ∧ Forall2 (slot_ok must inh http C h') slots slots'.
Proof.
  induction slots as [|s slots IH]; intros h slots' h' Hf HI HC H Hp Hg; cbn [each] in H.
  { apply ret_run in H as [-> ->]. by split; [|constructor]. }
  apply bind_run in H as (s' & h1 & Hs & H). apply bind_run in H as (ss & h2 & Hss & [-> ->]%ret_run).
  apply Forall_cons_1 in Hp as [Hp1 Hp].
  destruct (Hf _ _ _ _ Hs Hp1 Hg) as (E1 & Ho).
  destruct (IH _ _ _ Hf HI HC Hss) as (E2 & Hos); [by eapply slots_pre_evolves|by eapply valid_evolves|].
  split; [by etrans|]. constructor; [|done]. by eapply slot_ok_evolves.
Qed.

(** ** Receivers *)
Record receiver_pre (h : heaps) (r : Receiver) : Prop := {
  pre_webhook : Forall (slot_pre ho_HTTPConfig h) (WebhookConfigs r);
  pre_slack : Forall (slot_pre sc_HTTPConfig h) (SlackConfigs r);
  pre_pushover : Forall (slot_pre ho_HTTPConfig h) (PushoverConfigs r);
  pre_pagerduty : Forall (slot_pre uc_HTTPConfig h) (PagerdutyConfigs r);
  pre_incidentio : Forall (slot_pre ho_HTTPConfig h) (IncidentioConfigs r);
  pre_opsgenie : Forall (slot_pre kc_HTTPConfig h) (OpsGenieConfigs r);
  pre_wechat : Forall (slot_pre wc_HTTPConfig h) (WechatConfigs r);
  pre_victorops : Forall (slot_pre kc_HTTPConfig h) (VictorOpsConfigs r);
  pre_sns : Forall (slot_pre ho_HTTPConfig h) (SNSConfigs r);
  pre_telegram : Forall (slot_pre kc_HTTPConfig h) (TelegramConfigs r);
  pre_discord : Forall (slot_pre hk_HTTPConfig h) (DiscordConfigs r);
  pre_webex : Forall (slot_pre uc_HTTPConfig h) (WebexConfigs r);
  pre_msteams : Forall (slot_pre hk_HTTPConfig h) (MSTeamsConfigs r);
  pre_msteamsv2 : Forall (slot_pre hk_HTTPConfig h) (MSTeamsV2Configs r);
  pre_jira : Forall (slot_pre uc_HTTPConfig h) (JiraConfigs r);
  pre_rocketchat : Forall (slot_pre rc_HTTPConfig h) (RocketchatConfigs r);
  pre_mattermost : Forall (slot_pre hk_HTTPConfig h) (MattermostConfigs r);
}.

(** The receiver [r] was read and accepted as [r'].  What a webhook, pushover,
    incidentio or sns slot takes from the global block is its HTTP configuration. *)
Record receiver_ok (h : heaps) (r r' : Receiver) : Prop := {
  ok_name : Name r' = Name r;
  ok_webhook : Forall2 (slot_ok true shared ho_HTTPConfig (λ _ _, True) h) (WebhookConfigs r) (WebhookConfigs r');
  ok_email : Forall2 (slot_ok true (λ _ _ _, True) (λ _, None) complete_email h) (EmailConfigs r) (EmailConfigs r');
  ok_slack : Forall2 (slot_ok false copied sc_HTTPConfig complete_slack h) (SlackConfigs r) (SlackConfigs r');
  ok_pushover : Forall2 (slot_ok true shared ho_HTTPConfig (λ _ _, True) h) (PushoverConfigs r) (PushoverConfigs r');
  ok_pagerduty : Forall2 (slot_ok true shared uc_HTTPConfig complete_url h) (PagerdutyConfigs r) (PagerdutyConfigs r');
  ok_incidentio : Forall2 (slot_ok true shared ho_HTTPConfig (λ _ _, True) h) (IncidentioConfigs r) (IncidentioConfigs r');
  ok_opsgenie : Forall2 (slot_ok false shared kc_HTTPConfig complete_key h) (OpsGenieConfigs r) (OpsGenieConfigs r');
  ok_wechat : Forall2 (slot_ok false shared wc_HTTPConfig complete_wechat h) (WechatConfigs r) (WechatConfigs r');
  ok_victorops : Forall2 (slot_ok true shared kc_HTTPConfig complete_key h) (VictorOpsConfigs r) (VictorOpsConfigs r');
  ok_sns : Forall2 (slot_ok true shared ho_HTTPConfig (λ _ _, True) h) (SNSConfigs r) (SNSConfigs r');
  ok_telegram : Forall2 (slot_ok true shared kc_HTTPConfig complete_telegram h) (TelegramConfigs r) (TelegramConfigs r');
  ok_discord : Forall2 (slot_ok true shared hk_HTTPConfig complete_hook h) (DiscordConfigs r) (DiscordConfigs r');
  ok_webex : Forall2 (slot_ok true shared uc_HTTPConfig complete_url h) (WebexConfigs r) (WebexConfigs r');
  ok_msteams : Forall2 (slot_ok true shared hk_HTTPConfig complete_hook h) (MSTeamsConfigs r) (MSTeamsConfigs r');
  ok_msteamsv2 : Forall2 (slot_ok true copied hk_HTTPConfig complete_msteamsv2 h) (MSTeamsV2Configs r) (MSTeamsV2Configs r');
  ok_jira : Forall2 (slot_ok true shared uc_HTTPConfig complete_url h) (JiraConfigs r) (JiraConfigs r');
  ok_rocketchat : Forall2 (slot_ok false shared rc_HTTPConfig complete_rocketchat h) (RocketchatConfigs r) (RocketchatConfigs r');
  ok_mattermost : Forall2 (slot_ok true shared hk_HTTPConfig complete_hook h) (MattermostConfigs r) (MattermostConfigs r');
}.

Lemma stable_const {A} (P : A → Prop) : stable (λ _, P).
Proof. by intros h h' c _. Qed.
Lemma stable_slack : stable complete_slack.
Proof. intros h h' c. apply complete_slack_evolves. Qed.
Lemma stable_key : stable complete_key.
Proof. intros h h' c. apply complete_key_evolves. Qed.
Lemma stable_wechat : stable complete_wechat.
Proof. intros h h' c. apply complete_wechat_evolves. Qed.
Lemma stable_msteamsv2 : stable complete_msteamsv2.
Proof. intros h h' c. apply complete_msteamsv2_evolves. Qed.
Lemma stable_copied : stable_inh copied.
Proof. intros h h' p p'. apply copied_evolves. Qed.
Lemma stable_shared : stable_inh shared.
Proof. by intros h h' p p'. Qed.
Lemma stable_any : stable_inh (λ _ _ _, True).
Proof. by intros h h' p p'. Qed.
Hint Resolve stable_slack stable_key stable_wechat stable_msteamsv2 stable_copied stable_shared stable_any : am.
Hint Extern 4 (stable _) => apply stable_const : am.

Lemma receiver_pre_evolves h h' r : evolves h h' → receiver_pre h r → receiver_pre h' r.
Proof. intros E []. split; by eapply slots_pre_evolves. Qed.
Lemma receiver_ok_evolves h h' r r' : evolves h h' → receiver_ok h r r' → receiver_ok h' r r'.
Proof. intros E []. split; [done|..]; (eapply slots_ok_evolves; [| |done|done]); auto with am. Qed.
(** The kinds for which a nil slot is accepted. *)
Definition optional_nils (r : Receiver) : list bool :=
  nils (SlackConfigs r) ++ nils (OpsGenieConfigs r) ++ nils (WechatConfigs r) ++ nils (RocketchatConfigs r).

Lemma email_pre h (slots : list (option EmailConfig)) : Forall (slot_pre (λ _, None) h) slots.
Proof. apply Forall_true. intros s c _. apply own_None. Qed.

(** One loop of [fill_receiver]: the facts about the heap are moved to the heap
    after it. *)
Ltac next_slots H L pre :=
  let slots := fresh "slots" in let h1 := fresh "h" in let Hs := fresh "Hs" in
  let E := fresh "E" in let Ho := fresh "Ho" in
  apply bind_run in H as (slots & h1 & Hs & H);
  match goal with Hp : receiver_pre ?h ?r, Hg : valid (HTTPConfig g) ?h, E0 : evolves ?h0 ?h |- _ =>
    destruct (each_slots _ _ _ _ _ _ _ _ _ L ltac:(auto with am) ltac:(auto with am) Hs
      ltac:(apply pre; try exact Hp) Hg) as (E & Ho); clear Hs;
    repeat match goal with Hk : Forall2 (slot_ok ?m ?inh ?http ?C h) ?ss ?ss' |- _ =>
      apply (slots_ok_evolves m inh http C h h1 ss ss' ltac:(auto with am) ltac:(auto with am) E) in Hk end;
    apply (receiver_pre_evolves _ _ _ E) in Hp; apply (valid_evolves _ _ _ E) in Hg;
    apply (transitivity E0) in E; clear E0
  end.

Lemma fill_receiver_ok r h r' h' :
  fill_receiver g r h = Ok (r', h') → receiver_pre h r → valid (HTTPConfig g) h →
  evolves h h' ∧ receiver_ok h' r r'.
Proof.
  intros H Hp Hg. assert (E0 : evolves h h) by done. unfold fill_receiver in H.
  next_slots H (need_fills Webhook _ _ _ _ fill_http_ok) pre_webhook.
  next_slots H (need_fills Email _ _ _ _ fill_email_ok) email_pre.
  next_slots H (or_empty_fills (mkSlackConfig None None "" "" "" None false) _ _ _ _ eq_refl fill_slack_ok) pre_slack.
  next_slots H (need_fills Pushover _ _ _ _ fill_http_ok) pre_pushover.
  next_slots H (need_fills Pagerduty _ _ _ _ (fill_url_ok (PagerdutyURL g) "pagerduty_url")) pre_pagerduty.
  next_slots H (need_fills Incidentio _ _ _ _ fill_http_ok) pre_incidentio.
  next_slots H (or_empty_fills (mkKeyConfig None None "" "") _ _ _ _ eq_refl
    (fill_key_ok (OpsGenieAPIURL g) (OpsGenieAPIKey g) (OpsGenieAPIKeyFile g)
       "opsgenie_api_url" "opsgenie_api_key")) pre_opsgenie.
  next_slots H (or_empty_fills (mkWechatConfig None None "" "" "") _ _ _ _ eq_refl fill_wechat_ok) pre_wechat.
  next_slots H (need_fills VictorOps _ _ _ _
    (fill_key_ok (VictorOpsAPIURL g) (VictorOpsAPIKey g) (VictorOpsAPIKeyFile g)
       "victorops_api_url" "victorops_api_key")) pre_victorops.
  next_slots H (need_fills SNS _ _ _ _ fill_http_ok) pre_sns.
  next_slots H (need_fills Telegram _ _ _ _ fill_telegram_ok) pre_telegram.
  next_slots H (need_fills Discord _ _ _ _ (fill_hook_ok "discord")) pre_discord.
  next_slots H (need_fills Webex _ _ _ _ (fill_url_ok (WebexAPIURL g) "webex_api_url")) pre_webex.
  next_slots H (need_fills MSTeams _ _ _ _ (fill_hook_ok "msteams")) pre_msteams.
  next_slots H (need_fills MSTeamsV2 _ _ _ _ fill_msteamsv2_ok) pre_msteamsv2.
  next_slots H (need_fills Jira _ _ _ _ (fill_url_ok (JiraAPIURL g) "jira_api_url")) pre_jira.
  next_slots H (or_empty_fills (mkRocketchatConfig None None None "" None "") _ _ _ _ eq_refl fill_rocketchat_ok)
    pre_rocketchat.
  next_slots H (need_fills Mattermost _ _ _ _ fill_mattermost_ok) pre_mattermost.
  apply ret_run in H as [-> ->]. split; [done|]. split; [done|assumption..].
Qed.

Lemma receiver_ok_nils h r r' : receiver_ok h r r' → optional_nils r' = optional_nils r.
Proof.
  intros []. unfold optional_nils. repeat (apply (f_equal2 app); [by eapply slots_ok_nils|]). by eapply slots_ok_nils.
Qed.

(** ** All receivers *)
Lemma fill_receiver_Name r h r' h' : fill_receiver g r h = Ok (r', h') → Name r' = Name r.
Proof.
  unfold fill_receiver. intros H. do 18 apply bind_run in H as (? & ? & _ & H).
  by apply ret_run in H as [-> _].
Qed.

Lemma fill_receivers_names rs : ∀ names h names' rs' h',
  fill_receivers g names rs h = Ok (names', rs', h') →
  Name <$> rs' = Name <$> rs ∧ names' = names ∪ list_to_set (Name <$> rs) ∧ NoDup (Name <$> rs) ∧
  ∀ n, n ∈ Name <$> rs → n ∉ names.
Proof.
  induction rs as [|r rs IH]; intros names h names' rs' h' H; cbn [fill_receivers] in H.
  { apply ret_run in H as [[= -> ->] ->]. split_and!; [done|set_solver|constructor|set_solver]. }
  apply bind_run in H as (x & h1 & [Hn ->]%check_run & H). apply bool_decide_eq_false in Hn.
  apply bind_run in H as (r' & h1 & Hr%fill_receiver_Name & H).
  apply bind_run in H as ([ns rs1] & h2 & Hrs & H). apply ret_run in H as [[= -> ->] ->].
  destruct (IH _ _ _ _ _ Hrs) as (Hnames & -> & Hnd & Hnot).
  rewrite Hr in *. rewrite !fmap_cons. split_and!.
  - by rewrite Hr, Hnames.
  - set_solver.
  - constructor; [|done]. intros Hin%Hnot. set_solver.
  - intros n [->|Hin]%elem_of_cons; [done|]. apply Hnot in Hin. set_solver.
Qed.

Lemma fill_receivers_ok rs : ∀ names h names' rs' h',
  fill_receivers g names rs h = Ok (names', rs', h') →
  Forall (receiver_pre h) rs → valid (HTTPConfig g) h →
  evolves h h' ∧ Forall2 (receiver_ok h') rs rs'.
Proof.
  induction rs as [|r rs IH]; intros names h names' rs' h' H Hp Hg; cbn [fill_receivers] in H.
  { apply ret_run in H as [[= -> ->] ->]. by split; [|constructor]. }
  apply bind_run in H as (x & h1 & [_ ->]%check_run & H).
  apply bind_run in H as (r' & h1 & Hr & H). apply bind_run in H as ([ns rs1] & h2 & Hrs & H).
  apply ret_run in H as [[= -> ->] ->]. apply Forall_cons_1 in Hp as [Hp1 Hp].
  destruct (fill_receiver_ok _ _ _ _ Hr Hp1 Hg) as (E1 & Hok).
  destruct (IH _ _ _ _ _ Hrs) as (E2 & Hoks).
  { eapply Forall_impl; [exact Hp|]. eauto using receiver_pre_evolves. }
  { by eapply valid_evolves. }
  split; [by etrans|]. constructor; [by eapply receiver_ok_evolves|done].
Qed.

(** ** Resolving file names *)
Lemma slot_http_elem {A} must inh (http : A → option loc) C h slots0 slots s :
  Forall2 (slot_ok must inh http C h) slots0 slots → s ∈ slot_http http slots →
  match s with Some p => valid p h | None => must = false ∧ true ∈ nils slots end.
Proof.
  intros Ho (slot & -> & Hin)%list_elem_of_fmap. pose proof Hin as [i Hi]%list_elem_of_lookup.
  destruct (Forall2_lookup_r _ _ _ _ _ Ho Hi) as (slot0 & _ & Hs).
  destruct slot as [c|], slot0 as [c0|]; cbn in *; [by destruct Hs|done|done|]. split; [done|].
  apply list_elem_of_fmap. by exists None.
Qed.

Lemma slot_http_nil {A} (http : A → option loc) (slots : list (option A)) :
  true ∈ nils slots → None ∈ slot_http http slots.
Proof.
  intros (slot & Heq & Hin)%list_elem_of_fmap. apply list_elem_of_fmap. exists slot. by destruct slot.
Qed.

Lemma http_slots_elem h r0 r s :
  receiver_ok h r0 r → s ∈ http_slots r →
  match s with Some p => valid p h | None => true ∈ optional_nils r end.
Proof.
  intros [] Hin. unfold http_slots in Hin. unfold optional_nils. rewrite !elem_of_app in Hin.
  repeat match goal with H : _ ∨ _ |- _ => destruct H as [H|H] end.
  all: match goal with Ho : Forall2 (slot_ok _ _ ?http _ _) _ ?ss, H : _ ∈ slot_http ?http ?ss |- _ =>
    apply (slot_http_elem _ _ _ _ _ _ _ _ Ho) in H end.
  all: destruct s; [done|]; destruct Hin as [Hm Hin]; first [discriminate Hm|rewrite !elem_of_app; auto].
Qed.

Lemma http_slots_nil r : true ∈ optional_nils r → None ∈ http_slots r.
Proof.
  unfold optional_nils, http_slots. rewrite !elem_of_app.
  intros [Hin|[Hin|[Hin|Hin]]]; eapply slot_http_nil in Hin; eauto 20.
Qed.

Lemma set_directory_run dir p h : valid p h →
  ∃ h', set_directory dir p h = Ok ((), h') ∧ dom (h_http h') = dom (h_http h).
Proof.
  intros Hv. unfold set_directory. destruct p as [l|]; [|by exists h].
  pose proof (Hv l eq_refl) as [c Hc]%elem_of_dom.
  exists (mkHeaps (<[l := SetDirectory dir c]> (h_http h)) (h_url h)).
  unfold mbind, M_bind, get_http, put_http. rewrite Hc. split; [done|]. cbn.
  rewrite dom_insert_L. apply elem_of_dom_2 in Hc. set_solver.
Qed.

Lemma resolve_slots_run dir slots : ∀ h,
  (∀ p, Some p ∈ slots → valid p h) → None ∉ slots →
  ∃ l h', each (resolve_slot dir) slots h = Ok (l, h').
Proof.
  induction slots as [|s slots IH]; intros h Hv Hn; [by eexists _, _|].
  destruct s as [p|]; [|set_solver]. destruct (set_directory_run dir p h) as (h1 & H1 & Hd); [set_solver|].
  destruct (IH h1) as (l & h' & Hl); [|set_solver|].
  { intros q Hq l Hl. rewrite Hd. apply (Hv q); [set_solver|done]. }
  exists (() :: l), h'. cbn [each]. unfold mbind, M_bind. cbn [resolve_slot]. by rewrite H1, Hl.
Qed.

Lemma resolve_slots_panic dir slots : ∀ h l h',
  each (resolve_slot dir) slots h = Ok (l, h') → None ∉ slots.
Proof.
  induction slots as [|s slots IH]; intros h l h' H; [set_solver|]. cbn [each] in H.
  apply bind_run in H as (x & h1 & H1 & H). apply bind_run in H as (y & h2 & Hy%IH & _).
  destruct s as [p|]; [set_solver|]. by apply fail_run in H1.
Qed.

Lemma resolve_run_iff dir rs0 rs h :
  Forall2 (receiver_ok h) rs0 rs → valid (HTTPConfig g) h →
  (∃ h', resolve_http_configs dir g rs h = Ok ((), h')) ↔ true ∉ rs ≫= optional_nils.
Proof.
  intros Hok2 Hg.
  assert (Hok : ∀ r, r ∈ rs → ∃ r0, receiver_ok h r0 r).
  { intros r [i Hi]%list_elem_of_lookup. destruct (Forall2_lookup_r _ _ _ _ _ Hok2 Hi) as (r0 & _ & ?). eauto. }
  split.
  - intros (h' & (x & h1 & _ & (l & h2 & Hn%resolve_slots_panic & _)%bind_run)%bind_run) Hin.
    apply Hn. apply list_elem_of_bind in Hin as (r & Hin & Hr). apply list_elem_of_bind.
    eauto using http_slots_nil.
  - intros Hn. destruct (set_directory_run dir _ _ Hg) as (h1 & H1 & Hd).
    destruct (resolve_slots_run dir (rs ≫= http_slots) h1) as (l & h' & Hl).
    + intros p (r & Hp & Hr)%list_elem_of_bind l Hl. rewrite Hd.
      destruct (Hok r Hr) as [r0 Hr0]. eapply (http_slots_elem h r0 r (Some p)); eauto.
    + intros (r & Hp & Hr)%list_elem_of_bind. apply Hn, list_elem_of_bind. exists r.
      split; [|done]. destruct (Hok r Hr) as [r0 Hr0]. by apply (http_slots_elem h r0 r None Hr0).
    + exists h'. unfold resolve_http_configs. apply bind_run. eexists _, _. split; [exact H1|].
      apply bind_run. by eexists _, _.
Qed.

(** No slot of the receiver, of whatever kind, is null. *)
Definition no_null (r : Receiver) : Prop :=
  true ∉ nils (WebhookConfigs r) ++ nils (EmailConfigs r) ++ nils (SlackConfigs r) ++ nils (PushoverConfigs r) ++
    nils (PagerdutyConfigs r) ++ nils (IncidentioConfigs r) ++ nils (OpsGenieConfigs r) ++
    nils (WechatConfigs r) ++ nils (VictorOpsConfigs r) ++ nils (SNSConfigs r) ++ nils (TelegramConfigs r) ++
    nils (DiscordConfigs r) ++ nils (WebexConfigs r) ++ nils (MSTeamsConfigs r) ++ nils (MSTeamsV2Configs r) ++
    nils (JiraConfigs r) ++ nils (RocketchatConfigs r) ++ nils (MattermostConfigs r).

Lemma required_not_null {A} inh (http : A → option loc) C h slots slots' :
  Forall2 (slot_ok true inh http C h) slots slots' → true ∉ nils slots'.
Proof.
  unfold nils. induction 1 as [|s s' ss ss' Hs _ IH]; [by intros ?%elem_of_nil|].
  cbn. intros [E|Hin]%elem_of_cons; [by destruct s, s'|done].
Qed.

Lemma receiver_no_null h r r' : receiver_ok h r r' → true ∉ optional_nils r' → no_null r'.
Proof.
  unfold no_null, optional_nils. rewrite !not_elem_of_app. intros [] (? & ? & ? & ?).
  split_and!; first [assumption|by eapply required_not_null].
Qed.

Lemma accepted_nils h rs rs' : Forall2 (receiver_ok h) rs rs' → rs' ≫= optional_nils = rs ≫= optional_nils.
Proof. induction 1 as [|r r' rs rs' Hr _ IH]; [done|]. cbn. by rewrite IH, (receiver_ok_nils _ _ _ Hr). Qed.

Lemma accepted_names h rs rs' : Forall2 (receiver_ok h) rs rs' → Name <$> rs' = Name <$> rs.
Proof. induction 1 as [|r r' rs rs' Hr _ IH]; [done|]. cbn. by rewrite IH, (ok_name _ _ _ Hr). Qed.


(** Resolving the file names of an accepted configuration completes exactly when none of its
    slack, opsgenie, wechat and rocketchat slots is null; otherwise it dereferences the null slot,
    although the checks have accepted it as an empty configuration. *)
Theorem resolve_completes_iff_no_null_slot dir rs h names rs' h' :
  fill_receivers g ∅ rs h = Ok (names, rs', h') →
  Forall (receiver_pre h) rs → valid (HTTPConfig g) h →
  (∃ h'', resolve_http_configs dir g rs' h' = Ok ((), h'')) ↔ true ∉ rs ≫= optional_nils.
Proof.
  intros H Hp Hg. destruct (fill_receivers_ok _ _ _ _ _ _ H Hp Hg) as (E & Hok).
  rewrite <- (accepted_nils _ _ _ Hok). eapply resolve_run_iff; [exact Hok|by eapply valid_evolves].
Qed.

(** Two checks of Slack settings dereference a missing api_url instead of reporting an error:
    the global block with an app token and slack_api_url_file, and a receiver with update_message
    and no api_url, which is how a receiver with an app token is written. *)
Theorem slack_checks_panic h :
  (SlackAPIURL g = None → SlackAPIURLFile g ≠ ""%string →
   (SlackAppToken g = ""%string ↔ SlackAppTokenFile g ≠ ""%string) → check_global g h = Err Panic) ∧
  ∀ c, sc_APIURL c = None → sc_APIURLFile c = ""%string → sc_UpdateMessage c = true →
    (sc_AppToken c = ""%string ∨ sc_AppTokenFile c = ""%string) → Slack_Validate c h = Err Panic.
Proof.
  split.
  - intros Hu Hf Ht. unfold check_global, mbind, M_bind, check. rewrite Hu.
    destruct (is_set (SlackAppToken g)) eqn:E1, (is_set (SlackAppTokenFile g)) eqn:E2; bools; cbn;
      try by naive_solver.
    all: apply is_set_true in Hf; by rewrite Hf.
  - intros c Hu Hf Hm Ht. unfold Slack_Validate, mbind, M_bind, check. rewrite Hu, Hf, Hm. cbn.
    destruct (is_set (sc_AppToken c)) eqn:E1, (is_set (sc_AppTokenFile c)) eqn:E2; bools; naive_solver.
Qed.
End inv.
End ConfigReceiversInv.
