(* ===== verification/Config.v ===== *)
(** * Loading a configuration (config/config.go, config/common/)

    The checks that run while a YAML document is decoded.  The decoder itself is
    gopkg.in/yaml.v2: the model starts from the decoded plain structures (the
    [Raw] types), in which a missing or null field is [None], and runs the
    [UnmarshalYAML] methods on them.  Which of several errors is reported depends
    on the order of the keys in the document; the model takes the order of the
    struct fields. *)

From Stdlib Require Import Ascii String.
From stdpp Require Import base gmap strings list sorting.
From S2P Require Import Prelude Utf8 Labels Silence Alert Bucket Store Inhibit Strconv Route.
From S2P Require Import TimeInterval MatchLexer MatchParser Compat ConfigReceivers ConfigReceiversInv.

(** [model.LabelNameRE] of prometheus/common. *)
Class LabelNameRE := LabelNameRE_MatchString : string → bool.

Module Config.
Import ConfigReceivers.

Inductive load_error :=
| InvalidLabelName (n : string)
| InvalidRegexpValue (n : string)
| InvalidRegexp (s : string)
| InvalidMatcher (e : Compat.error)
| InvalidRouteLabel (n : string)
| InvalidGroupBy (n : string)
| WildcardGroupBy
| DuplicatedGroupBy (n : string)
| ZeroGroupInterval
| ZeroRepeatInterval
| InvalidEqual (n : string)
| MissingIntervalName
| MissingReceiverName
| ReceiverNameLabel (n : string)
| InReceiver (e : config_error)
| NoRoutes
| RootReceiver
| RootMatchers
| RootMuteTimeIntervals
| RootActiveTimeIntervals
| UndefinedReceiver (n : string)
| IntervalNotUnique (n : string)
| UndefinedInterval (n : string)
| NoRoute
| RootContinue
| UnreadableFile
| UndecodableDocument
| NilDereference.   (** the panic *)

(** A tree of routes in which a child may be null. *)
Inductive tree (A : Type) := Node (x : A) (children : list (option (tree A))).
Arguments Node {A} x children.

(** A name and its intervals ([MuteTimeInterval], [TimeInterval]). *)
Abbreviation named_intervals := (string * list TimeInterval.TimeInterval)%type.

Section config.
Context `{RE : Regexp, LV : LabelValidation, LN : LabelNameRE, MR : MapRange, UP : UnicodePrint}.
Context `{CL : ConfigLib}.
Context (mode : Compat.mode).

Definition reject (b : bool) (e : load_error) : result load_error () := if b then Err e else Ok ().

(** The loops that check every element of a list. *)
Fixpoint check_all {A} (f : A → result load_error ()) (l : list A) : result load_error () :=
  match l with
  | [] => Ok ()
  | x :: l => f x;; check_all f l
  end.
Fixpoint map_all {A B} (f : A → result load_error B) (l : list A) : result load_error (list B) :=
  match l with
  | [] => Ok []
  | x :: l => y ← f x; ys ← map_all f l; Ok (y :: ys)
  end.

(** ** config/common/matchers.go *)

(** [Regexp.UnmarshalYAML]: the pattern of the compiled expression. *)
Definition Regexp_UnmarshalYAML (s : string) : result load_error string :=
  match Compile ("^(?:" +:+ s +:+ ")$") with
  | Some _ => Ok ("^(?:" +:+ s +:+ ")$")
  | None => Err (InvalidRegexp s)
  end.

(** For a null value the method of [Regexp] is not called. *)
Definition decode_regexp (kv : string * option string) : result load_error (string * option string) :=
  match kv with
  | (k, None) => Ok (k, None)
  | (k, Some s) => p ← Regexp_UnmarshalYAML s; Ok (k, Some p)
  end.
Definition check_regexp (kv : string * option string) : result load_error (string * string) :=
  let '(k, v) := kv in
  reject (negb (LabelNameRE_MatchString k)) (InvalidLabelName k);;
  match v with
  | None => Err (InvalidRegexpValue k)
  | Some p => Ok (k, p)
  end.
Definition MatchRegexps_UnmarshalYAML (m : gmap string (option string))
    : result load_error (gmap string string) :=
  kvs ← map_all decode_regexp (range m);
  l ← map_all check_regexp kvs;
  Ok (list_to_map l).

Fixpoint parse_lines (lines : list string) : result load_error (list Labels.Matcher) :=
  match lines with
  | [] => Ok []
  | line :: lines =>
      pm ← match Compat.parseMatchers mode line with Ok pm => Ok pm | Err e => Err (InvalidMatcher e) end;
      ms ← parse_lines lines;
      Ok (pm ++ ms)
  end.
Definition Matchers_UnmarshalYAML (lines : list string) : result load_error (list Labels.Matcher) :=
  ms ← parse_lines lines; Ok (merge_sort Route.matcher_le ms).

Definition check_match_names (m : gmap string string) : result load_error () :=
  check_all (λ kv, reject (negb (LabelNameRE_MatchString kv.1)) (InvalidLabelName kv.1)) (range m).

(** ** config/common/inhibitrule.go *)
Record RawInhibitRule := mkRawInhibitRule {
  ri_Name : string;
  ri_SourceMatch : gmap string string;
  ri_SourceMatchRE : gmap string (option string);
  ri_SourceMatchers : list string;
  ri_TargetMatch : gmap string string;
  ri_TargetMatchRE : gmap string (option string);
  ri_TargetMatchers : list string;
  ri_Equal : list string;
}.

Definition InhibitRule_UnmarshalYAML (r : RawInhibitRule) : result load_error Inhibit.InhibitRuleConfig :=
  sre ← MatchRegexps_UnmarshalYAML (ri_SourceMatchRE r);
  sm ← Matchers_UnmarshalYAML (ri_SourceMatchers r);
  tre ← MatchRegexps_UnmarshalYAML (ri_TargetMatchRE r);
  tm ← Matchers_UnmarshalYAML (ri_TargetMatchers r);
  check_match_names (ri_SourceMatch r);;
  check_match_names (ri_TargetMatch r);;
  check_all (λ l, reject (negb (IsValidLabelName l)) (InvalidEqual l)) (ri_Equal r);;
  Ok (Inhibit.mkConfig (ri_Name r) (ri_SourceMatch r) sre sm (ri_TargetMatch r) tre tm (ri_Equal r)).

(** ** Routes *)
Record RawRouteFields := mkRawRoute {
  rr_Receiver : string;
  rr_GroupByStr : option (list string);
  rr_Match : gmap string string;
  rr_MatchRE : gmap string (option string);
  rr_Matchers : list string;
  rr_MuteTimeIntervals : list string;
  rr_ActiveTimeIntervals : list string;
  rr_Continue : bool;
  rr_GroupWait : option duration;
  rr_GroupInterval : option duration;
  rr_RepeatInterval : option duration;
  rr_Labels : LabelSet;
}.

(** The loop over [GroupByStr]: whether the wildcard is there, and the labels. *)
Fixpoint group_by (l : list string) : result load_error (bool * list string) :=
  match l with
  | [] => Ok (false, [])
  | n :: l =>
      if bool_decide (n = "..."%string) then
        '(_, names) ← group_by l; Ok (true, names)
      else
        reject (negb (IsValidLabelName n)) (InvalidGroupBy n);;
        '(all, names) ← group_by l; Ok (all, n :: names)
  end.

Fixpoint check_duplicates (seen : gset string) (l : list string) : result load_error () :=
  match l with
  | [] => Ok ()
  | n :: l =>
      reject (bool_decide (n ∈ seen)) (DuplicatedGroupBy n);;
      check_duplicates ({[n]} ∪ seen) l
  end.

Definition is_zero (d : option duration) : bool :=
  match d with Some d => bool_decide (d = 0) | None => false end.

(** [Route.UnmarshalYAML] on one node. *)
Definition route_fields (r : RawRouteFields) : result load_error Route.RouteConfig :=
  re ← MatchRegexps_UnmarshalYAML (rr_MatchRE r);
  ms ← Matchers_UnmarshalYAML (rr_Matchers r);
  check_match_names (rr_Match r);;
  check_all (λ kv, reject (negb (IsValidLabelName kv.1)) (InvalidRouteLabel kv.1)) (range (rr_Labels r));;
  '(all, names) ← group_by (default [] (rr_GroupByStr r));
  let groupBy := match names, rr_GroupByStr r with
                 | _ :: _, _ => Some names
                 | [], Some [] => Some []
                 | [], _ => None
                 end in
  reject (bool_decide (names ≠ []) && all) WildcardGroupBy;;
  check_duplicates ∅ names;;
  reject (is_zero (rr_GroupInterval r)) ZeroGroupInterval;;
  reject (is_zero (rr_RepeatInterval r)) ZeroRepeatInterval;;
  Ok (Route.mkRouteConfig (rr_Receiver r) groupBy all (rr_Match r) re ms (rr_MuteTimeIntervals r)
        (rr_ActiveTimeIntervals r) (rr_Continue r) (rr_GroupWait r) (rr_GroupInterval r)
        (rr_RepeatInterval r) (rr_Labels r)).

(** The children are decoded first. *)
Fixpoint Route_UnmarshalYAML (t : tree RawRouteFields) : result load_error (tree Route.RouteConfig) :=
  match t with
  | Node r children =>
      cs ← (fix go (l : list (option (tree RawRouteFields))) :=
              match l with
              | [] => Ok []
              | None :: l => cs ← go l; Ok (None :: cs)
              | Some c :: l => c ← Route_UnmarshalYAML c; cs ← go l; Ok (Some c :: cs)
              end) children;
      c ← route_fields r;
      Ok (Node c cs)
  end.

(** [checkReceiver] and [checkTimeInterval]: children first, in order; a null
    child is dereferenced. *)
Fixpoint checkReceiver (receivers : gset string) (t : tree Route.RouteConfig) : result load_error () :=
  match t with
  | Node c children =>
      (fix go (l : list (option (tree Route.RouteConfig))) :=
         match l with
         | [] => Ok ()
         | None :: _ => Err NilDereference
         | Some sr :: l => checkReceiver receivers sr;; go l
         end) children;;
      if bool_decide (Route.c_Receiver c = ""%string) then Ok () else
      reject (bool_decide (Route.c_Receiver c ∉ receivers)) (UndefinedReceiver (Route.c_Receiver c))
  end.

Fixpoint checkTimeInterval (intervals : gset string) (t : tree Route.RouteConfig) : result load_error () :=
  match t with
  | Node c children =>
      (fix go (l : list (option (tree Route.RouteConfig))) :=
         match l with
         | [] => Ok ()
         | None :: _ => Err NilDereference
         | Some sr :: l => checkTimeInterval intervals sr;; go l
         end) children;;
      check_all (λ n, reject (bool_decide (n ∉ intervals)) (UndefinedInterval n))
        (Route.c_ActiveTimeIntervals c);;
      check_all (λ n, reject (bool_decide (n ∉ intervals)) (UndefinedInterval n))
        (Route.c_MuteTimeIntervals c)
  end.

(** The tree without null children. *)
Fixpoint to_route (t : tree Route.RouteConfig) : option Route.config_route :=
  match t with
  | Node c children =>
      cs ← (fix go (l : list (option (tree Route.RouteConfig))) :=
              match l with
              | [] => Some []
              | None :: _ => None
              | Some c :: l => c ← to_route c; cs ← go l; Some (c :: cs)
              end) children;
      Some (Route.ConfigRoute c cs)
  end.

(** ** Named intervals and receivers *)
(** [MuteTimeInterval.UnmarshalYAML] and [TimeInterval.UnmarshalYAML]. *)
Definition TimeInterval_UnmarshalYAML (ti : named_intervals) : result load_error named_intervals :=
  reject (bool_decide (ti.1 = ""%string)) MissingIntervalName;; Ok ti.

Record RawReceiver := mkRawReceiver {
  raw_receiver : Receiver;
  raw_labels : option LabelSet;
}.

(** [Receiver.UnmarshalYAML]: the receiver and its labels. *)
Definition Receiver_UnmarshalYAML (r : RawReceiver) : result load_error (Receiver * LabelSet) :=
  let name := Name (raw_receiver r) in
  let labels := default ∅ (raw_labels r) in
  reject (bool_decide (name = ""%string)) MissingReceiverName;;
  reject (match labels !! "name"%string with Some v => bool_decide (v ≠ name) | None => false end)
    (ReceiverNameLabel name);;
  Ok (raw_receiver r, <["name"%string := name]> labels).

(** ** The whole configuration *)
Record RawConfig := mkRawConfig {
  raw_Global : option GlobalConfig;
  raw_Route : option (tree RawRouteFields);
  raw_InhibitRules : list RawInhibitRule;
  raw_Receivers : list RawReceiver;
  raw_MuteTimeIntervals : list named_intervals;
  raw_TimeIntervals : list named_intervals;
}.

Record Config := mkConfig {
  Global : GlobalConfig;
  Route_ : tree Route.RouteConfig;
  InhibitRules : list Inhibit.InhibitRuleConfig;
  Receivers : list (Receiver * LabelSet);
  MuteTimeIntervals : list named_intervals;
  TimeIntervals : list named_intervals;
}.

(** A run of the receiver code, with its panics. *)
Definition in_receivers {A} (m : M A) (h : heaps) : result load_error (A * heaps) :=
  match m h with Ok x => Ok x | Err Panic => Err NilDereference | Err e => Err (InReceiver e) end.

(** The loops over the two lists of named intervals. *)
Fixpoint interval_names (names : gset string) (l : list named_intervals) : result load_error (gset string) :=
  match l with
  | [] => Ok names
  | ti :: l =>
      reject (bool_decide (ti.1 ∈ names)) (IntervalNotUnique ti.1);;
      interval_names ({[ti.1]} ∪ names) l
  end.

(** One receiver: its Slack configurations are decoded before it.  The checks
    only read the heap. *)
Definition validate_slack (r : Receiver) : M () :=
  each (λ s : option SlackConfig, match s with Some c => Slack_Validate c | None => mret () end)
    (SlackConfigs r);;
  mret ().
Definition decode_receiver (h : heaps) (r : RawReceiver) : result load_error (Receiver * LabelSet) :=
  in_receivers (validate_slack (raw_receiver r)) h;; Receiver_UnmarshalYAML r.

Definition Config_UnmarshalYAML (raw : RawConfig) (h : heaps) : result load_error (Config * heaps) :=
  route ← (match raw_Route raw with
           | None => Ok None
           | Some t => t ← Route_UnmarshalYAML t; Ok (Some t)
           end);
  inhibit ← map_all InhibitRule_UnmarshalYAML (raw_InhibitRules raw);
  receivers ← map_all (decode_receiver h) (raw_Receivers raw);
  mutes ← map_all TimeInterval_UnmarshalYAML (raw_MuteTimeIntervals raw);
  intervals ← map_all TimeInterval_UnmarshalYAML (raw_TimeIntervals raw);
  '(g, h) ← in_receivers (match raw_Global raw with Some g => mret g | None => DefaultGlobalConfig end) h;
  '(_, h) ← in_receivers (check_global g) h;
  '((names, filled), h) ← in_receivers (fill_receivers g ∅ receivers.*1) h;
  match route with
  | None => Err NoRoutes
  | Some (Node root children as t) =>
      reject (bool_decide (Route.c_Receiver root = ""%string)) RootReceiver;;
      reject (bool_decide (Route.c_Match root ≠ ∅) || bool_decide (Route.c_MatchRE root ≠ ∅) ||
              bool_decide (Route.c_Matchers root ≠ [])) RootMatchers;;
      reject (bool_decide (Route.c_MuteTimeIntervals root ≠ [])) RootMuteTimeIntervals;;
      reject (bool_decide (Route.c_ActiveTimeIntervals root ≠ [])) RootActiveTimeIntervals;;
      checkReceiver names t;;
      tiNames ← interval_names ∅ mutes;
      tiNames ← interval_names tiNames intervals;
      checkTimeInterval tiNames t;;
      Ok (mkConfig g t inhibit (zip filled receivers.*2) mutes intervals, h)
  end.

(** [Load] up to its panics; for an empty document no method is called. *)
Definition load_document (doc : option RawConfig) (h : heaps) : result load_error (Config * heaps) :=
  match doc with
  | None => Err NoRoute
  | Some raw =>
      '(cfg, h) ← Config_UnmarshalYAML raw h;
      let '(Node root _) := Route_ cfg in
      reject (Route.c_Continue root) RootContinue;;
      Ok (cfg, h)
  end.

(** [Load]; the decoder does not recover from a panic, which is [None]. *)
Definition Load (doc : option RawConfig) (h : heaps) : option (result load_error (Config * heaps)) :=
  match load_document doc h with
  | Err NilDereference => None
  | r => Some r
  end.

(** [LoadFile]: the file is [UnreadableFile], an [UndecodableDocument] or a
    decoded one.  Of [resolveFilepaths], which dereferences the slots of the
    receivers, the HTTP configurations are resolved; the paths of templates and
    of the event recorder are not kept in the model. *)
Definition LoadFile (dir : string) (file : result load_error (option RawConfig)) (h : heaps)
    : option (result load_error (Config * heaps)) :=
  match file with
  | Err e => Some (Err e)
  | Ok doc =>
      r ← Load doc h;
      match r with
      | Err e => Some (Err e)
      | Ok (cfg, h) =>
          match resolve_http_configs dir (Global cfg) (Receivers cfg).*1 h with
          | Ok (_, h) => Some (Ok (cfg, h))
          | Err _ => None
          end
      end
  end.
End config.
End Config.

(** * What a loaded configuration guarantees

    A configuration that [Load] accepts can be put into operation: the routing
    tree and the inhibition rules are built without a panic, every alert has a
    route, and every name a route mentions is defined.  The loops over route
    trees are related to the list of the nodes of the tree. *)
Module ConfigInv.
Import Config.

Section inv.
Context `{RE : Regexp, LV : LabelValidation, LN : LabelNameRE, MR : MapRange, UP : UnicodePrint}.
Context `{CL : ConfigLib}.
Context (mode : Compat.mode).

(** An anchored expression can be anchored again. *)
Context (anchored_compiles : ∀ s, is_Some (Compile ("^(?:" +:+ s +:+ ")$")) →
  is_Some (Compile ("^(?:" +:+ ("^(?:" +:+ s +:+ ")$") +:+ ")$"))).

(** ** Checks and loops *)
Lemma reject_Ok b e : reject b e = Ok () ↔ b = false.
Proof. unfold reject. destruct b; naive_solver. Qed.

Lemma check_all_Ok {A} (f : A → result load_error ()) l :
  check_all f l = Ok () ↔ Forall (λ x, f x = Ok ()) l.
Proof.
  induction l as [|x l IH]; cbn [check_all]; [by split; [constructor|]|].
  rewrite result_bind_Ok, Forall_cons, <-IH.
  split; [intros ([] & ? & ?)|intros [? ?]; exists ()]; done.
Qed.

Lemma map_all_Ok {A B} (f : A → result load_error B) l : ∀ l',
  map_all f l = Ok l' → Forall2 (λ x y, f x = Ok y) l l'.
Proof.
  induction l as [|x l IH]; intros l' H; cbn [map_all] in H; [by simplify_eq; constructor|].
  apply result_bind_Ok in H as (y & Hy & H). apply result_bind_Ok in H as (ys & Hys & H).
  simplify_eq. constructor; auto.
Qed.

(** ** Trees *)
Section tree_induction.
Context {A : Type} (P : tree A → Prop).
Hypothesis step : ∀ x cs, Forall (from_option P True) cs → P (Node x cs).

Fixpoint tree_nested_ind (t : tree A) : P t :=
  match t with
  | Node x cs =>
      step x cs
        ((fix go (cs : list (option (tree A))) : Forall (from_option P True) cs :=
            match cs with
            | [] => List.Forall_nil _
            | None :: cs => List.Forall_cons _ None cs I (go cs)
            | Some c :: cs => List.Forall_cons _ (Some c) cs (tree_nested_ind c) (go cs)
            end) cs)
  end.
End tree_induction.

(** The configurations of the nodes of a tree of routes. *)
Fixpoint config_nodes (cr : Route.config_route) : list Route.RouteConfig :=
  match cr with
  | Route.ConfigRoute c crs =>
      c :: concat ((fix go (crs : list Route.config_route) : list (list Route.RouteConfig) :=
                      match crs with [] => [] | cr :: crs => config_nodes cr :: go crs end) crs)
  end.

Lemma config_nodes_eq c crs : config_nodes (Route.ConfigRoute c crs) = c :: (crs ≫= config_nodes).
Proof. cbn. f_equal. induction crs as [|cr crs IH]; [done|]. cbn. f_equal. exact IH. Qed.

(** The loops over the children, under names of their own. *)
Fixpoint to_routes (l : list (option (tree Route.RouteConfig))) : option (list Route.config_route) :=
  match l with
  | [] => Some []
  | None :: _ => None
  | Some c :: l => c ← to_route c; cs ← to_routes l; Some (c :: cs)
  end.
Fixpoint check_children (f : tree Route.RouteConfig → result load_error ())
    (l : list (option (tree Route.RouteConfig))) : result load_error () :=
  match l with
  | [] => Ok ()
  | None :: _ => Err NilDereference
  | Some sr :: l => f sr;; check_children f l
  end.
Fixpoint decode_children (l : list (option (tree RawRouteFields)))
    : result load_error (list (option (tree Route.RouteConfig))) :=
  match l with
  | [] => Ok []
  | None :: l => cs ← decode_children l; Ok (None :: cs)
  | Some c :: l => c ← Route_UnmarshalYAML mode c; cs ← decode_children l; Ok (Some c :: cs)
  end.

Lemma to_route_eq c cs : to_route (Node c cs) = crs ← to_routes cs; Some (Route.ConfigRoute c crs).
Proof.
  reflexivity.
Qed.

Lemma checkReceiver_eq names c cs :
  checkReceiver names (Node c cs) =
    (check_children (checkReceiver names) cs;;
     if bool_decide (Route.c_Receiver c = ""%string) then Ok () else
     reject (bool_decide (Route.c_Receiver c ∉ names)) (UndefinedReceiver (Route.c_Receiver c))).
Proof.
  cbn [checkReceiver]. f_equal. induction cs as [|[t|] cs IH]; [done| |done]. cbn [check_children].
  destruct (checkReceiver names t); [|done]. cbn [mbind result_bind]. by rewrite IH.
Qed.

Lemma checkTimeInterval_eq names c cs :
  checkTimeInterval names (Node c cs) =
    (check_children (checkTimeInterval names) cs;;
     check_all (λ n, reject (bool_decide (n ∉ names)) (UndefinedInterval n)) (Route.c_ActiveTimeIntervals c);;
     check_all (λ n, reject (bool_decide (n ∉ names)) (UndefinedInterval n)) (Route.c_MuteTimeIntervals c)).
Proof.
  cbn [checkTimeInterval]. f_equal. induction cs as [|[t|] cs IH]; [done| |done]. cbn [check_children].
  destruct (checkTimeInterval names t); [|done]. cbn [mbind result_bind]. by rewrite IH.
Qed.

Lemma Route_UnmarshalYAML_eq r cs :
  Route_UnmarshalYAML mode (Node r cs) =
    (cs ← decode_children cs; c ← route_fields mode r; Ok (Node c cs)).
Proof.
  reflexivity.
Qed.

(** A check that runs on every node holds of the nodes of the tree, which then
    has no null child. *)
Lemma check_tree (check : tree Route.RouteConfig → result load_error ())
    (own : Route.RouteConfig → result load_error ()) :
  (∀ c cs, check (Node c cs) = (check_children check cs;; own c)) →
  ∀ t, check t = Ok () →
    ∃ cr, to_route t = Some cr ∧ Forall (λ c, own c = Ok ()) (config_nodes cr).
Proof.
  intros Heq. apply (tree_nested_ind (λ t, check t = Ok () → _)). intros c cs IH H.
  rewrite Heq in H. apply result_bind_Ok in H as ([] & Hcs & Hown).
  assert (∃ crs, to_routes cs = Some crs ∧
            Forall (λ c, own c = Ok ()) (crs ≫= config_nodes)) as (crs & Hcrs & Hall).
  { clear Hown. induction IH as [|oc cs Hoc _ IH]; [by exists []|]. destruct oc as [t|]; [|done].
    cbn [check_children decode_children] in Hcs. apply result_bind_Ok in Hcs as ([] & Ht & Hcs).
    destruct (Hoc Ht) as (cr & Hcr & H1). destruct (IH Hcs) as (crs & Hcrs & H2).
    exists (cr :: crs). cbn. rewrite Hcr. cbn. rewrite Hcrs. split; [done|]. by apply Forall_app. }
  exists (Route.ConfigRoute c crs). rewrite to_route_eq, Hcrs, config_nodes_eq. split; [done|].
  by constructor.
Qed.

(** Every node of a decoded tree has passed its own method. *)
Lemma decoded_nodes : ∀ raw t cr,
  Route_UnmarshalYAML mode raw = Ok t → to_route t = Some cr →
  Forall (λ c, ∃ r, route_fields mode r = Ok c) (config_nodes cr).
Proof.
  apply (tree_nested_ind (λ raw, ∀ t cr, _ → _ → Forall _ _)). intros r cs IH t cr H Ht.
  rewrite Route_UnmarshalYAML_eq in H. apply result_bind_Ok in H as (cs' & Hcs & H).
  apply result_bind_Ok in H as (c & Hc & H). simplify_eq. rewrite to_route_eq in Ht.
  apply bind_Some in Ht as (crs & Hcrs & Heq). simplify_eq. rewrite config_nodes_eq.
  constructor; [by exists r|]. clear Hc. revert cs' Hcs crs Hcrs.
  induction IH as [|oc cs Hoc _ IH]; intros cs' Hcs crs Hcrs; cbn [check_children decode_children] in Hcs.
  { simplify_eq/=. simplify_eq. constructor. }
  destruct oc as [t|].
  - apply result_bind_Ok in Hcs as (t' & Ht & Hcs). apply result_bind_Ok in Hcs as (ts & Hts & Heq).
    simplify_eq. cbn in Hcrs. apply bind_Some in Hcrs as (cr & Hcr & Hcrs).
    apply bind_Some in Hcrs as (crs' & Hcrs & Heq). simplify_eq. cbn.
    apply Forall_app. eauto.
  - apply result_bind_Ok in Hcs as (ts & Hts & Heq). by simplify_eq.
Qed.

(** ** Patterns that compile *)
Definition patterns_ok (m : gmap string string) : Prop :=
  ∀ k v, m !! k = Some v → is_Some (Compile ("^(?:" +:+ v +:+ ")$")).

Lemma MatchRegexps_ok m m' : MatchRegexps_UnmarshalYAML m = Ok m' → patterns_ok m'.
Proof.
  intros (kvs & Hd%map_all_Ok & (l & Hc%map_all_Ok & [= <-])%result_bind_Ok)%result_bind_Ok k v Hk.
  apply elem_of_list_to_map_2, list_elem_of_lookup in Hk as [i Hi].
  destruct (Forall2_lookup_r _ _ _ _ _ Hc Hi) as ([k1 v1] & Hi1 & H1).
  destruct (Forall2_lookup_r _ _ _ _ _ Hd Hi1) as ([k2 v2] & _ & H2).
  unfold check_regexp in H1. apply result_bind_Ok in H1 as ([] & _ & H1).
  destruct v1 as [p|]; [|done]. simplify_eq. destruct v2 as [s|]; [|done]. cbn in H2.
  apply result_bind_Ok in H2 as (p & Hp & [= -> ->]). unfold Regexp_UnmarshalYAML in Hp.
  destruct (Compile ("^(?:" +:+ s +:+ ")$")) eqn:Hs; simplify_eq. apply anchored_compiles. eauto.
Qed.

Lemma deprecated_matchers_total t es :
  (∀ k v, (k, v) ∈ es → is_Some (Labels.NewMatcher t k v)) → is_Some (Inhibit.deprecated_matchers t es).
Proof.
  induction es as [|[k v] es IH]; intros Hall; cbn; [eauto|].
  destruct (Hall k v) as [m ->]; [set_solver|]. destruct IH as [ms ->]; [set_solver|]. cbn. eauto.
Qed.

Lemma side_matchers_total eq re ms : patterns_ok re → is_Some (Inhibit.side_matchers eq re ms).
Proof.
  intros Hre. unfold Inhibit.side_matchers.
  destruct (deprecated_matchers_total Labels.MatchEqual (range eq)) as [m1 ->]; [by eauto|].
  destruct (deprecated_matchers_total Labels.MatchRegexp (range re)) as [m2 ->].
  { intros k v Hkv%elem_of_range. unfold Labels.NewMatcher. cbn. destruct (Hre _ _ Hkv) as [r ->]. eauto. }
  cbn. eauto.
Qed.

(** ** Nodes *)

(** What [Route.UnmarshalYAML] establishes of a node. *)
Record node_decoded (c : Route.RouteConfig) : Prop := {
  nd_patterns : patterns_ok (Route.c_MatchRE c);
  nd_group_interval : Route.c_GroupInterval c ≠ Some 0;
  nd_repeat_interval : Route.c_RepeatInterval c ≠ Some 0;
  nd_group_by : ∀ l, Route.c_GroupBy c = Some l → NoDup l ∧ (l ≠ [] → Route.c_GroupByAll c = false);
}.

Lemma check_duplicates_NoDup l : ∀ seen,
  check_duplicates seen l = Ok () → NoDup l ∧ ∀ n, n ∈ l → n ∉ seen.
Proof.
  induction l as [|n l IH]; intros seen H; cbn [check_duplicates] in H; [by split; [constructor|set_solver]|].
  apply result_bind_Ok in H as ([] & Hn%reject_Ok & H). apply bool_decide_eq_false in Hn.
  apply IH in H as [Hnd Hs]. split.
  - constructor; [|done]. intros Hin%Hs. set_solver.
  - intros m [->|Hm]%elem_of_cons; [done|]. apply Hs in Hm. set_solver.
Qed.

Lemma is_zero_false d : is_zero d = false → d ≠ Some 0.
Proof. destruct d as [z|]; cbn; [|done]. intros H%bool_decide_eq_false. congruence. Qed.

Lemma route_fields_ok r c : route_fields mode r = Ok c → node_decoded c.
Proof.
  unfold route_fields. intros H. apply result_bind_Ok in H as (re & Hre%MatchRegexps_ok & H).
  apply result_bind_Ok in H as (ms & _ & H). do 2 apply result_bind_Ok in H as ([] & _ & H).
  apply result_bind_Ok in H as ([all names] & _ & H).
  apply result_bind_Ok in H as ([] & Hw%reject_Ok & H).
  apply result_bind_Ok in H as ([] & [Hnd _]%check_duplicates_NoDup & H).
  apply result_bind_Ok in H as ([] & Hg%reject_Ok%is_zero_false & H).
  apply result_bind_Ok in H as ([] & Hr%reject_Ok%is_zero_false & H). simplify_eq.
  split; cbn; [done..|]. intros l Hl. destruct names as [|n names]; simplify_eq/=.
  - destruct (rr_GroupByStr r) as [[]|]; simplify_eq. split; [constructor|done].
  - by split.
Qed.

(** What holds of every node of the routing tree. *)
Record opts_ok (receivers intervals : gset string) (o : Route.RouteOpts) : Prop := {
  oo_receiver : Route.Receiver o ∈ receivers;
  oo_intervals : ∀ n, n ∈ Route.MuteTimeIntervals o ++ Route.ActiveTimeIntervals o → n ∈ intervals;
  oo_group_interval : Route.GroupInterval o ≠ 0;
  oo_repeat_interval : Route.RepeatInterval o ≠ 0;
}.

(** A property of options that children inherit holds of the whole tree. *)
Lemma newRoute_inherits (P : Route.RouteOpts → Prop) (Q : Route.RouteConfig → Prop) :
  (∀ o c, P o → Q c → P (Route.merge_opts o c)) →
  ∀ cr parent n,
    P (Route.merge_opts (default Route.DefaultRouteOpts parent) (let 'Route.ConfigRoute c _ := cr in c)) →
    Forall Q (config_nodes cr) → Forall (λ c, patterns_ok (Route.c_MatchRE c)) (config_nodes cr) →
    ∃ r n', Route.newRoute cr parent n = Some (r, n') ∧ Forall (λ x, P (Route.Opts x)) (Route.Walk r).
Proof.
  intros Hm. apply (Route.config_tree_ind (λ cr, ∀ parent n, _ → Forall _ _ → Forall _ _ → _)).
  intros c crs IH parent n HP HQ Hpat. rewrite config_nodes_eq in HQ, Hpat.
  apply Forall_cons_1 in HQ as [_ HQ]. apply Forall_cons_1 in Hpat as [Hc Hpat].
  destruct (side_matchers_total (Route.c_Match c) _ (Route.c_Matchers c) Hc) as [ms Hms].
  rewrite Route.newRoute_eq. cbn zeta. rewrite Hms. cbn [mbind option_bind].
  set (o := Route.merge_opts _ c) in *. clear Hms Hc.
  assert (∃ rs n', Route.newRoutes crs o n = Some (rs, n') ∧
            Forall (λ x, P (Route.Opts x)) (rs ≫= Route.Walk)) as (rs & n' & -> & Hrs).
  { clearbody o. revert n. induction IH as [|cr crs Hcr _ IH]; intros n; [by exists [], n|].
    cbn in HQ, Hpat. apply Forall_app in HQ as [HQ1 HQ]. apply Forall_app in Hpat as [Hp1 Hp].
    destruct (Hcr (Some o) n) as (r & n1 & Hr & Hw); [|done|done|].
    { apply Hm; [done|]. destruct cr. rewrite config_nodes_eq in HQ1. by apply Forall_cons_1 in HQ1 as [? _]. }
    destruct (IH HQ Hp n1) as (rs & n2 & Hrs & Hws).
    exists (r :: rs), n2. cbn [Route.newRoutes]. rewrite Hr. cbn [mbind option_bind]. rewrite Hrs.
    split; [done|]. cbn. by apply Forall_app. }
  cbn [mbind option_bind]. eexists _, _. split; [done|]. rewrite Route.Walk_eq. by constructor.
Qed.

Lemma interval_names_Ok l : ∀ names names',
  interval_names names l = Ok names' → names' = names ∪ list_to_set l.*1 ∧ NoDup l.*1 ∧ ∀ n, n ∈ l.*1 → n ∉ names.
Proof.
  induction l as [|ti l IH]; intros names names' H; cbn [interval_names] in H.
  { simplify_eq. split_and!; [set_solver|constructor|set_solver]. }
  apply result_bind_Ok in H as ([] & Hn%reject_Ok & H). apply bool_decide_eq_false in Hn.
  destruct (IH _ _ H) as (-> & Hnd & Hnot). rewrite fmap_cons. split_and!; [set_solver| |].
  - constructor; [|done]. intros Hin%Hnot. set_solver.
  - intros n [->|Hin]%elem_of_cons; [done|]. apply Hnot in Hin. set_solver.
Qed.

Lemma inhibit_rules_total rs rs' :
  map_all (InhibitRule_UnmarshalYAML mode) rs = Ok rs' →
  Forall (λ ir, is_Some (Inhibit.NewInhibitRule ir)) rs'.
Proof.
  intros H%map_all_Ok. induction H as [|r ir rs rs' Hr _ IH]; [constructor|]. constructor; [|done].
  unfold InhibitRule_UnmarshalYAML in Hr.
  apply result_bind_Ok in Hr as (sre & Hs%MatchRegexps_ok & Hr). apply result_bind_Ok in Hr as (sm & _ & Hr).
  apply result_bind_Ok in Hr as (tre & Ht%MatchRegexps_ok & Hr). apply result_bind_Ok in Hr as (tm & _ & Hr).
  do 3 apply result_bind_Ok in Hr as ([] & _ & Hr). simplify_eq.
  unfold Inhibit.NewInhibitRule. cbn.
  destruct (side_matchers_total (ri_SourceMatch r) _ sm Hs) as [m1 ->].
  destruct (side_matchers_total (ri_TargetMatch r) _ tm Ht) as [m2 ->]. cbn. eauto.
Qed.

(** The parts of an accepted document. *)
Definition receiver_names (cfg : Config) : list string := ConfigReceivers.Name <$> (Receivers cfg).*1.
Definition interval_list (cfg : Config) : list named_intervals := MuteTimeIntervals cfg ++ TimeIntervals cfg.

Record accepted (cfg : Config) : Prop := {
  ac_receivers : NoDup (receiver_names cfg);
  ac_intervals : NoDup (interval_list cfg).*1;
  ac_inhibit : Forall (λ ir, is_Some (Inhibit.NewInhibitRule ir)) (InhibitRules cfg);
  ac_checked : checkReceiver (list_to_set (receiver_names cfg)) (Route_ cfg) = Ok () ∧
               checkTimeInterval (list_to_set (interval_list cfg).*1) (Route_ cfg) = Ok ();
  ac_decoded : ∃ raw, Route_UnmarshalYAML mode raw = Ok (Route_ cfg);
  ac_root : ∃ root cs, Route_ cfg = Node root cs ∧ Route.c_Receiver root ≠ ""%string ∧
    Route.c_Match root = ∅ ∧ Route.c_MatchRE root = ∅ ∧ Route.c_Matchers root = [] ∧
    Route.c_MuteTimeIntervals root = [] ∧ Route.c_ActiveTimeIntervals root = [] ∧
    Route.c_Continue root = false;
}.

Lemma fmap_fst_zip_names {A B C} (f : A → C) (l : list A) (k : list B) :
  length l = length k → f <$> (zip l k).*1 = f <$> l.
Proof. intros Hl. rewrite fst_zip; [done|lia]. Qed.

Lemma Config_UnmarshalYAML_accepted raw h cfg h' root cs :
  Config_UnmarshalYAML mode raw h = Ok (cfg, h') → Route_ cfg = Node root cs →
  Route.c_Continue root = false → accepted cfg.
Proof.
  unfold Config_UnmarshalYAML. intros H Hroot Hcont.
  apply result_bind_Ok in H as (route & Hroute & H).
  apply result_bind_Ok in H as (inh & Hinh%inhibit_rules_total & H).
  apply result_bind_Ok in H as (rcvs & Hrcvs%map_all_Ok & H).
  apply result_bind_Ok in H as (mutes & _ & H). apply result_bind_Ok in H as (ints & _ & H).
  apply result_bind_Ok in H as ([g h2] & _ & H). apply result_bind_Ok in H as ([? h3] & _ & H).
  apply result_bind_Ok in H as ([[names filled] h4] & Hfill & H).
  unfold in_receivers in Hfill.
  destruct (ConfigReceivers.fill_receivers _ _ _ _) as [x|[]] eqn:Hf; try discriminate Hfill. simplify_eq.
  apply ConfigReceiversInv.fill_receivers_names in Hf as (Hn & -> & Hnd & _).
  destruct route as [[root' cs']|]; [|done].
  apply result_bind_Ok in H as ([] & Hr%reject_Ok & H). apply result_bind_Ok in H as ([] & Hm%reject_Ok & H).
  apply result_bind_Ok in H as ([] & Hmu%reject_Ok & H). apply result_bind_Ok in H as ([] & Hac%reject_Ok & H).
  apply result_bind_Ok in H as ([] & Hcr & H).
  apply result_bind_Ok in H as (t1 & (-> & Hnd1 & _)%interval_names_Ok & H).
  apply result_bind_Ok in H as (t2 & (-> & Hnd2 & Hdis)%interval_names_Ok & H).
  apply result_bind_Ok in H as ([] & Hct & [= <- <-]). cbn [Route_] in Hroot. simplify_eq.
  assert (Hrn : receiver_names (mkConfig g (Node root cs) inh (zip filled rcvs.*2) mutes ints) =
                ConfigReceivers.Name <$> rcvs.*1).
  { unfold receiver_names. cbn. rewrite fmap_fst_zip_names; [done|].
    apply (f_equal length) in Hn. rewrite !length_fmap in *. done. }
  destruct (raw_Route raw) as [rt|] eqn:Hraw; [|done].
  apply result_bind_Ok in Hroute as (t & Hdec & [= ->]).
  apply orb_false_iff in Hm as [[Hm1 Hm2]%orb_false_iff Hm3].
  rewrite bool_decide_eq_false in Hr, Hm1, Hm2, Hm3, Hmu, Hac.
  split.
  - by rewrite Hrn.
  - unfold interval_list. cbn. rewrite fmap_app. apply NoDup_app. split_and!; [done| |done].
    intros n Hin1 Hin2. apply Hdis in Hin2. set_solver.
  - done.
  - rewrite Hrn. cbn. unfold interval_list. cbn. rewrite fmap_app, list_to_set_app_L. split.
    + by replace (list_to_set (ConfigReceivers.Name <$> rcvs.*1))
        with (∅ ∪ list_to_set (ConfigReceivers.Name <$> rcvs.*1) : gset string) by set_solver.
    + by replace (list_to_set mutes.*1) with (∅ ∪ list_to_set mutes.*1 : gset string) by set_solver.
  - by eexists.
  - exists root, cs. split_and!; try done; by apply dec_stable.
Qed.

Lemma Load_document doc h x : Load mode doc h = Some (Ok x) → load_document mode doc h = Ok x.
Proof. unfold Load. destruct (load_document mode doc h) as [y|[]]; naive_solver. Qed.

Lemma Load_accepted doc h cfg h' : Load mode doc h = Some (Ok (cfg, h')) → accepted cfg.
Proof.
  intros H%Load_document. unfold load_document in H. destruct doc as [raw|]; [|done].
  apply result_bind_Ok in H as ([cfg' h1] & Hu & H). destruct (Route_ cfg') as [root cs] eqn:Hroot.
  apply result_bind_Ok in H as ([] & Hc%reject_Ok & [= <- <-]).
  by eapply Config_UnmarshalYAML_accepted.
Qed.

(** The check of a node's time intervals, as [checkTimeInterval] runs it. *)
Definition intervals_check (names : gset string) (c : Route.RouteConfig) : result load_error () :=
  check_all (λ n, reject (bool_decide (n ∉ names)) (UndefinedInterval n)) (Route.c_ActiveTimeIntervals c);;
  check_all (λ n, reject (bool_decide (n ∉ names)) (UndefinedInterval n)) (Route.c_MuteTimeIntervals c).
Definition receiver_check (names : gset string) (c : Route.RouteConfig) : result load_error () :=
  if bool_decide (Route.c_Receiver c = ""%string) then Ok () else
  reject (bool_decide (Route.c_Receiver c ∉ names)) (UndefinedReceiver (Route.c_Receiver c)).

Lemma intervals_check_Ok names c :
  intervals_check names c = Ok () →
  ∀ n, n ∈ Route.c_MuteTimeIntervals c ++ Route.c_ActiveTimeIntervals c → n ∈ names.
Proof.
  intros ([] & H1%check_all_Ok & H2%check_all_Ok)%result_bind_Ok n Hin. rewrite Forall_forall in H1, H2.
  apply elem_of_app in Hin as [Hin|Hin]; [apply H2 in Hin|apply H1 in Hin].
  all: apply reject_Ok, bool_decide_eq_false in Hin; by apply dec_stable.
Qed.

Lemma receiver_check_Ok names c :
  receiver_check names c = Ok () → Route.c_Receiver c ≠ ""%string → Route.c_Receiver c ∈ names.
Proof.
  unfold receiver_check. intros H Hne. rewrite bool_decide_eq_false_2 in H by done.
  apply reject_Ok, bool_decide_eq_false in H. by apply dec_stable.
Qed.

(** Options of a checked node below options that are in order. *)
Definition checked_node (receivers intervals : gset string) (c : Route.RouteConfig) : Prop :=
  node_decoded c ∧ receiver_check receivers c = Ok () ∧ intervals_check intervals c = Ok ().

Lemma merge_opts_ok receivers intervals o c :
  checked_node receivers intervals c →
  (Route.c_Receiver c = ""%string → Route.Receiver o ∈ receivers) →
  Route.GroupInterval o ≠ 0 → Route.RepeatInterval o ≠ 0 →
  opts_ok receivers intervals (Route.merge_opts o c).
Proof.
  intros ([_ Hg Hr _] & Hrc & Hic) Ho Hgo Hro. split; cbn.
  - case_bool_decide; [by eapply receiver_check_Ok|]. by apply Ho.
  - by apply intervals_check_Ok.
  - by destruct (Route.c_GroupInterval c); cbn; [congruence|].
  - by destruct (Route.c_RepeatInterval c); cbn; [congruence|].
Qed.

Lemma opts_ok_inherited receivers intervals o c :
  opts_ok receivers intervals o → checked_node receivers intervals c →
  opts_ok receivers intervals (Route.merge_opts o c).
Proof. intros [? _ ? ?] Hc. by apply merge_opts_ok. Qed.

Lemma accepted_nodes cfg : accepted cfg →
  ∃ cr, to_route (Route_ cfg) = Some cr ∧
    Forall (checked_node (list_to_set (receiver_names cfg)) (list_to_set (interval_list cfg).*1))
      (config_nodes cr).
Proof.
  intros [_ _ _ [Hcr Hct] [raw Hraw] _].
  destruct (check_tree _ (receiver_check _) (checkReceiver_eq _) _ Hcr) as (cr & Ht & H1).
  destruct (check_tree _ (intervals_check _) (checkTimeInterval_eq _) _ Hct) as (cr' & Ht' & H2).
  pose proof (decoded_nodes _ _ _ Hraw Ht) as H3. simplify_eq. exists cr. split; [done|].
  rewrite Forall_forall in *. intros c Hc. split_and!; auto.
  destruct (H3 c Hc) as [r Hr]. by eapply route_fields_ok.
Qed.

Lemma newRoute_root c crs parent n r n' :
  Route.c_Match c = ∅ → Route.c_MatchRE c = ∅ → Route.c_Matchers c = [] →
  Route.newRoute (Route.ConfigRoute c crs) parent n = Some (r, n') → Route.Matchers r = [].
Proof.
  intros H1 H2 H3 H. rewrite Route.newRoute_eq in H. cbn zeta in H. unfold Inhibit.side_matchers in H.
  rewrite H1, H2, H3, !range_empty in H. cbn in H. apply bind_Some in H as ([rs m] & _ & H). by simplify_eq.
Qed.

Lemma load_operable doc h cfg h' :
  Load mode doc h = Some (Ok (cfg, h')) →
  NoDup (receiver_names cfg) ∧ NoDup (interval_list cfg).*1 ∧
  Forall (λ ir, is_Some (Inhibit.NewInhibitRule ir)) (InhibitRules cfg) ∧
  ∃ cr r, to_route (Route_ cfg) = Some cr ∧ Route.NewRoute cr None = Some r ∧
    (∀ lset, Route.Match r lset ≠ []) ∧
    Forall (λ n, opts_ok (list_to_set (receiver_names cfg)) (list_to_set (interval_list cfg).*1) (Route.Opts n))
      (Route.Walk r).
Proof.
  intros Hacc%Load_accepted. destruct (accepted_nodes _ Hacc) as (cr & Hcr & Hnodes).
  destruct Hacc as [? ? ? _ _ (root & cs & Hroot & Hrec & Hm & Hre & Hms & _)]. split_and!; [done..|].
  pose proof Hcr as Hcr'. rewrite Hroot, to_route_eq in Hcr'. apply bind_Some in Hcr' as (crs & _ & [= <-]).
  destruct (newRoute_inherits (opts_ok _ _) (checked_node _ _) (opts_ok_inherited
    (list_to_set (receiver_names cfg)) (list_to_set (interval_list cfg).*1)) (Route.ConfigRoute root crs) None 0) as (r & n & Hr & Hw).
  { apply merge_opts_ok; [|done|done|done]. rewrite config_nodes_eq in Hnodes. by apply Forall_cons_1 in Hnodes as [? _]. }
  { exact Hnodes. }
  { eapply Forall_impl; [exact Hnodes|]. by intros c [[? _ _ _] _]. }
  eexists _, r. split_and!; [exact Hcr|by unfold Route.NewRoute; rewrite Hr| |done].
  intros lset Hnil%RouteInv.Match_nil. apply Hnil. unfold RouteInv.accepts.
  rewrite (newRoute_root _ _ _ _ _ _ Hm Hre Hms Hr). constructor.
Qed.

(** C8: A configuration that is loaded without an error can be put into operation.  Its route tree
    has no null node and [NewRoute] builds the routing tree without a panic; every label set is
    routed somewhere; every node of the tree has a defined receiver, mentions defined time intervals
    only, and has intervals other than zero; the inhibition rules are built without a panic; and the
    names of receivers and time intervals are distinct. *)
Theorem loaded_config_operable doc h cfg h' :
  Load mode doc h = Some (Ok (cfg, h')) →
  NoDup (receiver_names cfg) ∧ NoDup (interval_list cfg).*1 ∧
  Forall (λ ir, is_Some (Inhibit.NewInhibitRule ir)) (InhibitRules cfg) ∧
  ∃ cr r, to_route (Route_ cfg) = Some cr ∧ Route.NewRoute cr None = Some r ∧
    (∀ lset, Route.Match r lset ≠ []) ∧
    Forall (λ n, opts_ok (list_to_set (receiver_names cfg)) (list_to_set (interval_list cfg).*1) (Route.Opts n))
      (Route.Walk r).
Proof. apply load_operable. Qed.
End inv.
End ConfigInv.
