(* ===== verification/Reload.v ===== *)
(** * Putting a configuration into operation (app/reloader.go)

    [reload] builds the routing tree, the receivers, the inhibitor and the
    dispatcher of a configuration and swaps them in.  What can fail outside the
    sources are inputs: whether the templates parse, whether the constructor of
    each notifier succeeds, whether the tracing configuration is applied.  A
    panic is [None]. *)

From Stdlib Require Import Ascii String.
From stdpp Require Import base gmap strings list sorting.
From S2P Require Import Prelude Utf8 Labels Silence Alert Nflog Notify Bucket Store Provider.
From S2P Require Import Inhibit Strconv Route Dispatch Groups TimeInterval TimeIntervalInv Silencer MatchLexer MatchParser.
From S2P Require Import Compat Api ConfigReceivers Config.

Module Reload.
Import Config.

Inductive reload_error := TemplatesFailed | IntegrationsFailed (receiver : string) | TracingFailed.

Section reload.
Context `{RE : Regexp, LV : LabelValidation, MR : MapRange, UP : UnicodePrint}.
Context `{PM : PromModel, FP : Fingerprinter, LS : LabelSetString, RR : RouteLabelRenderer}.

(** ** config/receiver/receiver.go *)

(** The slots of one kind, with their positions. *)
Definition slots_of {A} (name : string) (configs : list A) : list (string * nat) :=
  pair name <$> seq 0 (length configs).

(** The integrations that [BuildReceiverIntegrations] adds, in its order. *)
Definition integration_slots (r : ConfigReceivers.Receiver) : list (string * nat) :=
  slots_of "webhook" (ConfigReceivers.WebhookConfigs r) ++
  slots_of "email" (ConfigReceivers.EmailConfigs r) ++
  slots_of "pagerduty" (ConfigReceivers.PagerdutyConfigs r) ++
  slots_of "opsgenie" (ConfigReceivers.OpsGenieConfigs r) ++
  slots_of "wechat" (ConfigReceivers.WechatConfigs r) ++
  slots_of "slack" (ConfigReceivers.SlackConfigs r) ++
  slots_of "victorops" (ConfigReceivers.VictorOpsConfigs r) ++
  slots_of "pushover" (ConfigReceivers.PushoverConfigs r) ++
  slots_of "sns" (ConfigReceivers.SNSConfigs r) ++
  slots_of "telegram" (ConfigReceivers.TelegramConfigs r) ++
  slots_of "discord" (ConfigReceivers.DiscordConfigs r) ++
  slots_of "webex" (ConfigReceivers.WebexConfigs r) ++
  slots_of "msteams" (ConfigReceivers.MSTeamsConfigs r) ++
  slots_of "msteamsv2" (ConfigReceivers.MSTeamsV2Configs r) ++
  slots_of "jira" (ConfigReceivers.JiraConfigs r) ++
  slots_of "incidentio" (ConfigReceivers.IncidentioConfigs r) ++
  slots_of "rocketchat" (ConfigReceivers.RocketchatConfigs r) ++
  slots_of "mattermost" (ConfigReceivers.MattermostConfigs r).

(** What is known of a receiver's notifiers: whether the constructor of a slot
    succeeds, and its [SendResolved]. *)
Record notifiers := mkNotifiers {
  constructed : string → string → nat → bool;
  sendResolved : string → string → nat → bool;
}.

(** [None] when one of the constructors failed; the others are run anyway. *)
Definition BuildReceiverIntegrations (ns : notifiers) (r : ConfigReceivers.Receiver)
    : option (list Notify.Integration) :=
  let name := ConfigReceivers.Name r in
  if forallb (λ s, constructed ns name s.1 s.2) (integration_slots r)
  then Some ((λ s, Notify.mkIntegration (sendResolved ns name s.1 s.2) s.1 (Z.of_nat s.2) name)
               <$> integration_slots r)
  else None.

(** ** The inhibitor and the dispatcher until they are loaded *)
Fixpoint NewInhibitor (rs : list Inhibit.InhibitRuleConfig) : option (list Inhibit.InhibitRule) :=
  match rs with
  | [] => Some []
  | cr :: rs => r ← Inhibit.NewInhibitRule cr; rules ← NewInhibitor rs; Some (r :: rules)
  end.

(** [run] until [loadingFinished]; the clock is read for each alert. *)
Definition inhibitor_load (rules : list Inhibit.InhibitRule) (initial : list Alert.Alert) (now : time)
    : list Inhibit.InhibitRule :=
  foldl (λ rules a, Inhibit.processAlert rules a now) rules initial.

Definition dispatcher_load (root : Route.route) (initial : list Alert.Alert) (now : time) : Dispatch.Dispatcher :=
  foldl (λ d a, Dispatch.routeAlert a now d) (Dispatch.Run_init root 0) initial.

(** ** reload *)

(** The components that a reload replaces.  The dispatcher goes with what its
    pipeline was built from. *)
Record pipeline := mkPipeline {
  pl_receivers : gmap string (list Notify.Integration);
  pl_rules : list Inhibit.InhibitRule;
  pl_intervener : TimeInterval.Intervener;
}.
Record live := mkLive {
  lv_tracing : string;
  lv_recorder : string;
  lv_api : option Api.API;
  lv_inhibitor : option (list Inhibit.InhibitRule);
  lv_dispatcher : option (Dispatch.Dispatcher * pipeline);
  lv_stopped : list (option (list Inhibit.InhibitRule) * option (Dispatch.Dispatcher * pipeline));
}.

(** The parts of the file that are passed on as they are. *)
Record conf := mkConf {
  cf_config : Config;
  cf_text : string;
  cf_tracing : string;
  cf_recorder : string;
}.

Definition activeReceivers (routes : Route.route) : gset string :=
  list_to_set ((λ rt, Route.Receiver (Route.Opts rt)) <$> Route.Walk routes).

(** The loop over the receivers of the configuration. *)
Fixpoint build_receivers (ns : notifiers) (active : gset string) (rs : list ConfigReceivers.Receiver)
    (m : gmap string (list Notify.Integration)) : result reload_error (gmap string (list Notify.Integration)) :=
  match rs with
  | [] => Ok m
  | rcv :: rs =>
      if bool_decide (ConfigReceivers.Name rcv ∉ active) then build_receivers ns active rs m else
      match BuildReceiverIntegrations ns rcv with
      | None => Err (IntegrationsFailed (ConfigReceivers.Name rcv))
      | Some integrations => build_receivers ns active rs (<[ConfigReceivers.Name rcv := integrations]> m)
      end
  end.

Definition intervals_map (l : list named_intervals) : TimeInterval.Intervener :=
  foldl (λ m ti, <[ti.1 := ti.2]> m) ∅ l.

(** The long-lived alert provider is subscribed twice. *)
Definition reload (templates_ok tracing_ok : bool) (ns : notifiers) (now : time) (c : conf)
    (alerts : Provider.Alerts) (lv : live)
    : option (result reload_error () * Provider.Alerts * live) :=
  let cfg := cf_config c in
  if negb templates_ok then Some (Err TemplatesFailed, alerts, lv) else
  cr ← to_route (Route_ cfg);
  routes ← Route.NewRoute cr None;
  match build_receivers ns (activeReceivers routes) (Receivers cfg).*1 ∅ with
  | Err e => Some (Err e, alerts, lv)
  | Ok receivers =>
      let intervener := intervals_map (MuteTimeIntervals cfg ++ TimeIntervals cfg) in
      if negb tracing_ok then Some (Err TracingFailed, alerts, lv) else
      let stopped := (lv_inhibitor lv, lv_dispatcher lv) :: lv_stopped lv in
      rules ← NewInhibitor (InhibitRules cfg);
      api ← Api.Update ((λ x, Api.mkReceiver (ConfigReceivers.Name x.1) x.2) <$> Receivers cfg)
              (ConfigReceivers.ResolveTimeout (Global cfg)) (cf_text c) cr;
      let '(initial, alerts) := Provider.SlurpAndSubscribe alerts "inhibitor" in
      let rules := inhibitor_load rules initial now in
      let '(initial, alerts) := Provider.SlurpAndSubscribe alerts "dispatcher" in
      let d := dispatcher_load routes initial now in
      Some (Ok (), alerts,
        mkLive (cf_tracing c) (cf_recorder c) (Some api) (Some rules)
          (Some (d, mkPipeline receivers rules intervener)) stopped)
  end.
End reload.
End Reload.

(** * The coordinator of configurations (config/coordinator.go)

    The coordinator holds the current configuration and its subscribers, and
    publishes gauges about the last reload.  A subscriber works on the state of
    the program and may fail; a panic is [None].  What [LoadFile] does is an
    input: it returns a configuration or an error, or panics. *)
Module Coordinator.
Section coordinator.
Context {Cfg St Error : Type} (original : Cfg → string) (md5HashAsMetricValue : string → Z).

Definition subscriber : Type := Cfg → St → option (result Error () * St).

Record Coordinator := mkCoordinator {
  config : option Cfg;
  subscribers : list subscriber;
  configHash : Z;
  configSuccess : bool;
  configSuccessTime : time;
}.

Definition NewCoordinator : Coordinator := mkCoordinator None [] 0 false 0.

Definition Subscribe (c : Coordinator) (ss : list subscriber) : Coordinator :=
  mkCoordinator (config c) (subscribers c ++ ss) (configHash c) (configSuccess c) (configSuccessTime c).

(** [notifySubscribers]: stops at the first error. *)
Fixpoint notifySubscribers (ss : list subscriber) (conf : Cfg) (st : St) : option (result Error () * St) :=
  match ss with
  | [] => Some (Ok (), st)
  | s :: ss =>
      '(r, st) ← s conf st;
      match r with
      | Err e => Some (Err e, st)
      | Ok _ => notifySubscribers ss conf st
      end
  end.

Definition set_config (conf : Cfg) (c : Coordinator) : Coordinator :=
  mkCoordinator (Some conf) (subscribers c) (configHash c) (configSuccess c) (configSuccessTime c).
Definition failed (c : Coordinator) : Coordinator :=
  mkCoordinator (config c) (subscribers c) (configHash c) false (configSuccessTime c).
Definition succeeded (conf : Cfg) (now : time) (c : Coordinator) : Coordinator :=
  mkCoordinator (config c) (subscribers c) (md5HashAsMetricValue (original conf)) true now.

(** The end of both operations: the subscribers and the gauges. *)
Definition apply_config (c : Coordinator) (conf : Cfg) (now : time) (st : St)
    : option (result Error () * Coordinator * St) :=
  let c := set_config conf c in
  '(r, st) ← notifySubscribers (subscribers c) conf st;
  match r with
  | Err e => Some (Err e, failed c, st)
  | Ok _ => Some (Ok (), succeeded conf now c, st)
  end.

Definition Reload (c : Coordinator) (loaded : option (result Error Cfg)) (now : time) (st : St)
    : option (result Error () * Coordinator * St) :=
  match loaded with
  | None => None
  | Some (Err e) => Some (Err e, failed c, st)
  | Some (Ok conf) => apply_config c conf now st
  end.

(** [ApplyConfig]; [nil_config] is the error for a nil argument. *)
Definition ApplyConfig (nil_config : Error) (c : Coordinator) (conf : option Cfg) (now : time) (st : St)
    : option (result Error () * Coordinator * St) :=
  match conf with
  | None => Some (Err nil_config, failed c, st)
  | Some conf => apply_config c conf now st
  end.

End coordinator.
Arguments subscriber : clear implicits.
Arguments Coordinator : clear implicits.
End Coordinator.

(** * What a reload guarantees

    For a configuration that [Load] has accepted, [reload] never panics; when it
    fails nothing has changed, and when it succeeds the new pipeline knows every
    name that the new routing tree mentions. *)
Module ReloadInv.
Import Config ConfigInv Reload.

Section inv.
Context `{RE : Regexp, LV : LabelValidation, LN : LabelNameRE, MR : MapRange, UP : UnicodePrint}.
Context `{PM : PromModel, FP : Fingerprinter, LS : LabelSetString, RR : RouteLabelRenderer, CL : ConfigLib}.

(** ** The dispatcher keeps its routing tree *)
Lemma gstep_route c d p : Dispatch.d_route (Dispatch.gstep c d p).1 = Dispatch.d_route d.
Proof.
  unfold Dispatch.gstep, Dispatch.LoadOrStore, Dispatch.CompareAndSwap, Dispatch.insert_at.
  repeat (case_match; simplify_eq/=); done.
Qed.

Lemma group_loop_route fuel c : ∀ d p,
  Dispatch.d_route (Dispatch.group_loop fuel c d p).1 = Dispatch.d_route d.
Proof.
  induction fuel as [|fuel IH]; intros d p; [done|]. cbn [Dispatch.group_loop].
  pose proof (gstep_route c d p) as Hg. destruct p; [..|done].
  all: destruct (Dispatch.gstep c d _) as [d' p'] eqn:E; rewrite IH; exact Hg.
Qed.

Lemma routeAlert_route a now d : Dispatch.d_route (Dispatch.routeAlert a now d) = Dispatch.d_route d.
Proof.
  unfold Dispatch.routeAlert. generalize (Route.Match (Dispatch.d_route d) (Alert.Labels a)).
  intros l. revert d. induction l as [|pos l IH]; intros d; [done|]. cbn [foldl]. rewrite IH.
  destruct (Route.node_at _ _); [apply group_loop_route|done].
Qed.

Lemma dispatcher_load_route root initial now : Dispatch.d_route (dispatcher_load root initial now) = root.
Proof.
  unfold dispatcher_load. change root with (Dispatch.d_route (Dispatch.Run_init root 0)) at 2.
  generalize (Dispatch.Run_init root 0). induction initial as [|a l IH]; intros d; [done|].
  cbn [foldl]. by rewrite IH, routeAlert_route.
Qed.

(** ** Receivers and intervals *)
Lemma build_receivers_lookup ns active rs : ∀ m m' n,
  build_receivers ns active rs m = Ok m' →
  is_Some (m !! n) ∨ (n ∈ active ∧ n ∈ ConfigReceivers.Name <$> rs) → is_Some (m' !! n).
Proof.
  induction rs as [|r rs IH]; intros m m' n H Hn; cbn [build_receivers] in H.
  { simplify_eq. destruct Hn as [?|[_ []%elem_of_nil]]. done. }
  rewrite fmap_cons, elem_of_cons in Hn. case_bool_decide as Ha.
  - apply (IH _ _ _ H). naive_solver.
  - destruct (BuildReceiverIntegrations ns r) as [l|]; [|done]. apply (IH _ _ _ H).
    destruct (decide (n = ConfigReceivers.Name r)) as [->|Hne].
    + left. by rewrite lookup_insert_eq.
    + rewrite lookup_insert_ne by done. naive_solver.
Qed.

Lemma intervals_map_lookup l n : n ∈ l.*1 → is_Some (intervals_map l !! n).
Proof.
  unfold intervals_map, TimeInterval.Intervener.
  cut (∀ m : gmap string (list TimeInterval.TimeInterval), is_Some (m !! n) ∨ n ∈ l.*1 →
         is_Some (foldl (λ m ti, <[ti.1 := ti.2]> m) m l !! n)); [by eauto|].
  induction l as [|ti l IH]; intros m Hn; [by destruct Hn as [?|[]%elem_of_nil]|]. cbn. apply IH.
  destruct (decide (n = ti.1)) as [->|Hne]; [left; by rewrite lookup_insert_eq|].
  rewrite lookup_insert_ne by done. rewrite fmap_cons, elem_of_cons in Hn. naive_solver.
Qed.

(** An intervener that knows the names gives an answer. *)
Lemma intervener_answers (i : TimeInterval.Intervener) names now :
  (∀ n, n ∈ names → is_Some (i !! n)) → is_Some (TimeInterval.Mutes i names now).
Proof.
  intros Hn. unfold TimeInterval.Mutes. generalize (@nil string).
  induction names as [|n names IH]; intros acc; cbn [TimeInterval.mutes_loop]; [eauto|].
  destruct (Hn n) as [tis ->]; [by left|]. apply IH. intros; apply Hn. by right.
Qed.

Lemma NewInhibitor_total rs :
  Forall (λ ir, is_Some (Inhibit.NewInhibitRule ir)) rs → is_Some (NewInhibitor rs).
Proof. induction 1 as [|r rs [x Hx] _ [l Hl]]; cbn; [eauto|]. rewrite Hx. cbn. rewrite Hl. cbn. eauto. Qed.

(** The pipeline knows every name that the routing tree mentions. *)
Definition knows (pl : pipeline) (n : Route.route) : Prop :=
  is_Some (pl_receivers pl !! Route.Receiver (Route.Opts n)) ∧
  (∀ now, is_Some (TimeInterval.Mutes (pl_intervener pl) (Route.MuteTimeIntervals (Route.Opts n)) now)) ∧
  (∀ now, is_Some (TimeInterval.Mutes (pl_intervener pl) (Route.ActiveTimeIntervals (Route.Opts n)) now)).

Lemma reload_knows ns cfg r receivers rules :
  build_receivers ns (activeReceivers r) (Receivers cfg).*1 ∅ = Ok receivers →
  Forall (λ n, opts_ok (list_to_set (receiver_names cfg)) (list_to_set (interval_list cfg).*1) (Route.Opts n))
    (Route.Walk r) →
  Forall (knows (mkPipeline receivers rules (intervals_map (interval_list cfg)))) (Route.Walk r).
Proof.
  intros Hb Hall. rewrite Forall_forall in *. intros n Hn. destruct (Hall n Hn) as [Hr Hi _ _].
  split_and!; cbn.
  - eapply build_receivers_lookup; [exact Hb|]. right. split.
    + apply elem_of_list_to_set, list_elem_of_fmap. eauto.
    + by apply elem_of_list_to_set in Hr.
  - intros now. apply intervener_answers. intros x Hx. apply intervals_map_lookup.
    assert (Hx' : x ∈ (list_to_set (interval_list cfg).*1 : gset string)) by (apply Hi, elem_of_app; by left).
    by apply elem_of_list_to_set in Hx'.
  - intros now. apply intervener_answers. intros x Hx. apply intervals_map_lookup.
    assert (Hx' : x ∈ (list_to_set (interval_list cfg).*1 : gset string)) by (apply Hi, elem_of_app; by right).
    by apply elem_of_list_to_set in Hx'.
Qed.

(** A reload of a configuration that was loaded without an error does not panic.  If it
    fails, the live components and the subscriptions are what they were; if it succeeds, the
    published dispatcher routes every label set, and its pipeline has a stage for the receiver of
    every route and an answer for the time intervals of every route, so that neither stage of the
    pipeline can fail for an unknown name. *)
Lemma reload_run mode doc h cfg h' templates_ok tracing_ok ns now c alerts lv :
  (∀ s, is_Some (Compile ("^(?:" +:+ s +:+ ")$")) →
        is_Some (Compile ("^(?:" +:+ ("^(?:" +:+ s +:+ ")$") +:+ ")$"))) →
  Config.Load mode doc h = Some (Ok (cfg, h')) → cf_config c = cfg →
  ∃ res alerts' lv', reload templates_ok tracing_ok ns now c alerts lv = Some (res, alerts', lv') ∧
    match res with
    | Err _ => alerts' = alerts ∧ lv' = lv
    | Ok _ => ∃ d pl, lv_dispatcher lv' = Some (d, pl) ∧ lv_inhibitor lv' = Some (pl_rules pl) ∧
        (∀ lset, Route.Match (Dispatch.d_route d) lset ≠ []) ∧
        Forall (knows pl) (Route.Walk (Dispatch.d_route d))
    end.
Proof.
  intros Hre Hload Hc. pose proof (load_operable mode Hre _ _ _ _ Hload) as (_ & _ & Hinh & Hroutes).
  destruct Hroutes as (cr & r & Hcr & Hr & Hm & Hall).
  unfold reload. rewrite Hc. destruct templates_ok; cbn [negb]; [|by eexists _, _, _].
  rewrite Hcr. cbn [mbind option_bind]. rewrite Hr. cbn [mbind option_bind].
  destruct (build_receivers _ _ _ _) as [receivers|e] eqn:Hb; [|by eexists _, _, _].
  destruct tracing_ok; cbn [negb]; [|by eexists _, _, _].
  destruct (NewInhibitor_total _ Hinh) as [rules ->]. cbn [mbind option_bind].
  unfold Api.Update. rewrite Hr. cbn [mbind option_bind].
  destruct (Provider.SlurpAndSubscribe alerts "inhibitor") as [i1 a1].
  destruct (Provider.SlurpAndSubscribe a1 "dispatcher") as [i2 a2].
  eexists _, _, _. split; [reflexivity|]. eexists _, _. split_and!; [reflexivity|reflexivity|..].
  - by rewrite dispatcher_load_route.
  - rewrite dispatcher_load_route. by eapply reload_knows.
Qed.

(** ** With the coordinator *)

(** [LoadFile] and the reloader as the coordinator uses them. *)
Definition reload_subscriber (templates_ok tracing_ok : bool) (ns : notifiers) (now : time)
    : Coordinator.subscriber conf (Provider.Alerts * live) (load_error + reload_error) :=
  λ c st,
    '(r, alerts, lv) ← reload templates_ok tracing_ok ns now c st.1 st.2;
    Some (match r with Ok _ => Ok () | Err e => Err (inr e) end, (alerts, lv)).
Definition load_conf (mode : Compat.mode) (dir : string) (file : result load_error (option RawConfig))
    (h : ConfigReceivers.heaps) (text tracing recorder : string)
    : option (result (load_error + reload_error) conf) :=
  r ← Config.LoadFile mode dir file h;
  match r with
  | Ok (cfg, _) => Some (Ok (mkConf cfg text tracing recorder))
  | Err e => Some (Err (inl e))
  end.

(** A file that is loaded without an error holds a document that is. *)
Lemma LoadFile_Load mode dir file h cfg h' :
  Config.LoadFile mode dir file h = Some (Ok (cfg, h')) →
  ∃ doc h1, file = Ok doc ∧ Config.Load mode doc h = Some (Ok (cfg, h1)).
Proof.
  unfold Config.LoadFile. destruct file as [doc|e]; [|done].
  intros ([[cfg1 h1]|e] & Hl & H)%bind_Some; [|done]. exists doc, h1. split; [done|].
  by destruct (ConfigReceivers.resolve_http_configs _ _ _ _) as [[? ?]|]; simplify_eq.
Qed.


(** ** The keys of the notification log *)
Lemma slots_of_elem {A} name (l : list A) s : s ∈ slots_of name l → s.1 = name.
Proof. by intros (i & -> & _)%list_elem_of_fmap. Qed.

Lemma slots_of_NoDup {A} name (l : list A) : NoDup (slots_of name l).
Proof. apply NoDup_fmap_2; [congruence|]. apply NoDup_seq. Qed.

(** The names under which integrations are logged. *)
Definition kind_names : list string :=
  ["webhook"; "email"; "pagerduty"; "opsgenie"; "wechat"; "slack"; "victorops"; "pushover"; "sns"; "telegram";
   "discord"; "webex"; "msteams"; "msteamsv2"; "jira"; "incidentio"; "rocketchat"; "mattermost"]%string.

Lemma integration_slots_names r s : s ∈ integration_slots r → s.1 ∈ kind_names.
Proof.
  unfold integration_slots, kind_names. rewrite !elem_of_app.
  intros Hs. repeat (destruct Hs as [Hs|Hs]; [apply slots_of_elem in Hs; rewrite Hs; set_solver|]).
  apply slots_of_elem in Hs. rewrite Hs. set_solver.
Qed.

Lemma kind_names_plain n : n ∈ kind_names → NflogInv.slash ∉ bytes n.
Proof.
  intros Hn. apply (bool_decide_unpack _).
  assert (Hall : forallb (λ n, bool_decide (NflogInv.slash ∉ bytes n)) kind_names = true) by by vm_compute.
  rewrite forallb_forall in Hall. apply Is_true_true, Hall. by apply list_elem_of_In.
Qed.

Lemma slots_app_NoDup {A} name (l : list A) rest :
  (∀ s, s ∈ rest → s.1 ≠ name) → NoDup rest → NoDup (slots_of name l ++ rest).
Proof.
  intros Hne Hr. apply NoDup_app. split_and!; [apply slots_of_NoDup| |done].
  intros s Hs%slots_of_elem Hin. by apply (Hne s).
Qed.

Lemma integration_slots_NoDup r : NoDup (integration_slots r).
Proof.
  unfold integration_slots. repeat (apply slots_app_NoDup;
    [intros s; rewrite ?elem_of_app; intros Hs;
     repeat match type of Hs with _ ∨ _ => destruct Hs as [Hs|Hs]; [apply slots_of_elem in Hs; congruence|] end;
     apply slots_of_elem in Hs; congruence|]).
  apply slots_of_NoDup.
Qed.

Lemma build_elem ns r l i :
  BuildReceiverIntegrations ns r = Some l → i ∈ l →
  ∃ k, (Notify.i_Name i, k) ∈ integration_slots r ∧ Notify.i_Index i = Z.of_nat k.
Proof.
  unfold BuildReceiverIntegrations. destruct (forallb _ _); [|done]. intros [= <-] Hi.
  apply list_elem_of_fmap in Hi as ([n k] & -> & Hk). by exists k.
Qed.

(** No two integrations share an entry of the notification log: in one group, two
    integrations that were built from receivers have the same log key only if they belong to
    receivers of the same name and are the same kind and slot there; and the integrations of one
    receiver all differ in kind or slot.  (An index is stored in 32 bits.) *)
Theorem integration_log_keys_distinct ns r1 r2 l1 l2 :
  BuildReceiverIntegrations ns r1 = Some l1 → BuildReceiverIntegrations ns r2 = Some l2 →
  NoDup ((λ i, (Notify.i_Name i, Notify.i_Index i)) <$> l1) ∧
  ∀ gkey i1 i2, i1 ∈ l1 → i2 ∈ l2 → Notify.i_Index i1 < 2 ^ 32 → Notify.i_Index i2 < 2 ^ 32 →
    Nflog.stateKey gkey (Notify.integration_receiver (ConfigReceivers.Name r1) i1) =
      Nflog.stateKey gkey (Notify.integration_receiver (ConfigReceivers.Name r2) i2) →
    ConfigReceivers.Name r1 = ConfigReceivers.Name r2 ∧ Notify.i_Name i1 = Notify.i_Name i2 ∧
    Notify.i_Index i1 = Notify.i_Index i2.
Proof.
  intros H1 H2. split.
  - unfold BuildReceiverIntegrations in H1. destruct (forallb _ _); [|done]. injection H1 as <-.
    rewrite <-list_fmap_compose. apply NoDup_fmap_2_strong; [|apply integration_slots_NoDup].
    intros [n1 k1] [n2 k2] _ _. cbn. intros [= -> ?]. f_equal. lia.
  - intros gkey i1 i2 Hi1 Hi2 Hb1 Hb2 E.
    destruct (build_elem _ _ _ _ H1 Hi1) as (k1 & Hs1 & Hk1). destruct (build_elem _ _ _ _ H2 Hi2) as (k2 & Hs2 & Hk2).
    apply integration_slots_names, kind_names_plain in Hs1, Hs2.
    unfold Nflog.stateKey in E. apply (f_equal bytes) in E. rewrite !NflogInv.bytes_colon in E.
    apply app_inv_head in E. injection E as E%bytes_inj. apply NflogInv.receiverKey_inj in E; [|done..].
    injection E as -> -> E. split_and!; [done..|]. rewrite Hk1, Hk2 in *.
    rewrite !Z.mod_small in E by lia. lia.
Qed.
End inv.
End ReloadInv.
