(* ===== verification/ConfigExamples.v ===== *)
(** * Configurations at concrete documents

    A document with two routes, two receivers and a time interval, and the
    theorems about loading and reloading at it. *)

From Stdlib Require Import Ascii String.
From stdpp Require Import base gmap strings list sorting.
From S2P Require Import Prelude Utf8 Labels Silence Instances Alert Nflog Notify Bucket Store.
From S2P Require Import Provider Inhibit Strconv Route Dispatch Groups TimeInterval DispatchExamples Silencer MatchLexer.
From S2P Require Import MatchParser Compat Api ConfigReceivers ConfigReceiversInv Config Reload.

Module ConfigExamples.
Import ConfigReceivers ConfigReceiversInv.
#[local] Existing Instance DispatchExamples.prom_model.
#[local] Existing Instance DispatchExamples.code_fingerprint.
#[local] Existing Instance DispatchExamples.ascii_print.
#[local] Existing Instance DispatchExamples.plain_string.
#[local] Existing Instance DispatchExamples.plain_renderer.

(** An HTTP configuration records the directories it was resolved against. *)
#[local] Instance dir_lib : ConfigLib := {|
  HTTPRest := list string;
  SetDirectory dir c := mkHTTPClientConfig (http_Authorization c) (http_ProxyURL c) (dir :: http_rest c);
  DefaultHTTPClientConfig := mkHTTPClientConfig None None [];
  URL_String u := u_rest u +:+ u_Path u;
|}.
#[local] Instance any_name : LabelNameRE := λ _, true.

Lemma literal_anchored s :
  is_Some (Compile ("^(?:" +:+ s +:+ ")$")) →
  is_Some (Compile ("^(?:" +:+ ("^(?:" +:+ s +:+ ")$") +:+ ")$")).
Proof.
  cbn. unfold has_bracket. rewrite !bytes_app, !existsb_app.
  change (existsb (Z.eqb 91) (bytes "^(?:")) with false.
  change (existsb (Z.eqb 91) (bytes ")$")) with false.
  rewrite !orb_false_l, !orb_false_r. destruct (existsb (Z.eqb 91) (bytes s)); [by intros []|eauto].
Qed.

(** ** Receivers *)
Definition none_receiver (name : string) : Receiver :=
  mkReceiver name [] [] [] [] [] [] [] [] [] [] [] [] [] [] [] [] [] [].
Definition ex_ops : Receiver :=
  mkReceiver "ops" [Some (mkHTTPOnly None)] []
    [Some (mkSlackConfig (Some 1%nat) None "" "xoxb" "" None false)] [] [] [] [] [] [] [] [] []
    [] [] [] [] [] [].
Definition ex_db (slack : option SlackConfig) : Receiver :=
  mkReceiver "db" [Some (mkHTTPOnly None)] [] [slack] [] [] [] [] [] [] [] [] [] [] [] [] [] [] [].

(** The HTTP configuration of the Slack receiver is at address 1. *)
Definition ex_heaps : heaps := mkHeaps {[1%nat := mkHTTPClientConfig None None []]} ∅.
Definition ex_default : result config_error (GlobalConfig * heaps) := DefaultGlobalConfig ex_heaps.
Definition ex_global : GlobalConfig :=
  match ex_default with
  | Ok (g, _) => g
  | Err _ => mkGlobalConfig 0 None None "" "" (mkHostPort "" "") "" "" "" "" "" "" false None None None "" "" ""
      None None None "" "" None "" "" "" None "" "" None "" "" None None None "" None "" None ""
  end.
Definition ex_h : heaps := match ex_default with Ok (_, h) => h | Err _ => ex_heaps end.

(** A null Slack slot needs a token or a URL in the global block. *)
Definition ex_token : GlobalConfig :=
  mkGlobalConfig 0 (HTTPConfig ex_global) None "" "" (mkHostPort "" "") "" "" "" "" "" "" false None None None ""
    "xoxb" "" (SlackAppURL ex_global) None None "" "" None "" "" "" None "" "" None "" "" None None None "" None "" None "".

Lemma ex_valid g : HTTPConfig g = HTTPConfig ex_global → valid (HTTPConfig g) ex_h.
Proof.
  intros -> l Hl. vm_compute in Hl. injection Hl as <-. apply elem_of_dom. eexists. vm_compute. reflexivity.
Qed.

Lemma ex_own g : HTTPConfig g = HTTPConfig ex_global → own g (Some 1%nat) ex_h.
Proof.
  intros Hg. split; intros l [= <-]; [apply elem_of_dom; eexists; vm_compute; reflexivity|].
  rewrite Hg. vm_compute. congruence.
Qed.

Lemma slots_pre_one {A} g (http : A → option loc) (s : option A) :
  HTTPConfig g = HTTPConfig ex_global →
  (∀ c, s = Some c → http c = None ∨ http c = Some 1%nat) → Forall (slot_pre g http ex_h) [s].
Proof.
  intros Hg Hs. apply Forall_singleton. intros c Hc.
  destruct (Hs c Hc) as [->| ->]; [apply own_None|by apply ex_own].
Qed.

Lemma ex_ops_pre g : HTTPConfig g = HTTPConfig ex_global → receiver_pre g ex_h ex_ops.
Proof. intros Hg. split; first [apply List.Forall_nil|apply slots_pre_one; naive_solver]. Qed.
Lemma ex_db_pre g : HTTPConfig g = HTTPConfig ex_global → receiver_pre g ex_h (ex_db None).
Proof. intros Hg. split; first [apply List.Forall_nil|apply slots_pre_one; naive_solver]. Qed.


(** The null slot is accepted, and dereferenced when paths are resolved. *)
Lemma resolve_completes_iff_no_null_slot_witness :
  ∃ names rs' h', fill_receivers ex_token ∅ [ex_db None] ex_h = Ok (names, rs', h') ∧
    ¬ (∃ h'', resolve_http_configs "conf" ex_token rs' h' = Ok ((), h'')).
Proof.
  eexists _, _, _. split; [vm_compute; reflexivity|].
  intros H. eapply (resolve_completes_iff_no_null_slot ex_token "conf" [ex_db None] ex_h) in H.
  - apply H. vm_compute. left.
  - vm_compute. reflexivity.
  - apply Forall_singleton. by apply ex_db_pre.
  - by apply ex_valid.
Defined.

Lemma slack_checks_panic_witness :
  Slack_Validate (mkSlackConfig None None "" "xoxb" "" None true) ex_h = Err Panic.
Proof. apply (slack_checks_panic ex_global ex_h); [reflexivity..|by right]. Defined.

(** ** A document *)
Definition ex_raw_route (receiver : string) (matchers mutes : list string) : Config.RawRouteFields :=
  Config.mkRawRoute receiver (Some ["job"%string]) ∅ ∅ matchers mutes [] false None (Some (5 * minute)) None ∅.
Definition ex_weekend : Config.named_intervals :=
  ("weekend"%string, [TimeInterval.mkTimeInterval None (Some [TimeInterval.mkRange 6 6]) None None None None]).
Definition ex_raw : Config.RawConfig :=
  Config.mkRawConfig None
    (Some (Config.Node (ex_raw_route "ops" [] [])
       [Some (Config.Node (ex_raw_route "db" ["team=db"%string] ["weekend"%string]) [])]))
    [] [Config.mkRawReceiver ex_ops None;
        Config.mkRawReceiver (ex_db (Some (mkSlackConfig None None "" "xoxb" "" None false))) None]
    [] [ex_weekend].
Lemma ex_loads : ∃ cfg h', Config.Load Compat.FallbackMode (Some ex_raw) ex_heaps = Some (Ok (cfg, h')).
Proof.
  assert (Hok : is_ok <$> Config.Load Compat.FallbackMode (Some ex_raw) ex_heaps = Some true)
    by (vm_compute; reflexivity).
  destruct (Config.Load _ _ _) as [[[cfg h']|]|]; [eauto|discriminate..].
Qed.

Lemma loaded_config_operable_witness :
  ∃ cfg h', Config.Load Compat.FallbackMode (Some ex_raw) ex_heaps = Some (Ok (cfg, h')) ∧
    ∃ cr r, Config.to_route (Config.Route_ cfg) = Some cr ∧ Route.NewRoute cr None = Some r ∧
      ∀ lset, Route.Match r lset ≠ [].
Proof.
  destruct ex_loads as (cfg & h' & E). exists cfg, h'. split; [exact E|].
  destruct (ConfigInv.loaded_config_operable Compat.FallbackMode literal_anchored (Some ex_raw) ex_heaps cfg h' E)
    as (_ & _ & _ & cr & r & H1 & H2 & H3 & _). exists cr, r. auto.
Defined.

Definition ex_notifiers : Reload.notifiers := Reload.mkNotifiers (λ _ _ _, true) (λ _ _ _, true).
Definition ex_live : Reload.live := Reload.mkLive "" "" None None None [].
Definition ex_alerts : Provider.Alerts := Provider.mkAlerts Store.NewAlerts ∅ 0 [].

(** The first load, through the coordinator. *)
Definition ex_coordinator :
    Coordinator.Coordinator Reload.conf (Provider.Alerts * Reload.live) (Config.load_error + Reload.reload_error) :=
  Coordinator.Subscribe Coordinator.NewCoordinator [ReloadInv.reload_subscriber true true ex_notifiers 0].

Definition ex_reload := Coordinator.Reload Reload.cf_text (λ _, 7) ex_coordinator
  (ReloadInv.load_conf Compat.FallbackMode "conf" (Ok (Some ex_raw)) ex_heaps "text" "" "") 0 (ex_alerts, ex_live).


(** It succeeds; the same document with a null child of the root panics, and so
    does one that is accepted and has a null Slack slot. *)
Example ex_reload_succeeds : (λ x, is_ok x.1.1) <$> ex_reload = Some true.
Proof. vm_compute. reflexivity. Qed.

Definition ex_null_route : Config.RawConfig :=
  Config.mkRawConfig None (Some (Config.Node (ex_raw_route "ops" [] []) [None])) []
    [Config.mkRawReceiver ex_ops None] [] [].
Definition ex_null_slot : Config.RawConfig :=
  Config.mkRawConfig (Some ex_token) (Some (Config.Node (ex_raw_route "db" [] []) [])) []
    [Config.mkRawReceiver (ex_db None) None] [] [].

Example loading_panics :
  Config.Load Compat.FallbackMode (Some ex_null_route) ex_heaps = None ∧
  is_ok <$> Config.Load Compat.FallbackMode (Some ex_null_slot) ex_h = Some true ∧
  Config.LoadFile Compat.FallbackMode "conf" (Ok (Some ex_null_slot)) ex_h = None.
Proof. vm_compute. done. Qed.

Lemma integration_log_keys_distinct_witness :
  ∃ l, Reload.BuildReceiverIntegrations ex_notifiers ex_ops = Some l ∧
    NoDup ((λ i, (Notify.i_Name i, Notify.i_Index i)) <$> l).
Proof.
  eexists. split; [vm_compute; reflexivity|].
  eapply (ReloadInv.integration_log_keys_distinct ex_notifiers ex_ops ex_ops); vm_compute; reflexivity.
Defined.
End ConfigExamples.
