(* ===== verification/Cluster.v ===== *)
(** * Membership and gossip (cluster/cluster.go, delegate.go, channel.go)

    What the program adds to github.com/hashicorp/memberlist: the books about
    peers, the position in the cluster, waiting for the cluster to settle, the
    exchange of full states, and the queue for oversized messages.  The member
    list, name resolution and the wire format are inputs. *)

From Stdlib Require Import Ascii String.
From stdpp Require Import base gmap strings list sorting relations.
From S2P Require Import Prelude Utf8 Silence.

(** Package net: the parts of an address, and an IP address in the form in which
    it is printed. *)
Class NetAddress := {
  SplitHostPort : string → option (string * string);
  ParseIP : string → option string;
  ParsePort : string → option Z;
  JoinHostPort : string → Z → string;
}.

Module Cluster.

Inductive PeerStatus := StatusNone | StatusAlive | StatusFailed.
#[global] Instance PeerStatus_eq_dec : EqDecision PeerStatus.
Proof. solve_decision. Defined.

Definition PeerStatus_String (s : PeerStatus) : string :=
  match s with StatusNone => "none" | StatusAlive => "alive" | StatusFailed => "failed" end.

(** A member of the list, with the text of its address. *)
Record Node := mkNode { Name : string; Address : string }.

Record peer := mkPeer {
  status : PeerStatus;
  leaveTime : time;
  node : Node;
}.

(** ** The books about peers *)
Record Peers := mkPeers {
  peers : gmap string peer;
  failedPeers : list peer;
}.

Section peers.
Context `{NA : NetAddress}.

(** One turn of the loop of [setInitialFailed]. *)
Definition initial_failed (myAddr : string) (now : time) (p : Peers) (peerAddr : string) : Peers :=
  if bool_decide (peerAddr = myAddr) then p else
  match SplitHostPort peerAddr with
  | None => p
  | Some (host, port) =>
      match ParseIP host, ParsePort port with
      | Some ip, Some portUint =>
          let pr := mkPeer StatusFailed now (mkNode "" (JoinHostPort ip portUint)) in
          mkPeers (<[peerAddr := pr]> (peers p)) (failedPeers p ++ [pr])
      | _, _ => p
      end
  end.
Definition setInitialFailed (p : Peers) (addrs : list string) (myAddr : string) (now : time) : Peers :=
  foldl (initial_failed myAddr now) p addrs.
End peers.

Definition removeOldPeer (old : list peer) (addr : string) : list peer :=
  List.filter (λ p, bool_decide (Address (node p) ≠ addr)) old.

Definition peerJoin (p : Peers) (n : Node) : Peers :=
  let '(oldStatus, pr) :=
    match peers p !! Address n with
    | None => (StatusNone, mkPeer StatusAlive 0 n)
    | Some pr => (status pr, mkPeer StatusAlive 0 n)
    end in
  mkPeers (<[Address n := pr]> (peers p))
    (if bool_decide (oldStatus = StatusFailed) then removeOldPeer (failedPeers p) (Address (node pr))
     else failedPeers p).

Definition peerLeave (p : Peers) (n : Node) (now : time) : Peers :=
  match peers p !! Address n with
  | None => p
  | Some pr =>
      let pr := mkPeer StatusFailed now (node pr) in
      mkPeers (<[Address n := pr]> (peers p)) (failedPeers p ++ [pr])
  end.

Definition peerUpdate (p : Peers) (n : Node) : Peers :=
  match peers p !! Address n with
  | None => p
  | Some pr => mkPeers (<[Address n := mkPeer (status pr) (leaveTime pr) n]> (peers p)) (failedPeers p)
  end.

(** The loop of [removeFailedPeers]. *)
Fixpoint remove_failed (timeout : duration) (now : time) (failed : list peer) (m : gmap string peer)
    : list peer * gmap string peer :=
  match failed with
  | [] => ([], m)
  | pr :: failed =>
      if After (leaveTime pr + timeout) now then
        let '(keep, m) := remove_failed timeout now failed m in (pr :: keep, m)
      else remove_failed timeout now failed (delete (Name (node pr)) m)
  end.
Definition removeFailedPeers (p : Peers) (timeout : duration) (now : time) : Peers :=
  let '(keep, m) := remove_failed timeout now (failedPeers p) (peers p) in mkPeers m keep.

(** [reconnect]: the addresses it tries to join. *)
Definition reconnect (p : Peers) : list string := (λ pr, Address (node pr)) <$> failedPeers p.

(** [refresh]: the resolved peers that are no members. *)
Definition refresh (members : list Node) (resolvedPeers : list string) : list string :=
  List.filter (λ a, negb (existsb (λ m, bool_decide (Address m = a)) members)) resolvedPeers.

(** The membership events, as memberlist and the periodic tasks deliver them. *)
Inductive pstep : relation Peers :=
| pstep_join p n : pstep p (peerJoin p n)
| pstep_leave p n now : pstep p (peerLeave p n now)
| pstep_update p n : pstep p (peerUpdate p n)
| pstep_remove p timeout now : pstep p (removeFailedPeers p timeout now).

(** ** Members *)
Definition name_le (x y : Node) : Prop := String.ltb (Name y) (Name x) = false.
#[global] Instance name_le_dec x y : Decision (name_le x y).
Proof. unfold name_le. apply _. Defined.

Fixpoint position_loop (self : string) (all : list Node) (k : Z) : Z :=
  match all with
  | [] => k
  | n :: all => if bool_decide (Name n = self) then k else position_loop self all (k + 1)
  end.
Definition Position (members : list Node) (self : string) : Z :=
  position_loop self (merge_sort name_le members) 0.

(** [clusterWait] of app/cluster.go. *)
Definition clusterWait (members : list Node) (self : string) (timeout : duration) : duration :=
  wrap64 (Position members self * timeout).

(** The peers to which a channel sends: all members but the first that is the
    peer itself. *)
Fixpoint other_peers (self : string) (nodes : list Node) : list Node :=
  match nodes with
  | [] => []
  | n :: nodes => if bool_decide (Name n = self) then nodes else n :: other_peers self nodes
  end.

(** ** Settle *)
Definition NumOkayRequired : Z := 3.

(** What ends a wait: the context, or the timer with the number of members. *)
Inductive poll := PollDone | PollMembers (n : Z).

(** [None] while it waits; the number of polls when it returns. *)
Fixpoint settle_loop (polls : list poll) (nPeers nOkay totalPolls : Z) : option Z :=
  match polls with
  | [] => None
  | PollDone :: _ => Some totalPolls
  | PollMembers n :: polls =>
      if NumOkayRequired <=? nOkay then Some totalPolls else
      settle_loop polls n (if n =? nPeers then nOkay + 1 else 0) (totalPolls + 1)
  end.
Definition Settle (polls : list poll) : option Z := settle_loop polls 0 0 0.

Definition Ready (polls : list poll) : bool := match Settle polls with Some _ => true | None => false end.
Definition Status (polls : list poll) : string := if Ready polls then "ready" else "settling".

(** ** Full states (delegate.go) *)

(** The wire format of clusterpb. *)
Record Part := mkPart { p_Key : string; p_Data : list Z }.
Class ClusterCodec := {
  marshal_full : list Part → option (list Z);
  unmarshal_full : list Z → option (list Part);
  marshal_part : Part → option (list Z);
  unmarshal_part : list Z → option Part;
}.

(** [State]: what is gossiped. *)
Record StateOps (S : Type) := mkStateOps {
  so_MarshalBinary : S → option (list Z);
  so_Merge : S → list Z → S * bool;
}.
Arguments so_MarshalBinary {S} _ _.
Arguments so_Merge {S} _ _ _.

Section delegate.
Context `{CC : ClusterCodec, MR : MapRange} {S : Type} (ops : string → StateOps S).

Abbreviation states := (gmap string S).

Fixpoint local_parts (kvs : list (string * S)) : option (list Part) :=
  match kvs with
  | [] => Some []
  | (key, s) :: kvs =>
      b ← so_MarshalBinary (ops key) s;
      parts ← local_parts kvs;
      Some (mkPart key b :: parts)
  end.
Definition LocalState (st : states) : option (list Z) :=
  parts ← local_parts (range st); marshal_full parts.

(** The loop of [MergeRemoteState]: an unknown key is skipped, an error ends it. *)
Fixpoint merge_parts (parts : list Part) (st : states) : states :=
  match parts with
  | [] => st
  | p :: parts =>
      match st !! p_Key p with
      | None => merge_parts parts st
      | Some s =>
          let '(s, ok) := so_Merge (ops (p_Key p)) s (p_Data p) in
          let st := <[p_Key p := s]> st in
          if ok : bool then merge_parts parts st else st
      end
  end.
Definition MergeRemoteState (buf : list Z) (st : states) : states :=
  match unmarshal_full buf with
  | None => st
  | Some parts => merge_parts parts st
  end.

Definition NotifyMsg (b : list Z) (st : states) : states :=
  match unmarshal_part b with
  | None => st
  | Some p =>
      match st !! p_Key p with
      | None => st
      | Some s => <[p_Key p := (so_Merge (ops (p_Key p)) s (p_Data p)).1]> st
      end
  end.

(** ** Channels (channel.go) *)

(** The queue of oversized messages, what was handed to the gossip queue, and
    the number of messages that were dropped. *)
Record Channel := mkChannel {
  ch_key : string;
  msgc : list (list Z);
  ch_sent : list (list Z);
  ch_dropped : Z;
}.
Definition msgc_capacity : nat := 200.

Definition Broadcast (c : Channel) (b : list Z) : Channel :=
  match marshal_part (mkPart (ch_key c) b) with
  | None => c
  | Some b =>
      if OversizedMessage b then
        if bool_decide (length (msgc c) < msgc_capacity)%nat
        then mkChannel (ch_key c) (msgc c ++ [b]) (ch_sent c) (ch_dropped c)
        else mkChannel (ch_key c) (msgc c) (ch_sent c) (ch_dropped c + 1)
      else mkChannel (ch_key c) (msgc c) (ch_sent c ++ [b]) (ch_dropped c)
  end.

(** One turn of [handleOverSizedMessages]: the message goes to every peer. *)
Definition handle_oversized (peers : list Node) (c : Channel) : option (Channel * list (Node * list Z)) :=
  match msgc c with
  | [] => None
  | b :: rest => Some (mkChannel (ch_key c) rest (ch_sent c) (ch_dropped c), (λ n, (n, b)) <$> peers)
  end.
End delegate.
End Cluster.

(** * The books about peers, positions, settling and full-state exchange *)
Module ClusterInv.
Import Cluster.

(** ** The books about peers *)
Section books.
Context `{NA : NetAddress}.

(** Addresses have the form host:port and names do not (they are ULIDs unless
    configured otherwise). *)
Definition host_port (a : string) : Prop := is_Some (SplitHostPort a).
Definition proper (n : Node) : Prop := host_port (Address n) ∧ SplitHostPort (Name n) = None.

(** The membership events with one reconnect timeout, all removals being at the
    latest at [B]. *)
Inductive pstep_at (T : duration) (B : time) : relation Peers :=
| at_join p n : proper n → pstep_at T B p (peerJoin p n)
| at_leave p n now : proper n → pstep_at T B p (peerLeave p n now)
| at_update p n : proper n → pstep_at T B p (peerUpdate p n)
| at_remove p now : now ≤ B → pstep_at T B p (removeFailedPeers p T now).

Record books (T : duration) (B : time) (p : Peers) : Prop := {
  bk_keys : ∀ a q, peers p !! a = Some q →
    Address (node q) = a ∧ host_port a ∧ SplitHostPort (Name (node q)) = None ∧
    (status q = StatusAlive ∨ status q = StatusFailed);
  bk_failed : ∀ pr, pr ∈ failedPeers p →
    SplitHostPort (Name (node pr)) = None ∧
    ∃ q, peers p !! Address (node pr) = Some q ∧ status q = StatusFailed;
  bk_complete : ∀ a q, peers p !! a = Some q → status q = StatusFailed → B < leaveTime q + T →
    ∃ pr, pr ∈ failedPeers p ∧ Address (node pr) = a ∧ leaveTime pr = leaveTime q;
}.

Lemma elem_of_removeOldPeer pr old addr : pr ∈ removeOldPeer old addr ↔ pr ∈ old ∧ Address (node pr) ≠ addr.
Proof. unfold removeOldPeer. rewrite list_elem_of_In, filter_In, bool_decide_eq_true, <-list_elem_of_In. done. Qed.

Lemma peerJoin_eq p n :
  peerJoin p n = mkPeers (<[Address n := mkPeer StatusAlive 0 n]> (peers p))
    (if bool_decide (status <$> peers p !! Address n = Some StatusFailed)
     then removeOldPeer (failedPeers p) (Address n) else failedPeers p).
Proof.
  unfold peerJoin. destruct (peers p !! Address n) as [pr|]; cbn; [|done].
  f_equal. by destruct (status pr).
Qed.

Lemma books_join T B p n : books T B p → proper n → books T B (peerJoin p n).
Proof.
  intros [Hk Hf Hc] [Ha Hn]. rewrite peerJoin_eq. split; cbn.
  - intros a q [[<- <-]|[Hne Hq]]%lookup_insert_Some; [|by apply Hk]. cbn. auto.
  - intros pr Hpr. assert (pr ∈ failedPeers p ∧ Address (node pr) ≠ Address n) as [Hin Hne].
    { case_bool_decide as Hs; [by apply elem_of_removeOldPeer|]. split; [done|]. intros E.
      destruct (Hf pr Hpr) as (_ & q & Hq & Hst). rewrite E in Hq. apply Hs. by rewrite Hq; cbn; rewrite Hst. }
    destruct (Hf pr Hin) as (? & q & Hq & ?). split; [done|]. exists q. by rewrite lookup_insert_ne.
  - intros a q [[<- <-]|[Hne Hq]]%lookup_insert_Some Hs Hb; [done|].
    destruct (Hc a q Hq Hs Hb) as (pr & Hpr & Hadr & Hl). exists pr. split; [|done].
    case_bool_decide; [|done]. apply elem_of_removeOldPeer. split; [done|congruence].
Qed.

Lemma books_leave T B p n now : books T B p → proper n → books T B (peerLeave p n now).
Proof.
  intros [Hk Hf Hc] [Ha Hn]. unfold peerLeave. destruct (peers p !! Address n) as [q0|] eqn:Hq0; [|done].
  destruct (Hk _ _ Hq0) as (Hadr0 & Hhp & Hnm & _). split; cbn.
  - intros a q [[<- <-]|[Hne Hq]]%lookup_insert_Some; [|by apply Hk]. cbn. auto.
  - intros pr [Hpr| ->%list_elem_of_singleton]%elem_of_app; cbn.
    + destruct (Hf pr Hpr) as (? & q & Hq & ?). split; [done|].
      destruct (decide (Address (node pr) = Address n)) as [->|Hne].
      * rewrite lookup_insert_eq. eauto.
      * rewrite lookup_insert_ne by done. eauto.
    + split; [done|]. rewrite Hadr0, lookup_insert_eq. eauto.
  - intros a q [[<- <-]|[Hne Hq]]%lookup_insert_Some Hs Hb.
    + eexists. split; [apply elem_of_app; right; by left|]. done.
    + destruct (Hc a q Hq Hs Hb) as (pr & Hpr & ?). exists pr. split; [|done]. apply elem_of_app. by left.
Qed.

Lemma books_update T B p n : books T B p → proper n → books T B (peerUpdate p n).
Proof.
  intros [Hk Hf Hc] [Ha Hn]. unfold peerUpdate. destruct (peers p !! Address n) as [q0|] eqn:Hq0; [|done].
  destruct (Hk _ _ Hq0) as (Hadr0 & Hhp & Hnm & Hst). split; cbn.
  - intros a q [[<- <-]|[Hne Hq]]%lookup_insert_Some; [|by apply Hk]. cbn. auto.
  - intros pr Hpr. destruct (Hf pr Hpr) as (? & q & Hq & ?). split; [done|].
    destruct (decide (Address (node pr) = Address n)) as [E|Hne].
    + rewrite E, lookup_insert_eq. eexists. split; [done|]. cbn. congruence.
    + rewrite lookup_insert_ne by done. eauto.
  - intros a q [[<- <-]|[Hne Hq]]%lookup_insert_Some Hs Hb; cbn in *; by eapply Hc.
Qed.

Lemma remove_failed_spec T now failed : ∀ m,
  (∀ pr, pr ∈ failed → m !! Name (node pr) = None) →
  remove_failed T now failed m = (List.filter (λ pr, After (leaveTime pr + T) now) failed, m).
Proof.
  induction failed as [|pr failed IH]; intros m Hm; [done|]. cbn.
  assert (Hrec : remove_failed T now failed m = (List.filter (λ pr, After (leaveTime pr + T) now) failed, m))
    by (apply IH; set_solver).
  destruct (After _ _); [by rewrite Hrec|]. rewrite delete_id; [done|]. apply Hm. by left.
Qed.

(** The removal deletes from the books under the name, not under the address. *)
Lemma removeFailedPeers_eq T B p now : books T B p →
  removeFailedPeers p T now =
    mkPeers (peers p) (List.filter (λ pr, After (leaveTime pr + T) now) (failedPeers p)).
Proof.
  intros [Hk Hf _]. unfold removeFailedPeers. rewrite remove_failed_spec; [done|].
  intros pr Hpr. destruct (Hf pr Hpr) as [Hn _]. apply eq_None_not_Some. intros [q Hq].
  destruct (Hk _ _ Hq) as (_ & [x Hx] & _). congruence.
Qed.

Lemma books_remove T B p now : books T B p → now ≤ B → books T B (removeFailedPeers p T now).
Proof.
  intros Hb Hnow. rewrite (removeFailedPeers_eq _ _ _ _ Hb). destruct Hb as [Hk Hf Hc]. split; cbn; [done|..].
  - intros pr Hpr. apply Hf. rewrite list_elem_of_In, filter_In, <-list_elem_of_In in Hpr. tauto.
  - intros a q Hq Hs HB. destruct (Hc a q Hq Hs HB) as (pr & Hpr & ? & Hl). exists pr. split; [|done].
    rewrite list_elem_of_In, filter_In, <-list_elem_of_In. split; [done|].
    unfold After. apply Z.ltb_lt. rewrite Hl. lia.
Qed.

Lemma books_step T B p p' : pstep_at T B p p' → books T B p → books T B p'.
Proof. destruct 1; intros Hb; eauto using books_join, books_leave, books_update, books_remove. Qed.

Lemma books_reachable T B p0 p : rtc (pstep_at T B) p0 p → books T B p0 → books T B p.
Proof. induction 1; eauto using books_step. Qed.

(** Addresses as name resolution returns them: printed the way they are parsed. *)
Definition canonical (a : string) : Prop :=
  ∀ host port ip n, SplitHostPort a = Some (host, port) → ParseIP host = Some ip → ParsePort port = Some n →
    JoinHostPort ip n = a.

Lemma books_initial T B addrs me now :
  SplitHostPort "" = None → Forall canonical addrs →
  books T B (setInitialFailed (mkPeers ∅ []) addrs me now).
Proof.
  intros He. unfold setInitialFailed.
  assert (Hb : books T B (mkPeers ∅ [])) by (split; cbn; intros *; [by rewrite lookup_empty|set_solver|by rewrite lookup_empty]).
  revert Hb. generalize (mkPeers ∅ []). induction addrs as [|a addrs IH]; intros p Hb Hcan; [done|].
  apply Forall_cons_1 in Hcan as [Ha Hcan]. cbn. apply IH; [|done]. unfold initial_failed.
  case_bool_decide; [done|]. destruct (SplitHostPort a) as [[host port]|] eqn:Hs; [|done].
  destruct (ParseIP host) as [ip|] eqn:Hip, (ParsePort port) as [n|] eqn:Hp; try done.
  pose proof (Ha _ _ _ _ Hs Hip Hp) as Hj. destruct Hb as [Hk Hf Hc]. split; cbn; rewrite ?Hj.
  - intros b q [[<- <-]|[Hne Hq]]%lookup_insert_Some; [|by apply Hk]. cbn. unfold host_port. rewrite Hs. eauto.
  - intros pr [Hpr| ->%list_elem_of_singleton]%elem_of_app; cbn.
    + destruct (Hf pr Hpr) as (? & q & Hq & ?). split; [done|].
      destruct (decide (Address (node pr) = a)) as [->|Hne]; [rewrite lookup_insert_eq|rewrite lookup_insert_ne by done]; eauto.
    + split; [done|]. rewrite lookup_insert_eq. eauto.
  - intros b q [[<- <-]|[Hne Hq]]%lookup_insert_Some Hst HB.
    + eexists. split; [apply elem_of_app; right; by left|]. done.
    + destruct (Hc b q Hq Hst HB) as (pr & Hpr & ?). exists pr. split; [|done]. apply elem_of_app. by left.
Qed.

(** Reconnection is attempted to the right peers: in every reachable state, an address that
    is in the books with a leave time that no removal has passed is tried exactly when the peer's
    last event was a failure; in particular a peer that is alive is never tried. *)
Theorem reconnect_exact T B addrs me now p a q :
  SplitHostPort "" = None → Forall canonical addrs →
  rtc (pstep_at T B) (setInitialFailed (mkPeers ∅ []) addrs me now) p →
  peers p !! a = Some q → status q = StatusAlive ∨ B < leaveTime q + T →
  a ∈ reconnect p ↔ status q = StatusFailed.
Proof.
  intros He Hcan Hr Hq Ht. destruct (books_reachable _ _ _ _ Hr (books_initial T B addrs me now He Hcan)) as [_ Hf Hc].
  unfold reconnect. rewrite list_elem_of_fmap. split.
  - intros (pr & -> & Hpr). destruct (Hf pr Hpr) as (_ & q' & Hq' & Hs). congruence.
  - intros Hs. destruct Ht as [Ht|Ht]; [congruence|]. destruct (Hc a q Hq Hs Ht) as (pr & Hpr & <- & _). eauto.
Qed.

(** A peer is never forgotten: whatever happens, an address that is in the books stays there,
    also after its timeout, because the entry is deleted under the peer's name while the books are
    kept by address. *)
Theorem timed_out_peer_kept T B addrs me now p p' :
  SplitHostPort "" = None → Forall canonical addrs →
  rtc (pstep_at T B) (setInitialFailed (mkPeers ∅ []) addrs me now) p → rtc (pstep_at T B) p p' →
  dom (peers p) ⊆ dom (peers p').
Proof.
  intros He Hcan Hr Hs. assert (Hb : books T B p) by eauto using books_reachable, books_initial.
  clear Hr. induction Hs as [|p p1 p' Hstep _ IH]; [done|].
  etrans; [|apply IH; by eapply books_step]. destruct Hstep as [p n|p n t|p n|p t Ht].
  - rewrite peerJoin_eq. cbn. set_solver.
  - unfold peerLeave. destruct (peers p !! _); cbn; set_solver.
  - unfold peerUpdate. destruct (peers p !! _); cbn; set_solver.
  - by rewrite (removeFailedPeers_eq _ _ _ _ Hb).
Qed.
End books.

(** ** The position in the cluster *)
Lemma string_compare_trans x : ∀ y z,
  String.compare x y = Lt → String.compare y z = Lt → String.compare x z = Lt.
Proof.
  induction x as [|a x IH]; intros [|b y] [|c z]; cbn; try done.
  unfold Ascii.compare. destruct (N.compare_spec (N_of_ascii a) (N_of_ascii b)) as [E1|L1|L1]; [| |done].
  - rewrite E1. destruct (N.compare_spec (N_of_ascii b) (N_of_ascii c)); [|done..]. apply IH.
  - intros _. destruct (N.compare_spec (N_of_ascii b) (N_of_ascii c)) as [E2|L2|L2]; [| |done]; intros _.
    + by rewrite <-E2, (proj2 (N.compare_lt_iff _ _) L1).
    + by rewrite (proj2 (N.compare_lt_iff _ _) (N.lt_trans _ _ _ L1 L2)).
Qed.

Lemma ltb_Lt x y : String.ltb x y = true ↔ String.compare x y = Lt.
Proof. unfold String.ltb. destruct (String.compare x y); naive_solver. Qed.

Lemma ltb_irrefl x : String.ltb x x = false.
Proof.
  unfold String.ltb. pose proof (String.compare_antisym x x) as H. by destruct (String.compare x x).
Qed.

Lemma ltb_total x y : x ≠ y → String.ltb x y = negb (String.ltb y x).
Proof.
  intros Hne. unfold String.ltb. rewrite (String.compare_antisym x y).
  destruct (String.compare y x) eqn:E; [|done..]. by apply String.compare_eq_iff in E.
Qed.

Lemma ltb_trans x y z : String.ltb x y = true → String.ltb y z = true → String.ltb x z = true.
Proof. rewrite !ltb_Lt. apply string_compare_trans. Qed.

#[global] Instance name_le_total : Total name_le.
Proof.
  intros x y. unfold name_le. destruct (decide (Name x = Name y)) as [->|Hne]; [left; apply ltb_irrefl|].
  rewrite (ltb_total (Name x)) by done. destruct (String.ltb (Name y) (Name x)); auto.
Qed.
#[global] Instance name_le_trans : Transitive name_le.
Proof.
  intros x y z. unfold name_le. intros H1 H2. destruct (String.ltb (Name z) (Name x)) eqn:E; [|done].
  destruct (decide (Name x = Name y)) as [Exy|Hxy]; [by rewrite Exy in E; rewrite E in H2|].
  rewrite ltb_total, negb_false_iff in H1 by done.
  rewrite <-H2. symmetry. by apply (ltb_trans _ (Name x)).
Qed.

(** The members whose names come before a name. *)
Definition before (self : string) (members : list Node) : nat :=
  length (List.filter (λ n, String.ltb (Name n) self) members).

Lemma before_Permutation self l k : l ≡ₚ k → before self l = before self k.
Proof. intros H. unfold before. by rewrite H. Qed.

Lemma before_lt members c : c ∈ Name <$> members → (before c members < length members)%nat.
Proof.
  unfold before. induction members as [|n members IH]; [set_solver|]. rewrite fmap_cons, elem_of_cons. cbn.
  intros [->|Hin]; [rewrite ltb_irrefl; pose proof (List.filter_length_le (λ m, String.ltb (Name m) (Name n)) members); lia|].
  specialize (IH Hin). destruct (String.ltb (Name n) c); cbn; lia.
Qed.

Lemma before_mono members c d :
  c ∈ Name <$> members → String.ltb c d = true → (before c members < before d members)%nat.
Proof.
  intros Hin Hcd. unfold before.
  assert (Hle : ∀ l, (length (List.filter (λ n, String.ltb (Name n) c) l) ≤
                      length (List.filter (λ n, String.ltb (Name n) d) l))%nat).
  { induction l as [|n l IH]; [done|]. cbn. destruct (String.ltb (Name n) c) eqn:E.
    - rewrite (ltb_trans _ _ _ E Hcd). cbn. lia.
    - destruct (String.ltb (Name n) d); cbn; lia. }
  induction members as [|n members IH]; [set_solver|]. rewrite fmap_cons, elem_of_cons in Hin. cbn.
  destruct Hin as [->|Hin]; [rewrite ltb_irrefl, Hcd; cbn; specialize (Hle members); lia|].
  specialize (IH Hin). destruct (String.ltb (Name n) c) eqn:E; [rewrite (ltb_trans _ _ _ E Hcd); cbn; lia|].
  destruct (String.ltb (Name n) d); cbn; lia.
Qed.

Lemma position_loop_spec self all : ∀ k,
  StronglySorted name_le all → NoDup (Name <$> all) → self ∈ Name <$> all →
  position_loop self all k = k + Z.of_nat (before self all).
Proof.
  induction all as [|n all IH]; intros k Hs Hnd Hin; [set_solver|]. rewrite fmap_cons in *.
  apply StronglySorted_inv in Hs as [Hs Hle]. apply NoDup_cons in Hnd as [Hnot Hnd]. cbn [position_loop].
  case_bool_decide as He.
  - subst self. unfold before. cbn. rewrite ltb_irrefl.
    assert (Hz : List.filter (λ m, String.ltb (Name m) (Name n)) all = []); [|rewrite Hz; cbn; lia].
    clear IH Hin Hs Hnd Hnot. induction Hle as [|m all Hm _ IH]; [done|]. cbn. unfold name_le in Hm. by rewrite Hm.
  - apply elem_of_cons in Hin as [?|Hin]; [congruence|]. rewrite IH by done. unfold before. cbn.
    apply list_elem_of_fmap in Hin as (m & -> & Hm). rewrite Forall_forall in Hle.
    specialize (Hle m Hm). unfold name_le in Hle. rewrite (ltb_total (Name n)), Hle by done. cbn [negb length]. lia.
Qed.

Lemma Position_spec members self :
  NoDup (Name <$> members) → self ∈ Name <$> members → Position members self = Z.of_nat (before self members).
Proof.
  intros Hnd Hin. pose proof (merge_sort_Permutation name_le members) as Hp. unfold Position.
  rewrite position_loop_spec; [|apply StronglySorted_merge_sort; apply _|by rewrite Hp|by rewrite Hp].
  by rewrite (before_Permutation _ _ _ Hp).
Qed.

(** ** Settling *)
Definition members_of (p : poll) : option Z := match p with PollMembers n => Some n | PollDone => None end.

Lemma settle_enough c rest : ∀ j nOkay total,
  NumOkayRequired < nOkay + Z.of_nat j → (0 < j)%nat →
  is_Some (settle_loop (replicate j (PollMembers c) ++ rest) c nOkay total).
Proof.
  unfold NumOkayRequired. induction j as [|j IH]; intros nOkay total Hj H0; [lia|].
  cbn. unfold NumOkayRequired. destruct (Z.leb_spec 3 nOkay); [eauto|]. rewrite Z.eqb_refl. apply IH; lia.
Qed.

Lemma settle_prefix pre post : ∀ a b t, 0 ≤ b →
  (∀ a b t, 0 ≤ b → is_Some (settle_loop post a b t)) → is_Some (settle_loop (pre ++ post) a b t).
Proof.
  induction pre as [|[|n] pre IH]; intros a b t Hb Hpost; cbn; [by apply Hpost|eauto|].
  unfold NumOkayRequired. destruct (Z.leb_spec 3 b); [eauto|]. apply IH; [|done]. destruct (n =? a); lia.
Qed.

(** Settling ends: when the number of members has stopped changing after [m] polls, or the
    context is done then, Settle returns at the latest five polls later, and Ready says so. *)
Theorem settle_terminates (polls : nat → poll) m k :
  (polls m = PollDone ∨ ∃ c, ∀ j, (j < 5)%nat → polls (m + j)%nat = PollMembers c) → (m + 5 ≤ k)%nat →
  is_Some (Settle (polls <$> seq 0 k)) ∧ Ready (polls <$> seq 0 k) = true.
Proof.
  intros Hm Hk. assert (Hs : is_Some (Settle (polls <$> seq 0 k))).
  { replace k with (m + (5 + (k - m - 5)))%nat by lia. rewrite seq_app, fmap_app. unfold Settle.
    apply settle_prefix; [lia|]. intros a b t Hb. destruct Hm as [Hd|[c Hc]].
    - cbn. rewrite Hd. eauto.
    - rewrite seq_app, fmap_app.
      assert (polls <$> seq (0 + m) 5 = PollMembers c :: replicate 4 (PollMembers c)) as ->.
      { assert (Hx : ∀ j, (j < 5)%nat → polls (j + m)%nat = PollMembers c)
          by (intros j Hj; rewrite Nat.add_comm; by apply Hc).
        pose proof (Hx 0%nat) as H0. pose proof (Hx 1%nat) as H1. pose proof (Hx 2%nat) as H2.
        pose proof (Hx 3%nat) as H3. pose proof (Hx 4%nat) as H4. cbn in *.
        by rewrite H0, H1, H2, H3, H4 by lia. }
      cbn [app settle_loop]. destruct (NumOkayRequired <=? b); [eauto|].
      apply settle_enough; [unfold NumOkayRequired; destruct (c =? a); lia|lia]. }
  split; [done|]. unfold Ready. by destruct Hs as [x ->].
Qed.

(** ** Full-state exchange *)
Section exchange.
Context `{CC : ClusterCodec, MR : MapRange} {S : Type} (ops : string → StateOps S).
Hypothesis full_roundtrip : ∀ parts b, marshal_full parts = Some b → unmarshal_full b = Some parts.

(** What merging another peer's states does to each state. *)
Definition merged (key : string) (mine theirs : option S) : option S :=
  match mine, theirs with
  | Some s, Some t =>
      match so_MarshalBinary (ops key) t with
      | Some b => Some (so_Merge (ops key) s b).1
      | None => Some s
      end
  | _, _ => mine
  end.

Lemma local_parts_spec kvs : ∀ parts,
  local_parts ops kvs = Some parts →
  Forall2 (λ kv p, p_Key p = kv.1 ∧ so_MarshalBinary (ops kv.1) kv.2 = Some (p_Data p)) kvs parts.
Proof.
  induction kvs as [|[key s] kvs IH]; intros parts H; cbn in H; [by simplify_eq; constructor|].
  apply bind_Some in H as (b & Hb & H). apply bind_Some in H as (ps & Hps & H). simplify_eq.
  constructor; [done|]. by apply IH.
Qed.

Lemma merge_parts_lookup parts : ∀ st k,
  NoDup (p_Key <$> parts) →
  (∀ p s, p ∈ parts → st !! p_Key p = Some s → (so_Merge (ops (p_Key p)) s (p_Data p)).2 = true) →
  merge_parts ops parts st !! k =
    match st !! k, list_find (λ p, p_Key p = k) parts with
    | Some s, Some (_, p) => Some (so_Merge (ops k) s (p_Data p)).1
    | x, _ => x
    end.
Proof.
  induction parts as [|p parts IH]; intros st k Hnd Hok; cbn [merge_parts list_find]; [by destruct (st !! k)|].
  rewrite fmap_cons in Hnd. apply NoDup_cons in Hnd as [Hp Hnd].
  assert (Hok' : ∀ q s, q ∈ parts → st !! p_Key q = Some s → (so_Merge (ops (p_Key q)) s (p_Data q)).2 = true)
    by (intros; apply Hok; [by right|done]).
  destruct (st !! p_Key p) as [s|] eqn:Hs.
  - destruct (so_Merge (ops (p_Key p)) s (p_Data p)) as [s' ok] eqn:Hm.
    assert (ok = true) as ->. { specialize (Hok p s ltac:(by left) Hs). by rewrite Hm in Hok. }
    rewrite IH; [|done|].
    2: { intros q t Hq. rewrite lookup_insert_ne; [by apply Hok'|]. intros E. apply Hp. rewrite E. by apply list_elem_of_fmap_2. }
    case_decide as Hk.
    + subst k. rewrite lookup_insert_eq, Hs, Hm.
      destruct (list_find _ parts) as [[i q]|] eqn:Hf; [|done].
      apply list_find_Some in Hf as (Hi & Hq & _). destruct Hp. rewrite <-Hq.
      apply list_elem_of_fmap_2. by eapply list_elem_of_lookup_2.
    + rewrite lookup_insert_ne by done. destruct (st !! k); [|done]. by destruct (list_find _ parts) as [[]|].
  - rewrite IH by done. case_decide as Hk.
    + subst k. by rewrite Hs.
    + destruct (st !! k); [|done]. by destruct (list_find _ parts) as [[]|].
Qed.

Lemma LocalState_marshals st buf k : LocalState ops st = Some buf →
  ∀ s, st !! k = Some s → is_Some (so_MarshalBinary (ops k) s).
Proof.
  intros (parts & HF%local_parts_spec & _)%bind_Some s Hs%elem_of_range.
  apply list_elem_of_lookup in Hs as [i Hi]. destruct (Forall2_lookup_l _ _ _ _ _ HF Hi) as (p & _ & _ & E).
  cbn in E. eauto.
Qed.

Lemma MergeRemoteState_lookup sta stb buf k :
  LocalState ops sta = Some buf →
  (∀ key s t b, stb !! key = Some s → sta !! key = Some t →
     so_MarshalBinary (ops key) t = Some b → (so_Merge (ops key) s b).2 = true) →
  MergeRemoteState ops buf stb !! k = merged k (stb !! k) (sta !! k).
Proof using full_roundtrip.
  intros (parts & Hp & Hb)%bind_Some Hok. unfold MergeRemoteState. rewrite (full_roundtrip _ _ Hb).
  apply local_parts_spec in Hp as HF.
  assert (Hkeys : p_Key <$> parts = (range sta).*1).
  { clear Hp Hb. induction HF as [|kv p kvs ps [E _] _ IH]; [done|]. cbn. by rewrite E, IH. }
  rewrite merge_parts_lookup.
  - unfold merged. destruct (stb !! k) as [s|]; [|done]. destruct (list_find _ parts) as [[i p]|] eqn:Hf.
    + apply list_find_Some in Hf as (Hi & <- & _). destruct (Forall2_lookup_r _ _ _ _ _ HF Hi) as ([key t] & Hkv & E1 & E2).
      cbn in *. subst key. apply list_elem_of_lookup_2, elem_of_range in Hkv. by rewrite Hkv, E2.
    + destruct (sta !! k) as [t|] eqn:Ht; [|done]. exfalso.
      apply elem_of_range in Ht. apply list_find_None in Hf. rewrite Forall_forall in Hf.
      assert (Hin : k ∈ p_Key <$> parts) by (rewrite Hkeys; by apply (list_elem_of_fmap_2 fst _ (k, t))).
      apply list_elem_of_fmap in Hin as (p & -> & Hin). by apply (Hf p Hin).
  - rewrite Hkeys. apply NoDup_fst_range.
  - intros p s Hin Hs. apply list_elem_of_lookup in Hin as [i Hi].
    destruct (Forall2_lookup_r _ _ _ _ _ HF Hi) as ([key t] & Hkv & E1 & E2). cbn in *. subst key.
    apply list_elem_of_lookup_2, elem_of_range in Hkv. eauto.
Qed.

(** A push-pull exchange makes two peers agree: when every state merges another's serialized
    form like a commutative operation, then after each peer has merged the other's full state, every
    state that both of them keep is the same on both, and states that only one of them keeps are
    untouched. *)
Theorem push_pull_agrees (join : S → S → S) sta stb bufa bufb :
  (∀ key s t b, so_MarshalBinary (ops key) t = Some b → so_Merge (ops key) s b = (join s t, true)) →
  (∀ s t, join s t = join t s) →
  LocalState ops sta = Some bufa → LocalState ops stb = Some bufb →
  ∀ k, match sta !! k, stb !! k with
       | Some s, Some t => MergeRemoteState ops bufb sta !! k = Some (join s t) ∧
                           MergeRemoteState ops bufa stb !! k = Some (join s t)
       | x, y => MergeRemoteState ops bufb sta !! k = x ∧ MergeRemoteState ops bufa stb !! k = y
       end.
Proof using full_roundtrip.
  intros Hm Hcomm Ha Hb k.
  rewrite (MergeRemoteState_lookup stb sta bufb k Hb), (MergeRemoteState_lookup sta stb bufa k Ha);
    [|intros; by erewrite Hm..].
  pose proof (LocalState_marshals _ _ k Ha) as Ma. pose proof (LocalState_marshals _ _ k Hb) as Mb.
  unfold merged. destruct (sta !! k) as [s|], (stb !! k) as [t|]; try done.
  destruct (Ma s eq_refl) as [x Hx], (Mb t eq_refl) as [y Hy].
  rewrite Hx, Hy, !(Hm k _ _ _) by eassumption. by rewrite (Hcomm t s).
Qed.
End exchange.
End ClusterInv.
