(* ===== verification/Gossip.v ===== *)
(** * Push-pull between two peers

    The composition of the state exchange (cluster/delegate.go) with the two
    states that app/app.go registers for it: the silences under [sil] and the
    notification log under [nfl].  Whatever two peers know, after one exchange
    they know the same. *)

From stdpp Require Import base gmap strings list.
From S2P Require Import Prelude Labels Lww Silence SilenceInv SilenceOps Alert Nflog Cluster.

Module Gossip.
Import Cluster.

Section gossip.
Context `{RE : Regexp, LV : LabelValidation, SC : !Silence.SilenceCodec, NC : !Nflog.NflogCodec}.
Context `{CC : ClusterCodec, MR : MapRange}.

(** What implements [State]. *)
Inductive gossiped := Sil (s : Silence.Silences) | Nfl (l : Nflog.Log).

Definition to_option {E A} (r : result E A) : option A :=
  match r with Ok x => Some x | Err _ => None end.
Definition no_error {E} (err : option E) : bool := match err with None => true | Some _ => false end.

(** [MarshalBinary] and [Merge] of the two; [now] is the clock of the peer. *)
Definition gossip_ops (now : time) (key : string) : StateOps gossiped :=
  mkStateOps gossiped
    (λ g, match g with
          | Sil s => to_option (Silence.Snapshot s)
          | Nfl l => to_option (Nflog.Snapshot l)
          end)
    (λ g b, match g with
            | Sil s => let '(s, err) := Silence.Merge s b now in (Sil s, no_error err)
            | Nfl l => let '(l, err) := Nflog.Merge l b now in (Nfl l, no_error err)
            end).

(** The states a peer registers. *)
Definition peer_states (s : Silence.Silences) (l : Nflog.Log) : gmap string gossiped :=
  <["sil"%string := Sil s]> {["nfl"%string := Nfl l]}.

(** ** One state at a time *)
Section exchange.
Context `{LE : !Lww E}.
Implicit Types (mine theirs : gmap string E) (now : time).

(** The versions of [k] that two peers know, none of them expired. *)
Definition known mine theirs (k : string) (e : E) : Prop := mine !! k = Some e ∨ theirs !! k = Some e.

Lemma candidate_known (live : time → E → bool) mine theirs es k now :
  (∀ e, e ∈ es ↔ ∃ k, theirs !! k = Some e ∧ live now e = true) →
  (∀ k e, theirs !! k = Some e → lww_key e = k) →
  (∀ e, theirs !! k = Some e → live now e = true) →
  ∀ e, candidate mine es k e ↔ known mine theirs k e.
Proof.
  intros Hes Hk Hlive e. unfold candidate, known. rewrite Hes. split.
  - intros [?|[(k' & He & _) <-]]; [by left|]. right. by rewrite (Hk k' e He).
  - intros [?|He]; [by left|]. right. split; [|by apply Hk]. eauto.
Qed.

(** The known versions of [k] are not expired on either clock, and two that
    differ have different stamps. *)
Record settled (live : time → E → bool) (n1 n2 : time) mine theirs k : Prop := {
  settled_live : ∀ e, known mine theirs k e → live n1 e = true ∧ live n2 e = true;
  settled_tie : ∀ e1 e2, known mine theirs k e1 → known mine theirs k e2 →
    lww_stamp e1 = lww_stamp e2 → e1 = e2;
}.

(** [m] has the latest known version of [k]. *)
Definition latest mine theirs (m : gmap string E) k : Prop :=
  match m !! k with
  | Some e => known mine theirs k e ∧ ∀ e', known mine theirs k e' → lww_stamp e' ≤ lww_stamp e
  | None => ∀ e, ¬ known mine theirs k e
  end.

Lemma exchange_agrees live n1 n2 mine theirs es1 es2 k :
  settled live n1 n2 mine theirs k →
  (∀ e, candidate mine es1 k e ↔ known mine theirs k e) →
  (∀ e, candidate theirs es2 k e ↔ known theirs mine k e) →
  foldl lww_merge mine es1 !! k = foldl lww_merge theirs es2 !! k ∧
  latest mine theirs (foldl lww_merge mine es1) k.
Proof.
  intros [_ Htie] C1 C2. split.
  - apply lww_fold_agree.
    + intros e. rewrite C1, C2. unfold known. tauto.
    + intros e1 e2 H1%C1 H2%C1. by apply Htie.
  - unfold latest. pose proof (lww_fold_lookup es1 mine k) as H. case_match.
    + destruct H as [Hc Hm]. split; [by apply C1|]. intros e' He'%C1. by apply Hm.
    + intros e He%C1. by apply (H e).
Qed.
End exchange.

(** What the exchange needs of the codecs. *)
Context `{SL : !SilenceOps.SilenceCodecLaws, NL : !NflogInv.NflogCodecLaws}.
Hypothesis full_roundtrip : ∀ parts b, marshal_full parts = Some b → unmarshal_full b = Some parts.

Lemma in_live_entries {E} (live : time → E → bool) (m : gmap string E) now e :
  e ∈ List.filter (live now) (range m).*2 ↔ ∃ k, m !! k = Some e ∧ live now e = true.
Proof.
  rewrite list_elem_of_In, filter_In, <-list_elem_of_In. split.
  - intros [([k e'] & -> & Hin%elem_of_range)%list_elem_of_fmap Hl]. eauto.
  - intros (k & Hk%elem_of_range & Hl). split; [|done]. by apply (list_elem_of_fmap_2 snd _ (k, e)).
Qed.

Lemma silences_pull ret lim s ret' lim' t b now :
  rtc SilenceInv.step (Silence.New_Silences ret lim) s →
  rtc SilenceInv.step (Silence.New_Silences ret' lim') t → SilenceSnapshot.all_readable t → Silence.Snapshot t = Ok b →
  (Silence.Merge s b now).2 = None ∧
  ∀ id, (∀ e, Silence.st t !! id = Some e → SilenceOps.live now e = true) →
    ∀ e, candidate (Silence.st s) (SilenceOps.entries now b) id e ↔
         known (Silence.st s) (Silence.st t) id e.
Proof using SL.
  intros Hs Ht Hsz Hb. pose proof (SilenceSnapshot.decode_snapshot _ _ _ _ Ht Hsz Hb) as Hd. split.
  { unfold Silence.Merge. by rewrite Hd. }
  intros k Hlive. apply (candidate_known SilenceOps.live _ _ _ _ now); [|apply (SilenceInv.reachable_wf _ _ _ Ht)|done].
  intros e. unfold SilenceOps.entries. rewrite Hd.
  rewrite (list_fmap_ext _ (λ x, x)); [by rewrite list_fmap_id, in_live_entries|].
  intros i x Hx. apply list_elem_of_lookup_2, in_live_entries in Hx as (k0 & Hk & _).
  apply SilenceSnapshot.normal_upgraded. by eapply (SilenceSnapshot.reachable_normal _ _ _ Ht).
Qed.

Lemma log_pull ret l ret' t b now :
  rtc NflogInv.step (Nflog.New_Log ret) l → rtc NflogInv.step (Nflog.New_Log ret') t →
  NflogInv.all_readable t → Nflog.Snapshot t = Ok b →
  (Nflog.Merge l b now).2 = None ∧
  ∀ k, (∀ e, Nflog.st t !! k = Some e → NflogInv.live now e = true) →
    ∀ e, candidate (Nflog.st l) (NflogInv.entries now b) k e ↔ known (Nflog.st l) (Nflog.st t) k e.
Proof using NL.
  intros Hl Ht Hsz Hb. pose proof (NflogInv.reachable_keyed _ _ Ht) as Hk.
  assert (Hd : Nflog.decodeState b = Ok (Nflog.st t)) by (by eapply NflogInv.decode_log_snapshot).
  split; [unfold Nflog.Merge; by rewrite Hd|].
  intros k Hlive. apply (candidate_known NflogInv.live _ _ _ _ now); [|done|done].
  intros e. unfold NflogInv.entries. rewrite Hd. apply in_live_entries.
Qed.

(** ** The exchange *)
Lemma LocalState_now n1 n2 st : LocalState (gossip_ops n1) st = LocalState (gossip_ops n2) st.
Proof. done. Qed.

(** What one peer has after merging the other's full state. *)
Lemma pull ret lim s rl l ret' lim' t rl' u buf now now' :
  rtc SilenceInv.step (Silence.New_Silences ret lim) s → rtc NflogInv.step (Nflog.New_Log rl) l →
  rtc SilenceInv.step (Silence.New_Silences ret' lim') t → rtc NflogInv.step (Nflog.New_Log rl') u →
  SilenceSnapshot.all_readable t → NflogInv.all_readable u →
  LocalState (gossip_ops now') (peer_states t u) = Some buf →
  ∃ bs bl, Silence.Snapshot t = Ok bs ∧ Nflog.Snapshot u = Ok bl ∧
    MergeRemoteState (gossip_ops now) buf (peer_states s l) =
      peer_states (Silence.Merge s bs now).1 (Nflog.Merge l bl now).1.
Proof using SL NL full_roundtrip.
  intros Hs Hl Ht Hu Ht' Hu' Hbuf. rewrite (LocalState_now _ now) in Hbuf.
  assert (Hsil : ∀ x y, peer_states x y !! "sil"%string = Some (Sil x)) by (intros; apply lookup_insert_eq).
  assert (Hnfl : ∀ x y, peer_states x y !! "nfl"%string = Some (Nfl y))
    by (intros; unfold peer_states; rewrite lookup_insert_ne by done; apply lookup_singleton_eq).
  destruct (ClusterInv.LocalState_marshals _ _ _ "sil"%string Hbuf _ (Hsil t u)) as [bs Hbs].
  destruct (ClusterInv.LocalState_marshals _ _ _ "nfl"%string Hbuf _ (Hnfl t u)) as [bl Hbl].
  cbn in Hbs, Hbl. destruct (Silence.Snapshot t) as [bs'|] eqn:Es; [|done].
  destruct (Nflog.Snapshot u) as [bl'|] eqn:El; [|done]. cbn in Hbs, Hbl. simplify_eq.
  destruct (silences_pull _ _ _ _ _ _ _ now Hs Ht Ht' Es) as [Hs2 _].
  destruct (log_pull _ _ _ _ _ now Hl Hu Hu' El) as [Hl2 _].
  exists bs, bl. split_and!; [done..|]. apply map_eq. intros k.
  rewrite (ClusterInv.MergeRemoteState_lookup _ full_roundtrip (peer_states t u)); [|done|].
  - unfold ClusterInv.merged. destruct (decide (k = "sil"%string)) as [->|Hk1].
    + rewrite !Hsil. cbn. rewrite Es. cbn. by destruct (Silence.Merge s bs now).
    + destruct (decide (k = "nfl"%string)) as [->|Hk2].
      * rewrite !Hnfl. cbn. rewrite El. cbn. by destruct (Nflog.Merge l bl now).
      * unfold peer_states. by rewrite !lookup_insert_ne, !lookup_singleton_ne by done.
  - intros key x y b Hx Hy Hb. unfold peer_states in Hx, Hy.
    apply lookup_insert_Some in Hx as [[<- <-]|[Hne Hx]].
    + rewrite lookup_insert_eq in Hy. simplify_eq. cbn in Hb |- *. rewrite Es in Hb. cbn in Hb. simplify_eq.
      destruct (Silence.Merge s b now). cbn in *. by subst.
    + rewrite lookup_insert_ne in Hy by done.
      apply lookup_singleton_Some in Hx as [<- <-]. rewrite lookup_singleton_eq in Hy. simplify_eq.
      cbn in Hb |- *. rewrite El in Hb. cbn in Hb. simplify_eq. destruct (Nflog.Merge l b now). cbn in *. by subst.
Qed.

(** C28: one push-pull exchange makes two peers agree: whatever each of them has
    gone through before, once each has merged the other's full state, they have
    the same version of every silence and of every entry of the notification
    log whose known versions are still within their retention on both clocks
    and, if they are different, have different update times; and that is the
    latest version either of them knew.  No silence or entry may be larger than
    the 4 MiB that protodelim reads: one that is makes the receiver refuse the
    whole state. *)
Theorem push_pull_converges ret lim rl ret' lim' rl' sa la sb lb nowa nowb bufa bufb :
  rtc SilenceInv.step (Silence.New_Silences ret lim) sa → rtc NflogInv.step (Nflog.New_Log rl) la →
  rtc SilenceInv.step (Silence.New_Silences ret' lim') sb → rtc NflogInv.step (Nflog.New_Log rl') lb →
  SilenceSnapshot.all_readable sa → NflogInv.all_readable la →
  SilenceSnapshot.all_readable sb → NflogInv.all_readable lb →
  LocalState (gossip_ops nowa) (peer_states sa la) = Some bufa →
  LocalState (gossip_ops nowb) (peer_states sb lb) = Some bufb →
  ∃ sa' la' sb' lb',
    MergeRemoteState (gossip_ops nowa) bufb (peer_states sa la) = peer_states sa' la' ∧
    MergeRemoteState (gossip_ops nowb) bufa (peer_states sb lb) = peer_states sb' lb' ∧
    (∀ id, settled SilenceOps.live nowa nowb (Silence.st sa) (Silence.st sb) id →
       Silence.st sa' !! id = Silence.st sb' !! id ∧ latest (Silence.st sa) (Silence.st sb) (Silence.st sa') id) ∧
    (∀ k, settled NflogInv.live nowa nowb (Nflog.st la) (Nflog.st lb) k →
       Nflog.st la' !! k = Nflog.st lb' !! k ∧ latest (Nflog.st la) (Nflog.st lb) (Nflog.st la') k).
Proof using SL NL full_roundtrip.
  intros Hsa Hla Hsb Hlb Hsa' Hla' Hsb' Hlb' Ha Hb.
  destruct (pull _ _ _ _ _ _ _ _ _ _ _ nowa _ Hsa Hla Hsb Hlb Hsb' Hlb' Hb) as (bsb & blb & Esb & Elb & ->).
  destruct (pull _ _ _ _ _ _ _ _ _ _ _ nowb _ Hsb Hlb Hsa Hla Hsa' Hla' Ha) as (bsa & bla & Esa & Ela & ->).
  destruct (silences_pull _ _ _ _ _ _ _ nowa Hsa Hsb Hsb' Esb) as [_ Ca].
  destruct (silences_pull _ _ _ _ _ _ _ nowb Hsb Hsa Hsa' Esa) as [_ Cb].
  destruct (log_pull _ _ _ _ _ nowa Hla Hlb Hlb' Elb) as [_ Da].
  destruct (log_pull _ _ _ _ _ nowb Hlb Hla Hla' Ela) as [_ Db].
  eexists _, _, _, _. split_and!; [done..| |].
  - intros id Hset. rewrite !SilenceOps.Merge_st.
    pose proof (settled_live _ _ _ _ _ _ Hset) as Hlive. refine (exchange_agrees SilenceOps.live nowa nowb _ _ _ _ _ Hset _ _).
    + apply Ca. intros e He. apply Hlive. by right.
    + apply Cb. intros e He. apply Hlive. by left.
  - intros k Hset. rewrite !NflogInv.log_Merge_st.
    pose proof (settled_live _ _ _ _ _ _ Hset) as Hlive. refine (exchange_agrees NflogInv.live nowa nowb _ _ _ _ _ Hset _ _).
    + apply Da. intros e He. apply Hlive. by right.
    + apply Db. intros e He. apply Hlive. by left.
Qed.
End gossip.
End Gossip.
