(* ===== verification/Maintenance.v ===== *)
(** * Periodic maintenance and snapshot files (silence/silence.go, nflog/nflog.go)

    Silences and the notification log share their maintenance loop, the file
    that replaces a snapshot when it is closed, and the loading of a snapshot on
    start-up, word for word.  What the loop needs of a store is the interface
    [Persistent], of which both are instances.  The file system is a map from
    names to contents; the actions on it are listed in their order, so that the
    program can be stopped between any two. *)

From Stdlib Require Import String.
From stdpp Require Import base gmap strings list relations.
From S2P Require Import Prelude Labels Lww Silence SilenceInv SilenceOps Alert Nflog Cluster Gossip.

(** What [Maintenance] and [New] use of a store: an empty one, [GC] with
    whether it succeeded, [Snapshot] as the bytes it writes, and
    [loadSnapshot]. *)
Class Persistent (St : Type) := {
  p_empty : St;
  p_GC : St → time → St * bool;
  p_Snapshot : St → option (list Z);
  p_load : St → list Z → St * bool;
}.

Module Maintenance.

(** ** Files *)

(** [durable]: the content is on the disk. *)
Record file := mkFile { content : list Z; durable : bool }.
Abbreviation fs := (gmap string file).

Inductive action :=
| OsCreate (f : string)
| OsWrite (f : string) (b : list Z)
| OsSync (f : string)
| OsClose (f : string)
| OsRename (f g : string).

(** What a successful action does. *)
Definition perform (m : fs) (a : action) : fs :=
  match a with
  | OsCreate f => <[f := mkFile [] false]> m
  | OsWrite f b =>
      match m !! f with
      | Some x => <[f := mkFile (content x ++ b) false]> m
      | None => m
      end
  | OsSync f =>
      match m !! f with
      | Some x => <[f := mkFile (content x) true]> m
      | None => m
      end
  | OsClose _ => m
  | OsRename f g =>
      match m !! f with
      | Some x => <[g := x]> (delete f m)
      | None => m
      end
  end.

(** Whether the calls succeed; a write can fail after some bytes.  [io_rand] is
    the random number in the temporary name. *)
Record io := mkIO {
  io_rand : string;
  io_create : bool;
  io_write : option nat;
  io_sync : bool;
  io_close : bool;
  io_rename : bool;
}.

(** ** replaceFile *)

(** [openReplace]: the name of the temporary file. *)
Definition tmpFilename (o : io) (filename : string) : string := filename +:+ "." +:+ io_rand o.

(** [replaceFile.Close]: the actions done, and whether it returned nil. *)
Definition replaceFile_Close (o : io) (tmp filename : string) : list action * bool :=
  if negb (io_sync o) then ([], false) else
  if negb (io_close o) then ([OsSync tmp], false) else
  if negb (io_rename o) then ([OsSync tmp; OsClose tmp], false) else
  ([OsSync tmp; OsClose tmp; OsRename tmp filename], true).

(** ** Maintenance *)
Inductive maintenance_error := GCFailed | OpenFailed | MarshalFailed | WriteFailed | CloseFailed.

Section maintenance.
Context `{PE : Persistent St}.

(** [doMaintenance]: the store afterwards, the actions on the file system, and
    the error.  [GC] and [Snapshot] take the lock one after the other; [between]
    is what others do to the store meanwhile. *)
Definition doMaintenance (snapf : string) (o : io) (now : time) (between : St → St) (s : St)
    : St * list action * option maintenance_error :=
  let '(s, ok) := p_GC s now in
  if negb ok then (s, [], Some GCFailed) else
  if bool_decide (snapf = ""%string) then (s, [], None) else
  if negb (io_create o) then (s, [], Some OpenFailed) else
  let tmp := tmpFilename o snapf in
  let '(close, closed) := replaceFile_Close o tmp snapf in
  let s := between s in
  match p_Snapshot s with
  | None => (s, OsCreate tmp :: close, Some MarshalFailed)
  | Some b =>
      match io_write o with
      | Some n => (s, OsCreate tmp :: OsWrite tmp (take n b) :: close, Some WriteFailed)
      | None => (s, OsCreate tmp :: OsWrite tmp b :: close, if closed then None else Some CloseFailed)
      end
  end.

(** [Maintenance]: one run per tick until the stop signal, and a last one for
    the snapshot.  Each run has the answers of the system, the clock and what
    others do to the store during it; between the runs they use it as well.  The
    errors are logged. *)
Definition run_one (snapf : string) (r : io * time * (St → St)) (x : St * fs * list maintenance_error)
    : St * fs * list maintenance_error :=
  let '(s, m, errs) := x in
  let '(s, acts, err) := doMaintenance snapf r.1.1 r.1.2 r.2 s in
  (s, foldl perform m acts, errs ++ from_option (λ e, [e]) [] err).

Definition maintenance_loop (interval : duration) (snapf : string) (ticks : list (io * time * (St → St) * (St → St)))
    (final : io * time * (St → St)) (x : St * fs * list maintenance_error) : St * fs * list maintenance_error :=
  if bool_decide (interval = 0) then x else
  let x := foldl (λ x t, let '(s, m, errs) := run_one snapf t.1 x in (t.2 s, m, errs)) x ticks in
  if bool_decide (snapf = ""%string) then x else run_one snapf final x.

(** [New] with a snapshot file: one that does not exist is not an error. *)
Definition New (snapf : string) (m : fs) : St * bool :=
  if bool_decide (snapf = ""%string) then (p_empty, true) else
  match m !! snapf with
  | None => (p_empty, true)
  | Some x => p_load p_empty (content x)
  end.
End maintenance.
End Maintenance.

(** * Snapshots survive crashes

    The system of a store, its maintenance and the disk, in which the program
    can be killed between any two actions: a restart always finds a complete
    snapshot, that of the last maintenance that replaced the file.  It rests on
    two things the code cannot check: that a rename is atomic, and that a file
    keeps its content once it was synced.  A snapshot that could not be written
    is another matter, see [snapshot_file_exact]. *)
(** What a store promises: its operations, among them [GC] and
    [loadSnapshot], and what loading restores of a state that protodelim can
    read back. *)
Class PersistentLaws (St V : Type) `{PE : Persistent St} := {
  p_op : relation St;
  p_view : St → V;
  p_readable : St → Prop;
  p_GC_op : ∀ s now, p_op s (p_GC s now).1;
  p_load_op : ∀ s b, p_op s (p_load s b).1;
  p_load_Snapshot : ∀ s b, rtc p_op p_empty s → p_readable s → p_Snapshot s = Some b →
    ∃ s', p_load p_empty b = (s', true) ∧ p_view s' = p_view s;
}.

Module MaintenanceInv.
Import Maintenance.

Section system.
Context {St V : Type} `{PL : PersistentLaws St V} (snapf : string).
Implicit Types (s : St) (m : fs).

(** ** The system *)

(** What may be on the disk after a crash: the content of a file that was not
    synced is anything, or gone. *)
Definition crashed m m' : Prop :=
  ∀ f, match m !! f with
       | Some x => durable x = true → m' !! f = Some x
       | None => m' !! f = None
       end.

(** [store] is [None] while the program is not running; [todo] are the actions
    that a maintenance in progress still has to do, [pending] what it writes,
    and [saved] what the last completed rename put in place. *)
Record system := mkSystem {
  store : option St;
  disk : fs;
  todo : list action;
  pending : option V;
  saved : option V;
}.

Definition is_rename (a : action) : bool := match a with OsRename _ _ => true | _ => false end.

Inductive sstep : relation system :=
| s_op s s' m acts p v :
    p_op s s' → sstep (mkSystem (Some s) m acts p v) (mkSystem (Some s') m acts p v)
| s_maintain o now between s s' acts err m p v :
    (∀ s, rtc p_op s (between s)) → io_write o = None →
    doMaintenance snapf o now between s = (s', acts, err) → err ≠ Some MarshalFailed → p_readable s' →
    sstep (mkSystem (Some s) m [] p v) (mkSystem (Some s') m acts (Some (p_view s')) v)
| s_act s m a acts p v :
    sstep (mkSystem (Some s) m (a :: acts) p v)
          (mkSystem (Some s) (perform m a) acts p (if is_rename a then p else v))
| s_crash x m m' acts p v :
    crashed m m' → sstep (mkSystem x m acts p v) (mkSystem None m' [] None v)
| s_start s m acts p v :
    New snapf m = (s, true) → sstep (mkSystem None m acts p v) (mkSystem (Some s) m [] None v).

Definition initial : system := mkSystem (Some p_empty) ∅ [] None None.

(** ** The invariant *)

(** [b] is the snapshot of a state the store could reach, which shows [v]. *)
Definition snapshot_of (b : list Z) (v : V) : Prop :=
  ∃ s, rtc p_op p_empty s ∧ p_readable s ∧ p_Snapshot s = Some b ∧ p_view s = v.

(** The actions leave the file alone, but for a rename that puts [b] in place. *)
Fixpoint safe (b : list Z) (acts : list action) m : Prop :=
  match acts with
  | [] => True
  | a :: acts =>
      (if is_rename a then perform m a !! snapf = Some (mkFile b true)
       else perform m a !! snapf = m !! snapf) ∧ safe b acts (perform m a)
  end.

Record inv (x : system) : Prop := {
  inv_store : ∀ s, store x = Some s → rtc p_op p_empty s;
  inv_disk : match saved x with
             | None => disk x !! snapf = None
             | Some v => ∃ b, disk x !! snapf = Some (mkFile b true) ∧ snapshot_of b v
             end;
  inv_todo : todo x = [] ∨
    ∃ b v, pending x = Some v ∧ snapshot_of b v ∧ safe b (todo x) (disk x);
}.

Lemma string_app_length (s t : string) : String.length (s +:+ t) = (String.length s + String.length t)%nat.
Proof. induction s as [|c s IH]; cbn; [done|]. by rewrite <-IH. Qed.

Lemma tmpFilename_ne o : tmpFilename o snapf ≠ snapf.
Proof.
  intros E. apply (f_equal String.length) in E. unfold tmpFilename in E.
  rewrite !string_app_length in E. change (String.length ".") with 1%nat in E. lia.
Qed.

(** The actions of a maintenance, from any state of the disk. *)
Lemma maintenance_safe o b m :
  safe b (OsCreate (tmpFilename o snapf) :: OsWrite (tmpFilename o snapf) b ::
          (replaceFile_Close o (tmpFilename o snapf) snapf).1) m.
Proof.
  pose proof (tmpFilename_ne o) as Hne. set (tmp := tmpFilename o snapf) in *.
  assert (H : ∀ m x, <[tmp := x]> m !! snapf = m !! snapf) by (intros; by rewrite lookup_insert_ne).
  cbn [safe is_rename perform]. rewrite !lookup_insert_eq. cbn [content].
  split; [apply H|]. split; [by rewrite !H|]. unfold replaceFile_Close.
  destruct (io_sync o); [|done]. destruct (io_close o); cbn [negb fst safe is_rename perform].
  - destruct (io_rename o); cbn [negb fst safe is_rename perform];
      rewrite !lookup_insert_eq; cbn [content app]; rewrite ?lookup_insert_eq, ?H; split_and!; done.
  - rewrite lookup_insert_eq. by rewrite H.
Qed.

(** What [doMaintenance] did, when it did not fail to write. *)
Lemma doMaintenance_acts o now between s s' acts err :
  io_write o = None → doMaintenance snapf o now between s = (s', acts, err) → err ≠ Some MarshalFailed →
  (s' = (p_GC s now).1 ∨ s' = between (p_GC s now).1) ∧
  (acts = [] ∨ ∃ b, p_Snapshot s' = Some b ∧
     acts = OsCreate (tmpFilename o snapf) :: OsWrite (tmpFilename o snapf) b ::
            (replaceFile_Close o (tmpFilename o snapf) snapf).1).
Proof.
  unfold doMaintenance. intros Hw H Hm. destruct (p_GC s now) as [s1 ok].
  destruct ok; cbn [negb] in H; [|simplify_eq; eauto].
  case_bool_decide; [simplify_eq; eauto|]. destruct (io_create o); cbn [negb] in H; [|simplify_eq; eauto].
  destruct (replaceFile_Close _ _ _) as [close closed]. rewrite Hw in H.
  destruct (p_Snapshot (between s1)) as [b|] eqn:Hb; simplify_eq. cbn. split; [by right|]. right. by exists b.
Qed.

Lemma snap_step_inv x y : sstep x y → inv x → inv y.
Proof.
  destruct 1 as [s s' m acts p v Hop|o now between s s' acts err m p v Hbt Hw Hdo Hm Hrd|s m a acts p v|x m m' acts p v Hc|s m acts p v Hn];
    intros [Hst Hd Ht]; cbn in *.
  - split; cbn; [|done|done]. intros s0 [= <-]. eapply rtc_r; [by apply Hst|done].
  - destruct (doMaintenance_acts _ _ _ _ _ _ _ Hw Hdo Hm) as [Hs' Hacts].
    assert (Hr : rtc p_op p_empty s').
    { assert (Hg : rtc p_op p_empty (p_GC s now).1) by (eapply rtc_r; [by apply Hst|apply p_GC_op]).
      destruct Hs' as [->| ->]; [done|]. by etrans. }
    split; cbn; [by intros s0 [= <-]|done|]. destruct Hacts as [->|(b & Hb & ->)]; [by left|right].
    exists b, (p_view s'). split_and!; [done|by exists s'|apply maintenance_safe].
  - destruct Ht as [|(b & w & -> & Hs & Ha & Hrest)]; [done|].
    split; cbn; [done| |right; by exists b, w].
    destruct (is_rename a); [by exists b|]. by rewrite Ha.
  - split; cbn; [done| |by left]. specialize (Hc snapf). destruct v as [v|].
    + destruct Hd as (b & Hb & Hs). rewrite Hb in Hc. exists b. split; [by apply Hc|done].
    + by rewrite Hd in Hc.
  - split; cbn; [|done|by left]. intros s0 [= <-]. unfold New in Hn.
    case_bool_decide; [by simplify_eq|]. destruct (m !! snapf) as [f|]; [|by simplify_eq].
    pose proof (p_load_op p_empty (content f)) as Hl. rewrite Hn in Hl. by apply rtc_once.
Qed.

Lemma snap_reachable_inv x : rtc sstep initial x → inv x.
Proof.
  intros Hr. assert (H0 : inv initial).
  { split; cbn; [by intros s [= <-]|apply lookup_empty|by left]. }
  revert H0. induction Hr; eauto using snap_step_inv.
Qed.

(** A restart restores what the last maintenance saved whose rename was done. *)
Lemma crash_safe x m :
  snapf ≠ ""%string → rtc sstep initial x → crashed (disk x) m →
  ∃ s, New snapf m = (s, true) ∧ p_view s = default (p_view p_empty) (saved x).
Proof.
  intros Hne [_ Hd _]%snap_reachable_inv Hc. specialize (Hc snapf). unfold New.
  rewrite bool_decide_eq_false_2 by done. destruct (saved x) as [v|]; cbn.
  - destruct Hd as (b & Hb & s & Hr & Hrd & Hs & <-). rewrite Hb in Hc. rewrite Hc by done. cbn.
    by apply p_load_Snapshot.
  - rewrite Hd in Hc. rewrite Hc. by eexists.
Qed.

(** ** What one run leaves in the file *)

(** What a run writes: nothing when the store cannot be serialised, the first
    bytes when the write fails. *)
Definition written (o : io) (s : St) : list Z :=
  match p_Snapshot s with
  | None => []
  | Some b => match io_write o with Some n => take n b | None => b end
  end.

(** C39: what one maintenance run does to the snapshot file, on every branch.
    Unless the collection, the creation of the temporary file, its sync, its
    close or its rename fails, the file is replaced by what was written, and
    otherwise it is untouched.  That holds on the error path as well: when the
    store cannot be serialised the good snapshot is replaced by an empty file,
    and when the write fails by a cut one.  The run returns no error exactly when
    the file was replaced by the whole snapshot, or there is no file to write and
    the collection succeeded. *)
Theorem snapshot_file_exact o now between s m :
  let '(s', acts, err) := doMaintenance snapf o now between s in
  let file := foldl perform m acts !! snapf in
  let replaced := snapf ≠ ""%string ∧ (p_GC s now).2 = true ∧ io_create o = true ∧
                  io_sync o = true ∧ io_close o = true ∧ io_rename o = true in
  (replaced → file = Some (mkFile (written o s') true)) ∧
  (¬ replaced → file = m !! snapf) ∧
  (err = None ↔ (p_GC s now).2 = true ∧
     (snapf = ""%string ∨ replaced ∧ is_Some (p_Snapshot s') ∧ io_write o = None)).
Proof.
  pose proof (tmpFilename_ne o) as Hne. unfold doMaintenance, written. destruct (p_GC s now) as [s1 ok].
  cbn [snd]. destruct ok; cbn [negb]; [|naive_solver]. case_bool_decide as Hf; [naive_solver|].
  destruct (io_create o); cbn [negb]; [|naive_solver].
  set (tmp := tmpFilename o snapf) in *.
  assert (H : ∀ m x, <[tmp := x]> m !! snapf = m !! snapf) by (intros; by rewrite lookup_insert_ne).
  unfold replaceFile_Close.
  destruct (p_Snapshot (between s1)) as [b|] eqn:Hb; [destruct (io_write o) as [n|]|]; rewrite ?Hb;
    destruct (io_sync o); cbn [negb]; try (destruct (io_close o); cbn [negb]; try (destruct (io_rename o); cbn [negb]));
    cbn; rewrite ?Hb, ?lookup_insert_eq; cbn; rewrite ?lookup_insert_eq; cbn; rewrite ?lookup_insert_eq, ?H;
    (split_and!; [by intros (_ & _ & _ & ? & ? & ?)|intros Hn; by first [done|destruct Hn]|naive_solver]).
Qed.
End system.
End MaintenanceInv.

(** * The snapshot files of the silences and of the notification log

    Both stores keep the promises of [Persistent], so both survive crashes. *)
Module SnapshotFiles.
Import Maintenance MaintenanceInv.

Section files.
Context `{RE : Regexp, LV : LabelValidation, SC : !Silence.SilenceCodec, NC : !Nflog.NflogCodec, MR : MapRange}.

(** ** The two stores *)
Definition silences_persistent (ret : duration) (lim : Silence.Limits) : Persistent Silence.Silences := {|
  p_empty := Silence.New_Silences ret lim;
  p_GC s now := let '(s, _, errs) := Silence.GC s now in (s, bool_decide (length errs = O));
  p_Snapshot s := Gossip.to_option (Silence.Snapshot s);
  p_load s b := let '(s, err) := Silence.loadSnapshot s b in (s, Gossip.no_error err);
|}.

Definition nflog_persistent (ret : duration) : Persistent Nflog.Log := {|
  p_empty := Nflog.New_Log ret;
  p_GC l now := let '(l, _, err) := Nflog.GC l now in (l, Gossip.no_error err);
  p_Snapshot l := Gossip.to_option (Nflog.Snapshot l);
  p_load l b := let '(l, err) := Nflog.loadSnapshot l b in (l, Gossip.no_error err);
|}.

Context `{SL : !SilenceOps.SilenceCodecLaws, NL : !NflogInv.NflogCodecLaws}.

#[global] Program Instance silences_laws ret lim :
    PersistentLaws Silence.Silences (gmap string Silence.MeshSilence) (PE := silences_persistent ret lim) := {|
  p_op := SilenceInv.step;
  p_view := Silence.st;
  p_readable := SilenceSnapshot.all_readable;
|}.
Next Obligation.
  intros ret lim s now. pose proof (SilenceInv.step_GC s now) as H. cbn.
  by destruct (Silence.GC s now) as [[s' n] errs].
Qed.
Next Obligation.
  intros ret lim s b. pose proof (SilenceInv.step_load s b) as H. cbn. by destruct (Silence.loadSnapshot s b).
Qed.
Next Obligation.
  intros ret lim s b Hr Hsz Hb. cbn in *. destruct (Silence.Snapshot s) as [b'|] eqn:E; cbn in Hb; simplify_eq.
  destruct (SilenceSnapshot.silences_snapshot_roundtrip _ _ _ (Silence.New_Silences ret lim) _ Hr Hsz E) as (s' & -> & Hst & _).
  by exists s'.
Qed.

#[global] Program Instance nflog_laws ret :
    PersistentLaws Nflog.Log Nflog.state (PE := nflog_persistent ret) := {|
  p_op := NflogInv.step;
  p_view := Nflog.st;
  p_readable := NflogInv.all_readable;
|}.
Next Obligation.
  intros ret l now. pose proof (NflogInv.step_GC l now) as H. cbn.
  by destruct (Nflog.GC l now) as [[l' n] err].
Qed.
Next Obligation.
  intros ret l b. pose proof (NflogInv.step_load l b) as H. cbn. by destruct (Nflog.loadSnapshot l b).
Qed.
Next Obligation.
  intros ret l b Hr Hsz Hb. cbn in *. destruct (Nflog.Snapshot l) as [b'|] eqn:E; cbn in Hb; simplify_eq.
  unfold Nflog.loadSnapshot. rewrite (NflogInv.decode_log_snapshot l b); [|by eapply NflogInv.reachable_keyed|done|done].
  by eexists.
Qed.

(** ** Crashes *)

(** The indices of a store that has just been opened. *)
Lemma New_indexed ret lim snapf m s :
  New (PE := silences_persistent ret lim) snapf m = (s, true) →
  SilenceInv.indexed ((λ x, Silence.MatcherSets (Silence.Silence x)) <$> Silence.st s) (SilenceInv.uncompiled s) s.
Proof.
  assert (H0 : ∀ s, s = Silence.New_Silences ret lim →
    SilenceInv.indexed ((λ x, Silence.MatcherSets (Silence.Silence x)) <$> Silence.st s) (SilenceInv.uncompiled s) s).
  { intros s0 ->. split; intros id; cbn; unfold SilenceInv.uncompiled; cbn;
      rewrite ?map_filter_empty, ?dom_empty_L, ?fmap_empty, ?lookup_empty; try done.
    split; [by intros ?%elem_of_nil|by intros [[] _]]. }
  unfold New. case_bool_decide; [intros [= <-]; by apply H0|]. destruct (m !! snapf) as [f|].
  - cbn. destruct (Silence.loadSnapshot _ _) as [s' [e|]] eqn:E; [done|]. intros [= <-].
    by eapply SilenceInv.indexed_load.
  - intros [= <-]. by apply H0.
Qed.

End files.
End SnapshotFiles.
