(* ===== verification/ClusterExamples.v ===== *)
(** * A small cluster: the theorems of ClusterInv at concrete states *)

From Stdlib Require Import Ascii String.
From stdpp Require Import base gmap strings list sorting relations countable.
From S2P Require Import Prelude Utf8 Labels Lww Silence Instances SilenceInv SilenceOps Alert Nflog.
From S2P Require Import PipelineExamples SilenceExamples Cluster Gossip Maintenance.

Module ClusterExamples.
Import Cluster ClusterInv.

(** Addresses are the texts with a colon, and are printed as they are. *)
#[local] Instance colon_address : NetAddress := {|
  SplitHostPort a := if existsb (Z.eqb 58) (bytes a) then Some (a, ""%string) else None;
  ParseIP host := Some host;
  ParsePort _ := Some 0;
  JoinHostPort ip _ := ip;
|}.

Lemma colon_canonical a : canonical a.
Proof. intros host port ip n H1 H2 _. cbn in *. destruct (existsb _ _); by simplify_eq. Qed.

Definition ex_node : Node := mkNode "b" "10.0.0.2:9094".
Lemma ex_node_proper : proper ex_node.
Proof. split; [by eexists|reflexivity]. Qed.

(** The peer of the configuration joins, fails at 20 and is removed at 100. *)
Definition ex_initial : Peers := setInitialFailed (mkPeers ∅ []) ["10.0.0.2:9094"%string] "10.0.0.1:9094" 10.
Definition ex_left : Peers := peerLeave (peerJoin ex_initial ex_node) ex_node 20.
Definition ex_removed : Peers := removeFailedPeers ex_left 50 100.

Lemma ex_left_reachable B : rtc (pstep_at 50 B) ex_initial ex_left.
Proof.
  eapply rtc_l; [apply at_join, ex_node_proper|]. apply rtc_once, at_leave, ex_node_proper.
Qed.

Lemma reconnect_exact_witness :
  "10.0.0.2:9094"%string ∈ reconnect ex_left ↔ StatusFailed = StatusFailed.
Proof.
  apply (reconnect_exact 50 30 ["10.0.0.2:9094"%string] "10.0.0.1:9094" 10 ex_left "10.0.0.2:9094"
    (mkPeer StatusFailed 20 ex_node)); [reflexivity| |apply ex_left_reachable|reflexivity|right; cbn; lia].
  apply Forall_singleton, colon_canonical.
Defined.

(** After the timeout nothing is left to reconnect to, but the entry is still
    there. *)
Lemma timed_out_peer_kept_witness :
  failedPeers ex_removed = [] ∧ dom (peers ex_left) ⊆ dom (peers ex_removed) ∧
  peers ex_removed !! "10.0.0.2:9094"%string = Some (mkPeer StatusFailed 20 ex_node).
Proof.
  split_and!; [reflexivity| |reflexivity].
  apply (timed_out_peer_kept 50 100 ["10.0.0.2:9094"%string] "10.0.0.1:9094" 10 ex_left ex_removed);
    [reflexivity| |apply ex_left_reachable|apply rtc_once, at_remove; lia].
  apply Forall_singleton, colon_canonical.
Defined.

(** Three members. *)
Definition ex_members : list Node := [mkNode "c" "3:1"; mkNode "a" "1:1"; mkNode "b" "2:1"].


(** A member joins after two polls. *)
Definition ex_polls (n : nat) : poll := PollMembers (if (n <? 2)%nat then 1 else 2).

Lemma settle_terminates_witness :
  is_Some (Settle (ex_polls <$> seq 0 7)) ∧ Ready (ex_polls <$> seq 0 7) = true.
Proof.
  apply (settle_terminates ex_polls 2 7); [|lia]. right. exists 2. intros j Hj. unfold ex_polls.
  destruct (Nat.ltb_spec (2 + j) 2); [lia|done].
Defined.

(** States are sets of numbers, a message is the number of its parts. *)
#[local] Instance number_codec : ClusterCodec := {|
  marshal_full parts := Some [Zpos (encode (map (λ p, (p_Key p, p_Data p)) parts))];
  unmarshal_full b :=
    match b with
    | [Zpos x] => l ← decode x; Some (map (λ kd : string * list Z, mkPart kd.1 kd.2) l)
    | _ => None
    end;
  marshal_part p := Some (p_Data p);
  unmarshal_part b := Some (mkPart "sil" b);
|}.
#[local] Existing Instance sorted_range.

Lemma number_roundtrip parts b : marshal_full parts = Some b → unmarshal_full b = Some parts.
Proof.
  cbn. intros [= <-]. rewrite decode_encode. cbn. f_equal. rewrite map_map. rewrite <-(map_id parts) at 2.
  apply map_ext. by intros [].
Qed.

Definition set_ops (key : string) : StateOps (gset Z) :=
  mkStateOps (gset Z) (λ s, Some (elements s)) (λ s b, (s ∪ list_to_set b, true)).
Definition ex_a : gmap string (gset Z) := {["sil"%string := {[1]}; "nfl"%string := {[7]}]}.
Definition ex_b : gmap string (gset Z) := {["sil"%string := {[2]}]}.

Lemma push_pull_agrees_witness :
  ∃ bufa bufb, LocalState set_ops ex_a = Some bufa ∧ LocalState set_ops ex_b = Some bufb ∧
    MergeRemoteState set_ops bufb ex_a !! "sil"%string = MergeRemoteState set_ops bufa ex_b !! "sil"%string.
Proof.
  eexists _, _. split; [vm_compute; reflexivity|]. split; [vm_compute; reflexivity|].
  destruct (push_pull_agrees set_ops number_roundtrip (∪) ex_a ex_b _ _
    ltac:(intros key s t b Hb; cbn in Hb; injection Hb as <-; cbn; by rewrite list_to_set_elements_L)
    ltac:(intros s t; apply (comm_L (∪))) eq_refl eq_refl "sil"%string) as [H1 H2].
  vm_compute in H1, H2 |- *. reflexivity.
Defined.
End ClusterExamples.

(** * A push-pull exchange between two concrete peers *)
Module GossipExamples.
Import Cluster Gossip.
#[local] Existing Instance ClusterExamples.number_codec.
#[local] Existing Instance sorted_range.
#[local] Instance log_codec : Nflog.NflogCodec := PipelineExamples.nflog_table_codec PipelineExamples.ex_entries.

(** One peer has replaced silence [a] by [b] at 50 and has a log entry; the
    other still knows the first version of [a] and has an empty log. *)
Definition mine := SilenceExamples.ex_replaced.1.1.
Definition theirs := Instances.ex_store.

Lemma mine_reachable : rtc SilenceInv.step (Silence.New_Silences 10 (Silence.mkLimits (Some 2) None)) mine.
Proof. eapply rtc_r; [apply SilenceExamples.ex_reachable|apply SilenceInv.step_Set]. Qed.

Lemma mine_st : Silence.st mine = {["a"%string := ex_a50; "b"%string := ex_b]}.
Proof. apply SilenceExamples.ex_replaced_st. Qed.
Lemma theirs_st : Silence.st theirs = {["a"%string := ex_a]}.
Proof. apply Instances.ex_store_st. Qed.

Lemma ex_settled : settled SilenceOps.live 50 50 (Silence.st mine) (Silence.st theirs) "a".
Proof.
  rewrite mine_st, theirs_st. split.
  - intros e [He|He]; vm_compute in He; simplify_eq; done.
  - intros e1 e2 [He|He] [He'|He']; vm_compute in He, He'; simplify_eq; vm_compute; congruence.
Qed.

Definition bufa := default [] (LocalState (gossip_ops 50) (peer_states mine PipelineExamples.ex_log)).
Definition bufb := default [] (LocalState (gossip_ops 50) (peer_states theirs (Nflog.New_Log 100))).

Lemma push_pull_converges_witness :
  ∃ sa' la' sb' lb',
    MergeRemoteState (gossip_ops 50) bufb (peer_states mine PipelineExamples.ex_log) = peer_states sa' la' ∧
    MergeRemoteState (gossip_ops 50) bufa (peer_states theirs (Nflog.New_Log 100)) = peer_states sb' lb' ∧
    Silence.st sa' !! "a"%string = Silence.st sb' !! "a"%string.
Proof.
  destruct (push_pull_converges (SL := SilenceExamples.table_codec_laws ex_table)
    (NL := PipelineExamples.nflog_table_codec_laws PipelineExamples.ex_entries) ClusterExamples.number_roundtrip
    10 (Silence.mkLimits (Some 2) None) 100 10 (Silence.mkLimits (Some 2) None) 100
    mine PipelineExamples.ex_log theirs (Nflog.New_Log 100) 50 50 bufa bufb)
    as (sa' & la' & sb' & lb' & H1 & H2 & H3 & _).
  - apply mine_reachable.
  - apply PipelineExamples.ex_log_reachable.
  - apply SilenceExamples.ex_reachable.
  - apply rtc_refl.
  - apply SilenceExamples.table_readable.
  - apply PipelineExamples.nflog_table_readable.
  - apply SilenceExamples.table_readable.
  - apply PipelineExamples.nflog_table_readable.
  - vm_compute. reflexivity.
  - vm_compute. reflexivity.
  - exists sa', la', sb', lb'. split; [exact H1|]. split; [exact H2|]. apply H3, ex_settled.
Defined.
End GossipExamples.

(** * A crash during maintenance, and a snapshot that cannot be written *)
Module SnapshotExamples.
Import Maintenance MaintenanceInv SnapshotFiles.
#[local] Existing Instance sorted_range.
#[local] Instance ex_silence_laws : SilenceOps.SilenceCodecLaws := SilenceExamples.table_codec_laws ex_table.
#[local] Instance ex_log_codec : Nflog.NflogCodec := PipelineExamples.nflog_table_codec PipelineExamples.ex_entries.
#[local] Instance ex_log_laws : NflogInv.NflogCodecLaws :=
  PipelineExamples.nflog_table_codec_laws PipelineExamples.ex_entries.

Definition ex_limits : Silence.Limits := Silence.mkLimits (Some 2) None.
#[local] Instance ex_persistent : Persistent Silence.Silences := silences_persistent 10 ex_limits.

(** Everything succeeds; the second time the program is killed after the write. *)
Definition io1 : io := mkIO "1f" true None true true true.
Definition io2 : io := mkIO "2e" true None true true true.

(** The first run is undisturbed; during the second one the silence is expired. *)
Definition expire_a (s : Silence.Silences) : Silence.Silences := (Silence.Expire s "a" 50).1.
Definition run1 := doMaintenance "silences" io1 20 id ex_store.
Definition run2 := doMaintenance "silences" io2 50 expire_a run1.1.1.
Definition disk1 : fs := foldl perform ∅ run1.1.2.
Definition disk2 : fs := foldl perform disk1 (take 2 run2.1.2).

Example run1_acts : run1.1.2 = [OsCreate "silences.1f"; OsWrite "silences.1f" [0]; OsSync "silences.1f";
  OsClose "silences.1f"; OsRename "silences.1f" "silences"].
Proof. vm_compute. reflexivity. Qed.
Example run2_acts : run2.1.2 = [OsCreate "silences.2e"; OsWrite "silences.2e" [2]; OsSync "silences.2e";
  OsClose "silences.2e"; OsRename "silences.2e" "silences"].
Proof. vm_compute. reflexivity. Qed.
Example disk2_files : disk2 = {["silences"%string := mkFile [0] true; "silences.2e"%string := mkFile [2] false]}.
Proof. vm_compute. reflexivity. Qed.

Abbreviation sys := (system (St := Silence.Silences) (V := gmap string Silence.MeshSilence)).
Definition halfway : sys :=
  mkSystem (Some run2.1.1) disk2 (drop 2 run2.1.2) (Some (Silence.st run2.1.1)) (Some (Silence.st run1.1.1)).

Lemma perform_all (s : Silence.Silences) (acts rest : list action) : ∀ (m : fs) p v,
  rtc (sstep (PL := silences_laws 10 ex_limits) "silences")
    (mkSystem (Some s) m (acts ++ rest) p v)
    (mkSystem (Some s) (foldl perform m acts) rest p (if existsb is_rename acts then p else v)).
Proof.
  induction acts as [|a acts IH]; intros m p v; cbn; [apply rtc_refl|].
  eapply rtc_l; [apply s_act|]. specialize (IH (perform m a) p (if is_rename a then p else v)).
  destruct (is_rename a), (existsb is_rename acts); exact IH.
Qed.

Lemma halfway_reachable :
  rtc (sstep (PL := silences_laws 10 ex_limits) "silences") (initial (PE := ex_persistent)) halfway.
Proof.
  eapply rtc_l; [apply (s_op _ _ ex_store), SilenceInv.step_Set|].
  eapply rtc_l; [apply (s_maintain _ io1 20 id _ run1.1.1 run1.1.2 run1.2);
    [done|done|vm_compute; reflexivity|vm_compute; discriminate|apply SilenceExamples.table_readable]|].
  etrans; [exact (perform_all run1.1.1 run1.1.2 [] ∅ _ _)|].
  eapply rtc_l; [apply (s_maintain _ io2 50 expire_a _ run2.1.1 run2.1.2 run2.2);
    [intros s; apply rtc_once, SilenceInv.step_Expire|done|vm_compute; reflexivity
    |vm_compute; discriminate|apply SilenceExamples.table_readable]|].
  replace run2.1.2 with (take 2 run2.1.2 ++ drop 2 run2.1.2) at 1 by apply take_drop.
  refine (perform_all run2.1.1 (take 2 run2.1.2) (drop 2 run2.1.2) disk1 _ _).
Qed.

(** The disk after the crash: the unsynced file is gone. *)
Definition after_crash : fs := {["silences"%string := mkFile [0] true]}.

Lemma halfway_crashed : crashed (disk halfway) after_crash.
Proof.
  change (disk halfway) with disk2. rewrite disk2_files. intros f. unfold after_crash.
  destruct (decide (f = "silences"%string)) as [->|Hf]; [by rewrite !lookup_insert_eq|].
  rewrite lookup_insert_ne by done. destruct (decide (f = "silences.2e"%string)) as [->|Hg].
  - by rewrite lookup_singleton_eq.
  - rewrite !lookup_singleton_ne by done. done.
Qed.


(** A full disk: the write fails at once. *)
Definition io_full : io := mkIO "3d" true (Some O) true true true.

Example good_snapshot_lost :
  let '(s', acts, err) := doMaintenance "silences" io_full 20 id ex_store in
  err = Some WriteFailed ∧ foldl perform after_crash acts !! "silences"%string = Some (mkFile [] true).
Proof. vm_compute. done. Qed.

(** The next start finds an empty file, reports no error and has no silences. *)
Example silences_lost :
  let '(s', acts, err) := doMaintenance "silences" io_full 20 id ex_store in
  let '(s, ok) := New "silences" (foldl perform after_crash acts) in
  ok = true ∧ Silence.st s = ∅ ∧ Silence.st s' = {["a"%string := ex_a]}.
Proof. vm_compute. done. Qed.
End SnapshotExamples.
