(* ===== verification/Template.v ===== *)
(** * Data for templates (template/template.go)

    The data a notification template is expanded with, the sorted views of
    label sets, and the resolution of route labels, whose values are templates
    that may refer to each other.  The template engine itself is text/template:
    a parsed template is what it does between its calls of [routeLabels]
    ([prog]). *)

From Stdlib Require Import Ascii String.
From stdpp Require Import base gmap strings list sorting.
From S2P Require Import Prelude Labels Silence Alert Nflog Notify Bucket Store Route Dispatch.
From S2P Require Import Api.

Module Template.

(** ** Sorted views *)
Record Pair := mkPair { Name : string; Value : string }.
Abbreviation KV := (gmap string string).

Definition Pairs_Names (ps : list Pair) : list string := Name <$> ps.
Definition Pairs_Values (ps : list Pair) : list string := Value <$> ps.
Fixpoint Pairs_String (ps : list Pair) : string :=
  match ps with
  | [] => ""
  | [p] => Name p +:+ "=" +:+ Value p
  | p :: ps => Name p +:+ "=" +:+ Value p +:+ ", " +:+ Pairs_String ps
  end.

Definition string_le (x y : string) : Prop := String.leb x y = true.
#[global] Instance string_le_dec x y : Decision (string_le x y).
Proof. unfold string_le. apply _. Defined.

Definition AlertNameLabel : string := "alertname".

(** The loop over the keys: the name of the alert is put in front. *)
Definition collect_key (x : list string * nat) (k : string) : list string * nat :=
  if bool_decide (k = AlertNameLabel) then (k :: x.1, 1%nat) else (x.1 ++ [k], x.2).

Section kv.
Context `{MR : MapRange}.

Definition SortedPairs (kv : KV) : list Pair :=
  let '(keys, sortStart) := foldl collect_key ([], O) (range kv).*1 in
  let keys := take sortStart keys ++ merge_sort string_le (drop sortStart keys) in
  (λ k, mkPair k (label_get kv k)) <$> keys.

Definition Remove (kv : KV) (keys : list string) : KV :=
  let keySet : gset string := list_to_set keys in
  foldl (λ res x, if bool_decide (x.1 ∈ keySet) then res else <[x.1 := x.2]> res) ∅ (range kv).

Definition KV_Names (kv : KV) : list string := Pairs_Names (SortedPairs kv).
Definition KV_Values (kv : KV) : list string := Pairs_Values (SortedPairs kv).
Definition KV_String (kv : KV) : string := Pairs_String (SortedPairs kv).
End kv.

(** ** Data *)
Record TAlert := mkTAlert {
  Status : string;
  Labels : KV;
  Annotations : KV;
  StartsAt : time;
  EndsAt : time;
  GeneratorURL : string;
  TFingerprint : string;
}.

Definition Firing (as_ : list TAlert) : list TAlert :=
  List.filter (λ a, bool_decide (Status a = "firing"%string)) as_.
Definition Resolved (as_ : list TAlert) : list TAlert :=
  List.filter (λ a, bool_decide (Status a = "resolved"%string)) as_.

Record Data := mkData {
  Receiver : string;
  DStatus : string;
  DAlerts : list TAlert;
  DNotificationReason : string;
  GroupLabels : KV;
  CommonLabels : KV;
  CommonAnnotations : KV;
  RouteLabels : KV;
  ExternalURL : string;
  routeLabelsRendered : bool;
}.

(** [regexp.QuoteMeta]. *)
Definition is_special (c : ascii) : bool :=
  bool_decide (c ∈ String.list_ascii_of_string "\.+*?()|[]{}^$").
Fixpoint QuoteMeta (s : string) : string :=
  match s with
  | EmptyString => EmptyString
  | String c s => if is_special c then String "\" (String c (QuoteMeta s)) else String c (QuoteMeta s)
  end.

(** The loops that delete what another alert does not share; a missing label
    reads as the empty string. *)
Definition keep_shared (other common : KV) : KV :=
  filter (λ x, label_get other x.1 = x.2) common.

Fixpoint common_loop (alerts : list Alert.Alert) (labels annotations : KV) : KV * KV :=
  match alerts with
  | [] => (labels, annotations)
  | a :: alerts =>
      if bool_decide (labels = ∅) && bool_decide (annotations = ∅) then (labels, annotations) else
      common_loop alerts (keep_shared (Alert.Labels a) labels) (keep_shared (Alert.Annotations a) annotations)
  end.

Definition common (alerts : list Alert.Alert) : KV * KV :=
  match alerts with
  | [] => (∅, ∅)
  | a :: alerts => common_loop alerts (Alert.Labels a) (Alert.Annotations a)
  end.

Section data.
Context `{RE : Regexp, PM : PromModel, FP : Fingerprinter, FS : FingerprintString}.

(** [model.Alert.Status] and [model.Alerts.Status] at an instant. *)
Definition alert_Status (a : Alert.Alert) (now : time) : string :=
  if Alert.Resolved a now then "resolved" else "firing".
Definition alerts_Status (as_ : list Alert.Alert) (now : Alert.Alert → time) : string :=
  if existsb (λ a, negb (Alert.Resolved a (now a))) as_ then "firing" else "resolved".

Definition template_alert (now : Alert.Alert → time) (a : Alert.Alert) : TAlert :=
  mkTAlert (alert_Status a (now a)) (Alert.Labels a) (Alert.Annotations a) (Alert.StartsAt a) (Alert.EndsAt a)
    (Alert.GeneratorURL a) (Fingerprint_String (Fingerprint (Alert.Labels a))).

(** [Template.Data].  The clock is read for every alert, first when the alerts
    are exposed and then for the two statuses. *)
Definition Template_Data (externalURL recv : string) (groupLabels routeLabels : LabelSet) (reason : string)
    (alerts : list (Alert.Alert * time)) (now1 now2 : Alert.Alert → time) : Data :=
  let typedAlerts := Alert.Alerts alerts in
  let '(commonLabels, commonAnnotations) := common alerts.*1 in
  mkData (QuoteMeta recv) (alerts_Status typedAlerts now1) (template_alert now2 <$> typedAlerts) reason
    groupLabels commonLabels commonAnnotations routeLabels externalURL false.

Definition MarkRouteLabelsRendered (d : Data) : Data :=
  mkData (Receiver d) (DStatus d) (DAlerts d) (DNotificationReason d) (GroupLabels d) (CommonLabels d)
    (CommonAnnotations d) (RouteLabels d) (ExternalURL d) true.

(** [GetTemplateData] of notify/util.go. *)
Definition GetTemplateData (ctx : Notify.Context) (externalURL : string) (alerts : list (Alert.Alert * time))
    (now1 now2 : Alert.Alert → time) : Data :=
  MarkRouteLabelsRendered
    (Template_Data externalURL (default ""%string (Notify.ReceiverName ctx)) (default ∅ (Notify.GroupLabels ctx))
       (default ∅ (Notify.RouteLabels ctx))
       (Notify.NotifyReason_String (default Notify.ReasonUnknown (Notify.NotificationReason ctx)))
       alerts now1 now2).
End data.

(** ** Route labels *)

(** The run of a template: a result, or a call of [routeLabels] and how it goes
    on.  An error of the function ends the run with that error. *)
Inductive prog := Done (r : option string) | Call (name : string) (k : string → prog).

Inductive render_error := ExecError | Cycle (labels : list string) | OutOfFuel.

(** The values rendered so far. *)
Abbreviation memo := (gmap string string).

Fixpoint run (resolve : string → memo → result render_error string * memo) (p : prog) (m : memo)
    : result render_error string * memo :=
  match p with
  | Done (Some v) => (Ok v, m)
  | Done None => (Err ExecError, m)
  | Call name k =>
      match resolve name m with
      | (Ok v, m) => run resolve (k v) m
      | (Err e, m) => (Err e, m)
      end
  end.

Section resolver.
(** [parse]: the text against the data of the resolver. *)
Context (raw : KV) (rendered : bool) (parse : string → prog).

(** [routeLabelResolver.resolve]; [stack] are the labels in progress, the last
    one first.  One more label is in progress at every level, so that the number
    of labels is enough fuel. *)
Fixpoint resolve (fuel : nat) (stack : list string) (name : string) (m : memo)
    : result render_error string * memo :=
  match raw !! name with
  | None => (Ok ""%string, m)
  | Some text =>
      if rendered then (Ok text, m) else
      match m !! name with
      | Some v => (Ok v, m)
      | None =>
          if bool_decide (name ∈ stack) then (Err (Cycle (reverse (name :: stack))), m) else
          match fuel with
          | O => (Err OutOfFuel, m)
          | S fuel =>
              match run (resolve fuel (name :: stack)) (parse text) m with
              | (Ok v, m) => (Ok v, <[name := v]> m)
              | (Err e, m) => (Err e, m)
              end
          end
      end
  end.

(** [RouteLabelRenderer]: the function that shares one resolver. *)
Definition render (name : string) (m : memo) : result render_error string * memo :=
  resolve (size raw) [] name m.

(** The loop of [renderRouteLabels] over the labels, in the order [names]. *)
Definition render_step (x : LabelSet * memo) (name : string) : LabelSet * memo :=
  match render name x.2 with
  | (Ok v, m) => (<[name := v]> x.1, m)
  | (Err _, m) => (x.1, m)
  end.
Definition render_all (names : list string) : LabelSet := (foldl render_step (∅, ∅) names).1.

(** [ExecuteTextString]. *)
Definition ExecuteTextString (text : string) : result render_error string :=
  if bool_decide (text = ""%string) then Ok ""%string
  else (run (resolve (size raw) []) (parse text) ∅).1.
End resolver.
End Template.

(** * What the template data and the route labels are *)
Module TemplateInv.
Import Template.

(** ** Sorted views *)
Lemma collect_key_name l i : collect_key (l, i) AlertNameLabel = (AlertNameLabel :: l, 1%nat).
Proof. unfold collect_key. by rewrite bool_decide_eq_true_2. Qed.
Lemma collect_key_other l i k : k ≠ AlertNameLabel → collect_key (l, i) k = (l ++ [k], i).
Proof. intros Hk. unfold collect_key. by rewrite bool_decide_eq_false_2. Qed.

Lemma collect_rest ks : ∀ l i, AlertNameLabel ∉ ks → foldl collect_key (l, i) ks = (l ++ ks, i).
Proof.
  induction ks as [|k ks IH]; intros l i Hn; cbn; [by rewrite app_nil_r|]. apply not_elem_of_cons in Hn as [Hk Hn].
  by rewrite collect_key_other, IH, <-app_assoc.
Qed.

Lemma collect_keys ks : NoDup ks →
  ∀ l, ∃ rest, l ++ ks ≡ₚ (if bool_decide (AlertNameLabel ∈ ks) then [AlertNameLabel] else []) ++ rest ∧
    foldl collect_key (l, O) ks =
      if bool_decide (AlertNameLabel ∈ ks) then (AlertNameLabel :: rest, 1%nat) else (rest, O).
Proof.
  induction 1 as [|k ks Hk Hnd IH]; intros l; [exists l; by rewrite app_nil_r|]. cbn [foldl].
  destruct (decide (k = AlertNameLabel)) as [->|Hne].
  - rewrite collect_key_name, (bool_decide_eq_true_2 (_ ∈ _)) by (by left).
    exists (l ++ ks). split; [by rewrite <-Permutation_middle|]. by rewrite collect_rest.
  - rewrite collect_key_other by done. destruct (IH (l ++ [k])) as (rest & Hp & Hf).
    rewrite <-app_assoc in Hp. exists rest.
    rewrite (bool_decide_ext (AlertNameLabel ∈ k :: ks) (AlertNameLabel ∈ ks)) by (rewrite elem_of_cons; naive_solver).
    done.
Qed.

(** The sorted view of a label set: every label once with its value, the name
    of the alert first and the others in the order of their names, whatever the
    order in which the map was iterated. *)
Theorem sorted_pairs_exact `{MR : MapRange} (kv : KV) :
  let front := if bool_decide (is_Some (kv !! AlertNameLabel)) then [AlertNameLabel] else [] in
  ∃ rest, KV_Names kv = front ++ rest ∧ Sorted string_le rest ∧ KV_Names kv ≡ₚ (map_to_list kv).*1 ∧
    ∀ p, p ∈ SortedPairs kv → kv !! Name p = Some (Value p).
Proof.
  intros front. unfold KV_Names, Pairs_Names, SortedPairs.
  assert (Hin : ∀ k, k ∈ (range kv).*1 ↔ is_Some (kv !! k)).
  { intros k. rewrite list_elem_of_fmap. split; [intros ([k' w] & -> & ?%elem_of_range); by eexists|].
    intros [w Hw%elem_of_range]. by exists (k, w). }
  destruct (collect_keys (range kv).*1 (NoDup_fst_range kv) []) as (rest & Hp & ->). cbn [app] in Hp.
  assert (Hperm : (map_to_list kv).*1 ≡ₚ front ++ rest).
  { rewrite <-range_perm, Hp. unfold front. by rewrite (bool_decide_ext _ _ (Hin _)). }
  exists (merge_sort string_le rest).
  assert (E : ∀ keys : list string, Name <$> ((λ k, mkPair k (label_get kv k)) <$> keys) = keys).
  { intros keys. rewrite <-list_fmap_compose. by rewrite (list_fmap_ext _ (λ k, k)), list_fmap_id by done. }
  assert (Hkeys : (let '(keys, sortStart) := if bool_decide (AlertNameLabel ∈ (range kv).*1)
      then (AlertNameLabel :: rest, 1%nat) else (rest, O) in
      (λ k, mkPair k (label_get kv k)) <$> take sortStart keys ++ merge_sort string_le (drop sortStart keys)) =
    (λ k, mkPair k (label_get kv k)) <$> front ++ merge_sort string_le rest).
  { unfold front. rewrite (bool_decide_ext _ _ (Hin _)). by destruct (bool_decide (is_Some _)). }
  rewrite Hkeys, E. split_and!; [done| | |].
  - apply Sorted_merge_sort. intros x y. unfold string_le. apply String.leb_total.
  - by rewrite merge_sort_Permutation.
  - intros p (k & -> & Hk)%list_elem_of_fmap. cbn. rewrite merge_sort_Permutation, <-Hperm in Hk.
    rewrite <-range_perm, Hin in Hk. unfold label_get. by destruct Hk as [w ->].
Qed.

(** ** Common labels *)
Lemma keep_shared_lookup other common k v :
  keep_shared other common !! k = Some v ↔ common !! k = Some v ∧ label_get other k = v.
Proof. unfold keep_shared. by rewrite map_lookup_filter_Some. Qed.

(** The loop keeps what all alerts share, also when it ends early. *)
Lemma common_loop_lookup alerts : ∀ labels annotations k v,
  ((common_loop alerts labels annotations).1 !! k = Some v ↔
     labels !! k = Some v ∧ ∀ a, a ∈ alerts → label_get (Alert.Labels a) k = v) ∧
  ((common_loop alerts labels annotations).2 !! k = Some v ↔
     annotations !! k = Some v ∧ ∀ a, a ∈ alerts → label_get (Alert.Annotations a) k = v).
Proof.
  induction alerts as [|a alerts IH]; intros labels annotations k v; cbn [common_loop].
  { split; (split; [intros ?; split; [done|]; by intros a ?%elem_of_nil|by intros [? _]]). }
  destruct (bool_decide (labels = ∅) && bool_decide (annotations = ∅)) eqn:He.
  - apply andb_true_iff in He as [->%bool_decide_eq_true ->%bool_decide_eq_true]. cbn.
    rewrite lookup_empty. naive_solver.
  - destruct (IH (keep_shared (Alert.Labels a) labels) (keep_shared (Alert.Annotations a) annotations) k v)
      as [H1 H2]. rewrite H1, H2, !keep_shared_lookup. setoid_rewrite elem_of_cons. naive_solver.
Qed.

Lemma label_get_Some ls k v : v ≠ ""%string → label_get ls k = v ↔ ls !! k = Some v.
Proof. intros Hv. unfold label_get. destruct (ls !! k); cbn; naive_solver. Qed.

Lemma common_exact alerts k v : alerts ≠ [] → v ≠ ""%string →
  ((common alerts).1 !! k = Some v ↔ ∀ a, a ∈ alerts → Alert.Labels a !! k = Some v) ∧
  ((common alerts).2 !! k = Some v ↔ ∀ a, a ∈ alerts → Alert.Annotations a !! k = Some v).
Proof.
  intros Hne Hv. destruct alerts as [|a alerts]; [done|]. cbn [common].
  destruct (common_loop_lookup alerts (Alert.Labels a) (Alert.Annotations a) k v) as [H1 H2].
  rewrite H1, H2. setoid_rewrite elem_of_cons. setoid_rewrite label_get_Some; [|done..]. naive_solver.
Qed.

(** ** Statuses *)
Section data.
Context `{RE : Regexp, PM : PromModel, FP : Fingerprinter, FS : FingerprintString}.

(** An alert as it is exposed when tested at [x.2]. *)
Definition exposed (x : Alert.Alert * time) : Alert.Alert :=
  if Alert.Resolved x.1 x.2 then x.1 else Alert.set_EndsAt 0 x.1.

(** The status does not depend on the later readings of the clock. *)
Lemma exposed_Resolved x now : x.2 ≤ now → Alert.Resolved (exposed x) now = Alert.Resolved x.1 x.2.
Proof.
  intros Hle. unfold exposed. destruct (Alert.Resolved x.1 x.2) eqn:Hr.
  - by eapply Alert.Resolved_mono.
  - apply not_true_iff_false. rewrite Alert.Resolved_true. by intros [? _].
Qed.

(** How an alert of a notification is shown. *)
Definition shown (x : Alert.Alert * time) (a : TAlert) : Prop :=
  Labels a = Alert.Labels x.1 ∧ Annotations a = Alert.Annotations x.1 ∧
  if Alert.Resolved x.1 x.2 then Status a = "resolved"%string ∧ EndsAt a = Alert.EndsAt x.1
  else Status a = "firing"%string ∧ EndsAt a = 0.

Lemma alerts_shown alerts now :
  (∀ x, x ∈ alerts → x.2 ≤ now (exposed x)) →
  Forall2 shown alerts (template_alert now <$> Alert.Alerts alerts).
Proof.
  intros Hclock. unfold Alert.Alerts. rewrite <-list_fmap_compose, Forall2_fmap_r.
  apply Forall_Forall2_diag, Forall_forall. intros x Hx. unfold shown. cbn.
  fold (exposed x). unfold alert_Status. rewrite exposed_Resolved by by apply Hclock.
  unfold exposed. by destruct (Alert.Resolved x.1 x.2).
Qed.

Lemma shown_partition alerts ds : Forall2 shown alerts ds →
  ds ≡ₚ Firing ds ++ Resolved ds ∧ (Firing ds ≠ [] ↔ ∃ x, x ∈ alerts ∧ Alert.Resolved x.1 x.2 = false).
Proof.
  induction 1 as [|x a l l' (_ & _ & Hs) _ [IH1 IH2]].
  { split; [done|]. split; [done|]. by intros (x & ?%elem_of_nil & _). }
  setoid_rewrite elem_of_cons. unfold Firing, Resolved in *. cbn.
  destruct (Alert.Resolved x.1 x.2) eqn:Hr; destruct Hs as [-> _]; repeat case_bool_decide; try done; cbn.
  - split; [rewrite <-Permutation_middle; by f_equiv|]. rewrite IH2.
    split; [intros (y & ? & ?); eauto|]. intros (y & [->|?] & ?); [congruence|eauto].
  - split; [by f_equiv|]. split; [eauto|done].
Qed.

Lemma alerts_Status_exposed alerts now :
  (∀ x, x ∈ alerts → x.2 ≤ now (exposed x)) →
  alerts_Status (Alert.Alerts alerts) now = "firing"%string ↔
    ∃ x, x ∈ alerts ∧ Alert.Resolved x.1 x.2 = false.
Proof.
  intros Hclock. unfold alerts_Status, Alert.Alerts.
  assert (He : existsb (λ a, negb (Alert.Resolved a (now a))) (exposed <$> alerts) = true ↔
    ∃ x, x ∈ alerts ∧ Alert.Resolved x.1 x.2 = false).
  { rewrite existsb_exists. setoid_rewrite <-list_elem_of_In. split.
    - intros (a & (x & -> & Hx)%list_elem_of_fmap & Hr). rewrite exposed_Resolved in Hr by by apply Hclock.
      exists x. by destruct (Alert.Resolved x.1 x.2).
    - intros (x & Hx & Hr). exists (exposed x). split; [by apply list_elem_of_fmap_2|].
      rewrite exposed_Resolved by by apply Hclock. by rewrite Hr. }
  fold exposed. rewrite <-He. by destruct (existsb _ (exposed <$> alerts)).
Qed.

(** the data of a notification: its common labels and annotations are exactly
    those with one and the same (not empty) value in all alerts; the alerts come
    in their order, each with its own labels; each is either firing, then
    without an end, or resolved, as of the moment it was exposed, whatever the
    clock says when the statuses are computed; and the data as a whole is firing
    exactly when an alert in it is. *)
Theorem template_data_exact url recv groupLabels routeLabels reason alerts now1 now2 :
  alerts ≠ [] → (∀ x, x ∈ alerts → x.2 ≤ now1 (exposed x) ∧ x.2 ≤ now2 (exposed x)) →
  let d := Template_Data url recv groupLabels routeLabels reason alerts now1 now2 in
  (∀ k v, v ≠ ""%string →
     (CommonLabels d !! k = Some v ↔ ∀ x, x ∈ alerts → Alert.Labels x.1 !! k = Some v) ∧
     (CommonAnnotations d !! k = Some v ↔ ∀ x, x ∈ alerts → Alert.Annotations x.1 !! k = Some v)) ∧
  Forall2 shown alerts (DAlerts d) ∧ DAlerts d ≡ₚ Firing (DAlerts d) ++ Resolved (DAlerts d) ∧
  (DStatus d = "firing"%string ↔ Firing (DAlerts d) ≠ []).
Proof.
  intros Hne Hclock d. unfold d, Template_Data. pose proof (common_exact alerts.*1) as Hc.
  destruct (common alerts.*1) as [cl ca]. cbn [CommonLabels CommonAnnotations DAlerts DStatus fst snd] in *.
  assert (HF : Forall2 shown alerts (template_alert now2 <$> Alert.Alerts alerts))
    by (apply alerts_shown; intros x Hx; by apply Hclock).
  destruct (shown_partition _ _ HF) as [Hp Hf]. split_and!; [|done|done|].
  - intros k v Hv. destruct (Hc k v) as [-> ->]; [by destruct alerts|done|].
    split; (split; [intros H x Hx; by apply H, list_elem_of_fmap_2|]);
      intros H a (x & -> & Hx)%list_elem_of_fmap; by apply H.
  - rewrite Hf. apply alerts_Status_exposed. intros x Hx. by apply Hclock.
Qed.
End data.

(** ** Route labels *)
Section resolver.
Context (raw : KV) (parse : string → prog).

(** The reference: a label is rendered by rendering what it refers to, again
    and again, to the depth [fuel]. *)
Fixpoint prun (ev : string → option string) (p : prog) : option string :=
  match p with
  | Done r => r
  | Call name k => match ev name with Some v => prun ev (k v) | None => None end
  end.

Fixpoint eval (fuel : nat) (name : string) : option string :=
  match raw !! name with
  | None => Some ""%string
  | Some text => match fuel with O => None | S fuel => prun (eval fuel) (parse text) end
  end.

Lemma prun_mono (e1 e2 : string → option string) p v :
  (∀ n w, e1 n = Some w → e2 n = Some w) → prun e1 p = Some v → prun e2 p = Some v.
Proof.
  intros He. induction p as [r|n k IH]; cbn; [done|].
  destruct (e1 n) as [w|] eqn:Hn; [|done]. rewrite (He n w Hn). apply IH.
Qed.

Lemma eval_S k n v : eval k n = Some v → eval (S k) n = Some v.
Proof.
  revert n v. induction k as [|k IH]; intros n v.
  - cbn [eval]. by destruct (raw !! n).
  - cbn [eval]. destruct (raw !! n) as [text|]; [|done]. by apply prun_mono.
Qed.

Lemma eval_mono k k' n v : (k ≤ k')%nat → eval k n = Some v → eval k' n = Some v.
Proof. induction 1; auto using eval_S. Qed.

Lemma eval_unique k k' n v v' : eval k n = Some v → eval k' n = Some v' → v = v'.
Proof.
  intros H H'. apply (eval_mono _ (k + k')) in H, H'; [|lia..]. congruence.
Qed.

(** What has been rendered is right. *)
Definition memo_ok (m : memo) : Prop := ∀ n v, m !! n = Some v → ∃ k, eval k n = Some v.

Lemma memo_ok_empty : memo_ok ∅.
Proof. intros n v. by rewrite lookup_empty. Qed.

Lemma memo_ok_insert m n v k : memo_ok m → eval k n = Some v → memo_ok (<[n := v]> m).
Proof. intros Hm Hv n' v' [[<- <-]|[_ ?]]%lookup_insert_Some; eauto. Qed.

(** A resolver that keeps the values right and only answers with right ones. *)
Definition sound (r : string → memo → result render_error string * memo) : Prop :=
  ∀ n m, memo_ok m → memo_ok (r n m).2 ∧ ∀ v, (r n m).1 = Ok v → ∃ k, eval k n = Some v.

Lemma run_sound r p : sound r → ∀ m, memo_ok m →
  memo_ok (run r p m).2 ∧ ∀ v, (run r p m).1 = Ok v → ∃ k, prun (eval k) p = Some v.
Proof.
  intros Hr. induction p as [[x|]|n k IH]; intros m Hm; cbn [run].
  - split; [done|]. intros v [= <-]. by exists O.
  - done.
  - destruct (Hr n m Hm) as [Hm' Hv]. destruct (r n m) as [[w|e] m']; cbn in *; [|done].
    destruct (IH w m' Hm') as [Hm2 Hv2]. split; [done|]. intros v Hrun.
    destruct (Hv w eq_refl) as [k1 H1]. destruct (Hv2 v Hrun) as [k2 H2]. exists (k1 + k2)%nat. cbn.
    rewrite (eval_mono k1 _ n w) by (lia || done). eapply prun_mono; [|done].
    intros n' w'. apply eval_mono. lia.
Qed.

Lemma resolve_sound fuel : ∀ stack, sound (resolve raw false parse fuel stack).
Proof.
  induction fuel as [|fuel IH]; intros stack n m Hm; cbn [resolve];
    (destruct (raw !! n) as [text|] eqn:Ht;
     [|split; [done|]; intros v [= <-]; exists O; cbn; by rewrite Ht]);
    (destruct (m !! n) as [w|] eqn:Hw; [split; [done|]; intros v [= <-]; by apply Hm|]);
    case_bool_decide; try done.
  destruct (run_sound (resolve raw false parse fuel (n :: stack)) (parse text) (IH _) m Hm) as [Hm' Hv].
  destruct (run _ _ m) as [[w|e] m']; cbn in *; [|done]. destruct (Hv w eq_refl) as [k Hk].
  assert (He : eval (S k) n = Some w) by (cbn [eval]; by rewrite Ht).
  split; [by eapply memo_ok_insert|]. intros v [= <-]. eauto.
Qed.

(** The labels in progress are known and distinct, and there is fuel for the
    others. *)
Definition in_progress (fuel : nat) (stack : list string) : Prop :=
  NoDup stack ∧ (∀ s, s ∈ stack → is_Some (raw !! s)) ∧ (size raw ≤ length stack + fuel)%nat.

Lemma in_progress_fuel fuel stack n :
  in_progress fuel stack → is_Some (raw !! n) → n ∉ stack →
  ∃ fuel', fuel = S fuel' ∧ in_progress fuel' (n :: stack).
Proof.
  intros (Hnd & Hdom & Hf) Hn Hni. assert (Hnd' : NoDup (n :: stack)) by by constructor.
  assert (Hsub : (length (n :: stack) ≤ size raw)%nat).
  { rewrite <-(size_dom (D := gset string)), <-(size_list_to_set (C := gset string)) by done.
    apply subseteq_size. intros s. rewrite elem_of_list_to_set, elem_of_cons, elem_of_dom.
    intros [->|Hs]; [done|by apply Hdom]. }
  cbn in Hsub. destruct fuel as [|fuel]; [lia|]. exists fuel. split; [done|]. split_and!; [done| |cbn; lia].
  intros s [->|Hs]%elem_of_cons; [done|by apply Hdom].
Qed.

Lemma resolve_complete k : ∀ fuel stack n m v,
  eval k n = Some v → (∀ s, s ∈ stack → eval k s = None) → in_progress fuel stack → memo_ok m →
  (resolve raw false parse fuel stack n m).1 = Ok v.
Proof.
  induction k as [|k IH]; intros fuel stack n m v Hv Hstack Hp Hm.
  { cbn in Hv. destruct (raw !! n) eqn:Ht; [done|]. simplify_eq. destruct fuel; cbn [resolve]; by rewrite Ht. }
  destruct (raw !! n) as [text|] eqn:Ht.
  2: { cbn in Hv. rewrite Ht in Hv. simplify_eq. destruct fuel; cbn [resolve]; by rewrite Ht. }
  assert (Hsk : ∀ s, s ∈ stack → eval k s = None).
  { intros s Hs. destruct (eval k s) as [w|] eqn:E; [|done]. apply eval_S in E. by rewrite Hstack in E. }
  destruct (eval k n) as [w|] eqn:Hk.
  { assert (w = v) as -> by by eapply eval_unique. by apply IH. }
  assert (Hni : n ∉ stack) by (intros Hn; by rewrite (Hstack n Hn) in Hv).
  destruct (in_progress_fuel fuel stack n Hp ltac:(by eexists) Hni) as (fuel' & -> & Hp').
  cbn [resolve]. rewrite Ht. destruct (m !! n) as [w|] eqn:Hw.
  { destruct (Hm n w Hw) as [k' Hk']. by rewrite (eval_unique _ _ _ _ _ Hk' Hv). }
  rewrite bool_decide_eq_false_2 by done.
  cbn [eval] in Hv. rewrite Ht in Hv.
  assert (Hrun : ∀ p m, memo_ok m → prun (eval k) p = Some v →
    (run (resolve raw false parse fuel' (n :: stack)) p m).1 = Ok v).
  { clear m Hm Hw Hv. intros p. induction p as [r|n' kk IHp]; intros m Hm Hv; cbn in Hv |- *; [by subst|].
    destruct (eval k n') as [w|] eqn:Hn'; [|done].
    pose proof (IH fuel' (n :: stack) n' m w Hn') as Hr.
    destruct (resolve_sound fuel' (n :: stack) n' m Hm) as [Hm' _].
    destruct (resolve raw false parse fuel' (n :: stack) n' m) as [r' m']. cbn in Hr, Hm'.
    rewrite Hr; [by apply IHp| |done|done]. intros s [->|Hs]%elem_of_cons; [done|by apply Hsk]. }
  specialize (Hrun (parse text) m Hm Hv). destruct (run _ (parse text) m) as [r m']. cbn in Hrun. by subst.
Qed.

(** Cycles are found before the fuel ends. *)
Lemma resolve_fuel fuel : ∀ stack n m, in_progress fuel stack →
  (resolve raw false parse fuel stack n m).1 ≠ Err OutOfFuel.
Proof.
  induction fuel as [|fuel IH]; intros stack n m Hp; cbn [resolve];
    (destruct (raw !! n) as [text|] eqn:Ht; [|done]); (destruct (m !! n); [done|]);
    (case_bool_decide as Hs; [done|]);
    destruct (in_progress_fuel _ stack n Hp ltac:(by eexists) Hs) as (fuel' & E & Hp'); [done|].
  injection E as <-.
  assert (Hrun : ∀ p m, (run (resolve raw false parse fuel (n :: stack)) p m).1 ≠ Err OutOfFuel).
  { intros p. induction p as [[x|]|n' k IHp]; intros m0; cbn; [done|done|].
    specialize (IH (n :: stack) n' m0 Hp'). destruct (resolve _ _ _ _ _ n' m0) as [[w|e] m']; [apply IHp|].
    cbn in *. congruence. }
  specialize (Hrun (parse text) m). destruct (run _ (parse text) m) as [[w|e] m']; cbn in *; congruence.
Qed.

Lemma in_progress_nil : in_progress (size raw) [].
Proof. split_and!; [constructor|by intros s ?%elem_of_nil|cbn; lia]. Qed.

Lemma render_exact n m : memo_ok m →
  memo_ok (render raw false parse n m).2 ∧
  (∀ v, (render raw false parse n m).1 = Ok v ↔ ∃ k, eval k n = Some v) ∧
  (render raw false parse n m).1 ≠ Err OutOfFuel.
Proof.
  intros Hm. destruct (resolve_sound (size raw) [] n m Hm) as [Hm' Hs]. split_and!; [done| |].
  - intros v. split; [apply Hs|]. intros [k Hk]. unfold render.
    by eapply resolve_complete; [|intros s ?%elem_of_nil|apply in_progress_nil|].
  - apply resolve_fuel, in_progress_nil.
Qed.

Lemma render_loop names : ∀ ls m, memo_ok m →
  ∀ n v, (foldl (render_step raw false parse) (ls, m) names).1 !! n = Some v ↔
    (n ∈ names ∧ ∃ k, eval k n = Some v) ∨
    (ls !! n = Some v ∧ ¬ (n ∈ names ∧ ∃ k w, eval k n = Some w)).
Proof.
  induction names as [|name names IH]; intros ls m Hm n v; cbn [foldl].
  { cbn. split; [|by intros [[?%elem_of_nil _]|[? _]]]. intros ?. right. split; [done|].
    by intros [?%elem_of_nil _]. }
  destruct (render_exact name m Hm) as (Hm' & Hv & _). unfold render_step at 2. cbn [fst snd].
  destruct (render raw false parse name m) as [[w|e] m']; cbn in Hm', Hv; rewrite IH by done; cbn [fst].
  - destruct (proj1 (Hv w) eq_refl) as [k0 Hk0]. rewrite lookup_insert_Some, elem_of_cons.
    destruct (decide (n = name)) as [->|Hne].
    + split.
      * intros [[_ He]|[[[_ <-]|[? _]] _]]; [left; by split; [left|]|left; split; [by left|by exists k0]|done].
      * intros [[_ [k Hk]]|[_ []]]; [|split; [by left|by exists k0, w]].
        assert (v = w) as -> by by eapply (eval_unique k k0).
        destruct (decide (name ∈ names)); [left; eauto|right]. split; [by left|]. by intros [? _].
    + naive_solver.
  - assert (Hno : ∀ k w, eval k name ≠ Some w) by (intros k w Hk; by specialize (proj2 (Hv w) ltac:(by exists k))).
    rewrite elem_of_cons. destruct (decide (n = name)) as [->|Hne]; naive_solver.
Qed.

(** C37: route labels are rendered as if each were rendered by itself: the labels a
    group gets, in whatever order they are rendered through the one shared
    resolver with its memory, are exactly those whose plain recursive rendering
    comes to an end without an error, with that value; and rendering always
    returns, a label that refers to itself, directly or not, being refused. *)
Theorem route_labels_resolved names :
  (∀ n v, render_all raw false parse names !! n = Some v ↔ n ∈ names ∧ ∃ k, eval k n = Some v) ∧
  (∀ n m, memo_ok m → (render raw false parse n m).1 ≠ Err OutOfFuel).
Proof.
  split; [|intros n m Hm; by apply render_exact].
  intros n v. unfold render_all. rewrite render_loop by apply memo_ok_empty. rewrite lookup_empty. naive_solver.
Qed.
End resolver.

(** ** The dispatcher's renderer *)
Section dispatcher.
Context `{RE : Regexp, MR : MapRange, UP : UnicodePrint, PM : PromModel, FP : Fingerprinter}.
(** The run of a template against the data of a group. *)
Context (parse : string → LabelSet → LabelSet → list Alert.Alert → string → prog).

(** A label rendered with a resolver of its own. *)
#[local] Instance template_renderer : RouteLabelRenderer := λ recv labels ls alerts n,
  match (render ls false (parse recv labels ls alerts) n ∅).1 with Ok v => Some v | Err _ => None end.

(** The loop of [renderRouteLabels] with its shared resolver gives what the
    dispatcher's model takes the engine to give. *)
Lemma shared_renderer_refines (g : Dispatch.aggrGroup) alerts :
  let ls := Route.RouteLabels (Dispatch.g_opts g) in
  render_all ls false (parse (Route.Receiver (Dispatch.g_opts g)) (Dispatch.g_labels g) ls alerts) (range ls).*1 =
    Dispatch.renderRouteLabels g alerts.
Proof.
  intros ls. set (p := parse _ _ _ _). apply map_eq. intros n. apply option_eq. intros v.
  unfold render_all. rewrite render_loop by apply memo_ok_empty. rewrite lookup_empty.
  unfold Dispatch.renderRouteLabels. rewrite map_lookup_imap. fold ls.
  unfold render_label, template_renderer. fold p.
  destruct (render_exact ls p n ∅ (memo_ok_empty _ _)) as (_ & Hv & _).
  assert (Hin : n ∈ (range ls).*1 ↔ is_Some (ls !! n)).
  { rewrite list_elem_of_fmap. split; [intros ([k w] & -> & ?%elem_of_range); by eexists|].
    intros [w Hw%elem_of_range]. by exists (n, w). }
  rewrite Hin. destruct (ls !! n) as [w|]; cbn.
  - destruct (render ls false p n ∅).1 as [x|e] eqn:Hr.
    + split; [intros [[_ He]|[? _]]; [|done]; apply Hv in He; congruence|].
      intros [= <-]. left. split; [by eexists|]. by apply Hv.
    + split; [intros [[_ He]|[? _]]; [|done]; by apply Hv in He|done].
  - split; [|done]. by intros [[[] _]|[? _]].
Qed.
End dispatcher.
End TemplateInv.
