(* ===== verification/TemplateExamples.v ===== *)
(** * Template data and route labels at concrete inputs *)

From Stdlib Require Import Ascii String.
From stdpp Require Import base gmap strings list.
From S2P Require Import Prelude Labels Silence Instances Alert Nflog Notify Api Template.

Module TemplateExamples.
Import Template TemplateInv.

#[local] Program Instance prom_model : PromModel := {|
  ResolvedAt e now := negb (e =? 0) && (e <=? now);
  LabelSet_Before _ _ := false;
|}.
Next Obligation. intros. rewrite andb_true_iff, negb_true_iff, Z.eqb_neq, Z.leb_le. done. Qed.
#[local] Instance size_fingerprint : Fingerprinter := λ ls, Z.of_nat (size ls).
#[local] Instance fingerprint_string : FingerprintString := λ _, "fp"%string.

(** Two alerts at 50: one has ended at 40. *)
Definition ex_alert (instance : string) (ends : time) : Alert.Alert :=
  Alert.mkAlert {["job"%string := "api"%string; "instance"%string := instance]}
    {["runbook"%string := "x"%string]} 10 ends "" 0 false.
Definition ex_alerts : list (Alert.Alert * time) := [(ex_alert "1" 40, 50); (ex_alert "2" 90, 50)].

Lemma template_data_exact_witness :
  let d := Template_Data "http://am" "team" ∅ ∅ "" ex_alerts (λ _, 60) (λ _, 95) in
  CommonLabels d !! "job"%string = Some "api"%string ∧ DStatus d = "firing"%string ∧
  DAlerts d ≡ₚ Firing (DAlerts d) ++ Resolved (DAlerts d).
Proof.
  destruct (template_data_exact "http://am" "team" ∅ ∅ "" ex_alerts (λ _, 60) (λ _, 95)) as (Hc & _ & Hp & Hs).
  - done.
  - intros x [->|[->|?%elem_of_nil]%elem_of_cons]%elem_of_cons; vm_compute; done.
  - split_and!; [|apply Hs|exact Hp].
    + apply (proj1 (Hc "job"%string "api"%string ltac:(done))). intros x [->|[->|?%elem_of_nil]%elem_of_cons]%elem_of_cons; vm_compute; done.
    + vm_compute. done.
Defined.

(** A text that starts with @ refers to another label. *)
Definition ex_parse (text : string) : prog :=
  match text with
  | String "@" name => Call name (λ v, Done (Some (v +:+ "!")))
  | _ => Done (Some text)
  end.
Definition ex_raw : KV :=
  {["team"%string := "db"%string; "owner"%string := "@team"%string;
    "loop"%string := "@pool"%string; "pool"%string := "@loop"%string]}.

Lemma route_labels_resolved_witness :
  let ls := render_all ex_raw false ex_parse ["owner"; "loop"; "pool"; "team"]%string in
  ls !! "owner"%string = Some "db!"%string ∧ ls !! "loop"%string = None ∧
  (render ex_raw false ex_parse "loop" ∅).1 ≠ Err OutOfFuel.
Proof.
  destruct (route_labels_resolved ex_raw ex_parse ["owner"; "loop"; "pool"; "team"]%string) as [Hn Hf].
  split_and!.
  - apply Hn. split; [by left|]. exists 2%nat. vm_compute. reflexivity.
  - vm_compute. reflexivity.
  - apply Hf, memo_ok_empty.
Defined.

Example loop_error : (render ex_raw false ex_parse "loop" ∅).1 = Err (Cycle ["loop"; "pool"; "loop"]%string).
Proof. vm_compute. reflexivity. Qed.
End TemplateExamples.
