(* ===== verification/Notifier.v ===== *)
(** * What the notifier integrations share (notify/util.go)

    A notifier expands templates, reads files and sends HTTP requests, and
    returns whether to retry together with an error.  Its run is a computation in
    the monad [N]: the state is the template error that [TmplText] keeps and the
    requests sent so far, an early return ends the run with a retry flag and an
    error.  The files, the answers of the network and the template engine are
    parameters; the answer to a request may depend on all requests before it.
    Of the text of an error the prefixes added on the way are left out. *)

From Stdlib Require Import Ascii String.
From stdpp Require Import base gmap strings list pretty.
From S2P Require Import Prelude Utf8 Labels Silence Alert Nflog Notify NotifyUtil Strconv Api.
From S2P Require Import ConfigReceivers Template.

(** Outside the repository: text/template and html/template with the data of a
    notification, crypto/sha256 in hexadecimal, and whether [http.NewRequest]
    accepts a URL. *)
Class NotifierLib := {
  ExecuteText : Template.Data → string → result string string;
  ExecuteHTML : Template.Data → string → result string string;
  sha256_hex : string → string;
  NewRequest_ok : string → bool;
}.

(** encoding/json. *)
Class Encoder (P : Type) := Encode : P → result string string.

Module Notifier.

(** ** HTTP *)
Record response := mkResponse {
  StatusCode : Z;
  ContentType : string;
  RetryAfter : string;
  Body : result string string;
}.

Record request (P : Type) := mkRequest {
  r_method : string;
  r_url : string;
  r_query : list (string * string);
  r_header : list (string * string);   (** those that depend on the configuration *)
  r_body : P;
}.
Arguments mkRequest {P} _ _ _ _ _.
Arguments r_method {P} _.
Arguments r_url {P} _.
Arguments r_query {P} _.
Arguments r_header {P} _.
Arguments r_body {P} _.

Inductive nerror :=
| NoGroupKey
| TemplateError (e : string)
| FileError (e : string)
| EncodeError (e : string)
| InvalidURL
| NetworkError (e : string)
| StatusError (code : Z) (msg : string) (reason : NotifyUtil.Reason)
| ResponseUnreadable (msg : string)   (** the body of a successful answer cannot be read or decoded *)
| ResponseError (msg : string)        (** a successful answer that reports a failure *)
| OtherError (msg : string)
| PanicError.

(** What [request] fails with: [http.NewRequest] refuses the URL, or the request
    fails in the network. *)
Inductive request_error := BadURL | RequestFailed (e : string).
Definition request_nerror (x : request_error) : nerror :=
  match x with BadURL => InvalidURL | RequestFailed e => NetworkError e end.

(** ** A call of [Notify] *)
Section call.
Context `{RE : Regexp, PM : PromModel, FP : Fingerprinter, FS : FingerprintString}.

Record Call := mkCall {
  c_ctx : Notify.Context;
  c_alerts : list (Alert.Alert * time);
  c_externalURL : string;
  c_status : Alert.Alert → time;    (** the clock when a status is computed *)
  c_now1 : Alert.Alert → time;      (** the clock in [Template.Data] *)
  c_now2 : Alert.Alert → time;
}.

Definition call_data (c : Call) : Template.Data :=
  Template.GetTemplateData (c_ctx c) (c_externalURL c) (c_alerts c) (c_now1 c) (c_now2 c).

(** [types.Alerts(as...).Status()] and [HasFiring]. *)
Definition firing (c : Call) : bool :=
  existsb (λ a, negb (Alert.Resolved a (c_status c a))) (Alert.Alerts (c_alerts c)).
End call.

(** ** The monad *)
Section monad.
Context `{RE : Regexp} {P : Type}.

Record world := mkWorld {
  tmplErr : option string;
  sent : list (request P);
}.

Record env := mkEnv {
  e_file : string → result string string;
  e_net : list (request P) → request P → result string response;
  e_cap : list Z → nat;          (** the capacity of a converted rune slice *)
}.

Definition N (A : Type) : Type := env → world → world * result (bool * nerror) A.

#[global] Instance N_ret : MRet N := λ A a e w, (w, Ok a).
#[global] Instance N_bind : MBind N := λ A B f m e w,
  match m e w with
  | (w, Ok a) => f a e w
  | (w, Err r) => (w, Err r)
  end.

(** [return retry, err]. *)
Definition fail {A} (retry : bool) (err : nerror) : N A := λ e w, (w, Err (retry, err)).
Definition lift {A B} (retry : bool) (err : A → nerror) (r : result A B) : N B :=
  match r with Ok b => mret b | Err e => fail retry (err e) end.

Fixpoint each {A B} (f : A → N B) (l : list A) : N (list B) :=
  match l with
  | [] => mret []
  | x :: l => y ← f x; ys ← each f l; mret (y :: ys)
  end.

Context `{NL : NotifierLib}.

(** [TmplText] and [TmplHTML]: after an error the result is empty. *)
Definition render (exec : string → result string string) (s : string) : N string := λ e w,
  match tmplErr w with
  | Some _ => (w, Ok ""%string)
  | None =>
      match exec s with
      | Ok v => (w, Ok v)
      | Err err => (mkWorld (Some err) (sent w), Ok ""%string)
      end
  end.
Definition TmplText (d : Template.Data) : string → N string := render (ExecuteText d).
Definition TmplHTML (d : Template.Data) : string → N string := render (ExecuteHTML d).

(** [if err != nil], where [err] is the error the template functions set.  A
    notifier with several such variables returns at the first error of one before
    it uses the next, so that they are one variable here. *)
Definition check_tmpl (retry : bool) : N () := λ e w,
  match tmplErr w with
  | Some err => (w, Err (retry, TemplateError err))
  | None => (w, Ok ())
  end.

Definition ExtractGroupKey (ctx : Notify.Context) : N string :=
  match Notify.GroupKey ctx with Some k => mret k | None => fail false NoGroupKey end.

Definition ReadFile (retry : bool) (path : string) : N string := λ e w,
  match e_file e path with
  | Ok s => (w, Ok s)
  | Err err => (w, Err (retry, FileError err))
  end.

Definition TruncateInRunes (s : string) (n : Z) : N string := λ e w,
  match NotifyUtil.TruncateInRunes (bytes s) n (e_cap e (bytes s)) with
  | Some (t, _) => (w, Ok (of_bytes t))
  | None => (w, Err (false, PanicError))
  end.
Definition TruncateInBytes (s : string) (n : Z) : N string := λ e w,
  match NotifyUtil.TruncateInBytes (bytes s) n (e_cap e (bytes s)) with
  | Some (t, _) => (w, Ok (of_bytes t))
  | None => (w, Err (false, PanicError))
  end.

(** [request]: a URL that is not accepted is an error before anything is sent. *)
Definition from_net (r : result string response) : result request_error response :=
  match r with Ok resp => Ok resp | Err x => Err (RequestFailed x) end.
Definition do_request (r : request P) : N (result request_error response) := λ e w,
  if NewRequest_ok (r_url r) then
    (mkWorld (tmplErr w) (sent w ++ [r]), Ok (from_net (e_net e (sent w) r)))
  else (w, Ok (Err BadURL)).

(** The payload is encoded before the request is made. *)
Definition encode `{Encoder P} (p : P) : N string := lift false EncodeError (Encode p).

Definition PostJSON (url : string) (p : P) : N (result request_error response) :=
  do_request (mkRequest "POST" url [] [] p).

(** [retrier.Check], with the reason that is attached to its error.  [details]
    reads the body. *)
Definition read_body (r : response) : string := match Body r with Ok s => s | Err _ => "" end.
Definition check_with (reason : Z → NotifyUtil.Reason) (retrier : NotifyUtil.Retrier) (details : response → string)
    (r : response) : N bool :=
  match NotifyUtil.Check retrier (StatusCode r) (details r) with
  | (retry, Some msg) => fail retry (StatusError (StatusCode r) msg (reason (StatusCode r)))
  | (retry, None) => mret retry
  end.
(** An error without a reason counts as [DefaultReason]. *)
Definition check_plain := check_with (λ _, NotifyUtil.DefaultReason).
Definition check_status := check_with NotifyUtil.GetFailureReasonFromStatusCode.

(** [PostJSON], a failure of which is retried, and the check of the answer. *)
Definition post_and_check (retrier : NotifyUtil.Retrier) (details : response → string) (url : string) (p : P)
    : N bool :=
  r ← PostJSON url p;
  resp ← lift true request_nerror r;
  check_status retrier details resp.
End monad.
Arguments world : clear implicits.
Arguments env : clear implicits.
Arguments N : clear implicits.

Definition start {P} : world P := mkWorld None [].
Definition is_empty (s : string) : bool := bool_decide (s = ""%string).

(** A secret that is configured or read from a file. *)
Definition from_file {P} (retry : bool) (value path : string) : N P string :=
  if is_empty value then content ← ReadFile retry path; mret (Strings.TrimSpace content) else mret value.

(** The URL of a webhook that is configured or read from a file. *)
Definition webhook_url {P} `{ConfigLib} (url : option URL) (path : string) : N P string :=
  match url with
  | Some u => mret (URL_String u)
  | None => content ← ReadFile false path; mret (Strings.TrimSpace content)
  end.

(** A template whose error is checked at once. *)
Definition tmpl_checked {P} `{NotifierLib} (data : Template.Data) (s : string) : N P string :=
  v ← TmplText data s; check_tmpl false;; mret v.

(** The retrier without additional codes. *)
Definition plain_retrier : NotifyUtil.Retrier := NotifyUtil.mkRetrier [].

(** ** Values of unknown type (template/template.go)

    What a YAML decoder gives: maps are their entries in the order in which they
    are visited, a key that is not a string is [None]. *)
Inductive any :=
| ANil
| AStr (s : string)
| AList (l : list any)
| AMap (es : list (option string * any))
| AScalar (text : string).

(** [m[k] = v] on an association list. *)
Fixpoint set_entry (k : string) (v : any) (es : list (option string * any)) : list (option string * any) :=
  match es with
  | [] => [(Some k, v)]
  | (k', v') :: es => if bool_decide (k' = Some k) then (Some k, v) :: es else (k', v') :: set_entry k v es
  end.

Fixpoint normalizeYAMLValue (value : any) : any :=
  match value with
  | AList l => AList (normalizeYAMLValue <$> l)
  | AMap es =>
      AMap ((fix entries es acc :=
        match es with
        | [] => acc
        | (Some k, v) :: es => entries es (set_entry k (normalizeYAMLValue v) acc)
        | (None, _) :: es => entries es acc
        end) es [])
  | ANil | AStr _ | AScalar _ => value
  end.

Section deep_copy.
Context {P : Type} (yaml : string → option any).   (** [yaml.Unmarshal] *)

(** [DeepCopyWithTemplate] with a function that returns the text and the error
    of [tmplText]: an error of the template ends the copy. *)
Definition tmplTextFunc (tmpl : string → N P string) (s : string) : N P string :=
  v ← tmpl s; check_tmpl false;; mret v.

Definition inline (parsed : string) : any :=
  match yaml parsed with
  | None | Some (AStr _) => AStr parsed
  | Some v => normalizeYAMLValue v
  end.

Fixpoint DeepCopyWithTemplate (f : string → N P string) (value : any) : N P any :=
  match value with
  | AStr s => parsed ← f s; mret (inline parsed)
  | AList l =>
      l ← (fix items l :=
             match l with
             | [] => mret []
             | x :: l => y ← DeepCopyWithTemplate f x; ys ← items l; mret (y :: ys)
             end) l;
      mret (AList l)
  | AMap es =>
      es ← (fix entries es acc :=
              match es with
              | [] => mret acc
              | (None, _) :: es => entries es acc
              | (Some k, v) :: es => k ← f k; v ← DeepCopyWithTemplate f v; entries es (set_entry k v acc)
              end) es [];
      mret (AMap es)
  | ANil | AScalar _ => mret value
  end.

(** The loops over a map of values to be copied. *)
Definition copy_entries (f : string → N P string) (es : list (string * any)) : N P (list (string * any)) :=
  each (λ x, v ← DeepCopyWithTemplate f x.2; mret (x.1, v)) es.
End deep_copy.
End Notifier.
