(* ===== verification/Webhook.v ===== *)
(** * Webhook notifier (notify/webhook/webhook.go)

    A payload is the value that is encoded: the message of the protocol or a custom one. *)

From Stdlib Require Import Ascii String.
From stdpp Require Import base gmap strings list.
From S2P Require Import Prelude Utf8 Labels Silence Alert Nflog Notify NotifyUtil Strconv Api.
From S2P Require Import ConfigReceivers Template Notifier.

Module Webhook.
Import Notifier.

Section webhook.
Context `{RE : Regexp, PM : PromModel, FP : Fingerprinter, FS : FingerprintString, NL : NotifierLib}.

Record WebhookConfig := mkWebhookConfig {
  URL : string;
  URLFile : string;
  MaxAlerts : Z;
  Payload : option any;
}.

Record Message := mkMessage {
  m_Data : Template.Data;
  Version : string;
  m_GroupKey : string;
  TruncatedAlerts : Z;
}.

(** The message of the protocol, or a custom payload. *)
Inductive body := Standard (m : Message) | Custom (v : any).

Context `{EN : Encoder body} (yaml : string → option any).

Definition truncateAlerts {A} (maxAlerts : Z) (alerts : list A) : list A * Z :=
  if negb (maxAlerts =? 0) && (maxAlerts <? Z.of_nat (length alerts))
  then (take (Z.to_nat maxAlerts) alerts, Z.of_nat (length alerts) - maxAlerts)
  else (alerts, 0).

Definition with_alerts (c : Call) (alerts : list (Alert.Alert * time)) : Call :=
  mkCall (c_ctx c) alerts (c_externalURL c) (c_status c) (c_now1 c) (c_now2 c).

Definition renderPayload (payload : any) (data : Template.Data) : N body body :=
  rendered ← DeepCopyWithTemplate yaml (tmplTextFunc (TmplText data)) payload;
  encode (Custom rendered);;
  mret (Custom rendered).

Definition retrier : NotifyUtil.Retrier := NotifyUtil.mkRetrier [].

Definition Notify (conf : WebhookConfig) (c : Call) : N body bool :=
  let '(alerts, numTruncated) := truncateAlerts (MaxAlerts conf) (c_alerts c) in
  let data := call_data (with_alerts c alerts) in
  groupKey ← ExtractGroupKey (c_ctx c);
  let msg := mkMessage data "4" groupKey numTruncated in
  encode (Standard msg);;
  buf ← match Payload conf with
        | Some payload => renderPayload payload data
        | None => mret (Standard msg)
        end;
  url ← (if is_empty (URL conf)
         then content ← ReadFile false (URLFile conf); TmplText data (Strings.TrimSpace content)
         else TmplText data (URL conf));
  check_tmpl false;;
  if is_empty url then fail false (OtherError "webhook URL is empty after templating")
  else post_and_check retrier read_body url buf.
End webhook.
End Webhook.
