(* ===== verification/PagerDuty.v ===== *)
(** * PagerDuty notifier (notify/pagerduty/pagerduty.go)

    Both versions of the API.  Maps of the configuration are their entries in the
    order in which the code visits them. *)

From Stdlib Require Import Ascii String.
From stdpp Require Import base gmap strings list.
From S2P Require Import Prelude Utf8 Labels Silence Alert Nflog Notify NotifyUtil Strconv Api.
From S2P Require Import ConfigReceivers Template Notifier.

Module PagerDuty.
Import Notifier.

Section pagerduty.
Context `{RE : Regexp, PM : PromModel, FP : Fingerprinter, FS : FingerprintString, NL : NotifierLib}.

Record PagerdutyImage := mkImage { Src : string; Alt : string; i_Href : string }.
Record PagerdutyLink := mkLink { l_Href : string; l_Text : string }.

Record PagerdutyConfig := mkPagerdutyConfig {
  ServiceKey : string;
  ServiceKeyFile : string;
  RoutingKey : string;
  RoutingKeyFile : string;
  c_URL : string;
  Client : string;
  ClientURL : string;
  Description : string;
  Details : list (string * any);
  Images : list PagerdutyImage;
  Links : list PagerdutyLink;
  Source : string;
  Severity : string;
  Class_ : string;
  Component : string;
  Group : string;
}.

Record pagerDutyPayload := mkPayload {
  Summary : string;
  p_Source : string;
  p_Severity : string;
  p_Class : string;
  p_Component : string;
  p_Group : string;
  CustomDetails : list (string * any);
}.

Record pagerDutyMessage := mkPagerDutyMessage {
  m_RoutingKey : string;
  m_ServiceKey : string;
  DedupKey : string;
  IncidentKey : string;
  EventType : string;
  m_Description : string;
  EventAction : string;
  m_Payload : option pagerDutyPayload;
  m_Client : string;
  m_ClientURL : string;
  m_Details : list (string * any);
  m_Images : list PagerdutyImage;
  m_Links : list PagerdutyLink;
}.

(** The two fields of an answer that [errDetails] prints, from its JSON. *)
Context `{EN : Encoder pagerDutyMessage} (yaml : string → option any)
        (decode_pgr : string → option (string * list string)).

Definition pagerDutyEventTrigger : string := "trigger".
Definition pagerDutyEventResolve : string := "resolve".
Definition maxEventSize : Z := 512000.

Fixpoint Join (l : list string) (sep : string) : string :=
  match l with
  | [] => ""
  | [s] => s
  | s :: l => s +:+ sep +:+ Join l sep
  end.

Definition errDetails (r : response) : string :=
  if negb (StatusCode r =? 400) then ""
  else match Body r with
       | Ok b => match decode_pgr b with
                 | Some (message, errors) => message +:+ ": " +:+ Join errors ","
                 | None => ""
                 end
       | Err _ => ""
       end.

Definition apiV1 (conf : PagerdutyConfig) : bool :=
  negb (is_empty (ServiceKey conf)) || negb (is_empty (ServiceKeyFile conf)).
Definition apiV1_URL : string := "https://events.pagerduty.com/generic/2010-04-15/create_event.json".

(** What [New] chooses. *)
Definition retrier (conf : PagerdutyConfig) : NotifyUtil.Retrier :=
  NotifyUtil.mkRetrier (if apiV1 conf then [403] else [429]).

Definition error_details : list (string * any) :=
  [("error"%string, AStr ("Custom details have been removed because the original event exceeds the maximum size of 512KB"))].

Definition set_details (v1 : bool) (msg : pagerDutyMessage) : pagerDutyMessage :=
  let '(mkPagerDutyMessage rk sk dk ik et d ea p cl cu ds im li) := msg in
  if v1 then mkPagerDutyMessage rk sk dk ik et d ea p cl cu error_details im li
  else mkPagerDutyMessage rk sk dk ik et d ea
         ((λ q, mkPayload (Summary q) (p_Source q) (p_Severity q) (p_Class q) (p_Component q) (p_Group q)
                  error_details) <$> p) cl cu ds im li.

(** [encodeMessage]; the message is changed in place. *)
Definition encodeMessage (v1 : bool) (msg : pagerDutyMessage) : N pagerDutyMessage pagerDutyMessage :=
  buf ← encode msg;
  if maxEventSize <? Z.of_nat (String.length buf)
  then let msg := set_details v1 msg in encode msg;; mret msg
  else mret msg.

(** [notifyV1]; the answer is classified without a failure reason. *)
Definition notifyV1 (conf : PagerdutyConfig) (eventType key : string) (data : Template.Data)
    (details : list (string * any)) : N pagerDutyMessage bool :=
  let tmpl := TmplText data in
  d ← tmpl (Description conf);
  description ← TruncateInRunes d 1024;
  serviceKey ← from_file false (ServiceKey conf) (ServiceKeyFile conf);
  sk ← tmpl serviceKey;
  '(client, clientURL) ←
     (if bool_decide (eventType = pagerDutyEventTrigger)
      then a ← tmpl (Client conf); b ← tmpl (ClientURL conf); mret (a, b)
      else mret (""%string, ""%string));
  check_tmpl false;;
  if is_empty sk then fail false (OtherError "service key cannot be empty") else
  msg ← encodeMessage true
    (mkPagerDutyMessage "" sk "" (sha256_hex key) eventType description "" None client clientURL details [] []);
  r ← PostJSON apiV1_URL msg;
  resp ← lift true request_nerror r;
  check_plain (retrier conf) errDetails resp.

Definition render_image (tmpl : string → N pagerDutyMessage string) (i : PagerdutyImage) :
    N pagerDutyMessage PagerdutyImage :=
  a ← tmpl (Src i); b ← tmpl (Alt i); c ← tmpl (i_Href i); mret (mkImage a b c).
Definition render_link (tmpl : string → N pagerDutyMessage string) (l : PagerdutyLink) :
    N pagerDutyMessage PagerdutyLink :=
  a ← tmpl (l_Href l); b ← tmpl (l_Text l); mret (mkLink a b).

Definition notifyV2 (conf : PagerdutyConfig) (eventType key : string) (data : Template.Data)
    (details : list (string * any)) : N pagerDutyMessage bool :=
  let tmpl := TmplText data in
  let severity := if is_empty (Severity conf) then "error"%string else Severity conf in
  d ← tmpl (Description conf);
  summary ← TruncateInRunes d 1024;
  routingKey ← from_file false (RoutingKey conf) (RoutingKeyFile conf);
  client ← tmpl (Client conf);
  clientURL ← tmpl (ClientURL conf);
  rk ← tmpl routingKey;
  source ← tmpl (Source conf);
  sev ← tmpl severity;
  class_ ← tmpl (Class_ conf);
  component ← tmpl (Component conf);
  group ← tmpl (Group conf);
  images ← each (render_image tmpl) (Images conf);
  links ← each (render_link tmpl) (Links conf);
  check_tmpl false;;
  if is_empty rk then fail false (OtherError "routing key cannot be empty") else
  msg ← encodeMessage false
    (mkPagerDutyMessage rk "" (sha256_hex key) "" "" "" eventType
       (Some (mkPayload summary source sev class_ component group details)) client clientURL []
       (List.filter (λ i, negb (is_empty (Src i))) images)
       (List.filter (λ l, negb (is_empty (l_Href l))) links));
  post_and_check (retrier conf) errDetails (c_URL conf) msg.

Definition Notify (conf : PagerdutyConfig) (c : Call) : N pagerDutyMessage bool :=
  key ← ExtractGroupKey (c_ctx c);
  let data := call_data c in
  let eventType := if firing c then pagerDutyEventTrigger else pagerDutyEventResolve in
  details ← copy_entries yaml (tmplTextFunc (TmplText data)) (Details conf);
  if apiV1 conf then notifyV1 conf eventType key data details
  else notifyV2 conf eventType key data details.
End pagerduty.
End PagerDuty.
