(* ===== verification/OpsGenie.v ===== *)
(** * OpsGenie notifier (notify/opsgenie/opsgenie.go)

    The requests are prepared first and then sent one after the other. *)

From Stdlib Require Import Ascii String.
From stdpp Require Import base gmap strings list.
From S2P Require Import Prelude Utf8 Labels Silence Alert Nflog Notify NotifyUtil Strconv Api.
From S2P Require Import ConfigReceivers Template Notifier.

Module OpsGenie.
Import Notifier.

Section opsgenie.
Context `{RE : Regexp, PM : PromModel, FP : Fingerprinter, FS : FingerprintString, NL : NotifierLib}.
Context `{CL : ConfigLib}.

Record OpsGenieConfigResponder := mkResponder {
  ID : string;
  Name : string;
  Username : string;
  Type_ : string;
}.

#[global] Instance responder_eq_dec : EqDecision OpsGenieConfigResponder.
Proof. solve_decision. Defined.

Record OpsGenieConfig := mkOpsGenieConfig {
  APIKey : string;
  APIKeyFile : string;
  APIURL : URL;
  Message : string;
  Description : string;
  Source : string;
  Details : list (string * string);
  Entity : string;
  Responders : list OpsGenieConfigResponder;
  Actions : string;
  Tags : string;
  Note : string;
  Priority : string;
  UpdateAlerts : bool;
}.

Record opsGenieCreateMessage := mkCreateMessage {
  Alias : string;
  m_Message : string;
  m_Description : string;
  m_Details : gmap string string;
  m_Source : string;
  m_Responders : list OpsGenieConfigResponder;
  m_Tags : list string;
  m_Note : string;
  m_Priority : string;
  m_Entity : string;
  m_Actions : list string;
}.

Inductive body :=
| Create (m : opsGenieCreateMessage)
| Close (source : string)
| UpdateMessage (message : string)
| UpdateDescription (description : string).

Context `{EN : Encoder body}.

(** Like [Split], without the empty strings. *)
Definition safeSplit (s : string) : list string :=
  List.filter (λ x, negb (is_empty x)) (Strconv.Split (Strings.TrimSpace s) 44).

Definition maxMessageLenRunes : Z := 130.

(** [http.NewRequest] with an encoded payload; the headers are set later. *)
Definition new_request (method : string) (u : URL) (query : list (string * string)) (b : body)
    : N body (request body) :=
  encode b;;
  if NewRequest_ok (URL_String u) then mret (mkRequest method (URL_String u) query [] b)
  else fail true InvalidURL.

Definition endpoint (conf : OpsGenieConfig) (suffix : string) : URL :=
  mkURL (u_rest (APIURL conf)) (u_Path (APIURL conf) +:+ suffix).
Definition by_alias : list (string * string) := [("identifierType"%string, "alias"%string)].

(** The loop over the responders: an empty one is left out, teams are split. *)
Definition expand_responder (tmpl : string → N body string) (r : OpsGenieConfigResponder)
    : N body (list OpsGenieConfigResponder) :=
  id ← tmpl (ID r); name ← tmpl (Name r); username ← tmpl (Username r); type_ ← tmpl (Type_ r);
  let responder := mkResponder id name username type_ in
  if bool_decide (responder = mkResponder "" "" "" "") then mret []
  else if bool_decide (type_ = "teams"%string) then
    each (λ team, n ← tmpl team; t ← tmpl "team"%string; mret (mkResponder "" n "" t)) (safeSplit name)
  else mret [responder].

(** The branch for a group with a firing alert. *)
Definition create_requests (conf : OpsGenieConfig) (tmpl : string → N body string) (alias : string)
    (details : gmap string string) : N body (list (request body)) :=
  m ← tmpl (Message conf);
  message ← TruncateInRunes m maxMessageLenRunes;
  responders ← each (expand_responder tmpl) (Responders conf);
  description ← tmpl (Description conf);
  source ← tmpl (Source conf);
  tags ← tmpl (Tags conf);
  note ← tmpl (Note conf);
  priority ← tmpl (Priority conf);
  entity ← tmpl (Entity conf);
  actions ← tmpl (Actions conf);
  create ← new_request "POST" (endpoint conf "v2/alerts") []
    (Create (mkCreateMessage alias message description details source (concat responders)
               (safeSplit tags) note priority entity (safeSplit actions)));
  if UpdateAlerts conf then
    um ← new_request "PUT" (endpoint conf ("v2/alerts/" +:+ alias +:+ "/message")) by_alias (UpdateMessage message);
    ud ← new_request "PUT" (endpoint conf ("v2/alerts/" +:+ alias +:+ "/description")) by_alias
           (UpdateDescription description);
    mret [create; um; ud]
  else mret [create].

Definition set_headers (apiKey : string) (r : request body) : request body :=
  mkRequest (r_method r) (r_url r) (r_query r)
    [("Content-Type"%string, "application/json"%string); ("Authorization"%string, "GenieKey " +:+ apiKey)] (r_body r).

Definition createRequests (conf : OpsGenieConfig) (c : Call) : N body (list (request body)) :=
  key ← ExtractGroupKey (c_ctx c);
  let data := call_data c in
  let tmpl := TmplText data in
  rendered ← each (λ x, v ← tmpl x.2; mret (x.1, v)) (Details conf);
  let details := foldl (λ d x, <[x.1 := x.2]> d) (Template.CommonLabels data) rendered in
  let alias := sha256_hex key in
  requests ←
    (if firing c then create_requests conf tmpl alias details
     else
       source ← tmpl (Source conf);
       r ← new_request "POST" (endpoint conf ("v2/alerts/" +:+ alias +:+ "/close")) by_alias (Close source);
       mret [r]);
  apiKey ←
    (if is_empty (APIKey conf)
     then content ← ReadFile false (APIKeyFile conf); k ← tmpl content; mret (Strings.TrimSpace k)
     else tmpl (APIKey conf));
  check_tmpl false;;
  mret (set_headers apiKey <$> requests).

Definition retrier : NotifyUtil.Retrier := NotifyUtil.mkRetrier [429].

(** The loop of [Notify]: the first failure ends it. *)
Fixpoint send_all (requests : list (request body)) : N body bool :=
  match requests with
  | [] => mret true
  | req :: requests =>
      r ← do_request req;
      resp ← lift true request_nerror r;
      check_status retrier read_body resp;;
      send_all requests
  end.

Definition Notify (conf : OpsGenieConfig) (c : Call) : N body bool :=
  requests ← createRequests conf c;
  send_all requests.
End opsgenie.
End OpsGenie.
