(* ===== verification/VictorOps.v ===== *)
(** * VictorOps notifier (notify/victorops/victorops.go)

    The payload is a map to which custom fields are added. *)

From Stdlib Require Import Ascii String.
From stdpp Require Import base gmap strings list.
From S2P Require Import Prelude Utf8 Labels Silence Alert Nflog Notify NotifyUtil Strconv Api.
From S2P Require Import ConfigReceivers Template Notifier.

Module VictorOps.
Import Notifier.

Section victorops.
Context `{RE : Regexp, PM : PromModel, FP : Fingerprinter, FS : FingerprintString, NL : NotifierLib}.
Context `{CL : ConfigLib}.

Record VictorOpsConfig := mkVictorOpsConfig {
  APIKey : string;
  APIKeyFile : string;
  APIURL : URL;
  RoutingKey : string;
  MessageType : string;
  StateMessage : string;
  EntityDisplayName : string;
  MonitoringTool : string;
  CustomFields : list (string * string);
}.

Abbreviation body := (gmap string string).
Context `{EN : Encoder body}.

Definition victorOpsAllowedEvents : list string := ["INFO"; "WARNING"; "CRITICAL"]%string.
Definition maxMessageLenRunes : Z := 20480.

(** The error of a template in the payload is returned with a retry flag. *)
Definition createVictorOpsPayload (conf : VictorOpsConfig) (c : Call) : N body body :=
  match Notify.GroupKey (c_ctx c) with
  | None => fail true NoGroupKey
  | Some key =>
      let tmpl := TmplText (call_data c) in
      mt ← tmpl (MessageType conf);
      sm ← tmpl (StateMessage conf);
      let messageType :=
        if firing c then (if bool_decide (mt ∈ victorOpsAllowedEvents) then mt else "CRITICAL"%string)
        else "RECOVERY"%string in
      stateMessage ← TruncateInRunes sm maxMessageLenRunes;
      edn ← tmpl (EntityDisplayName conf);
      tool ← tmpl (MonitoringTool conf);
      check_tmpl true;;
      custom ← each (λ x, v ← tmpl x.2; check_tmpl true;; mret (x.1, v)) (CustomFields conf);
      let msg : body := list_to_map [("message_type"%string, messageType); ("entity_id"%string, sha256_hex key);
         ("entity_display_name"%string, edn); ("state_message"%string, stateMessage); ("monitoring_tool"%string, tool)] in
      let msg := foldl (λ d x, <[x.1 := x.2]> d) msg custom in
      lift true EncodeError (Encode msg);;
      mret msg
  end.

Definition retrier : NotifyUtil.Retrier := NotifyUtil.mkRetrier [].

Definition Notify (conf : VictorOpsConfig) (c : Call) : N body bool :=
  let tmpl := TmplText (call_data c) in
  apiKey ← from_file false (APIKey conf) (APIKeyFile conf);
  routingKey ← tmpl (RoutingKey conf);
  check_tmpl false;;
  buf ← createVictorOpsPayload conf c;
  let u := mkURL (u_rest (APIURL conf)) (u_Path (APIURL conf) +:+ apiKey +:+ "/" +:+ routingKey) in
  post_and_check retrier read_body (URL_String u) buf.
End victorops.
End VictorOps.
