(* ===== verification/Discord.v ===== *)
(** * Discord notifier (notify/discord/discord.go)

    One message with one embedding. *)

From Stdlib Require Import Ascii String.
From stdpp Require Import base gmap strings list.
From S2P Require Import Prelude Utf8 Labels Silence Alert Nflog Notify NotifyUtil Strconv Api.
From S2P Require Import ConfigReceivers Template Notifier.

Module Discord.
Import Notifier.

Section discord.
Context `{RE : Regexp, PM : PromModel, FP : Fingerprinter, FS : FingerprintString, NL : NotifierLib, CL : ConfigLib}.

Record DiscordConfig := mkDiscordConfig {
  WebhookURL : option URL;
  WebhookURLFile : string;
  Content : string;
  Title : string;
  Message : string;
  Username : string;
  AvatarURL : string;
}.

Record webhookEmbed := mkEmbed { e_Title : string; e_Description : string; Color : Z }.
Record webhook := mkWebhook {
  w_Content : string;
  Embeds : list webhookEmbed;
  w_Username : string;
  w_AvatarURL : string;
}.

(** [url.Parse] accepts the text. *)
Context `{EN : Encoder webhook} (Parse_ok : string → bool).

Definition colorRed : Z := 10038562.
Definition colorGreen : Z := 3066993.

Definition Notify (conf : DiscordConfig) (c : Call) : N webhook bool :=
  ExtractGroupKey (c_ctx c);;
  let data := call_data c in
  t ← TmplText data (Title conf); title ← TruncateInRunes t 256; check_tmpl false;;
  m ← TmplText data (Message conf); description ← TruncateInRunes m 4096; check_tmpl false;;
  k ← TmplText data (Content conf); content ← TruncateInRunes k 2000; check_tmpl false;;
  let color := if firing c then colorRed else colorGreen in
  url ← webhook_url (WebhookURL conf) (WebhookURLFile conf);
  let avatar := if negb (is_empty (AvatarURL conf)) && Parse_ok (AvatarURL conf) then AvatarURL conf else ""%string in
  let w := mkWebhook content [mkEmbed title description color] (Username conf) avatar in
  encode w;;
  r ← PostJSON url w;
  resp ← lift true request_nerror r;
  check_status plain_retrier read_body resp;;
  mret false.
End discord.
End Discord.
