(* ===== verification/Webex.v ===== *)
(** * Webex notifier (notify/webex/webex.go)

    One message, cut to a number of bytes. *)

From Stdlib Require Import Ascii String.
From stdpp Require Import base gmap strings list.
From S2P Require Import Prelude Utf8 Labels Silence Alert Nflog Notify NotifyUtil Strconv Api.
From S2P Require Import ConfigReceivers Template Notifier.

Module Webex.
Import Notifier.

Section webex.
Context `{RE : Regexp, PM : PromModel, FP : Fingerprinter, FS : FingerprintString, NL : NotifierLib, CL : ConfigLib}.

Record WebexConfig := mkWebexConfig { APIURL : URL; Message : string; RoomID : string }.
Record webhook := mkWebhook { Markdown : string; w_RoomID : string }.
Context `{EN : Encoder webhook}.

Definition maxMessageSize : Z := 7439.

(** The error of the template of the room is not looked at. *)
Definition Notify (conf : WebexConfig) (c : Call) : N webhook bool :=
  ExtractGroupKey (c_ctx c);;
  let data := call_data c in
  m ← tmpl_checked data (Message conf);
  message ← TruncateInBytes m maxMessageSize;
  room ← TmplText data (RoomID conf);
  let w := mkWebhook message room in
  encode w;;
  r ← PostJSON (URL_String (APIURL conf)) w;
  resp ← lift true request_nerror r;
  check_status plain_retrier read_body resp;;
  mret false.
End webex.
End Webex.
