(* ===== verification/MSTeams.v ===== *)
(** * Microsoft Teams notifier (notify/msteams/msteams.go)

    One message card. *)

From Stdlib Require Import Ascii String.
From stdpp Require Import base gmap strings list.
From S2P Require Import Prelude Utf8 Labels Silence Alert Nflog Notify NotifyUtil Strconv Api.
From S2P Require Import ConfigReceivers Template Notifier.

Module MSTeams.
Import Notifier.

Section msteams.
Context `{RE : Regexp, PM : PromModel, FP : Fingerprinter, FS : FingerprintString, NL : NotifierLib, CL : ConfigLib}.

Record MSTeamsConfig := mkMSTeamsConfig {
  WebhookURL : option URL;
  WebhookURLFile : string;
  Title : string;
  Summary : string;
  Text : string;
}.
Record teamsMessage := mkTeamsMessage {
  Context_ : string;
  Type_ : string;
  t_Title : string;
  t_Summary : string;
  t_Text : string;
  ThemeColor : string;
}.
Context `{EN : Encoder teamsMessage}.

Definition Notify (conf : MSTeamsConfig) (c : Call) : N teamsMessage bool :=
  ExtractGroupKey (c_ctx c);;
  let data := call_data c in
  title ← tmpl_checked data (Title conf);
  text ← tmpl_checked data (Text conf);
  summary ← tmpl_checked data (Summary conf);
  let color := if firing c then "8C1A1A"%string else "2DC72D"%string in
  url ← webhook_url (WebhookURL conf) (WebhookURLFile conf);
  let t := mkTeamsMessage "http://schema.org/extensions" "MessageCard" title summary text color in
  encode t;;
  post_and_check plain_retrier read_body url t.
End msteams.
End MSTeams.
