(* ===== verification/MSTeamsV2.v ===== *)
(** * Microsoft Teams notifier, second version (notify/msteamsv2/msteamsv2.go)

    One adaptive card. *)

From Stdlib Require Import Ascii String.
From stdpp Require Import base gmap strings list.
From S2P Require Import Prelude Utf8 Labels Silence Alert Nflog Notify NotifyUtil Strconv Api.
From S2P Require Import ConfigReceivers Template Notifier.

Module MSTeamsV2.
Import Notifier.

Section msteamsv2.
Context `{RE : Regexp, PM : PromModel, FP : Fingerprinter, FS : FingerprintString, NL : NotifierLib, CL : ConfigLib}.

Record MSTeamsV2Config := mkMSTeamsV2Config {
  WebhookURL : option URL;
  WebhookURLFile : string;
  Title : string;
  Text : string;
}.
Record Body_ := mkBody {
  b_Type : string;
  b_Text : string;
  Weight : string;
  Size : string;
  Wrap : bool;
  Style : string;
  b_Color : string;
}.
Record Content := mkContent { Schema : string; c_Type : string; Version : string; c_Body : list Body_; Width : string }.
Record Attachment := mkAttachment { ContentType : string; ContentURL : option string; a_Content : Content }.
Record teamsMessage := mkTeamsMessage { t_Type : string; Attachments : list Attachment }.
Context `{EN : Encoder teamsMessage}.

Definition card (title text color : string) : teamsMessage :=
  mkTeamsMessage "message" [mkAttachment "application/vnd.microsoft.card.adaptive" None
    (mkContent "http://adaptivecards.io/schemas/adaptive-card.json" "AdaptiveCard" "1.2"
       [mkBody "TextBlock" title "Bolder" "Medium" true "heading" color;
        mkBody "TextBlock" text "" "" true "" ""] "full")].

Definition Notify (conf : MSTeamsV2Config) (c : Call) : N teamsMessage bool :=
  ExtractGroupKey (c_ctx c);;
  let data := call_data c in
  title ← tmpl_checked data (Title conf);
  text ← tmpl_checked data (Text conf);
  let color := if firing c then "Attention"%string else "Good"%string in
  url ← webhook_url (WebhookURL conf) (WebhookURLFile conf);
  let t := card title text color in
  encode t;;
  post_and_check plain_retrier read_body url t.
End msteamsv2.
End MSTeamsV2.
