(* ===== verification/Pushover.v ===== *)
(** * Pushover notifier (notify/pushover/pushover.go)

    All parameters are in the query of the request. *)

From Stdlib Require Import Ascii String.
From stdpp Require Import base gmap strings list.
From S2P Require Import Prelude Utf8 Labels Silence Alert Nflog Notify NotifyUtil Strconv Api.
From S2P Require Import ConfigReceivers Template Notifier.

Module Pushover.
Import Notifier.

Section pushover.
Context `{RE : Regexp, PM : PromModel, FP : Fingerprinter, FS : FingerprintString, NL : NotifierLib}.

Record PushoverConfig := mkPushoverConfig {
  UserKey : string;
  UserKeyFile : string;
  Token : string;
  TokenFile : string;
  Title : string;
  Message : string;
  p_URL : string;
  URLTitle : string;
  Device : string;
  Sound : string;
  Priority : string;
  Retry : duration;
  Expire : duration;
  TTL : duration;
  HTML : bool;
  Monospace : bool;
}.

Definition apiURL : string := "https://api.pushover.net/1/messages.json".
(** [int64(d.Seconds())]: the fraction is cut off, exactly so below 2^23
    seconds, where the floating-point number resolves nanoseconds. *)
Definition seconds (d : duration) : Z := Z.quot d second.

(** A secret of which the file is not trimmed. *)
Definition secret (value path : string) : N () string :=
  if is_empty value then ReadFile false path else mret value.

(** The text is posted without a body: everything is in the query. *)
Definition Notify (conf : PushoverConfig) (c : Call) : N () bool :=
  ExtractGroupKey (c_ctx c);;
  let data := call_data c in
  let tmpl := TmplText data in
  tk ← secret (Token conf) (TokenFile conf);
  uk ← secret (UserKey conf) (UserKeyFile conf);
  token ← tmpl tk;
  user ← tmpl uk;
  t ← tmpl (Title conf);
  title ← TruncateInRunes t 250;
  m ← (if HTML conf then TmplHTML data (Message conf) else tmpl (Message conf));
  m ← TruncateInRunes m 1024;
  let m := Strings.TrimSpace m in
  let message := if is_empty m then "(no details)"%string else m in
  u ← tmpl (p_URL conf);
  supplementaryURL ← TruncateInRunes u 512;
  url_title ← tmpl (URLTitle conf);
  priority ← tmpl (Priority conf);
  device ← tmpl (Device conf);
  sound ← tmpl (Sound conf);
  check_tmpl false;;
  let newttl := seconds (TTL conf) in
  let parameters :=
    [("token", token); ("user", user); ("title", title)]
    ++ (if HTML conf then [("html", "1")] else []) ++ (if Monospace conf then [("monospace", "1")] else [])
    ++ [("message", message); ("url", supplementaryURL); ("url_title", url_title); ("priority", priority);
        ("retry", Strconv.Itoa (seconds (Retry conf))); ("expire", Strconv.Itoa (seconds (Expire conf)));
        ("device", device); ("sound", sound)]
    ++ (if 0 <? newttl then [("ttl", Strconv.Itoa newttl)] else []) in
  r ← do_request (mkRequest "POST" apiURL parameters [] ());
  resp ← lift true request_nerror r;
  check_status plain_retrier read_body resp.
End pushover.
End Pushover.
