(* ===== verification/Rocketchat.v ===== *)
(** * Rocket.Chat notifier (notify/rocketchat/rocketchat.go)

    One message with one attachment; an answer with status 200 may report a failure. *)

From Stdlib Require Import Ascii String.
From stdpp Require Import base gmap strings list.
From S2P Require Import Prelude Utf8 Labels Silence Alert Nflog Notify NotifyUtil Strconv Api.
From S2P Require Import ConfigReceivers Template Notifier.

Module Rocketchat.
Import Notifier.

Section rocketchat.
Context `{RE : Regexp, PM : PromModel, FP : Fingerprinter, FS : FingerprintString, NL : NotifierLib}.

Record RocketchatAttachmentField := mkField { f_Short : option bool; f_Title : string; f_Value : string }.
(** The fields of an action that are sent. *)
Record RocketchatAttachmentAction := mkAction { a_Type : string; a_Text : string; a_URL : string; a_Msg : string }.

Record RocketchatConfig := mkRocketchatConfig {
  r_APIURL : string;       (** with the path api/v1/chat.postMessage joined *)
  Channel : string;
  Color : string;
  Title : string;
  TitleLink : string;
  Text : string;
  Fields : list RocketchatAttachmentField;
  ShortFields : bool;
  Emoji : string;
  IconURL : string;
  ImageURL : string;
  ThumbURL : string;
  Actions : list RocketchatAttachmentAction;
}.

Record Attachment := mkAttachment {
  t_Title : string;
  t_TitleLink : string;
  t_Text : string;
  t_ImageURL : string;
  t_ThumbURL : string;
  t_Color : string;
  t_Fields : list RocketchatAttachmentField;
  t_Actions : list RocketchatAttachmentAction;
}.
Record PostMessage := mkPostMessage { m_Channel : string; m_Emoji : string; m_Avatar : string; m_Attachments : list Attachment }.

(** The JSON of an answer: success and error. *)
Context `{EN : Encoder PostMessage} (Unmarshal : string → result string (bool * string)).

Definition checkJSONResponseError {P} (body : string) : N P bool :=
  match Unmarshal body with
  | Err e => fail true (ResponseUnreadable e)
  | Ok (false, error) => fail false (ResponseError error)
  | Ok (true, _) => mret false
  end.
Definition checkResponseError {P} (resp : response) : N P bool :=
  match Body resp with
  | Err e => fail true (ResponseUnreadable e)
  | Ok body => checkJSONResponseError body
  end.

Definition Notify (conf : RocketchatConfig) (c : Call) : N PostMessage bool :=
  ExtractGroupKey (c_ctx c);;
  let data := call_data c in
  let tmplText := TmplText data in
  title ← tmpl_checked data (Title conf);
  title ← TruncateInRunes title 1024;
  titleLink ← tmplText (TitleLink conf);
  text ← tmplText (Text conf);
  imageURL ← tmplText (ImageURL conf);
  thumbURL ← tmplText (ThumbURL conf);
  color ← tmplText (Color conf);
  fields ← each (λ f, a ← tmplText (f_Title f); b ← tmplText (f_Value f);
                   mret (mkField (Some (default (ShortFields conf) (f_Short f))) a b)) (Fields conf);
  actions ← each (λ a, t ← tmplText (a_Text a); u ← tmplText (a_URL a); m ← tmplText (a_Msg a);
                    mret (mkAction "button" t u m)) (Actions conf);
  channel ← tmplText (Channel conf);
  emoji ← tmplText (Emoji conf);
  avatar ← tmplText (IconURL conf);
  let body := mkPostMessage channel emoji avatar
    [mkAttachment title titleLink text imageURL thumbURL color fields actions] in
  check_tmpl false;;
  encode body;;
  r ← PostJSON (r_APIURL conf) body;
  resp ← lift true request_nerror r;
  check_status plain_retrier read_body resp;;
  checkResponseError resp.
End rocketchat.
End Rocketchat.
