(* ===== verification/Mattermost.v ===== *)
(** * Mattermost notifier (notify/mattermost/mattermost.go)

    The request is rendered, then made to respect the limits of the receiver. *)

From Stdlib Require Import Ascii String.
From stdpp Require Import base gmap strings list.
From S2P Require Import Prelude Utf8 Labels Silence Alert Nflog Notify NotifyUtil Strconv Api.
From S2P Require Import ConfigReceivers Template Notifier.

Module Mattermost.
Import Notifier.

Section mattermost.
Context `{RE : Regexp, PM : PromModel, FP : Fingerprinter, FS : FingerprintString, NL : NotifierLib, CL : ConfigLib}.
Context `{UL : UnicodeLower}.

Record MattermostPriority := mkPriority {
  Priority : string;
  RequestedAck : bool;
  PersistentNotifications : bool;
}.
Record MattermostField := mkField { f_Title : string; f_Value : string; f_Short : option bool }.
Record MattermostAttachment := mkAttachment {
  Fallback : string;
  Color : string;
  Pretext : string;
  Text : string;
  AuthorName : string;
  AuthorLink : string;
  AuthorIcon : string;
  Title : string;
  TitleLink : string;
  Fields : list MattermostField;
  ThumbURL : string;
  Footer : string;
  FooterIcon : string;
  ImageURL : string;
}.

(** The fields of the configuration that are those of an attachment are one. *)
Record MattermostConfig := mkMattermostConfig {
  WebhookURL : option URL;
  WebhookURLFile : string;
  Channel : string;
  Username : string;
  own : MattermostAttachment;
  IconURL : string;
  IconEmoji : string;
  Attachments : list MattermostAttachment;
  Type_ : string;
  Card : option string;
  c_Priority : option MattermostPriority;
}.

Record mrequest := mkMRequest {
  q_Text : string;
  q_Channel : string;
  q_Username : string;
  q_IconURL : string;
  q_IconEmoji : string;
  q_Attachments : list MattermostAttachment;
  q_Type : string;
  q_Card : option string;
  q_Priority : option MattermostPriority;
}.
Context `{EN : Encoder mrequest}.

Definition render_fields (tmpl : string → N mrequest string) (fs : list MattermostField) : N mrequest (list MattermostField) :=
  each (λ f, a ← tmpl (f_Title f); b ← tmpl (f_Value f); mret (mkField a b (f_Short f))) fs.

Definition render_attachment (tmpl : string → N mrequest string) (a : MattermostAttachment)
    : N mrequest MattermostAttachment :=
  fallback ← tmpl (Fallback a); color ← tmpl (Color a); pretext ← tmpl (Pretext a); text ← tmpl (Text a);
  an ← tmpl (AuthorName a); al ← tmpl (AuthorLink a); ai ← tmpl (AuthorIcon a);
  title ← tmpl (Title a); tl ← tmpl (TitleLink a); thumb ← tmpl (ThumbURL a);
  footer ← tmpl (Footer a); fi ← tmpl (FooterIcon a); image ← tmpl (ImageURL a);
  fields ← render_fields tmpl (Fields a);
  mret (mkAttachment fallback color pretext text an al ai title tl fields thumb footer fi image).

(** The attachment made of the configuration's own fields; its text is rendered
    already. *)
Definition render_own (tmpl : string → N mrequest string) (text : string) (a : MattermostAttachment)
    : N mrequest MattermostAttachment :=
  fallback ← tmpl (Fallback a); color ← tmpl (Color a); pretext ← tmpl (Pretext a);
  an ← tmpl (AuthorName a); al ← tmpl (AuthorLink a); ai ← tmpl (AuthorIcon a);
  title ← tmpl (Title a); tl ← tmpl (TitleLink a); thumb ← tmpl (ThumbURL a);
  footer ← tmpl (Footer a); fi ← tmpl (FooterIcon a); image ← tmpl (ImageURL a);
  fields ← render_fields tmpl (Fields a);
  mret (mkAttachment fallback color pretext text an al ai title tl fields thumb footer fi image).

Definition createRequest (conf : MattermostConfig) (tmpl : string → N mrequest string) : N mrequest mrequest :=
  text ← tmpl (Text (own conf));
  channel ← tmpl (Channel conf);
  username ← tmpl (Username conf);
  iconURL ← tmpl (IconURL conf);
  iconEmoji ← tmpl (IconEmoji conf);
  type_ ← tmpl (Type_ conf);
  priority ←
    match c_Priority conf with
    | Some p =>
        if is_empty (Priority p) then mret None
        else v ← tmpl (Priority p); mret (Some (mkPriority v (RequestedAck p) (PersistentNotifications p)))
    | None => mret None
    end;
  card ←
    match Card conf with
    | Some s => if is_empty s then mret None else v ← tmpl s; mret (Some v)
    | None => mret None
    end;
  match Attachments conf with
  | [] =>
      att ← render_own tmpl text (own conf);
      mret (mkMRequest "" channel username iconURL iconEmoji [att] type_ card priority)
  | atts =>
      atts ← each (render_attachment tmpl) atts;
      mret (mkMRequest text channel username iconURL iconEmoji atts type_ card priority)
  end.

(** The checks of the priority and of the flags that depend on it. *)
Definition sanitize_priority (p : MattermostPriority) : MattermostPriority :=
  let low := Strconv.ToLower (Priority p) in
  let pr := if bool_decide (low ∈ ["urgent"; "important"; "standard"]%string) then low else "standard"%string in
  mkPriority pr
    (RequestedAck p && negb (bool_decide (pr = "standard"%string)))
    (PersistentNotifications p && bool_decide (pr = "urgent"%string)).

Definition sanitizeRequest (ctx : Notify.Context) (r : mrequest) : N mrequest mrequest :=
  ExtractGroupKey ctx;;
  text ← TruncateInRunes (q_Text r) 16383;
  mret (mkMRequest text (q_Channel r) (q_Username r) (q_IconURL r) (q_IconEmoji r) (q_Attachments r) (q_Type r)
          (q_Card r) (sanitize_priority <$> q_Priority r)).

Definition Notify (conf : MattermostConfig) (c : Call) : N mrequest bool :=
  let data := call_data c in
  url ← webhook_url (WebhookURL conf) (WebhookURLFile conf);
  if is_empty url then fail false (OtherError "webhook url missing") else
  req ← createRequest conf (TmplText data);
  check_tmpl false;;
  req ← sanitizeRequest (c_ctx c) req;
  encode req;;
  r ← PostJSON url req;
  resp ← lift true request_nerror r;
  check_status plain_retrier read_body resp;;
  mret false.
End mattermost.
End Mattermost.
