(* ===== verification/Slack.v ===== *)
(** * Slack notifier (notify/slack/slack.go)

    A message can be updated: the timestamp and the channel of a message are kept
    in the store of the notification log, and the next notification of the group
    edits that message.  The store is read from the context, what is stored is
    part of the result. *)

From Stdlib Require Import Ascii String.
From stdpp Require Import base gmap strings list.
From S2P Require Import Prelude Utf8 Labels Silence Alert Nflog Notify NotifyUtil Strconv Api.
From S2P Require Import ConfigReceivers Template Notifier.

Import Notifier.

Module Slack.
Section slack.
Context `{RE : Regexp, PM : PromModel, FP : Fingerprinter, FS : FingerprintString, NL : NotifierLib, CL : ConfigLib}.

Record SlackField := mkSlackField { f_Title : string; f_Value : string; f_Short : option bool }.
Record SlackConfirmationField := mkConfirm { k_Text : string; k_Title : string; OkText : string; DismissText : string }.
Record SlackAction := mkSlackAction {
  a_Type : string;
  a_Text : string;
  a_URL : string;
  a_Style : string;
  a_Name : string;
  a_Value : string;
  ConfirmField : option SlackConfirmationField;
}.

Record SlackConfig := mkSlackConfig {
  APIURL : option URL;
  APIURLFile : string;
  Channel : string;
  Username : string;
  Color : string;
  Title : string;
  TitleLink : string;
  Pretext : string;
  Text : string;
  MessageText : string;
  Fields : list SlackField;
  ShortFields : bool;
  Footer : string;
  Fallback : string;
  CallbackID : string;
  IconEmoji : string;
  IconURL : string;
  ImageURL : string;
  ThumbURL : string;
  LinkNames : bool;
  MrkdwnIn : list string;
  Actions : list SlackAction;
  UpdateMessage : bool;
}.

Record attachment := mkAttachment {
  t_Title : string;
  t_TitleLink : string;
  t_Pretext : string;
  t_Text : string;
  t_Fallback : string;
  t_CallbackID : string;
  t_Fields : list SlackField;
  t_Actions : list SlackAction;
  t_ImageURL : string;
  t_ThumbURL : string;
  t_Footer : string;
  t_Color : string;
  t_MrkdwnIn : list string;
}.

Record srequest := mkSRequest {
  q_Channel : string;
  Timestamp : string;
  q_Username : string;
  q_IconEmoji : string;
  q_IconURL : string;
  q_LinkNames : bool;
  q_Text : string;
  q_Attachments : list attachment;
}.

Record slackResponse := mkSlackResponse {
  OK : bool;
  Error : string;
  s_Channel : string;
  s_Timestamp : string;
}.

Context `{EN : Encoder srequest} (Unmarshal : string → result string slackResponse).

Definition render_field (tmplText : string → N srequest string) (short : bool) (f : SlackField) : N srequest SlackField :=
  a ← tmplText (f_Title f); b ← tmplText (f_Value f); mret (mkSlackField a b (Some (default short (f_Short f)))).

Definition render_action (tmplText : string → N srequest string) (a : SlackAction) : N srequest SlackAction :=
  ty ← tmplText (a_Type a); te ← tmplText (a_Text a); u ← tmplText (a_URL a); st ← tmplText (a_Style a);
  na ← tmplText (a_Name a); va ← tmplText (a_Value a);
  confirm ←
    match ConfirmField a with
    | Some k =>
        ti ← tmplText (k_Title k); tx ← tmplText (k_Text k); ok ← tmplText (OkText k); di ← tmplText (DismissText k);
        mret (Some (mkConfirm tx ti ok di))
    | None => mret None
    end;
  mret (mkSlackAction ty te u st na va confirm).

Definition render_attachment (conf : SlackConfig) (tmplText : string → N srequest string) : N srequest attachment :=
  let markdownIn := match MrkdwnIn conf with [] => ["fallback"; "pretext"; "text"]%string | m => m end in
  t ← tmplText (Title conf);
  title ← TruncateInRunes t 1024;
  titleLink ← tmplText (TitleLink conf); pretext ← tmplText (Pretext conf); text ← tmplText (Text conf);
  fallback ← tmplText (Fallback conf); callbackID ← tmplText (CallbackID conf);
  imageURL ← tmplText (ImageURL conf); thumbURL ← tmplText (ThumbURL conf);
  footer ← tmplText (Footer conf); color ← tmplText (Color conf);
  fields ← each (render_field tmplText (ShortFields conf)) (Fields conf);
  actions ← each (render_action tmplText) (Actions conf);
  mret (mkAttachment title titleLink pretext text fallback callbackID fields actions imageURL thumbURL footer color
          markdownIn).

(** The message with its address before a stored message is looked for. *)
Definition render_message (conf : SlackConfig) (data : Template.Data) : N srequest (string * srequest) :=
  let tmplText := TmplText data in
  att ← render_attachment conf tmplText;
  u ← webhook_url (APIURL conf) (APIURLFile conf);
  channel ← tmplText (Channel conf); username ← tmplText (Username conf);
  iconEmoji ← tmplText (IconEmoji conf); iconURL ← tmplText (IconURL conf); text ← tmplText (MessageText conf);
  mret (u, mkSRequest channel "" username iconEmoji iconURL (LinkNames conf) text [att]).

Definition update_url : string := "https://slack.com/api/chat.update".

(** A message of the group that was sent before is edited. *)
Definition recover (store : Nflog.Store) (u : string) (req : srequest) : string * srequest :=
  let threadTs := (Nflog.GetStr store "threadTs").1 in
  let channelId := (Nflog.GetStr store "channelId").1 in
  if negb (is_empty threadTs) && negb (is_empty channelId) then
    (update_url, mkSRequest channelId threadTs (q_Username req) (q_IconEmoji req) (q_IconURL req) (q_LinkNames req)
                   (q_Text req) (q_Attachments req))
  else (u, req).

Definition checkTextResponseError {A} (body : string) (a : A) : N srequest A :=
  if bool_decide (body = "ok"%string) then mret a else fail false (ResponseError body).

(** [slackResponseHandler]: the retry flag and the store afterwards. *)
Definition slackResponseHandler (resp : response) (store : option Nflog.Store)
    : N srequest (bool * option Nflog.Store) :=
  body ← lift true ResponseUnreadable (Body resp);
  if negb (Strings.HasPrefix (Notifier.ContentType resp) "application/json") then
    checkTextResponseError body (false, store)
  else
    data ← lift true ResponseUnreadable (Unmarshal body);
    if negb (OK data) then fail false (ResponseError (Error data)) else
    match store with
    | Some st =>
        if negb (is_empty (s_Timestamp data)) && negb (is_empty (s_Channel data)) then
          mret (false, Some (Nflog.SetStr (Nflog.SetStr st "threadTs" (s_Timestamp data)) "channelId" (s_Channel data)))
        else mret (false, store)
    | None => mret (false, None)
    end.

(** The wait before a rate-limited request is retried; it delays the return. *)
Definition parseRetryAfter (val : string) : duration :=
  match Strconv.Atoi val with
  | Some seconds => if seconds <=? 0 then 0 else wrap64 (seconds * second)
  | None => 0
  end.

Definition retrier : NotifyUtil.Retrier := NotifyUtil.mkRetrier [429].

(** [Notify].  The error variable that the templates set is not looked at before
    the message is posted. *)
Definition Notify (conf : SlackConfig) (c : Call) : N srequest (bool * option Nflog.Store) :=
  ExtractGroupKey (c_ctx c);;
  '(u, req) ← render_message conf (call_data c);
  let store := if UpdateMessage conf then Notify.NflogStore (c_ctx c) else None in
  let '(u, req) := match store with Some st => recover st u req | None => (u, req) end in
  encode req;;
  r ← PostJSON u req;
  resp ← lift true request_nerror r;
  check_status retrier read_body resp;;
  slackResponseHandler resp store.
End slack.
End Slack.
