(* ===== verification/Jira.v ===== *)
(** * Jira notifier (notify/jira/jira.go and types.go)

    An issue per alert group, found again by a label that holds the hash of the
    group key: it is created while an alert fires, updated, resolved with the
    group and reopened.  What a payload holds is its fields; the two JSON answers
    are decoded by parameters. *)

From Stdlib Require Import Ascii String.
From stdpp Require Import base gmap strings list sorting.
From S2P Require Import Prelude Utf8 Labels Silence Alert Nflog Notify NotifyUtil Strconv Api.
From S2P Require Import ConfigReceivers Template Notifier.

Import Notifier.

(** The parts of net/url and encoding/json the notifier calls. *)
Class JiraLib := {
  JoinPath : URL → string → string;
  u_Host : URL → string;
  json_Valid : string → bool;
}.

Module Jira.

(** [strings.Replace] of the first occurrence. *)
Fixpoint replace_first (s old new : string) : string :=
  if String.prefix old s then new +:+ String.substring (String.length old) (String.length s) s
  else match s with
       | EmptyString => EmptyString
       | String c s => String c (replace_first s old new)
       end.

Section jira.
Context `{RE : Regexp, PM : PromModel, FP : Fingerprinter, FS : FingerprintString, NL : NotifierLib, JL : JiraLib, UP : UnicodePrint}.

Record JiraFieldConfig := mkJiraFieldConfig { f_Template : string; EnableUpdate : option bool }.
Definition EnableUpdateValue (f : JiraFieldConfig) : bool := default true (EnableUpdate f).

Record JiraConfig := mkJiraConfig {
  APIURL : URL;
  APIType : string;
  Project : string;
  Summary : JiraFieldConfig;
  Description : JiraFieldConfig;
  j_Labels : list string;
  Priority : string;
  IssueType : string;
  ReopenTransition : string;
  ResolveTransition : string;
  WontFixResolution : string;
  ReopenDuration : duration;
  Fields : list (string * any);
}.

Inductive jiraDescription := StringDescription (s : string) | RawJSONDescription (s : string).

(** The fields a request sets. *)
Record issueFields := mkIssueFields {
  i_Description : option jiraDescription;
  i_Issuetype : string;
  i_Labels : list string;
  i_Priority : option string;
  i_Project : string;
  i_Summary : option string;
  i_Fields : list (string * any);
}.

(** An issue of an answer: its key and, if there is one, the key of the category
    of its status. *)
Record issue := mkIssue { Key : string; StatusCategory : option string }.
Record idNameValue := mkIdName { ID : string; Name : string }.

Inductive body :=
| IssueSearch (jql : string) (maxResults : Z) (fields : list string)
| IssueBody (fields : issueFields)
| Transition (id : string)
| NoBody.

Context `{EN : Encoder body} (yaml : string → option any)
        (Unmarshal_issues : string → result string (list issue))
        (Unmarshal_transitions : string → result string (list idNameValue)).

(** [alertLabel]. *)
Definition alert_label (groupID : string) : string := "ALERT{" +:+ groupID +:+ "}".

(** ** Requests *)
Definition retrier : NotifyUtil.Retrier := NotifyUtil.mkRetrier [429].

(** [doAPIRequestFullPath]: a request that fails in the network is not retried. *)
Definition doAPIRequestFullPath (method path : string) (b : body) : N body string :=
  match b with NoBody => mret () | _ => encode b;; mret () end;;
  r ← do_request (mkRequest method path [] [] b);
  resp ← lift false request_nerror r;
  responseBody ← lift false ResponseUnreadable (Body resp);
  check_status retrier read_body resp;;
  mret responseBody.

Definition doAPIRequest (conf : JiraConfig) (method path : string) (b : body) : N body string :=
  doAPIRequestFullPath method (JoinPath (APIURL conf) path) b.

Definition prepareSearchRequest (conf : JiraConfig) (jql : string) : body * string :=
  let requestBody := IssueSearch jql 2 ["status"%string] in
  let legacy := JoinPath (APIURL conf) "/search" in
  if bool_decide (APIType conf = "datacenter"%string) then (requestBody, legacy)
  else if bool_decide (APIType conf = "cloud"%string) ||
          bool_decide (APIType conf = "auto"%string) && Strings.HasSuffix (u_Host (APIURL conf)) "atlassian.net"
  then (requestBody, replace_first (JoinPath (APIURL conf) "/search/jql") "/rest/api/2/" "/rest/api/3/")
  else (requestBody, legacy).

(** The query up to the project. *)
Definition jql_prefix (conf : JiraConfig) (firing : bool) : string :=
  (if is_empty (WontFixResolution conf) then ""%string
   else "(resolution is EMPTY or resolution != " +:+ Quote (WontFixResolution conf) +:+ ") and ") +:+
  (let reopenDuration := Z.quot (ReopenDuration conf) minute in
   if firing && negb (is_empty (ReopenTransition conf)) && (0 <? reopenDuration)
   then "(resolutiondate is EMPTY OR resolutiondate >= -" +:+ Strconv.Itoa reopenDuration +:+ "m) and "
   else "statusCategory != Done and ").

Definition searchExistingIssue (conf : JiraConfig) (groupID : string) (firing : bool)
    (tmplTextFunc : string → N body string) : N body (option issue) :=
  project ← tmplTextFunc (Project conf);
  let jql := jql_prefix conf firing +:+ "project=" +:+ Quote project +:+ " and labels=" +:+
               Quote (alert_label groupID) +:+ " order by status ASC,resolutiondate DESC" in
  let '(requestBody, searchPath) := prepareSearchRequest conf jql in
  responseBody ← doAPIRequestFullPath "POST" searchPath requestBody;
  issues ← lift false ResponseError (Unmarshal_issues responseBody);
  mret (head issues).

(** ** The issue *)
Definition isAPIv3Path (path : string) : bool := Strings.HasSuffix (Strings.TrimRight path 47) "/3".

Definition prepare_description (conf : JiraConfig) (s : string) : N body (option jiraDescription) :=
  if isAPIv3Path (u_Path (APIURL conf)) then
    let s := Strings.TrimSpace s in
    if is_empty s then mret None
    else if json_Valid s then mret (Some (RawJSONDescription s))
    else fail false (OtherError "description template: invalid JSON for API v3")
  else if is_empty s then mret None else mret (Some (StringDescription s)).

Definition prepareIssueRequestBody (conf : JiraConfig) (groupID : string) (tmplTextFunc : string → N body string)
    : N body issueFields :=
  summary ← tmplTextFunc (f_Template (Summary conf));
  project ← tmplTextFunc (Project conf);
  issueType ← tmplTextFunc (IssueType conf);
  fields ← copy_entries yaml tmplTextFunc (Fields conf);
  summary ← TruncateInRunes summary 255;
  d ← tmplTextFunc (f_Template (Description conf));
  d ← TruncateInRunes d 32767;
  description ← prepare_description conf d;
  labels ← each tmplTextFunc (j_Labels conf);
  let labels := merge_sort Template.string_le (labels ++ [alert_label groupID]) in
  priority ← tmplTextFunc (Priority conf);
  mret (mkIssueFields description issueType labels (if is_empty priority then None else Some priority) project
          (Some summary) fields).

(** ** Transitions *)
Definition getIssueTransitionByName (conf : JiraConfig) (issueKey transitionName : string) : N body string :=
  responseBody ← doAPIRequest conf "GET" ("issue/" +:+ issueKey +:+ "/transitions") NoBody;
  ts ← lift false ResponseError (Unmarshal_transitions responseBody);
  match find (λ t, bool_decide (Name t = transitionName)) ts with
  | Some t => mret (ID t)
  | None => fail false (OtherError "can't find transition")
  end.

(** The transition the state of the issue calls for. *)
Definition wanted_transition (conf : JiraConfig) (category : string) (firing : bool) : string :=
  if firing then (if bool_decide (category = "done"%string) then ReopenTransition conf else "")
  else (if bool_decide (category = "done"%string) then "" else ResolveTransition conf).

Definition transitionIssue (conf : JiraConfig) (i : option issue) (firing : bool) : N body bool :=
  match i with
  | Some (mkIssue key (Some category)) =>
      if is_empty key then mret false else
      let transition := wanted_transition conf category firing in
      if is_empty transition then mret false else
      transitionID ← getIssueTransitionByName conf key transition;
      doAPIRequest conf "POST" ("issue/" +:+ key +:+ "/transitions") (Transition transitionID);;
      mret false
  | _ => mret false
  end.

(** ** Notify *)

(** An update leaves out the fields that are not to be updated. *)
Definition restrict_update (conf : JiraConfig) (f : issueFields) : issueFields :=
  mkIssueFields (if EnableUpdateValue (Description conf) then i_Description f else None) (i_Issuetype f) (i_Labels f)
    (i_Priority f) (i_Project f) (if EnableUpdateValue (Summary conf) then i_Summary f else None) (i_Fields f).

Definition Notify (conf : JiraConfig) (c : Call) : N body bool :=
  key ← ExtractGroupKey (c_ctx c);
  let f := tmplTextFunc (TmplText (call_data c)) in
  let groupID := sha256_hex key in
  existingIssue ← searchExistingIssue conf groupID (firing c) f;
  match existingIssue with
  | None =>
      if firing c then
        fields ← prepareIssueRequestBody conf groupID f;
        doAPIRequest conf "POST" "issue" (IssueBody fields);;
        transitionIssue conf None (firing c)
      else mret false
  | Some i =>
      fields ← prepareIssueRequestBody conf groupID f;
      doAPIRequest conf "PUT" ("issue/" +:+ Key i) (IssueBody (restrict_update conf fields));;
      transitionIssue conf (Some i) (firing c)
  end.
End jira.
End Jira.
