(* ===== verification/Incidentio.v ===== *)
(** * incident.io notifier (notify/incidentio/incidentio.go)

    The message of the webhook, reduced to one alert when it is too long. *)

From Stdlib Require Import Ascii String.
From stdpp Require Import base gmap strings list.
From S2P Require Import Prelude Utf8 Labels Silence Alert Nflog Notify NotifyUtil Strconv Api.
From S2P Require Import ConfigReceivers Template Notifier Webhook PagerDuty.

Module Incidentio.
Import Notifier.

Section incidentio.
Context `{RE : Regexp, PM : PromModel, FP : Fingerprinter, FS : FingerprintString, NL : NotifierLib, CL : ConfigLib}.

Record IncidentioConfig := mkIncidentioConfig {
  i_URL : option URL;
  URLFile : string;
  AlertSourceToken : string;
  AlertSourceTokenFile : string;
  MaxAlerts : Z;
}.

(** The message is the webhook's, with a version of its own; what is dropped from
    a long one are alerts of the data. *)
Record Message := mkMessage {
  m_Data : Template.Data;
  Version : string;
  m_GroupKey : string;
  TruncatedAlerts : Z;
}.
Context `{EN : Encoder Message} (decode_error : string → option (string * string * list string)).

Definition maxPayloadSize : Z := 524288.

(** [msg.Alerts[:1]]: of no alerts it panics. *)
Definition first_alert (d : Template.Data) : option Template.Data :=
  match Template.DAlerts d with
  | [] => None
  | a :: _ =>
      Some (Template.mkData (Template.Receiver d) (Template.DStatus d) [a] (Template.DNotificationReason d)
              (Template.GroupLabels d) (Template.CommonLabels d) (Template.CommonAnnotations d) (Template.RouteLabels d)
              (Template.ExternalURL d) (Template.routeLabelsRendered d))
  end.

Definition encodeMessage (msg : Message) : N Message Message :=
  buf ← encode msg;
  if Z.of_nat (String.length buf) <=? maxPayloadSize then mret msg
  else match first_alert (m_Data msg) with
       | None => fail false PanicError
       | Some d =>
           let msg := mkMessage d (Version msg) (m_GroupKey msg) (TruncatedAlerts msg) in
           encode msg;;
           mret msg
       end.

(** [errDetails]: message, error and errors of the JSON answer. *)
Definition errDetails (r : response) : string :=
  match Body r with
  | Err _ => ""
  | Ok b =>
      match decode_error b with
      | None => ""
      | Some (message, error, errors) =>
          PagerDuty.Join
            ((if is_empty message then [] else [message]) ++ (if is_empty error then [] else [error]) ++
             (match errors with [] => [] | _ => [PagerDuty.Join errors ", "] end)) ": "
      end
  end.

Definition retrier : NotifyUtil.Retrier := NotifyUtil.mkRetrier [429].

(** The credentials [New] puts into its copy of the HTTP configuration. *)
Definition New_token (conf : IncidentioConfig) : N Message string :=
  if is_empty (AlertSourceTokenFile conf) then mret (AlertSourceToken conf)
  else content ← ReadFile false (AlertSourceTokenFile conf); mret (Strings.TrimSpace content).

Definition Notify (conf : IncidentioConfig) (c : Call) : N Message bool :=
  let '(alerts, numTruncated) := Webhook.truncateAlerts (MaxAlerts conf) (c_alerts c) in
  let data := call_data (Webhook.with_alerts c alerts) in
  groupKey ← ExtractGroupKey (c_ctx c);
  buf ← encodeMessage (mkMessage data "1" groupKey numTruncated);
  url ← webhook_url (i_URL conf) (URLFile conf);
  post_and_check retrier errDetails url buf.
End incidentio.
End Incidentio.
