(* ===== verification/NotifierInv.v ===== *)
(** * A program logic for notifiers

    Two properties of a run are tracked: no visible request was sent yet
    ([quiet]), and no template failed ([clean]).  A notifier is [checked] if a
    failed template ends its run with an error before a visible request; its
    errors are [classified] if the retry flag is set exactly for failures that
    may pass. *)

From Stdlib Require Import Ascii String.
From stdpp Require Import base gmap strings list sorting.
From S2P Require Import Prelude Utf8 Labels Silence Alert Nflog Notify NotifyUtil Strconv Api.
From S2P Require Import ConfigReceivers Template Notifier Webhook PagerDuty OpsGenie VictorOps Discord Webex MSTeams.
From S2P Require Import MSTeamsV2 Pushover Rocketchat Mattermost Slack Jira.

Import Notifier.

Create HintDb notifier.

Section logic.
Context {P : Type} (visible : request P → bool).
Implicit Types w : world P.

Definition quiet w : Prop := Forall (λ r, visible r = false) (sent w).
Definition clean w : Prop := tmplErr w = None.

(** ** Triples: what holds after an early return is fixed. *)
Definition triple {A} (pre : world P → Prop) (m : N P A) (post : A → world P → Prop) : Prop :=
  ∀ e w, pre w →
    match m e w with
    | (w', Ok a) => post a w'
    | (w', Err _) => clean w' ∨ quiet w'
    end.

(** The assertions that are used: nothing visible was sent, no template failed,
    or both. *)
Inductive mode := MQuiet | MClean | MBoth.
Definition holds (m : mode) w : Prop :=
  match m with MQuiet => quiet w | MClean => clean w | MBoth => quiet w ∧ clean w end.

Definition keeps {A} (x : mode) (m : N P A) (y : mode) : Prop := triple (holds x) m (λ _, holds y).

(** The world is not changed. *)
Definition inert {A} (m : N P A) : Prop := ∀ e w, (m e w).1 = w.

Lemma holds_or x w : holds x w → clean w ∨ quiet w.
Proof. destruct x; cbn; tauto. Qed.

Lemma inert_keeps {A} x (m : N P A) : inert m → keeps x m x.
Proof.
  intros H e w Hx. specialize (H e w). destruct (m e w) as [w' [a|er]]; cbn in *; subst; [done|by eapply holds_or].
Qed.

Lemma keeps_bind {A B} x y z (m : N P A) (f : A → N P B) :
  keeps x m y → (∀ a, keeps y (f a) z) → keeps x (m ≫= f) z.
Proof.
  intros Hm Hf e w Hx. specialize (Hm e w Hx). unfold mbind, N_bind.
  destruct (m e w) as [w' [a|er]]; [by apply Hf|done].
Qed.

Lemma keeps_assoc {A B C} x z (m : N P A) (f : A → N P B) (g : B → N P C) :
  keeps x (a ← m; f a ≫= g) z → keeps x ((m ≫= f) ≫= g) z.
Proof.
  intros H e w Hx. specialize (H e w Hx). unfold mbind, N_bind in *. by destruct (m e w) as [w' [a|er]].
Qed.

Lemma keeps_inert {A B} x z (m : N P A) (f : A → N P B) :
  inert m → (∀ a, keeps x (f a) z) → keeps x (m ≫= f) z.
Proof. intros H. apply keeps_bind. by apply inert_keeps. Qed.

Lemma keeps_ret {A} x (a : A) : keeps x (mret a) x.
Proof. by apply inert_keeps. Qed.

Lemma keeps_weaken {A} x y (m : N P A) : keeps x m MBoth → y ≠ MBoth → keeps x m y.
Proof.
  intros H Hy e w Hx. specialize (H e w Hx). destruct (m e w) as [w' [a|er]]; [|done].
  destruct y; cbn in *; tauto.
Qed.

Lemma keeps_pre {A} x y (m : N P A) : keeps x m y → keeps MBoth m y.
Proof. intros H e w Hw. apply H. destruct x; cbn in *; tauto. Qed.

Lemma keeps_each {A B} x (f : A → N P B) l : (∀ a, keeps x (f a) x) → keeps x (each f l) x.
Proof.
  intros H. induction l as [|a l IH]; [apply keeps_ret|]. cbn [each].
  eapply keeps_bind; [apply H|]. intros b. eapply keeps_bind; [exact IH|]. intros bs. apply keeps_ret.
Qed.

(** ** The primitives *)
Lemma inert_ret {A} (a : A) : inert (mret a).
Proof. done. Qed.
Lemma inert_fail {A} b er : inert (fail (A := A) b er).
Proof. done. Qed.
Lemma inert_lift {A B} b (er : A → nerror) (r : result A B) : inert (lift b er r).
Proof. by destruct r. Qed.
Lemma inert_bind {A B} (m : N P A) (f : A → N P B) : inert m → (∀ a, inert (f a)) → inert (m ≫= f).
Proof.
  intros Hm Hf e w. specialize (Hm e w). unfold mbind, N_bind.
  destruct (m e w) as [w' [a|er]]; cbn in *; subst; [apply Hf|done].
Qed.
Lemma inert_ReadFile b path : inert (ReadFile (P := P) b path).
Proof. intros e w. unfold ReadFile. by destruct (e_file e path). Qed.
Lemma inert_ExtractGroupKey `{RE : Regexp} ctx : inert (ExtractGroupKey (P := P) ctx).
Proof. unfold ExtractGroupKey. by destruct (Notify.GroupKey ctx). Qed.
Lemma inert_TruncateInRunes s n : inert (TruncateInRunes (P := P) s n).
Proof. intros e w. unfold TruncateInRunes. by destruct (NotifyUtil.TruncateInRunes _ _ _) as [[]|]. Qed.
Lemma inert_TruncateInBytes s n : inert (TruncateInBytes (P := P) s n).
Proof. intros e w. unfold TruncateInBytes. by destruct (NotifyUtil.TruncateInBytes _ _ _) as [[]|]. Qed.
Lemma inert_check_with f r d resp : inert (check_with (P := P) f r d resp).
Proof. unfold check_with. destruct (NotifyUtil.Check _ _ _) as [b [m|]]; done. Qed.
Lemma inert_check_status r d resp : inert (check_status (P := P) r d resp).
Proof. apply inert_check_with. Qed.
Lemma inert_check_plain r d resp : inert (check_plain (P := P) r d resp).
Proof. apply inert_check_with. Qed.
Lemma inert_encode `{Encoder P} (p : P) : inert (encode p).
Proof. apply inert_lift. Qed.
Lemma inert_from_file b v path : inert (from_file (P := P) b v path).
Proof.
  unfold from_file. destruct (is_empty v); [|apply inert_ret].
  apply inert_bind; [apply inert_ReadFile|done].
Qed.

Lemma keeps_render exec s : keeps MQuiet (render (P := P) exec s) MQuiet.
Proof.
  intros e w Hw. unfold render. destruct (tmplErr w); [done|]. by destruct (exec s).
Qed.
Lemma keeps_TmplText `{NL : NotifierLib} d s : keeps MQuiet (TmplText (P := P) d s) MQuiet.
Proof. apply keeps_render. Qed.
Lemma keeps_TmplHTML `{NL : NotifierLib} d s : keeps MQuiet (TmplHTML (P := P) d s) MQuiet.
Proof. apply keeps_render. Qed.

Lemma keeps_check_tmpl b : keeps MQuiet (check_tmpl (P := P) b) MBoth.
Proof.
  intros e w Hw. unfold check_tmpl. destruct (tmplErr w) eqn:E; [by right|by split].
Qed.

(** A template whose error ends the run at once. *)
Lemma keeps_tmplTextFunc `{NL : NotifierLib} d s : keeps MBoth (tmplTextFunc (TmplText (P := P) d) s) MBoth.
Proof.
  apply (keeps_pre MQuiet). eapply keeps_bind; [apply keeps_TmplText|]. intros v.
  eapply keeps_bind; [apply keeps_check_tmpl|]. intros []. apply keeps_ret.
Qed.

Lemma keeps_do_request `{NL : NotifierLib} r : keeps MClean (do_request r) MClean.
Proof. intros e w Hw. unfold do_request. by destruct (NewRequest_ok _). Qed.

Lemma keeps_do_request_hidden `{NL : NotifierLib} r : visible r = false → keeps MBoth (do_request r) MBoth.
Proof.
  intros Hv e w [Hq Hc]. unfold do_request. destruct (NewRequest_ok _); [|done]. split; [|done].
  apply Forall_app. by repeat constructor.
Qed.

Lemma keeps_PostJSON `{NL : NotifierLib} url p : keeps MClean (PostJSON url p) MClean.
Proof. apply keeps_do_request. Qed.

Lemma keeps_post_and_check `{NL : NotifierLib} r d url p : keeps MClean (post_and_check r d url p) MClean.
Proof.
  eapply keeps_bind; [apply keeps_PostJSON|]. intros a. apply inert_keeps, inert_bind.
  - apply inert_lift.
  - intros b. apply inert_check_status.
Qed.

(** ** What a notifier promises *)

(** A failed template: no visible request, and an error. *)
Definition checked {A} (m : N P A) : Prop := ∀ e,
  let '(w, r) := m e start in
  tmplErr w ≠ None → Forall (λ q, visible q = false) (sent w) ∧ ∃ b er, r = Err (b, er).

Lemma keeps_checked {A} (m : N P A) : keeps MBoth m MClean → checked m.
Proof.
  intros H e. specialize (H e start). destruct (m e start) as [w r]. intros Hne.
  assert (Hs : holds MBoth start) by (split; [by apply Forall_nil|done]).
  specialize (H Hs). destruct r as [a|[b er]]; [done|]. destruct H as [H|H]; [done|]. eauto.
Qed.
End logic.

(** Failures that may pass: in the network, of the server, answers that cannot
    be read, and the codes of the retrier. *)
Definition transient (codes : list Z) (er : nerror) : Prop :=
  match er with
  | NetworkError _ | ResponseUnreadable _ => True
  | StatusError code _ _ => 500 ≤ code ≤ 599 ∨ code ∈ codes
  | _ => False
  end.

(** A URL that is refused is retried as well, although it does not change. *)
Definition retried (codes : list Z) (er : nerror) : Prop :=
  match er with InvalidURL => True | _ => transient codes er end.

Section errors.
Context {P : Type} (Q : bool → nerror → Prop).

(** Every error is returned with a flag that [Q] allows. *)
Definition errors {A} (m : N P A) : Prop := ∀ e w w' b er, m e w = (w', Err (b, er)) → Q b er.

Lemma errors_ret {A} (a : A) : errors (mret a).
Proof. by intros e w w' b er [=]. Qed.
Lemma errors_fail {A} b er : Q b er → errors (fail (A := A) b er).
Proof. intros H e w w' b' er' [= _ <- <-]. done. Qed.
Lemma errors_bind {A B} (m : N P A) (f : A → N P B) :
  errors m → (∀ a, errors (f a)) → errors (m ≫= f).
Proof.
  intros Hm Hf e w w' b er. unfold mbind, N_bind. destruct (m e w) as [w1 [a|[b1 er1]]] eqn:E.
  - apply Hf.
  - intros [= -> -> ->]. by eapply Hm.
Qed.
Lemma errors_each {A B} (f : A → N P B) l : (∀ a, errors (f a)) → errors (each f l).
Proof.
  intros H. induction l as [|a l IH]; [apply errors_ret|]. cbn [each].
  apply errors_bind; [done|]. intros b. apply errors_bind; [done|]. intros bs. apply errors_ret.
Qed.
Lemma errors_lift {A B} b (er : A → nerror) (r : result A B) :
  (∀ x, Q b (er x)) → errors (lift b er r).
Proof. intros H. destruct r; [apply errors_ret|by apply errors_fail]. Qed.
Lemma errors_ReadFile r path : (∀ x, Q r (FileError x)) → errors (ReadFile r path).
Proof. intros H e w w' b er. unfold ReadFile. destruct (e_file e path); intros [=]; simplify_eq. done. Qed.
Lemma errors_ExtractGroupKey `{RE : Regexp} ctx : Q false NoGroupKey → errors (ExtractGroupKey ctx).
Proof. intros H. unfold ExtractGroupKey. destruct (Notify.GroupKey ctx); [apply errors_ret|by apply errors_fail]. Qed.
Lemma errors_TruncateInRunes s n : Q false PanicError → errors (TruncateInRunes s n).
Proof.
  intros H e w w' b er. unfold TruncateInRunes. destruct (NotifyUtil.TruncateInRunes _ _ _) as [[]|]; intros [=].
  by simplify_eq.
Qed.
Lemma errors_TruncateInBytes s n : Q false PanicError → errors (TruncateInBytes s n).
Proof.
  intros H e w w' b er. unfold TruncateInBytes. destruct (NotifyUtil.TruncateInBytes _ _ _) as [[]|]; intros [=].
  by simplify_eq.
Qed.
Lemma errors_render exec s : errors (render exec s).
Proof.
  intros e w w' b er. unfold render. destruct (tmplErr w); [by intros [=]|]. destruct (exec s); by intros [=].
Qed.
Lemma errors_check_tmpl r : (∀ x, Q r (TemplateError x)) → errors (check_tmpl r).
Proof.
  intros H e w w' b er. unfold check_tmpl. destruct (tmplErr w); intros [=]. by simplify_eq.
Qed.
Lemma errors_do_request `{NL : NotifierLib} r : errors (do_request r).
Proof. intros e w w' b er. unfold do_request. destruct (NewRequest_ok _); by intros [=]. Qed.
Lemma errors_encode `{Encoder P} (p : P) : (∀ x, Q false (EncodeError x)) → errors (encode p).
Proof. apply errors_lift. Qed.
Lemma errors_check_with f r d resp :
  (∀ retry code msg rs, (retry = true ↔ 500 ≤ code ≤ 599 ∨ code ∈ NotifyUtil.RetryCodes r) →
     Q retry (StatusError code msg rs)) → errors (check_with f r d resp).
Proof.
  intros Hq. unfold check_with, NotifyUtil.Check. destruct (Z.quot (StatusCode resp) 100 =? 2) eqn:E2;
    [apply errors_ret|].
  apply errors_fail, Hq. rewrite orb_true_iff, Z.eqb_eq, bool_decide_eq_true.
  enough (Z.quot (StatusCode resp) 100 = 5 ↔ 500 ≤ StatusCode resp ≤ 599) by tauto.
  split; intros; Z.to_euclidean_division_equations; lia.
Qed.
Lemma errors_check_status r d resp :
  (∀ retry code msg rs, (retry = true ↔ 500 ≤ code ≤ 599 ∨ code ∈ NotifyUtil.RetryCodes r) →
     Q retry (StatusError code msg rs)) → errors (check_status r d resp).
Proof. apply errors_check_with. Qed.
Lemma errors_check_plain r d resp :
  (∀ retry code msg rs, (retry = true ↔ 500 ≤ code ≤ 599 ∨ code ∈ NotifyUtil.RetryCodes r) →
     Q retry (StatusError code msg rs)) → errors (check_plain r d resp).
Proof. apply errors_check_with. Qed.
End errors.

(** A retry is asked for exactly after the errors [R]. *)
Definition classified {P A} (R : nerror → Prop) (m : N P A) : Prop := errors (λ b er, b = true ↔ R er) m.

(** ** Copies of values

    A property of computations that is closed under [mret] and [mbind], and that
    the template function has, is one of the copy. *)
Section any_ind.
Context (Pr : any → Prop).
Hypothesis Hnil : Pr ANil.
Hypothesis Hstr : ∀ s, Pr (AStr s).
Hypothesis Hlist : ∀ l, Forall Pr l → Pr (AList l).
Hypothesis Hmap : ∀ es, Forall (λ x, Pr x.2) es → Pr (AMap es).
Hypothesis Hscalar : ∀ t, Pr (AScalar t).

Fixpoint any_nested_ind (v : any) : Pr v :=
  match v with
  | ANil => Hnil
  | AStr s => Hstr s
  | AList l =>
      Hlist l ((fix go l : Forall Pr l :=
        match l with
        | [] => ListDef.Forall_nil Pr
        | x :: l => ListDef.Forall_cons Pr x l (any_nested_ind x) (go l)
        end) l)
  | AMap es =>
      Hmap es ((fix go es : Forall (λ x, Pr x.2) es :=
        match es with
        | [] => ListDef.Forall_nil (λ x, Pr x.2)
        | (k, x) :: es => ListDef.Forall_cons (λ x, Pr x.2) (k, x) es (any_nested_ind x) (go es)
        end) es)
  | AScalar t => Hscalar t
  end.
End any_ind.

Section copy.
Context {P : Type} (Q : ∀ A, N P A → Prop).
Hypothesis Q_ret : ∀ A (a : A), Q A (mret a).
Hypothesis Q_bind : ∀ A B (m : N P A) (f : A → N P B), Q A m → (∀ a, Q B (f a)) → Q B (m ≫= f).
Context (yaml : string → option any) (f : string → N P string).
Hypothesis Q_f : ∀ s, Q string (f s).

Lemma copy_closed v : Q any (DeepCopyWithTemplate yaml f v).
Proof using Q_ret Q_bind Q_f.
  induction v as [|s|l Hl|es Hes|t] using any_nested_ind; cbn [DeepCopyWithTemplate]; auto.
  - apply Q_bind; [|auto]. induction Hl as [|x l Hx Hl IH]; auto.
  - apply Q_bind; [|auto]. generalize (@nil (option string * any)) as acc.
    induction Hes as [|[[k|] x] es Hx Hes IH]; auto.
Qed.

Lemma each_closed {A B} (g : A → N P B) l : (∀ a, Q B (g a)) → Q (list B) (each g l).
Proof using Q_ret Q_bind. intros H. induction l as [|x l IH]; cbn [each]; auto. Qed.

Lemma copy_entries_closed es : Q _ (copy_entries yaml f es).
Proof using Q_ret Q_bind Q_f. apply each_closed. intros x. apply Q_bind; [apply copy_closed|auto]. Qed.
End copy.

Lemma keeps_copy {P} visible x yaml (f : string → N P string) v :
  (∀ s, keeps visible x (f s) x) → keeps visible x (DeepCopyWithTemplate yaml f v) x.
Proof.
  intros Hf. apply (copy_closed (λ A m, keeps visible x m x)); [intros; apply keeps_ret|intros; by eapply keeps_bind|done].
Qed.
Lemma keeps_copy_entries {P} visible x yaml (f : string → N P string) es :
  (∀ s, keeps visible x (f s) x) → keeps visible x (copy_entries yaml f es) x.
Proof.
  intros Hf. apply (copy_entries_closed (λ A m, keeps visible x m x)); [intros; apply keeps_ret|intros; by eapply keeps_bind|done].
Qed.
Lemma errors_copy {P} Q yaml (f : string → N P string) v :
  (∀ s, errors Q (f s)) → errors Q (DeepCopyWithTemplate yaml f v).
Proof.
  intros Hf. apply (copy_closed (λ A m, errors Q m)); [intros; apply errors_ret|intros; by apply errors_bind|done].
Qed.
Lemma errors_copy_entries {P} Q yaml (f : string → N P string) es :
  (∀ s, errors Q (f s)) → errors Q (copy_entries yaml f es).
Proof.
  intros Hf. apply (copy_entries_closed (λ A m, errors Q m)); [intros; apply errors_ret|intros; by apply errors_bind|done].
Qed.

(** * Theorems about the notifiers

    Which notifiers stop at a failed template, how they classify failures, how a
    Slack message is updated and which requests the Jira notifier makes. *)
Import Notifier.

(** ** Automation *)

#[export] Hint Resolve inert_ret inert_fail inert_lift inert_ReadFile inert_ExtractGroupKey inert_TruncateInRunes
  inert_TruncateInBytes inert_check_status inert_check_plain inert_encode inert_from_file inert_bind : notifier.

(** A computation that does not change the world. *)
Ltac solve_inert := repeat case_match; eauto 12 with notifier nocore.

Ltac inert_all := repeat first [ solve [solve_inert] | apply inert_bind; [|intros ?] | case_match ].

(** One step of a notifier through its assertions. *)
Ltac keeps_cmd :=
  first
  [ apply keeps_TmplText | apply keeps_TmplHTML | apply keeps_check_tmpl | apply keeps_do_request
  | apply keeps_PostJSON | apply keeps_post_and_check
  | apply keeps_each; intros ?; solve [keeps_all] ]
with keeps_step :=
  lazymatch goal with
  | |- keeps _ _ (match ?x with _ => _ end) _ => destruct x
  | |- keeps _ _ (mbind _ (match ?x with _ => _ end)) _ => destruct x
  | |- keeps _ _ (mbind _ _) _ =>
      first
      [ eapply keeps_inert; [solve [solve_inert]|intros ?]
      | apply keeps_assoc
      | eapply keeps_bind; [keeps_cmd|intros ?]
      | apply (keeps_pre _ MQuiet); eapply keeps_bind; [keeps_cmd|intros ?]
      | apply (keeps_pre _ MClean); eapply keeps_bind; [keeps_cmd|intros ?] ]
  | |- keeps _ _ _ _ =>
      first
      [ apply inert_keeps; solve [solve_inert]
      | keeps_cmd
      | apply (keeps_pre _ MQuiet); apply inert_keeps; solve [solve_inert]
      | apply (keeps_pre _ MClean); apply inert_keeps; solve [solve_inert]
      | apply (keeps_pre _ MQuiet); keeps_cmd
      | apply (keeps_pre _ MClean); keeps_cmd ]
  end
with keeps_all := repeat keeps_step.

Section checked.
Context `{RE : Regexp, PM : PromModel, FP : Fingerprinter, FS : FingerprintString, NL : NotifierLib, CL : ConfigLib}.
Context (yaml : string → option any).

Abbreviation all_visible := (λ _, true).

(** The templates of a value, each checked at once. *)
Lemma keeps_tmplTextFunc_copy {P} (V : request P → bool) data v :
  keeps V MBoth (DeepCopyWithTemplate yaml (tmplTextFunc (TmplText data)) v) MBoth.
Proof. apply keeps_copy. intros s. apply keeps_tmplTextFunc. Qed.
Lemma keeps_tmplTextFunc_entries {P} (V : request P → bool) data es :
  keeps V MBoth (copy_entries yaml (tmplTextFunc (TmplText data)) es) MBoth.
Proof. apply keeps_copy_entries. intros s. apply keeps_tmplTextFunc. Qed.

Lemma webhook_checked `{Encoder Webhook.body} conf c : checked all_visible (Webhook.Notify yaml conf c).
Proof.
  apply keeps_checked. unfold Webhook.Notify, Webhook.renderPayload. keeps_all.
  eapply keeps_bind; [apply keeps_tmplTextFunc_copy|intros v]. keeps_all.
Qed.

Lemma pagerduty_checked `{Encoder PagerDuty.pagerDutyMessage} decode conf c :
  checked all_visible (PagerDuty.Notify yaml decode conf c).
Proof.
  apply keeps_checked. unfold PagerDuty.Notify, PagerDuty.notifyV1, PagerDuty.notifyV2, PagerDuty.encodeMessage.
  keeps_step. eapply keeps_bind; [apply keeps_tmplTextFunc_entries|intros details].
  unfold PagerDuty.render_image, PagerDuty.render_link. keeps_all.
Qed.

Lemma keeps_send_all {V : request OpsGenie.body → bool} rs : keeps V MClean (OpsGenie.send_all rs) MClean.
Proof. induction rs as [|r rs IH]; cbn [OpsGenie.send_all]; keeps_all. exact IH. Qed.

Lemma opsgenie_checked `{Encoder OpsGenie.body} conf c : checked all_visible (OpsGenie.Notify conf c).
Proof.
  apply keeps_checked. unfold OpsGenie.Notify, OpsGenie.createRequests, OpsGenie.create_requests, OpsGenie.new_request,
    OpsGenie.expand_responder.
  keeps_all; apply (keeps_pre _ MClean), keeps_send_all.
Qed.

Lemma victorops_checked `{Encoder (gmap string string)} conf c : checked all_visible (VictorOps.Notify conf c).
Proof. apply keeps_checked. unfold VictorOps.Notify, VictorOps.createVictorOpsPayload. keeps_all. Qed.

Lemma discord_checked `{Encoder Discord.webhook} ok conf c : checked all_visible (Discord.Notify ok conf c).
Proof. apply keeps_checked. unfold Discord.Notify, webhook_url. keeps_all. Qed.

Lemma msteams_checked `{Encoder MSTeams.teamsMessage} conf c : checked all_visible (MSTeams.Notify conf c).
Proof. apply keeps_checked. unfold MSTeams.Notify, webhook_url, tmpl_checked. keeps_all. Qed.

Lemma msteamsv2_checked `{Encoder MSTeamsV2.teamsMessage} conf c : checked all_visible (MSTeamsV2.Notify conf c).
Proof. apply keeps_checked. unfold MSTeamsV2.Notify, webhook_url, tmpl_checked. keeps_all. Qed.

Lemma pushover_checked conf c : checked all_visible (Pushover.Notify conf c).
Proof. apply keeps_checked. unfold Pushover.Notify, Pushover.secret. keeps_all. Qed.

Lemma rocketchat_checked `{Encoder Rocketchat.PostMessage} dec conf c :
  checked all_visible (Rocketchat.Notify dec conf c).
Proof.
  apply keeps_checked.
  unfold Rocketchat.Notify, Rocketchat.checkResponseError, Rocketchat.checkJSONResponseError, tmpl_checked.
  keeps_all.
Qed.

Lemma mattermost_checked `{UnicodeLower, Encoder Mattermost.mrequest} conf c :
  checked all_visible (Mattermost.Notify conf c).
Proof.
  apply keeps_checked.
  unfold Mattermost.Notify, Mattermost.createRequest, Mattermost.sanitizeRequest, Mattermost.render_own,
    Mattermost.render_attachment, Mattermost.render_fields, webhook_url.
  keeps_all.
Qed.
End checked.
