(* ===== verification/NotifierThm.v ===== *)
(** * Theorems about the Jira notifier

    Which requests one notification makes, and that the notifications of a group
    create one issue. *)

From Stdlib Require Import Ascii String.
From stdpp Require Import base gmap strings list sorting.
From S2P Require Import Prelude Utf8 Labels Silence Alert Nflog Notify NotifyUtil Strconv Api.
From S2P Require Import ConfigReceivers Template Notifier Webhook PagerDuty OpsGenie VictorOps Discord Webex MSTeams.
From S2P Require Import MSTeamsV2 Pushover Rocketchat Mattermost Slack Jira Incidentio NotifierInv.

Import Notifier Jira.

(** ** Runs that send nothing *)
Section still.
Context {P : Type}.

Definition still {A} (m : N P A) : Prop := ∀ e w, sent (m e w).1 = sent w.

Lemma still_inert {A} (m : N P A) : inert m → still m.
Proof. intros H e w. by rewrite H. Qed.
Lemma still_bind {A B} (m : N P A) (f : A → N P B) : still m → (∀ a, still (f a)) → still (m ≫= f).
Proof.
  intros Hm Hf e w. specialize (Hm e w). unfold mbind, N_bind. destruct (m e w) as [w' [a|er]]; cbn in *; [|done].
  by rewrite Hf.
Qed.
Lemma still_ret {A} (a : A) : still (mret a).
Proof. done. Qed.
Lemma still_each {A B} (f : A → N P B) l : (∀ a, still (f a)) → still (each f l).
Proof. apply (each_closed (λ A m, still m)); [intros; apply still_ret|]. intros. by apply still_bind. Qed.
Lemma still_check_tmpl b : still (check_tmpl (P := P) b).
Proof. intros e w. unfold check_tmpl. by destruct (tmplErr w). Qed.
Lemma still_tmplTextFunc `{NotifierLib} d s : still (tmplTextFunc (TmplText (P := P) d) s).
Proof.
  intros e w. unfold tmplTextFunc, TmplText, render, check_tmpl, mbind, N_bind, mret, N_ret.
  destruct (tmplErr w) eqn:E; cbn; rewrite ?E; cbn; [done|]. destruct (ExecuteText d s); cbn; by rewrite ?E.
Qed.
End still.

Lemma N_bind_run {P A B} (m : N P A) (f : A → N P B) e w :
  (m ≫= f) e w = match m e w with (w', Ok a) => f a e w' | (w', Err r) => (w', Err r) end.
Proof. done. Qed.

Lemma N_bind_ret {P A B} (a : A) (f : A → N P B) e w : (mret a ≫= f) e w = f a e w.
Proof. done. Qed.

Section jira.
Context `{RE : Regexp, PM : PromModel, FP : Fingerprinter, FS : FingerprintString, NL : NotifierLib, JL : JiraLib}.
Context `{UP : UnicodePrint, EN : Encoder body} (yaml : string → option any)
        (Unmarshal_issues : string → result string (list issue))
        (Unmarshal_transitions : string → result string (list idNameValue)).
Abbreviation Notify := (Jira.Notify yaml Unmarshal_issues Unmarshal_transitions).

(** Requests that change an issue. *)
Definition changes (r : request body) : bool :=
  match r_body r with IssueBody _ | Transition _ => true | _ => false end.

Definition api_request (method path : string) (b : body) : request body := mkRequest method path [] [] b.
Definition add_sent (w : world body) (r : request body) : world body := mkWorld (tmplErr w) (sent w ++ [r]).

(** The answer to a request was a success with this body. *)
Definition answered (e : env body) (h : list (request body)) (r : request body) (b : string) : Prop :=
  ∃ resp, e_net e h r = Ok resp ∧ Body resp = Ok b ∧ 200 ≤ StatusCode resp ≤ 299.

(** ** One request *)
Lemma api_spec e w method path b :
  let '(w', r) := doAPIRequestFullPath method path b e w in
  (w' = w ∨ w' = add_sent w (api_request method path b)) ∧
  match r with
  | Ok a => w' = add_sent w (api_request method path b) ∧ answered e (sent w) (api_request method path b) a
  | Err (retry, er) => retry = true → ∃ code m rs, er = StatusError code m rs ∧ (500 ≤ code ≤ 599 ∨ code = 429)
  end.
Proof.
  unfold doAPIRequestFullPath.
  assert (Henc : ∀ f : () → N body string,
    ((match b with NoBody => mret () | _ => encode b;; mret () end ≫= f) e w = f () e w) ∨
    ∃ x, (match b with NoBody => mret () | _ => encode b;; mret () end ≫= f) e w = (w, Err (false, EncodeError x))).
  { intros f. destruct b; try (by left); unfold encode, mbind, N_bind, mret, N_ret; cbn; destruct (Encode _); cbn;
      eauto. }
  match goal with |- context [(_ ≫= ?g) e w] => destruct (Henc g) as [->|[x ->]] end;
    [|split; [by left|done]].
  unfold do_request, mbind, N_bind, mret, N_ret. cbn.
  destruct (NewRequest_ok path); cbn; [|split; [by left|done]].
  destruct (e_net e (sent w) _) as [resp|er] eqn:En; cbn; [|split; [by right|done]].
  destruct (Body resp) as [bs|er] eqn:Eb; cbn; [|split; [by right|done]].
  pose proof (NotifyUtil.retrier_check retrier (StatusCode resp) (read_body resp)) as Hc.
  unfold check_status, check_with. destruct (NotifyUtil.Check _ _ _) as [rt [m|]]; cbn; (split; [by right|]).
  - intros ->. destruct Hc as [_ [Hc _]]. destruct Hc as [_ [Hc|Hc]]; [done| |]; eexists _, _, _; (split; [done|]).
    + by left.
    + right. by apply list_elem_of_singleton in Hc.
  - split; [done|]. exists resp. destruct Hc as [[Hc _] _]. auto.
Qed.

Lemma still_prepareIssueRequestBody conf g d :
  still (prepareIssueRequestBody yaml conf g (tmplTextFunc (TmplText d))).
Proof.
  unfold prepareIssueRequestBody, prepare_description.
  repeat first
    [ apply still_tmplTextFunc
    | apply (copy_entries_closed (λ A m, still m)); [intros; apply still_ret|intros; by apply still_bind|intros ?]
    | apply still_each; intros ?
    | apply still_inert; solve [solve_inert]
    | apply still_bind; [|intros ?] ].
Qed.

Lemma sent_add_sent w r : sent (add_sent w r) = sent w ++ [r].
Proof. done. Qed.

(** ** Templates and the issue *)
Lemma bind_Ok_run {A B} (m : N body A) (f : A → N body B) e w w' b :
  (m ≫= f) e w = (w', Ok b) → ∃ a w1, m e w = (w1, Ok a) ∧ f a e w1 = (w', Ok b).
Proof. rewrite N_bind_run. destruct (m e w) as [w1 [a|er]]; [|done]. eauto. Qed.

Lemma tmplTextFunc_Ok d s e (w w' : world body) v :
  tmplTextFunc (TmplText d) s e w = (w', Ok v) → ExecuteText d s = Ok v.
Proof.
  unfold tmplTextFunc, TmplText, render, check_tmpl, mbind, N_bind, mret, N_ret.
  destruct (tmplErr w) eqn:E; cbn; rewrite ?E; cbn; [done|].
  destruct (ExecuteText d s); cbn; rewrite ?E; [|done]. by intros [= _ ->].
Qed.

(** The fields of the issue of a group: its project and its label. *)
Definition issue_of (conf : JiraConfig) (groupID : string) (d : Template.Data) (f : issueFields) : Prop :=
  ExecuteText d (Project conf) = Ok (i_Project f) ∧ alert_label groupID ∈ i_Labels f.

Lemma prepareIssueRequestBody_Ok conf g d e w w' f :
  prepareIssueRequestBody yaml conf g (tmplTextFunc (TmplText d)) e w = (w', Ok f) → issue_of conf g d f.
Proof.
  unfold prepareIssueRequestBody. intros (s0 & w0 & _ & H)%bind_Ok_run.
  apply bind_Ok_run in H as (p & w1 & Hp%tmplTextFunc_Ok & H).
  do 7 apply bind_Ok_run in H as (? & ? & _ & H).
  apply bind_Ok_run in H as (? & ? & _ & H). injection H as _ <-. split; [done|]. cbn.
  rewrite merge_sort_Permutation. apply elem_of_app. right. by left.
Qed.

(** ** The search *)
Definition search_jql (conf : JiraConfig) (fire : bool) (project label : string) : string :=
  jql_prefix conf fire +:+ "project=" +:+ Quote project +:+ " and labels=" +:+ Quote label +:+
    " order by status ASC,resolutiondate DESC".
Definition search_request (conf : JiraConfig) (fire : bool) (project label : string) : request body :=
  let jql := search_jql conf fire project label in
  api_request "POST" (prepareSearchRequest conf jql).2 (IssueSearch jql 2 ["status"%string]).

(** The search of a run, and what it found. *)
Definition searched (e : env body) (h : list (request body)) (q : request body) (found : option issue) : Prop :=
  ∃ b l, answered e h q b ∧ Unmarshal_issues b = Ok l ∧ found = head l.

Lemma prepareSearchRequest_body conf jql : (prepareSearchRequest conf jql).1 = IssueSearch jql 2 ["status"%string].
Proof. unfold prepareSearchRequest. by repeat case_match. Qed.

Lemma search_spec conf g fire d e w :
  let '(w', r) := searchExistingIssue Unmarshal_issues conf g fire (tmplTextFunc (TmplText d)) e w in
  (sent w' = sent w ∨ ∃ p, sent w' = sent w ++ [search_request conf fire p (alert_label g)]) ∧
  ∀ found, r = Ok found → ∃ p, ExecuteText d (Project conf) = Ok p ∧
    sent w' = sent w ++ [search_request conf fire p (alert_label g)] ∧
    searched e (sent w) (search_request conf fire p (alert_label g)) found.
Proof.
  unfold searchExistingIssue. unfold mbind at 1, N_bind at 1.
  pose proof (still_tmplTextFunc d (Project conf) e w) as Hs.
  pose proof (tmplTextFunc_Ok d (Project conf) e w) as Hex.
  destruct (tmplTextFunc _ _ e w) as [w1 [project|er]]; cbn in Hs; [|split; [by left|done]].
  specialize (Hex w1 project eq_refl).
  change (jql_prefix conf fire +:+ _)%string with (search_jql conf fire project (alert_label g)).
  remember (search_request conf fire project (alert_label g)) as q eqn:Hq0.
  pose proof (prepareSearchRequest_body conf (search_jql conf fire project (alert_label g))) as Hb.
  assert (Hq : q = api_request "POST" (prepareSearchRequest conf (search_jql conf fire project (alert_label g))).2
    (IssueSearch (search_jql conf fire project (alert_label g)) 2 ["status"%string])) by (by rewrite Hq0).
  destruct (prepareSearchRequest conf _) as [b path].
  cbn in Hb, Hq. subst b. unfold mbind at 1, N_bind at 1.
  pose proof (api_spec e w1 "POST" path (IssueSearch (search_jql conf fire project (alert_label g)) 2 ["status"%string])) as Ha.
  rewrite <- Hq in Ha. clear Hq.
  destruct (doAPIRequestFullPath _ _ _ e w1) as [w2 [bd|er]]; destruct Ha as [Hw Ha].
  - destruct Ha as [-> Ha]. unfold mbind, N_bind, mret, N_ret, lift, fail.
    assert (Hsent : sent (add_sent w1 q) = sent w ++ [q]) by (cbn; by rewrite Hs).
    destruct (Unmarshal_issues bd) as [l|er] eqn:El; cbn -[add_sent]; rewrite Hsent;
      (split; [right; exists project; by rewrite <- Hq0|]); [|done].
    intros found [= <-]. exists project. rewrite Hs in Ha. rewrite <- Hq0. split_and!; [done..|]. by exists bd, l.
  - cbn. split; [|done]. destruct Hw as [->| ->]; [by left|right]. exists project. cbn. by rewrite Hs, Hq0.
Qed.

(** ** Transitions *)

(** The requests of a transition: the list of transitions, then the transition. *)
Definition transition_requests (conf : JiraConfig) (key : string) (l : list (request body)) : Prop :=
  let path := JoinPath (APIURL conf) ("issue/" +:+ key +:+ "/transitions") in
  let get := api_request "GET" path NoBody in
  l = [] ∨ l = [get] ∨ ∃ id, l = [get; api_request "POST" path (Transition id)].

Lemma run_transition_spec conf key transition e w :
  ∃ l, sent ((transitionID ← getIssueTransitionByName Unmarshal_transitions conf key transition;
              doAPIRequest conf "POST" ("issue/" +:+ key +:+ "/transitions") (Transition transitionID);;
              mret false : N body bool) e w).1 = sent w ++ l ∧ transition_requests conf key l.
Proof.
  unfold getIssueTransitionByName, doAPIRequest, transition_requests, mbind, N_bind, mret, N_ret.
  set (path := JoinPath _ _).
  pose proof (api_spec e w "GET" path NoBody) as Ha.
  destruct (doAPIRequestFullPath _ _ _ e w) as [w1 [bd|er]]; destruct Ha as [Hw Ha].
  - destruct Ha as [-> _].
    destruct (Unmarshal_transitions bd) as [ts|er]; cbn -[doAPIRequestFullPath]; [|eexists; split; [done|by right; left]].
    destruct (find _ ts) as [t|]; cbn -[doAPIRequestFullPath]; [|eexists; split; [done|by right; left]].
    match goal with |- context [doAPIRequestFullPath "POST" ?p ?b e ?w'] =>
      pose proof (api_spec e w' "POST" p b) as Hp; destruct (doAPIRequestFullPath "POST" p b e w') as [w2 r2] end.
    destruct Hp as [[->| ->] _]; destruct r2; cbn; rewrite <- ?app_assoc;
      (eexists; split; [done|]); eauto.
  - cbn. destruct Hw as [->| ->]; [exists []; rewrite app_nil_r; auto|]. eexists; split; [done|by right; left].
Qed.

Lemma transition_spec conf i fire e w :
  ∃ l, sent (transitionIssue Unmarshal_transitions conf i fire e w).1 = sent w ++ l ∧
    (l = [] ∨ ∃ key category, i = Some (mkIssue key (Some category)) ∧
       wanted_transition conf category fire ≠ ""%string ∧ transition_requests conf key l).
Proof.
  unfold transitionIssue. destruct i as [[key [category|]]|];
    [|exists []; rewrite app_nil_r; by auto..].
  destruct (is_empty key); [exists []; rewrite app_nil_r; by auto|].
  destruct (is_empty _) eqn:Ew; [exists []; rewrite app_nil_r; by auto|]. apply bool_decide_eq_false in Ew.
  destruct (run_transition_spec conf key (wanted_transition conf category fire) e w) as (l & Hl & Ht).
  exists l. split; [exact Hl|]. right. eauto.
Qed.

(** ** One notification *)

(** The requests of a notification after the search: an issue is created while an
    alert fires and none was found, or the one that was found is updated and, if
    its state calls for it, moved.  Either way the issue is given the project that
    was searched and the label of the group. *)
Definition issue_requests (conf : JiraConfig) (fire : bool) (project label : string) (found : option issue)
    (l : list (request body)) : Prop :=
  l = [] ∨ ∃ f tail, i_Project f = project ∧ label ∈ i_Labels f ∧
    match found with
    | None => fire = true ∧ l = [api_request "POST" (JoinPath (APIURL conf) "issue") (IssueBody f)] ∧ tail = []
    | Some i =>
        l = api_request "PUT" (JoinPath (APIURL conf) ("issue/" +:+ Key i)) (IssueBody (restrict_update conf f)) :: tail ∧
        (tail = [] ∨ ∃ category, StatusCategory i = Some category ∧
           wanted_transition conf category fire ≠ ""%string ∧ transition_requests conf (Key i) tail)
    end.

(** The body, the request and the transition. *)
Lemma write_spec conf g d method path mk i fire e w :
  ∃ l, sent ((fields ← prepareIssueRequestBody yaml conf g (tmplTextFunc (TmplText d));
     doAPIRequest conf method path (IssueBody (mk fields));;
     transitionIssue Unmarshal_transitions conf i fire) e w).1 = sent w ++ l ∧
    (l = [] ∨ ∃ f tail, issue_of conf g d f ∧
       l = api_request method (JoinPath (APIURL conf) path) (IssueBody (mk f)) :: tail ∧
       (tail = [] ∨ ∃ key category, i = Some (mkIssue key (Some category)) ∧
          wanted_transition conf category fire ≠ ""%string ∧ transition_requests conf key tail)).
Proof.
  unfold mbind at 1, N_bind at 1.
  pose proof (still_prepareIssueRequestBody conf g d e w) as Hs.
  pose proof (prepareIssueRequestBody_Ok conf g d e w) as Hf.
  destruct (prepareIssueRequestBody _ _ _ _ e w) as [w1 [f|er]]; cbn in Hs;
    [|exists []; cbn; rewrite app_nil_r; by auto].
  specialize (Hf w1 f eq_refl). unfold mbind at 1, N_bind at 1, doAPIRequest.
  pose proof (api_spec e w1 method (JoinPath (APIURL conf) path) (IssueBody (mk f))) as Ha.
  destruct (doAPIRequestFullPath _ _ _ e w1) as [w2 [bd|er]]; destruct Ha as [Hw Ha].
  - destruct Ha as [-> _].
    destruct (transition_spec conf i fire e (add_sent w1 (api_request method (JoinPath (APIURL conf) path)
      (IssueBody (mk f))))) as (tail & Ht & Htail).
    eexists. split; [rewrite Ht; cbn; by rewrite Hs, <- app_assoc|]. right. exists f, tail.
    split_and!; [done..|exact Htail].
  - cbn. destruct Hw as [->| ->]; [exists []; rewrite app_nil_r; by auto|]. eexists. cbn. rewrite Hs. split; [done|].
    right. exists f, []. auto.
Qed.

(** What one notification asks of Jira: at most one request that changes
    nothing, or a search for the issue of the group, followed by what the state
    of the group and the issue it found call for. *)
Theorem jira_requests_exact conf c e w :
  let w' := (Notify conf c e w).1 in
  (∃ l, sent w' = sent w ++ l ∧ Forall (λ q, changes q = false) l ∧ (length l ≤ 1)%nat) ∨
  ∃ key p found l, Notify.GroupKey (c_ctx c) = Some key ∧
    let label := alert_label (sha256_hex key) in let q := search_request conf (firing c) p label in
    sent w' = sent w ++ q :: l ∧ searched e (sent w) q found ∧ issue_requests conf (firing c) p label found l.
Proof.
  cbn zeta. unfold Jira.Notify. unfold ExtractGroupKey.
  destruct (Notify.GroupKey (c_ctx c)) as [key|]; [|left; exists []; cbn; rewrite app_nil_r; by auto with arith].
  rewrite N_bind_ret.
  set (d := call_data c). rewrite N_bind_run.
  pose proof (search_spec conf (sha256_hex key) (firing c) d e w) as Hs.
  destruct (searchExistingIssue _ _ _ _ _ e w) as [w1 [found|er]]; destruct Hs as [Hs Hf].
  - edestruct Hf as (p & Hp & Hq & Hsr); [reflexivity|]. right. exists key, p, found.
    assert (Hof : ∀ f, issue_of conf (sha256_hex key) d f →
      i_Project f = p ∧ alert_label (sha256_hex key) ∈ i_Labels f).
    { intros f [Hpf ?]. split; [congruence|done]. }
    destruct found as [i|].
    + destruct (write_spec conf (sha256_hex key) d "PUT" ("issue/" +:+ Key i) (restrict_update conf) (Some i)
        (firing c) e w1) as (l & Hl & Hcase).
      exists l. split; [done|].
      split; [etrans; [exact Hl|]; rewrite Hq, <- app_assoc; done|]. split; [done|].
      destruct Hcase as [->|(f & tail & [Hf1 Hf2]%Hof & -> & Ht)]; [by left|].
      right. exists f, tail. split_and!; [done..|]. destruct Ht as [->|(k & cat & [= ->] & Hw & Ht)]; [by left|].
      right. exists cat. auto.
    + destruct (firing c) eqn:Ef.
      * destruct (write_spec conf (sha256_hex key) d "POST" "issue" id None true e w1) as (l & Hl & Hcase).
        exists l. split; [done|].
        split; [etrans; [exact Hl|]; rewrite Hq, <- app_assoc; done|]. split; [done|].
        destruct Hcase as [->|(f & tail & [Hf1 Hf2]%Hof & -> & Ht)]; [by left|].
        right. exists f, tail. destruct Ht as [->|(k & cat & [=] & _)]. done.
      * exists []. split; [done|]. split; [exact Hq|]. split; [done|]. by left.
  - left. destruct Hs as [Hs|(p & Hq)].
    + exists []. rewrite app_nil_r. cbn. rewrite Hs. by auto with arith.
    + eexists [_]. split; [exact Hq|]. split; [|done]. by repeat constructor.
Qed.

(** ** The notifications of a group *)

(** A request for an issue that was accepted. *)
Definition is_create (q : request body) : bool :=
  match r_body q with IssueBody _ => bool_decide (r_method q = "POST"%string) | _ => false end.
Definition created (e : env body) (h : list (request body)) (q : request body) : bool :=
  is_create q &&
  match e_net e h q with Ok resp => (200 <=? StatusCode resp) && (StatusCode resp <=? 299) | Err _ => false end.

(** A request that may take an issue of the project with the label out of the
    results of the search: a transition, or an update without the one or the
    other. *)
Definition disturbs (project label : string) (q : request body) : Prop :=
  match r_body q with
  | Transition _ => True
  | IssueBody f => is_create q = false ∧ (i_Project f ≠ project ∨ label ∉ i_Labels f)
  | _ => False
  end.
#[local] Instance disturbs_dec project label q : Decision (disturbs project label q).
Proof. unfold disturbs. destruct (r_body q); apply _. Defined.

(** An issue of the project with the label was created, and not disturbed since. *)
Definition open_issue (conf : JiraConfig) (e : env body) (h : list (request body)) (project label : string) : Prop :=
  ∃ h1 q f h2, h = h1 ++ q :: h2 ∧ created e h1 q = true ∧ r_url q = JoinPath (APIURL conf) "issue" ∧
    r_body q = IssueBody f ∧ i_Project f = project ∧ label ∈ i_Labels f ∧
    Forall (λ q, ¬ disturbs project label q) h2.

(** A Jira whose search finds issues: one that is open, in the project and with
    the label of the query. *)
Definition finds_open (conf : JiraConfig) (e : env body) : Prop := ∀ h fire project label b,
  open_issue conf e h project label → answered e h (search_request conf fire project label) b →
  ∃ i l, Unmarshal_issues b = Ok (i :: l).

(** Notifications one after the other; every one has its own error variable. *)
Fixpoint notify_all (conf : JiraConfig) (calls : list Call) (e : env body) (w : world body) : world body :=
  match calls with
  | [] => w
  | c :: calls => notify_all conf calls e (mkWorld None (sent (Notify conf c e w).1))
  end.

(** What holds of a history: issues are created at the right place, written with
    the label, and between two creations in one project there is a transition or
    a move. *)
Record history_ok (conf : JiraConfig) (label : string) (e : env body) (h : list (request body)) : Prop := {
  ho_label : ∀ q f, q ∈ h → r_body q = IssueBody f → label ∈ i_Labels f ∧
    (is_create q = true → r_url q = JoinPath (APIURL conf) "issue");
  ho_once : ∀ h1 q1 f1 h2 q2 f2 h3, h = h1 ++ q1 :: h2 ++ q2 :: h3 →
    created e h1 q1 = true → created e (h1 ++ q1 :: h2) q2 = true →
    r_body q1 = IssueBody f1 → r_body q2 = IssueBody f2 → i_Project f1 = i_Project f2 →
    ∃ q, q ∈ h2 ∧ disturbs (i_Project f1) label q;
}.

Lemma history_ok_snoc conf label e h q :
  history_ok conf label e h →
  (∀ f, r_body q = IssueBody f → label ∈ i_Labels f) →
  (is_create q = true → r_url q = JoinPath (APIURL conf) "issue") →
  (∀ h1 q1 f1 h2 f2, h = h1 ++ q1 :: h2 → created e h1 q1 = true → created e h q = true →
     r_body q1 = IssueBody f1 → r_body q = IssueBody f2 → i_Project f1 = i_Project f2 →
     ∃ q', q' ∈ h2 ∧ disturbs (i_Project f1) label q') →
  history_ok conf label e (h ++ [q]).
Proof.
  intros [Hl Ho] Hb Hu Hlast. split.
  - intros q' f [Hin|Hin%list_elem_of_singleton]%elem_of_app Hf; [by apply Hl|]. subst q'. split; [by apply Hb|done].
  - intros h1 q1 f1 h2 q2 f2 h3 E. destruct h3 as [|x h3 _] using rev_ind.
    + change (q1 :: h2 ++ [q2]) with ((q1 :: h2) ++ [q2]) in E. rewrite app_assoc in E. apply app_inj_tail in E as [-> ->]. intros. by eapply Hlast.
    + assert (E' : h ++ [q] = (h1 ++ q1 :: h2 ++ q2 :: h3) ++ [x]) by (rewrite E; by rewrite <- !app_assoc, <- !app_comm_cons, <- !app_assoc).
      apply app_inj_tail in E' as [-> ->]. by apply (Ho h1 q1 f1 h2 q2 f2 h3).
Qed.

(** A request that creates nothing may follow. *)
Lemma history_ok_other conf label e h q :
  history_ok conf label e h → (∀ f, r_body q = IssueBody f → label ∈ i_Labels f) → is_create q = false →
  history_ok conf label e (h ++ [q]).
Proof.
  intros Hh Hb Hc. apply history_ok_snoc; [done..|congruence|]. intros *. intros _ _ Hcr. unfold created in Hcr.
  by rewrite Hc in Hcr.
Qed.

Lemma history_ok_app conf label e l : ∀ h,
  history_ok conf label e h →
  Forall (λ q, (∀ f, r_body q = IssueBody f → label ∈ i_Labels f) ∧ is_create q = false) l →
  history_ok conf label e (h ++ l).
Proof.
  induction l as [|q l IH]; intros h Hh Hl; [by rewrite app_nil_r|]. apply Forall_cons in Hl as [[? ?] Hl].
  change (q :: l) with ([q] ++ l). rewrite app_assoc. apply IH; [|done]. by apply history_ok_other.
Qed.

(** The issue that a search has missed may be created. *)
Lemma history_ok_create conf fire p label e h b f :
  finds_open conf e → history_ok conf label e h →
  answered e h (search_request conf fire p label) b → Unmarshal_issues b = Ok [] →
  i_Project f = p → label ∈ i_Labels f →
  history_ok conf label e
    ((h ++ [search_request conf fire p label]) ++ [api_request "POST" (JoinPath (APIURL conf) "issue") (IssueBody f)]).
Proof.
  intros Hfind Hh Ha Hb Hp Hl. apply history_ok_snoc; [by apply history_ok_other|by intros ? [= <-]|done|].
  intros h1 q1 f1 h2 f2 E H1 _ Hb1 [= <-] Hpr. rewrite Hp in Hpr. rewrite Hpr.
  destruct h2 as [|s h2 _] using rev_ind.
  { apply app_inj_tail in E as [-> <-]. by cbn in Hb1. }
  change (q1 :: h2 ++ [s]) with ((q1 :: h2) ++ [s]) in E. rewrite app_assoc in E. apply app_inj_tail in E as [-> <-].
  destruct (decide (Exists (disturbs p label) h2)) as [(q & Hq & Hd)%Exists_exists|Hn].
  { exists q. split; [|done]. apply elem_of_app. by left. }
  exfalso. destruct (ho_label _ _ _ _ Hh q1 f1) as [Hl1 Hu1]; [apply elem_of_app; right; by left|done|].
  assert (Hc : is_create q1 = true) by (unfold created in H1; by apply andb_true_iff in H1 as [? _]).
  destruct (Hfind (h1 ++ q1 :: h2) fire p label b) as (i & li & Hi); [|done|congruence].
  exists h1, q1, f1, h2. split_and!; [done..|by apply Hu1|done|done|done|].
  apply Forall_forall. intros q Hq Hd. apply Hn, Exists_exists. eauto.
Qed.

Lemma notify_history conf c e w key :
  finds_open conf e → Notify.GroupKey (c_ctx c) = Some key →
  let label := alert_label (sha256_hex key) in
  history_ok conf label e (sent w) → history_ok conf label e (sent (Notify conf c e w).1).
Proof.
  intros Hfind Hkey label Hw. pose proof (jira_requests_exact conf c e w) as H. cbn zeta in H.
  destruct H as [(l & -> & Hch & _)|(key' & p & found & l & Hk & -> & (b & li & Ha & Hb & ->) & Hir)].
  { apply history_ok_app; [done|]. eapply Forall_impl; [exact Hch|]. intros q. unfold changes, is_create.
    destruct (r_body q); naive_solver. }
  rewrite Hkey in Hk. injection Hk as <-. fold label in Ha, Hir |- *. rewrite (cons_middle _ (sent w) l), app_assoc.
  assert (Hs : history_ok conf label e (sent w ++ [search_request conf (firing c) p label])).
  { by apply history_ok_other. }
  destruct Hir as [->|(f & tail & Hp & Hl & Hcase)]; [by rewrite app_nil_r|].
  destruct li as [|i li]; cbn [head] in Hcase.
  - destruct Hcase as (_ & -> & _). by eapply history_ok_create.
  - destruct Hcase as [-> Ht]. apply history_ok_app; [done|]. constructor; [split; [by intros ? [= <-]|done]|].
    destruct Ht as [->|(cat & _ & _ & [->|[->|[id ->]]])]; by repeat constructor.
Qed.

End jira.

(** * What all notifiers promise

    A notifier whose template failed has sent nothing, a notifier asks for a retry
    exactly when the failure may pass, and Slack edits the message of a group. *)
Import Notifier.

(** ** Automation *)
Ltac flag_ok := intros; repeat match goal with x : request_error |- _ => destruct x end; done.
Ltac cls_step :=
  match goal with
  | |- errors _ (match ?x with _ => _ end) => destruct x
  | |- errors _ (mbind _ _) => apply errors_bind; [|intros ?]
  | |- errors _ (each _ _) => apply errors_each; intros ?
  | |- errors _ (tmplTextFunc _ _) => unfold tmplTextFunc
  | |- errors _ (copy_entries _ _ _) => apply errors_copy_entries; intros ?
  | |- errors _ (DeepCopyWithTemplate _ _ _) => apply errors_copy; intros ?
  | |- errors _ (check_status _ _ _) => apply errors_check_status; flag_ok
  | |- errors _ (post_and_check _ _ _ _) => unfold post_and_check
  | |- errors _ (PostJSON _ _) => unfold PostJSON
  | |- errors _ (from_file _ _ _) => unfold from_file
  | |- errors _ (webhook_url _ _) => unfold webhook_url
  | |- errors _ (tmpl_checked _ _) => unfold tmpl_checked
  | |- errors _ (TmplText _ _) => apply errors_render
  | |- errors _ (TmplHTML _ _) => apply errors_render
  | |- errors _ (lift _ _ _) => apply errors_lift; flag_ok
  | |- errors _ (fail _ _) => apply errors_fail; flag_ok
  | |- errors _ (mret _) => apply errors_ret
  | |- errors _ (ReadFile _ _) => apply errors_ReadFile; flag_ok
  | |- errors _ (ExtractGroupKey _) => apply errors_ExtractGroupKey; flag_ok
  | |- errors _ (TruncateInRunes _ _) => apply errors_TruncateInRunes; flag_ok
  | |- errors _ (TruncateInBytes _ _) => apply errors_TruncateInBytes; flag_ok
  | |- errors _ (check_tmpl _) => apply errors_check_tmpl; flag_ok
  | |- errors _ (do_request _) => apply errors_do_request
  | |- errors _ (encode _) => apply errors_encode; flag_ok
  end.
Ltac cls_all := unfold classified; repeat cls_step.

Section thm.
Context `{RE : Regexp, PM : PromModel, FP : Fingerprinter, FS : FingerprintString, NL : NotifierLib, CL : ConfigLib}.
Context `{JL : JiraLib, UP : UnicodePrint, UL : UnicodeLower}.
Context `{Encoder Webhook.body, Encoder PagerDuty.pagerDutyMessage, Encoder OpsGenie.body,
          Encoder (gmap string string), Encoder Discord.webhook, Encoder Webex.webhook, Encoder MSTeams.teamsMessage,
          Encoder MSTeamsV2.teamsMessage, Encoder Rocketchat.PostMessage, Encoder Mattermost.mrequest,
          Encoder Slack.srequest, Encoder Jira.body, Encoder Incidentio.Message}.
Context (yaml : string → option any) (decode_pgr : string → option (string * list string)).
Context (Parse_ok : string → bool) (dec_rocket : string → result string (bool * string)).
Context (dec_slack : string → result string Slack.slackResponse).
Context (dec_incidentio : string → option (string * string * list string)).
Context (dec_issues : string → result string (list Jira.issue)).
Context (dec_transitions : string → result string (list Jira.idNameValue)).

(** ** Jira and failed templates *)
Lemma keeps_api_hidden method path b : changes (api_request method path b) = false →
  keeps changes MBoth (Jira.doAPIRequestFullPath method path b) MBoth.
Proof.
  intros Hv. unfold Jira.doAPIRequestFullPath.
  eapply keeps_inert; [destruct b; solve [solve_inert]|intros []].
  eapply keeps_bind; [by apply keeps_do_request_hidden|intros r]. apply inert_keeps. solve_inert.
Qed.
Lemma keeps_api method path b : keeps changes MClean (Jira.doAPIRequestFullPath method path b) MClean.
Proof.
  unfold Jira.doAPIRequestFullPath. eapply keeps_inert; [destruct b; solve [solve_inert]|intros []]. keeps_all.
Qed.

Lemma keeps_search conf g f d :
  keeps changes MBoth (Jira.searchExistingIssue dec_issues conf g f (tmplTextFunc (TmplText d))) MBoth.
Proof.
  unfold Jira.searchExistingIssue. eapply keeps_bind; [apply keeps_tmplTextFunc|intros project].
  set (jql := (_ +:+ _)%string). clearbody jql. pose proof (prepareSearchRequest_body conf jql) as Hb.
  destruct (Jira.prepareSearchRequest conf jql) as [b path]. cbn in Hb. subst b.
  eapply keeps_bind; [by apply keeps_api_hidden|intros a]. apply inert_keeps. solve_inert.
Qed.

Lemma keeps_prepare conf g d :
  keeps changes MBoth (Jira.prepareIssueRequestBody yaml conf g (tmplTextFunc (TmplText d))) MBoth.
Proof.
  unfold Jira.prepareIssueRequestBody, Jira.prepare_description.
  repeat first
    [ eapply keeps_inert; [solve [solve_inert]|intros ?]
    | eapply keeps_bind;
      [first [apply keeps_tmplTextFunc | apply keeps_tmplTextFunc_entries
             | apply keeps_each; intros ?; apply keeps_tmplTextFunc]|intros ?]
    | apply inert_keeps; solve [solve_inert] ].
Qed.

Lemma keeps_transition conf i f : keeps changes MClean (Jira.transitionIssue dec_transitions conf i f) MClean.
Proof.
  unfold Jira.transitionIssue, Jira.getIssueTransitionByName, Jira.doAPIRequest. keeps_all.
Qed.

Lemma jira_checked conf c : checked changes (Jira.Notify yaml dec_issues dec_transitions conf c).
Proof.
  apply keeps_checked. unfold Jira.Notify, Jira.doAPIRequest.
  keeps_step. eapply keeps_bind; [apply keeps_search|intros [i|]]; [|destruct (firing c)].
  1, 2: eapply keeps_bind; [apply keeps_prepare|intros f]; apply (keeps_pre _ MClean);
    eapply keeps_bind; [apply keeps_api|intros r]; apply keeps_transition.
  keeps_all.
Qed.

Abbreviation all := (λ _, true).

(** C13: A template that fails is reported as an error, and nothing is sent to the
    service: no request at all, or, for Jira, none that changes an issue.  Slack,
    Webex and email are left out: see [failed_template_delivered]. *)
Theorem template_failure_sends_nothing (c : Call) :
  (∀ conf, checked all (Webhook.Notify yaml conf c)) ∧
  (∀ conf, checked all (PagerDuty.Notify yaml decode_pgr conf c)) ∧
  (∀ conf, checked all (OpsGenie.Notify conf c)) ∧
  (∀ conf, checked all (VictorOps.Notify conf c)) ∧
  (∀ conf, checked all (Discord.Notify Parse_ok conf c)) ∧
  (∀ conf, checked all (MSTeams.Notify conf c)) ∧
  (∀ conf, checked all (MSTeamsV2.Notify conf c)) ∧
  (∀ conf, checked all (Pushover.Notify conf c)) ∧
  (∀ conf, checked all (Rocketchat.Notify dec_rocket conf c)) ∧
  (∀ conf, checked all (Mattermost.Notify conf c)) ∧
  (∀ conf, checked changes (Jira.Notify yaml dec_issues dec_transitions conf c)).
Proof.
  auto 20 using webhook_checked, pagerduty_checked, opsgenie_checked, victorops_checked, discord_checked,
    msteams_checked, msteamsv2_checked, pushover_checked, rocketchat_checked, mattermost_checked, jira_checked.
Qed.

(** ** Retries *)
Lemma webhook_classified conf c : classified (retried []) (Webhook.Notify yaml conf c).
Proof. unfold Webhook.Notify, Webhook.renderPayload. cls_all. Qed.
Lemma discord_classified conf c : classified (retried []) (Discord.Notify Parse_ok conf c).
Proof. unfold Discord.Notify. cls_all. Qed.
Lemma webex_classified conf c : classified (retried []) (Webex.Notify conf c).
Proof. unfold Webex.Notify. cls_all. Qed.
Lemma msteams_classified conf c : classified (retried []) (MSTeams.Notify conf c).
Proof. unfold MSTeams.Notify. cls_all. Qed.
Lemma msteamsv2_classified conf c : classified (retried []) (MSTeamsV2.Notify conf c).
Proof. unfold MSTeamsV2.Notify. cls_all. Qed.
Lemma pushover_classified conf c : classified (retried []) (Pushover.Notify conf c).
Proof. unfold Pushover.Notify, Pushover.secret. cls_all. Qed.
Lemma rocketchat_classified conf c : classified (retried []) (Rocketchat.Notify dec_rocket conf c).
Proof. unfold Rocketchat.Notify, Rocketchat.checkResponseError, Rocketchat.checkJSONResponseError. cls_all. Qed.
Lemma mattermost_classified conf c : classified (retried []) (Mattermost.Notify conf c).
Proof.
  unfold Mattermost.Notify, Mattermost.createRequest, Mattermost.sanitizeRequest, Mattermost.render_own,
    Mattermost.render_attachment, Mattermost.render_fields.
  cls_all.
Qed.
Lemma slack_classified conf c : classified (retried [429]) (Slack.Notify dec_slack conf c).
Proof.
  unfold Slack.Notify, Slack.render_message, Slack.render_attachment, Slack.render_field, Slack.render_action,
    Slack.slackResponseHandler, Slack.checkTextResponseError.
  cls_all.
Qed.
Lemma incidentio_classified conf c : classified (retried [429]) (Incidentio.Notify dec_incidentio conf c).
Proof. unfold Incidentio.Notify, Incidentio.encodeMessage. cls_all. Qed.
Lemma pagerduty_classified conf c :
  classified (retried (if PagerDuty.apiV1 conf then [403] else [429])) (PagerDuty.Notify yaml decode_pgr conf c).
Proof.
  unfold PagerDuty.Notify.
  apply errors_bind; [cls_all|intros key]. apply errors_bind; [cls_all|intros details].
  destruct (PagerDuty.apiV1 conf) eqn:E.
  - unfold PagerDuty.notifyV1, PagerDuty.encodeMessage. cls_all. apply errors_check_plain.
    unfold PagerDuty.retrier. by rewrite E.
  - unfold PagerDuty.notifyV2, PagerDuty.encodeMessage, PagerDuty.render_image, PagerDuty.render_link, post_and_check.
    cls_all; apply errors_check_status; unfold PagerDuty.retrier; by rewrite E.
Qed.
Lemma opsgenie_classified conf c : classified (retried [429]) (OpsGenie.Notify conf c).
Proof.
  unfold OpsGenie.Notify. apply errors_bind.
  - unfold OpsGenie.createRequests, OpsGenie.create_requests, OpsGenie.expand_responder, OpsGenie.new_request. cls_all.
  - intros rs. induction rs as [|r rs IH]; cbn [OpsGenie.send_all]; cls_all. exact IH.
Qed.

(** Jira asks for a retry only because of the status of an answer. *)
Definition status_retried (codes : list Z) (er : nerror) : Prop :=
  match er with StatusError code _ _ => 500 ≤ code ≤ 599 ∨ code ∈ codes | _ => False end.

Lemma jira_classified conf c : classified (status_retried [429]) (Jira.Notify yaml dec_issues dec_transitions conf c).
Proof.
  assert (Hapi : ∀ m p b, classified (status_retried [429]) (Jira.doAPIRequestFullPath m p b)).
  { intros m p b. unfold Jira.doAPIRequestFullPath. cls_all. }
  unfold Jira.Notify, Jira.searchExistingIssue, Jira.prepareIssueRequestBody, Jira.prepare_description,
    Jira.transitionIssue, Jira.getIssueTransitionByName, Jira.doAPIRequest.
  unfold classified. repeat first [apply Hapi|cls_step].
Qed.

(** VictorOps asks for a retry after every error in the payload as well, which
    are permanent; the error of a template may also be one of the routing key,
    which is not retried. *)
Definition victorops_flag (b : bool) (er : nerror) : Prop :=
  match er with
  | TemplateError _ => True
  | NoGroupKey | EncodeError _ => b = true
  | _ => b = true ↔ retried [] er
  end.

Lemma victorops_payload_retried conf c :
  classified (λ er, er ≠ PanicError) (VictorOps.createVictorOpsPayload conf c).
Proof. unfold VictorOps.createVictorOpsPayload. cls_all. Qed.
Lemma victorops_flags conf c : errors victorops_flag (VictorOps.Notify conf c).
Proof. unfold VictorOps.Notify, VictorOps.createVictorOpsPayload. cls_all. Qed.

(** C15: These notifiers ask for a retry exactly after failures that may pass, of the
    network, of the server (5xx), of reading its answer, or with a code the
    service uses for rate limits, and after a URL that is refused, which does
    not pass.  Jira asks for one only after an answer with such a status, and
    never after a failure of the network.  VictorOps retries in addition what can
    never succeed: a missing group key and every failure of a template or of the
    encoding in its payload. *)
Theorem retries_transient_failures (c : Call) :
  (∀ conf, classified (retried []) (Webhook.Notify yaml conf c)) ∧
  (∀ conf, classified (retried (if PagerDuty.apiV1 conf then [403] else [429])) (PagerDuty.Notify yaml decode_pgr conf c)) ∧
  (∀ conf, classified (retried [429]) (OpsGenie.Notify conf c)) ∧
  (∀ conf, classified (retried []) (Discord.Notify Parse_ok conf c)) ∧
  (∀ conf, classified (retried []) (Webex.Notify conf c)) ∧
  (∀ conf, classified (retried []) (MSTeams.Notify conf c)) ∧
  (∀ conf, classified (retried []) (MSTeamsV2.Notify conf c)) ∧
  (∀ conf, classified (retried []) (Pushover.Notify conf c)) ∧
  (∀ conf, classified (retried []) (Rocketchat.Notify dec_rocket conf c)) ∧
  (∀ conf, classified (retried []) (Mattermost.Notify conf c)) ∧
  (∀ conf, classified (retried [429]) (Slack.Notify dec_slack conf c)) ∧
  (∀ conf, classified (retried [429]) (Incidentio.Notify dec_incidentio conf c)) ∧
  (∀ conf, classified (status_retried [429]) (Jira.Notify yaml dec_issues dec_transitions conf c)) ∧
  (∀ conf, errors victorops_flag (VictorOps.Notify conf c) ∧
     classified (λ er, er ≠ PanicError) (VictorOps.createVictorOpsPayload conf c)).
Proof.
  auto 20 using webhook_classified, pagerduty_classified, opsgenie_classified, discord_classified, webex_classified,
    msteams_classified, msteamsv2_classified, pushover_classified, rocketchat_classified, mattermost_classified,
    slack_classified, incidentio_classified, jira_classified, victorops_flags, victorops_payload_retried.
Qed.
End thm.

(** * Theorems about the Slack notifier: the message of a group is edited *)
Import Notifier Slack.

Section slack.
Context `{RE : Regexp, PM : PromModel, FP : Fingerprinter, FS : FingerprintString, NL : NotifierLib, CL : ConfigLib}.
Context `{EN : Encoder srequest} (Unmarshal : string → result string slackResponse).
Abbreviation Notify := (Slack.Notify Unmarshal).

Lemma still_TmplText {P} d s : still (TmplText (P := P) d s).
Proof.
  intros e w. unfold TmplText, render. destruct (tmplErr w); [done|]. by destruct (ExecuteText d s).
Qed.

Lemma still_render_message conf d : still (render_message conf d).
Proof.
  unfold render_message, render_attachment, render_field, render_action, webhook_url.
  repeat first
    [ apply still_TmplText
    | apply still_each; intros ?
    | match goal with |- still (match ?x with _ => _ end) => destruct x end
    | apply still_inert; solve [solve_inert]
    | apply still_bind; [|intros ?] ].
Qed.

(** The store the notifier uses, and the address with the message it posts. *)
Definition used_store (conf : SlackConfig) (c : Call) : option Nflog.Store :=
  if UpdateMessage conf then Notify.NflogStore (c_ctx c) else None.
Definition posted (store : option Nflog.Store) (u : string) (req : srequest) : request srequest :=
  let '(u, req) := match store with Some st => recover st u req | None => (u, req) end in
  mkRequest "POST" u [] [] req.

(** A run sends nothing, or posts one message and handles the answer. *)
Lemma slack_spec conf c e w :
  sent (Notify conf c e w).1 = sent w ∨
  ∃ w1 u req, let q := posted (used_store conf c) u req in
    sent (Notify conf c e w).1 = sent w ++ [q] ∧
    Notify conf c e w =
      (resp ← lift true request_nerror (from_net (e_net e (sent w) q));
       check_status retrier read_body resp;;
       slackResponseHandler Unmarshal resp (used_store conf c) : N srequest (bool * option Nflog.Store)) e w1.
Proof.
  unfold Slack.Notify, ExtractGroupKey. destruct (Notify.GroupKey (c_ctx c)) as [key|]; [|by left].
  rewrite N_bind_ret, N_bind_run.
  pose proof (still_render_message conf (call_data c) e w) as Hs.
  destruct (render_message conf (call_data c) e w) as [w1 [[u req]|er]]; cbn in Hs; [|by left].
  fold (used_store conf c). unfold posted. destruct (match used_store conf c with Some st => _ | None => _ end)
    as [u' req'] eqn:Ep.
  unfold encode. destruct (Encode req') as [s|er]; cbn [lift]; [|by left].
  rewrite N_bind_ret, N_bind_run. unfold PostJSON, do_request. cbn [r_url].
  destruct (NewRequest_ok u'); [|left; exact Hs].
  right. eexists _, u, req. rewrite Ep. cbn zeta. rewrite <- Hs.
  assert (Hin : ∀ r, inert (resp ← lift true request_nerror r; check_status retrier read_body resp;;
     slackResponseHandler Unmarshal resp (used_store conf c) : N srequest (bool * option Nflog.Store))).
  { intros r. unfold slackResponseHandler, checkTextResponseError. inert_all. }
  split; [|reflexivity]. rewrite Hin. done.
Qed.

(** The requests of a run with a stored message all edit it. *)
Lemma slack_edits conf c e st ts ch :
  UpdateMessage conf = true → Notify.NflogStore (c_ctx c) = Some st →
  (Nflog.GetStr st "threadTs").1 = ts → (Nflog.GetStr st "channelId").1 = ch → ts ≠ ""%string → ch ≠ ""%string →
  Forall (λ r, r_url r = update_url ∧ Timestamp (r_body r) = ts ∧ q_Channel (r_body r) = ch)
    (sent (Notify conf c e start).1).
Proof.
  intros Hu Hst Hts Hch Hne1 Hne2.
  destruct (slack_spec conf c e start) as [->|(w1 & u & req & -> & _)]; [constructor|].
  repeat constructor; unfold posted, used_store, recover; rewrite Hu, Hst, Hts, Hch; unfold is_empty;
    rewrite !bool_decide_eq_false_2 by done; done.
Qed.

(** C16: With [update_message], an accepted message leaves its time and channel in
    the store of the group, and the next notification that gets this store posts
    nothing but an edit of exactly that message. *)
Theorem slack_edits_own_message conf c1 c2 e1 e2 st1 q resp b data :
  UpdateMessage conf = true →
  Notify.NflogStore (c_ctx c1) = Some st1 →
  sent (Notify conf c1 e1 start).1 = [q] →
  e_net e1 [] q = Ok resp → 200 ≤ StatusCode resp ≤ 299 →
  Strings.HasPrefix (Notifier.ContentType resp) "application/json" = true →
  Body resp = Ok b → Unmarshal b = Ok data → OK data = true →
  s_Timestamp data ≠ ""%string → s_Channel data ≠ ""%string →
  ∃ st2, (Notify conf c1 e1 start).2 = Ok (false, Some st2) ∧
    (Notify.NflogStore (c_ctx c2) = Some st2 →
     Forall (λ r, r_url r = update_url ∧ Timestamp (r_body r) = s_Timestamp data ∧
                  q_Channel (r_body r) = s_Channel data) (sent (Notify conf c2 e2 start).1)).
Proof.
  intros Hu Hst Hq Hnet Hcode Hct Hb Hdec Hok Hts Hch.
  destruct (slack_spec conf c1 e1 start) as [Hs|(w1 & u & req & Hs & Hrun)]; [by rewrite Hs in Hq|].
  rewrite Hs in Hq. cbn in Hq. injection Hq as Hq. rewrite Hq in Hrun. cbn [sent start] in Hrun.
  rewrite Hnet in Hrun. unfold used_store in Hrun. rewrite Hu, Hst in Hrun.
  eexists. split.
  - rewrite Hrun. cbn [lift from_net]. rewrite N_bind_ret, N_bind_run. unfold check_status, check_with.
    pose proof (NotifyUtil.retrier_check retrier (StatusCode resp) (read_body resp)) as Hc.
    destruct (NotifyUtil.Check _ _ _) as [rt [m|]]; [by destruct Hc as [[_ Hc] _]; specialize (Hc Hcode)|].
    unfold mret at 1, N_ret at 1. unfold slackResponseHandler. rewrite Hb. cbn [lift]. rewrite N_bind_ret, Hct.
    cbn [negb]. rewrite Hdec. cbn [lift]. rewrite N_bind_ret, Hok. cbn [negb].
    unfold is_empty. rewrite !bool_decide_eq_false_2 by done. reflexivity.
  - intros Hst2. eapply slack_edits; [done|done| | |done|done].
    + unfold Nflog.GetStr, Nflog.SetStr. by rewrite lookup_insert_ne, lookup_insert_eq by done.
    + unfold Nflog.GetStr, Nflog.SetStr. by rewrite lookup_insert_eq.
Qed.
End slack.
