(* ===== verification/Validation.v ===== *)
(** * Validation of notifier configurations (notify/*/config.go, config/notifiers.go)

    The [Validate] methods, and what [UnmarshalYAML] does besides decoding.  A
    configuration is the record its notifier uses where that has the fields; the
    error is the text. *)

From Stdlib Require Import Ascii String.
From stdpp Require Import base gmap strings list.
From S2P Require Import Prelude Utf8 Labels Silence Alert Nflog Notify NotifyUtil Strconv Api.
From S2P Require Import ConfigReceivers Template Notifier Webhook PagerDuty OpsGenie VictorOps Discord Webex MSTeams.
From S2P Require Import MSTeamsV2 Pushover Rocketchat Mattermost Slack Jira NotifierInv NotifierThm.

(** Outside the repository: parsing a text/template, and the canonical form of a
    header name (net/textproto). *)
Class ValidationLib := {
  template_Parse : string → result string ();
  CanonicalMIMEHeaderKey : string → string;
}.

Module Validation.
Import Notifier.

Abbreviation check := (result string ()).

(** [if b return errors.New(msg)], and what follows. *)
Definition reject (b : bool) (msg : string) : check := if b then Err msg else Ok ().
Definition set (s : string) : bool := negb (is_empty s).

(** At most, and exactly, one of a value and a file. *)
Definition at_most_one (value file : bool) (name : string) : check := reject (value && file) ("at most one of " +:+ name).
Definition one_of (value file : bool) (name : string) : check :=
  reject (negb value && negb file) ("one of " +:+ name);; at_most_one value file name.

Section validation.
Context `{VL : ValidationLib, UL : UnicodeLower}.

(** [strings.Contains] of two opening braces. *)
Fixpoint has_braces (s : string) : bool :=
  match s with
  | EmptyString => false
  | String _ s' => String.prefix "{{" s || has_braces s'
  end.

Definition ContainsTemplating (s : string) : result string bool :=
  if negb (has_braces s) then Ok false
  else match template_Parse s with Ok _ => Ok true | Err e => Err e end.

(** ** notify/ *)
Definition Webhook_Validate (c : Webhook.WebhookConfig) : check :=
  one_of (set (Webhook.URL c)) (set (Webhook.URLFile c)) "url or url_file".

Record SNSConfig := mkSNSConfig { TopicARN : string; PhoneNumber : string; TargetARN : string }.
Definition SNS_Validate (c : SNSConfig) : check :=
  reject (xorb (xorb (is_empty (TargetARN c)) (is_empty (TopicARN c))) (is_empty (PhoneNumber c)))
    "must provide either a Target ARN, Topic ARN, or Phone Number for SNS config".

Definition hook_Validate {A} (url : option A) (file : string) : check :=
  one_of (ConfigReceivers.some url) (set file) "webhook_url or webhook_url_file".
Definition Discord_Validate (c : Discord.DiscordConfig) : check :=
  hook_Validate (Discord.WebhookURL c) (Discord.WebhookURLFile c).
Definition MSTeams_Validate (c : MSTeams.MSTeamsConfig) : check :=
  hook_Validate (MSTeams.WebhookURL c) (MSTeams.WebhookURLFile c).
Definition MSTeamsV2_Validate (c : MSTeamsV2.MSTeamsV2Config) : check :=
  hook_Validate (MSTeamsV2.WebhookURL c) (MSTeamsV2.WebhookURLFile c).

Definition Mattermost_Validate (c : Mattermost.MattermostConfig) : check :=
  at_most_one (ConfigReceivers.some (Mattermost.WebhookURL c)) (set (Mattermost.WebhookURLFile c)) "webhook_url & webhook_url_file".
Definition MattermostField_Validate (f : Mattermost.MattermostField) : check :=
  reject (is_empty (Mattermost.f_Title f)) "missing title in Mattermost field configuration";;
  reject (is_empty (Mattermost.f_Value f)) "missing value in Mattermost field configuration".

(** [HTTPConfig]: nil, or whether it has an authorization. *)
Record IncidentioConfig := mkIncidentioConfig {
  i_HTTPConfig : option bool;
  i_URL : option URL;
  i_URLFile : string;
  AlertSourceToken : string;
  AlertSourceTokenFile : string;
}.
Definition has_auth (http : option bool) : bool := match http with Some b => b | None => false end.
Definition Incidentio_Validate (c : IncidentioConfig) : check :=
  one_of (ConfigReceivers.some (i_URL c)) (set (i_URLFile c)) "url or url_file";;
  at_most_one (set (AlertSourceToken c)) (set (AlertSourceTokenFile c)) "alert_source_token & alert_source_token_file";;
  reject (has_auth (i_HTTPConfig c) && (set (AlertSourceToken c) || set (AlertSourceTokenFile c)))
    "cannot specify alert_source_token or alert_source_token_file when using http_config.authorization";;
  reject ((ConfigReceivers.some (i_HTTPConfig c) && negb (has_auth (i_HTTPConfig c))) && is_empty (AlertSourceToken c) &&
          is_empty (AlertSourceTokenFile c))
    "at least one of alert_source_token, alert_source_token_file or http_config.authorization must be configured".

Definition Jira_Validate (c : Jira.JiraConfig) : check :=
  reject (is_empty (Jira.Project c)) "missing project in jira_config";;
  reject (is_empty (Jira.IssueType c)) "missing issue_type in jira_config";;
  reject (negb (bool_decide (Jira.APIType c ∈ ["auto"; "cloud"; "datacenter"]%string)))
    "unknown api_type on jira_config, must be auto, cloud or datacenter".

(** The loop over the responders.  The type is lowered in the copy the loop
    variable holds. *)
Definition opsgenieValidTypes : list string := ["team"; "teams"; "user"; "escalation"; "schedule"]%string.
Definition Responder_Validate (r : OpsGenie.OpsGenieConfigResponder) : check :=
  reject (is_empty (OpsGenie.ID r) && is_empty (OpsGenie.Username r) && is_empty (OpsGenie.Name r))
    "responder has to have at least one of id, username or name specified";;
  match ContainsTemplating (OpsGenie.Type_ r) with
  | Err e => Err ("responder type contains invalid template syntax: " +:+ e)
  | Ok true => Ok ()
  | Ok false => reject (negb (bool_decide (Strconv.ToLower (OpsGenie.Type_ r) ∈ opsgenieValidTypes)))
                  "responder type does not match valid options"
  end.
Fixpoint Responders_Validate (rs : list OpsGenie.OpsGenieConfigResponder) : check :=
  match rs with
  | [] => Ok ()
  | r :: rs => Responder_Validate r;; Responders_Validate rs
  end.
Definition OpsGenie_Validate (c : OpsGenie.OpsGenieConfig) : check :=
  at_most_one (set (OpsGenie.APIKey c)) (set (OpsGenie.APIKeyFile c)) "api_key & api_key_file";;
  Responders_Validate (OpsGenie.Responders c).

Definition PagerDuty_Validate (c : PagerDuty.PagerdutyConfig) : check :=
  reject (is_empty (PagerDuty.RoutingKey c) && is_empty (PagerDuty.ServiceKey c) &&
          is_empty (PagerDuty.RoutingKeyFile c) && is_empty (PagerDuty.ServiceKeyFile c))
    "missing service or routing key in PagerDuty config";;
  at_most_one (set (PagerDuty.RoutingKey c)) (set (PagerDuty.RoutingKeyFile c)) "routing_key & routing_key_file";;
  at_most_one (set (PagerDuty.ServiceKey c)) (set (PagerDuty.ServiceKeyFile c)) "service_key & service_key_file".

(** The details a configuration does not set, and the source. *)
Definition DefaultPagerdutyDetails : list (string * any) :=
  [("firing", AStr "{{ .Alerts.Firing | toJson }}"); ("resolved", AStr "{{ .Alerts.Resolved | toJson }}");
   ("num_firing", AStr "{{ .Alerts.Firing | len }}"); ("num_resolved", AStr "{{ .Alerts.Resolved | len }}")]%string.
Definition add_detail (details : list (string * any)) (d : string * any) : list (string * any) :=
  if bool_decide (d.1 ∈ details.*1) then details else details ++ [d].
Definition PagerDuty_Unmarshal (c : PagerDuty.PagerdutyConfig) : result string PagerDuty.PagerdutyConfig :=
  let '(PagerDuty.mkPagerdutyConfig sk skf rk rkf u cl clu de details im li so se ca co gr) := c in
  let c := PagerDuty.mkPagerdutyConfig sk skf rk rkf u cl clu de (foldl add_detail details DefaultPagerdutyDetails)
             im li (if is_empty so then cl else so) se ca co gr in
  PagerDuty_Validate c;; Ok c.

Record TelegramConfig := mkTelegramConfig {
  BotToken : string;
  BotTokenFile : string;
  ChatID : Z;
  ChatIDFile : string;
  ParseMode : string;
}.
Definition Telegram_Validate (c : TelegramConfig) : check :=
  at_most_one (set (BotToken c)) (set (BotTokenFile c)) "bot_token & bot_token_file";;
  reject ((ChatID c =? 0) && is_empty (ChatIDFile c)) "missing chat_id or chat_id_file on telegram_config";;
  at_most_one (negb (ChatID c =? 0)) (set (ChatIDFile c)) "chat_id & chat_id_file";;
  reject (negb (bool_decide (ParseMode c ∈ [""; "Markdown"; "MarkdownV2"; "HTML"]%string)))
    "unknown parse_mode on telegram_config, must be Markdown, MarkdownV2, HTML or empty string".

Definition Pushover_Validate (c : Pushover.PushoverConfig) : check :=
  one_of (set (Pushover.UserKey c)) (set (Pushover.UserKeyFile c)) "user_key or user_key_file";;
  one_of (set (Pushover.Token c)) (set (Pushover.TokenFile c)) "token or token_file";;
  at_most_one (Pushover.HTML c) (Pushover.Monospace c) "monospace & html".

Definition Rocketchat_Validate (token tokenID : option string) (tokenFile tokenIDFile : string) : check :=
  at_most_one (ConfigReceivers.some token) (set tokenFile) "token & token_file";;
  at_most_one (ConfigReceivers.some tokenID) (set tokenIDFile) "token_id & token_id_file".

(** ** config/notifiers.go *)
Definition Webex_Validate (c : Webex.WebexConfig) (http : option bool) : check :=
  reject (is_empty (Webex.RoomID c)) "missing room_id on webex_config";;
  reject (negb (has_auth http)) "missing webex_configs.http_config.authorization".

Record EmailHeaders := mkEmailHeaders {
  To : string;
  Headers : gmap string string;
  ThreadingEnabled : bool;
  ThreadByDate : string;
}.
Definition Email_Validate (c : EmailHeaders) : check :=
  reject (is_empty (To c)) "missing to address in email config";;
  if ThreadingEnabled c then
    reject (ConfigReceivers.some (Headers c !! "References"%string)) "threading.enabled conflicts with custom References header";;
    reject (ConfigReceivers.some (Headers c !! "In-Reply-To"%string)) "threading.enabled conflicts with custom In-Reply-To header";;
    reject (negb (bool_decide (ThreadByDate c ∈ ["none"; "daily"]%string)))
      "threading.thread_by_date must be either 'none' or 'daily'"
  else Ok ().

(** The loop over the headers that makes their names canonical. *)
Fixpoint normalize_headers (hs : list (string * string)) (acc : gmap string string) : result string (gmap string string) :=
  match hs with
  | [] => Ok acc
  | (h, v) :: hs =>
      let normalized := CanonicalMIMEHeaderKey h in
      match acc !! normalized with
      | Some _ => Err ("duplicate header " +:+ normalized)
      | None => normalize_headers hs (<[normalized := v]> acc)
      end
  end.
Definition Email_Unmarshal `{MapRange} (c : EmailHeaders) : result string EmailHeaders :=
  hs ← normalize_headers (range (Headers c)) ∅;
  let c := mkEmailHeaders (To c) hs (ThreadingEnabled c) (ThreadByDate c) in
  Email_Validate c;; Ok c.

Definition SlackAction_Validate (a : Slack.SlackAction) : check :=
  reject (is_empty (Slack.a_Type a)) "missing type in Slack action configuration";;
  reject (is_empty (Slack.a_Text a)) "missing text in Slack action configuration".
Definition SlackAction_Unmarshal (a : Slack.SlackAction) : result string Slack.SlackAction :=
  let '(Slack.mkSlackAction ty te u st na va co) := a in
  if set u then
    let a := Slack.mkSlackAction ty te u st "" "" None in SlackAction_Validate a;; Ok a
  else if set na then
    let a := Slack.mkSlackAction ty te "" st na va co in SlackAction_Validate a;; Ok a
  else Err "missing name or url in Slack action configuration"%string.
Definition SlackConfirmationField_Validate (k : Slack.SlackConfirmationField) : check :=
  reject (is_empty (Slack.k_Text k)) "missing text in Slack confirmation configuration".
Definition SlackField_Validate (f : Slack.SlackField) : check :=
  reject (is_empty (Slack.f_Title f)) "missing title in Slack field configuration";;
  reject (is_empty (Slack.f_Value f)) "missing value in Slack field configuration".

Record WechatValidated := mkWechatValidated { MessageType : string; APISecret : string; APISecretFile : string }.
Definition Wechat_Validate (c : WechatValidated) : check :=
  reject (negb (bool_decide (MessageType c ∈ ["text"; "markdown"]%string))) "weChat message type does not match";;
  at_most_one (set (APISecret c)) (set (APISecretFile c)) "api_secret & api_secret_file".
Definition Wechat_Unmarshal (c : WechatValidated) : result string WechatValidated :=
  let c := mkWechatValidated (if is_empty (MessageType c) then "text" else MessageType c) (APISecret c) (APISecretFile c) in
  Wechat_Validate c;; Ok c.

Definition reservedFields : list string :=
  ["routing_key"; "message_type"; "state_message"; "entity_display_name"; "monitoring_tool"; "entity_id"; "entity_state"]%string.
Definition VictorOps_Validate (c : VictorOps.VictorOpsConfig) : check :=
  reject (is_empty (VictorOps.RoutingKey c)) "missing Routing key in VictorOps config";;
  at_most_one (set (VictorOps.APIKey c)) (set (VictorOps.APIKeyFile c)) "api_key & api_key_file";;
  reject (existsb (λ v, bool_decide (v ∈ (VictorOps.CustomFields c).*1)) reservedFields)
    "victorOps config contains a custom field which conflicts with the fixed fields".
End validation.
End Validation.

(** * Theorems about the validation of notifier configurations *)
Import Notifier Validation.

Lemma check_reject_Ok b msg : reject b msg = Ok () ↔ b = false.
Proof. destruct b; naive_solver. Qed.
Lemma check_seq (c1 c2 : check) : (c1;; c2) = Ok () ↔ c1 = Ok () ∧ c2 = Ok ().
Proof. destruct c1 as [[]|]; cbn; naive_solver. Qed.
Lemma one_of_Ok v f name : one_of v f name = Ok () ↔ xorb v f = true.
Proof. unfold one_of, at_most_one. rewrite check_seq, !check_reject_Ok. destruct v, f; cbn; naive_solver. Qed.

Section validation.
Context `{VL : ValidationLib, UL : UnicodeLower}.

(** ** Canonical headers *)
Lemma fst_prod_map (hs : list (string * string)) :
  (prod_map CanonicalMIMEHeaderKey id <$> hs).*1 = CanonicalMIMEHeaderKey <$> hs.*1.
Proof. induction hs as [|[h v] hs IH]; cbn; [done|]. by rewrite IH. Qed.

Lemma normalize_headers_Ok hs : ∀ acc m,
  normalize_headers hs acc = Ok m ↔
    NoDup (CanonicalMIMEHeaderKey <$> hs.*1) ∧ (∀ h, h ∈ hs.*1 → acc !! CanonicalMIMEHeaderKey h = None) ∧
    m = list_to_map (prod_map CanonicalMIMEHeaderKey id <$> hs) ∪ acc.
Proof.
  induction hs as [|[h v] hs IH]; intros acc m; cbn.
  - rewrite (left_id_L ∅ (∪)). split; [|naive_solver]. intros [= <-]. split_and!; [constructor|set_solver|done].
  - destruct (acc !! CanonicalMIMEHeaderKey h) eqn:E.
    + split; [done|]. intros (_ & Hacc & _). specialize (Hacc h ltac:(set_solver)). by rewrite E in Hacc.
    + rewrite IH, NoDup_cons. split.
      * intros (Hnd & Hacc & ->).
        assert (Hnin : CanonicalMIMEHeaderKey h ∉ CanonicalMIMEHeaderKey <$> hs.*1).
        { intros (h' & Eh & Hin)%list_elem_of_fmap. specialize (Hacc h' Hin). rewrite <- Eh in Hacc.
          by rewrite lookup_insert_eq in Hacc. }
        split_and!; [done..| |].
        -- intros h' [->|Hin]%elem_of_cons; [done|]. specialize (Hacc h' Hin).
           by apply lookup_insert_None in Hacc as [].
        -- rewrite <- insert_union_r; [by rewrite insert_union_l|].
           apply not_elem_of_list_to_map_1. by rewrite fst_prod_map.
      * intros ((Hnin & Hnd) & Hacc & ->). split_and!; [done| |].
        -- intros h' Hin. rewrite lookup_insert_ne; [apply Hacc; by right|].
           intros Eh. apply Hnin. rewrite Eh. by apply list_elem_of_fmap_2.
        -- rewrite <- insert_union_r; [by rewrite insert_union_l|].
           apply not_elem_of_list_to_map_1. by rewrite fst_prod_map.
Qed.

(** The result does not depend on the order of the iteration. *)
Theorem email_headers_any_order (MR1 MR2 : MapRange) (hs m : gmap string string) :
  normalize_headers (@range MR1 _ _ _ _ hs) ∅ = Ok m ↔ normalize_headers (@range MR2 _ _ _ _ hs) ∅ = Ok m.
Proof.
  assert (Hp : @range MR1 _ _ _ _ hs ≡ₚ @range MR2 _ _ _ _ hs) by by rewrite !range_perm.
  rewrite !normalize_headers_Ok, !(right_id_L ∅ (∪)).
  assert (Hnd : NoDup (CanonicalMIMEHeaderKey <$> (@range MR1 _ _ _ _ hs).*1) ↔
                NoDup (CanonicalMIMEHeaderKey <$> (@range MR2 _ _ _ _ hs).*1)) by by rewrite Hp.
  assert (Hm : NoDup (CanonicalMIMEHeaderKey <$> (@range MR1 _ _ _ _ hs).*1) →
    list_to_map (M := gmap string string) (prod_map CanonicalMIMEHeaderKey id <$> @range MR1 _ _ _ _ hs) =
    list_to_map (prod_map CanonicalMIMEHeaderKey id <$> @range MR2 _ _ _ _ hs)).
  { intros Hn. apply list_to_map_proper; [by rewrite fst_prod_map|by rewrite Hp]. }
  split; intros (Hn & _ & ->); split_and!; try (by apply lookup_empty || done).
  - by apply Hnd.
  - by apply Hm.
  - by apply Hnd.
  - symmetry. apply Hm. by apply Hnd.
Qed.

(** ** What is accepted *)

(** The targets of an SNS configuration that are set. *)
Definition sns_targets (c : SNSConfig) : list string :=
  List.filter (λ s, negb (is_empty s)) [TargetARN c; TopicARN c; PhoneNumber c].

(** Chained inequalities test for an odd number; credentials are not asked for
    without an HTTP configuration; and a type of a responder is lowered for the
    test only. *)
Theorem validation_gaps :
  (∀ c, SNS_Validate c = Ok () ↔ length (sns_targets c) = 1%nat ∨ length (sns_targets c) = 3%nat) ∧
  (∀ u, Incidentio_Validate (mkIncidentioConfig None (Some u) "" "" "") = Ok ()) ∧
  Responder_Validate (OpsGenie.mkResponder "" "a,b" "" "Teams") = Ok ().
Proof.
  split_and!; [| |reflexivity].
  - intros [tp ph ta]. unfold SNS_Validate, sns_targets. rewrite check_reject_Ok. cbn.
    destruct (is_empty ta), (is_empty tp), (is_empty ph); cbn; naive_solver.
  - intros u. reflexivity.
Qed.

(** ** Slack actions *)
(** An accepted action has an address or a name, not both; with an address it
    has no value and no confirmation; it has a type and a text. *)
Theorem slack_action_either (a a' : Slack.SlackAction) :
  SlackAction_Unmarshal a = Ok a' →
  xorb (set (Slack.a_URL a')) (set (Slack.a_Name a')) = true ∧
  (set (Slack.a_URL a') = true → Slack.a_Value a' = ""%string ∧ Slack.ConfirmField a' = None) ∧
  set (Slack.a_Type a') = true ∧ set (Slack.a_Text a') = true.
Proof.
  destruct a as [ty te u st na va co]. unfold SlackAction_Unmarshal, set.
  assert (Hv : ∀ b r, (SlackAction_Validate b;; Ok r) = Ok a' → r = a' ∧
    is_empty (Slack.a_Type b) = false ∧ is_empty (Slack.a_Text b) = false).
  { intros b r. unfold SlackAction_Validate. destruct (is_empty (Slack.a_Type b)), (is_empty (Slack.a_Text b)); cbn;
      naive_solver. }
  destruct (is_empty u) eqn:Eu; cbn -[SlackAction_Validate]; [destruct (is_empty na) eqn:En;
    cbn -[SlackAction_Validate]; [done|]|]; intros (<- & -> & ->)%Hv; cbn; rewrite ?Eu, ?En; done.
Qed.
End validation.

(** ** VictorOps messages *)
Section victorops.
Context `{RE : Regexp, PM : PromModel, FP : Fingerprinter, FS : FingerprintString, NL : NotifierLib, CL : ConfigLib}.
Context `{EN : Encoder (gmap string string)}.

Lemma foldl_insert_other (l : list (string * string)) (m : gmap string string) k :
  k ∉ l.*1 → foldl (λ d x, <[x.1 := x.2]> d) m l !! k = m !! k.
Proof.
  revert m. induction l as [|[k' v] l IH]; intros m Hk; [done|]. cbn. rewrite IH by set_solver.
  apply lookup_insert_ne. set_solver.
Qed.

(** A postcondition of the results of a run. *)
Definition yields {P A} (m : N P A) (Q : A → Prop) : Prop := ∀ e w w' a, m e w = (w', Ok a) → Q a.

Lemma yields_bind {P A B} (m : N P A) (f : A → N P B) Q : (∀ a, yields (f a) Q) → yields (m ≫= f) Q.
Proof.
  intros H e w w' b. rewrite N_bind_run. destruct (m e w) as [w1 [a|er]]; [apply H|done].
Qed.
Lemma yields_bind' {P A B} (m : N P A) (f : A → N P B) R Q :
  yields m R → (∀ a, R a → yields (f a) Q) → yields (m ≫= f) Q.
Proof.
  intros Hm H e w w' b. rewrite N_bind_run. destruct (m e w) as [w1 [a|er]] eqn:E; [|done].
  apply H. by eapply Hm.
Qed.
Lemma yields_ret {P A} (a : A) (Q : A → Prop) : Q a → yields (mret a : N P A) Q.
Proof. by intros H e w w' b [= _ <-]. Qed.
Lemma yields_fail {P A} b er (Q : A → Prop) : yields (fail b er : N P A) Q.
Proof. by intros e w w' a. Qed.
Lemma yields_each_keys {P} (g : string * string → N P string) (l : list (string * string)) :
  yields (each (λ x, v ← g x; check_tmpl true;; mret (x.1, v)) l) (λ ys, ys.*1 = l.*1).
Proof.
  induction l as [|x l IH]; cbn [each]; [by apply yields_ret|].
  apply (yields_bind' _ _ (λ y, y.1 = x.1)).
  - apply yields_bind. intros v. apply yields_bind. intros []. by apply yields_ret.
  - intros y Hy. eapply yields_bind'; [exact IH|]. intros ys Hys. apply yields_ret. cbn. by rewrite Hy, Hys.
Qed.

(** What the message of a group says, whatever the custom fields. *)
Definition victorops_message (c : Call) (key : string) (m : gmap string string) : Prop :=
  m !! "entity_id"%string = Some (sha256_hex key) ∧
  ∃ t, m !! "message_type"%string = Some t ∧
    (if firing c then t ∈ VictorOps.victorOpsAllowedEvents else t = "RECOVERY"%string).

(** With an accepted configuration every message carries the identity of the
    group and a type that says whether it fires; custom fields cannot replace
    them. *)
Theorem victorops_message_exact conf c key :
  VictorOps_Validate conf = Ok () → Notify.GroupKey (c_ctx c) = Some key →
  yields (VictorOps.createVictorOpsPayload conf c) (victorops_message c key).
Proof.
  intros Hv Hkey. unfold VictorOps.createVictorOpsPayload. rewrite Hkey.
  apply yields_bind. intros mt. apply yields_bind. intros sm. apply yields_bind. intros msg.
  apply yields_bind. intros edn. apply yields_bind. intros tool. apply yields_bind. intros [].
  eapply yields_bind'; [apply yields_each_keys|]. intros custom Hkeys. apply yields_bind. intros _.
  apply yields_ret.
  assert (Hres : ∀ k, k ∈ reservedFields → k ∉ custom.*1).
  { intros k Hk Hin. rewrite Hkeys in Hin. unfold VictorOps_Validate in Hv. rewrite !check_seq, !check_reject_Ok in Hv.
    destruct Hv as (_ & _ & Hv). apply not_true_iff_false in Hv. apply Hv, existsb_exists. exists k.
    rewrite bool_decide_eq_true. split; [by apply list_elem_of_In|done]. }
  split.
  - rewrite foldl_insert_other by (apply Hres; set_solver). done.
  - eexists. rewrite foldl_insert_other by (apply Hres; set_solver). split; [done|].
    destruct (firing c); [|done]. case_bool_decide; [done|]. set_solver.
Qed.
End victorops.
