(* ===== verification/Email.v ===== *)
(** * Email notifier (notify/email/email.go)

    The notifier speaks SMTP: every command is a request, its answer an
    acceptance.  Two actions are deferred: a message that was begun is closed,
    and the session is quit, however the run ends.  MIME encoding and the headers
    that hold the time or a random number are left out. *)

From Stdlib Require Import Ascii String.
From stdpp Require Import base gmap strings list.
From S2P Require Import Prelude Utf8 Labels Silence Alert Nflog Notify NotifyUtil Strconv Api.
From S2P Require Import ConfigReceivers Template Notifier Webhook PagerDuty OpsGenie VictorOps NotifierInv NotifierThm.

Module Email.
Import Notifier.

Inductive smtp_auth :=
| CRAMMD5 (username secret : string)
| PlainAuth (identity username password host : string)
| LoginAuth (username password : string).

(** The header part: the configured headers, and the thread of the group. *)
Record header_part := mkHeaderPart { hp_headers : list (string * string); hp_thread : option string }.
Record body_part := mkBodyPart { bp_text : option string; bp_html : option string }.

Inductive cmd :=
| Connect (tls : bool)
| Greeting
| Ehlo (name : string)
| StartTLS
| Auth (a : smtp_auth)
| MailFrom (addr : string)
| RcptTo (addr : string)
| DataBegin
| WriteHeaders (h : header_part)
| WriteBody (b : body_part)
| DataEnd
| Quit.

Section email.
Context `{RE : Regexp, PM : PromModel, FP : Fingerprinter, FS : FingerprintString, NL : NotifierLib}.

Record EmailConfig := mkEmailConfig {
  To : string;
  From : string;
  Hello : string;
  Smarthost : ConfigReceivers.HostPort;
  AuthUsername : string;
  AuthPassword : string;
  AuthPasswordFile : string;
  AuthSecret : string;
  AuthSecretFile : string;
  AuthIdentity : string;
  Headers : list (string * string);
  HTML : string;
  Text : string;
  RequireTLS : option bool;
  ForceImplicitTLS : option bool;
  ThreadingEnabled : bool;
  ThreadByDate : string;
}.

(** Outside the repository: the TLS configuration, the extensions the server
    offers after a history of commands, address lists (net/mail), the date. *)
Context (NewTLSConfig : result string ()) (Extension : list (request cmd) → string → option string)
        (ParseAddressList : string → result string (list string)) (today : string).

(** ** Commands *)
Definition command (c : cmd) : request cmd := mkRequest "" "" [] [] c.
Definition smtp (c : cmd) : N cmd (result string response) := λ e w,
  (mkWorld (tmplErr w) (sent w ++ [command c]), Ok (e_net e (sent w) (command c))).
(** A command that must be accepted. *)
Definition smtp_ok (retry : bool) (c : cmd) : N cmd () := r ← smtp c; lift retry NetworkError r;; mret ().
Definition extension (name : string) : N cmd (option string) := λ e w, (w, Ok (Extension (sent w) name)).

(** ** Authentication *)
Definition getPassword (conf : EmailConfig) : N cmd string :=
  if is_empty (AuthPasswordFile conf) then mret (AuthPassword conf)
  else content ← ReadFile true (AuthPasswordFile conf); mret (Strings.TrimSpace content).
Definition getAuthSecret (conf : EmailConfig) : N cmd string :=
  if is_empty (AuthSecretFile conf) then mret (AuthSecret conf) else ReadFile true (AuthSecretFile conf).

(** An error is collected and the next mechanism is tried. *)
Definition try {A} (m : N cmd A) : N cmd (option A) := λ e w,
  match m e w with
  | (w, Ok a) => (w, Ok (Some a))
  | (w, Err _) => (w, Ok None)
  end.

Fixpoint auth_loop (conf : EmailConfig) (mechs : list string) : N cmd smtp_auth :=
  match mechs with
  | [] => fail true (OtherError "find auth mechanism")
  | mech :: mechs =>
      a ← (if bool_decide (mech = "CRAM-MD5"%string) then
             s ← try (getAuthSecret conf);
             mret (match s with
                   | Some s => if is_empty s then None else Some (CRAMMD5 (AuthUsername conf) s)
                   | None => None
                   end)
           else if bool_decide (mech = "PLAIN"%string) || bool_decide (mech = "LOGIN"%string) then
             p ← try (getPassword conf);
             mret (match p with
                   | Some p =>
                       if is_empty p then None
                       else if bool_decide (mech = "PLAIN"%string)
                       then Some (PlainAuth (AuthIdentity conf) (AuthUsername conf) p (ConfigReceivers.Host (Smarthost conf)))
                       else Some (LoginAuth (AuthUsername conf) p)
                   | None => None
                   end)
           else mret None);
      match a with
      | Some a => mret a
      | None => auth_loop conf mechs
      end
  end.

(** Without a user name there is no authentication. *)
Definition auth (conf : EmailConfig) (mechs : string) : N cmd (option smtp_auth) :=
  if is_empty (AuthUsername conf) then mret None
  else a ← auth_loop conf (Strconv.Split mechs 32); mret (Some a).

(** ** The session *)
Definition useImplicitTLS (conf : EmailConfig) : bool :=
  match ForceImplicitTLS conf with
  | Some b => b
  | None => bool_decide (ConfigReceivers.Port (Smarthost conf) = "465"%string)
  end.

Definition connect (conf : EmailConfig) : N cmd () :=
  if useImplicitTLS conf then
    lift false OtherError NewTLSConfig;;
    smtp_ok true (Connect true)
  else smtp_ok true (Connect false).

Definition start_tls (conf : EmailConfig) : N cmd () :=
  match RequireTLS conf with
  | None => fail false PanicError
  | Some require =>
      if require && negb (useImplicitTLS conf) then
        ext ← extension "STARTTLS";
        match ext with
        | None => fail true (OtherError "the server does not advertise the STARTTLS extension")
        | Some _ => lift false OtherError NewTLSConfig;; smtp_ok true StartTLS
        end
      else mret ()
  end.

Definition authenticate (conf : EmailConfig) : N cmd () :=
  ext ← extension "AUTH";
  match ext with
  | None => mret ()
  | Some mechs =>
      a ← auth conf mechs;
      match a with
      | Some a => smtp_ok true (Auth a)
      | None => mret ()
      end
  end.

Definition prefix16 (s : string) : string := if (16 <? String.length s)%nat then String.substring 0 16 s else s.

(** [ExecuteTextString] and [ExecuteHTMLString] of a part. *)
Definition exec (r : result string string) : N cmd string := lift false TemplateError r.

Definition headers (conf : EmailConfig) (c : Call) (data : Template.Data) : N cmd header_part :=
  hs ← each (λ h, v ← exec (ExecuteText data h.2); mret (h.1, v)) (Headers conf);
  thread ← (if ThreadingEnabled conf then
              key ← ExtractGroupKey (c_ctx c);
              let threadBy := if bool_decide (ThreadByDate conf = "none"%string) then ""%string else today in
              mret (Some ("<alert-" +:+ prefix16 (sha256_hex key) +:+ "-" +:+ threadBy +:+ "@alertmanager>"))
            else mret None);
  mret (mkHeaderPart hs thread).

Definition part (template : string) (r : result string string) : N cmd (option string) :=
  if is_empty template then mret None else v ← exec r; mret (Some v).

(** The message between the two ends of the data. *)
Definition write_message (conf : EmailConfig) (c : Call) (data : Template.Data) : N cmd () :=
  h ← headers conf c data;
  smtp_ok false (WriteHeaders h);;
  text ← part (Text conf) (ExecuteText data (Text conf));
  html ← part (HTML conf) (ExecuteHTML data (HTML conf));
  smtp_ok false (WriteBody (mkBodyPart text html)).

(** [defer]: an action that runs at the end, whose error is dropped. *)
Definition finally {A} (m : N cmd A) (c : cmd) : N cmd A := λ e w,
  let '(w, r) := m e w in
  ((smtp c e w).1, r).

(** [closeOnce]: a message that was closed is not closed again. *)
Definition with_data (m : N cmd ()) : N cmd () := λ e w,
  match m e w with
  | (w, Ok _) => smtp_ok true DataEnd e w
  | (w, Err r) => ((smtp DataEnd e w).1, Err r)
  end.

(** What is done on a session with a client; it is quit at the end. *)
Definition session (conf : EmailConfig) (c : Call) : N cmd bool :=
  (if is_empty (Hello conf) then mret () else smtp_ok true (Ehlo (Hello conf)));;
  start_tls conf;;
  authenticate conf;;
  let data := call_data c in
  from ← TmplText data (From conf);
  check_tmpl false;;
  to ← TmplText data (To conf);
  check_tmpl false;;
  addrs ← lift false OtherError (ParseAddressList from);
  match addrs with
  | [addr] =>
      smtp_ok true (MailFrom addr);;
      addrs ← lift false OtherError (ParseAddressList to);
      each (λ a, smtp_ok true (RcptTo a)) addrs;;
      smtp_ok true DataBegin;;
      with_data (write_message conf c data);;
      mret false
  | _ => fail false (OtherError "must be exactly one 'from' address")
  end.

Definition Notify (conf : EmailConfig) (c : Call) : N cmd bool :=
  connect conf;;
  smtp_ok true Greeting;;
  finally (session conf c) Quit.
End email.
End Email.

(** * Theorems about the email notifier

    With required TLS nothing confidential is sent before the connection is
    encrypted; a message that fails after it was begun is delivered incomplete. *)
Import Notifier Email.

Section email.
Context `{RE : Regexp, PM : PromModel, FP : Fingerprinter, FS : FingerprintString, NL : NotifierLib}.
Context (NewTLSConfig : result string ()) (Extension : list (request cmd) → string → option string)
        (ParseAddressList : string → result string (list string)) (today : string).
Context (e : env cmd).

(** Commands that show who writes to whom, what, and with which credentials. *)
Definition confidential (c : cmd) : bool :=
  match c with Auth _ | MailFrom _ | RcptTo _ | DataBegin | WriteHeaders _ | WriteBody _ => true | _ => false end.

(** The connection was encrypted by an accepted command. *)
Definition encrypted (h : list (request cmd)) : Prop :=
  ∃ h1 q h2, h = h1 ++ q :: h2 ∧ (r_body q = StartTLS ∨ r_body q = Connect true) ∧ is_ok (e_net e h1 q) = true.

(** Every confidential command of a history comes after that. *)
Definition protected (h : list (request cmd)) : Prop :=
  ∀ h1 q h2, h = h1 ++ q :: h2 → confidential (r_body q) = true → encrypted h1.

(** ** A logic of histories: the invariant holds on every exit *)
Definition hoare {A} (pre : list (request cmd) → Prop) (m : N cmd A) (post : list (request cmd) → Prop) : Prop :=
  ∀ w, protected (sent w) → pre (sent w) →
    protected (sent (m e w).1) ∧ (is_ok (m e w).2 = true → post (sent (m e w).1)).

Lemma hoare_bind {A B} pre mid post (m : N cmd A) (f : A → N cmd B) :
  hoare pre m mid → (∀ a, hoare mid (f a) post) → hoare pre (m ≫= f) post.
Proof.
  intros Hm Hf w Hp Hpre. specialize (Hm w Hp Hpre). rewrite N_bind_run.
  destruct (m e w) as [w' [a|er]]; cbn in *; destruct Hm as [Hm1 Hm2]; [|done]. apply Hf; [done|]. by apply Hm2.
Qed.
Lemma hoare_still {A} pre (m : N cmd A) : still m → hoare pre m pre.
Proof. intros H w Hp Hpre. by rewrite (H e w). Qed.
Lemma hoare_pre {A} (P P' Q : list (request cmd) → Prop) (m : N cmd A) :
  (∀ h, P h → P' h) → hoare P' m Q → hoare P m Q.
Proof. intros HP H w Hp Hw. apply H; auto. Qed.
Lemma hoare_each {A B} pre (f : A → N cmd B) l : (∀ a, hoare pre (f a) pre) → hoare pre (each f l) pre.
Proof.
  intros Hf. induction l as [|a l IH]; cbn [each]; [by apply hoare_still|].
  eapply hoare_bind; [apply Hf|intros b]. eapply hoare_bind; [exact IH|intros bs]. by apply hoare_still.
Qed.

Lemma encrypted_app h l : encrypted h → encrypted (h ++ l).
Proof. intros (h1 & q & h2 & -> & H). exists h1, q, (h2 ++ l). by rewrite <- app_assoc. Qed.

Lemma protected_snoc h q :
  protected h → (confidential (r_body q) = true → encrypted h) → protected (h ++ [q]).
Proof.
  intros Hh Hq h1 q' h2 E Hc. destruct h2 as [|x h2 _] using rev_ind.
  - apply app_inj_tail in E as [-> ->]. by apply Hq.
  - assert (h = h1 ++ q' :: h2 ∧ q = x) as [-> ->].
    { apply app_inj_tail. rewrite E, <- app_assoc. done. }
    by eapply Hh.
Qed.

(** A command that may be sent, and what its acceptance gives. *)
Lemma hoare_smtp_ok b c (pre post : list (request cmd) → Prop) :
  (confidential c = true → ∀ h, pre h → encrypted h) →
  (∀ h, pre h → is_ok (e_net e h (command c)) = true → post (h ++ [command c])) →
  hoare pre (smtp_ok b c) post.
Proof.
  intros Hc Hpost w Hp Hw. unfold smtp_ok, smtp, mbind, N_bind, mret, N_ret.
  specialize (Hpost _ Hw). destruct (e_net e (sent w) (command c)); cbn in *;
    (split; [apply protected_snoc; [done|]; intros; by apply Hc|]); auto; done.
Qed.

(** ** The notifier *)
Definition anything (_ : list (request cmd)) : Prop := True.

Lemma hoare_smtp_plain b c pre : confidential c = false → (∀ h, pre h → pre (h ++ [command c])) →
  hoare pre (smtp_ok b c) pre.
Proof. intros Hc Hpre. apply hoare_smtp_ok; [by rewrite Hc|]. auto. Qed.
Lemma hoare_smtp_secret b c : hoare encrypted (smtp_ok b c) encrypted.
Proof. apply hoare_smtp_ok; [done|]. intros. by apply encrypted_app. Qed.

Lemma encrypts h c : (c = StartTLS ∨ c = Connect true) → is_ok (e_net e h (command c)) = true →
  encrypted (h ++ [command c]).
Proof. intros Hc Ha. exists h, (command c), []. auto. Qed.

(** What is already encrypted after the connection was made. *)
Definition connected (conf : EmailConfig) (h : list (request cmd)) : Prop :=
  useImplicitTLS conf = true → encrypted h.
Lemma connected_app conf h l : connected conf h → connected conf (h ++ l).
Proof. intros H Hu. by apply encrypted_app, H. Qed.

Lemma hoare_connect conf : hoare anything (connect NewTLSConfig conf) (connected conf).
Proof.
  unfold connect, connected. destruct (useImplicitTLS conf).
  - eapply hoare_bind; [apply hoare_still; by destruct NewTLSConfig|intros []].
    apply hoare_smtp_ok; [done|]. intros h _ Ha _. by apply encrypts; [right|].
  - by apply hoare_smtp_ok.
Qed.

Lemma hoare_start_tls conf : RequireTLS conf = Some true →
  hoare (connected conf) (start_tls NewTLSConfig Extension conf) encrypted.
Proof.
  intros Hr. unfold start_tls. rewrite Hr. destruct (useImplicitTLS conf) eqn:Eu; cbn.
  - eapply hoare_pre; [|by apply hoare_still]. intros h Hh. by apply Hh.
  - eapply hoare_bind; [by apply hoare_still|intros [ext|]].
    + eapply hoare_bind; [apply hoare_still; by destruct NewTLSConfig|intros []].
      apply hoare_smtp_ok; [done|]. intros h _ Ha. by apply encrypts; [left|].
    + by intros w Hp _.
Qed.

Lemma still_try {A} (m : N cmd A) : still m → still (try m).
Proof. intros H e' w. unfold try. specialize (H e' w). by destruct (m e' w) as [w' [a|er]]. Qed.

Lemma still_auth conf mechs : still (auth conf mechs).
Proof.
  unfold auth. destruct (is_empty _); [done|]. apply still_bind; [|done].
  induction (Strconv.Split mechs 32) as [|m ms IH]; cbn [auth_loop]; [done|].
  apply still_bind; [|intros [a|]; [done|exact IH]].
  repeat case_match; try done; apply still_bind; try done; apply still_try, still_inert;
    unfold getAuthSecret, getPassword; solve_inert.
Qed.

Lemma hoare_authenticate conf : hoare encrypted (authenticate Extension conf) encrypted.
Proof.
  unfold authenticate. eapply hoare_bind; [by apply hoare_still|intros [mechs|]]; [|by apply hoare_still].
  eapply hoare_bind; [apply hoare_still, still_auth|intros [a|]]; [apply hoare_smtp_secret|by apply hoare_still].
Qed.

Lemma still_part t r : still (part t r).
Proof. apply still_inert. unfold part, exec. solve_inert. Qed.

Lemma still_headers conf c d : still (headers today conf c d).
Proof.
  unfold headers. apply still_bind; [|intros hs; apply still_bind; [|done]].
  - apply still_each. intros h. apply still_inert. unfold exec. solve_inert.
  - apply still_inert. solve_inert.
Qed.

Lemma hoare_write_message conf c d : hoare encrypted (write_message today conf c d) encrypted.
Proof.
  unfold write_message.
  eapply hoare_bind; [apply hoare_still, still_headers|intros h].
  eapply hoare_bind; [apply hoare_smtp_secret|intros []].
  eapply hoare_bind; [apply hoare_still, still_part|intros t].
  eapply hoare_bind; [apply hoare_still, still_part|intros t']. apply hoare_smtp_secret.
Qed.

Lemma hoare_with_data m : hoare encrypted m encrypted → hoare encrypted (with_data m) anything.
Proof.
  intros H w Hp Hw. specialize (H w Hp Hw). unfold with_data, smtp_ok, smtp.
  destruct (m e w) as [w' [a|er]]; cbn in *; rewrite ?N_bind_run; cbn;
    [destruct (e_net e (sent w') (command DataEnd)); cbn|]; (split; [apply protected_snoc; [tauto|done]|done]).
Qed.

Lemma hoare_session conf c : RequireTLS conf = Some true →
  hoare (connected conf) (session NewTLSConfig Extension ParseAddressList today conf c) anything.
Proof.
  intros Hr. unfold session.
  eapply hoare_bind; [|intros []].
  { destruct (is_empty (Hello conf)); [by apply hoare_still|].
    apply hoare_smtp_plain; [done|]. intros. by apply connected_app. }
  eapply hoare_bind; [by apply hoare_start_tls|intros []].
  eapply hoare_bind; [apply hoare_authenticate|intros []].
  eapply hoare_bind; [apply hoare_still, still_TmplText|intros from].
  eapply hoare_bind; [apply hoare_still, still_check_tmpl|intros []].
  eapply hoare_bind; [apply hoare_still, still_TmplText|intros to].
  eapply hoare_bind; [apply hoare_still, still_check_tmpl|intros []].
  eapply hoare_bind; [apply hoare_still; by destruct (ParseAddressList from)|intros addrs].
  destruct addrs as [|addr [|]]; [by intros w Hp _| |by intros w Hp _].
  eapply hoare_bind; [apply hoare_smtp_secret|intros []].
  eapply hoare_bind; [apply hoare_still; by destruct (ParseAddressList to)|intros addrs].
  eapply hoare_bind; [apply hoare_each; intros; apply hoare_smtp_secret|intros us].
  eapply hoare_bind; [apply hoare_smtp_secret|intros []].
  eapply hoare_bind; [apply hoare_with_data, hoare_write_message|intros []].
  by apply hoare_still.
Qed.

(** C14: When TLS is required, no credentials, addresses or contents are sent before
    the server has accepted an encrypted connection, whatever the server answers
    and advertises. *)
Theorem email_tls_protects conf c :
  RequireTLS conf = Some true →
  protected (sent (Email.Notify NewTLSConfig Extension ParseAddressList today conf c e start).1).
Proof.
  intros Hr.
  enough (H : hoare anything (Email.Notify NewTLSConfig Extension ParseAddressList today conf c) anything).
  { apply (H start); [|done]. intros h1 q h2 E. by destruct h1. }
  unfold Email.Notify. eapply hoare_bind; [apply hoare_connect|intros []].
  eapply hoare_bind; [apply hoare_smtp_plain; [done|]; intros; by apply connected_app|intros []].
  intros w Hp Hw. destruct (hoare_session conf c Hr w Hp Hw) as [H1 _]. unfold finally, smtp.
  destruct (session _ _ _ _ _ _ _ _) as [w' r]. cbn in *. split; [|done]. by apply protected_snoc.
Qed.
End email.
