(* ===== verification/NotifierExamples.v ===== *)
(** * Notifiers at concrete inputs

    Templates are texts of which those that begin with an exclamation mark fail;
    servers are functions of the requests. *)

From Stdlib Require Import Ascii String.
From stdpp Require Import base gmap strings list sorting.
From S2P Require Import Prelude Utf8 Labels Silence Instances Alert Nflog Notify NotifyUtil Strconv.
From S2P Require Import Api ConfigReceivers Template TemplateExamples Notifier Webhook PagerDuty OpsGenie VictorOps Discord.
From S2P Require Import Webex MSTeams MSTeamsV2 Pushover Rocketchat Mattermost Slack Jira NotifierInv NotifierThm.
From S2P Require Import Validation Email.

Module NotifierExamples.
Import Notifier.

#[local] Existing Instance TemplateExamples.prom_model.
#[local] Existing Instance TemplateExamples.size_fingerprint.
#[local] Existing Instance TemplateExamples.fingerprint_string.

Definition execute (s : string) : result string string :=
  if String.prefix "!" s then Err "template error"%string else Ok s.
#[local] Instance text_lib : NotifierLib := {|
  ExecuteText _ := execute;
  ExecuteHTML _ := execute;
  sha256_hex s := s;
  NewRequest_ok _ := true;
|}.
#[local] Instance url_lib : ConfigLib := {|
  HTTPRest := ();
  SetDirectory _ c := c;
  DefaultHTTPClientConfig := mkHTTPClientConfig None None ();
  URL_String u := u_rest u +:+ u_Path u;
|}.
#[local] Instance jira_lib : JiraLib := {|
  JoinPath u p := u_rest u +:+ u_Path u +:+ p;
  u_Host := u_rest;
  json_Valid _ := true;
|}.
#[local] Instance plain_print : UnicodePrint := λ _, false.
#[local] Instance plain_lower : UnicodeLower := λ r, r.
#[local] Instance any_encoder P : Encoder P | 100 := λ _, Ok ""%string.

Definition ctx (key : string) (store : option Nflog.Store) : Notify.Context :=
  let c := Notify.WithGroupKey Notify.background key in
  match store with Some st => Notify.WithNflogStore c st | None => c end.
Definition call (key : string) (store : option Nflog.Store) : Call :=
  mkCall (ctx key store) TemplateExamples.ex_alerts "http://am" (λ _, 60) (λ _, 60) (λ _, 60).

(** An environment that gives one answer. *)
Definition answer (r : response) {P} : env P := mkEnv (λ _, Err "no file"%string) (λ _ _, Ok r) (λ bs, length bs).
Definition text_ok : response := mkResponse 200 "text/plain" "" (Ok "ok"%string).

(** ** Slack *)
Definition slack_conf (text : string) (update : bool) : Slack.SlackConfig :=
  Slack.mkSlackConfig (Some (mkURL "https://slack.com" "/api/chat.postMessage")) "" "#ops" "am" "" "alert" "" "" text ""
    [] false "" "" "" "" "" "" "" false [] [] update.
Definition webex_conf (room : string) : Webex.WebexConfig :=
  Webex.mkWebexConfig (mkURL "https://webexapis.com" "/v1/messages") "alert" room.
Definition dec_slack (b : string) : result string Slack.slackResponse :=
  if bool_decide (b = "{posted}"%string) then Ok (Slack.mkSlackResponse true "" "C1" "17.5") else Err "bad"%string.

Definition posted_json : response := mkResponse 200 "application/json" "" (Ok "{posted}"%string).
Definition first_store : Nflog.Store := ∅.
Definition first_run := Slack.Notify dec_slack (slack_conf "text" true) (call "g" (Some first_store)) (answer posted_json) start.
Definition second_store : Nflog.Store :=
  match first_run.2 with Ok (_, Some st) => st | _ => ∅ end.

Lemma slack_edits_own_message_witness :
  let w := (Slack.Notify dec_slack (slack_conf "text" true) (call "g" (Some second_store)) (answer posted_json) start).1 in
  length (sent w) = 1%nat ∧
  Forall (λ r, r_url r = Slack.update_url ∧ Slack.Timestamp (r_body r) = "17.5"%string ∧
               Slack.q_Channel (r_body r) = "C1"%string) (sent w).
Proof.
  split; [vm_compute; done|].
  destruct (sent first_run.1) as [|q [|]] eqn:E; [by vm_compute in E| |by vm_compute in E].
  destruct (slack_edits_own_message dec_slack (slack_conf "text" true) (call "g" (Some first_store))
    (call "g" (Some second_store)) (answer posted_json) (answer posted_json) first_store q posted_json "{posted}"
    (Slack.mkSlackResponse true "" "C1" "17.5")) as (st2 & Hst & H).
  1, 2, 4, 6, 7, 8, 9, 10, 11: by vm_compute. 1: exact E. 1: cbn; lia.
  assert (Hst' : st2 = second_store) by (unfold second_store, first_run; by rewrite Hst).
  apply H. by rewrite Hst'.
Defined.

(** ** Retries *)
Definition opsgenie_conf : OpsGenie.OpsGenieConfig :=
  OpsGenie.mkOpsGenieConfig "key" "" (mkURL "https://api.opsgenie.com" "/") "alert" "" "" [] "" [] "" "" "" "" true.

Lemma retries_transient_failures_witness :
  (OpsGenie.Notify opsgenie_conf (call "g" None) (answer (mkResponse 503 "" "" (Ok ""%string))) start).2 =
    Err (true, StatusError 503 "unexpected status code 503" NotifyUtil.ServerErrorReason) ∧
  classified (retried [429]) (OpsGenie.Notify opsgenie_conf (call "g" None)).
Proof.
  split; [vm_compute; done|].
  destruct (retries_transient_failures (λ _, None) (λ _, None) (λ _, true) (λ _, Err ""%string) dec_slack (λ _, None)
    (λ _, Ok []) (λ _, Ok []) (call "g" None)) as (_ & _ & H & _).
  apply H.
Defined.

(** ** Jira *)
Definition jira_conf : Jira.JiraConfig :=
  Jira.mkJiraConfig (mkURL "https://jira" "/rest/api/2/") "auto" "OPS" (Jira.mkJiraFieldConfig "alert" None)
    (Jira.mkJiraFieldConfig "text" None) [] "" "Bug" "" "Done" "" 0 [].
Definition dec_issues (b : string) : result string (list Jira.issue) :=
  if bool_decide (b = "one"%string) then Ok [Jira.mkIssue "OPS-1" (Some "new"%string)] else Ok [].
Definition dec_transitions (b : string) : result string (list Jira.idNameValue) :=
  Ok [Jira.mkIdName "31" "Done"].

(** A server that answers a search with the issue while one that was created has
    not been moved. *)
Definition has_open (h : list (request Jira.body)) : bool :=
  foldl (λ b q, match r_body q with Jira.Transition _ => false | _ => b || is_create q end) false h.
Definition jira_net (h : list (request Jira.body)) (r : request Jira.body) : result string response :=
  match r_body r with
  | Jira.IssueSearch _ _ _ => Ok (mkResponse 200 "" "" (Ok (if has_open h then "one" else "none"))%string)
  | _ => Ok (mkResponse 201 "" "" (Ok ""%string))
  end.
Definition jira_env : env Jira.body := mkEnv (λ _, Err "no file"%string) jira_net (λ bs, length bs).

Lemma jira_finds_open conf : finds_open dec_issues conf jira_env.
Proof.
  intros h fire p l b (h1 & q & f & h2 & -> & Hc & _ & Hq & _ & _ & Hquiet) (resp & Hnet & Hb & _).
  assert (Ho : has_open (h1 ++ q :: h2) = true).
  { unfold has_open. rewrite foldl_app. cbn. rewrite Hq.
    apply andb_true_iff in Hc as [-> _]. rewrite orb_true_r.
    clear -Hquiet. induction Hquiet as [|x h2 Hx _ IH]; [done|]. cbn. unfold disturbs in Hx.
    by destruct (r_body x). }
  cbn in Hnet. unfold jira_net in Hnet. cbn in Hnet. rewrite Ho in Hnet. injection Hnet as <-.
  cbn in Hb. injection Hb as <-. by eexists _, _.
Qed.

(** The group fires, is resolved and fires again. *)
Definition resolved_call (key : string) : Call :=
  mkCall (ctx key None) [] "http://am" (λ _, 60) (λ _, 60) (λ _, 60).
Definition jira_sent : list (request Jira.body) :=
  sent (notify_all (λ _, None) dec_issues dec_transitions jira_conf
    [call "g" None; call "g" None; resolved_call "g"; call "g" None] jira_env start).

Example jira_sent_requests :
  (λ q, (r_method q, r_url q)) <$> jira_sent =
    [("POST", "https://jira/rest/api/2//search"); ("POST", "https://jira/rest/api/2/issue");
     ("POST", "https://jira/rest/api/2//search"); ("PUT", "https://jira/rest/api/2/issue/OPS-1");
     ("POST", "https://jira/rest/api/2//search"); ("PUT", "https://jira/rest/api/2/issue/OPS-1");
     ("GET", "https://jira/rest/api/2/issue/OPS-1/transitions");
     ("POST", "https://jira/rest/api/2/issue/OPS-1/transitions");
     ("POST", "https://jira/rest/api/2//search"); ("POST", "https://jira/rest/api/2/issue")]%string.
Proof. vm_compute. done. Qed.

Definition jira_fields : Jira.issueFields :=
  Jira.mkIssueFields (Some (Jira.StringDescription "text")) "Bug" ["ALERT{g}"%string] None "OPS" (Some "alert"%string) [].
Definition jira_create : request Jira.body :=
  mkRequest "POST" "https://jira/rest/api/2/issue" [] [] (Jira.IssueBody jira_fields).

End NotifierExamples.

(** * Validation and the email notifier at concrete inputs *)
Module EmailExamples.
Import Notifier.

#[local] Existing Instance TemplateExamples.prom_model.
#[local] Existing Instance TemplateExamples.size_fingerprint.
#[local] Existing Instance TemplateExamples.fingerprint_string.
#[local] Existing Instance NotifierExamples.text_lib.
#[local] Existing Instance NotifierExamples.url_lib.
#[local] Existing Instance NotifierExamples.plain_lower.
#[local] Existing Instance NotifierExamples.any_encoder.
#[local] Instance mime_lib : ValidationLib := {|
  template_Parse _ := Ok ();
  CanonicalMIMEHeaderKey s := Strconv.ToLower s;
|}.

Definition email_conf (subject : string) (tls : bool) : Email.EmailConfig :=
  Email.mkEmailConfig "ops@x" "am@x" "localhost" (ConfigReceivers.mkHostPort "smtp.x" "587") "user" "pw" "" "" "" ""
    [("Subject"%string, subject)] "body" "" (Some tls) None false "".

(** A server that accepts everything and offers STARTTLS and two mechanisms. *)
Definition smtp_env : env Email.cmd :=
  mkEnv (λ _, Err "no file"%string) (λ _ _, Ok (mkResponse 250 "" "" (Ok ""%string))) (λ bs, length bs).
Definition offers (h : list (request Email.cmd)) (name : string) : option string :=
  if bool_decide (name = "AUTH"%string) then Some "CRAM-MD5 PLAIN"%string else Some ""%string.
Definition run (conf : Email.EmailConfig) :=
  Email.Notify (Ok ()) offers (λ s, Ok [s]) "2024-01-01" conf (NotifierExamples.call "g" None) smtp_env start.

(** A failed template does not keep a message from being delivered: Slack and
    Webex post one with an empty text or room, and succeed; the email notifier
    reports an error that is not retried, but has begun the message, so that the
    server receives an empty one. *)
Theorem failed_template_delivered :
  (let '(w, r) := Slack.Notify NotifierExamples.dec_slack (NotifierExamples.slack_conf "!text" false)
      (NotifierExamples.call "g" None) (NotifierExamples.answer NotifierExamples.text_ok) start in
   tmplErr w ≠ None ∧ r = Ok (false, None) ∧
   (λ q, Slack.t_Text <$> Slack.q_Attachments (r_body q)) <$> sent w = [[""%string]]) ∧
  (let '(w, r) := Webex.Notify (NotifierExamples.webex_conf "!room") (NotifierExamples.call "g" None)
      (NotifierExamples.answer NotifierExamples.text_ok) start in
   tmplErr w ≠ None ∧ r = Ok false ∧ (λ q, Webex.w_RoomID (r_body q)) <$> sent w = [""%string]) ∧
  (let '(w, r) := run (email_conf "!subject" false) in
   r = Err (false, TemplateError "template error") ∧
   r_body <$> sent w =
     [Email.Connect false; Email.Greeting; Email.Ehlo "localhost"; Email.Auth (Email.PlainAuth "" "user" "pw" "smtp.x");
      Email.MailFrom "am@x"; Email.RcptTo "ops@x"; Email.DataBegin; Email.DataEnd; Email.Quit]).
Proof. vm_compute. done. Qed.

Lemma email_tls_protects_witness :
  let w := (run (email_conf "alert" true)).1 in
  existsb (λ q, match r_body q with Email.Auth _ => true | _ => false end) (sent w) = true ∧
  protected smtp_env (sent w).
Proof.
  split; [vm_compute; done|]. apply (email_tls_protects (Ok ()) offers (λ s, Ok [s]) "2024-01-01" smtp_env
    (email_conf "alert" true) (NotifierExamples.call "g" None)). reflexivity.
Defined.

(** ** Validation *)
Definition victorops_conf : VictorOps.VictorOpsConfig :=
  VictorOps.mkVictorOpsConfig "key" "" (mkURL "https://alert.victorops.com" "/") "team" "DEBUG" "text" "name" "am"
    [("team"%string, "ops"%string)].

Lemma victorops_message_exact_witness :
  Validation.VictorOps_Validate victorops_conf = Ok () ∧
  yields (VictorOps.createVictorOpsPayload victorops_conf (NotifierExamples.call "g" None))
    (victorops_message (NotifierExamples.call "g" None) "g").
Proof.
  split; [reflexivity|]. apply (victorops_message_exact victorops_conf (NotifierExamples.call "g" None) "g"); reflexivity.
Defined.

Lemma slack_action_either_witness :
  Validation.SlackAction_Unmarshal (Slack.mkSlackAction "button" "Silence" "https://am" "" "x" "y" None) =
    Ok (Slack.mkSlackAction "button" "Silence" "https://am" "" "" "" None) ∧
  xorb (Validation.set "https://am") (Validation.set "") = true.
Proof.
  split; [reflexivity|].
  exact (proj1 (slack_action_either (Slack.mkSlackAction "button" "Silence" "https://am" "" "x" "y" None)
    (Slack.mkSlackAction "button" "Silence" "https://am" "" "" "" None) eq_refl)).
Defined.

(** A responder of the type Teams passes the validation, but its teams are not
    split: the request names one responder with a list of teams. *)
Theorem opsgenie_teams_not_split :
  let r := OpsGenie.mkResponder "" "a,b" "" "Teams" in
  let conf := OpsGenie.mkOpsGenieConfig "key" "" (mkURL "https://api.opsgenie.com" "/") "alert" "" "" [] "" [r]
                "" "" "" "" false in
  Validation.OpsGenie_Validate conf = Ok () ∧
  (λ q, match r_body q with OpsGenie.Create m => OpsGenie.m_Responders m | _ => [] end) <$>
    sent (OpsGenie.Notify conf (NotifierExamples.call "g" None)
            (NotifierExamples.answer (mkResponse 202 "" "" (Ok ""%string))) start).1 = [[r]].
Proof. split; vm_compute; done. Qed.
End EmailExamples.
