(* ===== verification/MessageServices.v ===== *)
(** * WeChat notifier (notify/wechat/wechat.go)

    The notifier keeps an access token between calls. *)

From Stdlib Require Import Ascii String.
From stdpp Require Import base gmap strings list.
From S2P Require Import Prelude Utf8 Labels Silence Instances Alert Nflog Notify NotifyUtil Strconv.
From S2P Require Import Api ConfigReceivers Template TemplateExamples Notifier Webhook PagerDuty OpsGenie VictorOps Discord.
From S2P Require Import Webex MSTeams MSTeamsV2 Pushover Rocketchat Mattermost NotifierInv NotifierThm Validation NotifierExamples.
From S2P Require Import Incidentio.

Module Wechat.
Import Notifier.

Section wechat.
Context `{RE : Regexp, PM : PromModel, FP : Fingerprinter, FS : FingerprintString, NL : NotifierLib, CL : ConfigLib}.

Record WechatConfig := mkWechatConfig {
  APISecret : string;
  APISecretFile : string;
  CorpID : string;
  Message : string;
  APIURL : URL;
  ToUser : string;
  ToParty : string;
  ToTag : string;
  AgentID : string;
  MessageType : string;
}.

(** The cached token and when it was fetched. *)
Record notifier := mkNotifier { accessToken : string; accessTokenAt : time }.

Record weChatMessage := mkWeChatMessage {
  m_Text : string;
  m_ToUser : string;
  m_ToParty : string;
  Totag : string;
  m_AgentID : string;
  m_Type : string;
  Markdown : string;
}.
Inductive body := GetToken | MessageSend (m : weChatMessage).

Context `{EN : Encoder body} (decode_token : string → option string)
        (Unmarshal : string → result string (Z * string)).

Definition getApiSecret (conf : WechatConfig) : N body string :=
  if is_empty (APISecretFile conf) then mret (APISecret conf)
  else content ← ReadFile false (APISecretFile conf); mret (Strings.TrimSpace content).

Definition endpoint (conf : WechatConfig) (suffix : string) : string :=
  URL_String (mkURL (u_rest (APIURL conf)) (u_Path (APIURL conf) +:+ suffix)).

(** The block that fetches a token.  The error it tests after the two templates
    is a variable of its own, which the templates do not set. *)
Definition fetch_token (conf : WechatConfig) (tmpl : string → N body string) : N body string :=
  secret ← getApiSecret conf;
  corpsecret ← tmpl secret;
  corpid ← tmpl (CorpID conf);
  r ← do_request (mkRequest "GET" (endpoint conf "gettoken") [("corpid"%string, corpid); ("corpsecret"%string, corpsecret)]
        [] GetToken);
  resp ← lift true request_nerror r;
  match Body resp with
  | Err e => fail false (OtherError e)
  | Ok b =>
      match decode_token b with
      | None => fail false (OtherError "decode")
      | Some t => if is_empty t then fail false (OtherError "invalid APISecret") else mret t
      end
  end.

Definition send_message (conf : WechatConfig) (tmpl : string → N body string) (token : string) : N body Z :=
  user ← tmpl (ToUser conf); party ← tmpl (ToParty conf); tag ← tmpl (ToTag conf); agent ← tmpl (AgentID conf);
  content ← tmpl (Message conf);
  let markdown := bool_decide (MessageType conf = "markdown"%string) in
  check_tmpl false;;
  let msg := MessageSend (mkWeChatMessage (if markdown then "" else content) user party tag agent (MessageType conf)
                            (if markdown then content else "")) in
  encode msg;;
  r ← do_request (mkRequest "POST" (endpoint conf "message/send") [("access_token"%string, token)] [] msg);
  resp ← lift true request_nerror r;
  if negb (StatusCode resp =? 200) then
    fail true (StatusError (StatusCode resp) "unexpected status code"
                 (NotifyUtil.GetFailureReasonFromStatusCode (StatusCode resp)))
  else
    b ← lift true ResponseUnreadable (Body resp);
    code ← lift true ResponseUnreadable (Unmarshal b);
    mret code.1.

Definition expired : Z := 42001.

(** There is no token, or it is older than two hours. *)
Definition needs_token (n : notifier) (now : time) : bool :=
  is_empty (accessToken n) || (2 * hour <? now - accessTokenAt n).

(** [Notify] with the two clock readings of the token: the notifier is changed
    even if the notification fails later. *)
Definition Notify (conf : WechatConfig) (n : notifier) (now1 now2 : time) (c : Call) (e : env body) (w : world body)
    : notifier * (world body * result (bool * nerror) bool) :=
  match ExtractGroupKey (c_ctx c) e w with
  | (w, Err x) => (n, (w, Err x))
  | (w, Ok _) =>
      let tmpl := TmplText (call_data c) in
      let '(n, (w, r)) :=
        if needs_token n now1 then
          match fetch_token conf tmpl e w with
          | (w, Ok t) => (mkNotifier t now2, (w, Ok ()))
          | (w, Err x) => (n, (w, Err x))
          end
        else (n, (w, Ok ())) in
      match r with
      | Err x => (n, (w, Err x))
      | Ok _ =>
          match send_message conf tmpl (accessToken n) e w with
          | (w, Err x) => (n, (w, Err x))
          | (w, Ok code) =>
              if code =? 0 then (n, (w, Ok false))
              else if code =? expired then (mkNotifier "" (accessTokenAt n), (w, Err (true, ResponseError "expired")))
              else (n, (w, Err (false, ResponseError "error")))
          end
      end
  end.
End wechat.
End Wechat.

(** * Telegram notifier (notify/telegram/telegram.go)

    What is handed to the client library: the text, the token and the chat. *)
Module Telegram.
Import Notifier.

Section telegram.
Context `{RE : Regexp, PM : PromModel, FP : Fingerprinter, FS : FingerprintString, NL : NotifierLib}.

Record TelegramConfig := mkTelegramConfig {
  BotToken : string;
  BotTokenFile : string;
  ChatID : Z;
  ChatIDFile : string;
  Message : string;
  ParseMode : string;
}.

Definition maxMessageLenRunes : Z := 4096.
Definition too_long : string := "Alertmanager notification could not be sent: message length exceeds Telegram limits.
			Please check the template used for producing the message content.".

Definition messageText (conf : TelegramConfig) (data : Template.Data) : N () string :=
  if bool_decide (ParseMode conf = "HTML"%string) then
    m ← TmplHTML data (Message conf);
    check_tmpl false;;
    mret (if maxMessageLenRunes <? Z.of_nat (length (runes (bytes m))) then too_long else m)
  else
    m ← TmplText data (Message conf);
    t ← TruncateInRunes m maxMessageLenRunes;
    check_tmpl false;;
    mret t.

Definition getBotToken (conf : TelegramConfig) : N () string :=
  if is_empty (BotTokenFile conf) then mret (BotToken conf)
  else content ← ReadFile true (BotTokenFile conf); mret (Strings.TrimSpace content).

(** [strconv.ParseInt] in base 10 with 64 bits, of a trimmed text. *)
Definition getChatID (conf : TelegramConfig) : N () Z :=
  if is_empty (ChatIDFile conf) then mret (ChatID conf)
  else
    content ← ReadFile true (ChatIDFile conf);
    match Strconv.Atoi (Strings.TrimSpace content) with
    | Some id => mret id
    | None => fail true (OtherError "could not parse chat_id")
    end.

(** What is handed to the client: the token, the chat and the text. *)
Definition prepare (conf : TelegramConfig) (c : Call) : N () (string * Z * string) :=
  match Notify.GroupKey (c_ctx c) with
  | None => fail false NoGroupKey
  | Some _ =>
      text ← messageText conf (call_data c);
      token ← getBotToken conf;
      chatID ← getChatID conf;
      mret (token, chatID, text)
  end.
End telegram.
End Telegram.

(** * SNS notifier (notify/sns/sns.go)

    The input of the publication; the client is that of the AWS SDK. *)
Module SNS.
Import Notifier.

Section sns.
Context `{RE : Regexp, PM : PromModel, FP : Fingerprinter, FS : FingerprintString, NL : NotifierLib}.

Record SNSConfig := mkSNSConfig {
  TopicARN : string;
  PhoneNumber : string;
  TargetARN : string;
  Subject : string;
  Message : string;
  Attributes : list (string * string);
}.

Record PublishInput := mkPublishInput {
  p_TopicArn : option string;
  MessageDeduplicationId : option string;
  p_PhoneNumber : option string;
  p_TargetArn : option string;
  p_Message : string;
  MessageAttributes : gmap string string;
  p_Subject : option string;
}.

(** The size is compared and cut in bytes. *)
Definition validateAndTruncateMessage (message : string) (maxMessageSizeInBytes : Z) : result string (string * bool) :=
  if negb (ValidString message) then Err "non utf8 encoded message string"%string
  else if Z.of_nat (length (bytes message)) <=? maxMessageSizeInBytes then Ok (message, false)
  else Ok (of_bytes (take (Z.to_nat maxMessageSizeInBytes) (bytes message)), true).

(** An error of a template, with the reason of a client error, is retried like
    every error of the input. *)
Definition tmpl_or_retry (tmpl : string → N () string) (s : string) : N () string :=
  v ← tmpl s; check_tmpl true;; mret v.

Definition optional (tmpl : string → N () string) (s : string) : N () (option string) :=
  if is_empty s then mret None else v ← tmpl_or_retry tmpl s; mret (Some v).

Definition createPublishInput (conf : SNSConfig) (c : Call) : N () PublishInput :=
  let tmpl := TmplText (call_data c) in
  attrs ← each (λ x, k ← tmpl x.1; v ← tmpl x.2; mret (k, v)) (Attributes conf);
  check_tmpl true;;
  let attributes := foldl (λ m x, <[x.1 := x.2]> m) (∅ : gmap string string) attrs in
  topic ← optional tmpl (TopicARN conf);
  dedup ←
    match topic with
    | Some t =>
        if Strings.HasSuffix t ".fifo" then
          match Notify.GroupKey (c_ctx c) with
          | Some key => mret (Some (sha256_hex key))
          | None => fail true NoGroupKey
          end
        else mret None
    | None => mret None
    end;
  phone ← optional tmpl (PhoneNumber conf);
  let messageSizeLimit := if is_empty (PhoneNumber conf) then 262144 else 1600 in
  target ← optional tmpl (TargetARN conf);
  m ← tmpl_or_retry tmpl (Message conf);
  '(message, truncated) ← lift true OtherError (validateAndTruncateMessage m messageSizeLimit);
  subject ← optional tmpl (Subject conf);
  mret (mkPublishInput topic dedup phone target message
          (if truncated : bool then <["truncated"%string := "true"%string]> attributes else attributes) subject).
End sns.
End SNS.

(** * Theorems about the WeChat and SNS notifiers *)
Import Notifier.

Section wechat.
Context `{RE : Regexp, PM : PromModel, FP : Fingerprinter, FS : FingerprintString, NL : NotifierLib, CL : ConfigLib}.
Context `{EN : Encoder Wechat.body} (decode_token : string → option string)
        (Unmarshal : string → result string (Z * string)).
Import Wechat.

(** At most one request is sent, and it is one of these. *)
Definition one_request {A} (Q : request body → Prop) (m : N body A) : Prop := ∀ e w,
  sent (m e w).1 = sent w ∨ ∃ q, Q q ∧ sent (m e w).1 = sent w ++ [q].

Lemma one_request_still {A} Q (m : N body A) : still m → one_request Q m.
Proof. intros H e w. left. apply H. Qed.
Lemma one_request_bind {A B} Q (m : N body A) (f : A → N body B) :
  still m → (∀ a, one_request Q (f a)) → one_request Q (m ≫= f).
Proof.
  intros Hm Hf e w. rewrite N_bind_run. specialize (Hm e w). destruct (m e w) as [w' [a|er]]; cbn in *; [|by left].
  rewrite <- Hm. apply Hf.
Qed.
Lemma one_request_do {A} (Q : request body → Prop) q (f : result request_error response → N body A) :
  Q q → (∀ r, still (f r)) → one_request Q (do_request q ≫= f).
Proof.
  intros Hq Hf e w. rewrite N_bind_run. unfold do_request. destruct (NewRequest_ok _); [right|left; apply Hf].
  exists q. split; [exact Hq|apply Hf].
Qed.

(** A message that is sent with a token. *)
Definition message_with (token : string) (q : request body) : Prop :=
  (∃ m, r_body q = MessageSend m) ∧ r_query q = [("access_token"%string, token)].

Lemma send_message_requests conf d token :
  one_request (message_with token) (send_message Unmarshal conf (TmplText d) token).
Proof.
  unfold send_message.
  do 5 (apply one_request_bind; [apply still_TmplText|intros ?]).
  apply one_request_bind; [apply still_check_tmpl|intros []].
  apply one_request_bind; [apply still_inert, inert_encode|intros ?].
  apply one_request_do; [split; [by eexists|done]|]. intros r. apply still_inert. inert_all.
Qed.

Lemma fetch_token_requests conf d :
  one_request (λ q, r_body q = GetToken) (fetch_token decode_token conf (TmplText d)).
Proof.
  unfold fetch_token, getApiSecret.
  apply one_request_bind; [apply still_inert; solve_inert|intros ?].
  do 2 (apply one_request_bind; [apply still_TmplText|intros ?]).
  apply one_request_do; [done|]. intros r. apply still_inert. inert_all.
Qed.

Lemma fetch_token_set conf d : yields (fetch_token decode_token conf (TmplText d)) (λ t, t ≠ ""%string).
Proof.
  unfold fetch_token. do 5 (apply yields_bind; intros ?). repeat case_match; try apply yields_fail.
  apply yields_ret. unfold is_empty in *. case_bool_decide; done.
Qed.

(** A token is fetched when it is needed, and a message is sent with a token that
    was cached or has just been fetched. *)
Theorem wechat_token_cached conf n now1 now2 c e w :
  let '(n', (w', r)) := Wechat.Notify decode_token Unmarshal conf n now1 now2 c e w in
  ∃ fetched posted, sent w' = sent w ++ fetched ++ posted ∧
    (fetched = [] ∨ needs_token n now1 = true ∧ ∃ q, fetched = [q] ∧ r_body q = GetToken) ∧
    (posted = [] ∨ ∃ q token, posted = [q] ∧ message_with token q ∧ token ≠ ""%string ∧
       (needs_token n now1 = false → fetched = [] ∧ token = accessToken n) ∧
       (accessToken n' = token ∨ accessToken n' = ""%string)).
Proof.
  unfold Wechat.Notify.
  assert (Hk : inert (ExtractGroupKey (P := body) (c_ctx c))) by apply inert_ExtractGroupKey.
  specialize (Hk e w). destruct (ExtractGroupKey _ e w) as [w0 [key|x]]; cbn in Hk; subst w0;
    [|exists [], []; rewrite app_nil_r; auto].
  assert (Hsend : ∀ m w1 fetched, sent w1 = sent w ++ fetched → accessToken m ≠ ""%string →
    (fetched = [] ∨ needs_token n now1 = true ∧ ∃ q, fetched = [q] ∧ r_body q = GetToken) →
    (needs_token n now1 = false → fetched = [] ∧ m = n) →
    let '(n', (w', r)) :=
      match send_message Unmarshal conf (TmplText (call_data c)) (accessToken m) e w1 with
      | (w, Err x) => (m, (w, Err x))
      | (w, Ok code) =>
          if code =? 0 then (m, (w, Ok false))
          else if code =? expired then (mkNotifier "" (accessTokenAt m), (w, Err (true, ResponseError "expired")))
          else (m, (w, Err (false, ResponseError "error")))
      end in
    ∃ fetched posted, sent w' = sent w ++ fetched ++ posted ∧
    (fetched = [] ∨ needs_token n now1 = true ∧ ∃ q, fetched = [q] ∧ r_body q = GetToken) ∧
    (posted = [] ∨ ∃ q token, posted = [q] ∧ message_with token q ∧ token ≠ ""%string ∧
       (needs_token n now1 = false → fetched = [] ∧ token = accessToken n) ∧
       (accessToken n' = token ∨ accessToken n' = ""%string))).
  { intros m w1 fetched Hw1 Hne Hf Hn.
    pose proof (send_message_requests conf (call_data c) (accessToken m) e w1) as Hs.
    destruct (send_message _ _ _ _ e w1) as [w2 r2]. cbn [fst] in Hs.
    assert (Hany : ∀ n', (accessToken n' = accessToken m ∨ accessToken n' = ""%string) →
      ∃ fetched posted, sent w2 = sent w ++ fetched ++ posted ∧
      (fetched = [] ∨ needs_token n now1 = true ∧ ∃ q, fetched = [q] ∧ r_body q = GetToken) ∧
      (posted = [] ∨ ∃ q token, posted = [q] ∧ message_with token q ∧ token ≠ ""%string ∧
         (needs_token n now1 = false → fetched = [] ∧ token = accessToken n) ∧
         (accessToken n' = token ∨ accessToken n' = ""%string))).
    { intros n' Hn'. exists fetched. destruct Hs as [Hs|(q & Hq & Hs)]; rewrite Hs, Hw1.
      - exists []. rewrite app_nil_r. auto.
      - exists [q]. rewrite <- app_assoc. split; [done|]. split; [done|]. right. exists q, (accessToken m).
        split_and!; auto. intros Hst. destruct (Hn Hst) as [-> ->]. auto. }
    repeat case_match; simplify_eq; apply Hany; cbn; auto. }
  destruct (needs_token n now1) eqn:En.
  - pose proof (fetch_token_requests conf (call_data c) e w) as Hr.
    pose proof (fetch_token_set conf (call_data c) e w) as Ht.
    destruct (fetch_token _ _ _ e w) as [w1 [t|x]]; cbn [fst] in Hr.
    + specialize (Ht w1 t eq_refl). destruct Hr as [Hr|(q & Hq & Hr)].
      * apply (Hsend (mkNotifier t now2) w1 []); [by rewrite app_nil_r|done|auto|done].
      * apply (Hsend (mkNotifier t now2) w1 [q]); [done|done|eauto|done].
    + destruct Hr as [Hr|(q & Hq & Hr)]; rewrite Hr.
      * exists [], []. rewrite app_nil_r. auto.
      * exists [q], []. rewrite app_nil_r. eauto 10.
  - apply (Hsend n w []); [by rewrite app_nil_r| |auto|auto].
    unfold needs_token in En. apply orb_false_iff in En as [En _]. by apply bool_decide_eq_false in En.
Qed.
End wechat.

(** ** SNS *)

(** A text message of a valid text that is too long is cut inside a character:
    what is sent is not valid UTF-8. *)
Definition long_text : string := of_bytes (replicate 1599 97 ++ [226; 130; 172]).
Theorem sns_truncation_cuts_characters :
  ValidString long_text = true ∧
  match SNS.validateAndTruncateMessage long_text 1600 with
  | Ok (s, truncated) => truncated = true ∧ ValidString s = false
  | Err _ => False
  end.
Proof. vm_compute. done. Qed.

Module WechatExample.
#[local] Existing Instance TemplateExamples.prom_model.
#[local] Existing Instance TemplateExamples.size_fingerprint.
#[local] Existing Instance TemplateExamples.fingerprint_string.
#[local] Existing Instance NotifierExamples.text_lib.
#[local] Existing Instance NotifierExamples.url_lib.
#[local] Existing Instance NotifierExamples.any_encoder.

(** The template of the secret fails: the token is asked for with an empty one. *)
Theorem wechat_empty_secret_sent :
  let conf := Wechat.mkWechatConfig "!secret" "" "corp" "text" (mkURL "https://qyapi.weixin.qq.com" "/cgi-bin/")
                "" "" "" "" "text" in
  let '(_, (w, _)) := Wechat.Notify (λ _, Some "tok"%string) (λ _, Ok (0, ""%string)) conf (Wechat.mkNotifier "" 0) 0 0
      (NotifierExamples.call "g" None) (NotifierExamples.answer (mkResponse 200 "" "" (Ok ""%string))) start in
  tmplErr w ≠ None ∧ r_query <$> sent w = [[("corpid", ""); ("corpsecret", "")]]%string.
Proof. vm_compute. done. Qed.
End WechatExample.
