(* ===== verification/EventRecorder.v ===== *)
(** * The event recorder (eventrecorder/, kafka/)

    Events are queued without blocking the caller, taken from the queue by one
    goroutine, and handed to every configured output.  The outputs over HTTP
    collect events into batches and retry; the output to Kafka has a queue of
    its own.  HTTP, Kafka and the encoding of events are arguments. *)

From Stdlib Require Import Ascii String.
From stdpp Require Import base gmap strings list sorting relations.
From S2P Require Import Prelude Utf8.

Module EventRecorder.
#[local] Open Scope Z_scope.

(** ** Configuration *)

(** kafka/kafka.go *)
Record ClientOptions := mkClientOptions {
  Brokers : list string;
  Topic : string;
  ClientID : string;
  Acks : string;
  Compression : string;
}.

Definition Validate (o : ClientOptions) : result string () :=
  if bool_decide (Brokers o = []) then Err "kafka: at least one broker is required"%string
  else if bool_decide (""%string ∈ Brokers o) then Err "kafka: broker entries must be non-empty"%string
  else if negb (bool_decide (Acks o ∈ [""; "none"; "leader"; "all"]%string)) then Err "kafka: unknown acks"%string
  else if negb (bool_decide (Compression o ∈ [""; "none"; "gzip"; "snappy"; "lz4"; "zstd"]%string))
  then Err "kafka: unknown compression"%string
  else Ok ().

Definition ValidateFormat (format : string) : result string () :=
  if bool_decide (format ∈ ["json"; "protobuf"]%string) then Ok () else Err "kafka: unknown format"%string.

(** kafka/client.go: the acknowledgement level and whether writes stay
    idempotent, which needs all acknowledgements. *)
Inductive ack_level := NoAck | LeaderAck | AllISRAcks.
Definition acksOpt (s : string) : result string ack_level :=
  if bool_decide (s ∈ [""; "leader"]%string) then Ok LeaderAck
  else if bool_decide (s = "none"%string) then Ok NoAck
  else if bool_decide (s = "all"%string) then Ok AllISRAcks
  else Err "kafka: unknown acks"%string.

Definition compressionCodec (s : string) : result string string :=
  if bool_decide (s ∈ ["none"; "gzip"; "snappy"; "lz4"; "zstd"]%string) then Ok s
  else Err "kafka: unknown compression"%string.

Record client_opts := mkClientOpts {
  k_brokers : list string;
  k_client : string;
  k_topic : option string;
  k_acks : ack_level;
  k_idempotent : bool;
  k_codec : option string;
}.

(** The TLS configuration is a library's: its error is an argument. *)
Definition BuildOpts (o : ClientOptions) (tls : result string ()) : result string client_opts :=
  Validate o;;
  let clientID := if bool_decide (ClientID o = ""%string) then "alertmanager"%string else ClientID o in
  acks ← acksOpt (Acks o);
  codec ← (if bool_decide (Compression o = ""%string) then Ok None
           else c ← compressionCodec (Compression o); Ok (Some c));
  tls;;
  Ok (mkClientOpts (Brokers o) clientID (if bool_decide (Topic o = ""%string) then None else Some (Topic o))
        acks (bool_decide (Acks o = "all"%string)) codec).

(** kafka/broker.go: lists of brokers up to their order. *)
Definition sorted_brokers (l : list string) : list string := merge_sort String.le l.
Definition BrokerList (l : list string) : string := String.concat "," (sorted_brokers l).
Definition BrokerListsEqual (a b : list string) : bool :=
  bool_decide (length a = length b) && bool_decide (sorted_brokers a = sorted_brokers b).

(** ** The configurations of the outputs

    The HTTP and TLS configurations are values of a library that are compared
    deeply. *)
Section recorder.
Context {HTTPConfig TLSConfig : Type} `{EqDecision HTTPConfig, EqDecision TLSConfig}.

Record FileOutputConfig := mkFile { Path : string }.
Definition File_Unmarshal (c : FileOutputConfig) : result string FileOutputConfig :=
  if bool_decide (Path c = ""%string) then Err "event_recorder file output requires a path"%string else Ok c.
Definition File_equal (c o : FileOutputConfig) : bool := bool_decide (Path c = Path o).

(** A URL with what is asked of it; a nil one is [None]. *)
Record url := mkUrl { Scheme : string; Host : string; url_String : string }.

Record WebhookOutputConfig := mkWebhook {
  URL : option url;
  w_HTTP : option HTTPConfig;
  Timeout : duration;
  Workers : Z;
  MaxRetries : Z;
  RetryBackoff : duration;
  Batch : bool;
  BatchMaxEvents : Z;
  BatchMaxBytes : Z;
  BatchFlushInterval : duration;
}.

Definition Webhook_Unmarshal (c : WebhookOutputConfig) : result string WebhookOutputConfig :=
  match URL c with
  | None => Err "event_recorder webhook output requires a url"%string
  | Some u =>
      if bool_decide (Scheme u = ""%string) || bool_decide (Host u = ""%string)
      then Err "event_recorder webhook output requires an absolute http(s) url"%string
      else if (BatchMaxEvents c <? 0) || (BatchMaxBytes c <? 0) || (BatchFlushInterval c <? 0)
      then Err "event_recorder webhook batch settings cannot be negative"%string
      else if negb (Batch c) &&
              (negb (BatchMaxEvents c =? 0) || negb (BatchMaxBytes c =? 0) || negb (BatchFlushInterval c =? 0))
      then Err "event_recorder webhook batch settings require batch: true"%string
      else Ok c
  end.

Record httpBatchConfig := mkBatchConfig { maxEvents : Z; maxBytes : Z; flushInterval : duration }.
#[global] Instance httpBatchConfig_eq_dec : EqDecision httpBatchConfig.
Proof. solve_decision. Defined.

Definition millisecond : duration := 1000000.
Definition newHTTPBatchConfig (me mb : Z) (fi : duration) : httpBatchConfig :=
  mkBatchConfig (if 0 <? me then me else 100) (if 0 <? mb then mb else 1048576)
    (if 0 <? fi then fi else 100 * millisecond).

Definition batch_config (c : WebhookOutputConfig) : httpBatchConfig :=
  newHTTPBatchConfig (BatchMaxEvents c) (BatchMaxBytes c) (BatchFlushInterval c).

Definition Webhook_equal (c o : WebhookOutputConfig) : bool :=
  let str u := match u with Some u => url_String u | None => ""%string end in
  bool_decide (str (URL c) = str (URL o)) && (Timeout c =? Timeout o) && (Workers c =? Workers o) &&
  (MaxRetries c =? MaxRetries o) && (RetryBackoff c =? RetryBackoff o) && bool_decide (Batch c = Batch o) &&
  (negb (Batch c) || bool_decide (batch_config c = batch_config o)) && bool_decide (w_HTTP c = w_HTTP o).

Record KafkaOutputConfig := mkKafka {
  k_options : ClientOptions;
  Format : string;
  BufferSize : Z;
  k_TLS : option TLSConfig;
}.

Definition Kafka_Unmarshal (c : KafkaOutputConfig) : result string KafkaOutputConfig :=
  Validate (k_options c);;
  if bool_decide (Topic (k_options c) = ""%string) then Err "event_recorder kafka output requires a topic"%string else
  let format := if bool_decide (Format c = ""%string) then "json"%string else Format c in
  ValidateFormat format;;
  Ok (mkKafka (k_options c) format (BufferSize c) (k_TLS c)).

Definition Kafka_equal (c o : KafkaOutputConfig) : bool :=
  let a := k_options c in let b := k_options o in
  BrokerListsEqual (Brokers a) (Brokers b) && bool_decide (Topic a = Topic b) &&
  bool_decide (ClientID a = ClientID b) && bool_decide (Format c = Format o) && bool_decide (Acks a = Acks b) &&
  bool_decide (Compression a = Compression b) && (BufferSize c =? BufferSize o) && bool_decide (k_TLS c = k_TLS o).

Record Config := mkConfig {
  FileOutputs : list FileOutputConfig;
  WebhookOutputs : list WebhookOutputConfig;
  KafkaOutputs : list KafkaOutputConfig;
  StdoutOutputs : nat;
}.

Definition totalOutputs (c : Config) : nat :=
  length (FileOutputs c) + length (WebhookOutputs c) + length (KafkaOutputs c) + StdoutOutputs c.

(** The loop over two lists of the same length. *)
Fixpoint all_equal {A} (eq : A → A → bool) (l k : list A) : bool :=
  match l, k with
  | [], [] => true
  | x :: l, y :: k => eq x y && all_equal eq l k
  | _, _ => false
  end.

Definition configEqual (a b : Config) : bool :=
  all_equal File_equal (FileOutputs a) (FileOutputs b) &&
  all_equal Webhook_equal (WebhookOutputs a) (WebhookOutputs b) &&
  all_equal Kafka_equal (KafkaOutputs a) (KafkaOutputs b) &&
  bool_decide (StdoutOutputs a = StdoutOutputs b).

(** ** Batches over HTTP (eventrecorder/webhook.go) *)
Abbreviation payload := (list Z).

(** [jsonArray]: the events between brackets, with commas. *)
Fixpoint json_tail (events : list payload) : payload :=
  match events with
  | [] => [93]
  | e :: events => 44 :: e ++ json_tail events
  end.
Definition jsonArray (events : list payload) : payload :=
  match events with
  | [] => [91; 93]
  | e :: events => 91 :: e ++ json_tail events
  end.

(** The local variables of [batchLoop], with what was sent to [wo.batches]; of
    the timer, whether it runs. *)
Record batcher := mkBatcher {
  batch : list payload;
  batchSize : Z;
  timer : bool;
  batches : list payload;
}.
Definition new_batcher : batcher := mkBatcher [] 2 false [].

Definition flush (b : batcher) : batcher :=
  match batch b with
  | [] => mkBatcher [] (batchSize b) false (batches b)
  | l => mkBatcher [] 2 false (batches b ++ [jsonArray l])
  end.

Definition batch_add (c : httpBatchConfig) (b : batcher) (data : payload) : batcher :=
  let additional := Z.of_nat (length data) + (match batch b with [] => 0 | _ => 1 end) in
  let n := Z.of_nat (length (batch b)) in
  let '(b, additional) :=
    if (0 <? n) && ((maxEvents c <=? n) || (maxBytes c <? batchSize b + additional))
    then (flush b, Z.of_nat (length data)) else (b, additional) in
  let l := batch b ++ [data] in
  let b := mkBatcher l (batchSize b + additional) (timer b || bool_decide (length l = 1%nat)) (batches b) in
  if (maxEvents c <=? Z.of_nat (length l)) || (maxBytes c <=? batchSize b) then flush b else b.

(** The cases of the select; a timer that does not run does not fire. *)
Inductive batch_input := Data (data : payload) | Tick.
Definition batch_step (c : httpBatchConfig) (b : batcher) (i : batch_input) : batcher :=
  match i with
  | Data d => batch_add c b d
  | Tick => if timer b then flush b else b
  end.

(** The loop until it is told to stop, with what it then finds in its queue. *)
Definition batchLoop (c : httpBatchConfig) (inputs : list batch_input) (rest : list payload) : batcher :=
  flush (foldl (batch_add c) (foldl (batch_step c) new_batcher inputs) rest).

Definition data_of (inputs : list batch_input) : list payload :=
  omap (λ i, match i with Data d => Some d | Tick => None end) inputs.

(** ** Delivery over HTTP: [postWithRetry]

    The answers of the server are an argument, one per attempt, and whether the
    output was cancelled during the wait after it. *)
Definition maxBackoff : duration := 30 * second.
Definition backoff (base : duration) (attempt : nat) : duration :=
  Z.min (wrap64 (Z.shiftl base (Z.of_nat attempt))) maxBackoff.

Inductive outcome := Delivered | Abandoned | Cancelled.
Inductive post_action := Posted | Waited (d : duration).

(** [post]: the status code of the answer, or an error. *)
Definition post (answer : option Z) : bool :=
  match answer with Some code => Z.quot code 100 =? 2 | None => false end.

Fixpoint post_loop (base : duration) (answers : nat → option Z) (cancelled : nat → bool) (attempt remaining : nat)
    : list post_action * outcome :=
  match remaining with
  | O => ([], Abandoned)
  | S remaining =>
      if post (answers attempt) then ([Posted], Delivered)
      else match remaining with
           | O => ([Posted], Abandoned)
           | S _ =>
               if cancelled attempt then ([Posted; Waited (backoff base attempt)], Cancelled)
               else let '(l, r) := post_loop base answers cancelled (S attempt) remaining in
                    (Posted :: Waited (backoff base attempt) :: l, r)
           end
  end.
Definition postWithRetry (maxRetries : nat) (base : duration) (answers : nat → option Z) (cancelled : nat → bool) :=
  post_loop base answers cancelled 0 maxRetries.

(** ** The recorder (eventrecorder/recorder.go) *)
Context {Event : Type}.

Inductive output_config :=
| FileOutput (c : FileOutputConfig)
| WebhookOutput (c : WebhookOutputConfig)
| KafkaOutput (c : KafkaOutputConfig)
| StdoutOutput.

(** An output that was built: the events it was given, and whether it was
    closed. *)
Record output := mkOutput { o_config : output_config; o_events : list Event; o_closed : bool }.

(** The configured outputs in the order in which they are built. *)
Definition wanted (c : Config) : list output_config :=
  (FileOutput <$> FileOutputs c) ++ (WebhookOutput <$> WebhookOutputs c) ++ (KafkaOutput <$> KafkaOutputs c) ++
  replicate (StdoutOutputs c) StdoutOutput.

(** [buildOutputs]: an output whose constructor fails is left out. *)
Definition builds (ok : output_config → bool) (c : output_config) : bool :=
  match c with StdoutOutput => true | _ => ok c end.
Definition buildOutputs (ok : output_config → bool) (c : Config) : list output_config :=
  List.filter (builds ok) (wanted c).

Inductive loop_state := Running | Draining | Exited.
#[global] Instance loop_state_eq_dec : EqDecision loop_state.
Proof. solve_decision. Defined.

(** The state shared by all copies of a recorder, with the variables of its
    loop.  [heap] holds every output that was ever built. *)
Record sharedRecorder := mkRecorder {
  events : list Event;
  heap : list output;
  outputs : list nat;
  currentCfg : Config;
  done_ : bool;
  loop : loop_state;
}.

Definition eventQueueSize : nat := 8192.

(** The new outputs, at the end of the heap. *)
Definition allocate (h : list output) (cs : list output_config) : list output * list nat :=
  (h ++ ((λ c, mkOutput c [] false) <$> cs), seq (length h) (length cs)).

Definition NewRecorderFromConfig (ok : output_config → bool) (cfg : Config) : sharedRecorder :=
  let '(h, outs) := allocate [] (buildOutputs ok cfg) in mkRecorder [] h outs cfg false Running.

(** [RecordEvent] of an event that the context lets through: without room in the
    queue it is dropped. *)
Definition accepts (c : sharedRecorder) : bool := (length (events c) <? eventQueueSize)%nat.
Definition RecordEvent (c : sharedRecorder) (e : Event) : sharedRecorder :=
  if accepts c
  then mkRecorder (events c ++ [e]) (heap c) (outputs c) (currentCfg c) (done_ c) (loop c)
  else c.

Definition give (e : Event) (o : output) : output := mkOutput (o_config o) (o_events o ++ [e]) (o_closed o).
Definition close_output (o : output) : output := mkOutput (o_config o) (o_events o) true.
Definition on_outputs (f : output → output) (ids : list nat) (h : list output) : list output :=
  foldl (λ h i, alter f i h) h ids.

(** [marshalAndSend] of the next event; a failing output does not keep the
    others from getting it. *)
Definition marshalAndSend (c : sharedRecorder) (e : Event) (q : list Event) : sharedRecorder :=
  mkRecorder q (on_outputs (give e) (outputs c) (heap c)) (outputs c) (currentCfg c) (done_ c) (loop c).

(** The case of [cfgUpdate] in [writeLoop]. *)
Definition update (ok : output_config → bool) (cfg : Config) (c : sharedRecorder) : sharedRecorder :=
  if configEqual cfg (currentCfg c) then c else
  let new := buildOutputs ok cfg in
  let '(h, ids) := allocate (heap c) new in
  if negb (bool_decide (length new = totalOutputs cfg))
  then mkRecorder (events c) (on_outputs close_output ids h) (outputs c) (currentCfg c) (done_ c) (loop c)
  else mkRecorder (events c) (on_outputs close_output (outputs c) h) ids cfg (done_ c) (loop c).

Definition Close (c : sharedRecorder) : sharedRecorder :=
  mkRecorder (events c) (heap c) (outputs c) (currentCfg c) true (loop c).
Definition start_drain (c : sharedRecorder) : sharedRecorder :=
  mkRecorder (events c) (heap c) (outputs c) (currentCfg c) (done_ c) Draining.
Definition finish (c : sharedRecorder) : sharedRecorder :=
  mkRecorder (events c) (on_outputs close_output (outputs c) (heap c)) (outputs c) (currentCfg c) (done_ c) Exited.

(** Callers and the loop interleave; the select of the loop takes any case that
    is ready.  The label of a handled event says which outputs were in use when
    the loop took it from the queue. *)
Inductive label := Accepted (e : Event) | Dropped (e : Event) | Handled (e : Event) (ids : list nat) | Updated | Closed | Draining_ | Finished.
Inductive rec_step (c : sharedRecorder) : label → sharedRecorder → Prop :=
| RecAccept e : accepts c = true → rec_step c (Accepted e) (RecordEvent c e)
| RecDrop e : accepts c = false → rec_step c (Dropped e) (RecordEvent c e)
| RecHandle e q : loop c ≠ Exited → events c = e :: q → rec_step c (Handled e (outputs c)) (marshalAndSend c e q)
| RecUpdate ok cfg : loop c = Running → rec_step c Updated (update ok cfg c)
| RecUpdateLate : loop c = Draining → rec_step c Updated c
| RecClose : rec_step c Closed (Close c)
| RecDrain : loop c = Running → done_ c = true → rec_step c Draining_ (start_drain c)
| RecFinish : loop c = Draining → events c = [] → rec_step c Finished (finish c).

Inductive rec_steps (c : sharedRecorder) : list label → sharedRecorder → Prop :=
| RecRefl : rec_steps c [] c
| RecSnoc tr l c1 c2 : rec_steps c tr c1 → rec_step c1 l c2 → rec_steps c (tr ++ [l]) c2.

Definition accepted (tr : list label) : list Event :=
  omap (λ l, match l with Accepted e => Some e | _ => None end) tr.
Definition handled (tr : list label) : list Event :=
  omap (λ l, match l with Handled e _ => Some e | _ => None end) tr.
(** The events that were handled while an output was in use. *)
Definition handled_for (i : nat) (tr : list label) : list Event :=
  omap (λ l, match l with Handled e ids => if decide (i ∈ ids) then Some e else None | _ => None end) tr.

(** ** Theorems *)

(** Lists of brokers are compared up to their order. *)
Lemma BrokerListsEqual_spec a b : BrokerListsEqual a b = true ↔ a ≡ₚ b.
Proof.
  unfold BrokerListsEqual, sorted_brokers. rewrite andb_true_iff, !bool_decide_eq_true. split.
  - intros [_ H]. rewrite <- (merge_sort_Permutation String.le a), <- (merge_sort_Permutation String.le b), H. done.
  - intros H. split; [by rewrite H|]. apply (Sorted_unique String.le); [apply Sorted_merge_sort, _..|].
    by rewrite !merge_sort_Permutation.
Qed.

(** *** Batches *)
Lemma json_tail_length l :
  Z.of_nat (length (json_tail l)) = 1 + foldr (λ e n, 1 + Z.of_nat (length e) + n) 0 l.
Proof. induction l as [|e l IH]; cbn [json_tail foldr]; [done|]. cbn [length]. rewrite length_app. lia. Qed.

(** The size a batch is counted with is the length of its encoding. *)
Lemma jsonArray_length l :
  Z.of_nat (length (jsonArray l)) =
  match l with [] => 2 | e :: l => 2 + Z.of_nat (length e) + foldr (λ e n, 1 + Z.of_nat (length e) + n) 0 l end.
Proof. destruct l as [|e l]; [done|]. cbn [jsonArray length]. rewrite length_app. pose proof (json_tail_length l). lia. Qed.

Lemma jsonArray_snoc l d :
  Z.of_nat (length (jsonArray (l ++ [d]))) =
  Z.of_nat (length (jsonArray l)) + Z.of_nat (length d) + (match l with [] => 0 | _ => 1 end).
Proof.
  rewrite !jsonArray_length. destruct l as [|e l]; cbn [app foldr]; [lia|].
  enough (H : ∀ n, foldr (λ e n, 1 + Z.of_nat (length e) + n) n (l ++ [d]) =
    1 + Z.of_nat (length d) + foldr (λ e n, 1 + Z.of_nat (length e) + n) n l) by (rewrite H; lia).
  intros n. induction l as [|x l IH]; cbn [app foldr]; lia.
Qed.

(** A batch that may be sent. *)
Definition good_batch (c : httpBatchConfig) (l : list payload) : Prop :=
  l ≠ [] ∧ Z.of_nat (length l) ≤ maxEvents c ∧
  (Z.of_nat (length (jsonArray l)) ≤ maxBytes c ∨ length l = 1%nat).

(** What the loop keeps between two inputs: the batches that were sent and the
    one in hand are the data in order; the size is the length of the encoding;
    the timer runs exactly when something waits; and the limits are not reached.
    [in_hand] is without the last two. *)
Definition in_hand (c : httpBatchConfig) (b : batcher) (seen : list payload) : Prop :=
  ∃ gs, batches b = jsonArray <$> gs ∧ concat gs ++ batch b = seen ∧ Forall (good_batch c) gs ∧
    (batch b ≠ [] → good_batch c (batch b)) ∧
    batchSize b = Z.of_nat (length (jsonArray (batch b))) ∧ timer b = bool_decide (batch b ≠ []).
Definition batcher_ok (c : httpBatchConfig) (b : batcher) (seen : list payload) : Prop :=
  in_hand c b seen ∧ Z.of_nat (length (batch b)) < maxEvents c.

Lemma in_hand_flush c b seen : in_hand c b seen → in_hand c (flush b) seen ∧ batch (flush b) = [].
Proof.
  intros (gs & H1 & H2 & H3 & H4 & H5 & H6). unfold flush. destruct (batch b) as [|e l] eqn:E.
  - split; [|done]. exists gs. cbn in *. by rewrite H5.
  - split; [|done]. exists (gs ++ [e :: l]). cbn [batches batch batchSize timer].
    rewrite fmap_app, H1, concat_app, app_nil_r. cbn [concat]. rewrite app_nil_r.
    split_and!; [done|done| |done|done|done].
    apply Forall_app. split; [done|]. constructor; [|done]. by apply H4.
Qed.

Lemma batcher_ok_flush c b seen : 0 < maxEvents c → in_hand c b seen → batcher_ok c (flush b) seen.
Proof. intros Hc [H Hb]%in_hand_flush. split; [done|]. rewrite Hb. cbn. lia. Qed.

(** One more event in a batch that has room for it. *)
Lemma in_hand_append c b seen data :
  in_hand c b seen → Z.of_nat (length (batch b)) < maxEvents c →
  (batch b = [] ∨ Z.of_nat (length (jsonArray (batch b ++ [data]))) ≤ maxBytes c) →
  in_hand c (mkBatcher (batch b ++ [data])
    (batchSize b + Z.of_nat (length data) + (match batch b with [] => 0 | _ => 1 end))
    (timer b || bool_decide (length (batch b ++ [data]) = 1%nat)) (batches b)) (seen ++ [data]).
Proof.
  intros (gs & H1 & H2 & H3 & H4 & H5 & H6) Hn Hfit. exists gs. cbn [batches batch batchSize timer].
  split_and!; [done|by rewrite app_assoc, H2|done| |by rewrite jsonArray_snoc, H5|].
  - intros _. split_and!; [by destruct (batch b)|rewrite length_app; cbn; lia|].
    destruct Hfit as [-> |]; [by right|by left].
  - rewrite H6. destruct (batch b) as [|x l]; [done|].
    rewrite (bool_decide_eq_true_2 (x :: l ≠ [])), (bool_decide_eq_true_2 ((x :: l) ++ [data] ≠ [])) by done. done.
Qed.

Lemma batcher_ok_add c b seen data :
  0 < maxEvents c → batcher_ok c b seen → batcher_ok c (batch_add c b data) (seen ++ [data]).
Proof.
  intros Hc [Hb Hn]. unfold batch_add.
  set (n := Z.of_nat (length (batch b))) in *.
  set (add := Z.of_nat (length data) + (match batch b with [] => 0 | _ => 1 end)) in *.
  assert (Hsize : batchSize b + add = Z.of_nat (length (jsonArray (batch b ++ [data])))).
  { destruct Hb as (gs & _ & _ & _ & _ & Hs & _). rewrite jsonArray_snoc, Hs. subst add. lia. }
  destruct ((0 <? n) && ((maxEvents c <=? n) || (maxBytes c <? batchSize b + add))) eqn:E.
  - destruct (in_hand_flush c b seen Hb) as [Hf Hfb].
    pose proof (in_hand_append c (flush b) seen data Hf) as Ha. rewrite Hfb in Ha. cbn [app] in Ha.
    rewrite Hfb. cbn [app]. rewrite Z.add_0_r in Ha.
    specialize (Ha ltac:(cbn; lia) ltac:(by left)).
    cbv zeta. case_match eqn:E2; [by apply batcher_ok_flush|]. split; [done|]. cbn in *.
    apply orb_false_iff in E2 as [E2 _]. lia.
  - assert (Hfit : batch b = [] ∨ Z.of_nat (length (jsonArray (batch b ++ [data]))) ≤ maxBytes c).
    { destruct (batch b) as [|x l] eqn:Eb; [by left|]. right.
      apply andb_false_iff in E as [E|E]; [apply Z.ltb_ge in E; unfold n in E; cbn [length] in E; lia|]. apply orb_false_iff in E as [_ E]. lia. }
    pose proof (in_hand_append c b seen data Hb Hn Hfit) as Ha.
    replace (batchSize b + Z.of_nat (length data) + match batch b with [] => 0 | _ => 1 end)
      with (batchSize b + add) in Ha by (subst add; lia).
    cbv zeta. case_match eqn:E2; [by apply batcher_ok_flush|]. split; [done|]. cbn [batch] in *.
    apply orb_false_iff in E2 as [E2 _]. lia.
Qed.

Lemma batcher_ok_step c b seen i :
  0 < maxEvents c → batcher_ok c b seen → batcher_ok c (batch_step c b i) (seen ++ data_of [i]).
Proof.
  intros Hc Hb. destruct i as [d|]; cbn; [by apply batcher_ok_add|]. rewrite app_nil_r.
  destruct (timer b); [apply batcher_ok_flush, Hb; done|done].
Qed.

Lemma batcher_ok_run c inputs b seen :
  0 < maxEvents c → batcher_ok c b seen → batcher_ok c (foldl (batch_step c) b inputs) (seen ++ data_of inputs).
Proof.
  intros Hc. revert b seen. induction inputs as [|i inputs IH]; intros b seen Hb; cbn; [by rewrite app_nil_r|].
  replace (seen ++ _) with ((seen ++ data_of [i]) ++ data_of inputs) by
    (rewrite <- app_assoc; by destruct i).
  apply IH. by apply batcher_ok_step.
Qed.

Lemma batcher_ok_rest c rest b seen :
  0 < maxEvents c → batcher_ok c b seen → batcher_ok c (foldl (batch_add c) b rest) (seen ++ rest).
Proof.
  intros Hc. revert b seen. induction rest as [|d rest IH]; intros b seen Hb; cbn; [by rewrite app_nil_r|].
  rewrite (cons_middle d seen rest), app_assoc. apply IH. by apply batcher_ok_add.
Qed.

Lemma batcher_ok_new c : 0 < maxEvents c → batcher_ok c new_batcher [].
Proof. intros Hc. split; [|cbn; lia]. exists []. by split_and!. Qed.

(** While the loop runs its timer runs exactly when an event waits; when it ends,
    every event it received was sent in exactly one batch, in order, and no batch
    is empty, has too many events, or, unless it is a single event, too many
    bytes. *)
Theorem batches_exact me mb fi inputs rest :
  let c := newHTTPBatchConfig me mb fi in
  let b := foldl (batch_step c) new_batcher inputs in
  timer b = bool_decide (batch b ≠ []) ∧
  ∃ gs, batches (batchLoop c inputs rest) = jsonArray <$> gs ∧ concat gs = data_of inputs ++ rest ∧
    Forall (good_batch c) gs.
Proof.
  cbn zeta. set (c := newHTTPBatchConfig me mb fi).
  assert (Hc : 0 < maxEvents c) by (cbn; destruct (0 <? me) eqn:E; lia).
  pose proof (batcher_ok_run c inputs new_batcher [] Hc (batcher_ok_new c Hc)) as Hb. cbn [app] in Hb.
  split; [by destruct Hb as [(gs & _ & _ & _ & _ & _ & H) _]|].
  apply batcher_ok_rest with (rest := rest) in Hb; [|done].
  destruct Hb as [Hb _]. apply in_hand_flush in Hb as [(gs & H1 & H2 & H3 & _) He].
  exists gs. rewrite He, app_nil_r in H2. done.
Qed.

(** *** Retries *)
Definition posts (l : list post_action) : nat :=
  length (List.filter (λ a, match a with Posted => true | Waited _ => false end) l).
Definition waits (l : list post_action) : list duration :=
  omap (λ a, match a with Waited d => Some d | Posted => None end) l.

Lemma backoff_exact base k :
  0 ≤ base → base * 2 ^ Z.of_nat k < 2 ^ 63 → backoff base k = Z.min (base * 2 ^ Z.of_nat k) maxBackoff.
Proof.
  intros H0 H. unfold backoff. rewrite Z.shiftl_mul_pow2 by lia. rewrite wrap64_id; [done|].
  unfold in_int64. nia.
Qed.

(** With the default of half a second the shift overflows at the 36th attempt:
    the wait is negative, so that the next attempt follows at once. *)
Theorem backoff_overflows : backoff (500 * millisecond) 34 = maxBackoff ∧ backoff (500 * millisecond) 35 < 0.
Proof. by vm_compute. Qed.

Lemma post_loop_spec base answers cancelled n : ∀ a,
  let '(l, r) := post_loop base answers cancelled a n in
  (posts l ≤ n)%nat ∧ waits l = backoff base <$> seq a (length (waits l)) ∧
  (r = Delivered ↔ ∃ k, (a ≤ k < a + n)%nat ∧ post (answers k) = true ∧
     ∀ j, (a ≤ j < k)%nat → post (answers j) = false ∧ cancelled j = false).
Proof.
  induction n as [|n IH]; intros a; [cbn; split_and!; [lia|done|]; split; [done|intros (k & Hk & _); lia]|].
  cbn [post_loop]. destruct (post (answers a)) eqn:Ea.
  { cbn. split_and!; [lia|done|]. split; [|done]. intros _. exists a. split_and!; [lia..|done|lia]. }
  assert (Hlater : (∃ k, (a ≤ k < a + S n)%nat ∧ post (answers k) = true ∧
    ∀ j, (a ≤ j < k)%nat → post (answers j) = false ∧ cancelled j = false) → cancelled a = false ∧
    ∃ k, (S a ≤ k < S a + n)%nat ∧ post (answers k) = true ∧
      ∀ j, (S a ≤ j < k)%nat → post (answers j) = false ∧ cancelled j = false).
  { intros (k & Hk & Hp & Hj). assert (k ≠ a) by (by intros ->; rewrite Ea in Hp). split; [apply Hj; lia|].
    exists k. split_and!; [lia..|done|]. intros j Hj'. apply Hj. lia. }
  destruct n as [|n].
  { cbn. split_and!; [lia|done|]. split; [done|]. intros (k & Hk & Hp & _).
    replace k with a in Hp by lia. congruence. }
  destruct (cancelled a) eqn:Ec.
  { cbn. split_and!; [lia|done|]. split; [done|]. by intros [[=] _]%Hlater. }
  specialize (IH (S a)). destruct (post_loop base answers cancelled (S a) (S n)) as [l r].
  destruct IH as (H1 & H2 & H3). unfold posts, waits in *. cbn [List.filter length omap list_omap]. split_and!.
  - lia.
  - cbn [length seq fmap list_fmap]. f_equal. exact H2.
  - rewrite H3. split.
    + intros (k & Hk & Hp & Hj). exists k. split_and!; [lia..|done|]. intros j Hj'.
      destruct (decide (j = a)) as [->|]; [done|]. apply Hj. lia.
    + by intros [_ H]%Hlater.
Qed.

(** An event is posted at most [maxRetries] times, the waits are those of the
    back-off in order, and it is delivered exactly if one of these posts succeeds
    and no wait before it was cancelled. *)
Theorem post_with_retry_exact maxRetries base answers cancelled :
  let '(l, r) := postWithRetry maxRetries base answers cancelled in
  (posts l ≤ maxRetries)%nat ∧ waits l = backoff base <$> seq 0 (length (waits l)) ∧
  (r = Delivered ↔ ∃ k, (k < maxRetries)%nat ∧ post (answers k) = true ∧
     ∀ j, (j < k)%nat → post (answers j) = false ∧ cancelled j = false).
Proof.
  pose proof (post_loop_spec base answers cancelled maxRetries 0) as H. unfold postWithRetry.
  destruct (post_loop _ _ _ _ _) as [l r]. destruct H as (H1 & H2 & H3). split_and!; [done..|].
  rewrite H3. split; intros (k & Hk & Hp & Hj); exists k; split_and!; try lia; try done; intros j Hj'; apply Hj; lia.
Qed.

(** *** The recorder *)
Lemma on_outputs_lookup f ids h i :
  NoDup ids → on_outputs f ids h !! i = (if bool_decide (i ∈ ids) then f <$> h !! i else h !! i).
Proof.
  unfold on_outputs. revert h. induction ids as [|j ids IH]; intros h Hnd; cbn [foldl]; [done|].
  apply NoDup_cons in Hnd as [Hj Hnd]. rewrite IH by done. destruct (decide (i = j)) as [->|Hne].
  - rewrite (bool_decide_eq_false_2 (j ∈ ids)) by done. rewrite bool_decide_eq_true_2 by set_solver.
    apply list_lookup_alter_eq.
  - rewrite list_lookup_alter_ne by done.
    rewrite (bool_decide_ext (i ∈ j :: ids) (i ∈ ids)) by set_solver. done.
Qed.

Lemma on_outputs_length f ids h : length (on_outputs f ids h) = length h.
Proof.
  unfold on_outputs. revert h. induction ids as [|j ids IH]; intros h; cbn; [done|]. by rewrite IH, length_alter.
Qed.

(** What an output that was built at some time has received of the events
    handled so far: everything while it was in use. *)
Definition received (hs : list Event) (current : bool) (o : output) : Prop :=
  ∃ l1 l2, hs = l1 ++ o_events o ++ l2 ∧ (current = true → l2 = []).

Record rec_inv (hs : list Event) (c : sharedRecorder) : Prop := {
  ri_nodup : NoDup (outputs c);
  ri_valid : ∀ i, i ∈ outputs c → (i < length (heap c))%nat;
  ri_outputs : ∀ i o, heap c !! i = Some o →
    o_closed o = negb (bool_decide (i ∈ outputs c ∧ loop c ≠ Exited)) ∧
    received hs (bool_decide (i ∈ outputs c)) o;
}.

Lemma received_old hs b o : received hs b o → received hs false o.
Proof. intros (l1 & l2 & H & _). by exists l1, l2. Qed.
Lemma received_give hs e o : received hs true o → received (hs ++ [e]) true (give e o).
Proof.
  intros (l1 & l2 & -> & ->); [|done]. exists l1, []. cbn. split; [|done]. by rewrite !app_nil_r, app_assoc.
Qed.
Lemma received_snoc hs e o : received hs false o → received (hs ++ [e]) false o.
Proof. intros (l1 & l2 & -> & _). exists l1, (l2 ++ [e]). split; [|done]. by rewrite <- !app_assoc. Qed.

Lemma allocate_lookup h cs i o :
  (allocate h cs).1 !! i = Some o →
  h !! i = Some o ∧ (i < length h)%nat ∧ i ∉ (allocate h cs).2 ∨
  (length h ≤ i)%nat ∧ i ∈ (allocate h cs).2 ∧ o_events o = [] ∧ o_closed o = false.
Proof.
  cbn. intros [H|[Hi H]]%lookup_app_Some.
  - left. pose proof (lookup_lt_Some _ _ _ H). split_and!; [done|done|]. rewrite elem_of_seq. lia.
  - right. apply list_lookup_fmap_Some in H as (x & -> & Hx). apply lookup_lt_Some in Hx.
    split_and!; [done| |done|done]. rewrite elem_of_seq. lia.
Qed.

Lemma NoDup_allocated h cs : NoDup (allocate h cs).2.
Proof. apply NoDup_ListNoDup, seq_NoDup. Qed.
Lemma allocated_lt h cs i : i ∈ (allocate h cs).2 → (i < length (allocate h cs).1)%nat.
Proof. cbn. rewrite elem_of_seq, length_app, length_fmap. lia. Qed.

Lemma received_nil hs b o : o_events o = [] → received hs b o.
Proof. intros E. exists hs, []. rewrite E. by rewrite app_nil_r. Qed.

Lemma rec_inv_new ok cfg : rec_inv [] (NewRecorderFromConfig ok cfg).
Proof.
  unfold NewRecorderFromConfig. pose proof (NoDup_allocated [] (buildOutputs ok cfg)) as Hnd.
  pose proof (allocated_lt [] (buildOutputs ok cfg)) as Hlt.
  pose proof (allocate_lookup [] (buildOutputs ok cfg)) as Hlk.
  destruct (allocate [] (buildOutputs ok cfg)) as [h ids]. split; cbn in *; [done|done|].
  intros i o [(H & _)|(_ & Hi & He & Hc)]%Hlk; [done|]. rewrite !bool_decide_eq_true_2 by done.
  split; [done|]. by apply received_nil.
Qed.

Lemma rec_inv_handle hs c e q :
  rec_inv hs c → loop c ≠ Exited → rec_inv (hs ++ [e]) (marshalAndSend c e q).
Proof.
  intros [H1 H2 H3] Hl. split; cbn; [done|by rewrite on_outputs_length|].
  intros i o. rewrite on_outputs_lookup by done. case_bool_decide as Hi.
  - intros (o' & Ho & ->)%fmap_Some. destruct (H3 i o' Ho) as [Hc Hr]. split; [done|].
    rewrite bool_decide_eq_true_2 in Hr by done. by apply received_give.
  - intros Ho. destruct (H3 i o Ho) as [Hc Hr]. split; [done|].
    rewrite bool_decide_eq_false_2 in Hr by done. by apply received_snoc.
Qed.

Lemma rec_inv_finish hs c : rec_inv hs c → rec_inv hs (finish c).
Proof.
  intros [H1 H2 H3]. split; cbn; [done|by rewrite on_outputs_length|].
  intros i o. rewrite on_outputs_lookup by done.
  rewrite (bool_decide_eq_false_2 (i ∈ outputs c ∧ Exited ≠ Exited)) by tauto.
  case_bool_decide as Hi.
  - intros (o' & Ho & ->)%fmap_Some. destruct (H3 i o' Ho) as [_ Hr]. split; [done|].
    by rewrite bool_decide_eq_true_2 in Hr by done.
  - intros Ho. destruct (H3 i o Ho) as [Hc Hr]. rewrite bool_decide_eq_false_2 in Hc, Hr by tauto. done.
Qed.

(** A new configuration is taken over as a whole or not at all. *)
Lemma rec_inv_update hs ok cfg c : rec_inv hs c → loop c = Running → rec_inv hs (update ok cfg c).
Proof.
  intros [H1 H2 H3] Hl. unfold update. destruct (configEqual _ _); [by split|].
  pose proof (NoDup_allocated (heap c) (buildOutputs ok cfg)) as Hnd.
  pose proof (allocated_lt (heap c) (buildOutputs ok cfg)) as Hlt.
  pose proof (allocate_lookup (heap c) (buildOutputs ok cfg)) as Hlk.
  assert (Hlen : (length (heap c) ≤ length (allocate (heap c) (buildOutputs ok cfg)).1)%nat)
    by (cbn; rewrite length_app; lia).
  destruct (allocate (heap c) (buildOutputs ok cfg)) as [h ids]. cbn [fst snd] in *.
  destruct (negb _); split; cbn; rewrite ?on_outputs_length; try done.
  - intros i Hi. specialize (H2 i Hi). lia.
  - intros i o. rewrite on_outputs_lookup by done. case_bool_decide as Hi.
    + intros (o' & Ho & ->)%fmap_Some. cbn.
      destruct (Hlk i o' Ho) as [(_ & _ & Hn)|(Hge & _ & He & _)]; [done|].
      assert (i ∉ outputs c) by (intros Hin; specialize (H2 i Hin); lia).
      rewrite !bool_decide_eq_false_2 by tauto. split; [done|]. by apply received_nil.
    + intros Ho. destruct (Hlk i o Ho) as [(Ho' & _)|(_ & Hin & _)]; [by apply H3|done].
  - intros i o. rewrite on_outputs_lookup by done. case_bool_decide as Hi.
    + intros (o' & Ho & ->)%fmap_Some. cbn.
      destruct (Hlk i o' Ho) as [(Ho' & _ & Hn)|(Hge & _)]; [|specialize (H2 i Hi); lia].
      rewrite !bool_decide_eq_false_2 by tauto. split; [done|].
      destruct (H3 i o' Ho') as [_ Hr]. by apply received_old in Hr.
    + intros Ho. destruct (Hlk i o Ho) as [(Ho' & _ & Hn)|(_ & Hin & He & Hc)].
      * destruct (H3 i o Ho') as [Hc Hr]. rewrite !bool_decide_eq_false_2 in Hc, Hr by tauto.
        by rewrite !bool_decide_eq_false_2 by tauto.
      * rewrite !bool_decide_eq_true_2 by (rewrite ?Hl; done). split; [done|]. by apply received_nil.
Qed.

Lemma handled_snoc tr l : handled (tr ++ [l]) = handled tr ++ handled [l].
Proof. apply omap_app. Qed.
Lemma accepted_snoc tr l : accepted (tr ++ [l]) = accepted tr ++ accepted [l].
Proof. apply omap_app. Qed.

(** A state whose output books do not change. *)
Lemma rec_inv_same hs c c' :
  heap c' = heap c → outputs c' = outputs c → (loop c' = Exited ↔ loop c = Exited) → rec_inv hs c → rec_inv hs c'.
Proof.
  intros Hh Ho Hl [H1 H2 H3]. split; rewrite ?Hh, ?Ho; [done|done|]. intros i o Hi.
  destruct (H3 i o Hi) as [Hc Hr]. split; [|done]. rewrite Hc. f_equal. apply bool_decide_ext. tauto.
Qed.

Lemma rec_inv_step hs c l c' : rec_step c l c' → rec_inv hs c → rec_inv (hs ++ handled [l]) c'.
Proof.
  intros Hs Hi. destruct Hs; cbn; rewrite ?app_nil_r;
    auto using rec_inv_handle, rec_inv_update, rec_inv_finish; revert Hi; apply rec_inv_same;
    unfold RecordEvent; repeat case_match; cbn; try done; by split; congruence.
Qed.

Lemma rec_steps_inv ok cfg tr c :
  rec_steps (NewRecorderFromConfig ok cfg) tr c → rec_inv (handled tr) c ∧ accepted tr = handled tr ++ events c.
Proof.
  induction 1 as [|tr l c1 c2 _ [IH1 IH2] Hs].
  - split; [apply rec_inv_new|]. unfold NewRecorderFromConfig. by destruct (allocate _ _).
  - rewrite handled_snoc, accepted_snoc, IH2. split; [by eapply rec_inv_step|].
    destruct Hs as [e He|e He|e q Hl He|ok' cfg' Hl|Hl| |Hl Hd|Hl He]; cbn; rewrite ?app_nil_r; try done.
    + unfold RecordEvent. rewrite He. cbn. by rewrite <- app_assoc.
    + unfold RecordEvent. by rewrite He.
    + rewrite He, <- app_assoc. done.
    + unfold update. repeat case_match; done.
Qed.

Lemma handled_exited c tr c' : loop c = Exited → rec_steps c tr c' → loop c' = Exited ∧ handled tr = [].
Proof.
  intros Hl. induction 1 as [|tr l c1 c2 _ [IH1 IH2] Hs]; [done|]. rewrite handled_snoc, IH2. cbn.
  destruct Hs; try congruence; try (by split); unfold RecordEvent; case_match; by split.
Qed.

(** Before its end a loop has not finished; afterwards it handled what had been
    accepted until then. *)
Lemma exited_drained ok cfg tr c :
  rec_steps (NewRecorderFromConfig ok cfg) tr c → loop c = Exited →
  ∃ tr1 tr2, tr = tr1 ++ Finished :: tr2 ∧ handled tr = accepted tr1.
Proof.
  induction 1 as [|tr l c1 c2 Hr IH Hs]; intros Hl.
  { revert Hl. unfold NewRecorderFromConfig. by destruct (allocate _ _). }
  destruct (decide (loop c1 = Exited)) as [He|Hne].
  - destruct (IH He) as (tr1 & tr2 & -> & Hh). exists tr1, (tr2 ++ [l]). split; [by rewrite <- app_assoc|].
    rewrite handled_snoc, Hh. destruct Hs; try congruence; cbn; by rewrite app_nil_r.
  - exists tr, []. destruct (rec_steps_inv ok cfg tr c1 Hr) as [_ Ha].
    destruct Hs as [e He|e He|e q Hl' He|ok' cfg' Hl'|Hl'| |Hl' Hd|Hl' He]; try (exfalso; apply Hne; cbn in Hl; congruence).
    + exfalso. apply Hne. revert Hl. unfold RecordEvent. by case_match.
    + exfalso. apply Hne. revert Hl. unfold RecordEvent. by case_match.
    + exfalso. apply Hne. revert Hl. unfold update. repeat case_match; cbn; congruence.
    + split; [done|]. rewrite handled_snoc, Ha, He. cbn. done.
Qed.

(** The events of an output, and of one that was not built yet. *)
Definition events_at (h : list output) (i : nat) : list Event := default [] (o_events <$> h !! i).

Lemma events_at_close ids h i : events_at (on_outputs close_output ids h) i = events_at h i.
Proof.
  unfold events_at, on_outputs. f_equal. revert h. induction ids as [|j ids IH]; intros h; cbn [foldl]; [done|].
  rewrite IH. destruct (decide (i = j)) as [->|Hne].
  - rewrite list_lookup_alter_eq. by destruct (h !! j).
  - by rewrite list_lookup_alter_ne.
Qed.

Lemma events_at_allocate h cs i : events_at (allocate h cs).1 i = events_at h i.
Proof.
  unfold events_at. destruct ((allocate h cs).1 !! i) as [o|] eqn:E.
  - destruct (allocate_lookup h cs i o E) as [(-> & _)|(Hi & _ & He & _)]; [done|].
    by rewrite (lookup_ge_None_2 h i Hi).
  - apply lookup_ge_None in E. cbn in E. rewrite length_app in E. by rewrite lookup_ge_None_2 by lia.
Qed.

Lemma events_at_update ok cfg c i : events_at (heap (update ok cfg c)) i = events_at (heap c) i.
Proof.
  unfold update. destruct (configEqual _ _); [done|].
  pose proof (events_at_allocate (heap c) (buildOutputs ok cfg) i) as Ha. destruct (allocate _ _) as [h ids].
  cbn in Ha. destruct (negb _); cbn; by rewrite events_at_close.
Qed.

Lemma events_at_send c e q i :
  NoDup (outputs c) → (∀ i, i ∈ outputs c → (i < length (heap c))%nat) →
  events_at (heap (marshalAndSend c e q)) i = events_at (heap c) i ++ handled_for i [Handled e (outputs c)].
Proof.
  intros Hnd Hlt. unfold events_at. cbn. rewrite on_outputs_lookup by done.
  destruct (decide (i ∈ outputs c)) as [Hi|Hi].
  - rewrite bool_decide_eq_true_2 by done. destruct (lookup_lt_is_Some_2 _ _ (Hlt i Hi)) as [o ->]. done.
  - by rewrite bool_decide_eq_false_2, app_nil_r.
Qed.

(** Every output was given the events that were handled while it was in use. *)
Lemma events_exact ok cfg tr c i :
  rec_steps (NewRecorderFromConfig ok cfg) tr c → events_at (heap c) i = handled_for i tr.
Proof.
  induction 1 as [|tr l c1 c2 Hr IH Hs].
  - pose proof (events_at_allocate [] (buildOutputs ok cfg) i) as Ha. unfold NewRecorderFromConfig.
    destruct (allocate _ _) as [h ids]. exact Ha.
  - destruct (rec_steps_inv ok cfg tr c1 Hr) as [[H1 H2 _] _].
    unfold handled_for in *. rewrite omap_app, <- IH.
    destruct Hs; cbn [heap omap list_omap]; rewrite ?app_nil_r; try done.
    + unfold RecordEvent. by case_match.
    + unfold RecordEvent. by case_match.
    + by apply events_at_send.
    + apply events_at_update.
    + apply events_at_close.
Qed.

(** C33: Under every interleaving of callers, configuration changes and the loop: the
    accepted events are handled in the order of their acceptance, and those
    not yet handled wait in the queue; every output that was ever built has
    exactly the events that were handled while it was in use, in order, which is
    one contiguous stretch of them, up to the last while the output is still in
    use; it is closed exactly when it is no longer in use; and when the loop has
    ended, exactly the events accepted until then were handled, while those
    accepted later stay in the queue. *)
Theorem recorder_exact ok cfg tr c :
  rec_steps (NewRecorderFromConfig ok cfg) tr c →
  accepted tr = handled tr ++ events c ∧
  (∀ i, i ∈ outputs c → is_Some (heap c !! i)) ∧
  (∀ i o, heap c !! i = Some o →
     (o_closed o = false ↔ i ∈ outputs c ∧ loop c ≠ Exited) ∧
     o_events o = handled_for i tr ∧
     ∃ l1 l2, handled tr = l1 ++ o_events o ++ l2 ∧ (i ∈ outputs c → l2 = [])) ∧
  (loop c = Exited → ∃ tr1 tr2, tr = tr1 ++ Finished :: tr2 ∧ handled tr = accepted tr1 ∧ events c = accepted tr2).
Proof.
  intros Hr. destruct (rec_steps_inv ok cfg tr c Hr) as [[_ H2 H3] Ha]. split_and!; [done| | |].
  - intros i Hi. by apply lookup_lt_is_Some_2, H2.
  - intros i o Ho. destruct (H3 i o Ho) as [Hc (l1 & l2 & H & Hl)]. split_and!.
    + rewrite Hc, negb_false_iff. apply bool_decide_eq_true.
    + rewrite <- (events_exact ok cfg tr c i Hr). unfold events_at. by rewrite Ho.
    + exists l1, l2. split; [done|]. intros Hin. apply Hl. by apply bool_decide_eq_true_2.
  - intros Hl. destruct (exited_drained ok cfg tr c Hr Hl) as (tr1 & tr2 & -> & Hh). exists tr1, tr2. split_and!; [done..|].
    rewrite Hh in Ha. unfold accepted in Ha at 1. rewrite omap_app in Ha. by apply app_inv_head in Ha.
Qed.

(** *** Reloads *)
Lemma wanted_length c : length (wanted c) = totalOutputs c.
Proof. unfold wanted, totalOutputs. rewrite !length_app, !length_fmap, length_replicate. lia. Qed.

Lemma filter_all {A} (f : A → bool) l : length (List.filter f l) = length l → List.filter f l = l.
Proof.
  induction l as [|x l IH]; cbn; [done|]. pose proof (List.filter_length_le f l) as Hle.
  destruct (f x); cbn; intros H; [f_equal; apply IH; lia|lia].
Qed.

Lemma all_equal_refl {A} (eq : A → A → bool) l : (∀ x, eq x x = true) → all_equal eq l l = true.
Proof. intros H. induction l as [|x l IH]; cbn; [done|]. by rewrite H, IH. Qed.

Lemma configEqual_refl c : configEqual c c = true.
Proof.
  unfold configEqual. rewrite !all_equal_refl; cbn.
  - by rewrite bool_decide_eq_true_2.
  - intros x. unfold Kafka_equal. rewrite (proj2 (BrokerListsEqual_spec _ _)) by done.
    by rewrite !bool_decide_eq_true_2, Z.eqb_refl.
  - intros x. unfold Webhook_equal. rewrite !bool_decide_eq_true_2, !Z.eqb_refl by done. by destruct (Batch x).
  - intros x. unfold File_equal. by apply bool_decide_eq_true_2.
Qed.

(** The configurations of the outputs in use. *)
Definition in_use (c : sharedRecorder) : list (option output_config) := (λ i, o_config <$> heap c !! i) <$> outputs c.

Lemma allocate_in_use h cs f ids :
  NoDup ids → (∀ i, i ∈ ids → (i < length h)%nat) →
  (λ i, o_config <$> on_outputs f ids (allocate h cs).1 !! i) <$> (allocate h cs).2 = Some <$> cs.
Proof.
  intros Hnd Hlt. apply list_eq. intros k. rewrite !list_lookup_fmap. cbn [allocate fst snd].
  destruct (cs !! k) as [x|] eqn:Ex.
  - pose proof (lookup_lt_Some _ _ _ Ex). rewrite lookup_seq_lt by lia. cbn.
    rewrite on_outputs_lookup by done.
    rewrite bool_decide_eq_false_2 by (intros Hin; specialize (Hlt _ Hin); lia).
    rewrite lookup_app_r by lia. replace (length h + k - length h)%nat with k by lia.
    by rewrite list_lookup_fmap, Ex.
  - apply lookup_ge_None in Ex. rewrite lookup_seq_ge by lia. done.
Qed.

(** A configuration is taken over as a whole or not at all: either all outputs
    of the new one are in use, or those of the old one still are; what fails in
    between is closed again. *)
Theorem recorder_reload_atomic ok0 cfg0 tr c ok cfg :
  rec_steps (NewRecorderFromConfig ok0 cfg0) tr c → loop c = Running →
  let c' := update ok cfg c in
  events c' = events c ∧
  (if configEqual cfg (currentCfg c) then c' = c
   else if forallb (builds ok) (wanted cfg) then in_use c' = Some <$> wanted cfg ∧ currentCfg c' = cfg
   else outputs c' = outputs c ∧ currentCfg c' = currentCfg c ∧
     ∀ i o, heap c' !! i = Some o → i ∉ outputs c → o_closed o = true).
Proof.
  intros Hr Hl. destruct (rec_steps_inv ok0 cfg0 tr c Hr) as [Hinv _].
  pose proof (rec_inv_update _ ok cfg c Hinv Hl) as [_ _ H3'].
  destruct Hinv as [H1 H2 _]. cbn zeta. unfold update in *. destruct (configEqual cfg (currentCfg c)); [done|].
  unfold buildOutputs in *. destruct (forallb (builds ok) (wanted cfg)) eqn:Ef.
  - assert (Hall : List.filter (builds ok) (wanted cfg) = wanted cfg).
    { clear -Ef. induction (wanted cfg) as [|x l IH]; cbn in *; [done|]. apply andb_true_iff in Ef as [-> Ef].
      by rewrite IH. }
    rewrite Hall in *. pose proof (allocate_in_use (heap c) (wanted cfg) close_output (outputs c) H1 H2) as Hu.
    destruct (allocate _ _) as [h ids]. rewrite wanted_length, bool_decide_eq_true_2 by done. cbn. split_and!; done.
  - assert (Hne : length (List.filter (builds ok) (wanted cfg)) ≠ totalOutputs cfg).
    { rewrite <- wanted_length. intros H%filter_all. apply not_true_iff_false in Ef. apply Ef, forallb_forall.
      intros x Hx. rewrite <- H in Hx. apply filter_In in Hx. tauto. }
    destruct (allocate _ _) as [h ids]. rewrite (bool_decide_eq_false_2 _ Hne) in *.
    cbn in *. split_and!; [done..|]. intros i o Ho Hi. destruct (H3' i o Ho) as [-> _].
    by rewrite bool_decide_eq_false_2 by tauto.
Qed.

(** An output that could not be built at the start is not built by a reload of
    the same configuration: the recorder takes it for the current one. *)
Theorem failed_output_not_retried ok ok' cfg :
  update ok' cfg (NewRecorderFromConfig ok cfg) = NewRecorderFromConfig ok cfg.
Proof.
  unfold update. replace (currentCfg (NewRecorderFromConfig ok cfg)) with cfg.
  - by rewrite configEqual_refl.
  - unfold NewRecorderFromConfig. by destruct (allocate _ _).
Qed.

(** ** The output to Kafka (eventrecorder/kafka.go)

    A lock makes enqueueing and closing exclude each other; franz-go's buffer is
    behind [produce]. *)
Record kafkaOutput := mkKafkaOutput {
  work : list payload;
  bufferSize : nat;
  k_closed : bool;
  k_loop : loop_state;
}.

Definition defaultKafkaBufferSize : nat := 1024.
Definition NewKafkaOutput (c : KafkaOutputConfig) : kafkaOutput :=
  mkKafkaOutput [] (if BufferSize c <=? 0 then defaultKafkaBufferSize else Z.to_nat (BufferSize c)) false Running.

Inductive enqueued := Queued | BufferFull | OutputClosed.
Definition enqueue (k : kafkaOutput) (v : payload) : kafkaOutput * enqueued :=
  if k_closed k then (k, OutputClosed)
  else if (length (work k) <? bufferSize k)%nat
  then (mkKafkaOutput (work k ++ [v]) (bufferSize k) (k_closed k) (k_loop k), Queued)
  else (k, BufferFull).

(** The goroutine takes from the queue, and when it is told to stop it empties
    the queue first. *)
Inductive k_label := KEnqueue (v : payload) (r : enqueued) | KProduce (v : payload) | KOther.
Inductive k_step (k : kafkaOutput) : k_label → kafkaOutput → Prop :=
| KSend v : k_step k (KEnqueue v (enqueue k v).2) (enqueue k v).1
| KTake v q : k_loop k ≠ Exited → work k = v :: q →
    k_step k (KProduce v) (mkKafkaOutput q (bufferSize k) (k_closed k) (k_loop k))
| KClose : k_step k KOther (mkKafkaOutput (work k) (bufferSize k) true (k_loop k))
| KDrain : k_loop k = Running → k_closed k = true →
    k_step k KOther (mkKafkaOutput (work k) (bufferSize k) (k_closed k) Draining)
| KExit : k_loop k = Draining → work k = [] →
    k_step k KOther (mkKafkaOutput (work k) (bufferSize k) (k_closed k) Exited).

Inductive k_steps (k : kafkaOutput) : list k_label → kafkaOutput → Prop :=
| KRefl : k_steps k [] k
| KSnoc tr l k1 k2 : k_steps k tr k1 → k_step k1 l k2 → k_steps k (tr ++ [l]) k2.

Definition queued (tr : list k_label) : list payload :=
  omap (λ l, match l with KEnqueue v Queued => Some v | _ => None end) tr.
Definition produced (tr : list k_label) : list payload :=
  omap (λ l, match l with KProduce v => Some v | _ => None end) tr.

(** Every value that was queued is produced, in order and once: what was not is
    still in the queue, and once the goroutine has ended nothing is, and nothing
    is queued any more. *)
Theorem kafka_drained cfg tr k :
  k_steps (NewKafkaOutput cfg) tr k →
  queued tr = produced tr ++ work k ∧ (length (work k) ≤ bufferSize k)%nat ∧
  (k_loop k = Exited → k_closed k = true ∧ queued tr = produced tr).
Proof.
  intros H.
  enough (queued tr = produced tr ++ work k ∧ (length (work k) ≤ bufferSize k)%nat ∧
    (k_loop k ≠ Running → k_closed k = true) ∧ (k_loop k = Exited → work k = [])) as (H1 & H2 & H3 & H4).
  { split_and!; [done..|]. intros He. rewrite H1, (H4 He), app_nil_r. split; [|done]. apply H3. congruence. }
  induction H as [|tr l k1 k2 _ (H1 & H2 & H3 & H4) Hs].
  { unfold NewKafkaOutput. cbn. split_and!; [done|lia|done|done]. }
  unfold queued, produced in *. rewrite !omap_app, H1.
  destruct Hs as [v|v q Hl Hw| |Hl Hc|Hl Hw]; cbn -[enqueue].
  - unfold enqueue. destruct (k_closed k1) eqn:Ec; [cbn; by rewrite !app_nil_r, Ec|].
    destruct (length (work k1) <? bufferSize k1)%nat eqn:Eb; cbn; [|by rewrite !app_nil_r, Ec].
    apply Nat.ltb_lt in Eb. rewrite app_nil_r, app_assoc, length_app. cbn. split_and!; [done|lia|auto|].
    intros He. exfalso. enough (false = true) by done. apply H3. congruence.
  - rewrite Hw in *. cbn in *. rewrite app_nil_r, <- app_assoc. split_and!; [done|lia|done|by intros He].
  - rewrite !app_nil_r. split_and!; done.
  - rewrite !app_nil_r. split_and!; done.
  - rewrite !app_nil_r. split_and!; try done. intros _. apply H3. congruence.
Qed.
End recorder.

(** ** Examples *)
Definition ex_config : @Config unit unit := mkConfig [mkFile "/var/log/am.jsonl"] [] [] 1.
Definition ex_recorder : sharedRecorder := NewRecorderFromConfig (Event := nat) (λ _, true) ex_config.

(** Two events, a shutdown, and the end of the loop. *)
Definition ex_trace : list label := [Accepted 1%nat; Accepted 2%nat; Handled 1%nat [0; 1]%nat; Closed; Draining_; Handled 2%nat [0; 1]%nat; Finished].
Definition ex_end : sharedRecorder :=
  finish (marshalAndSend (start_drain (Close (marshalAndSend (RecordEvent (RecordEvent ex_recorder 1%nat) 2%nat) 1%nat [2%nat])))
    2%nat []).

Lemma ex_run : rec_steps ex_recorder ex_trace ex_end.
Proof.
  apply (RecSnoc _ [Accepted 1%nat; Accepted 2%nat; Handled 1%nat [0; 1]%nat; Closed; Draining_; Handled 2%nat [0; 1]%nat] _
    (marshalAndSend (start_drain (Close (marshalAndSend (RecordEvent (RecordEvent ex_recorder 1%nat) 2%nat) 1%nat [2%nat]))) 2%nat []));
    [|by constructor].
  apply (RecSnoc _ [Accepted 1%nat; Accepted 2%nat; Handled 1%nat [0; 1]%nat; Closed; Draining_] _
    (start_drain (Close (marshalAndSend (RecordEvent (RecordEvent ex_recorder 1%nat) 2%nat) 1%nat [2%nat])))); [|by constructor].
  apply (RecSnoc _ [Accepted 1%nat; Accepted 2%nat; Handled 1%nat [0; 1]%nat; Closed] _
    (Close (marshalAndSend (RecordEvent (RecordEvent ex_recorder 1%nat) 2%nat) 1%nat [2%nat]))); [|by constructor].
  apply (RecSnoc _ [Accepted 1%nat; Accepted 2%nat; Handled 1%nat [0; 1]%nat] _
    (marshalAndSend (RecordEvent (RecordEvent ex_recorder 1%nat) 2%nat) 1%nat [2%nat])); [|by constructor].
  apply (RecSnoc _ [Accepted 1%nat; Accepted 2%nat] _ (RecordEvent (RecordEvent ex_recorder 1%nat) 2%nat)); [|by constructor].
  apply (RecSnoc _ [Accepted 1%nat] _ (RecordEvent ex_recorder 1%nat)); [|by constructor].
  apply (RecSnoc _ [] _ ex_recorder); by constructor.
Qed.

Lemma recorder_exact_witness :
  (o_events <$> heap ex_end) = [[1; 2]; [1; 2]]%nat ∧
  accepted ex_trace = handled ex_trace ++ events ex_end ∧ (∃ tr1 tr2, ex_trace = tr1 ++ Finished :: tr2 ∧
    handled ex_trace = accepted tr1 ∧ events ex_end = accepted tr2) ∧ handled_for 0 ex_trace = [1; 2]%nat.
Proof.
  pose proof (recorder_exact (λ _, true) ex_config ex_trace ex_end ex_run) as (H1 & _ & _ & H3).
  split_and!; [reflexivity|exact H1|by apply H3|reflexivity].
Defined.

Lemma recorder_reload_atomic_witness :
  let c' := update (λ _, false) (mkConfig [mkFile "/nonexistent/x"] [] [] 0) ex_recorder in
  outputs c' = outputs ex_recorder ∧ currentCfg c' = ex_config.
Proof.
  pose proof (recorder_reload_atomic (λ _, true) ex_config [] ex_recorder (λ _, false)
    (mkConfig [mkFile "/nonexistent/x"] [] [] 0) (RecRefl _) eq_refl) as [_ H].
  vm_compute in H. vm_compute. tauto.
Defined.

(** A batch of two events and one of one. *)
Example ex_batches :
  batches (batchLoop (newHTTPBatchConfig 2 0 0) [Data [49]; Data [50]; Tick] [[51]]) =
  [[91; 49; 44; 50; 93]; [91; 51; 93]].
Proof. reflexivity. Qed.
End EventRecorder.
