(* ===== verification/Lifecycle.v ===== *)
(** * The life of the application (app/, featurecontrol/)

    [New] wires the subsystems and registers what has to be undone; [Start]
    serves; [Stop] undoes everything in reverse order.  What the subsystems do is
    modelled elsewhere: here a subsystem is a resource that is opened and shut,
    and whether its constructor fails is an argument. *)

From Stdlib Require Import Ascii String.
From stdpp Require Import base gmap strings list sorting relations.
From S2P Require Import Prelude Utf8 Strconv Cluster.

Module Lifecycle.
#[local] Open Scope Z_scope.

(** ** Feature flags (featurecontrol/featurecontrol.go) *)
Inductive feature :=
| AlertNamesInMetrics | ReceiverNameInMetrics | GroupKeyInMetrics | FeatureClassicMode | FeatureUTF8StrictMode
| AutoGOMEMLIMIT | EventRecorder.
#[global] Instance feature_eq_dec : EqDecision feature.
Proof. solve_decision. Defined.
Definition AllowedFlags : list (string * feature) :=
  [("alert-names-in-metrics", AlertNamesInMetrics); ("receiver-name-in-metrics", ReceiverNameInMetrics);
   ("group-key-in-metrics", GroupKeyInMetrics); ("classic-mode", FeatureClassicMode);
   ("utf8-strict-mode", FeatureUTF8StrictMode); ("auto-gomemlimit", AutoGOMEMLIMIT);
   ("event-recorder", EventRecorder)]%string.

(** The flags that are set; none is [NoopFlags]. *)
Abbreviation Flags := (feature → bool).
Definition NoopFlags : Flags := λ _, false.
Definition enable (fc : Flags) (f : feature) : Flags := λ g, bool_decide (f = g) || fc g.

Definition find_feature (name : string) : option feature :=
  snd <$> List.find (λ p, bool_decide (p.1 = name)) AllowedFlags.

Fixpoint feature_options (names : list string) : result string (list feature) :=
  match names with
  | [] => Ok []
  | name :: names =>
      match find_feature name with
      | None => Err ("unknown option '" +:+ name +:+ "' for --enable-feature")
      | Some f => fs ← feature_options names; Ok (f :: fs)
      end
  end.

Definition feature_names (features : string) : list string := of_bytes <$> Strconv.split_at 44 (bytes features).

Definition NewFlags (features : string) : result string Flags :=
  if bool_decide (features = ""%string) then Ok NoopFlags else
  opts ← feature_options (feature_names features);
  let fc := foldl enable NoopFlags opts in
  if fc FeatureClassicMode && fc FeatureUTF8StrictMode
  then Err "cannot have both classic and UTF-8 modes enabled"%string
  else Ok fc.

(** ** Options (app/options.go) *)
Record FlagConfig := mkFlagConfig {
  WebListenAddresses : option (list string);
  WebSystemdSocket : option bool;
  WebConfigFile : option string;
}.

(** The fields that validation, set-up and teardown read. *)
Record Options := mkOptions {
  ConfigFile : string;
  DataDir : string;
  Retention : duration;
  MaintenanceInterval : duration;
  AlertGCInterval : duration;
  DispatchMaintenanceInterval : duration;
  WebConfig : option FlagConfig;
  ExternalURL : string;
  RoutePrefix : string;
  ClusterBindAddr : string;
  PeerTimeout : duration;
  PeersResolveTimeout : duration;
  GossipInterval : duration;
  PushPullInterval : duration;
  TCPTimeout : duration;
  ProbeTimeout : duration;
  ProbeInterval : duration;
  ReconnectInterval : duration;
  PeerReconnectTimeout : duration;
  Logger : bool;
  Registerer : bool;
  Flagger : option bool;    (** whether the event recorder is enabled *)
}.

(** The durations of the command line's flags; clustering is off and the
    dependencies are the caller's. *)
Definition DefaultOptions : Options :=
  mkOptions "alertmanager.yml" "data/" (120 * hour) (15 * minute) (30 * minute) (30 * second) None "" "" ""
    (15 * second) (15 * second) (200 * 1000000) (60 * second) (10 * second) (500 * 1000000) (1 * second) (10 * second)
    (6 * hour) false false None.

Definition usingSystemdSocket (o : Options) : bool :=
  match WebConfig o with
  | Some w => default false (WebSystemdSocket w)
  | None => false
  end.

Definition no_listeners (w : FlagConfig) : bool :=
  match WebListenAddresses w with None | Some [] => true | Some _ => false end.

(** The loops over the durations stop at the first that is not positive. *)
Fixpoint all_positive (suffix : string) (l : list (string * duration)) : result string () :=
  match l with
  | [] => Ok ()
  | (name, val) :: l =>
      if val <=? 0 then Err ("alertmanager/app: Options." +:+ name +:+ " must be positive" +:+ suffix)
      else all_positive suffix l
  end.

Definition intervals (o : Options) : list (string * duration) :=
  [("Retention"%string, Retention o); ("MaintenanceInterval"%string, MaintenanceInterval o);
   ("AlertGCInterval"%string, AlertGCInterval o); ("DispatchMaintenanceInterval"%string, DispatchMaintenanceInterval o)].
Definition cluster_intervals (o : Options) : list (string * duration) :=
  [("PeerTimeout"%string, PeerTimeout o); ("PeersResolveTimeout"%string, PeersResolveTimeout o);
   ("GossipInterval"%string, GossipInterval o); ("PushPullInterval"%string, PushPullInterval o);
   ("TCPTimeout"%string, TCPTimeout o); ("ProbeTimeout"%string, ProbeTimeout o);
   ("ProbeInterval"%string, ProbeInterval o); ("ReconnectInterval"%string, ReconnectInterval o);
   ("PeerReconnectTimeout"%string, PeerReconnectTimeout o)].

Definition clustered (o : Options) : bool := negb (bool_decide (ClusterBindAddr o = ""%string)).

Definition validate (o : Options) : result string () :=
  if negb (Logger o) then Err "alertmanager/app: Options.Logger is required"%string
  else if negb (Registerer o) then Err "alertmanager/app: Options.Registerer is required"%string
  else match Flagger o with
  | None => Err "alertmanager/app: Options.Flagger is required"%string
  | Some _ =>
      if bool_decide (ConfigFile o = ""%string) then Err "alertmanager/app: Options.ConfigFile is required"%string
      else if bool_decide (DataDir o = ""%string) then Err "alertmanager/app: Options.DataDir is required"%string
      else
        all_positive "" (intervals o);;
        match WebConfig o with
        | None => Err "alertmanager/app: Options.WebConfig is required"%string
        | Some w =>
            if negb (usingSystemdSocket o) && no_listeners w
            then Err "alertmanager/app: Options.WebConfig must contain at least one listen address (or enable WebSystemdSocket)"%string
            else match WebConfigFile w with
            | None => Err "alertmanager/app: Options.WebConfig.WebConfigFile must be set (use a pointer to an empty string to disable web TLS/auth config)"%string
            | Some _ => if clustered o then all_positive " when clustering is enabled" (cluster_intervals o) else Ok ()
            end
        end
  end.

(** ** The external URL (app/url.go); [Parse] is net/url's. *)
Record URL := mkURL { u_Scheme : string; u_Path : string; u_rest : string }.

Definition extURL `{NetAddress} (Parse : string → result string URL) (hostname : result string string)
    (listen external : string) : result string URL :=
  external ←
    (if bool_decide (external = ""%string) then
       h ← hostname;
       match SplitHostPort listen with
       | None => Err "address without port"%string
       | Some (_, port) => Ok ("http://" +:+ h +:+ ":" +:+ port +:+ "/")
       end
     else Ok external);
  u ← Parse external;
  if negb (bool_decide (u_Scheme u ∈ ["http"; "https"]%string))
  then Err "invalid scheme, only 'http' and 'https' are supported"%string
  else
    let ppref := Strings.TrimRight (u_Path u) 47 in
    let ppref := if negb (bool_decide (ppref = ""%string)) && negb (Strings.HasPrefix ppref "/")
                 then "/" +:+ ppref else ppref in
    Ok (mkURL (u_Scheme u) ppref (u_rest u)).

(** The prefix of the routes: the option, or the path of the external URL. *)
Definition Trim (s : string) (c : Z) : string := of_bytes (Strings.drop_byte c (bytes (Strings.TrimRight s c))).
Definition routePrefix (o : Options) (amURL : URL) : string :=
  let p := if bool_decide (RoutePrefix o = ""%string) then u_Path amURL else RoutePrefix o in
  "/" +:+ Trim p 47.

(** ** What is opened and shut *)
Inductive resource :=
| RPeer         (** the goroutines that wait for the peer's [stopc] *)
| RMemberlist   (** the sockets and goroutines of memberlist and its transport *)
| RSettle | RRecorder | RNflogMaintenance | RSilenceMaintenance | RAlerts | RListener (n : nat) | RTracing
| RActive     (** the inhibitor and the dispatcher *)
| RRouter | RServe.   (** the goroutines of [Start] *)
#[global] Instance resource_eq_dec : EqDecision resource.
Proof. solve_decision. Defined.

Inductive action := Open (r : resource) | Shut (r : resource) | StartupEvent | ShutdownEvent.
Abbreviation trace := (list action).

(** Whether a resource is open after a trace. *)
Definition alive_step (r : resource) (b : bool) (a : action) : bool :=
  match a with
  | Open r' => if decide (r = r') then true else b
  | Shut r' => if decide (r = r') then false else b
  | _ => b
  end.
Definition alive (w : trace) (r : resource) : bool := foldl (alive_step r) false w.

(** Shutting what is open of a list. *)
Definition shut (rs : list resource) (w : trace) : trace :=
  foldl (λ w r, if alive w r then w ++ [Shut r] else w) w rs.

(** The steps of the clean-up stack, by what their functions do. *)
Inductive cleanup := CPeer | CRecorder | CShutdownEvent | CMaintenance | CAlerts | CListeners | CTracing | CReloader.
Definition cleanup_name (c : cleanup) : string :=
  match c with
  | CPeer => "cluster peer leave" | CRecorder => "event recorder" | CShutdownEvent => "shutdown event"
  | CMaintenance => "maintenance" | CAlerts => "alerts" | CListeners => "listeners" | CTracing => "tracing"
  | CReloader => "dispatcher+inhibitor"
  end.

Record App := mkApp {
  cleanups : list cleanup;
  coordinator : bool;
  server : bool;
  listeners : list string;
  started : bool;
  stopped : bool;
  startErr : option string;
  stopErr : list string;
}.
Definition newApp : App := mkApp [] false false [] false false None [].

(** What a clean-up step shuts.  [Peer.Leave] closes [stopc] and announces the
    departure; memberlist itself is not shut down by any of them. *)
Definition covers (n : nat) (c : cleanup) : list resource :=
  match c with
  | CPeer => [RSettle; RPeer]
  | CRecorder => [RRecorder]
  | CShutdownEvent => []
  | CMaintenance => [RNflogMaintenance; RSilenceMaintenance]
  | CAlerts => [RAlerts]
  | CListeners => RListener <$> seq 0 n
  | CTracing => [RTracing]
  | CReloader => [RActive]
  end.

(** The function of a step; only leaving the cluster reports an error.  The
    shutdown event is discarded without a recorder. *)
Definition run_cleanup (leave : option string) (n : nat) (c : cleanup) (w : trace) : trace * list string :=
  match c with
  | CShutdownEvent => (if alive w RRecorder then w ++ [ShutdownEvent] else w, [])
  | CPeer => (shut (covers n c) w, match leave with Some e => [cleanup_name c +:+ ": " +:+ e] | None => [] end)
  | _ => (shut (covers n c) w, [])
  end.

(** ** Set-up (app/app.go) *)

(** The outcomes of the constructors and system calls; an error is the one that
    the set-up returns. *)
Record outcomes := mkOutcomes {
  x_MkdirAll : option string;
  x_TLS : option string;
  x_Create : option string;     (** an error of [cluster.Create] before its delegate exists *)
  x_transport : option string;  (** of the TLS transport *)
  x_memberlist : option (string * bool);
    (** of [memberlist.Create], and whether the listener of the transport it was given stays open *)
  x_LoadFile : option string;
  x_nflog : option string;
  x_silence : option string;
  x_alerts : option string;
  x_api : option string;
  x_systemd : result string (list string);
  x_listen : string → result string string;   (** the bound address *)
  x_hostname : result string string;
  x_ApplyConfig : option string;
}.

Definition M (A : Type) : Type := App * trace → (App * trace) * result string A.
#[global] Instance M_ret : MRet M := λ A a s, (s, Ok a).
#[global] Instance M_bind : MBind M := λ A B f m s,
  match m s with
  | (s, Ok a) => f a s
  | (s, Err e) => (s, Err e)
  end.
Definition attempt {A} (r : result string A) : M A := λ s, (s, r).
Definition check (err : option string) : M () := λ s, (s, match err with Some e => Err e | None => Ok () end).
Definition open (rs : list resource) : M () := λ s, ((s.1, s.2 ++ (Open <$> rs)), Ok ()).
Definition emit (l : list action) : M () := λ s, ((s.1, s.2 ++ l), Ok ()).

Definition onStop (c : cleanup) : M () := λ s,
  let a := s.1 in
  ((mkApp (cleanups a ++ [c]) (coordinator a) (server a) (listeners a) (started a) (stopped a) (startErr a) (stopErr a),
    s.2), Ok ()).
Definition set_listeners (ls : list string) : M () := λ s,
  let a := s.1 in
  ((mkApp (cleanups a) (coordinator a) (server a) ls (started a) (stopped a) (startErr a) (stopErr a), s.2), Ok ()).
Definition set_coordinator : M () := λ s,
  let a := s.1 in
  ((mkApp (cleanups a) true (server a) (listeners a) (started a) (stopped a) (startErr a) (stopErr a), s.2), Ok ()).
Definition set_server : M () := λ s,
  let a := s.1 in
  ((mkApp (cleanups a) (coordinator a) true (listeners a) (started a) (stopped a) (startErr a) (stopErr a), s.2), Ok ()).

(** app/listen.go: when an address cannot be bound, those that were are closed. *)
Fixpoint listen_loop (listenOne : string → result string string) (addrs bound : list string) : M (list string) :=
  match addrs with
  | [] => mret bound
  | addr :: addrs => λ s,
      match listenOne addr with
      | Ok l => listen_loop listenOne addrs (bound ++ [l]) (s.1, s.2 ++ [Open (RListener (length bound))])
      | Err e => ((s.1, s.2 ++ (Shut <$> (RListener <$> seq 0 (length bound)))), Err e)
      end
  end.

Definition listenAll (x : outcomes) (flags : FlagConfig) : M (list string) :=
  if default false (WebSystemdSocket flags) then
    ls ← attempt (x_systemd x);
    match ls with
    | [] => attempt (Err "alertmanager/app: no socket activation file descriptors found"%string)
    | _ => open (RListener <$> seq 0 (length ls));; mret ls
    end
  else
    match WebListenAddresses flags with
    | None | Some [] => attempt (Err "no listeners"%string)
    | Some addrs => listen_loop (x_listen x) addrs []
    end.

Section setup.
Context `{NetAddress} (Parse : string → result string URL).

(** The function is one straight line; its parts are named here from the end. *)
Definition setup_config (x : outcomes) : M () :=
  open [RTracing];;
  onStop CTracing;;
  set_coordinator;;
  onStop CReloader;;
  check (x_ApplyConfig x);;
  open [RActive];;
  set_server.

Definition setup_web (o : Options) (x : outcomes) : M () :=
  check (x_api x);;
  ls ← listenAll x (default (mkFlagConfig None None None) (WebConfig o));
  set_listeners ls;;
  onStop CListeners;;
  attempt (extURL Parse (x_hostname x) (default ""%string (head ls)) (ExternalURL o));;
  setup_config x.

Definition setup_stores (o : Options) (x : outcomes) : M () :=
  check (x_nflog x);;
  open [RNflogMaintenance];;
  onStop CMaintenance;;
  check (x_silence x);;
  open [RSilenceMaintenance];;
  (if clustered o then open [RSettle] else mret ());;
  check (x_alerts x);;
  open [RAlerts];;
  onStop CAlerts;;
  setup_web o x.

Definition setup_recorder (o : Options) (x : outcomes) : M () :=
  check (x_LoadFile x);;
  (if default false (Flagger o) then open [RRecorder] else mret ());;
  onStop CRecorder;;
  (if default false (Flagger o) then emit [StartupEvent] else mret ());;
  onStop CShutdownEvent;;
  setup_stores o x.

(** cluster/cluster.go: the delegate's goroutine runs before the transport and
    memberlist are created, and nobody stops it when one of these fails. *)
Definition Create (x : outcomes) : M () :=
  check (x_Create x);;
  open [RPeer];;
  check (x_transport x);;
  match x_memberlist x with
  | None => open [RMemberlist]
  | Some (e, kept) => (if kept then open [RMemberlist] else mret ());; attempt (Err e)
  end.

Definition setup_cluster (o : Options) (x : outcomes) : M () :=
  if clustered o then Create x;; onStop CPeer else mret ().

Definition setup (o : Options) (x : outcomes) : M () :=
  attempt (validate o);;
  check (x_MkdirAll x);;
  check (x_TLS x);;
  setup_cluster o x;;
  setup_recorder o x.
End setup.

(** ** Start and Stop (app/lifecycle.go) *)
Definition Start (s : App * trace) : (App * trace) * option string :=
  let '(a, w) := s in
  if started a then (s, startErr a)
  else if stopped a then (s, Some "alertmanager/app: App.Start called after Stop"%string)
  else if negb (server a) || bool_decide (listeners a = []) then
    let err := Some "alertmanager/app: App.Start called before successful New"%string in
    ((mkApp (cleanups a) (coordinator a) (server a) (listeners a) false (stopped a) err (stopErr a), w), err)
  else ((mkApp (cleanups a) (coordinator a) (server a) (listeners a) true (stopped a) (startErr a) (stopErr a),
         w ++ [Open RRouter; Open RServe]), None).

(** What [Stop] meets: errors of the server's shutdown and of leaving, and
    whether the waits for the two goroutines run into the timeout. *)
Record stop_outcomes := mkStopOutcomes {
  y_Shutdown : option string;
  y_router_timeout : bool;
  y_serve_timeout : bool;
  y_leave : option string;
}.

Definition stop_server (y : stop_outcomes) (a : App) (w : trace) : trace * list string :=
  if server a then
    (if started a then shut (RListener <$> seq 0 (length (listeners a))) w else w,
     match y_Shutdown y with Some e => [e] | None => [] end)
  else (w, []).

Definition stop_goroutines (y : stop_outcomes) (a : App) (w : trace) : trace * list string :=
  if started a then
    let '(w, e1) := if y_router_timeout y then (w, ["reload router shutdown"%string]) else (shut [RRouter] w, []) in
    let '(w, e2) := if y_serve_timeout y then (w, ["serve drain"%string]) else (shut [RServe] w, []) in
    (w, e1 ++ e2)
  else (w, []).

(** The clean-ups in reverse order; an error does not keep the others from
    running. *)
Definition run_cleanups (leave : option string) (n : nat) (cs : list cleanup) (w : trace) : trace * list string :=
  foldl (λ p c, let '(w, e) := run_cleanup leave n c p.1 in (w, p.2 ++ e)) (w, []) cs.

Definition Stop (y : stop_outcomes) (s : App * trace) : (App * trace) * list string :=
  let '(a, w) := s in
  if stopped a then (s, stopErr a) else
  let '(w, e1) := stop_server y a w in
  let '(w, e2) := stop_goroutines y a w in
  let '(w, e3) := run_cleanups (y_leave y) (length (listeners a)) (rev (cleanups a)) w in
  let err := e1 ++ e2 ++ e3 in
  ((mkApp (cleanups a) (coordinator a) (server a) (listeners a) (started a) true (startErr a) err, w), err).

(** [New] rolls back what a failed set-up has registered. *)
Definition New `{NetAddress} (Parse : string → result string URL) (o : Options) (x : outcomes) (y : stop_outcomes)
    : trace * result string App :=
  match setup Parse o x (newApp, []) with
  | (s, Ok _) => (s.2, Ok s.1)
  | (s, Err e) => ((Stop y s).1.2, Err e)
  end.

(** [App.Reload]; the coordinator's reload is an argument. *)
Definition Reload (r : option string) (a : App) : option string :=
  if negb (coordinator a) then Some "alertmanager/app: App.Reload called before successful New"%string
  else if stopped a then Some "alertmanager/app: App.Reload called after Stop"%string
  else r.

(** [serveLoop]: the value that is ready on [serveErrc] ([Some None]: it was
    closed), whether the context is done, and which case the select takes when
    both are ready.  [None]: the loop still waits. *)
Definition listener_failed (e : string) : string := "alertmanager: HTTP listener failed: " +:+ e.
Definition serveLoop (done : bool) (errc : option (option string)) (prefer_done : bool) : option (option string) :=
  match done, errc with
  | false, None => None
  | true, None => Some None
  | true, Some err =>
      if prefer_done then Some (match err with Some e => Some (listener_failed e) | None => None end)
      else Some (listener_failed <$> err)
  | false, Some err => Some (listener_failed <$> err)
  end.

(** ** Theorems *)
#[local] Arguments alive : simpl never.
#[local] Arguments shut : simpl never.
Lemma alive_app w1 w2 r : alive (w1 ++ w2) r = foldl (alive_step r) (alive w1 r) w2.
Proof. apply foldl_app. Qed.

Lemma alive_Open w rs r : alive (w ++ (Open <$> rs)) r = alive w r || bool_decide (r ∈ rs).
Proof.
  rewrite alive_app. generalize (alive w r). induction rs as [|r' rs IH]; intros b; cbn; [by rewrite orb_false_r|].
  rewrite IH. destruct (decide (r = r')) as [->|Hne].
  - rewrite (bool_decide_eq_true_2 (r' ∈ r' :: rs)) by set_solver. by rewrite orb_true_r.
  - by rewrite (bool_decide_ext (r ∈ r' :: rs) (r ∈ rs)) by set_solver.
Qed.

Lemma alive_Shut w rs r : alive (w ++ (Shut <$> rs)) r = alive w r && negb (bool_decide (r ∈ rs)).
Proof.
  rewrite alive_app. generalize (alive w r). induction rs as [|r' rs IH]; intros b; cbn; [by rewrite andb_true_r|].
  rewrite IH. destruct (decide (r = r')) as [->|Hne].
  - rewrite (bool_decide_eq_true_2 (r' ∈ r' :: rs)) by set_solver. by rewrite andb_false_r.
  - by rewrite (bool_decide_ext (r ∈ r' :: rs) (r ∈ rs)) by set_solver.
Qed.

Lemma alive_shut rs w r : alive (shut rs w) r = alive w r && negb (bool_decide (r ∈ rs)).
Proof.
  unfold shut. revert w. induction rs as [|r' rs IH]; intros w; cbn [foldl]; [by rewrite andb_true_r|].
  rewrite IH. assert (H : alive (if alive w r' then w ++ [Shut r'] else w) r = alive w r && negb (bool_decide (r = r'))).
  { destruct (alive w r') eqn:E.
    - change [Shut r'] with (Shut <$> [r']). rewrite alive_Shut. do 2 f_equal. apply bool_decide_ext. set_solver.
    - destruct (decide (r = r')) as [->|Hne]; [by rewrite E|].
      by rewrite bool_decide_eq_false_2, andb_true_r. }
  rewrite H, <- andb_assoc, <- negb_orb. do 2 f_equal.
  destruct (bool_decide_reflect (r = r')), (bool_decide_reflect (r ∈ rs)), (bool_decide_reflect (r ∈ r' :: rs));
    set_solver.
Qed.

Lemma alive_run_cleanup leave n c w r :
  alive (run_cleanup leave n c w).1 r = alive w r && negb (bool_decide (r ∈ covers n c)).
Proof.
  destruct c; cbn [run_cleanup fst]; try apply alive_shut. cbn [covers].
  rewrite bool_decide_eq_false_2 by set_solver. rewrite andb_true_r.
  destruct (alive w RRecorder); [by rewrite alive_app|done].
Qed.

(** After the clean-ups exactly what none of them covers is left. *)
Lemma alive_run_cleanups leave n cs w r :
  alive (run_cleanups leave n cs w).1 r = true ↔ alive w r = true ∧ ∀ c, c ∈ cs → r ∉ covers n c.
Proof.
  unfold run_cleanups. generalize (@nil string). revert w. induction cs as [|c cs IH]; intros w es; cbn [foldl].
  - set_solver.
  - pose proof (alive_run_cleanup leave n c w r) as Hc. cbn [fst snd].
    destruct (run_cleanup leave n c w) as [w' e]. cbn [fst] in Hc. rewrite IH, Hc, andb_true_iff, negb_true_iff.
    rewrite bool_decide_eq_false. set_solver.
Qed.

(** *** Set-up: what is open is covered by a registered clean-up *)
Lemma covers_memberlist n c : RMemberlist ∉ covers n c.
Proof. destruct c; cbn; set_solver. Qed.

Section covered.
Context (ml : bool).    (** whether memberlist was created *)

Record covered (s : App * trace) : Prop := {
  cov_alive : ∀ r, alive s.2 r = true → r ≠ RMemberlist → ∃ c, c ∈ cleanups s.1 ∧ r ∈ covers (length (listeners s.1)) c;
  cov_memberlist : alive s.2 RMemberlist = ml;
  cov_started : started s.1 = false;
  cov_stopped : stopped s.1 = false;
}.

(** A step keeps this on every exit; if it succeeds the post-condition holds. *)
Definition safe {A} (pre : App → Prop) (m : M A) (post : App → Prop) : Prop := ∀ s,
  covered s → pre s.1 → covered (m s).1 ∧ (is_ok (m s).2 = true → post (m s).1.1).

Lemma safe_bind {A B} pre mid post (m : M A) (f : A → M B) :
  safe pre m mid → (∀ a, safe mid (f a) post) → safe pre (m ≫= f) post.
Proof.
  intros Hm Hf s Hs Hpre. destruct (Hm s Hs Hpre) as [H1 H2]. unfold mbind, M_bind.
  destruct (m s) as [s' [a|e]]; cbn in *; [apply Hf; auto|done].
Qed.
Lemma safe_ret {A} (pre : App → Prop) (a : A) : safe pre (mret a) pre.
Proof. by intros s Hs Hp. Qed.
Lemma safe_attempt {A} (pre : App → Prop) (r : result string A) : safe pre (attempt r) pre.
Proof. by intros s Hs Hp. Qed.
Lemma safe_check (pre : App → Prop) e : safe pre (check e) pre.
Proof. by intros s Hs Hp. Qed.
Lemma M_bind_run {A B} (m : M A) (f : A → M B) s :
  (m ≫= f) s = match m s with (s', Ok a) => f a s' | (s', Err e) => (s', Err e) end.
Proof. done. Qed.

Lemma safe_emit (pre : App → Prop) l :
  (∀ b r, foldl (alive_step r) b l = b) → safe pre (emit l) pre.
Proof.
  intros Hl [a w] [H1 Hm H2 H3] Hp. split; [|done]. split; cbn in *; [| |done..].
  - intros r. rewrite alive_app, Hl. auto.
  - by rewrite alive_app, Hl.
Qed.

Lemma alive_Open_memberlist w rs c :
  (∀ n r, r ∈ rs → r ∈ covers n c) → alive (w ++ (Open <$> rs)) RMemberlist = alive w RMemberlist.
Proof.
  intros Hrs. rewrite alive_Open, bool_decide_eq_false_2; [apply orb_false_r|].
  intros Hr%(Hrs 0%nat). by apply covers_memberlist in Hr.
Qed.

(** A resource that a registered clean-up covers may be opened. *)
Lemma safe_open (pre : App → Prop) rs c :
  (∀ a, pre a → c ∈ cleanups a) → (∀ n r, r ∈ rs → r ∈ covers n c) → safe pre (open rs) pre.
Proof.
  intros Hc Hrs [a w] [H1 Hm H2 H3] Hp. split; [|done]. split; cbn in *; [| |done..].
  - intros r. rewrite alive_Open, orb_true_iff, bool_decide_eq_true. intros [Hr|Hr]; [auto|]. exists c. auto.
  - rewrite <- Hm. by apply alive_Open_memberlist with c.
Qed.

(** A registered clean-up: the pre-condition may speak of more of them. *)
Lemma safe_onStop (pre post : App → Prop) c :
  (∀ a, pre a → post (onStop c (a, [])).1.1) → safe pre (onStop c) post.
Proof.
  intros Hpost [a w] [H1 Hm H2 H3] Hp. split; [|intros _; by apply Hpost]. split; cbn in *; [|done..].
  intros r Hr Hne. destruct (H1 r Hr Hne) as (c' & Hc' & Hr'). exists c'. set_solver.
Qed.

(** A resource whose clean-up is registered next. *)
Lemma safe_acquire (pre post : App → Prop) rs c :
  (∀ n r, r ∈ rs → r ∈ covers n c) → (∀ a, pre a → post (onStop c (a, [])).1.1) →
  safe pre (open rs;; onStop c) post.
Proof.
  intros Hrs Hpost [a w] [H1 Hm H2 H3] Hp. split; [|intros _; by apply Hpost].
  unfold mbind, M_bind, open, onStop. split; cbn in *; [| |done..].
  - intros r. rewrite alive_Open, orb_true_iff, bool_decide_eq_true. intros [Hr|Hr] Hne.
    + destruct (H1 r Hr Hne) as (c' & Hc' & Hr'). exists c'. set_solver.
    + exists c. set_solver.
  - rewrite <- Hm. by apply alive_Open_memberlist with c.
Qed.

Lemma safe_set_coordinator (pre : App → Prop) :
  (∀ a, pre a → pre (set_coordinator (a, [])).1.1) → safe pre set_coordinator pre.
Proof. intros Hp' [a w] [H1 Hm H2 H3] Hp. split; [by split|]. intros _. by apply Hp'. Qed.

(** *** Listeners *)
Lemma listen_loop_length f addrs bound s s' ls :
  listen_loop f addrs bound s = (s', Ok ls) → (length bound ≤ length ls)%nat.
Proof.
  revert bound s. induction addrs as [|a addrs IH]; intros bound s; cbn.
  - unfold mret, M_ret. by intros [= _ ->].
  - destruct (f a); [|done]. intros E%IH. rewrite length_app in E. cbn in E. lia.
Qed.

Lemma listen_loop_alive f addrs bound s :
  (∀ i, alive s.2 (RListener i) = bool_decide (i < length bound)%nat) →
  (listen_loop f addrs bound s).1.1 = s.1 ∧
  match listen_loop f addrs bound s with
  | (s', Ok ls) => (∀ r, alive s'.2 r = true → alive s.2 r = true ∨ ∃ i, r = RListener i ∧ (i < length ls)%nat)
  | (s', Err _) => ∀ r, alive s'.2 r = true → alive s.2 r = true ∧ ∀ i, r ≠ RListener i
  end.
Proof.
  revert bound s. induction addrs as [|addr addrs IH]; intros bound s Hb; cbn [listen_loop];
    [unfold mret, M_ret; by auto|].
  destruct (f addr) as [l|e].
  - set (s' := (s.1, s.2 ++ [Open (RListener (length bound))])).
    assert (Ha : ∀ r, alive s'.2 r = alive s.2 r || bool_decide (r = RListener (length bound))).
    { intros r. subst s'. cbn [snd]. change [Open (RListener (length bound))] with (Open <$> [RListener (length bound)]).
      rewrite alive_Open. f_equal. apply bool_decide_ext. set_solver. }
    destruct (IH (bound ++ [l]) s') as [H1 H2].
    { intros i. rewrite Ha, Hb, length_app. cbn.
      destruct (bool_decide_reflect (i < length bound)%nat), (bool_decide_reflect (RListener i = RListener (length bound))),
        (bool_decide_reflect (i < length bound + 1)%nat) as [|]; simplify_eq; try done; try lia. exfalso.
      assert (i = length bound) as -> by lia. done. }
    split; [done|]. destruct (listen_loop f addrs (bound ++ [l]) s') as [s2 [ls|e]] eqn:E.
    + intros r Hr. destruct (H2 r Hr) as [H|H]; [|by right]. rewrite Ha, orb_true_iff, bool_decide_eq_true in H.
      destruct H as [H| ->]; [by left|]. right. exists (length bound). split; [done|].
      enough (length (bound ++ [l]) ≤ length ls)%nat by (rewrite length_app in *; cbn in *; lia).
      by eapply listen_loop_length.
    + intros r Hr. destruct (H2 r Hr) as [H Hn]. rewrite Ha, orb_true_iff, bool_decide_eq_true in H.
      destruct H as [H| ->]; [done|]. by destruct (Hn (length bound)).
  - split; [done|]. cbn [fst snd]. intros r. rewrite alive_Shut, andb_true_iff, negb_true_iff, bool_decide_eq_false.
    intros [Hr Hn]. split; [done|]. intros i ->. rewrite Hb, bool_decide_eq_true in Hr. apply Hn.
    apply list_elem_of_fmap. exists i. split; [done|]. apply elem_of_seq. lia.
Qed.

Lemma listenAll_alive x flags s :
  (∀ i, alive s.2 (RListener i) = false) →
  (listenAll x flags s).1.1 = s.1 ∧
  match listenAll x flags s with
  | (s', Ok ls) => (∀ r, alive s'.2 r = true → alive s.2 r = true ∨ ∃ i, r = RListener i ∧ (i < length ls)%nat)
  | (s', Err _) => ∀ r, alive s'.2 r = true → alive s.2 r = true
  end.
Proof.
  intros Hn. unfold listenAll. destruct (default false (WebSystemdSocket flags)).
  - unfold mbind, M_bind, attempt. destruct (x_systemd x) as [[|l ls]|e]; [by cbn; auto| |by cbn; auto].
    unfold open, mret, M_ret. cbn [fst snd]. split; [done|]. intros r. rewrite alive_Open, orb_true_iff, bool_decide_eq_true.
    intros [H|H]; [by left|]. apply list_elem_of_fmap in H as (i & -> & Hi%elem_of_seq). right. exists i. split; [done|]. lia.
  - destruct (WebListenAddresses flags) as [[|a l]|]; [by cbn; auto| |by cbn; auto].
    destruct (listen_loop_alive (x_listen x) (a :: l) [] s) as [H1 H2].
    { intros i. rewrite Hn. by rewrite bool_decide_eq_false_2 by (cbn; lia). }
    split; [done|]. destruct (listen_loop _ _ _ s) as [s' [ls|e]]; [done|]. intros r Hr. by apply H2.
Qed.

Lemma listen_loop_memberlist f addrs bound s :
  alive (listen_loop f addrs bound s).1.2 RMemberlist = alive s.2 RMemberlist.
Proof.
  revert bound s. induction addrs as [|a addrs IH]; intros bound s; cbn [listen_loop]; [done|].
  destruct (f a) as [l|e]; cbn [fst snd].
  - rewrite IH. cbn [snd]. by rewrite alive_app.
  - rewrite alive_Shut, bool_decide_eq_false_2; [apply andb_true_r|]. rewrite list_elem_of_fmap. naive_solver.
Qed.
Lemma listenAll_memberlist x flags s : alive (listenAll x flags s).1.2 RMemberlist = alive s.2 RMemberlist.
Proof.
  unfold listenAll. destruct (default false (WebSystemdSocket flags)).
  - rewrite M_bind_run. unfold attempt. destruct (x_systemd x) as [[|l ls]|e]; [done| |done].
    rewrite M_bind_run. unfold open, mret, M_ret. cbn [fst snd].
    rewrite alive_Open, bool_decide_eq_false_2; [apply orb_false_r|]. rewrite list_elem_of_fmap. naive_solver.
  - destruct (WebListenAddresses flags) as [[|a l]|]; [done|apply listen_loop_memberlist|done].
Qed.

Lemma safe_listen (pre post : App → Prop) x flags {A} (k : list string → M A) :
  (∀ a, pre a → listeners a = []) →
  (∀ ls, safe (λ a, ∃ a0, pre a0 ∧ a = (onStop CListeners (set_listeners ls (a0, [])).1).1.1) (k ls) post) →
  safe pre (ls ← listenAll x flags; set_listeners ls;; onStop CListeners;; k ls) post.
Proof.
  intros Hnil Hk [a w] Hs Hp. pose proof Hs as [H1 Hm H2 H3]. cbn in *.
  pose proof (listenAll_memberlist x flags (a, w)) as Hml.
  destruct (listenAll_alive x flags (a, w)) as [Ha Hl].
  { intros i. cbn. destruct (alive w (RListener i)) eqn:E; [|done]. destruct (H1 _ E) as (c & _ & Hc); [done|].
    rewrite (Hnil a Hp) in Hc. destruct c; cbn in Hc; set_solver. }
  rewrite (M_bind_run (listenAll x flags)). destruct (listenAll x flags (a, w)) as [[a' w'] [ls|e]]; cbn in Ha; subst a'.
  - refine (Hk ls (mkApp (cleanups a ++ [CListeners]) (coordinator a) (server a) ls (started a) (stopped a)
      (startErr a) (stopErr a), w') _ _); [|by exists a].
    split; cbn in *; [|congruence|done..]. intros r Hr Hne. destruct (Hl r Hr) as [H|(i & -> & Hi)].
    + destruct (H1 r H Hne) as (c & Hc & Hr'). exists c. split; [set_solver|].
      rewrite (Hnil a Hp) in Hr'. destruct c; cbn in *; set_solver.
    + exists CListeners. split; [set_solver|]. cbn. apply list_elem_of_fmap. exists i. split; [done|].
      apply elem_of_seq. lia.
  - split; [|done]. split; cbn in *; [|congruence|done..]. auto.
Qed.
Lemma safe_set_server (pre : App → Prop) : safe pre set_server (λ _, True).
Proof. intros [a w] [H1 Hm H2 H3] Hp. split; [by split|done]. Qed.

Lemma safe_weaken {A} (pre pre' post : App → Prop) (m : M A) :
  (∀ a, pre a → pre' a) → safe pre' m post → safe pre m post.
Proof. intros Hw Hm s Hs Hp. apply Hm; auto. Qed.

Section setup_safe.
Context `{NA : NetAddress} (Parse : string → result string URL).

(** The clean-ups that are registered when the listeners are bound. *)
Definition registered (o : Options) (cs : list cleanup) (a : App) : Prop :=
  cs ⊆ cleanups a ∧ (clustered o = true → CPeer ∈ cleanups a) ∧ listeners a = [].

Lemma registered_onStop o cs c a : registered o cs a → registered o (c :: cs) (onStop c (a, [])).1.1.
Proof. intros (H1 & H2 & H3). cbn. split_and!; [set_solver|set_solver|done]. Qed.

Ltac safe_step :=
  match goal with
  | |- safe _ (attempt _ ≫= _) _ => eapply safe_bind; [apply safe_attempt|intros ?]
  | |- safe _ (check _ ≫= _) _ => eapply safe_bind; [apply safe_check|intros ?]
  | |- safe _ (mret _ ≫= _) _ => eapply safe_bind; [apply safe_ret|intros ?]
  end.

Lemma safe_acquire_then {A} (pre mid post : App → Prop) rs c (k : M A) :
  (∀ n r, r ∈ rs → r ∈ covers n c) → (∀ a, pre a → mid (onStop c (a, [])).1.1) → safe mid k post →
  safe pre (open rs;; onStop c;; k) post.
Proof.
  intros Hrs Hmid Hk.
  exact (safe_bind pre mid post (open rs;; onStop c) (λ _, k) (safe_acquire pre mid rs c Hrs Hmid) (λ _, Hk)).
Qed.

Lemma safe_onStop_then {A} o cs c (k : M A) post :
  safe (registered o (c :: cs)) k post → safe (registered o cs) (onStop c;; k) post.
Proof.
  intros Hk. eapply safe_bind; [apply safe_onStop|intros _; exact Hk]. intros a Ha. by apply registered_onStop.
Qed.

Lemma setup_covered o x s :
  covered s → registered o [] s.1 → covered (setup_recorder Parse o x s).1.
Proof.
  intros Hs Hl. enough (H : safe (registered o []) (setup_recorder Parse o x) (λ _, True)) by (by apply H).
  unfold setup_recorder, setup_stores, setup_web, setup_config. safe_step.
  (* the recorder *)
  assert (Hrec : ∀ k : M (), safe (registered o [CRecorder]) k (λ _, True) →
    safe (registered o []) ((if default false (Flagger o) then open [RRecorder] else mret ());; onStop CRecorder;; k)
      (λ _, True)).
  { intros k Hk. destruct (default false (Flagger o)).
    - eapply safe_acquire_then; [set_solver| |exact Hk]. intros b Hb. by apply registered_onStop.
    - safe_step. by apply safe_onStop_then. }
  apply Hrec. clear Hrec.
  eapply safe_bind; [destruct (default false (Flagger o)); [by apply safe_emit|apply safe_ret]|intros _].
  apply safe_onStop_then. safe_step.
  eapply (safe_acquire_then _ (registered o [CMaintenance; CShutdownEvent; CRecorder]));
    [set_solver|intros b Hb; by apply registered_onStop|].
  safe_step. eapply safe_bind; [apply (safe_open _ _ CMaintenance); [intros b (Hb & _); set_solver|set_solver]|intros _].
  eapply safe_bind.
  { destruct (clustered o) eqn:Ec; [|apply safe_ret].
    apply (safe_open _ _ CPeer); [intros b (_ & Hb & _); by apply Hb|set_solver]. }
  intros _. safe_step.
  eapply (safe_acquire_then _ (registered o [CAlerts; CMaintenance; CShutdownEvent; CRecorder]));
    [set_solver|intros b Hb; by apply registered_onStop|].
  safe_step. apply safe_listen; [by intros b (_ & _ & Hb)|]. intros ls. safe_step.
  eapply (safe_acquire_then _ (λ _, True)); [set_solver|done|].
  eapply safe_bind; [by apply safe_set_coordinator|intros _].
  eapply safe_bind; [apply (safe_onStop _ (λ b, CReloader ∈ cleanups b)); intros b _; cbn; set_solver|intros _].
  safe_step. eapply safe_bind; [apply (safe_open _ _ CReloader); [done|set_solver]|intros _].
  apply safe_set_server.
Qed.

(** What [Stop] leaves of what was covered before [Start]: memberlist. *)
Lemma stop_covered y a w r :
  covered (a, w) → alive (Stop y (a, w)).1.2 r = bool_decide (r = RMemberlist) && ml.
Proof.
  intros [H1 Hm H2 H3]. cbn in *. unfold Stop, stop_server, stop_goroutines. rewrite H3, H2.
  pose proof (alive_run_cleanups (y_leave y) (length (listeners a)) (rev (cleanups a)) w r) as Hr.
  replace (if server a then (w, match y_Shutdown y with Some e => [e] | None => [] end) else (w, []))
    with (w, if server a then match y_Shutdown y with Some e => [e] | None => [] end else []) by (by destruct (server a)).
  destruct (run_cleanups _ _ _ w) as [w' e]. cbn in *. apply eq_true_iff_eq.
  rewrite Hr, andb_true_iff, bool_decide_eq_true. split.
  - intros [Hw Hn]. destruct (decide (r = RMemberlist)) as [->|Hne]; [by split; [|congruence]|].
    destruct (H1 r Hw Hne) as (c & Hc & Hrc). exfalso. apply (Hn c); [|done].
    apply list_elem_of_In. rewrite <- in_rev. by apply list_elem_of_In.
  - intros [-> Hml]. split; [congruence|]. intros c _. apply covers_memberlist.
Qed.
End setup_safe.
End covered.

(** *** Exact order *)
Lemma listen_loop_trace f addrs bound s s' ls :
  listen_loop f addrs bound s = (s', Ok ls) →
  s' = (s.1, s.2 ++ (Open <$> (RListener <$> seq (length bound) (length ls - length bound)))).
Proof.
  revert bound s. induction addrs as [|a addrs IH]; intros bound s; cbn.
  - unfold mret, M_ret. intros [= <- <-]. rewrite Nat.sub_diag. cbn. rewrite app_nil_r. by destruct s.
  - destruct (f a) as [l|]; [|done]. intros E. pose proof (listen_loop_length _ _ _ _ _ _ E) as Hle.
    apply IH in E as ->. cbn [fst snd]. rewrite length_app in *. cbn [length] in *. rewrite <- app_assoc. do 2 f_equal.
    replace (length ls - length bound)%nat with (S (length ls - (length bound + 1))) by lia. cbn.
    by rewrite Nat.add_1_r.
Qed.

Lemma listenAll_trace x flags s s' ls :
  listenAll x flags s = (s', Ok ls) →
  s' = (s.1, s.2 ++ (Open <$> (RListener <$> seq 0 (length ls)))) ∧ ls ≠ [].
Proof.
  unfold listenAll. destruct (default false (WebSystemdSocket flags)).
  - unfold mbind, M_bind, attempt. destruct (x_systemd x) as [[|l l']|e]; [by intros [=]| |by intros [=]].
    unfold open, mret, M_ret. by intros [= <- <-].
  - destruct (WebListenAddresses flags) as [[|a l]|]; [by intros [=]| |by intros [=]]. intros E. split.
    + apply listen_loop_trace in E. by rewrite Nat.sub_0_r in E.
    + cbn in E. destruct (x_listen x a); [|done]. apply listen_loop_length in E. intros ->. cbn in E. lia.
Qed.

Lemma M_bind_ok {A B} (m : M A) (f : A → M B) s s' b :
  (m ≫= f) s = (s', Ok b) → ∃ s1 a, m s = (s1, Ok a) ∧ f a s1 = (s', Ok b).
Proof. rewrite M_bind_run. destruct (m s) as [s1 [a|e]]; [eauto|done]. Qed.

Section setup_exact.
Context `{NA : NetAddress} (Parse : string → result string URL).

(** What a set-up that succeeds has done. *)
Definition setup_trace (o : Options) (n : nat) : trace :=
  (if clustered o then [Open RPeer; Open RMemberlist] else []) ++
  (if default false (Flagger o) then [Open RRecorder; StartupEvent] else []) ++
  [Open RNflogMaintenance; Open RSilenceMaintenance] ++ (if clustered o then [Open RSettle] else []) ++
  [Open RAlerts] ++ (Open <$> (RListener <$> seq 0 n)) ++ [Open RTracing; Open RActive].
Definition setup_cleanups (o : Options) : list cleanup :=
  (if clustered o then [CPeer] else []) ++
  [CRecorder; CShutdownEvent; CMaintenance; CAlerts; CListeners; CTracing; CReloader].

Ltac ok_step E :=
  let s1 := fresh "s" in let E1 := fresh "E" in
  apply M_bind_ok in E as (s1 & ? & E1 & E);
  first
  [ unfold check in E1; case_match; [discriminate E1|injection E1 as <- _]
  | unfold attempt in E1; injection E1 as <- _
  | unfold mret, M_ret, open, emit, onStop, set_coordinator in E1; injection E1 as <- _
  | idtac ].

Lemma setup_cluster_trace o x s u :
  setup_cluster o x (newApp, []) = (s, Ok u) →
  s = (mkApp (if clustered o then [CPeer] else []) false false [] false false None [],
       if clustered o then [Open RPeer; Open RMemberlist] else []).
Proof.
  unfold setup_cluster, Create. destruct (clustered o); [|by intros [= <- _]]. rewrite !M_bind_run. unfold check.
  destruct (x_Create x); cbn; [done|]. rewrite M_bind_run. destruct (x_transport x); cbn; [done|].
  destruct (x_memberlist x) as [[e []]|]; cbn; [done..|]. by intros [= <- _].
Qed.

Lemma setup_exact o x s :
  setup Parse o x (newApp, []) = (s, Ok ()) →
  ∃ ls, ls ≠ [] ∧ s = (mkApp (setup_cleanups o) true true ls false false None [], setup_trace o (length ls)).
Proof.
  unfold setup, setup_recorder, setup_stores, setup_web, setup_config, setup_trace, setup_cleanups.
  intros E. repeat ok_step E.
  all: match goal with H : setup_cluster _ _ _ = _ |- _ => apply setup_cluster_trace in H as -> end.
  all: destruct (clustered o), (default false (Flagger o)).
  all: repeat match goal with
    | H : (check _ ≫= _) _ = _ |- _ => repeat ok_step H
    | H : open _ _ = _ |- _ => injection H as <- _
    | H : emit _ _ = _ |- _ => injection H as <- _
    | H : onStop _ _ = _ |- _ => injection H as <- _
    | H : mret _ _ = _ |- _ => injection H as <- _
    | H : set_server _ = _ |- _ => injection H as <-
    | H : listenAll _ _ _ = _ |- _ => apply listenAll_trace in H as [-> ?]
    end.
  all: eexists; split; [eassumption|]; cbn; by rewrite <- ?app_assoc.
Qed.

(** *** Shutting down *)
Lemma shut_all rs w : NoDup rs → (∀ r, r ∈ rs → alive w r = true) → shut rs w = w ++ (Shut <$> rs).
Proof.
  unfold shut. revert w. induction rs as [|r rs IH]; intros w Hnd Ha; cbn [foldl fmap list_fmap]; [by rewrite app_nil_r|].
  apply NoDup_cons in Hnd as [Hr Hnd]. rewrite Ha by set_solver. rewrite IH, <- app_assoc; [done..|].
  intros r' Hr'. change [Shut r] with (Shut <$> [r]). rewrite alive_Shut, Ha by set_solver.
  by rewrite bool_decide_eq_false_2 by set_solver.
Qed.
Lemma shut_none rs w : (∀ r, r ∈ rs → alive w r = false) → shut rs w = w.
Proof.
  unfold shut. induction rs as [|r rs IH]; intros Ha; cbn [foldl]; [done|]. rewrite Ha by set_solver. apply IH. set_solver.
Qed.

(** What [Stop] does to a running application. *)
Definition stop_trace (o : Options) (n : nat) : trace :=
  (Shut <$> (RListener <$> seq 0 n)) ++
  [Shut RRouter; Shut RServe; Shut RActive; Shut RTracing; Shut RAlerts; Shut RNflogMaintenance; Shut RSilenceMaintenance] ++
  (if default false (Flagger o) then [ShutdownEvent; Shut RRecorder] else []) ++
  (if clustered o then [Shut RSettle; Shut RPeer] else []).

Lemma foldl_other (f : resource → action) l r b :
  (∀ r' b, r' ∈ l → alive_step r b (f r') = b) → foldl (alive_step r) b (f <$> l) = b.
Proof. revert b. induction l as [|r' l IH]; intros b H; cbn; [done|]. rewrite H by set_solver. apply IH. set_solver. Qed.

Lemma foldl_listeners (f : resource → action) l r b :
  f = Open ∨ f = Shut → (∀ i, r ≠ RListener i) → foldl (alive_step r) b (f <$> (RListener <$> l)) = b.
Proof.
  intros Hf Hr. apply foldl_other. intros r' b' (i & -> & _)%list_elem_of_fmap.
  destruct Hf as [-> | ->]; cbn; by rewrite decide_False.
Qed.

Ltac alive_compute := rewrite ?alive_app, ?foldl_app, ?foldl_listeners by (auto || done); reflexivity.

Lemma listeners_alive n w1 w2 r :
  r ∈ RListener <$> seq 0 n → (∀ i b, foldl (alive_step (RListener i)) b w2 = b) →
  alive (w1 ++ (Open <$> (RListener <$> seq 0 n)) ++ w2) r = true.
Proof.
  intros Hr Hw2. rewrite app_assoc, alive_app. pose proof Hr as (i & -> & _)%list_elem_of_fmap.
  by rewrite Hw2, alive_Open, bool_decide_eq_true_2, orb_true_r.
Qed.

Lemma listeners_shut n w1 w2 r :
  r ∈ RListener <$> seq 0 n → (∀ i b, foldl (alive_step (RListener i)) b w2 = b) →
  alive (w1 ++ (Shut <$> (RListener <$> seq 0 n)) ++ w2) r = false.
Proof.
  intros Hr Hw2. rewrite app_assoc, alive_app. pose proof Hr as (i & -> & _)%list_elem_of_fmap.
  by rewrite Hw2, alive_Shut, bool_decide_eq_true_2, andb_false_r.
Qed.

Lemma run_cleanups_trace leave n cs w es :
  (foldl (λ p c, let '(w, e) := run_cleanup leave n c p.1 in (w, p.2 ++ e)) (w, es) cs).1 =
  foldl (λ w c, (run_cleanup leave n c w).1) w cs.
Proof.
  revert w es. induction cs as [|c cs IH]; intros w es; cbn [foldl fst snd]; [done|].
  destruct (run_cleanup leave n c w) as [w' e]. apply IH.
Qed.

Lemma Stop_trace y a w :
  stopped a = false →
  (Stop y (a, w)).1.2 =
  foldl (λ w c, (run_cleanup (y_leave y) (length (listeners a)) c w).1)
    (stop_goroutines y a (stop_server y a w).1).1 (rev (cleanups a)).
Proof.
  intros Hs. unfold Stop. rewrite Hs. destruct (stop_server y a w) as [w1 e1]. cbn [fst].
  destruct (stop_goroutines y a w1) as [w2 e2]. cbn [fst]. rewrite <- (run_cleanups_trace _ _ _ _ []).
  unfold run_cleanups. by destruct (foldl _ (w2, []) _).
Qed.

Lemma stop_server_exact o ls y :
  (stop_server y (mkApp (setup_cleanups o) true true ls true false None [])
    (setup_trace o (length ls) ++ [Open RRouter; Open RServe])).1 =
  setup_trace o (length ls) ++ [Open RRouter; Open RServe] ++ (Shut <$> (RListener <$> seq 0 (length ls))).
Proof.
  unfold stop_server. cbn [server started listeners fst]. rewrite shut_all; [by rewrite <- app_assoc| |].
  - apply NoDup_fmap_2; [intros ?? [=]; done|apply NoDup_seq].
  - intros r Hr. unfold setup_trace. rewrite <- !app_assoc. do 4 rewrite app_assoc. by apply listeners_alive.
Qed.

(** The clean-ups of a running application, from what is alive then. *)
Definition running (cl rec : bool) (r : resource) : bool :=
  match r with RPeer | RMemberlist | RSettle => cl | RRecorder => rec | RListener _ => false | _ => true end.

Lemma shut_step rs w t :
  NoDup rs → (∀ r, r ∈ rs → foldl (alive_step r) (alive w r) t = true) → shut rs (w ++ t) = w ++ t ++ (Shut <$> rs).
Proof. intros Hn Ha. rewrite shut_all, app_assoc; [done..|]. intros r Hr. rewrite alive_app. auto. Qed.

Ltac alive_by Ha :=
  intros ? Hin; repeat (apply elem_of_cons in Hin as [-> |Hin]; [by rewrite Ha|]); by apply elem_of_nil in Hin.
Ltac shut_by Ha :=
  match goal with
  | |- context [shut [] ?w] => change (shut [] w) with w
  | |- context [shut (RListener <$> ?l) (?w ++ ?t)] =>
      rewrite (shut_none (RListener <$> l)) by
        (intros ? (? & -> & _)%list_elem_of_fmap; rewrite alive_app, Ha; reflexivity)
  | |- context [shut (?r :: ?rs) (?w ++ ?t)] =>
      rewrite (shut_step (r :: rs) w t);
        [cbn [app fmap list_fmap]|apply (bool_decide_unpack _); reflexivity|alive_by Ha]
  end.

Lemma cleanups_exact w cl rec leave n :
  (∀ r, alive w r = running cl rec r) →
  foldl (λ w c, (run_cleanup leave n c w).1) (shut [RServe] (shut [RRouter] w))
    (rev ((if cl then [CPeer] else []) ++
      [CRecorder; CShutdownEvent; CMaintenance; CAlerts; CListeners; CTracing; CReloader])) =
  w ++ [Shut RRouter; Shut RServe; Shut RActive; Shut RTracing; Shut RAlerts; Shut RNflogMaintenance;
        Shut RSilenceMaintenance] ++
    (if rec then [ShutdownEvent; Shut RRecorder] else []) ++ (if cl then [Shut RSettle; Shut RPeer] else []).
Proof.
  intros Ha. rewrite <- (app_nil_r w) at 1.
  destruct cl; cbn [rev app foldl run_cleanup fst covers]; repeat shut_by Ha.
  all: match goal with |- context [alive (?v ++ ?t) RRecorder] =>
    destruct (alive (v ++ t) RRecorder) eqn:Hr; rewrite alive_app, Ha in Hr; cbn in Hr; subst end.
  all: rewrite <- ?app_assoc; cbn [app].
  all: rewrite ?(shut_none [RRecorder]) by (intros ? ->%list_elem_of_singleton; by rewrite alive_app, Ha).
  all: repeat shut_by Ha; destruct rec; first [done|by vm_compute in Hr].
Qed.

Lemma running_alive o n r :
  alive (setup_trace o n ++ [Open RRouter; Open RServe] ++ (Shut <$> (RListener <$> seq 0 n))) r =
  running (clustered o) (default false (Flagger o)) r.
Proof.
  assert ((∃ i, r = RListener i) ∨ ∀ i, r ≠ RListener i) as [[i ->]|Hr]; unfold setup_trace.
  { destruct r; eauto. }
  - rewrite app_assoc, alive_Shut. apply andb_false_iff. rewrite negb_false_iff, bool_decide_eq_true.
    destruct (decide (i < n)%nat) as [Hi|Hi].
    { right. apply list_elem_of_fmap. exists i. split; [done|]. apply elem_of_seq. lia. }
    left. destruct (clustered o), (default false (Flagger o)); rewrite ?alive_app, ?foldl_app;
      rewrite foldl_other; try reflexivity;
      intros r b (j & -> & Hj%elem_of_seq)%list_elem_of_fmap; cbn; rewrite decide_False by (intros [=]; lia); done.
  - destruct (clustered o), (default false (Flagger o)); rewrite ?alive_app, ?foldl_app, ?foldl_listeners by naive_solver;
      destruct r; try reflexivity; naive_solver.
Qed.

Lemma stop_exact o ls y :
  ls ≠ [] → y_router_timeout y = false → y_serve_timeout y = false →
  (Stop y (Start (mkApp (setup_cleanups o) true true ls false false None [], setup_trace o (length ls))).1).1.2 =
  setup_trace o (length ls) ++ [Open RRouter; Open RServe] ++ stop_trace o (length ls).
Proof.
  intros Hne Hr Hs. unfold Start. cbn [started stopped server listeners negb orb].
  rewrite bool_decide_eq_false_2 by done. cbn [fst cleanups coordinator startErr stopErr]. rewrite Stop_trace by done.
  rewrite stop_server_exact. unfold stop_goroutines. cbn [started cleanups listeners]. rewrite Hr, Hs. cbn [fst].
  unfold setup_cleanups. rewrite (cleanups_exact _ _ (default false (Flagger o))) by (intros; apply running_alive).
  unfold stop_trace. by rewrite <- !app_assoc.
Qed.

Lemma New_ok o x y w a :
  New Parse o x y = (w, Ok a) →
  ∃ ls, ls ≠ [] ∧ a = mkApp (setup_cleanups o) true true ls false false None [] ∧ w = setup_trace o (length ls).
Proof.
  unfold New. destruct (setup Parse o x (newApp, [])) as [s [[]|e]] eqn:E; [|done]. intros [= <- <-].
  apply setup_exact in E as (ls & Hls & ->). eauto.
Qed.

Lemma Start_ok a w :
  started a = false → stopped a = false → server a = true → listeners a ≠ [] →
  Start (a, w) = ((mkApp (cleanups a) (coordinator a) true (listeners a) true false (startErr a) (stopErr a),
    w ++ [Open RRouter; Open RServe]), None).
Proof. intros H1 H2 H3 H4. unfold Start. by rewrite H1, H2, H3, bool_decide_eq_false_2. Qed.

(** Besides memberlist, what is left of a running application can only be its
    two goroutines. *)
Lemma stop_running ml y a w r :
  covered ml (a, w) →
  let a' := mkApp (cleanups a) (coordinator a) true (listeners a) true false (startErr a) (stopErr a) in
  let '(s, errs) := Stop y (a', w ++ [Open RRouter; Open RServe]) in
  alive s.2 r = true → r ≠ RMemberlist →
  (r = RRouter ∧ y_router_timeout y = true ∧ "reload router shutdown"%string ∈ errs) ∨
  (r = RServe ∧ y_serve_timeout y = true ∧ "serve drain"%string ∈ errs).
Proof.
  intros [H1 _ _ _]. cbn in H1. unfold Stop, stop_server, stop_goroutines.
  cbn [stopped server started listeners cleanups coordinator startErr stopErr].
  set (w1 := shut _ (w ++ _)).
  assert (Hw1 : alive w1 r = true → alive w r = true ∨ r = RRouter ∨ r = RServe).
  { subst w1. rewrite alive_shut, andb_true_iff. change [Open RRouter; Open RServe] with (Open <$> [RRouter; RServe]).
    rewrite alive_Open, orb_true_iff, bool_decide_eq_true. set_solver. }
  clearbody w1. destruct (y_router_timeout y) eqn:Et1, (y_serve_timeout y) eqn:Et2; cbn [fst snd app].
  all: match goal with |- context [run_cleanups ?l ?n ?cs ?v] =>
    pose proof (alive_run_cleanups l n cs v r) as Hr; destruct (run_cleanups l n cs v) as [w' es] end; cbn in *.
  all: intros Ha Hne; destruct (proj1 Hr Ha) as [Hv Hn]; rewrite ?alive_shut, ?andb_true_iff, ?negb_true_iff, ?bool_decide_eq_false in Hv.
  all: assert (Hw : alive w r = false) by
    (destruct (alive w r) eqn:E; [|done]; destruct (H1 r E Hne) as (c & Hc & Hrc); exfalso; apply (Hn c); [|done];
     apply list_elem_of_In; rewrite <- in_rev; by apply list_elem_of_In).
  all: rewrite Hw in Hw1; set_solver.
Qed.

(** No [Stop] shuts memberlist down. *)
Lemma stop_memberlist y s : alive (Stop y s).1.2 RMemberlist = alive s.2 RMemberlist.
Proof.
  destruct s as [a w]. destruct (stopped a) eqn:Es; [unfold Stop; by rewrite Es|]. rewrite Stop_trace by done. cbn [snd].
  assert (Hc : ∀ cs v, alive (foldl (λ w c, (run_cleanup (y_leave y) (length (listeners a)) c w).1) v cs) RMemberlist =
    alive v RMemberlist).
  { induction cs as [|c cs IH]; intros v; cbn [foldl]; [done|]. rewrite IH, alive_run_cleanup.
    rewrite bool_decide_eq_false_2 by apply covers_memberlist. apply andb_true_r. }
  rewrite Hc. unfold stop_goroutines, stop_server.
  assert (Hl : RMemberlist ∉ RListener <$> seq 0 (length (listeners a))) by (rewrite list_elem_of_fmap; naive_solver).
  destruct (started a), (server a), (y_router_timeout y), (y_serve_timeout y); cbn [fst snd];
    rewrite ?alive_shut, ?(bool_decide_eq_false_2 _ Hl), ?andb_true_r; try done;
    rewrite ?bool_decide_eq_false_2, ?andb_true_r by set_solver; done.
Qed.

(** What a set-up that fails leaves open: nothing, unless the peer was being
    created or exists.  [Create] may fail after its delegate was started, and
    memberlist is never shut down. *)
Definition no_error {A} (err : option A) : bool := match err with None => true | Some _ => false end.
Definition create_leaks (x : outcomes) (r : resource) : bool :=
  no_error (x_Create x) &&
  match r with
  | RPeer => negb (no_error (x_transport x)) || negb (no_error (x_memberlist x))
  | RMemberlist => no_error (x_transport x) && match x_memberlist x with None => true | Some (_, kept) => kept end
  | _ => false
  end.
Definition leaks (o : Options) (x : outcomes) (r : resource) : bool :=
  clustered o && is_ok (validate o) && no_error (x_MkdirAll x) && no_error (x_TLS x) && create_leaks x r.

Lemma setup_cluster_err o x s e :
  setup_cluster o x (newApp, []) = (s, Err e) →
  clustered o = true ∧ s.1 = newApp ∧ ∀ r, alive s.2 r = create_leaks x r.
Proof.
  unfold setup_cluster, Create, create_leaks. destruct (clustered o); [|done]. rewrite !M_bind_run. unfold check.
  destruct (x_Create x); cbn; [by intros [= <- <-]|]. rewrite M_bind_run.
  destruct (x_transport x); cbn; [intros [= <- <-]; split_and!; [done..|]; by destruct r|].
  destruct (x_memberlist x) as [[e' []]|]; cbn; [intros [= <- <-]|intros [= <- <-]|by intros [=]];
    (split_and!; [done..|]; by destruct r).
Qed.

Lemma setup_cluster_ok o x s :
  setup_cluster o x (newApp, []) = (s, Ok ()) →
  covered (clustered o) s ∧ registered o [] s.1 ∧ ∀ r, clustered o && create_leaks x r = bool_decide (r = RMemberlist) && clustered o.
Proof.
  unfold setup_cluster, Create, create_leaks. destruct (clustered o) eqn:Ec.
  - rewrite !M_bind_run. unfold check. destruct (x_Create x); cbn; [done|]. rewrite M_bind_run.
    destruct (x_transport x); cbn; [done|]. destruct (x_memberlist x) as [[e' []]|]; cbn; [done..|].
    intros [= <-]. split_and!; [|split_and!; cbn; [set_solver..|done]|by destruct r].
    split; cbn; [|done..]. intros r. destruct r; try done. intros _ _. exists CPeer. set_solver.
  - intros [= <-]. split_and!; [by split|split_and!; [set_solver|congruence|done]|]. intros r. by rewrite andb_false_r.
Qed.

Lemma setup_run o x :
  setup Parse o x (newApp, []) =
  match validate o, x_MkdirAll x, x_TLS x with
  | Ok _, None, None =>
      match setup_cluster o x (newApp, []) with
      | (s, Ok _) => setup_recorder Parse o x s
      | (s, Err e) => (s, Err e)
      end
  | Err e, _, _ | Ok _, Some e, _ | Ok _, None, Some e => ((newApp, []), Err e)
  end.
Proof.
  unfold setup. rewrite M_bind_run. unfold attempt. destruct (validate o); [|done].
  rewrite M_bind_run. unfold check at 1. destruct (x_MkdirAll x); [done|].
  rewrite M_bind_run. unfold check at 1. destruct (x_TLS x); [done|]. by rewrite M_bind_run.
Qed.


(** the order of a life: the listeners close first and the goroutines of
    [Start] end before anything is torn down; the dispatcher and the inhibitor
    stop before the alerts close, and before the maintenance writes its last
    snapshots; the shutdown event is recorded before the recorder closes, and the
    peer leaves last. *)
Theorem stop_order o x y y' w a :
  New Parse o x y = (w, Ok a) → y_router_timeout y' = false → y_serve_timeout y' = false →
  (Stop y' (Start (a, w)).1).1.2 =
  setup_trace o (length (listeners a)) ++ [Open RRouter; Open RServe] ++ stop_trace o (length (listeners a)).
Proof. intros (ls & Hls & -> & ->)%New_ok H1 H2. by apply stop_exact. Qed.

(** After [Stop] nothing is opened or shut any more, whatever is called. *)
Lemma stopped_final y y' s :
  Stop y' (Stop y s).1 = ((Stop y s).1, (Stop y s).2) ∨ stopped s.1 = true.
Proof.
  destruct s as [a w]. unfold Stop at 2 3 4. destruct (stopped a) eqn:E; [by right|left].
  destruct (stop_server y a w) as [w1 e1]. destruct (stop_goroutines y a w1) as [w2 e2].
  by destruct (run_cleanups _ _ _ w2).
Qed.
End setup_exact.

(** *** Feature flags *)
Lemma foldl_enable fs fc g : foldl enable fc fs g = bool_decide (g ∈ fs) || fc g.
Proof.
  revert fc. induction fs as [|f fs IH]; intros fc; cbn [foldl]; [done|]. rewrite IH. unfold enable.
  destruct (bool_decide_reflect (g ∈ fs)), (bool_decide_reflect (f = g)), (bool_decide_reflect (g ∈ f :: fs)); set_solver.
Qed.

Lemma find_feature_spec name f : find_feature name = Some f ↔ (name, f) ∈ AllowedFlags.
Proof.
  unfold find_feature. split.
  - destruct (List.find _ AllowedFlags) as [[n g]|] eqn:E; [|done]. cbn. intros [= <-].
    apply List.find_some in E as [Hin Hn%bool_decide_eq_true]. cbn in Hn. subst. by apply list_elem_of_In.
  - intros Hin. unfold AllowedFlags in Hin. set_unfold in Hin. destruct_or! Hin; simplify_eq; reflexivity.
Qed.

Lemma feature_options_spec names fs :
  feature_options names = Ok fs ↔ Forall2 (λ n f, (n, f) ∈ AllowedFlags) names fs.
Proof.
  revert fs. induction names as [|n names IH]; intros fs; cbn [feature_options].
  - split; [by intros [= <-]|by inversion 1].
  - destruct (find_feature n) as [f|] eqn:E.
    + apply find_feature_spec in E. rewrite result_bind_Ok. split.
      * intros (fs' & Hfs%IH & [= <-]). by constructor.
      * inversion 1 as [|? f' ? fs' Hf Hr]; subst. exists fs'. split; [by apply IH|].
        apply find_feature_spec in E, Hf. congruence.
    + split; [done|]. inversion 1 as [|? f' ? fs' Hf Hr]; subst. apply find_feature_spec in Hf. congruence.
Qed.

(** The flags that are accepted are set exactly when they are named, every name
    is known, and the two parser modes are not both on. *)
Lemma NewFlags_exact features fc :
  features ≠ ""%string → NewFlags features = Ok fc →
  (∀ n, n ∈ feature_names features → ∃ f, (n, f) ∈ AllowedFlags) ∧
  (∀ f, fc f = true ↔ ∃ n, n ∈ feature_names features ∧ (n, f) ∈ AllowedFlags) ∧
  ¬ (fc FeatureClassicMode = true ∧ fc FeatureUTF8StrictMode = true).
Proof.
  intros Hne. unfold NewFlags. rewrite bool_decide_eq_false_2 by done.
  intros (fs & Hfs%feature_options_spec & E)%result_bind_Ok. cbn zeta in E. case_match eqn:Hm; [done|]. injection E as <-.
  split_and!.
  - intros n (i & Hi)%list_elem_of_lookup. destruct (Forall2_lookup_l _ _ _ _ _ Hfs Hi) as (f & _ & Hf). eauto.
  - intros f. rewrite foldl_enable. unfold NoopFlags. rewrite orb_false_r, bool_decide_eq_true. split.
    + intros (i & Hi)%list_elem_of_lookup. destruct (Forall2_lookup_r _ _ _ _ _ Hfs Hi) as (n & Hn & Hf).
      exists n. split; [by eapply list_elem_of_lookup_2|done].
    + intros (n & (i & Hi)%list_elem_of_lookup & Hn). destruct (Forall2_lookup_l _ _ _ _ _ Hfs Hi) as (f' & Hf' & Hn').
      apply find_feature_spec in Hn, Hn'. simplify_eq. by eapply list_elem_of_lookup_2.
  - intros [H1 H2]. by rewrite H1, H2 in Hm.
Qed.

(** *** Serving, validation, URLs *)
(** Whichever case the select takes, a listener's error is reported. *)
Lemma serve_error_reported done e p : serveLoop done (Some (Some e)) p = Some (Some (listener_failed e)).
Proof. by destruct done, p. Qed.

Lemma all_positive_ok suffix l : all_positive suffix l = Ok () → Forall (λ f, 0 < f.2) l.
Proof.
  induction l as [|[name v] l IH]; cbn; [by constructor|]. destruct (v <=? 0) eqn:E; [done|].
  intros H. constructor; [cbn; lia|auto].
Qed.

(** Accepted options cannot make a ticker panic. *)
Lemma validate_positive o :
  validate o = Ok () →
  Forall (λ f, 0 < f.2) (intervals o) ∧ (clustered o = true → Forall (λ f, 0 < f.2) (cluster_intervals o)).
Proof.
  unfold validate. destruct (Logger o), (Registerer o), (Flagger o); cbn [negb]; try done.
  case_bool_decide; [done|]. case_bool_decide; [done|].
  destruct (all_positive "" (intervals o)) as [[]|] eqn:E1; [|done]. intros H'. split; [by eapply all_positive_ok|].
  intros Hc. destruct (WebConfig o) as [wc|]; [|done]. cbn in H'. case_match; [done|].
  destruct (WebConfigFile wc); [|done]. rewrite Hc in H'.
  by apply (all_positive_ok " when clustering is enabled").
Qed.

(** The defaults are accepted once the dependencies and a listener are given. *)
Definition with_dependencies (o : Options) (wc : FlagConfig) (bind : string) : Options :=
  mkOptions (ConfigFile o) (DataDir o) (Retention o) (MaintenanceInterval o) (AlertGCInterval o)
    (DispatchMaintenanceInterval o) (Some wc) (ExternalURL o) (RoutePrefix o) bind (PeerTimeout o) (PeersResolveTimeout o)
    (GossipInterval o) (PushPullInterval o) (TCPTimeout o) (ProbeTimeout o) (ProbeInterval o) (ReconnectInterval o)
    (PeerReconnectTimeout o) true true (Some true).
Lemma DefaultOptions_valid addr addrs sys file bind :
  validate (with_dependencies DefaultOptions (mkFlagConfig (Some (addr :: addrs)) sys (Some file)) bind) = Ok ().
Proof.
  unfold validate. cbn. unfold no_listeners. cbn. rewrite andb_false_r. unfold clustered. cbn.
  by destruct (bool_decide (bind = ""%string)).
Qed.

Lemma drop_byte_head c l : head (Strings.drop_byte c l) ≠ Some c.
Proof. induction l as [|b l IH]; cbn; [done|]. destruct (b =? c) eqn:E; [done|]. cbn. intros [= ->]. lia. Qed.
Lemma drop_byte_suffix c l : ∃ k, l = k ++ Strings.drop_byte c l.
Proof.
  induction l as [|b l [k IH]]; cbn; [by exists []|]. destruct (b =? c); [|by exists []]. exists (b :: k). cbn. by f_equal.
Qed.
Lemma drop_byte_bytes c l : Forall is_byte l → Forall is_byte (Strings.drop_byte c l).
Proof. destruct (drop_byte_suffix c l) as [k Hk]. rewrite Hk at 1. by intros [_ ?]%Forall_app. Qed.
Lemma TrimRight_bytes s c : bytes (Strings.TrimRight s c) = rev (Strings.drop_byte c (rev (bytes s))).
Proof. apply bytes_of_bytes, Forall_rev, drop_byte_bytes, Forall_rev, bytes_is_byte. Qed.
Lemma TrimRight_last s c : last (bytes (Strings.TrimRight s c)) ≠ Some c.
Proof. rewrite TrimRight_bytes, rev_alt. setoid_rewrite last_reverse. apply drop_byte_head. Qed.
Lemma drop_byte_last c d l : last l ≠ Some d → last (Strings.drop_byte c l) ≠ Some d.
Proof.
  induction l as [|b l IH]; cbn [Strings.drop_byte]; [done|]. destruct (b =? c); [|done]. intros Hl. apply IH.
  destruct l; [done|]. exact Hl.
Qed.
Lemma HasPrefix_slash s : Strings.HasPrefix s "/" = bool_decide (head (bytes s) = Some 47).
Proof.
  destruct s as [|a s]; [done|]. unfold Strings.HasPrefix. cbn [String.prefix bytes list_ascii_of_string map head].
  destruct (ascii_dec "/" a) as [<-|Hne].
  - by destruct s.
  - symmetry. apply bool_decide_eq_false_2. cbn. intros [= E]. apply Hne.
    rewrite <- (ascii_of_byte_of_ascii a), E. reflexivity.
Qed.

(** The path of the external URL is empty, or starts with a slash and does not
    end in one; the prefix of the routes starts with exactly one. *)
Lemma extURL_path `{NetAddress} Parse host listen ext u :
  extURL Parse host listen ext = Ok u →
  u_Path u = ""%string ∨ (head (bytes (u_Path u)) = Some 47 ∧ last (bytes (u_Path u)) ≠ Some 47).
Proof.
  unfold extURL. intros E.
  match type of E with mbind _ ?r = _ => destruct r as [e|]; [cbn in E|done] end.
  destruct (Parse e) as [v|]; [cbn in E|done]. case_bool_decide; [|done]. injection E as <-. cbn [u_Path].
  set (p := Strings.TrimRight (u_Path v) 47). pose proof (TrimRight_last (u_Path v) 47) as Hl. fold p in Hl.
  rewrite HasPrefix_slash. case_bool_decide as Hp; cbn [negb andb]; [by left|]. right.
  case_bool_decide as Hh; cbn [negb]; [done|]. change (bytes ("/" +:+ p)) with (47 :: bytes p). split; [done|].
  assert (bytes p ≠ []). { intros E. apply Hp. by apply bytes_inj. }
  destruct (bytes p); [done|]. exact Hl.
Qed.

Lemma routePrefix_slash o u :
  ∃ t, bytes (routePrefix o u) = 47 :: t ∧ head t ≠ Some 47 ∧ last t ≠ Some 47.
Proof.
  unfold routePrefix, Trim. set (p := if bool_decide _ then _ else _).
  exists (Strings.drop_byte 47 (bytes (Strings.TrimRight p 47))). split_and!.
  - rewrite (bytes_app "/"), bytes_of_bytes; [done|]. apply drop_byte_bytes, bytes_is_byte.
  - apply drop_byte_head.
  - apply drop_byte_last, TrimRight_last.
Qed.

(** *** Example: a clustered instance that records events, with two listeners *)
#[local] Instance local_addresses : NetAddress := {|
  SplitHostPort := λ s, Some (s, "9093"%string);
  ParseIP := λ s, Some s;
  ParsePort := λ _, Some 9093;
  JoinHostPort := λ h _, h;
|}.
Definition parse_url (s : string) : result string URL := Ok (mkURL "http" "/am/" s).
Definition good : outcomes :=
  mkOutcomes None None None None None None None None None None (Ok []) (λ a, Ok a) (Ok "am"%string) None.
Definition clean : stop_outcomes := mkStopOutcomes None false false None.
Definition two_listeners : Options :=
  with_dependencies DefaultOptions (mkFlagConfig (Some [":9093"; ":9094"]%string) None (Some ""%string)) ":9094".

Definition created : trace * result string App := New parse_url two_listeners good clean.
Definition created_app : App := match created.2 with Ok a => a | Err _ => newApp end.
Lemma stop_order_witness :
  (Stop clean (Start (created_app, created.1)).1).1.2 =
  setup_trace two_listeners (length (listeners created_app)) ++ [Open RRouter; Open RServe] ++
  stop_trace two_listeners (length (listeners created_app)).
Proof.
  apply (stop_order parse_url two_listeners good clean clean); [by vm_compute|reflexivity|reflexivity].
Defined.
Example teardown_example : stop_trace two_listeners (length (listeners created_app)) =
  [Shut (RListener 0); Shut (RListener 1); Shut RRouter; Shut RServe; Shut RActive; Shut RTracing; Shut RAlerts;
   Shut RNflogMaintenance; Shut RSilenceMaintenance; ShutdownEvent; Shut RRecorder; Shut RSettle; Shut RPeer].
Proof. by vm_compute. Qed.

(** When memberlist cannot be created the goroutine of the delegate is left. *)
Definition no_memberlist : outcomes :=
  mkOutcomes None None None None (Some ("create memberlist"%string, false)) None None None None None (Ok []) (λ a, Ok a)
    (Ok "am"%string) None.
Example delegate_left : alive (New parse_url two_listeners no_memberlist clean).1 RPeer = true.
Proof. by vm_compute. Qed.

End Lifecycle.
