(* ===== verification/Transport.v ===== *)
(** * The TLS transport of the cluster (cluster/tls_connection.go,
    connection_pool.go, tls_transport.go, advertise.go)

    Messages are framed by their length and written in one call; the receiver
    wraps the connection in a new buffered reader for every message, which may
    read ahead.  A connection is modelled with the records of TLS: one read never
    goes past the end of a record, and one write is never in one record with
    another.  That nothing is lost with the buffer rests on this. *)

From Stdlib Require Import String.
From stdpp Require Import base gmap strings list.
From S2P Require Import Prelude Utf8 Strconv Cluster.

Module Transport.
#[local] Open Scope Z_scope.

(** ** encoding/binary *)
Abbreviation octets := (list Z).
Definition uint32 (n : Z) : Z := n mod 2 ^ 32.
Definition PutUint32 (v : Z) : octets :=
  [Z.land v 255; Z.land (Z.shiftr v 8) 255; Z.land (Z.shiftr v 16) 255; Z.land (Z.shiftr v 24) 255].
Definition Uint32 (b : octets) : Z :=
  match b with
  | [b0; b1; b2; b3] => Z.lor b0 (Z.lor (Z.shiftl b1 8) (Z.lor (Z.shiftl b2 16) (Z.shiftl b3 24)))
  | _ => 0
  end.

(** ** crypto/tls, bufio and io

    The reading side of a connection: the records that are still to be read, the
    first of which may have been read in part; then the other side has closed. *)
Abbreviation net_conn := (list octets).
Definition EOF : string := "EOF".
Definition ErrUnexpectedEOF : string := "unexpected EOF".

Fixpoint conn_Read (n : nat) (c : net_conn) : (octets * option string) * net_conn :=
  match c with
  | [] => (([], Some EOF), [])
  | [] :: c => conn_Read n c
  | r :: c => ((take n r, None), drop n r :: c)
  end.

Record bufio_Reader := mkReader { rd : net_conn; buffered : octets; rd_err : option string }.
Definition bufsize : nat := 4096.
Definition NewReader (c : net_conn) : bufio_Reader := mkReader c [] None.

Definition bufio_Read (n : nat) (b : bufio_Reader) : (octets * option string) * bufio_Reader :=
  match buffered b with
  | [] =>
      match n, rd_err b with
      | O, e => (([], e), mkReader (rd b) [] None)
      | _, Some e => (([], Some e), mkReader (rd b) [] None)
      | _, None =>
          if (bufsize <=? n)%nat then
            let '((d, e), c) := conn_Read n (rd b) in ((d, e), mkReader c [] None)
          else
            match conn_Read bufsize (rd b) with
            | (([], e), c) => (([], e), mkReader c [] None)
            | ((d, e), c) => ((take n d, None), mkReader c (drop n d) e)
            end
      end
  | buf => ((take n buf, None), mkReader (rd b) (drop n buf) (rd_err b))
  end.

(** [io.ReadFull]; every round but the last reads a byte at least, so the length
    is fuel enough. *)
Fixpoint read_loop (fuel : nat) (n : nat) (acc : octets) (b : bufio_Reader) : result string octets * bufio_Reader :=
  match n, fuel with
  | O, _ => (Ok acc, b)
  | _, O => (Err "out of fuel"%string, b)
  | _, S fuel =>
      match bufio_Read n b with
      | ((d, None), b) => read_loop fuel (n - length d) (acc ++ d) b
      | ((d, Some e), b) =>
          if (n <=? length d)%nat then (Ok (acc ++ d), b)
          else (Err (match acc ++ d with [] => e | _ => if bool_decide (e = EOF) then ErrUnexpectedEOF else e end), b)
      end
  end.
Definition ReadFull (n : nat) (b : bufio_Reader) : result string octets * bufio_Reader := read_loop n n [] b.

(** ** Connections (cluster/tls_connection.go) *)
Inductive Kind := STREAM | PACKET | OtherKind (n : Z).
Record MemberlistMessage := mkMessage { Version : string; MKind : Kind; FromAddr : string; Msg : octets }.

(** The protobuf library and the resolver. *)
Class Wire := {
  Marshal : MemberlistMessage → result string octets;
  Unmarshal : octets → result string MemberlistMessage;
  ResolveTCPAddr : string → result string string;
}.
Definition version : string := "v0.1.0".
Definition uint32length : nat := 4.

(** [sent] is what was written to the connection, one list of records for a
    call; [locked] is the mutex. *)
Record tlsConn := mkTlsConn { locked : bool; connection : option net_conn; live : bool; sent : list (list octets) }.

Definition rcvTLSConn (c : net_conn) : tlsConn := mkTlsConn false (Some c) true [].
Definition dialed : tlsConn := mkTlsConn false (Some []) true [].

(** The outcome of a write: an error, or the records that the bytes were put
    into.  [None]: the mutex is locked for good, or the connection is nil. *)
Definition Write (o : result string (list octets)) (c : tlsConn) : option (result string () * tlsConn) :=
  if locked c then None else
  match connection c with
  | None => None
  | Some n =>
      match o with
      | Ok rs => Some (Ok (), mkTlsConn false (Some n) (live c) (sent c ++ [rs]))
      | Err e => Some (Err e, mkTlsConn false (Some n) false (sent c))
      end
  end.
Definition conn_alive (c : tlsConn) : option bool := if locked c then None else Some (live c).
Definition getRawConn (c : tlsConn) : option (option net_conn * tlsConn) :=
  if locked c then None else Some (connection c, mkTlsConn false None false (sent c)).
Definition conn_Close (c : tlsConn) : option tlsConn :=
  if locked c then None else Some (mkTlsConn false (connection c) false (sent c)).

Section wire.
Context `{Wire}.

Definition frame (msg : octets) : octets := PutUint32 (uint32 (Z.of_nat (length msg))) ++ msg.
Definition packet_message (fromAddr : string) (b : octets) : MemberlistMessage := mkMessage version PACKET fromAddr b.
Definition stream_message : MemberlistMessage := mkMessage version STREAM "" [].

(** [tls_Write] is what the connection does with the bytes of a call. *)
Definition write_message (m : MemberlistMessage) (tls_Write : octets → result string (list octets)) (c : tlsConn)
    : option (result string () * tlsConn) :=
  match Marshal m with
  | Err e => Some (Err e, c)
  | Ok msg => Write (tls_Write (frame msg)) c
  end.
Definition writePacket (fromAddr : string) (b : octets) := write_message (packet_message fromAddr b).
Definition writeStream := write_message stream_message.

Record Packet := mkPacket { Buf : octets; From : string }.
Definition toPacket (pb : MemberlistMessage) : result string Packet :=
  match ResolveTCPAddr (FromAddr pb) with
  | Err e => Err ("error parsing packet sender address: " +:+ e)
  | Ok addr => Ok (mkPacket (Msg pb) addr)
  end.

Definition decode (msgBuf : octets) : result string (option Packet) :=
  match Unmarshal msgBuf with
  | Err e => Err ("error parsing message: " +:+ e)
  | Ok pb =>
      if negb (bool_decide (Version pb = version)) then Err "tls memberlist message version incompatible"%string
      else match MKind pb with
      | STREAM => Ok None
      | PACKET => Some <$> toPacket pb
      | OtherKind _ => Err "could not read from either stream or packet channel"%string
      end
  end.

(** When the length cannot be read the mutex is not released. *)
Definition read (c : tlsConn) : option (result string (option Packet) * tlsConn) :=
  match connection c with
  | None => Some (Err "nil connection"%string, c)
  | Some n =>
      if locked c then None else
      let '(r, b) := ReadFull uint32length (NewReader n) in
      match r with
      | Err e => Some (Err ("error reading message length: " +:+ e), mkTlsConn true (Some (rd b)) (live c) (sent c))
      | Ok lenBuf =>
          let msgLen := Uint32 lenBuf in
          let '(r, b) := ReadFull (Z.to_nat msgLen) b in
          let c := mkTlsConn false (Some (rd b)) (live c) (sent c) in
          match r with
          | Err e => Some (Err ("error reading message: " +:+ e), c)
          | Ok msgBuf => Some (decode msgBuf, c)
          end
      end
  end.

(** ** The receiving loop (cluster/tls_transport.go, [handle])

    What it sends on its channels, and how it ends. *)
Inductive delivery := PacketCh (p : Packet) | StreamCh (c : net_conn).
Inductive handle_end := ReadError (e : string) | Cancelled | Streamed.

(** [done i]: the transport has been shut down when the [i]-th message was read.
    Every message takes a byte at least. *)
Fixpoint handle_loop (fuel : nat) (done : nat → bool) (i : nat) (conn : net_conn) : option (list delivery * handle_end) :=
  match fuel with
  | O => None
  | S fuel =>
      match read (rcvTLSConn conn) with
      | None => None
      | Some (Err e, _) => Some ([], ReadError e)
      | Some (Ok p, c) =>
          let conn := default [] (connection c) in
          if done i then Some ([], Cancelled)
          else match p with
          | Some p =>
              match handle_loop fuel done (S i) conn with
              | Some (ds, e) => Some (PacketCh p :: ds, e)
              | None => None
              end
          | None => Some ([StreamCh conn], Streamed)
          end
      end
  end.
Definition handle (done : nat → bool) (conn : net_conn) : option (list delivery * handle_end) :=
  handle_loop (S (length (concat conn))) done 0 conn.

(** The calls of the writers of one connection, which its mutex puts in an order;
    [w i] is what TLS does with the bytes of the [i]-th. *)
Fixpoint write_all (w : nat → octets → result string (list octets)) (i : nat) (ps : list (string * octets)) (c : tlsConn)
    : option tlsConn :=
  match ps with
  | [] => Some c
  | (fromAddr, b) :: ps =>
      match writePacket fromAddr b (w i) c with
      | Some (Ok _, c) => write_all w (S i) ps c
      | _ => None
      end
  end.
End wire.

(** ** The pool (cluster/connection_pool.go)

    The LRU cache is a library: [lru_Add] also gives the values it has evicted,
    which the pool's callback closes. *)
Class LRU (C : Type) := {
  lru_new : C;
  lru_Get : string → C → option nat * C;
  lru_Add : string → nat → C → C * list nat;
  lru_Purge : C → list nat;
}.

(** What the pool relies on, in terms of what is cached under a key. *)
Class LRULaws (C : Type) `{LRU C} := {
  lru_view : C → string → option nat;
  lru_view_new k : lru_view lru_new k = None;
  lru_Get_view k c : (lru_Get k c).1 = lru_view c k;
  lru_Get_keeps k c k' : lru_view (lru_Get k c).2 k' = lru_view c k';
  lru_Add_view k v c : lru_view (lru_Add k v c).1 k = Some v;
  lru_Add_other k v c k' : k' ≠ k →
    lru_view (lru_Add k v c).1 k' = lru_view c k' ∨
    lru_view (lru_Add k v c).1 k' = None ∧ ∀ v', lru_view c k' = Some v' → v' ∈ (lru_Add k v c).2;
  lru_Add_evicts k v c v' : v' ∈ (lru_Add k v c).2 →
    ∃ k', lru_view c k' = Some v' ∧ lru_view (lru_Add k v c).1 k' ≠ Some v';
  lru_Purge_all c v : v ∈ lru_Purge c ↔ ∃ k, lru_view c k = Some v;
}.

(** A dialed connection, with the address and timeout it was dialed with. *)
Record pooled := mkPooled { p_addr : string; p_timeout : duration; p_conn : tlsConn }.

Section pool.
Context {C : Type} `{LRU C}.

Record connectionPool := mkPool { cache : option C; heap : list pooled }.
Definition newConnectionPool : connectionPool := mkPool (Some lru_new) [].

Definition pool_key (addr : string) (timeout : duration) : string := addr +:+ "/" +:+ Strconv.Itoa timeout.

Definition close_pooled (p : pooled) : pooled :=
  mkPooled (p_addr p) (p_timeout p) (default (p_conn p) (conn_Close (p_conn p))).
Definition close_all (ids : list nat) (h : list pooled) : list pooled := foldl (λ h i, alter close_pooled i h) h ids.

Definition pooled_alive (h : list pooled) (i : nat) : bool :=
  match h !! i with Some p => default false (conn_alive (p_conn p)) | None => false end.

Definition borrowConnection (addr : string) (timeout : duration) (dial : result string ()) (pool : connectionPool)
    : result string nat * connectionPool :=
  match cache pool with
  | None => (Err "connection pool closed"%string, pool)
  | Some c =>
      let key := pool_key addr timeout in
      let '(found, c) := lru_Get key c in
      match (i ← found; if pooled_alive (heap pool) i then Some i else None) with
      | Some i => (Ok i, mkPool (Some c) (heap pool))
      | None =>
          match dial with
          | Err e => (Err e, mkPool (Some c) (heap pool))
          | Ok _ =>
              let i := length (heap pool) in
              let '(c, evicted) := lru_Add key i c in
              (Ok i, mkPool (Some c) (close_all evicted (heap pool ++ [mkPooled addr timeout dialed])))
          end
      end
  end.

Definition shutdown (pool : connectionPool) : connectionPool :=
  match cache pool with
  | None => pool
  | Some c => mkPool None (close_all (lru_Purge c) (heap pool))
  end.

(** ** The transport's writes (cluster/tls_transport.go) *)
Context `{Wire}.
Definition DefaultTCPTimeout : duration := 10 * second.

Definition set_conn (i : nat) (c : tlsConn) (h : list pooled) : list pooled :=
  alter (λ p, mkPooled (p_addr p) (p_timeout p) c) i h.

Definition WriteTo (fromAddr : string) (b : octets) (addr : string) (dial : result string ())
    (w : octets → result string (list octets)) (pool : connectionPool) : option (result string () * connectionPool) :=
  match borrowConnection addr DefaultTCPTimeout dial pool with
  | (Err e, pool) => Some (Err ("failed to dial: " +:+ e), pool)
  | (Ok i, pool) =>
      match heap pool !! i with
      | None => None
      | Some p =>
          match writePacket fromAddr b w (p_conn p) with
          | None => None
          | Some (r, c) =>
              let pool := mkPool (cache pool) (set_conn i c (heap pool)) in
              match r with
              | Err e => Some (Err ("failed to write packet: " +:+ e), pool)
              | Ok _ => Some (Ok (), pool)
              end
          end
      end
  end.

(** The connection that memberlist goes on with is not the pool's. *)
Definition DialTimeout (dial : result string ()) (w : octets → result string (list octets))
    : option (result string () * option (option net_conn * list (list octets))) :=
  match dial with
  | Err e => Some (Err ("failed to dial: " +:+ e), None)
  | Ok _ =>
      match writeStream w dialed with
      | None => None
      | Some (r, c) =>
          match getRawConn c with
          | None => None
          | Some (raw, c) =>
              Some (match r with
                    | Err e => Err ("failed to create stream connection: " +:+ e)
                    | Ok _ => Ok ()
                    end, Some (raw, sent c))
          end
      end
  end.

(** The critical sections of the pool and of its connections, in any order; a
    write may use a connection that was borrowed long before. *)
Inductive pool_step : connectionPool → connectionPool → Prop :=
| step_borrow p addr timeout dial r p' :
    in_int64 timeout → borrowConnection addr timeout dial p = (r, p') → pool_step p p'
| step_write p i q from b w r c :
    heap p !! i = Some q → writePacket from b w (p_conn q) = Some (r, c) →
    pool_step p (mkPool (cache p) (set_conn i c (heap p)))
| step_shutdown p : pool_step p (shutdown p).
Definition pool_reachable (p : connectionPool) : Prop := rtc pool_step newConnectionPool p.
End pool.

(** ** The address to advertise (cluster/advertise.go) *)
Section advertise.
(** [To4] and [IsUnspecified] of package net, and the discovery of addresses. *)
Context `{NetAddress} (To4 : string → option string) (IsUnspecified : string → bool).
Context (getPrivateAddress getPublicAddress : result string string).

Definition isAny (addr : string) : bool :=
  let addr := match SplitHostPort addr with Some (host, _) => host | None => addr end in
  bool_decide (addr = ""%string) || match ParseIP addr with Some ip => IsUnspecified ip | None => false end.

Definition parse_ip (what addr : string) : result string string :=
  match ParseIP addr with
  | Some ip => Ok ip
  | None => Err ("failed to parse " +:+ what +:+ " '" +:+ addr +:+ "'")
  end.

Definition discoverAdvertiseAddress (allowInsecureAdvertise : bool) : result string string :=
  match getPrivateAddress with
  | Err e => Err ("failed to get private IP: " +:+ e)
  | Ok addr =>
      if bool_decide (addr = ""%string) then
        if negb allowInsecureAdvertise then Err "no private IP found, explicit advertise addr not provided"%string
        else match getPublicAddress with
        | Err e => Err ("failed to get public IP: " +:+ e)
        | Ok addr =>
            if bool_decide (addr = ""%string)
            then Err "no private/public IP found, explicit advertise addr not provided"%string
            else parse_ip "discovered IP" addr
        end
      else parse_ip "discovered IP" addr
  end.

Definition calculateAdvertiseAddress (bindAddr advertiseAddr : string) (allowInsecureAdvertise : bool)
    : result string string :=
  if negb (bool_decide (advertiseAddr = ""%string)) then
    ip ← parse_ip "advertise addr" advertiseAddr;
    Ok (default ip (To4 ip))
  else if isAny bindAddr then discoverAdvertiseAddress allowInsecureAdvertise
  else parse_ip "bind addr" bindAddr.
End advertise.

(** ** Theorems *)
Lemma testbit_octet v k n :
  0 ≤ k → 0 ≤ n →
  Z.testbit (Z.shiftr v k) (n - k) && ((0 <=? n - k) && (n - k <? 8)) = Z.testbit v n && ((k <=? n) && (n <? k + 8)).
Proof.
  intros Hk Hn. destruct (Z.leb_spec k n).
  - rewrite Z.shiftr_spec by lia. f_equal; [f_equal; lia|]. f_equal; lia.
  - replace (0 <=? n - k) with false by lia. by rewrite !andb_false_r.
Qed.

Lemma Uint32_PutUint32 v : Uint32 (PutUint32 v) = v mod 2 ^ 32.
Proof.
  unfold Uint32, PutUint32. apply Z.bits_inj'. intros n Hn.
  rewrite !Z.lor_spec, !Z.shiftl_spec, !Z.land_spec by lia. change 255 with (Z.ones 8). rewrite !Z.testbit_ones by lia.
  rewrite !testbit_octet by lia. destruct (Z.ltb_spec n 32).
  - rewrite Z.mod_pow2_bits_low by lia. destruct (Z.testbit v n); [|done]. cbn [andb]. lia.
  - rewrite Z.mod_pow2_bits_high by lia. destruct (Z.testbit v n); [|done]. cbn [andb]. lia.
Qed.

(** *** Reading: a message's bytes, and no others, whatever its records *)
Lemma conn_Read_skip n es c : Forall (λ r, r = []) es → conn_Read n (es ++ c) = conn_Read n c.
Proof. induction 1 as [|? es -> _ IH]; [done|]. exact IH. Qed.

(** A read of the records of a message does not touch what follows. *)
Lemma conn_Read_within n rs rest :
  (0 < n)%nat → concat rs ≠ [] →
  ∃ d rs', conn_Read n (rs ++ rest) = ((d, None), rs' ++ rest) ∧
    d ≠ [] ∧ (length d ≤ n)%nat ∧ concat rs = d ++ concat rs'.
Proof.
  intros Hn Hne. induction rs as [|[|b r] rs IH]; [done|apply IH, Hne|].
  exists (take n (b :: r)), (drop n (b :: r) :: rs). split_and!; [done| | |].
  - destruct n; [lia|done].
  - rewrite length_take. lia.
  - cbn [concat]. by rewrite app_assoc, take_drop.
Qed.

Lemma bufio_Read_within n b rs rest :
  (0 < n)%nat → rd b = rs ++ rest → rd_err b = None → buffered b ++ concat rs ≠ [] →
  ∃ d b' rs', bufio_Read n b = ((d, None), b') ∧ rd b' = rs' ++ rest ∧ rd_err b' = None ∧
    d ≠ [] ∧ (length d ≤ n)%nat ∧ buffered b ++ concat rs = d ++ buffered b' ++ concat rs'.
Proof.
  intros Hn Hrd He Hne. unfold bufio_Read. rewrite Hrd, He. destruct (buffered b) as [|x buf].
  - destruct n as [|n]; [lia|]. set (m := S n) in *. destruct (bufsize <=? m)%nat eqn:Em.
    + destruct (conn_Read_within m rs rest Hn Hne) as (d & rs' & E & H1 & H2 & H3). rewrite E.
      eexists d, _, rs'. by split_and!.
    + destruct (conn_Read_within bufsize rs rest ltac:(unfold bufsize; lia) Hne) as (d & rs' & E & H1 & H2 & H3).
      rewrite E. destruct d as [|y d]; [done|]. eexists (take m (y :: d)), _, rs'. split_and!; try done.
      * rewrite length_take. lia.
      * cbn [buffered]. by rewrite app_assoc, take_drop.
  - eexists (take n (x :: buf)), _, rs. split_and!; try done.
    + destruct n; [lia|done].
    + rewrite length_take. lia.
    + cbn [buffered]. by rewrite app_assoc, take_drop.
Qed.

Lemma read_loop_within fuel n acc b rs rest d1 d2 :
  (n ≤ fuel)%nat → length d1 = n → rd b = rs ++ rest → rd_err b = None → buffered b ++ concat rs = d1 ++ d2 →
  ∃ b' rs', read_loop fuel n acc b = (Ok (acc ++ d1), b') ∧ rd b' = rs' ++ rest ∧ rd_err b' = None ∧
    buffered b' ++ concat rs' = d2.
Proof.
  revert n acc b rs d1. induction fuel as [|fuel IH]; intros n acc b rs d1 Hf Hl Hrd He Hd.
  { assert (n = 0%nat) as -> by lia. destruct d1; [|done]. exists b, rs. cbn. by rewrite app_nil_r. }
  destruct n as [|n]; [destruct d1; [|done]; exists b, rs; cbn; by rewrite app_nil_r|].
  destruct (bufio_Read_within (S n) b rs rest) as (d & b' & rs' & E & H1 & H2 & H3 & H4 & H5); [lia|done|done| |].
  { rewrite Hd. destruct d1; [done|]. done. }
  cbn [read_loop]. rewrite E. rewrite H5 in Hd.
  assert (Hpre : d = take (length d) d1).
  { apply (f_equal (take (length d))) in Hd. rewrite take_app_length in Hd. rewrite Hd at 1. by rewrite take_app_le by lia. }
  destruct (IH (S n - length d)%nat (acc ++ d) b' rs' (drop (length d) d1)) as (b2 & rs2 & E2 & R1 & R2 & R3); try done.
  - destruct d; [done|]. cbn. lia.
  - rewrite length_drop. lia.
  - apply (f_equal (drop (length d))) in Hd. rewrite drop_app_length in Hd. rewrite Hd.
    by rewrite drop_app_le by lia.
  - exists b2, rs2. split_and!; try done. rewrite E2. do 2 f_equal. rewrite <- app_assoc. f_equal.
    rewrite Hpre at 1. apply take_drop.
Qed.

Lemma concat_nil (rs : list octets) : concat rs = [] → Forall (λ r, r = []) rs.
Proof.
  induction rs as [|r rs IH]; cbn; [by constructor|]. intros [-> ?]%app_eq_nil. constructor; auto.
Qed.

Section wire.
Context `{Wire}.

(** One frame is read off the connection. *)
Lemma read_frame msg rs rest l s :
  Z.of_nat (length msg) < 2 ^ 32 → concat rs = frame msg →
  ∃ es, Forall (λ r, r = []) es ∧
    read (mkTlsConn false (Some (rs ++ rest)) l s) = Some (decode msg, mkTlsConn false (Some (es ++ rest)) l s).
Proof.
  intros Hlen Hrs. unfold read. cbn [connection locked].
  destruct (read_loop_within uint32length uint32length [] (NewReader (rs ++ rest)) rs rest
    (PutUint32 (uint32 (Z.of_nat (length msg)))) msg) as (b1 & rs1 & E1 & H1 & H2 & H3); try done.
  unfold ReadFull at 1. rewrite E1. cbn [app].
  rewrite Uint32_PutUint32. unfold uint32. rewrite !(Z.mod_small (Z.of_nat (length msg)) (2 ^ 32)) by lia.
  rewrite Nat2Z.id. cbn zeta.
  destruct (read_loop_within (length msg) (length msg) [] b1 rs1 rest msg []) as (b2 & rs2 & E2 & R1 & R2 & R3);
    try done; [by rewrite app_nil_r|].
  unfold ReadFull. rewrite E2. cbn [app live sent]. exists rs2. rewrite R1. split; [|done].
  apply app_eq_nil in R3 as [_ R3]. by apply concat_nil.
Qed.

(** *** Progress on any input *)
Lemma conn_Read_bytes n c :
  let '((d, e), c') := conn_Read n c in d ++ concat c' = concat c ∧ (length d ≤ n)%nat.
Proof.
  induction c as [|[|b r] c IH]; [cbn; split; [done|lia]|exact IH|].
  cbn [conn_Read]. cbn [concat]. rewrite app_assoc, take_drop, length_take. split; [done|lia].
Qed.

Lemma bufio_Read_bytes n b :
  let '((d, e), b') := bufio_Read n b in
  d ++ buffered b' ++ concat (rd b') = buffered b ++ concat (rd b) ∧ (length d ≤ n)%nat.
Proof.
  unfold bufio_Read. destruct (buffered b) as [|x buf].
  2:{ cbn [buffered rd]. rewrite app_assoc, take_drop, length_take. split; [done|lia]. }
  destruct n as [|n]; [cbn; split; [done|lia]|]. destruct (rd_err b); [cbn; split; [done|lia]|].
  destruct (bufsize <=? S n)%nat.
  - pose proof (conn_Read_bytes (S n) (rd b)) as Hc. by destruct (conn_Read (S n) (rd b)) as [[d e] c].
  - pose proof (conn_Read_bytes bufsize (rd b)) as Hc. destruct (conn_Read bufsize (rd b)) as [[[|y d] e] c].
    + cbn [buffered rd app length] in *. split; [tauto|lia].
    + cbn [buffered rd]. rewrite app_assoc, take_drop, length_take. split; [tauto|lia].
Qed.

Lemma read_loop_bytes fuel n acc b acc' b' :
  read_loop fuel n acc b = (Ok acc', b') →
  acc' ++ buffered b' ++ concat (rd b') = acc ++ buffered b ++ concat (rd b) ∧ length acc' = (length acc + n)%nat.
Proof.
  revert n acc b. induction fuel as [|fuel IH]; intros [|n] acc b; cbn [read_loop]; try done.
  1,2: intros [= <- <-]; split; [done|lia].
  pose proof (bufio_Read_bytes (S n) b) as Hb. destruct (bufio_Read (S n) b) as [[d [e|]] b1]; destruct Hb as [Hb Hl].
  - destruct (Nat.leb_spec (S n) (length d)); [|done]. intros [= <- <-]. rewrite <- app_assoc, Hb, length_app. split; [done|lia].
  - intros [H1 H2]%IH. rewrite H1, <- app_assoc, Hb, H2, length_app. split; [done|lia].
Qed.

(** A read from a fresh connection object returns, and a message takes four
    bytes at least. *)
Lemma read_returns c : ∃ r c', read (rcvTLSConn c) = Some (r, c') ∧
  (is_ok r = true → (length (concat (default [] (connection c'))) + 4 ≤ length (concat c))%nat).
Proof.
  unfold read. cbn [rcvTLSConn connection locked live sent].
  destruct (ReadFull uint32length (NewReader c)) as [[lenBuf|e] b] eqn:E1; [|by eexists _, _].
  destruct (ReadFull (Z.to_nat (Uint32 lenBuf)) b) as [[msg|e] b2] eqn:E2; [|by eexists _, _].
  eexists _, _. split; [done|]. intros _. cbn [connection default].
  apply read_loop_bytes in E1 as [E1 L1], E2 as [E2 L2]. cbn in E1, L1.
  apply (f_equal length) in E1, E2. rewrite !length_app in *. cbn [length] in *. unfold id, uint32length in *. lia.
Qed.

Lemma handle_loop_total fuel done i c :
  (length (concat c) < fuel)%nat → is_Some (handle_loop fuel done i c).
Proof.
  revert i c. induction fuel as [|fuel IH]; intros i c Hf; [lia|]. cbn [handle_loop].
  destruct (read_returns c) as (r & c' & E & Hr). rewrite E. destruct r as [p|e]; [|done].
  destruct (done i); [done|]. destruct p as [p|]; [|done]. specialize (Hr eq_refl).
  destruct (IH (S i) (default [] (connection c'))) as [[ds en] ->]; [lia|done].
Qed.

(** More fuel changes nothing. *)
Lemma handle_loop_fuel fuel fuel' done i c x :
  handle_loop fuel done i c = Some x → (fuel ≤ fuel')%nat → handle_loop fuel' done i c = Some x.
Proof.
  revert fuel' i c x. induction fuel as [|fuel IH]; intros fuel' i c x; [done|].
  destruct fuel' as [|fuel']; [lia|]. cbn [handle_loop]. destruct (read (rcvTLSConn c)) as [[[p|e] c']|]; try done.
  destruct (done i); [done|]. destruct p as [p|]; [|done]. intros E Hf.
  destruct (handle_loop fuel done (S i) (default [] (connection c'))) as [[ds en]|] eqn:E'; [|done].
  by rewrite (IH fuel' _ _ _ E') by lia.
Qed.

(** *** Packets, in order *)
Definition sent_as (m : MemberlistMessage) (rs : list octets) : Prop :=
  ∃ msg, Marshal m = Ok msg ∧ Z.of_nat (length msg) < 2 ^ 32 ∧ concat rs = frame msg.

Hypothesis unmarshal_marshal : ∀ m msg, Marshal m = Ok msg → Unmarshal msg = Ok m.

Lemma read_sent m rs rest :
  sent_as m rs → Version m = version →
  ∃ es, Forall (λ r, r = []) es ∧
    read (rcvTLSConn (rs ++ rest)) =
      Some (match MKind m with STREAM => Ok None | PACKET => Some <$> toPacket m
            | OtherKind _ => Err "could not read from either stream or packet channel"%string end,
            rcvTLSConn (es ++ rest)).
Proof.
  intros (msg & Hm & Hl & Hrs) Hv. destruct (read_frame msg rs rest true [] Hl Hrs) as (es & Hes & E).
  exists es. split; [done|]. unfold rcvTLSConn at 1. rewrite E. unfold decode. rewrite (unmarshal_marshal m msg Hm).
  rewrite Hv, bool_decide_eq_true_2 by done. done.
Qed.

Lemma read_skip es c : Forall (λ r, r = []) es → read (rcvTLSConn (es ++ c)) = read (rcvTLSConn c).
Proof. induction 1 as [|? es -> _ IH]; [done|]. rewrite <- IH. done. Qed.
Lemma handle_loop_skip fuel done i es c :
  Forall (λ r, r = []) es → handle_loop fuel done i (es ++ c) = handle_loop fuel done i c.
Proof. intros He. destruct fuel; [done|]. cbn [handle_loop]. by rewrite read_skip. Qed.

Definition delivered (addr : string → string) (p : string * octets) : delivery := PacketCh (mkPacket p.2 (addr p.1)).

Lemma handle_loop_packets addr ps recss rest fuel i :
  Forall2 (λ p rs, sent_as (packet_message p.1 p.2) rs ∧ ResolveTCPAddr p.1 = Ok (addr p.1)) ps recss →
  handle_loop (length ps + fuel) (λ _, false) i (concat recss ++ rest) =
    match handle_loop fuel (λ _, false) (length ps + i) rest with
    | Some (ds, e) => Some ((delivered addr <$> ps) ++ ds, e)
    | None => None
    end.
Proof.
  intros HF. revert i. induction HF as [|p rs ps recss [Hs Ha] _ IH]; intros i.
  { cbn. by destruct (handle_loop fuel _ _ rest) as [[ds e]|]. }
  destruct (read_sent _ rs (concat recss ++ rest) Hs eq_refl) as (es & Hes & E).
  cbn [concat length Nat.add handle_loop]. rewrite <- app_assoc, E.
  cbn [packet_message MKind]. unfold toPacket at 1. cbn [FromAddr packet_message]. rewrite Ha. cbn [fmap result_fmap].
  cbn [rcvTLSConn connection default]. unfold id. rewrite handle_loop_skip by done.
  rewrite IH. replace (length ps + S i)%nat with (S (length ps + i)) by lia.
  by destruct (handle_loop fuel _ _ rest) as [[ds e]|].
Qed.

Lemma handle_eq fuel done c x : handle_loop fuel done 0 c = Some x → handle done c = Some x.
Proof.
  intros E. unfold handle. destruct (handle_loop_total (S (length (concat c))) done 0 c) as [y Hy]; [lia|].
  destruct (Nat.le_ge_cases fuel (S (length (concat c)))) as [Hf|Hf].
  - by apply (handle_loop_fuel _ _ _ _ _ _ E).
  - apply (handle_loop_fuel _ _ _ _ _ _ Hy) in Hf. congruence.
Qed.

Lemma write_all_sent w addr i ps c c' :
  (∀ i b rs, w i b = Ok rs → concat rs = b) →
  (∀ p msg, p ∈ ps → Marshal (packet_message p.1 p.2) = Ok msg → Z.of_nat (length msg) < 2 ^ 32) →
  (∀ p, p ∈ ps → ResolveTCPAddr p.1 = Ok (addr p.1)) →
  write_all w i ps c = Some c' →
  ∃ recss, sent c' = sent c ++ recss ∧
    Forall2 (λ p rs, sent_as (packet_message p.1 p.2) rs ∧ ResolveTCPAddr p.1 = Ok (addr p.1)) ps recss.
Proof.
  intros Hw. revert i c. induction ps as [|[from b] ps IH]; intros i c Hl Ha; cbn.
  { intros [= <-]. exists []. rewrite app_nil_r. split; [done|constructor]. }
  unfold writePacket, write_message. destruct (Marshal (packet_message from b)) as [msg|] eqn:Em; [|done].
  unfold Write. destruct (locked c), (connection c) as [n|]; try done.
  destruct (w i (frame msg)) as [rs|] eqn:Ew; [|done]. intros E.
  destruct (IH _ _ (λ p msg Hp, Hl p msg (list_elem_of_further _ _ _ Hp)) (λ p Hp, Ha p (list_elem_of_further _ _ _ Hp)) E)
    as (recss & Hs & HF).
  exists (rs :: recss). cbn in Hs. rewrite Hs, <- app_assoc. split; [done|]. constructor; [|done]. cbn. split.
  - exists msg. split_and!; [done| |by apply Hw in Ew]. eapply (Hl (from, b)); [set_solver|done].
  - apply (Ha (from, b)). set_solver.
Qed.

(** C31: packets written to one connection arrive completely, unmixed and in
    order, however TLS splits the writes into records and although the receiver
    reads every one through a buffer of its own that it then throws away; a stream
    is handed over with all bytes that follow its first message. *)
Theorem transport_lossless w ps c addr :
  (∀ i b rs, w i b = Ok rs → concat rs = b) →
  (∀ p msg, p ∈ ps → Marshal (packet_message p.1 p.2) = Ok msg → Z.of_nat (length msg) < 2 ^ 32) →
  (∀ p, p ∈ ps → ResolveTCPAddr p.1 = Ok (addr p.1)) →
  write_all w 0 ps dialed = Some c →
  handle (λ _, false) (concat (sent c)) = Some (delivered addr <$> ps, ReadError "error reading message length: EOF") ∧
  ∀ rs rest, sent_as stream_message rs →
    ∃ c', concat c' = concat rest ∧
      handle (λ _, false) (concat (sent c) ++ rs ++ rest) = Some ((delivered addr <$> ps) ++ [StreamCh c'], Streamed).
Proof.
  intros Hw Hl Ha E. destruct (write_all_sent w addr 0 ps dialed c Hw Hl Ha E) as (recss & Hs & HF).
  cbn in Hs. rewrite Hs. split.
  - apply (handle_eq (length ps + 1)). rewrite <- (app_nil_r (concat recss)), (handle_loop_packets addr) by done.
    cbn. by rewrite app_nil_r.
  - intros rs rest Hst. destruct (read_sent stream_message rs rest Hst eq_refl) as (es & Hes & Er).
    exists (es ++ rest). split.
    { rewrite concat_app. clear -Hes. induction Hes as [|? es -> _ IH]; [done|exact IH]. }
    apply (handle_eq (length ps + 1)). rewrite (handle_loop_packets addr) by done. cbn [handle_loop]. by rewrite Er.
Qed.

(** Whatever a peer sends, the loop ends with its connection. *)
Theorem handle_total done c : is_Some (handle done c).
Proof. apply handle_loop_total. lia. Qed.

(** A length that cannot be read leaves the mutex locked: the connection object
    can no longer be written to, asked or closed. *)
Lemma length_error_keeps_lock c r e b :
  locked c = false → connection c = Some r → ReadFull uint32length (NewReader r) = (Err e, b) →
  ∃ c', read c = Some (Err ("error reading message length: " +:+ e), c') ∧
    (∀ o, Write o c' = None) ∧ conn_alive c' = None ∧ conn_Close c' = None.
Proof. intros Hl Hc E. unfold read. rewrite Hc, Hl, E. eexists. by split_and!. Qed.
End wire.

(** *** The pool *)
Lemma app_cons_inj (l1 l2 m1 m2 : octets) x :
  l1 ++ x :: m1 = l2 ++ x :: m2 → x ∉ m1 → x ∉ m2 → l1 = l2 ∧ m1 = m2.
Proof.
  revert l2. induction l1 as [|y l1 IH]; intros [|z l2]; cbn.
  - by intros [= ->].
  - intros [= <- ->] Hn _. set_solver.
  - intros [= -> <-] _ Hn. set_solver.
  - intros [= -> E] H1 H2. destruct (IH l2 E H1 H2) as [-> ->]. done.
Qed.

Lemma Itoa_no_slash n : 47 ∉ Strconv.Itoa_bytes n.
Proof.
  assert (Hd : ∀ k, 0 ≤ k → 47 ∉ Strconv.digits k).
  { intros k Hk Hin. destruct (Strconv.digits_spec k Hk) as (_ & Hd & _).
    rewrite Forall_forall in Hd. apply Hd, Strconv.is_digit_range in Hin. lia. }
  unfold Strconv.Itoa_bytes. destruct (Z.ltb_spec n 0); [|by apply Hd].
  intros [?|Hin]%elem_of_cons; [done|]. by apply (Hd (- n)); [lia|].
Qed.

Lemma pool_key_inj a t a' t' :
  in_int64 t → in_int64 t' → pool_key a t = pool_key a' t' → a = a' ∧ t = t'.
Proof.
  intros Ht Ht' E. apply (f_equal bytes) in E. unfold pool_key, Strconv.Itoa in E. rewrite !bytes_app in E.
  assert (Hb : ∀ n, Forall is_byte (Strconv.Itoa_bytes n)).
  { intros n. eapply Forall_impl; [apply Strconv.Itoa_bytes_ascii|]. unfold is_byte. cbn. lia. }
  rewrite !bytes_of_bytes in E by apply Hb. change (bytes "/") with [47] in E. cbn [app] in E.
  apply app_cons_inj in E as [Ea Et]; [|apply Itoa_no_slash..]. split; [by apply bytes_inj|].
  apply (f_equal Strconv.Atoi_bytes) in Et. rewrite !Strconv.Atoi_Itoa_bytes in Et by done. by injection Et.
Qed.

Lemma close_pooled_idem q : close_pooled (close_pooled q) = close_pooled q.
Proof. unfold close_pooled, conn_Close. cbn. by destruct (locked (p_conn q)) eqn:E; cbn; rewrite ?E. Qed.

Lemma close_all_lookup ids h i :
  close_all ids h !! i = (λ q, if decide (i ∈ ids) then close_pooled q else q) <$> h !! i.
Proof.
  unfold close_all. revert h. induction ids as [|j ids IH]; intros h; cbn [foldl].
  { destruct (h !! i); [|done]. cbn. by rewrite decide_False by set_solver. }
  rewrite IH. destruct (decide (i = j)) as [->|Hne].
  - rewrite list_lookup_alter_eq. destruct (h !! j) as [q|]; [|done]. cbn.
    rewrite (decide_True (P := j ∈ j :: ids)) by set_solver. case_decide; [by rewrite close_pooled_idem|done].
  - rewrite list_lookup_alter_ne by done. destruct (h !! i) as [q|]; [|done]. cbn.
    destruct (decide (i ∈ ids)); [rewrite decide_True by set_solver|rewrite decide_False by set_solver]; done.
Qed.

Section pool.
Context {C : Type} `{LR : LRU C} `{LW : !LRULaws C} `{WI : Wire}.

(** Connections are usable, what is cached was dialed for its key, and what is
    alive is cached. *)
Record pool_ok (p : connectionPool) : Prop := {
  ok_conns : ∀ i q, heap p !! i = Some q →
    locked (p_conn q) = false ∧ is_Some (connection (p_conn q)) ∧ in_int64 (p_timeout q);
  ok_cached : ∀ c k i, cache p = Some c → lru_view c k = Some i →
    ∃ q, heap p !! i = Some q ∧ pool_key (p_addr q) (p_timeout q) = k;
  ok_alive : ∀ i q, heap p !! i = Some q → live (p_conn q) = true →
    ∃ c, cache p = Some c ∧ lru_view c (pool_key (p_addr q) (p_timeout q)) = Some i;
}.

Lemma pool_ok_new : pool_ok newConnectionPool.
Proof. split; [done| |done]. intros c k i [= <-]. by rewrite lru_view_new. Qed.

Lemma close_pooled_fields q :
  p_addr (close_pooled q) = p_addr q ∧ p_timeout (close_pooled q) = p_timeout q ∧
  locked (p_conn (close_pooled q)) = locked (p_conn q) ∧ connection (p_conn (close_pooled q)) = connection (p_conn q) ∧
  (locked (p_conn q) = false → live (p_conn (close_pooled q)) = false).
Proof. unfold close_pooled, conn_Close. cbn. destruct (locked (p_conn q)) eqn:E; by cbn. Qed.

(** Closing some of the connections of a heap. *)
Lemma close_all_inv ids h i q' :
  close_all ids h !! i = Some q' →
  ∃ q, h !! i = Some q ∧ p_addr q' = p_addr q ∧ p_timeout q' = p_timeout q ∧ locked (p_conn q') = locked (p_conn q) ∧
    connection (p_conn q') = connection (p_conn q) ∧
    (locked (p_conn q) = false → live (p_conn q') = true → live (p_conn q) = true ∧ i ∉ ids).
Proof.
  rewrite close_all_lookup. destruct (h !! i) as [q|]; [|done]. cbn. intros [= <-]. exists q. split; [done|].
  destruct (close_pooled_fields q) as (H1 & H2 & H3 & H4 & H5). case_decide as Hd; [|by split_and!].
  split_and!; [done..|]. intros Hl Ha. rewrite (H5 Hl) in Ha. done.
Qed.
Lemma close_all_some ids h i q :
  h !! i = Some q → ∃ q', close_all ids h !! i = Some q' ∧ p_addr q' = p_addr q ∧ p_timeout q' = p_timeout q ∧
    (i ∉ ids → q' = q).
Proof.
  rewrite close_all_lookup. intros ->. cbn. eexists. split; [done|]. destruct (close_pooled_fields q) as (H1 & H2 & _).
  case_decide; by split_and!.
Qed.

Lemma pool_ok_shutdown p : pool_ok p → pool_ok (shutdown p) ∧
  ∀ i q, heap (shutdown p) !! i = Some q → live (p_conn q) = false.
Proof.
  intros [H1 H2 H3]. unfold shutdown. destruct (cache p) as [c|] eqn:Ec.
  - assert (Hdead : ∀ i q, close_all (lru_Purge c) (heap p) !! i = Some q → live (p_conn q) = false).
    { intros i q (q0 & Hq & Ea & Et & El & _ & Hl)%close_all_inv. destruct (live (p_conn q)) eqn:E; [|done].
      destruct (H1 i q0 Hq) as (Hl0 & _). destruct (Hl Hl0 eq_refl) as [Hlive Hnot].
      destruct (H3 i q0 Hq Hlive) as (c' & [= <-] & Hv). exfalso. apply Hnot, lru_Purge_all. eauto. }
    split; [split|done]; cbn [heap cache].
    + intros i q (q0 & Hq & Ea & Et & El & Ec' & _)%close_all_inv. rewrite El, Ec', Et. by apply (H1 i).
    + done.
    + intros i q Hq Hl. rewrite (Hdead i q Hq) in Hl. done.
  - split; [by split; rewrite ?Ec|]. intros i q Hq. destruct (live (p_conn q)) eqn:E; [|done].
    by destruct (H3 i q Hq E) as (c & ? & _).
Qed.

Lemma cached_once p c i q k :
  pool_ok p → cache p = Some c → heap p !! i = Some q → lru_view c k = Some i → k = pool_key (p_addr q) (p_timeout q).
Proof. intros Hp Hc Hq Hv. destruct (ok_cached p Hp c k i Hc Hv) as (q' & Hq' & <-). by simplify_eq. Qed.

(** The two ways a borrow goes on once the cache has been asked. *)
Lemma borrow_hit p c addr timeout dial i q :
  cache p = Some c → lru_view c (pool_key addr timeout) = Some i → heap p !! i = Some q →
  locked (p_conn q) = false → live (p_conn q) = true →
  borrowConnection addr timeout dial p = (Ok i, mkPool (Some (lru_Get (pool_key addr timeout) c).2) (heap p)).
Proof.
  intros Hc Hv Hq Hl Ha. unfold borrowConnection. rewrite Hc. pose proof (lru_Get_view (pool_key addr timeout) c) as Hg.
  destruct (lru_Get (pool_key addr timeout) c) as [f c']. cbn in *. rewrite Hg, Hv. cbn.
  unfold pooled_alive, conn_alive. by rewrite Hq, Hl, Ha.
Qed.

Lemma borrow_miss p c addr timeout dial :
  cache p = Some c → (∀ i q, lru_view c (pool_key addr timeout) = Some i → heap p !! i = Some q → live (p_conn q) = false) →
  pool_ok p →
  borrowConnection addr timeout dial p =
    let c := (lru_Get (pool_key addr timeout) c).2 in
    match dial with
    | Err e => (Err e, mkPool (Some c) (heap p))
    | Ok _ =>
        let i := length (heap p) in
        (Ok i, mkPool (Some (lru_Add (pool_key addr timeout) i c).1)
          (close_all (lru_Add (pool_key addr timeout) i c).2 (heap p ++ [mkPooled addr timeout dialed])))
    end.
Proof.
  intros Hc Hn Hp. unfold borrowConnection. rewrite Hc. pose proof (lru_Get_view (pool_key addr timeout) c) as Hg.
  destruct (lru_Get (pool_key addr timeout) c) as [f c']. cbn in *. subst f.
  destruct (lru_view c (pool_key addr timeout)) as [i|] eqn:Ev; cbn.
  - unfold pooled_alive. destruct (ok_cached p Hp c _ i Hc Ev) as (q & Hq & _). rewrite Hq. unfold conn_alive.
    destruct (ok_conns p Hp i q Hq) as (-> & _). rewrite (Hn i q eq_refl Hq). cbn.
    destruct dial; [|done]. by destruct (lru_Add _ _ c').
  - destruct dial; [|done]. by destruct (lru_Add _ _ c').
Qed.

(** What is cached is in the heap, so a new connection is not evicted at once. *)
Lemma cached_bound p c k i : pool_ok p → cache p = Some c → lru_view c k = Some i → (i < length (heap p))%nat.
Proof. intros Hp Hc Hv. destruct (ok_cached p Hp c k i Hc Hv) as (q & Hq & _). by eapply lookup_lt_Some. Qed.

Lemma pool_ok_get p c k :
  pool_ok p → cache p = Some c → pool_ok (mkPool (Some (lru_Get k c).2) (heap p)).
Proof.
  intros [Hc1 Hc2 Hc3] Hc. split; cbn.
  - done.
  - intros c' k' i [= <-]. rewrite lru_Get_keeps. by apply Hc2.
  - intros i q Hq Hl. destruct (Hc3 i q Hq Hl) as (c' & Hc' & Hv). simplify_eq. eexists. split; [done|].
    by rewrite lru_Get_keeps.
Qed.

Lemma pool_ok_add p c addr timeout :
  pool_ok p → cache p = Some c → in_int64 timeout →
  (∀ i q, lru_view c (pool_key addr timeout) = Some i → heap p !! i = Some q → live (p_conn q) = false) →
  let r := lru_Add (pool_key addr timeout) (length (heap p)) c in
  pool_ok (mkPool (Some r.1) (close_all r.2 (heap p ++ [mkPooled addr timeout dialed]))) ∧
  close_all r.2 (heap p ++ [mkPooled addr timeout dialed]) !! length (heap p) = Some (mkPooled addr timeout dialed).
Proof.
  intros Hp Hc Ht Hn r. set (key := pool_key addr timeout) in *. set (n := length (heap p)) in *.
  assert (Hold : ∀ i q, (heap p ++ [mkPooled addr timeout dialed]) !! i = Some q →
    heap p !! i = Some q ∨ i = n ∧ q = mkPooled addr timeout dialed).
  { intros i q Hq. apply lookup_app_Some in Hq as [Hq|[Hle Hq]]; [by left|]. right.
    apply list_lookup_singleton_Some in Hq as [Hi <-]. split; [unfold n; lia|done]. }
  assert (Hnew : n ∉ r.2).
  { intros (k' & Hv & _)%lru_Add_evicts. apply (cached_bound p c k' n Hp Hc) in Hv. unfold n in Hv. lia. }
  assert (Hin : (heap p ++ [mkPooled addr timeout dialed]) !! n = Some (mkPooled addr timeout dialed)).
  { apply lookup_app_Some. right. unfold n. by rewrite Nat.sub_diag. }
  split.
  2:{ destruct (close_all_some r.2 _ _ _ Hin) as (q' & E & _ & _ & Hq'). rewrite E. f_equal. auto. }
  split; cbn [heap cache].
  - intros i q' (q & Hq & _ & Et & El & Ec & _)%close_all_inv. rewrite Et, El, Ec.
    destruct (Hold i q Hq) as [Ho|[-> ->]]; [by apply (ok_conns p Hp i)|]. done.
  - intros c' k i [= <-] Hv. unfold r in Hv. destruct (decide (k = key)) as [->|Hne].
    + rewrite lru_Add_view in Hv. injection Hv as <-. destruct (close_all_some r.2 _ _ _ Hin) as (q' & E & Ea & Et & _).
      exists q'. split; [done|]. by rewrite Ea, Et.
    + destruct (lru_Add_other key n c k Hne) as [Eq|[Eq _]]; [|congruence]. rewrite Eq in Hv.
      destruct (ok_cached p Hp c k i Hc Hv) as (q & Hq & Hk).
      destruct (close_all_some r.2 (heap p ++ [mkPooled addr timeout dialed]) i q) as (q' & E & Ea & Et & _).
      { apply lookup_app_Some. by left. }
      exists q'. split; [done|]. by rewrite Ea, Et.
  - intros i q' (q & Hq & Ea & Et & El & _ & Hl)%close_all_inv Hlive. rewrite Ea, Et. eexists. split; [done|].
    unfold r. destruct (Hold i q Hq) as [Ho|[-> ->]]; [|apply lru_Add_view].
    destruct (ok_conns p Hp i q Ho) as (Hl0 & _). destruct (Hl Hl0 Hlive) as [Hlq Hnot].
    destruct (ok_alive p Hp i q Ho Hlq) as (c' & Hc' & Hv). simplify_eq.
    destruct (decide (pool_key (p_addr q) (p_timeout q) = key)) as [Ek|Hne].
    + rewrite Ek in Hv. rewrite (Hn i q Hv Ho) in Hlq. done.
    + destruct (lru_Add_other key n c _ Hne) as [->|[_ Hev]]; [done|]. by apply Hev in Hv.
Qed.

Lemma pool_ok_borrow p addr timeout dial r p' :
  pool_ok p → in_int64 timeout → borrowConnection addr timeout dial p = (r, p') →
  pool_ok p' ∧
  match r with
  | Ok i => ∃ q, heap p' !! i = Some q ∧ p_addr q = addr ∧ p_timeout q = timeout ∧ live (p_conn q) = true
  | Err e => heap p' = heap p ∧ (cache p = None ∨ dial = Err e)
  end.
Proof.
  intros Hp Ht E. destruct (cache p) as [c|] eqn:Hc.
  2:{ unfold borrowConnection in E. rewrite Hc in E. injection E as <- <-. eauto. }
  assert (Hcase : (∃ i q, lru_view c (pool_key addr timeout) = Some i ∧ heap p !! i = Some q ∧ live (p_conn q) = true) ∨
    (∀ i q, lru_view c (pool_key addr timeout) = Some i → heap p !! i = Some q → live (p_conn q) = false)).
  { destruct (lru_view c (pool_key addr timeout)) as [i|] eqn:Ev; [|right; naive_solver].
    destruct (ok_cached p Hp c _ i Hc Ev) as (q & Hq & _). destruct (live (p_conn q)) eqn:El; [left; eauto|].
    right. intros i' q' [= <-] Hq'. by simplify_eq. }
  destruct Hcase as [(i & q & Hv & Hq & Hl)|Hn].
  - destruct (ok_conns p Hp i q Hq) as (Hlk & _ & Hti). rewrite (borrow_hit p c addr timeout dial i q) in E by done.
    injection E as <- <-. split; [by apply pool_ok_get|]. exists q. cbn. split; [done|].
    destruct (pool_key_inj addr timeout (p_addr q) (p_timeout q)) as [-> ->]; [done|done|by eapply cached_once|done].
  - rewrite (borrow_miss p c) in E by done. cbn zeta in E.
    set (c1 := (lru_Get (pool_key addr timeout) c).2) in *. destruct dial as [[]|e].
    + injection E as <- <-. pose proof (pool_ok_get p c (pool_key addr timeout) Hp Hc) as Hp1. fold c1 in Hp1.
      destruct (pool_ok_add (mkPool (Some c1) (heap p)) c1 addr timeout Hp1 eq_refl Ht) as [Hok Hlast].
      { intros i q Hv. apply Hn. subst c1. by rewrite lru_Get_keeps in Hv. }
      cbn [heap] in *. split; [done|]. by eexists.
    + injection E as <- <-. split; [by apply pool_ok_get|]. eauto.
Qed.

Lemma writePacket_conn from b w c r c' :
  writePacket from b w c = Some (r, c') → locked c = false → is_Some (connection c) →
  locked c' = false ∧ is_Some (connection c') ∧ (live c' = true → live c = true).
Proof.
  unfold writePacket, write_message. destruct (Marshal _) as [msg|]; [|by intros [= <- <-]].
  unfold Write. intros E Hl [n Hn]. rewrite Hl, Hn in E. destruct (w (frame msg)); by injection E as <- <-.
Qed.

Lemma pool_ok_write p i q from b w r c :
  pool_ok p → heap p !! i = Some q → writePacket from b w (p_conn q) = Some (r, c) →
  pool_ok (mkPool (cache p) (set_conn i c (heap p))).
Proof.
  intros Hp Hq E. destruct (ok_conns p Hp i q Hq) as (Hl & Hc & Ht).
  destruct (writePacket_conn _ _ _ _ _ _ E Hl Hc) as (Hl' & Hc' & Hlive).
  assert (Hset : ∀ j q', set_conn i c (heap p) !! j = Some q' →
    ∃ q0, heap p !! j = Some q0 ∧ p_addr q' = p_addr q0 ∧ p_timeout q' = p_timeout q0 ∧
      ((j = i ∧ q0 = q ∧ p_conn q' = c) ∨ q' = q0)).
  { intros j q'. unfold set_conn. rewrite list_lookup_alter. case_decide as Hd.
    - subst. rewrite Hq. cbn. intros [= <-]. exists q. naive_solver.
    - intros Hj. exists q'. naive_solver. }
  split; cbn [heap cache].
  - intros j q' (q0 & Hj & Ea & Et & [(-> & -> & ->)| ->])%Hset; [|by apply (ok_conns p Hp j)]. rewrite Et. done.
  - intros c' k j Hcc Hv. destruct (ok_cached p Hp c' k j Hcc Hv) as (q0 & Hj & <-). unfold set_conn.
    rewrite list_lookup_alter. case_decide as Hd; [subst; rewrite Hj; by eexists|eauto].
  - intros j q' (q0 & Hj & -> & -> & Hor)%Hset Hlv. apply (ok_alive p Hp j q0 Hj).
    destruct Hor as [(-> & -> & Ec)| ->]; [|done]. apply Hlive. by rewrite <- Ec.
Qed.

Lemma pool_reachable_ok p : pool_reachable p → pool_ok p.
Proof.
  intros Hr. unfold pool_reachable in Hr. remember newConnectionPool as p0 eqn:E0.
  assert (Hp : pool_ok p0) by (subst; apply pool_ok_new). clear E0.
  induction Hr as [p|p0 p1 p2 Hs _ IH]; [done|]. apply IH. destruct Hs.
  - by eapply pool_ok_borrow.
  - by eapply pool_ok_write.
  - by apply pool_ok_shutdown.
Qed.

Lemma DefaultTCPTimeout_int64 : in_int64 DefaultTCPTimeout.
Proof. unfold in_int64, DefaultTCPTimeout, second. lia. Qed.

(** [WriteTo] is a borrow and a write. *)
Lemma WriteTo_steps from b addr dial w p r p' :
  WriteTo from b addr dial w p = Some (r, p') → rtc pool_step p p'.
Proof.
  unfold WriteTo. destruct (borrowConnection addr DefaultTCPTimeout dial p) as [[i|e] p1] eqn:E.
  - assert (H1 : pool_step p p1) by
      (apply (step_borrow p addr DefaultTCPTimeout dial (Ok i)); [apply DefaultTCPTimeout_int64|done]).
    destruct (heap p1 !! i) as [q|] eqn:Eq; [|done].
    destruct (writePacket from b w (p_conn q)) as [[r' c]|] eqn:Ew; [|done].
    intros E'. eapply rtc_l; [exact H1|]. apply rtc_once.
    replace p' with (mkPool (cache p1) (set_conn i c (heap p1))) by (destruct r'; by injection E').
    by eapply step_write.
  - intros [= <- <-]. apply rtc_once. eapply step_borrow; [apply DefaultTCPTimeout_int64|done].
Qed.

(** the pool gives a live connection to the address that was asked for, the
    one it has if that lives, and dials otherwise; and no live connection is
    ever out of its reach, so that a shutdown leaves none alive. *)
Theorem pool_exact p addr timeout dial r p' :
  pool_reachable p → in_int64 timeout → borrowConnection addr timeout dial p = (r, p') →
  match r with
  | Ok i => ∃ q, heap p' !! i = Some q ∧ p_addr q = addr ∧ p_timeout q = timeout ∧ live (p_conn q) = true
  | Err e => heap p' = heap p ∧ (cache p = None ∨ dial = Err e)
  end ∧
  (∀ j q, heap p !! j = Some q → p_addr q = addr → p_timeout q = timeout → live (p_conn q) = true →
     r = Ok j ∧ heap p' = heap p) ∧
  (∀ j q, heap (shutdown p') !! j = Some q → live (p_conn q) = false).
Proof.
  intros Hp%pool_reachable_ok Ht E. destruct (pool_ok_borrow p addr timeout dial r p' Hp Ht E) as [Hp' Hr].
  split_and!; [done| |by apply pool_ok_shutdown].
  intros j q Hj <- <- Hl. destruct (ok_alive p Hp j q Hj Hl) as (c & Hc & Hv).
  rewrite (borrow_hit p c _ _ dial j q Hc Hv Hj) in E; [by injection E as <- <-|by apply (ok_conns p Hp j)|done].
Qed.
End pool.

(** *** Advertised addresses *)
(** Without the permission to advertise a public address, the address is the one
    that was configured, or a private one. *)
Lemma advertise_exact `{NetAddress} To4 IsUnspecified priv pub bind adv ip :
  calculateAdvertiseAddress To4 IsUnspecified priv pub bind adv false = Ok ip →
  (adv ≠ ""%string ∧ ∃ i, ParseIP adv = Some i ∧ ip = default i (To4 i)) ∨
  (adv = ""%string ∧ isAny IsUnspecified bind = false ∧ ParseIP bind = Some ip) ∨
  (adv = ""%string ∧ isAny IsUnspecified bind = true ∧ ∃ a, priv = Ok a ∧ a ≠ ""%string ∧ ParseIP a = Some ip).
Proof.
  unfold calculateAdvertiseAddress, discoverAdvertiseAddress, parse_ip. intros R. case_bool_decide as Ha; cbn in R.
  - subst. right. destruct (isAny IsUnspecified bind); [right|left].
    + destruct priv as [a|]; [|done]. case_bool_decide; [done|]. destruct (ParseIP a) eqn:E; [|done].
      injection R as <-. eauto 10.
    + destruct (ParseIP bind) eqn:E; [|done]. by injection R as <-.
  - destruct (ParseIP adv) eqn:E; cbn in R; [|done]. injection R as <-. left. eauto.
Qed.

(** *** Examples: a simple codec, a cache that does not evict *)
Definition kind_octet (k : Kind) : Z := match k with STREAM => 0 | PACKET => 1 | OtherKind n => n end.
Definition octet_kind (z : Z) : Kind := if z =? 0 then STREAM else if z =? 1 then PACKET else OtherKind z.

Definition short (s : string) : bool := (length (bytes s) <=? 255)%nat.
#[local] Instance simple_wire : Wire := {|
  Marshal m :=
    match MKind m with
    | OtherKind _ => Err "unknown kind"%string
    | k =>
        if short (Version m) && short (FromAddr m) then
          Ok (kind_octet k :: Z.of_nat (length (bytes (Version m))) :: bytes (Version m) ++
              Z.of_nat (length (bytes (FromAddr m))) :: bytes (FromAddr m) ++ Msg m)
        else Err "too long"%string
    end;
  Unmarshal b :=
    match b with
    | k :: n :: b =>
        match drop (Z.to_nat n) b with
        | f :: b' => Ok (mkMessage (of_bytes (take (Z.to_nat n) b)) (octet_kind k)
                           (of_bytes (take (Z.to_nat f) b')) (drop (Z.to_nat f) b'))
        | [] => Err "unexpected EOF"%string
        end
    | _ => Err "unexpected EOF"%string
    end;
  ResolveTCPAddr a := Ok a;
|}.

Lemma simple_unmarshal_marshal m msg : Marshal m = Ok msg → Unmarshal msg = Ok m.
Proof.
  destruct m as [v k f b]. cbn [Marshal Unmarshal simple_wire MKind Version FromAddr Msg]. destruct k; [..|done].
  all: destruct (short v && short f); [|done]; intros [= <-]; rewrite !Nat2Z.id, take_app_length, drop_app_length.
  all: by rewrite Nat2Z.id, take_app_length, drop_app_length, !of_bytes_bytes.
Qed.

(** Records of three octets. *)
Fixpoint chop (fuel : nat) (b : octets) : list octets :=
  match fuel, b with
  | _, [] => []
  | O, _ => [b]
  | S fuel, _ => take 3 b :: chop fuel (drop 3 b)
  end.
Lemma chop_concat fuel b : concat (chop fuel b) = b.
Proof.
  revert b. induction fuel as [|fuel IH]; intros [|x b]; cbn [chop concat]; [done|by rewrite app_nil_r|done|].
  rewrite IH. apply take_drop.
Qed.
Definition tls_chop (i : nat) (b : octets) : result string (list octets) := Ok (chop (length b) b).

Definition two_packets : list (string * octets) := [("10.0.0.1:9094"%string, [1; 2; 3; 4; 5]); ("10.0.0.1:9094"%string, [6])].
Definition sender : tlsConn := default dialed (write_all tls_chop 0 two_packets dialed).

Lemma transport_lossless_witness :
  handle (λ _, false) (concat (sent sender)) =
    Some (delivered id <$> two_packets, ReadError "error reading message length: EOF").
Proof.
  refine (proj1 (transport_lossless simple_unmarshal_marshal tls_chop two_packets sender id _ _ _ _)).
  - intros i b rs [= <-]. apply chop_concat.
  - intros p msg [-> |[-> |[]%elem_of_nil]%elem_of_cons]%elem_of_cons E; vm_compute in E; injection E as <-;
      by vm_compute.
  - done.
  - by vm_compute.
Defined.

(** If the two messages came in one record, as they may in a stream of bytes, the
    second one would be lost in the buffer of the first. *)
Example coalesced_packets_lost :
  handle (λ _, false) [concat (concat (sent sender))] =
    Some (delivered id <$> take 1 two_packets, ReadError "error reading message length: EOF").
Proof. by vm_compute. Qed.

#[local] Instance map_lru : LRU (gmap string nat) := {|
  lru_new := ∅;
  lru_Get k c := (c !! k, c);
  lru_Add k v c := (<[k := v]> c, []);
  lru_Purge c := (map_to_list c).*2;
|}.
#[local] Program Instance map_lru_laws : LRULaws (gmap string nat) := {| lru_view c k := c !! k |}.
Next Obligation. intros k. apply lookup_empty. Qed.
Next Obligation. done. Qed.
Next Obligation. done. Qed.
Next Obligation. intros k v c. apply lookup_insert_eq. Qed.
Next Obligation. intros k v c k' Hne. left. by apply lookup_insert_ne. Qed.
Next Obligation. intros k v c v' []%elem_of_nil. Qed.
Next Obligation.
  intros c v. split.
  - intros ([k v'] & -> & Hk%elem_of_map_to_list)%list_elem_of_fmap. by exists k.
  - intros [k Hk]. apply list_elem_of_fmap. exists (k, v). split; [done|]. by apply elem_of_map_to_list.
Qed.

(** A pool with one connection. *)
Definition pool1 : connectionPool := (borrowConnection "10.0.0.2:9094" DefaultTCPTimeout (Ok ()) newConnectionPool).2.
Lemma pool_exact_witness :
  ∃ q, heap pool1 !! 0%nat = Some q ∧ p_addr q = "10.0.0.2:9094"%string ∧ p_timeout q = DefaultTCPTimeout ∧
    live (p_conn q) = true.
Proof.
  refine (proj1 (pool_exact newConnectionPool "10.0.0.2:9094" DefaultTCPTimeout (Ok ()) (Ok 0%nat) pool1 _ DefaultTCPTimeout_int64 _)).
  - apply rtc_refl.
  - by vm_compute.
Defined.
End Transport.
