(* ===== verification/Admission.v ===== *)
(** * Admission of requests (api/api.go, api/connect/)

    GET requests, unary calls and streams each have a semaphore, a buffered
    channel; a request that finds it full is refused at once.  The timeout of an
    HTTP request answers the client, while the handler runs on and keeps its
    place.  The status of the cluster is collected by one goroutine at a time,
    which a caller may stop waiting for. *)

From Stdlib Require Import Ascii String.
From stdpp Require Import base gmap strings list sorting relations.
From S2P Require Import Prelude Utf8 Strconv Cluster Api.

Module Admission.
#[local] Open Scope Z_scope.

(** A channel of empty structs; its capacity is fixed. *)
Record semaphore := mkSemaphore { held : nat; capacity : nat }.
Definition try_send (s : semaphore) : option semaphore :=
  if (held s <? capacity s)%nat then Some (mkSemaphore (S (held s)) (capacity s)) else None.
(** [None]: the channel is empty and the receiver blocks. *)
Definition receive (s : semaphore) : option semaphore :=
  match held s with O => None | S n => Some (mkSemaphore n (capacity s)) end.

Definition defaultConcurrency (GOMAXPROCS concurrency : Z) : Z :=
  if concurrency <? 1 then Z.max GOMAXPROCS 8 else concurrency.

(** ** GET requests (api/api.go) *)
Record limiter := mkLimiter { inFlightSem : semaphore; requestsInFlight : Z; concurrencyLimitExceeded : Z }.
Definition new_limiter (GOMAXPROCS concurrency : Z) : limiter :=
  mkLimiter (mkSemaphore 0 (Z.to_nat (defaultConcurrency GOMAXPROCS concurrency))) 0 0.

(** The texts without their newlines. *)
Definition limit_text (cap : nat) : string :=
  "Limit of concurrent GET requests reached (" +:+ Strconv.Itoa (Z.of_nat cap) +:+ "), try again later.".
Definition timeout_text (timeout : string) : string := "Exceeded configured timeout of " +:+ timeout +:+ ".".

(** The handler up to the call of the wrapped one: refused, or whether the
    deferred function gives a place back. *)
Definition enter (get : bool) (l : limiter) : limiter * result string bool :=
  if get then
    match try_send (inFlightSem l) with
    | Some s => (mkLimiter s (requestsInFlight l + 1) (concurrencyLimitExceeded l), Ok true)
    | None =>
        (mkLimiter (inFlightSem l) (requestsInFlight l) (concurrencyLimitExceeded l + 1),
         Err (limit_text (capacity (inFlightSem l))))
    end
  else (l, Ok false).

(** The deferred function, which also runs when the wrapped handler panics. *)
Definition leave (holds : bool) (l : limiter) : option limiter :=
  if holds then
    s ← receive (inFlightSem l); Some (mkLimiter s (requestsInFlight l - 1) (concurrencyLimitExceeded l))
  else Some l.

(** The requests whose handlers run, and the answers so far. *)
Inductive answer := Served | Refused (text : string) | TimedOut (text : string).
Record request := mkRequest { rq_id : nat; rq_holds : bool; rq_answered : bool }.
Record server := mkServer { limits : limiter; running : list request; answers : list (nat * answer) }.

Definition known (s : server) (id : nat) : Prop := id ∈ rq_id <$> running s ∨ id ∈ (answers s).*1.

(** [timeout]: the configured one, when it is positive. *)
Inductive serve (timeout : option string) : server → server → Prop :=
| serve_arrive s id get l r :
    ¬ known s id → enter get (limits s) = (l, r) →
    serve timeout s
      (match r with
       | Ok holds => mkServer l (running s ++ [mkRequest id holds false]) (answers s)
       | Err text => mkServer l (running s) (answers s ++ [(id, Refused text)])
       end)
| serve_finish s rs1 q rs2 l :
    running s = rs1 ++ q :: rs2 → leave (rq_holds q) (limits s) = Some l →
    serve timeout s
      (mkServer l (rs1 ++ rs2) (if rq_answered q then answers s else answers s ++ [(rq_id q, Served)]))
| serve_expire s rs1 q rs2 t :
    timeout = Some t → running s = rs1 ++ q :: rs2 → rq_answered q = false →
    serve timeout s
      (mkServer (limits s) (rs1 ++ mkRequest (rq_id q) (rq_holds q) true :: rs2)
         (answers s ++ [(rq_id q, TimedOut (timeout_text t))])).

Definition new_server (GOMAXPROCS concurrency : Z) : server := mkServer (new_limiter GOMAXPROCS concurrency) [] [].
Definition holding (rs : list request) : nat := length (List.filter rq_holds rs).

(** The labels of the metrics: a silence's identifier does not show, and of the
    procedures only the known services do. *)
Definition handler_label (prefix path : string) : string :=
  let path := if Strings.HasPrefix path prefix then of_bytes (drop (length (bytes prefix)) (bytes path)) else path in
  if Strings.HasPrefix path "/api/v2/silence/" then "/api/v2/silence/{silenceID}"%string else path.

Definition ServicePrefixes : list string :=
  ["/status.v3alpha.StatusService/"; "/grpc.health.v1.Health/"; "/grpc.reflection.v1.ServerReflection/";
   "/grpc.reflection.v1alpha.ServerReflection/"]%string.
Definition unmatchedRPCLabel : string := "unmatched".
Definition connect_label (mountPrefix : string) (servicePrefixes : list string) (path : string) : string :=
  let procedure :=
    if Strings.HasPrefix path mountPrefix then of_bytes (drop (length (bytes mountPrefix)) (bytes path)) else path in
  default unmatchedRPCLabel (List.find (λ p, Strings.HasPrefix procedure p) servicePrefixes).

(** ** Calls and streams (api/connect/connect.go) *)
Record admissionInterceptor := mkAdmission { unary : semaphore; streams : semaphore }.
Definition NewAdmission (GOMAXPROCS unaryConcurrency streamConcurrency : Z) : admissionInterceptor :=
  mkAdmission (mkSemaphore 0 (Z.to_nat (defaultConcurrency GOMAXPROCS unaryConcurrency)))
    (mkSemaphore 0 (Z.to_nat (defaultConcurrency GOMAXPROCS streamConcurrency))).

Inductive code := CodeUnknown | CodeResourceExhausted | CodeDeadlineExceeded | CodeCanceled | OtherCode (n : Z).
(** An error with its code and whether it wraps the context's errors. *)
Record rpc_error := mkRpcError { e_code : code; e_text : string; e_deadline : bool; e_canceled : bool }.
#[global] Instance code_eq_dec : EqDecision code.
Proof. solve_decision. Defined.

Definition exhausted (what : string) : rpc_error :=
  mkRpcError CodeResourceExhausted ("maximum concurrent " +:+ what +:+ " reached") false false.

(** What a unary call makes of the result of the procedure. *)
Definition unary_result {A} (r : result rpc_error A) : result rpc_error A :=
  match r with
  | Ok a => Ok a
  | Err e =>
      if negb (bool_decide (e_code e = CodeUnknown)) then Err e
      else if e_deadline e then Err (mkRpcError CodeDeadlineExceeded (e_text e) (e_deadline e) (e_canceled e))
      else if e_canceled e then Err (mkRpcError CodeCanceled (e_text e) (e_deadline e) (e_canceled e))
      else Err e
  end.

(** A call or a stream begins and ends. *)
Definition begin_rpc (stream : bool) (a : admissionInterceptor) : admissionInterceptor * result rpc_error () :=
  match try_send (if stream then streams a else unary a) with
  | Some s => (if stream then mkAdmission (unary a) s else mkAdmission s (streams a), Ok ())
  | None => (a, Err (exhausted (if stream then "streams" else "unary RPCs")))
  end.
Definition end_rpc (stream : bool) (a : admissionInterceptor) : option admissionInterceptor :=
  s ← receive (if stream then streams a else unary a);
  Some (if stream then mkAdmission (unary a) s else mkAdmission s (streams a)).

(** The calls (false) and streams (true) in progress. *)
Inductive rpc_step : admissionInterceptor * list bool → admissionInterceptor * list bool → Prop :=
| rpc_begin a rs stream a' r :
    begin_rpc stream a = (a', r) → rpc_step (a, rs) (a', if is_ok r then stream :: rs else rs)
| rpc_end a rs1 stream rs2 a' : end_rpc stream a = Some a' → rpc_step (a, rs1 ++ stream :: rs2) (a', rs1 ++ rs2).

(** ** The status of the cluster (api/connect/status.go) *)
Inductive State := STATE_DISABLED | STATE_READY | STATE_SETTLING | STATE_UNSPECIFIED.
Definition clusterState (s : string) : State :=
  if bool_decide (s = "ready"%string) then STATE_READY
  else if bool_decide (s = "settling"%string) then STATE_SETTLING else STATE_UNSPECIFIED.

Record ClusterStatus := mkClusterStatus { cs_Name : string; cs_State : State; cs_Peers : list (string * string) }.

(** What the goroutine puts together from the peer. *)
Definition collect (peer : Api.ClusterPeer) : ClusterStatus :=
  mkClusterStatus (Api.cp_Name peer) (clusterState (Api.cp_Status peer)) (merge_sort Api.peer_le (Api.cp_Peers peer)).

(** A call of [snapshotClusterStatus]: at its first select, past it, waiting for
    its goroutine, returned.  The goroutine is collecting, has sent its result,
    or has also released the semaphore. *)
Inductive goroutine := Collecting | Sent (r : ClusterStatus) | Ended (r : ClusterStatus).
Inductive call := Waiting | Holding | Spawned (g : goroutine) | Returned (r : option ClusterStatus) (g : option goroutine).

Record snapshots := mkSnapshots { peerSnapshotSem : semaphore; calls : list call }.

(** [peer]: what the peer answers now; [ctx.Done] may be ready at any time. *)
Inductive snap_step (peer : Api.ClusterPeer) : snapshots → snapshots → Prop :=
| snap_call s : snap_step peer s (mkSnapshots (peerSnapshotSem s) (calls s ++ [Waiting]))
| snap_acquire s i sem' :
    calls s !! i = Some Waiting → try_send (peerSnapshotSem s) = Some sem' →
    snap_step peer s (mkSnapshots sem' (<[i := Holding]> (calls s)))
| snap_give_up s i :
    calls s !! i = Some Waiting →
    snap_step peer s (mkSnapshots (peerSnapshotSem s) (<[i := Returned None None]> (calls s)))
| snap_done_before s i sem' :
    calls s !! i = Some Holding → receive (peerSnapshotSem s) = Some sem' →
    snap_step peer s (mkSnapshots sem' (<[i := Returned None None]> (calls s)))
| snap_spawn s i :
    calls s !! i = Some Holding →
    snap_step peer s (mkSnapshots (peerSnapshotSem s) (<[i := Spawned Collecting]> (calls s)))
| snap_send s i g :
    calls s !! i = Some (Spawned Collecting) ∧ g = Spawned (Sent (collect peer)) ∨
    (∃ r, calls s !! i = Some (Returned r (Some Collecting)) ∧ g = Returned r (Some (Sent (collect peer)))) →
    snap_step peer s (mkSnapshots (peerSnapshotSem s) (<[i := g]> (calls s)))
| snap_release s i res g sem' :
    calls s !! i = Some (Spawned (Sent res)) ∧ g = Spawned (Ended res) ∨
    (∃ r, calls s !! i = Some (Returned r (Some (Sent res))) ∧ g = Returned r (Some (Ended res))) →
    receive (peerSnapshotSem s) = Some sem' →
    snap_step peer s (mkSnapshots sem' (<[i := g]> (calls s)))
| snap_result s i g res :
    calls s !! i = Some (Spawned g) → g = Sent res ∨ g = Ended res →
    snap_step peer s (mkSnapshots (peerSnapshotSem s) (<[i := Returned (Some res) (Some g)]> (calls s)))
| snap_done s i g :
    calls s !! i = Some (Spawned g) →
    snap_step peer s (mkSnapshots (peerSnapshotSem s) (<[i := Returned None (Some g)]> (calls s))).

(** Whether a call, or its goroutine, has the semaphore. *)
Definition goroutine_holds (g : goroutine) : bool := match g with Ended _ => false | _ => true end.
Definition call_holds (c : call) : bool :=
  match c with
  | Holding => true
  | Spawned g | Returned _ (Some g) => goroutine_holds g
  | _ => false
  end.

(** ** Theorems *)
Lemma holding_app rs1 rs2 : holding (rs1 ++ rs2) = (holding rs1 + holding rs2)%nat.
Proof. unfold holding. by rewrite List.filter_app, length_app. Qed.
Lemma holding_cons q rs : holding (q :: rs) = ((if rq_holds q then 1 else 0) + holding rs)%nat.
Proof. unfold holding. cbn. by destruct (rq_holds q). Qed.

Record serving (cap : nat) (s : server) : Prop := {
  sv_held : held (inFlightSem (limits s)) = holding (running s);
  sv_cap : capacity (inFlightSem (limits s)) = cap;
  sv_bound : (holding (running s) ≤ cap)%nat;
  sv_gauge : requestsInFlight (limits s) = Z.of_nat (holding (running s));
  sv_running : NoDup (rq_id <$> running s);
  sv_answers : NoDup (answers s).*1;
  sv_open : ∀ q, q ∈ running s → (rq_id q ∈ (answers s).*1 ↔ rq_answered q = true);
}.

(** Entering a reachable server. *)
Lemma enter_spec cap s get l r :
  serving cap s → enter get (limits s) = (l, r) →
  match r with
  | Ok holds => holds = get ∧ (get = true → holding (running s) < cap)%nat ∧
      held (inFlightSem l) = (holding (running s) + if get then 1 else 0)%nat ∧ capacity (inFlightSem l) = cap ∧
      requestsInFlight l = Z.of_nat (holding (running s)) + if get then 1 else 0
  | Err text => get = true ∧ holding (running s) = cap ∧ text = limit_text cap ∧
      inFlightSem l = inFlightSem (limits s) ∧ requestsInFlight l = requestsInFlight (limits s)
  end.
Proof.
  intros [Hh Hc Hb Hg _ _ _]. unfold enter, try_send. destruct get.
  - rewrite Hh, Hc. destruct (Nat.ltb_spec (holding (running s)) cap) as [Hlt|Hge].
    + intros [= <- <-]. cbn. split_and!; try lia; done.
    + intros [= <- <-]. cbn. split_and!; try lia; done.
  - intros [= <- <-]. rewrite Hh, Hc, Hg. split_and!; try lia; done.
Qed.

Lemma serving_arrive cap s id get l r :
  serving cap s → ¬ known s id → enter get (limits s) = (l, r) →
  serving cap (match r with
    | Ok holds => mkServer l (running s ++ [mkRequest id holds false]) (answers s)
    | Err text => mkServer l (running s) (answers s ++ [(id, Refused text)])
    end).
Proof.
  intros Hs Hnew E. pose proof (enter_spec cap s get l r Hs E) as Hspec. destruct Hs as [Hh Hc Hb Hg Hr Ha Ho].
  assert (Hn1 : id ∉ rq_id <$> running s) by (intros ?; apply Hnew; by left).
  assert (Hn2 : id ∉ (answers s).*1) by (intros ?; apply Hnew; by right).
  destruct r as [holds|text].
  - destruct Hspec as (-> & Hlt & H1 & H2 & H3). split; cbn [limits running answers];
      rewrite ?holding_app, ?holding_cons; change (holding []) with 0%nat; cbn [rq_holds].
    + rewrite H1. destruct get; lia.
    + done.
    + destruct get; [specialize (Hlt eq_refl)|]; lia.
    + rewrite H3. destruct get; lia.
    + rewrite fmap_app. apply NoDup_app. split_and!; [done| |apply NoDup_singleton]. cbn. set_solver.
    + done.
    + intros q [Hq|Hq]%elem_of_app; [by apply Ho|]. apply list_elem_of_singleton in Hq as ->. cbn. by split.
  - destruct Hspec as (_ & Heq & _ & H1 & H2). split; cbn.
    + by rewrite H1.
    + by rewrite H1.
    + done.
    + by rewrite H2.
    + done.
    + rewrite fmap_app. apply NoDup_app. split_and!; [done| |apply NoDup_singleton]. cbn. set_solver.
    + intros q Hq. rewrite fmap_app, elem_of_app. cbn. rewrite list_elem_of_singleton, <- (Ho q Hq).
      split; [|by left]. intros [?|Heqq]; [done|]. exfalso. apply Hn1. rewrite <- Heqq. by apply list_elem_of_fmap_2.
Qed.

Lemma serving_finish cap s rs1 q rs2 l :
  serving cap s → running s = rs1 ++ q :: rs2 → leave (rq_holds q) (limits s) = Some l →
  serving cap (mkServer l (rs1 ++ rs2) (if rq_answered q then answers s else answers s ++ [(rq_id q, Served)])).
Proof.
  intros [Hh Hc Hb Hg Hr Ha Ho] E El. rewrite E in *. rewrite holding_app, holding_cons in Hh, Hb, Hg.
  assert (Hl : held (inFlightSem l) = (holding rs1 + holding rs2)%nat ∧ capacity (inFlightSem l) = cap ∧
    requestsInFlight l = Z.of_nat (holding rs1 + holding rs2)).
  { unfold leave, receive in El. destruct (rq_holds q); [|injection El as <-; lia].
    rewrite Hh in El. replace (holding rs1 + (1 + holding rs2))%nat with (S (holding rs1 + holding rs2)) in El by lia.
    cbn in El. injection El as <-. cbn. lia. }
  destruct Hl as (H1 & H2 & H3). rewrite fmap_app, fmap_cons in Hr.
  apply NoDup_app in Hr as (Hr1 & Hr12 & Hr2). apply NoDup_cons in Hr2 as [Hq2 Hr2].
  assert (Hq1 : rq_id q ∉ rq_id <$> rs1) by (intros Hin; apply (Hr12 _ Hin); set_solver).
  assert (Hother : ∀ q', q' ∈ rs1 ++ rs2 → rq_id q' ≠ rq_id q).
  { intros q' [Hq'|Hq']%elem_of_app Heq; apply (list_elem_of_fmap_2 rq_id) in Hq'; rewrite Heq in Hq'; done. }
  split; cbn [limits running answers]; rewrite ?holding_app; [done|done|lia|done| | |].
  - rewrite fmap_app. apply NoDup_app. split_and!; [done| |done]. intros x Hx Hx2. apply (Hr12 x Hx). set_solver.
  - destruct (rq_answered q) eqn:Eq; [done|]. rewrite fmap_app. apply NoDup_app.
    split_and!; [done| |apply NoDup_singleton]. cbn. intros x Hx ->%list_elem_of_singleton.
    apply Ho in Hx; [congruence|set_solver].
  - intros q' Hq'. rewrite <- (Ho q') by set_solver. destruct (rq_answered q); [done|].
    rewrite fmap_app, elem_of_app. cbn. rewrite list_elem_of_singleton. specialize (Hother q' Hq'). tauto.
Qed.

Lemma serving_expire cap s rs1 q rs2 text :
  serving cap s → running s = rs1 ++ q :: rs2 → rq_answered q = false →
  serving cap (mkServer (limits s) (rs1 ++ mkRequest (rq_id q) (rq_holds q) true :: rs2)
    (answers s ++ [(rq_id q, TimedOut text)])).
Proof.
  intros [Hh Hc Hb Hg Hr Ha Ho] E Eq. rewrite E in *.
  assert (Hhold : holding (rs1 ++ mkRequest (rq_id q) (rq_holds q) true :: rs2) = holding (rs1 ++ q :: rs2)).
  { by rewrite !holding_app, !holding_cons. }
  assert (Hids : rq_id <$> (rs1 ++ mkRequest (rq_id q) (rq_holds q) true :: rs2) = rq_id <$> (rs1 ++ q :: rs2)).
  { by rewrite !fmap_app, !fmap_cons. }
  split; cbn [limits running answers]; rewrite ?Hhold, ?Hids; [done..| |].
  - rewrite fmap_app. apply NoDup_app. split_and!; [done| |apply NoDup_singleton]. cbn.
    intros x Hx ->%list_elem_of_singleton. apply Ho in Hx; [congruence|set_solver].
  - intros q'. rewrite fmap_app, elem_of_app, elem_of_cons, elem_of_app. cbn. rewrite list_elem_of_singleton.
    rewrite fmap_app, fmap_cons in Hr. apply NoDup_app in Hr as (_ & Hr12 & Hr2). apply NoDup_cons in Hr2 as [Hq2 _].
    intros [Hq'|[-> |Hq']].
    + assert (rq_id q' ≠ rq_id q) by (intros Heq; apply (Hr12 (rq_id q')); [by apply list_elem_of_fmap_2|rewrite Heq; set_solver]).
      rewrite <- (Ho q') by set_solver. tauto.
    + cbn. split; [done|by right].
    + assert (rq_id q' ≠ rq_id q) by (intros Heq; apply Hq2; rewrite <- Heq; by apply list_elem_of_fmap_2).
      rewrite <- (Ho q') by set_solver. tauto.
Qed.

Lemma serving_step cap t s s' : serving cap s → serve t s s' → serving cap s'.
Proof.
  intros Hs Hstep. destruct Hstep as [s id get l r Hnew E|s rs1 q rs2 l E El|s rs1 q rs2 t' Et E Eq].
  - by apply (serving_arrive cap s id get).
  - by apply serving_finish.
  - by apply serving_expire.
Qed.

Lemma serving_new gmp c : serving (Z.to_nat (defaultConcurrency gmp c)) (new_server gmp c).
Proof. split; cbn; try done; [lia|constructor|constructor|set_solver]. Qed.

(** C34: at every moment the places taken are those of the GET requests whose
    handlers run, at most as many as configured, and the gauge says so; a request
    is refused exactly when it is a GET and all places are taken; a request is
    answered once, and one that timed out keeps its place until its handler ends. *)
Theorem limiter_exact gmp c t s :
  rtc (serve t) (new_server gmp c) s →
  held (inFlightSem (limits s)) = holding (running s) ∧
  (holding (running s) ≤ Z.to_nat (defaultConcurrency gmp c))%nat ∧
  requestsInFlight (limits s) = Z.of_nat (holding (running s)) ∧
  NoDup (answers s).*1 ∧
  (∀ q, q ∈ running s → is_Some (leave (rq_holds q) (limits s))) ∧
  ∀ get, is_ok (enter get (limits s)).2 = false ↔
    get = true ∧ holding (running s) = Z.to_nat (defaultConcurrency gmp c).
Proof.
  intros Hr. set (cap := Z.to_nat (defaultConcurrency gmp c)).
  assert (Hs : serving cap s).
  { remember (new_server gmp c) as s0 eqn:E0. assert (Hs0 : serving cap s0) by (subst; apply serving_new). clear E0.
    induction Hr as [s|s0 s1 s2 Hst _ IH]; [done|]. apply IH. by eapply serving_step. }
  pose proof Hs as [Hh Hc Hb Hg Hrn Ha Ho]. split_and!; [done..| |].
  - intros q Hq. unfold leave, receive. rewrite Hh. destruct (rq_holds q) eqn:E; [|done].
    apply list_elem_of_split in Hq as (l1 & l2 & ->). rewrite holding_app, holding_cons, E.
    replace (holding l1 + (1 + holding l2))%nat with (S (holding l1 + holding l2)) by lia. done.
  - intros get. destruct (enter get (limits s)) as [l r] eqn:E. pose proof (enter_spec cap s get l r Hs E) as Hspec.
    destruct r; cbn; [|tauto]. split; [done|]. intros [-> Heq]. destruct Hspec as (_ & Hlt & _). specialize (Hlt eq_refl). lia.
Qed.

(** The labels of calls are bounded whatever paths clients ask for. *)
Lemma connect_label_bounded mount path :
  connect_label mount ServicePrefixes path ∈ unmatchedRPCLabel :: ServicePrefixes.
Proof.
  unfold connect_label. destruct (List.find _ ServicePrefixes) as [p|] eqn:E; cbn [default].
  - apply List.find_some in E as [Hin _]. right. by apply list_elem_of_In.
  - left.
Qed.

(** *** Calls and streams *)
Definition in_progress (stream : bool) (rs : list bool) : nat := length (List.filter (Bool.eqb stream) rs).

Lemma in_progress_app stream rs1 rs2 :
  in_progress stream (rs1 ++ rs2) = (in_progress stream rs1 + in_progress stream rs2)%nat.
Proof. unfold in_progress. by rewrite List.filter_app, length_app. Qed.
Lemma in_progress_cons stream x rs :
  in_progress stream (x :: rs) = ((if Bool.eqb stream x then 1 else 0) + in_progress stream rs)%nat.
Proof. unfold in_progress. cbn. by destruct (Bool.eqb stream x). Qed.

#[local] Arguments in_progress : simpl never.

Definition admitted (cu cs : nat) (p : admissionInterceptor * list bool) : Prop :=
  held (unary p.1) = in_progress false p.2 ∧ capacity (unary p.1) = cu ∧ (in_progress false p.2 ≤ cu)%nat ∧
  held (streams p.1) = in_progress true p.2 ∧ capacity (streams p.1) = cs ∧ (in_progress true p.2 ≤ cs)%nat.

Lemma admitted_step cu cs p p' : admitted cu cs p → rpc_step p p' → admitted cu cs p'.
Proof.
  intros (H1 & H2 & H3 & H4 & H5 & H6) Hstep. destruct Hstep as [a rs stream a' r E|a rs1 stream rs2 a' E]; cbn [fst snd] in *.
  - unfold begin_rpc, try_send in E. destruct stream.
    + destruct (Nat.ltb_spec (held (streams a)) (capacity (streams a))); injection E as <- <-; unfold admitted; cbn;
        rewrite ?in_progress_cons; cbn; split_and!; lia.
    + destruct (Nat.ltb_spec (held (unary a)) (capacity (unary a))); injection E as <- <-; unfold admitted; cbn;
        rewrite ?in_progress_cons; cbn; split_and!; lia.
  - rewrite !in_progress_app, !in_progress_cons in *. unfold end_rpc, receive in E.
    unfold admitted. cbn [fst snd]. rewrite !in_progress_app. destruct stream; cbn in *.
    + destruct (held (streams a)) as [|n] eqn:Eh; [done|]. injection E as <-. cbn. split_and!; lia.
    + destruct (held (unary a)) as [|n] eqn:Eh; [done|]. injection E as <-. cbn. split_and!; lia.
Qed.

(** Calls and streams are limited each by their own number: a call is refused
    exactly when that many calls are in progress, whatever the streams do. *)
Theorem rpc_admission_exact gmp cu cs a rs :
  rtc rpc_step (NewAdmission gmp cu cs, []) (a, rs) →
  ∀ stream, is_ok (begin_rpc stream a).2 = false ↔
    in_progress stream rs = Z.to_nat (defaultConcurrency gmp (if stream then cs else cu)).
Proof.
  intros Hr. assert (Ha : admitted (Z.to_nat (defaultConcurrency gmp cu)) (Z.to_nat (defaultConcurrency gmp cs)) (a, rs)).
  { remember (NewAdmission gmp cu cs, []) as p0 eqn:E0.
    assert (H0 : admitted (Z.to_nat (defaultConcurrency gmp cu)) (Z.to_nat (defaultConcurrency gmp cs)) p0)
      by (subst; unfold admitted, in_progress; cbn; split_and!; lia). clear E0. remember (a, rs) as p eqn:Ep. clear Ep.
    induction Hr as [p|p0 p1 p2 Hst _ IH]; [done|]. apply IH. by eapply admitted_step. }
  destruct Ha as (H1 & H2 & H3 & H4 & H5 & H6). cbn [fst snd] in *. intros stream. unfold begin_rpc, try_send.
  destruct stream.
  - destruct (Nat.ltb_spec (held (streams a)) (capacity (streams a))); cbn; split; try done; lia.
  - destruct (Nat.ltb_spec (held (unary a)) (capacity (unary a))); cbn; split; try done; lia.
Qed.

(** *** Snapshots of the cluster *)
Definition holders (cs : list call) : nat := length (List.filter call_holds cs).

Lemma holders_insert cs i c c' :
  cs !! i = Some c →
  (holders (<[i := c']> cs) + (if call_holds c then 1 else 0) = holders cs + (if call_holds c' then 1 else 0))%nat.
Proof.
  revert i. unfold holders. induction cs as [|x cs IH]; intros [|i]; cbn; try done.
  - intros [= ->]. destruct (call_holds c), (call_holds c'); cbn; lia.
  - intros Hi. specialize (IH i Hi). destruct (call_holds x); cbn; unfold insert in *; lia.
Qed.
Lemma holders_app cs1 cs2 : holders (cs1 ++ cs2) = (holders cs1 + holders cs2)%nat.
Proof. unfold holders. by rewrite List.filter_app, length_app. Qed.

#[local] Arguments holders : simpl never.

Definition snap_ok (s : snapshots) : Prop :=
  held (peerSnapshotSem s) = holders (calls s) ∧ capacity (peerSnapshotSem s) = 1%nat ∧ (holders (calls s) ≤ 1)%nat.

Lemma snap_ok_step peer s s' : snap_ok s → snap_step peer s s' → snap_ok s'.
Proof.
  intros (H1 & H2 & H3) Hst. unfold snap_ok.
  destruct Hst as [s|s i sem' Hi E|s i Hi|s i sem' Hi E|s i Hi|s i g Hg|s i res g sem' Hg E|s i g res Hi Hg|s i g Hi];
    cbn [peerSnapshotSem calls].
  - rewrite holders_app. change (holders [Waiting]) with 0%nat. lia.
  - unfold try_send in E. destruct (Nat.ltb_spec (held (peerSnapshotSem s)) (capacity (peerSnapshotSem s))); [|done].
    injection E as <-. pose proof (holders_insert _ _ _ Holding Hi). cbn in *. lia.
  - pose proof (holders_insert _ _ _ (Returned None None) Hi). cbn in *. lia.
  - unfold receive in E. destruct (held (peerSnapshotSem s)) as [|n] eqn:Eh; [done|]. injection E as <-.
    pose proof (holders_insert _ _ _ (Returned None None) Hi). cbn in *. lia.
  - pose proof (holders_insert _ _ _ (Spawned Collecting) Hi). cbn in *. lia.
  - destruct Hg as [[Hi ->]|(r & Hi & ->)].
    + pose proof (holders_insert _ _ _ (Spawned (Sent (collect peer))) Hi). cbn in *. lia.
    + pose proof (holders_insert _ _ _ (Returned r (Some (Sent (collect peer)))) Hi). cbn in *. lia.
  - unfold receive in E. destruct (held (peerSnapshotSem s)) as [|n] eqn:Eh; [done|]. injection E as <-.
    destruct Hg as [[Hi ->]|(r & Hi & ->)].
    + pose proof (holders_insert _ _ _ (Spawned (Ended res)) Hi). cbn in *. lia.
    + pose proof (holders_insert _ _ _ (Returned r (Some (Ended res))) Hi). cbn in *. lia.
  - pose proof (holders_insert _ _ _ (Returned (Some res) (Some g)) Hi). cbn in *. destruct (goroutine_holds g); lia.
  - pose proof (holders_insert _ _ _ (Returned None (Some g)) Hi). cbn in *. destruct (goroutine_holds g); lia.
Qed.

(** What a call or its goroutine knows was collected from the peer. *)
Definition from_peer (P : Api.ClusterPeer → Prop) (r : ClusterStatus) : Prop := ∃ peer, P peer ∧ r = collect peer.
Definition goroutine_ok P (g : goroutine) : Prop := match g with Collecting => True | Sent r | Ended r => from_peer P r end.
Definition call_ok P (c : call) : Prop :=
  match c with
  | Waiting | Holding => True
  | Spawned g => goroutine_ok P g
  | Returned r g => (∀ x, r = Some x → from_peer P x) ∧ (∀ x, g = Some x → goroutine_ok P x)
  end.

Lemma calls_insert P cs i c : Forall (call_ok P) cs → call_ok P c → Forall (call_ok P) (<[i := c]> cs).
Proof. intros. by apply Forall_insert. Qed.

Lemma calls_step P peer s s' :
  P peer → Forall (call_ok P) (calls s) → snap_step peer s s' → Forall (call_ok P) (calls s').
Proof.
  intros Hp HF Hst. pose proof (λ i c, proj1 (Forall_lookup (call_ok P) (calls s)) HF i c) as Hl.
  assert (Hcol : from_peer P (collect peer)) by (by exists peer).
  destruct Hst as [s|s i sem' Hi E|s i Hi|s i sem' Hi E|s i Hi|s i g Hg|s i res g sem' Hg E|s i g res Hi Hg|s i g Hi];
    cbn [calls].
  1: apply Forall_app; split; [done|]; by constructor.
  all: apply calls_insert; [done|].
  1-4: by cbn.
  - destruct Hg as [[Hi ->]|(r & Hi & ->)]; [done|]. destruct (Hl _ _ Hi) as [H1 _]. split; [done|]. by intros x [= <-].
  - destruct Hg as [[Hi ->]|(r & Hi & ->)]; [by apply (Hl _ _ Hi)|]. destruct (Hl _ _ Hi) as [H1 H2]. split; [done|].
    intros x [= <-]. exact (H2 _ eq_refl).
  - specialize (Hl _ _ Hi). cbn in Hl. split; [|by intros x [= <-]]. intros x [= <-]. by destruct Hg as [-> | ->].
  - specialize (Hl _ _ Hi). split; [done|]. by intros x [= <-].
Qed.

#[local] Instance peer_le_total : Total Api.peer_le.
Proof.
  intros x y. unfold Api.peer_le. destruct (decide (x.1 = y.1)) as [->|Hne]; [left; apply ClusterInv.ltb_irrefl|].
  rewrite (ClusterInv.ltb_total x.1) by done. destruct (String.ltb y.1 x.1); auto.
Qed.

(** The peer is asked by one goroutine at a time, however many callers have
    given up; the semaphore is free again when none of them runs; and a status that
    is returned is one the peer had, with its members in the order of their names. *)
Theorem snapshot_exact P s :
  rtc (λ s s', ∃ peer, P peer ∧ snap_step peer s s') (mkSnapshots (mkSemaphore 0 1) []) s →
  (holders (calls s) ≤ 1)%nat ∧
  (is_Some (try_send (peerSnapshotSem s)) ↔ holders (calls s) = 0%nat) ∧
  ∀ i r g, calls s !! i = Some (Returned (Some r) g) →
    ∃ peer, P peer ∧ r = collect peer ∧ cs_Peers r ≡ₚ Api.cp_Peers peer ∧ Sorted Api.peer_le (cs_Peers r).
Proof.
  intros Hr. assert (Hs : snap_ok s ∧ Forall (call_ok P) (calls s)).
  { remember (mkSnapshots (mkSemaphore 0 1) []) as s0 eqn:E0.
    assert (H0 : snap_ok s0 ∧ Forall (call_ok P) (calls s0)).
    { subst. unfold snap_ok, holders. cbn. split; [split_and!; lia|constructor]. }
    clear E0. induction Hr as [s|s0 s1 s2 (peer & Hp & Hst) _ IH]; [done|]. apply IH. destruct H0.
    split; [by eapply snap_ok_step|by eapply calls_step]. }
  destruct Hs as [(H1 & H2 & H3) HF]. split_and!; [done| |].
  - unfold try_send. rewrite H1, H2. destruct (Nat.ltb_spec (holders (calls s)) 1).
    + split; [intros _; lia|done].
    + split; [by intros [? ?]|lia].
  - intros i r g Hi. destruct (proj1 (Forall_lookup _ _) HF _ _ Hi) as [Hf _].
    destruct (Hf r eq_refl) as (peer & Hp & ->). exists peer. split_and!; [done|done| |].
    + apply merge_sort_Permutation.
    + cbn. apply Sorted_merge_sort, _.
Qed.

(** *** Examples *)
Definition crowd : server :=
  mkServer (mkLimiter (mkSemaphore 1 1) 1 0) [mkRequest 0 true false] [].
Lemma limiter_exact_witness :
  held (inFlightSem (limits crowd)) = 1%nat ∧ is_ok (enter true (limits crowd)).2 = false.
Proof.
  assert (Hr : rtc (serve None) (new_server 4 1) crowd).
  { eapply rtc_l; [|apply rtc_refl]. apply (serve_arrive None (new_server 4 1) 0 true _ (Ok true)).
    - intros [H|H]; by apply elem_of_nil in H.
    - reflexivity. }
  destruct (limiter_exact 4 1 None crowd Hr) as (H1 & _ & _ & _ & _ & H2). split; [exact H1|]. by apply H2.
Defined.
End Admission.
