(* ===== verification/Cli.v ===== *)
(** * The command line client amtool (cli/)

    What the commands make of their arguments before they call the API, and of
    the answers: silences are added, updated, queried and imported, alerts are
    added, and routes are tested.  The requests themselves go to the handlers of
    the API; parsing of dates and durations belongs to other packages and is an
    argument. *)

From Stdlib Require Import Ascii String.
From stdpp Require Import base gmap strings list sorting relations.
From S2P Require Import Prelude Utf8 Labels Silence Instances Unquote Strconv Route MatchLexer MatchParser Compat Api.

Module Cli.
#[local] Open Scope Z_scope.

Inductive error :=
| ParseError (e : Compat.error)
| NoMatchers | NoIDs
| BadTime | BadDuration | ZeroDuration
| StartAfterEnd
| CommentRequired
| NotKeyValue            (** annotations or labels that are not key=value pairs *)
| Http (code : Z)
| NotImported (errCount count : nat).

(** ** Matchers (cli/utils.go) *)
Definition TypeMatcher `{Regexp} (m : Labels.Matcher) : Api.OMatcher :=
  let isEqual := bool_decide (Labels.Type_ m = Labels.MatchEqual) || bool_decide (Labels.Type_ m = Labels.MatchRegexp) in
  let isRegex := bool_decide (Labels.Type_ m = Labels.MatchRegexp) || bool_decide (Labels.Type_ m = Labels.MatchNotRegexp) in
  Api.mkOMatcher (Labels.Name m) (Labels.Value m) (Some isEqual) (Some isRegex).
Definition TypeMatchers `{Regexp} (ms : list Labels.Matcher) : list Api.OMatcher := TypeMatcher <$> ms.

Section cli.
Context `{RE : Regexp, LV : LabelValidation, UP : UnicodePrint}.
(** [compat.Matcher], [time.Parse] and [model.ParseDuration]. *)
Context (mode : Compat.mode).
Context (parse_time : string → option time) (parse_duration : string → option duration).
Abbreviation Matcher := (Compat.parseMatcher mode).

(** The first argument may be the name of an alert only. *)
Definition implicit_alertname (args : list string) : list string :=
  match args with
  | [] => []
  | a :: args => (if is_ok (Matcher a) then a else "alertname=" +:+ Quote a) :: args
  end.

Fixpoint parse_all (args : list string) : result error (list Labels.Matcher) :=
  match args with
  | [] => Ok []
  | a :: args =>
      match Matcher a with
      | Err e => Err (ParseError e)
      | Ok m => ms ← parse_all args; Ok (m :: ms)
      end
  end.

(** Labels and annotations: later ones win. *)
Fixpoint key_values (args : list string) (ls : LabelSet) : result error LabelSet :=
  match args with
  | [] => Ok ls
  | a :: args =>
      match Matcher a with
      | Err e => Err (ParseError e)
      | Ok m =>
          if bool_decide (Labels.Type_ m = Labels.MatchEqual)
          then key_values args (<[Labels.Name m := Labels.Value m]> ls)
          else Err NotKeyValue
      end
  end.

Definition time_arg (s : string) (none : time) : result error time :=
  if bool_decide (s = ""%string) then Ok none
  else match parse_time s with Some t => Ok t | None => Err BadTime end.

(** The end: the flag, or the start and a duration that is not zero. *)
Definition end_after (start : time) (duration : string) : result error time :=
  match parse_duration duration with
  | None => Err BadDuration
  | Some d => if d =? 0 then Err ZeroDuration else Ok (start + d)
  end.

(** ** amtool silence add (cli/silence_add.go) *)
Record silenceAddCmd := mkSilenceAdd {
  sa_author : string;
  sa_requireComment : bool;
  sa_duration : string;
  sa_start : string;
  sa_end : string;
  sa_comment : string;
  sa_matchers : list string;
  sa_annotations : list string;
}.

Definition add (c : silenceAddCmd) (now : time) : result error Api.PostableSilence :=
  matchers ← parse_all (implicit_alertname (sa_matchers c));
  if bool_decide (matchers = []) then Err NoMatchers else
  startsAt ← time_arg (sa_start c) now;
  endsAt ← (if bool_decide (sa_end c = ""%string) then end_after startsAt (sa_duration c) else time_arg (sa_end c) 0);
  if After startsAt endsAt then Err StartAfterEnd else
  if sa_requireComment c && bool_decide (sa_comment c = ""%string) then Err CommentRequired else
  annotations ← (match sa_annotations c with [] => Ok None | l => Some <$> key_values l ∅ end);
  Ok (Api.mkPostableSilence ""
        (Api.mkOSilence startsAt endsAt (TypeMatchers matchers) (sa_comment c) (sa_author c) annotations)).

(** ** amtool silence update (cli/silence_update.go), for one silence *)
Record silenceUpdateCmd := mkSilenceUpdate {
  su_duration : string;
  su_start : string;
  su_end : string;
  su_comment : string;
}.

Definition update (c : silenceUpdateCmd) (sil : Api.GettableSilence) : result error Api.PostableSilence :=
  let s := Api.gs_Silence sil in
  startsAt ← time_arg (su_start c) (Api.os_StartsAt s);
  endsAt ←
    (if bool_decide (su_end c = ""%string) then
       if bool_decide (su_duration c = ""%string) then Ok (Api.os_EndsAt s) else end_after startsAt (su_duration c)
     else time_arg (su_end c) 0);
  if After startsAt endsAt then Err StartAfterEnd else
  let comment := if bool_decide (su_comment c = ""%string) then Api.os_Comment s else su_comment c in
  Ok (Api.mkPostableSilence (Api.gs_ID sil)
        (Api.mkOSilence startsAt endsAt (Api.os_Matchers s) comment (Api.os_CreatedBy s) (Api.os_Annotations s))).

(** ** amtool silence query (cli/silence_query.go) *)
Record silenceQueryCmd := mkSilenceQuery {
  sq_expired : bool;
  sq_createdBy : string;
  sq_ID : string;
  sq_within : duration;
}.

(** Whether a silence of the answer is displayed; the clock is read for every
    test. *)
Definition displayed (c : silenceQueryCmd) (now1 now2 now3 now4 : time) (sil : Api.GettableSilence) : bool :=
  let e := Api.os_EndsAt (Api.gs_Silence sil) in
  negb (negb (sq_expired c) && Before e now1) &&
  negb (sq_expired c && After e now2) &&
  negb (negb (sq_expired c) && (0 <? sq_within c) && After e (now3 + sq_within c)) &&
  negb (sq_expired c && (0 <? sq_within c) && Before e (now4 - sq_within c)) &&
  negb (negb (bool_decide (sq_createdBy c = ""%string)) &&
        negb (bool_decide (Api.os_CreatedBy (Api.gs_Silence sil) = sq_createdBy c))) &&
  negb (negb (bool_decide (sq_ID c = ""%string)) && negb (bool_decide (sq_ID c = Api.gs_ID sil))).

(** ** amtool alert add (cli/alert_add.go) *)
Record alertAddCmd := mkAlertAdd {
  aa_annotations : list string;
  aa_generatorURL : string;
  aa_labels : list string;
  aa_start : string;
  aa_end : string;
}.

Definition addAlert (a : alertAddCmd) : result error Api.PostableAlert :=
  ls ← key_values (implicit_alertname (aa_labels a)) ∅;
  annotations ← key_values (aa_annotations a) ∅;
  startsAt ← time_arg (aa_start a) 0;
  endsAt ← time_arg (aa_end a) 0;
  Ok (Api.mkPostableAlert ls annotations startsAt endsAt (aa_generatorURL a)).

(** ** amtool silence import (cli/silence_import.go) *)
Section import.
Context {Srv : Type}.
(** The answer of the server to a posted silence: [None] is not found. *)
Inductive post_answer := Posted (id : string) | NotFound | Failed (code : Z).
Context (PostSilences : Api.PostableSilence → Srv → Srv * post_answer).

Definition without_id (s : Api.PostableSilence) : Api.PostableSilence := Api.mkPostableSilence "" (Api.po_Silence s).

(** One round of [addSilenceWorker]. *)
Definition addSilence (s : Api.PostableSilence) (srv : Srv) : Srv * post_answer :=
  match PostSilences s srv with
  | (srv, NotFound) => PostSilences (without_id s) srv
  | r => r
  end.
Definition is_error (a : post_answer) : bool := match a with Posted _ => false | _ => true end.

(** The decoder's silences that are left, the channel, the silences the workers
    have taken, the server, and what was answered. *)
Record import_state := mkImport {
  im_todo : list Api.PostableSilence;
  im_queue : list Api.PostableSilence;
  im_busy : list Api.PostableSilence;
  im_srv : Srv;
  im_done : list (Api.PostableSilence * post_answer);
}.
Definition channel_size : nat := 100.

Definition decoded (force : bool) (s : Api.PostableSilence) : Api.PostableSilence := if force then without_id s else s.

Inductive import_step (force : bool) (workers : nat) : import_state → import_state → Prop :=
| import_send s todo q b srv d :
    (length q < channel_size)%nat →
    import_step force workers (mkImport (s :: todo) q b srv d) (mkImport todo (q ++ [decoded force s]) b srv d)
| import_take s todo q b srv d :
    (length b < workers)%nat →
    import_step force workers (mkImport todo (s :: q) b srv d) (mkImport todo q (b ++ [s]) srv d)
| import_post s todo q b1 b2 srv d srv' a :
    addSilence s srv = (srv', a) →
    import_step force workers (mkImport todo q (b1 ++ s :: b2) srv d) (mkImport todo q (b1 ++ b2) srv' (d ++ [(s, a)])).

Definition import_start (input : list Api.PostableSilence) (srv : Srv) : import_state := mkImport input [] [] srv [].

(** [closeChannels] waits for the workers, not for the channel to be empty. *)
Definition import_finished (workers : nat) (s : import_state) : Prop :=
  im_todo s = [] ∧ im_busy s = [] ∧ (im_queue s = [] ∨ workers = 0%nat).

Definition import_result (count : nat) (s : import_state) : result error () :=
  let errCount := length (List.filter (λ x, is_error x.2) (im_done s)) in
  if (0 <? errCount)%nat then Err (NotImported errCount count) else Ok ().
End import.

(** ** amtool config routes (cli/routing.go, cli/test_routing.go) *)
Definition resolveAlertReceivers (mainRoute : Route.route) (lset : LabelSet) : list string :=
  Api.match_receivers mainRoute lset.

(** The tree that is drawn: the slug of a route, with its receiver when the route
    is a final one. *)
Inductive tree := Branch (matchers : list Labels.Matcher) (receiver : option string) (branches : list tree).

Fixpoint getMatchingTree (r : Route.route) (lset : LabelSet) : tree :=
  let branches :=
    (fix loop (rs : list Route.route) : list tree :=
       match rs with
       | [] => []
       | c :: rs =>
           if Labels.matchesb (Route.Matchers c) lset
           then getMatchingTree c lset :: (if Route.Continue c then loop rs else [])
           else loop rs
       end) (Route.Routes r) in
  Branch (Route.Matchers r) (if bool_decide (branches = []) then Some (Route.Receiver (Route.Opts r)) else None) branches.

(** The receivers that the tree shows, from top to bottom. *)
Fixpoint shown (t : tree) : list string :=
  match t with Branch _ rcv bs => match rcv with Some r => [r] | None => [] end ++ concat (map shown bs) end.

Definition routingTest (mainRoute : Route.route) (args : list string) (expected : string)
    : result error (string * bool) :=
  ls ← key_values args ∅;
  let slug := String.concat "," (resolveAlertReceivers mainRoute ls) in
  Ok (slug, bool_decide (expected = ""%string) || bool_decide (expected = slug)).
End cli.

(** ** Theorems *)
Section theorems.
Context `{RE : Regexp, LV : LabelValidation, UP : UnicodePrint}.

(** *** Matchers arrive as they were typed *)
Lemma parse_classic_wf s m : Compat.ParseMatcher s = Ok m → Labels.wf_matcher m.
Proof.
  unfold Compat.ParseMatcher, Compat.ParseMatcher_bytes. intros E. repeat (case_match; simplify_eq; try done).
  all: apply result_bind_Ok in E as ([v q] & _ & E); destruct q; [done|];
    destruct (Labels.NewMatcher _ _ _) as [m'|] eqn:Em; [|done]; injection E as <-; by eapply Labels.NewMatcher_wf.
Qed.

Lemma parse_utf8_wf s m : MatchParser.Matcher s = Ok m → Labels.wf_matcher m.
Proof.
  unfold MatchParser.Matcher. destruct (MatchParser.Matchers s) as [ms|] eqn:E; [|done].
  destruct (MatchParserInv.exact_Matchers s) as (_ & _ & H). apply H in E as (ts & ms' & Hl & Hs & E).
  cbn in Hs, E. subst. apply MatchParserInv.sentence_wf in Hs.
  destruct ms' as [|m' [|]]; intros [= <-]. by inversion Hs.
Qed.

Lemma parseMatcher_wf mode s m : Compat.parseMatcher mode s = Ok m → Labels.wf_matcher m.
Proof.
  destruct mode; cbn.
  - apply parse_classic_wf.
  - unfold Compat.UTF8MatcherParser. destruct (Compat.has_brace s); [done|].
    destruct (MatchParser.Matcher s) eqn:E; [|done]. intros [= <-]. by apply (parse_utf8_wf s).
  - unfold Compat.FallbackMatcherParser, Compat.fallback. destruct (Compat.has_brace s); [done|].
    destruct (MatchParser.Matcher s) eqn:E; [|apply parse_classic_wf].
    destruct (Compat.ParseMatcher s) eqn:E'; [case_decide|]; intros [= <-]; eauto using parse_utf8_wf, parse_classic_wf.
Qed.

(** A typed matcher that goes through the API is compiled to itself. *)
Lemma TypeMatcher_compiles m :
  Labels.wf_matcher m → Silence.compile_matcher (Api.postable_matcher (TypeMatcher m)) = Ok m.
Proof.
  intros Hwf. unfold Labels.wf_matcher in Hwf.
  assert (Ht : Silence.pm_Type (Api.postable_matcher (TypeMatcher m)) =
    match Labels.Type_ m with
    | Labels.MatchEqual => Silence.EQUAL | Labels.MatchNotEqual => Silence.NOT_EQUAL
    | Labels.MatchRegexp => Silence.REGEXP | Labels.MatchNotRegexp => Silence.NOT_REGEXP
    end) by (unfold Api.postable_matcher, TypeMatcher; by destruct (Labels.Type_ m)).
  unfold Silence.compile_matcher. rewrite Ht. change (Silence.pm_Name _) with (Labels.Name m).
  change (Silence.pm_Pattern _) with (Labels.Value m).
  destruct (Labels.Type_ m); unfold mbind, result_bind; by rewrite Hwf.
Qed.

Lemma TypeMatchers_compile ms :
  Forall Labels.wf_matcher ms → Silence.compile_matchers (Api.postable_matcher <$> TypeMatchers ms) = Ok ms.
Proof.
  induction 1 as [|m ms Hm _ IH]; [done|]. cbn [TypeMatchers fmap list_fmap Silence.compile_matchers].
  rewrite TypeMatcher_compiles by done. cbn [mbind result_bind]. unfold TypeMatchers in IH. by rewrite IH.
Qed.

Lemma parse_all_wf mode args ms : parse_all mode args = Ok ms → Forall Labels.wf_matcher ms.
Proof.
  revert ms. induction args as [|a args IH]; intros ms; cbn; [by intros [= <-]|].
  destruct (Compat.parseMatcher mode a) eqn:E; [|done]. intros (ms' & Hms & [= <-])%result_bind_Ok.
  constructor; [by eapply parseMatcher_wf|by apply IH].
Qed.

(** C35: the silence that amtool posts has the matchers of the arguments: what the
    server compiles from it are the matchers the arguments were parsed to, so it
    mutes exactly the label sets they match; its times are the flags', or the
    current time and the duration. *)
Theorem amtool_add_exact mode parse_time parse_duration c now ps :
  add mode parse_time parse_duration c now = Ok ps →
  ∃ ms, parse_all mode (implicit_alertname mode (sa_matchers c)) = Ok ms ∧ ms ≠ [] ∧
    Silence.compile_sets (Silence.MatcherSets (Api.PostableSilenceToProto ps)) = Ok [ms] ∧
    (∀ lset, Labels.matches_setb [ms] lset = true ↔ Labels.sat_all ms lset) ∧
    (if bool_decide (sa_start c = ""%string) then Api.os_StartsAt (Api.po_Silence ps) = now
     else parse_time (sa_start c) = Some (Api.os_StartsAt (Api.po_Silence ps))) ∧
    (if bool_decide (sa_end c = ""%string)
     then ∃ d, parse_duration (sa_duration c) = Some d ∧ d ≠ 0 ∧
       Api.os_EndsAt (Api.po_Silence ps) = Api.os_StartsAt (Api.po_Silence ps) + d
     else parse_time (sa_end c) = Some (Api.os_EndsAt (Api.po_Silence ps))) ∧
    Api.os_StartsAt (Api.po_Silence ps) ≤ Api.os_EndsAt (Api.po_Silence ps).
Proof.
  unfold add. intros (ms & Hms & E)%result_bind_Ok. case_bool_decide as Hne; [done|].
  apply result_bind_Ok in E as (st & Hst & E). apply result_bind_Ok in E as (en & Hen & E).
  destruct (After st en) eqn:Ha; [done|]. case_match; [done|].
  apply result_bind_Ok in E as (ann & _ & [= <-]). exists ms. cbn [Api.po_Silence Api.os_StartsAt Api.os_EndsAt].
  assert (Hwf : Forall Labels.wf_matcher ms) by (by eapply parse_all_wf).
  split_and!; [done|done| | | | |].
  - cbn. rewrite TypeMatchers_compile by done. done.
  - intros lset. rewrite Labels.matches_setb_spec by (by constructor). unfold Labels.sat_any.
    rewrite Exists_cons, Exists_nil. tauto.
  - unfold time_arg in Hst. revert Hst. destruct (bool_decide (sa_start c = ""%string)); [intros; congruence|].
    destruct (parse_time (sa_start c)); intros; congruence.
  - unfold time_arg, end_after in Hen. revert Hen. destruct (bool_decide (sa_end c = ""%string)).
    + destruct (parse_duration (sa_duration c)) as [d|]; [|done]. destruct (Z.eqb_spec d 0); [done|].
      intros [= <-]. eauto.
    + destruct (parse_time (sa_end c)); intros; congruence.
  - unfold After in Ha. lia.
Qed.

(** *** The first argument as a name of an alert *)
Definition alertname_matcher (s : string) : Labels.Matcher := Labels.mkMatcher Labels.MatchEqual "alertname" s None.

Lemma alertname_sentence s :
  ValidString s = true →
  ∃ ts, MatchParserInv.lexes (MatchLexer.new_lexer (bytes ("alertname=" +:+ Quote s))) ts ∧
    MatchParserInv.sentence ts [alertname_matcher s].
Proof.
  intros Hv. set (text := bytes ("alertname=" +:+ Quote s)).
  destruct (MatchPrint.Quote_text s Hv) as (q & Hq & Hqt & Hu).
  assert (Ht : text = bytes "alertname" ++
    MatchLexerInv.op_bytes (MatchPrint.op_kind (Labels.Type_ (alertname_matcher s))) ++ bytes (Quote s) ++ []).
  { unfold text. rewrite app_nil_r. change "alertname="%string with ("alertname" +:+ "=")%string.
    by rewrite !bytes_app, <- app_assoc. }
  assert (Hr : MatchParserInv.ready (MatchLexer.new_lexer text) text).
  { split; [|done]. apply MatchLexerInv.cur_new, bytes_is_byte. }
  rewrite Ht in Hr at 2.
  destruct (MatchPrint.lex_text (alertname_matcher s) (bytes "alertname") (bytes (Quote s)) (MatchLexer.new_lexer text) [])
    as (l & t1 & t2 & t3 & Hm & [Hc He] & Hl); [done|done|done|by right|by exists q; rewrite Hq|done|].
  exists [t1; t2; t3]. split; [|by apply MatchParserInv.sentence_bare, MatchParserInv.seq_last].
  apply Hl. destruct (MatchLexerInv.scan_eof l Hc He) as (l' & Hs & _). by eapply MatchParserInv.lexes_end.
Qed.

Lemma alertname_no_brace s : ValidString s = true → Compat.has_brace ("alertname=" +:+ Quote s) = false.
Proof.
  intros Hv. destruct (MatchPrint.Quote_text s Hv) as (q & Hq & _). unfold Compat.has_brace.
  rewrite bytes_app, Hq, app_comm_cons, app_assoc, rev_app_distr. done.
Qed.

(** an argument that is not a matcher stands for the alert of that name: with
    the UTF-8 parser the matcher that amtool makes of it is for exactly this
    name, whatever characters it has. *)
Theorem implicit_alertname_exact s args :
  ValidString s = true → is_ok (Compat.parseMatcher Compat.UTF8StrictMode s) = false →
  parse_all Compat.UTF8StrictMode (implicit_alertname Compat.UTF8StrictMode (s :: args)) =
    (ms ← parse_all Compat.UTF8StrictMode args; Ok (alertname_matcher s :: ms)).
Proof.
  intros Hv Hno. unfold implicit_alertname. rewrite Hno. cbn [parse_all Compat.parseMatcher].
  unfold Compat.UTF8MatcherParser. rewrite alertname_no_brace by done.
  destruct (alertname_sentence s Hv) as (ts & Hl & Hs).
  destruct (MatchParserInv.exact_Matchers ("alertname=" +:+ Quote s)) as (_ & _ & H).
  assert (E : MatchParser.Matchers ("alertname=" +:+ Quote s) = Ok [alertname_matcher s]) by (apply H; by exists ts, [alertname_matcher s]).
  unfold MatchParser.Matcher. by rewrite E.
Qed.

(** *** Routes *)
Definition tree_loop (lset : LabelSet) : list Route.route → list tree :=
  fix loop rs :=
    match rs with
    | [] => []
    | c :: rs =>
        if Labels.matchesb (Route.Matchers c) lset
        then getMatchingTree c lset :: (if Route.Continue c then loop rs else [])
        else loop rs
    end.
Lemma getMatchingTree_eq r lset :
  getMatchingTree r lset =
    Branch (Route.Matchers r) (if bool_decide (tree_loop lset (Route.Routes r) = []) then Some (Route.Receiver (Route.Opts r)) else None)
      (tree_loop lset (Route.Routes r)).
Proof. by destruct r. Qed.

Definition receiver_at (root : Route.route) (p : Route.position) : option string :=
  (λ r, Route.Receiver (Route.Opts r)) <$> Route.node_at root p.

Lemma node_at_snoc r p i : Route.node_at r (p ++ [i]) = (n ← Route.node_at r p; Route.Routes n !! i).
Proof.
  revert r. induction p as [|j p IH]; intros r; cbn; [by destruct (Route.Routes r !! i)|].
  destruct (Route.Routes r !! j) as [c|]; [|done]. cbn. apply IH.
Qed.

(** The loops over the children agree when they do on every child. *)
Lemma tree_loop_shown root lset p rs i :
  Forall (λ c, ∀ p, Route.node_at root p = Some c → Labels.matchesb (Route.Matchers c) lset = true →
    omap (receiver_at root) (Route.Match_ c lset p) = shown (getMatchingTree c lset)) rs →
  (∀ j c, rs !! j = Some c → Route.node_at root (p ++ [(i + j)%nat]) = Some c) →
  omap (receiver_at root) (Route.match_loop lset p rs i) = concat (map shown (tree_loop lset rs)) ∧
  (Route.match_loop lset p rs i = [] ↔ tree_loop lset rs = []).
Proof.
  intros HF. revert i. induction HF as [|c rs Hc _ IH]; intros i Hat; [done|]. cbn [Route.match_loop tree_loop].
  destruct (IH (S i)) as [IH1 IH2].
  { intros j c' Hj. rewrite <- (Hat (S j) c' Hj). do 3 f_equal. lia. }
  pose proof (Hat 0%nat c eq_refl) as Hc0. rewrite Nat.add_0_r in Hc0.
  destruct (Labels.matchesb (Route.Matchers c) lset) eqn:Em.
  - assert (Hne : Route.Match_ c lset (p ++ [i]) ≠ []).
    { intros E%RouteInv.Match_nil. apply E. by apply Labels.matchesb_spec. }
    rewrite bool_decide_eq_true_2 by done. cbn [andb]. split.
    + rewrite omap_app, (Hc _ Hc0 eq_refl). cbn [map concat]. f_equal. destruct (Route.Continue c); cbn; [exact IH1|done].
    + split; [|done]. by intros [E _]%app_nil.
  - assert (Hnil : Route.Match_ c lset (p ++ [i]) = []).
    { apply RouteInv.Match_nil. intros E. apply Labels.matchesb_spec in E. congruence. }
    rewrite Hnil. cbn. done.
Qed.

Lemma tree_shown root lset r : ∀ p, Route.node_at root p = Some r → Labels.matchesb (Route.Matchers r) lset = true →
  omap (receiver_at root) (Route.Match_ r lset p) = shown (getMatchingTree r lset).
Proof.
  induction r as [o ms c rs idx IH] using Route.route_tree_ind. intros p Hp Hm.
  rewrite Route.Match_eq, getMatchingTree_eq. cbn [Route.Matchers] in Hm |- *. rewrite Hm. cbn [negb Route.Routes Route.Opts].
  destruct (tree_loop_shown root lset p rs 0 IH) as [H1 H2].
  { intros j c' Hj. rewrite node_at_snoc, Hp. cbn. exact Hj. }
  cbn zeta. case_bool_decide as Hall.
  - rewrite bool_decide_eq_true_2 by (by apply H2). rewrite (proj1 H2 Hall). cbn. unfold receiver_at. by rewrite Hp.
  - rewrite bool_decide_eq_false_2 by (by intros E%H2). cbn. exact H1.
Qed.

(** C36: the tree that amtool draws for a label set marks as final exactly the
    routes the dispatcher would take, in its order: the receivers it shows are
    those that the test prints. *)
Theorem routes_test_exact root lset :
  RouteInv.accepts root lset → shown (getMatchingTree root lset) = resolveAlertReceivers root lset.
Proof.
  intros Ha%Labels.matchesb_spec. symmetry. unfold resolveAlertReceivers, Api.match_receivers, Route.Match.
  by apply (tree_shown root lset root []).
Qed.

(** *** Updates *)
(** An update keeps the identifier, the matchers, the author and the annotations,
    and changes what its flags say. *)
Lemma amtool_update_exact parse_time parse_duration c sil ps :
  update parse_time parse_duration c sil = Ok ps →
  Api.po_ID ps = Api.gs_ID sil ∧
  Api.os_Matchers (Api.po_Silence ps) = Api.os_Matchers (Api.gs_Silence sil) ∧
  Api.os_CreatedBy (Api.po_Silence ps) = Api.os_CreatedBy (Api.gs_Silence sil) ∧
  Api.os_Annotations (Api.po_Silence ps) = Api.os_Annotations (Api.gs_Silence sil) ∧
  (su_start c = ""%string → Api.os_StartsAt (Api.po_Silence ps) = Api.os_StartsAt (Api.gs_Silence sil)) ∧
  (su_end c = ""%string → su_duration c = ""%string →
     Api.os_EndsAt (Api.po_Silence ps) = Api.os_EndsAt (Api.gs_Silence sil)) ∧
  (su_comment c = ""%string → Api.os_Comment (Api.po_Silence ps) = Api.os_Comment (Api.gs_Silence sil)).
Proof.
  unfold update. intros (st & Hst & E)%result_bind_Ok. apply result_bind_Ok in E as (en & Hen & E).
  destruct (After st en); [done|]. injection E as <-. cbn. split_and!; try done.
  - intros Hs. unfold time_arg in Hst. rewrite Hs in Hst. by injection Hst.
  - intros He Hd. rewrite He, Hd in Hen. by injection Hen.
  - intros Hc. by rewrite Hc.
Qed.

(** *** Imports *)
Section import.
Context {Srv : Type} (PostSilences : Api.PostableSilence → Srv → Srv * post_answer).
Abbreviation step := (import_step PostSilences).

(** Every silence of the input is in exactly one place. *)
Definition accounted (force : bool) (s : @import_state Srv) : list Api.PostableSilence :=
  (im_done s).*1 ++ im_busy s ++ im_queue s ++ (decoded force <$> im_todo s).

Lemma import_step_accounted force workers s s' :
  step force workers s s' → accounted force s ≡ₚ accounted force s'.
Proof.
  intros Hs. destruct Hs as [s todo q b srv d Hq|s todo q b srv d Hb|s todo q b1 b2 srv d srv' a Ha];
    unfold accounted; cbn [im_done im_busy im_queue im_todo].
  - cbn. by rewrite <- !app_assoc.
  - by rewrite <- !app_assoc.
  - rewrite fmap_app, <- !app_assoc. cbn. by rewrite <- Permutation_middle.
Qed.

Lemma import_bounds force workers input srv s :
  rtc (step force workers) (import_start input srv) s → (length (im_busy s) ≤ workers)%nat.
Proof.
  intros Hr. remember (import_start input srv) as s0 eqn:E.
  assert (H0 : (length (im_busy s0) ≤ workers)%nat) by (subst; cbn; lia). clear E.
  induction Hr as [s|s0 s1 s2 Hs _ IH]; [done|]. apply IH.
  destruct Hs; cbn in *; rewrite ?length_app in *; cbn in *; lia.
Qed.

(** with at least one worker an import cannot get stuck, and when it has
    ended every silence of the input was posted exactly once, in some order, and
    an error is reported exactly when one of them was not accepted. *)
Theorem import_exact force workers input srv s :
  (0 < workers)%nat → rtc (step force workers) (import_start input srv) s →
  (import_finished workers s ∨ ∃ s', step force workers s s') ∧
  (import_finished workers s →
     (im_done s).*1 ≡ₚ decoded force <$> input ∧
     (import_result (length input) s = Ok () ↔ ∀ x, x ∈ im_done s → is_error x.2 = false)).
Proof.
  intros Hw Hr. assert (Hacc : accounted force s ≡ₚ decoded force <$> input).
  { remember (import_start input srv) as s0 eqn:E.
    assert (H0 : accounted force s0 ≡ₚ decoded force <$> input) by (by subst). clear E.
    induction Hr as [s|s0 s1 s2 Hs _ IH]; [done|]. apply IH. by rewrite <- (import_step_accounted _ _ _ _ Hs). }
  split.
  - destruct s as [todo q b srv' d]. destruct b as [|x b].
    + destruct q as [|x q].
      * destruct todo as [|x todo]; [left; by split_and!; [..|left]|]. right. eexists. apply import_send. cbn. unfold channel_size. lia.
      * right. eexists. by apply import_take.
    + right. destruct (addSilence PostSilences x srv') as [srv2 a] eqn:E. eexists.
      by apply (import_post PostSilences force workers x todo q [] b).
  - intros (Ht & Hb & Hq). destruct Hq as [Hq|Hq]; [|lia]. split.
    + rewrite <- Hacc. unfold accounted. rewrite Ht, Hb, Hq. cbn. by rewrite app_nil_r.
    + unfold import_result. set (errs := List.filter _ _). split.
      * destruct (0 <? length errs)%nat eqn:El; [done|]. intros _ x Hx. apply Nat.ltb_ge in El.
        destruct (is_error x.2) eqn:Ee; [|done]. exfalso. assert (Hin : List.In x errs).
        { apply filter_In. split; [by apply list_elem_of_In|done]. }
        destruct errs; [done|cbn in El; lia].
      * intros Hall. assert (errs = []) as ->; [|done]. destruct errs as [|x errs'] eqn:E; [done|].
        assert (Hin : List.In x errs) by (rewrite E; by left). unfold errs in Hin. apply filter_In in Hin as [Hin Hx].
        rewrite Hall in Hx; [done|]. by apply list_elem_of_In.
Qed.

Lemma import_sends input q srv :
  (length q + length input ≤ channel_size)%nat →
  rtc (step false 0) (mkImport input q [] srv []) (mkImport [] (q ++ input) [] srv []).
Proof.
  revert q. induction input as [|x input IH]; intros q Hl; [by rewrite app_nil_r|].
  eapply rtc_l; [apply import_send; cbn in Hl; lia|].
  replace (q ++ x :: input) with ((q ++ [x]) ++ input) by (by rewrite <- app_assoc). apply IH.
  rewrite length_app. cbn in *. lia.
Qed.

(** Without workers a small import reports success and has posted nothing. *)
Lemma import_without_workers input srv :
  (length input ≤ channel_size)%nat →
  ∃ s, rtc (step false 0) (import_start input srv) s ∧ import_finished 0 s ∧ im_done s = [] ∧
    import_result (length input) s = Ok ().
Proof.
  intros Hl. exists (mkImport [] input [] srv []). split_and!; [|by split_and!; [..|right]|done|done].
  by apply (import_sends input []).
Qed.
End import.
End theorems.

(** *** Examples *)
#[local] Instance ascii_print : UnicodePrint := λ r, between 32 126 r.

Definition ex_times (s : string) : option time := if bool_decide (s = "noon"%string) then Some 1000 else None.
Definition ex_durations (s : string) : option duration := if bool_decide (s = "1h"%string) then Some 60 else None.
Definition ex_add : silenceAddCmd := mkSilenceAdd "ops" true "1h" "" "" "maintenance" ["HighLoad"; "job!=db"]%string [].
Definition ex_posted : Api.PostableSilence :=
  match add Compat.FallbackMode ex_times ex_durations ex_add 500 with
  | Ok ps => ps
  | Err _ => Api.mkPostableSilence "" (Api.mkOSilence 0 0 [] "" "" None)
  end.

Lemma amtool_add_exact_witness :
  ∃ ms, Silence.compile_sets (Silence.MatcherSets (Api.PostableSilenceToProto ex_posted)) = Ok [ms] ∧ ms ≠ [] ∧
    Api.os_StartsAt (Api.po_Silence ex_posted) = 500.
Proof.
  destruct (amtool_add_exact Compat.FallbackMode ex_times ex_durations ex_add 500 ex_posted) as (ms & _ & H1 & H2 & _ & H3 & _);
    [vm_compute; reflexivity|].
  exists ms. split_and!; [exact H2|exact H1|exact H3].
Defined.

(** A name with a tab is quoted as strconv.Quote does, which the classic parser
    does not undo; in the fallback mode its reading wins. *)
Definition tab_name : string := of_bytes [97; 9; 98].
Example implicit_alertname_tab :
  is_ok (Compat.parseMatcher Compat.FallbackMode tab_name) = false ∧
  parse_all Compat.FallbackMode (implicit_alertname Compat.FallbackMode [tab_name]) =
    Ok [alertname_matcher (of_bytes [97; 92; 116; 98])].
Proof. split; by vm_compute. Qed.

Lemma implicit_alertname_exact_witness :
  parse_all Compat.UTF8StrictMode (implicit_alertname Compat.UTF8StrictMode [tab_name]) = Ok [alertname_matcher tab_name].
Proof. apply (implicit_alertname_exact tab_name []); by vm_compute. Defined.

Definition ex_post (s : Api.PostableSilence) (n : nat) : nat * post_answer :=
  if bool_decide (Api.po_ID s = ""%string) then (S n, Posted "new") else (n, NotFound).
Definition ex_import : import_state := mkImport [] [] [] 1%nat [(ex_posted, Posted "new")].
Lemma import_exact_witness : (im_done ex_import).*1 ≡ₚ decoded false <$> [ex_posted].
Proof.
  refine (proj1 (proj2 (import_exact ex_post false 1 [ex_posted] 0%nat ex_import _ _) _)); [lia| |].
  - eapply rtc_l; [apply import_send; cbn; unfold channel_size; lia|].
    eapply rtc_l; [apply import_take; cbn; lia|].
    eapply rtc_l; [apply (import_post ex_post false 1 ex_posted [] [] [] []); by vm_compute|apply rtc_refl].
  - by split_and!; [..|left].
Defined.

Definition ex_opts (receiver : string) : Route.RouteOpts :=
  let o := Route.DefaultRouteOpts in
  Route.mkRouteOpts receiver (Route.GroupBy o) (Route.GroupByAll o) (Route.GroupWait o) (Route.GroupInterval o)
    (Route.RepeatInterval o) (Route.MuteTimeIntervals o) (Route.ActiveTimeIntervals o) (Route.RouteLabels o).
Definition ex_root : Route.route :=
  Route.mkRoute (ex_opts "default") [] false
    [Route.mkRoute (ex_opts "db") [Labels.mkMatcher Labels.MatchEqual "job" "db" None] true [] 0;
     Route.mkRoute (ex_opts "all") [] false [] 1] 2.
Lemma routes_test_exact_witness :
  shown (getMatchingTree ex_root (<["job" := "db"]> ∅)%string) = ["db"; "all"]%string.
Proof. rewrite routes_test_exact; [by vm_compute|constructor]. Defined.
End Cli.
